(* ===== verification/_CoqProject ===== *)
-Q . S2P
Prelude.v
Blocks.v
MathUtil.v
MemAlgo.v
MemAlgoSpec.v
MemAlgoAlign.v
MemAlgoLcm.v
MemAlgoMany.v
SeqFit.v
SeqFitInv.v
SeqFitOps.v
SeqFitAlloc.v
SeqFitResize.v
SeqFitHeap.v
SeqFitGrow.v
SeqFitProps.v
SeqFitSegment.v
RbTree.v
RbTreeInv.v
RbTreeOps.v
RbTreeAlloc.v
RbTreeHeap.v
RbTreeResize.v
RbTreeSegment.v
RbTreeQuery.v
RbTreeProps.v
MemAlgoProps.v
SegMgrLayout.v
SegMgr.v
SegMgrInv.v
SegMgrOps.v
SegMgrConstruct.v
SegMgrDestroy.v
SegMgrProps.v
Monitor.v
UpgradableMutex.v
SharableMutex.v
MsgQueue.v
MsgQueueIndex.v
MsgQueueInv.v
MsgQueueProps.v
MsgQueueSys.v
OffsetPtr.v
Locks.v
Atomic.v
SpinSync.v
SpinCondition.v
SmartCount.v
SmartPtr.v
SmartPtrInv.v
SmartPtrProps.v
ManagedOpen.v
ManagedOpenProps.v
Condition8a.v
Condition8aProps.v
VectorBuf.v
VectorBufProps.v
BufferBuf.v
NodeAlloc.v
NodeAllocProps.v
MappedRegion.v
MappedRegionProps.v
Singleton.v
SingletonProps.v
RobustMutex.v
RobustMutexProps.v
SyncHandles.v
SyncHandlesProps.v
ConditionAny.v
