(* ===== verification/Prelude.v ===== *)
(** * Boost.Interprocess: a verification library

    Boost.Interprocess lets several processes share memory, place data in it
    and synchronise on it.  Its core is (under src/include/boost/interprocess):
    the memory algorithms, which carve a mapped segment into buffers; the
    pointers stored in the segment, which must survive mapping at different
    bases; the mutexes and lock objects with which the processes coordinate; and
    the message queue built from these parts.  This library models that core
    and proves it correct.

    ** Parts and files

    - [Prelude]: 64-bit words over [Z] ([+!], [-!], [*!] wrap), the state and
      fault monad [M] with its weakest-precondition rules, counting over lists
      of threads, tactics ([dlia], [u64_simpl], [btests], [wp_step]) and the
      hint database [ipc].  A fault is an access outside of the modelled
      memory, a failed BOOST_ASSERT or exhausted fuel.
    - [Blocks]: lists of blocks, the abstract state of both memory algorithms,
      and the abstract heap [heap] (the map from the pointers handed out to the
      bytes of their buffers).
    - [MathUtil]: detail/utilities.hpp and detail/math_functions.hpp, rounding,
      overflow tests, gcd, lcm and logarithms, and the unit conversions of
      mem_algo_common.hpp.
    - [MemAlgo]: mem_algo/detail/mem_algo_common.hpp.  The code is a template
      over the memory algorithm; the class [BlockAlgo] is what it requires of
      it (reading and writing block headers, [priv_deallocate]), and aligned
      allocation, shrinking and [allocate_many] are written against the class.
      [MemAlgoSpec] has the interface [BlockAlgoOk], what an algorithm promises
      to the template ([rep] relates its memory to a list of blocks, [implements]
      to a heap), and [AllocateOk], what its [priv_allocate] promises.  Against
      these, [MemAlgoAlign] proves shrinking and over-aligned allocation,
      [MemAlgoMany] the allocation of many buffers; [MemAlgoLcm] proves the
      arithmetic of growing backwards.  [MemAlgoProps] has the theorems.
    - [SeqFit]: mem_algo/detail/simple_seq_fit_impl.hpp, one definition per
      function.  A segment [seg] has the two fields of every block header as
      finite maps from addresses ([m_next], [m_size]) and the header's
      [m_allocated], [m_size] and [m_extra_hdr_bytes].  [seq_block_algo] is its
      instance of [BlockAlgo].  Each public operation runs under the segment's
      mutex and is one step.
      [SeqFitInv] has the invariant [seg_inv]: the blocks tile the segment, the
      free list links exactly the free blocks in address order, no two free
      blocks are adjacent, the count of allocated bytes is exact.
      [SeqFitOps], [SeqFitAlloc], [SeqFitResize] and [SeqFitGrow] prove the
      operations against it; [SeqFitHeap] gives the instances of [BlockAlgoOk]
      and [AllocateOk].  [SeqFitProps] and [SeqFitSegment] hold the resulting
      theorems.
    - [RbTree]: mem_algo/rbtree_best_fit.hpp, one definition per function.  A
      segment [rbseg] has the four fields of the block headers as finite maps
      ([f_size], [f_prev_size], [f_prev_allocated], [f_allocated]), the tree of
      free blocks and the header's counts.  The tree is a multiset of
      Boost.Intrusive, code that is not part of the repository: the class
      [Imultiset] has its operations, [ImultisetOk] (in [RbTreeInv]) their
      documented behaviour; sorted lists are the instance the witnesses run on.
      [RbTreeInv] has the invariant [rb_inv]: sizes, bits and the sizes stored
      behind free blocks describe a list of blocks, and the tree holds exactly
      the free ones in order of their sizes.  [RbTreeOps], [RbTreeAlloc],
      [RbTreeResize], [RbTreeSegment] and [RbTreeQuery] prove the operations,
      [RbTreeHeap] gives the instances of [BlockAlgoOk] and [AllocateOk],
      [RbTreeProps] has the theorems.
    - [SegMgrLayout], [SegMgr]: segment_manager.hpp with
      detail/segment_manager_helper.hpp, construct_n of detail/named_proxy.hpp
      and the order of names of indexes/iset_index.hpp.  The manager is written
      against [BlockAlgo] and an intrusive set, code of Boost.Intrusive (class
      [Iset]; its documented laws are [IsetOk]).  Memory holds headers, nodes,
      names and objects with their lengths, and writing one destroys what it
      overlaps.  [SegMgrInv] has the invariant [sm_inv]: the table of objects
      describes the memory, every object lies in a buffer of its own, and the
      indexes hold the nodes of the objects with a name.  [SegMgrOps],
      [SegMgrConstruct] and [SegMgrDestroy] prove the operations;
      [SegMgrProps] has the theorems and runs the manager over [RbTree].
    - [Monitor]: what the condition-variable mutexes share.  A function body
      runs under the internal mutex until it returns, throws or waits;
      [Monitor] is the class of such mutexes; [step] interleaves any number of
      threads, with time-outs, spurious wake-ups and exceptions of the waits.
    - [UpgradableMutex], [SharableMutex]:
      sync/interprocess_upgradable_mutex.hpp and
      sync/interprocess_sharable_mutex.hpp, the control word with its bit-field
      widths and every operation, as instances of [Monitor].
    - [MsgQueue]: ipc/message_queue.hpp, the queue header [mq_hdr_t] with its
      circular priority index, the memory layout, [do_send] and [do_receive].
      [MsgQueueIndex] and [MsgQueueInv] prove insertion into the circular index
      (both shifting directions, with and without wrap-around) and the
      invariant [mq_inv]; [MsgQueueProps] has the refinement of the bounded
      priority queue, [MsgQueueSys] the system of concurrent threads, whose
      notifications are separate steps because the code issues them after
      releasing the mutex.
    - [OffsetPtr]: offset_ptr.hpp.  Pointer objects live in a store from
      addresses to offsets, because their meaning depends on their address.
    - [Locks]: sync/scoped_lock.hpp, sync/sharable_lock.hpp and
      sync/upgradable_lock.hpp over an abstract mutex that records the owner.
    - [Atomic]: the operations of detail/atomic.hpp on 32-bit words, and systems
      of any number of threads that interleave between single accesses.  A
      schedule determines the run ([arun]), so runs can be evaluated.
    - [SpinSync]: sync/spin/mutex.hpp, sync/spin/semaphore.hpp and
      sync/spin/recursive_mutex.hpp, with the retry loops of
      sync/detail/common_algorithms.hpp; one program counter per access.  The
      owner field of the recursive mutex is read and written in one access.
    - [SpinCondition]: sync/spin/condition.hpp on top of it; locking
      [m_enter_mut] is the compare-and-swap of the spin mutex.
    - [Condition8a]: sync/detail/condition_algorithm_8a.hpp, [wait] and [signal]
      over semaphores and mutexes given by their contracts; one step per
      blocking call and critical section.  [Condition8aProps] has the
      invariant for runs without time-outs and the theorem.
    - [SmartCount]: the counts of smart_ptr/detail/sp_counted_base_atomic.hpp
      and sp_counted_impl.hpp under concurrent copies, releases and
      [weak_ptr::lock]; one program counter per atomic access.
    - [SmartPtr]: smart_ptr/detail/shared_count.hpp, smart_ptr/shared_ptr.hpp
      and smart_ptr/weak_ptr.hpp, every operation, on any number of pointer
      objects and counts.  [SmartPtrInv] has the invariant [sp_ok] (every count
      is the number of pointer objects) and its form during an operation;
      [SmartPtrProps] proves the operations.
    - [ManagedOpen]: detail/managed_open_or_create_impl.hpp, the creation and
      opening of the device and the protocol on its first word; processes
      interleave between the calls of the operating system and the accesses to
      the word.  [ManagedOpenProps] has the invariant and the theorems.
    - [NodeAlloc]: allocators/detail/allocator_common.hpp with
      allocators/node_allocator.hpp: any number of allocators with and without a
      cache, the pool they share and its count.  The storage of the pool is code
      of Boost.Container (class [PoolImpl], laws [PoolImplOk]).
      [NodeAllocProps] has the invariant and the theorem.
    - [VectorBuf], [BufferBuf]: the stream buffers of streams/vectorstream.hpp
      and streams/bufferstream.hpp under the public functions of
      [std::basic_streambuf].  Pointers into the storage are offsets.
      [VectorBufProps] has the specification, a string with two positions, and
      the refinement.
    - [MappedRegion]: mapped_region.hpp on POSIX systems.  An address space maps
      pages to pages of objects; the system calls are the class [MemOS], their
      documented behaviour [MemOSOk] (in [MappedRegionProps], with the theorems).
    - [Singleton]: detail/intermodule_singleton_common.hpp, the threads of any
      number of modules between the accesses of the state words, and the map from
      types to objects that the modules share.  [SingletonProps] has the
      invariants and the theorem.
    - [RobustMutex]: [robust_spin_mutex] of detail/robust_emulation.hpp, processes
      that may die between any two accesses, with their lock files.
      [RobustMutexProps] has the invariant and the theorem.
    - [ConditionAny]: sync/detail/condition_any_algorithm.hpp, waits and
      notifications over an external lock, an internal mutex and a condition
      variable given by their contracts; one step per call of these.
    - [SyncHandles]: sync/windows/sync_utils.hpp, the tables from the identifiers
      and addresses of synchronisation objects to the open handles of a process;
      opening an object by name is a parameter (class [WinOS]).
      [SyncHandlesProps] has the representation and the theorem.

    ** What is proved

    - Segment, for both algorithms: on every well-formed segment the operations,
      within the bounds below, return without fault and preserve the invariant;
      [allocate], [deallocate],
      resizing (for the best-fit algorithm also backwards), [allocate_aligned]
      and [allocate_many] refine the corresponding operations of the abstract
      heap; allocation is first fit respectively best fit, and complete; buffers
      are disjoint and inside the segment, and writing into them cannot harm
      it; the constructor establishes the invariant; [grow] and [shrink_to_fit]
      keep all buffers; the queries tell the truth.  [SeqFitSegment] and
      [RbTreeProps] (in [rb_defects]) also show, on concrete segments, where the
      code does not do what it means to.
    - Segment manager, over any memory algorithm: construction, search and
      destruction refine a table of objects on every branch, a throwing
      constructor included; objects are aligned, in disjoint buffers and have
      unique names; destroying what was constructed restores table and heap.
    - Mutexes: exclusion and exactness of the control word in every reachable
      state, absence of lost wake-ups and of deadlock, and exact conditions for
      the try functions.  The promotion roll-back of the upgradable mutex does
      lose a wake-up, which [upgr_rollback_loses_wakeup] shows.
    - Message queue: refinement of a bounded priority queue on every branch,
      first-in-first-out order per priority, layout without overlap, absence
      of lost wake-ups.
    - Pointers: the branchless conversions equal the branching ones, round
      trips, relocation, arithmetic, swap, embedded bits.
    - Locks: ownership is held through exactly one lock object, or by the user
      after [release], and exceptions are thrown exactly in the documented states.
    - Spin primitives, for every schedule: the mutex has one owner and its word
      tells whether it has; the recursive mutex counts its owner's locks; the
      semaphore's word is posts minus waits; the condition variable wakes as
      many waiters as it was told to, and its waiter count is exact.
    - Condition variable 8a: without time-outs its counters are exact and no
      signal is lost; [c8_timeout_loses_wakeup] is a run with a time-out in which
      a waiter is forgotten.
    - Smart pointers: every operation keeps the counts exact, leaves the
      pointers the specification says and calls the deleter for exactly the
      objects that lost their last owner; under every schedule the counts are
      never used after they are deallocated.  [alias_drops_owned] shows that the
      aliasing constructor is the exception.
    - Managed segments, for every schedule of creating and opening processes:
      one initialisation, openers after it and with its size, one segment per
      name, and no endless wait.
    - Node allocators: in every reachable state each node is with a client or in
      one cache, and the pool lives as long as its allocators.
    - Stream buffers: every sequence of operations gives the results of the
      string respectively the array; three concrete runs show where [reserve]
      and [swap_vector] do not.
    - Mapped regions: a region shows the requested bytes of its object, errors
      leave the address space as it was, shrinking keeps the remaining bytes.
    - Singletons: one object per type for all modules, constructed once.
    - Robust mutex: at most one living owner and recovery from dead ones, in runs
      in which no thread finds the owner field empty; [robust_two_owners] and
      [robust_stale_check] show that the other runs do break exclusion.
    - Condition variables for any lock: notifications miss no thread that has
      given up its lock, and the nesting of the two locks does not deadlock.
    - Windows handles: the open handles are exactly those of the live objects, as
      long as the system refuses to open none.
    - Utilities: rounding and overflow tests on all machine words, termination
      and correctness of the loops.

    ** Bounds and fuel

    Loops over the free list take one more step than there are block headers;
    the invariant makes the list acyclic, so the theorems show that this fuel
    is never exhausted.  Euclid's loop gets 130 steps, enough for all 64-bit
    words.  The doubling loops take their fuel as an argument, because above
    [2^63] they do not terminate.  [size_type] has 64 bits, [unsigned] 32 bits
    and [Alignment] is 16, as on the usual 64-bit platforms; object sizes and
    addresses are parameters ([SegLayout], [RbLayout], [MqLayout]) with their
    properties as classes ([SegLayoutOk], [RbLayoutOk], [MqLayoutOk]).  Segments lie below [2^63].

    The theorems on sizes hold up to the bound each of them states, beyond which
    the code's own arithmetic wraps around: requests of at most [2^64 - 16] bytes
    (above, [rb_heap_refines] and [seq_heap_refines] say what is served instead),
    [2^62] for aligned requests and mapped regions, [2^58] units for many
    buffers, [2^61] for objects of a segment manager, whose names have fewer than
    65536 characters.  The theorem on each operation also states what its caller
    has to respect (for instance the alignments for growing backwards, the cache
    limit for single nodes, the type of an object that is searched); several
    concrete runs next to the theorems show what the code does otherwise.

    ** What is not modelled

    System calls (creating and opening shared memory objects and files, the
    operating system's mutexes, semaphores and condition variables) and the
    declarations of the Windows interface: there is no logic of the library in
    them.  The containers, the map indexes and the unique pointer are adaptors of
    Boost.Container, Boost.Intrusive and Boost.Move; the named variants of the
    synchronisation objects and the managed memory classes forward to the parts
    above.  The private node allocators and the adaptive pools own a pool of
    Boost.Container and forward to it.  The interprocess mutex and condition
    variable are modelled by their contract: mutual exclusion, and a notification
    wakes a thread that waits at that moment. *)

From Stdlib Require Export ZArith Lia.
From stdpp Require Export base numbers option gmap list.

#[export] Set Default Goal Selector "!".

Open Scope Z_scope.

(** ** Machine words

    [size_type], [std::size_t] and the control words of the mutexes are
    unsigned integers of 64 (or 32, or 16) bits.  They are kept as [Z] and the
    wrap-around of every operation that can overflow is written out. *)

Definition u64 (x : Z) : Z := x mod 18446744073709551616.
Definition u64_max : Z := 18446744073709551615.
Definition in_u64 (x : Z) : Prop := 0 <= x < 18446744073709551616.

Declare Scope u64_scope.
Delimit Scope u64_scope with u64.
Notation "a +! b" := (u64 (a + b)) (at level 50, left associativity) : u64_scope.
Notation "a -! b" := (u64 (a - b)) (at level 50, left associativity) : u64_scope.
Notation "a *! b" := (u64 (a * b)) (at level 40, left associativity) : u64_scope.

(** Boolean comparisons of machine words, and C's conversion to [bool]. *)
Definition nz (x : Z) : bool := negb (x =? 0).

Create HintDb ipc.

Lemma u64_small x : in_u64 x → u64 x = x.
Proof. unfold u64, in_u64. intros H. apply Z.mod_small. lia. Qed.

Lemma u64_range x : in_u64 (u64 x).
Proof. unfold u64, in_u64. apply Z.mod_pos_bound. lia. Qed.

Lemma u64_neg x : -18446744073709551616 <= x < 0 → u64 x = x + 18446744073709551616.
Proof.
  unfold u64. intros H. rewrite <- (Z.mod_add _ 1) by lia.
  apply Z.mod_small. lia.
Qed.

#[export] Hint Resolve u64_range : ipc.

(** Linear arithmetic after the euclidean equations of [/] and [mod] by
    constants have been added. *)
Ltac dlia := unfold in_u64 in *; Z.div_mod_to_equations; lia.

(** Remove the wrap-around of every word operation that does not overflow;
    [u64_side] proves that it does not. *)
Ltac u64_side := unfold in_u64 in *; lia.
Ltac u64_simpl :=
  repeat match goal with
  | |- context [u64 ?x] => rewrite (u64_small x) by u64_side
  | H : context [u64 ?x] |- _ => rewrite (u64_small x) in H by u64_side
  end.

(** Case analysis on the boolean tests of the code, leaving propositions. *)
Ltac btests :=
  repeat match goal with
  | H : (_ && _)%bool = true |- _ => apply andb_true_iff in H as [? ?]
  | H : (_ || _)%bool = false |- _ => apply orb_false_iff in H as [? ?]
  | H : negb _ = true |- _ => apply negb_true_iff in H
  | H : negb _ = false |- _ => apply negb_false_iff in H
  | H : (_ =? _) = true |- _ => apply Z.eqb_eq in H
  | H : (_ =? _) = false |- _ => apply Z.eqb_neq in H
  | H : (_ <? _) = true |- _ => apply Z.ltb_lt in H
  | H : (_ <? _) = false |- _ => apply Z.ltb_ge in H
  | H : (_ <=? _) = true |- _ => apply Z.leb_le in H
  | H : (_ <=? _) = false |- _ => apply Z.leb_gt in H
  | H : nz _ = true |- _ => unfold nz in H
  | H : nz _ = false |- _ => unfold nz in H
  end.

Ltac ztest x y := destruct (Z.ltb_spec x y).

(** ** Counting the elements of a list that satisfy a test *)

Definition b2z (b : bool) : Z := if b then 1 else 0.

Section counting.
Context {A : Type}.

Fixpoint tcount (f : A → bool) (ts : list A) : Z :=
  match ts with [] => 0 | th :: ts => b2z (f th) + tcount f ts end.

Lemma tcount_nonneg f ts : 0 <= tcount f ts.
Proof. induction ts as [|th ts IH]; simpl; [lia|]. destruct (f th); simpl; lia. Qed.

(** The count without thread [t]. *)
Lemma tcount_split f ts t th th' :
  ts !! t = Some th → ∃ rest, 0 <= rest ∧ tcount f ts = b2z (f th) + rest ∧
    tcount f (<[t := th']> ts) = b2z (f th') + rest.
Proof.
  revert t. induction ts as [|th0 ts IH]; intros [|t]; simpl; [done..| |].
  - intros [= ->]. exists (tcount f ts). split_and!; [apply tcount_nonneg|lia|lia].
  - intros (r & H1 & H2 & H3)%IH. exists (b2z (f th0) + r). rewrite H2.
    split_and!; [destruct (f th0); simpl; lia|lia|]. fold (@insert _ _ _ (@list_insert A) t th' ts).
    rewrite H3. lia.
Qed.

Lemma tcount_le f f' ts : (∀ th, f th = true → f' th = true) → tcount f ts <= tcount f' ts.
Proof.
  intros Hf. induction ts as [|th ts IH]; simpl; [lia|]. specialize (Hf th).
  destruct (f th), (f' th); simpl; lia || (discriminate Hf; done).
Qed.

(** The same, with the other threads given by a list of their own. *)
Lemma tcount_others (x0 : A) f ts t th th' :
  ts !! t = Some th → f (x0) = false →
  tcount f ts = b2z (f th) + tcount f (<[t := x0]> ts) ∧
  tcount f (<[t := th']> ts) = b2z (f th') + tcount f (<[t := x0]> ts).
Proof.
  intros Ht Hf. destruct (tcount_split f ts t th (x0) Ht) as (r & _ & E1 & E2).
  destruct (tcount_split f ts t th th' Ht) as (r' & _ & E1' & E2'). rewrite Hf in E2. simpl in E2. lia.
Qed.

Lemma tcount_pos f ts t th : ts !! t = Some th → f th = true → 1 <= tcount f ts.
Proof.
  intros Ht Hf. destruct (tcount_split f ts t th th Ht) as (r & ? & -> & _). rewrite Hf. simpl. lia.
Qed.

Lemma tcount_exists f ts : 0 < tcount f ts → ∃ t th, ts !! t = Some th ∧ f th = true.
Proof.
  induction ts as [|th ts IH]; simpl; [lia|]. destruct (f th) eqn:E; intros Hc.
  - by exists 0%nat, th.
  - destruct IH as (t & th' & Ht & Hf); [simpl in Hc; lia|]. by exists (S t), th'.
Qed.

Lemma tcount_two f ts t t' th th' :
  t ≠ t' → ts !! t = Some th → ts !! t' = Some th' → f th = true → f th' = true → 2 <= tcount f ts.
Proof.
  revert t t'. induction ts as [|th0 ts IH]; intros [|t] [|t']; simpl; try done; intros Hne Ht Ht' Hf Hf'.
  - simplify_eq. rewrite Hf. pose proof (tcount_pos f ts t' th' Ht' Hf'). simpl. lia.
  - simplify_eq. rewrite Hf'. pose proof (tcount_pos f ts t th Ht Hf). simpl. lia.
  - assert (2 <= tcount f ts) by (eapply IH; [|done..]; congruence).
    destruct (f th0); simpl; lia.
Qed.
End counting.

(** ** Effects

    A C++ member function is a state transformer.  It either returns a value
    and a new state, or faults: it reads memory that holds no initialised
    datum ([BadAccess]), one of its [BOOST_ASSERT]s is false
    ([AssertFailed]), or a loop exceeds the fuel given to it ([OutOfFuel]). *)

Inductive fault := BadAccess | AssertFailed | OutOfFuel.

#[export] Instance fault_eq_dec : EqDecision fault.
Proof. solve_decision. Defined.

Inductive outcome (A : Type) := Ret (a : A) | Fault (e : fault).
Arguments Ret {A} _.
Arguments Fault {A} _.

Definition M (S A : Type) : Type := S → outcome (A * S).

#[export] Instance M_ret {S} : MRet (M S) := λ A (a : A) s, Ret (a, s).
#[export] Instance M_bind {S} : MBind (M S) := λ A B (f : A → M S B) m s,
  match m s with
  | Ret (a, s') => f a s'
  | Fault e => Fault e
  end.

Definition get {S} : M S S := λ s, Ret (s, s).
Definition put {S} (s : S) : M S () := λ _, Ret ((), s).
Definition modify {S} (f : S → S) : M S () := λ s, Ret ((), f s).
Definition gets {S A} (f : S → A) : M S A := λ s, Ret (f s, s).
Definition throw {S A} (e : fault) : M S A := λ _, Fault e.

(** [BOOST_ASSERT(b)]. *)
Definition boost_assert {S} (b : bool) : M S () :=
  if b then mret () else throw AssertFailed.

(** Total-correctness weakest precondition: the computation does not fault and
    its result satisfies the postcondition. *)
Definition wp {S A} (m : M S A) (s : S) (Q : A → S → Prop) : Prop :=
  match m s with
  | Ret (a, s') => Q a s'
  | Fault _ => False
  end.

Section wp_rules.
Context {S : Type}.

Lemma wp_ret {A} (a : A) (s : S) (Q : A → S → Prop) : Q a s → wp (mret a) s Q.
Proof. done. Qed.

Lemma wp_bind {A B} (m : M S A) (f : A → M S B) (s : S) Q :
  wp m s (λ a s', wp (f a) s' Q) → wp (m ≫= f) s Q.
Proof. unfold wp, mbind, M_bind. by destruct (m s) as [[a s']|]. Qed.

Lemma wp_mono {A} (m : M S A) (s : S) (Q Q' : A → S → Prop) :
  wp m s Q → (∀ a s', Q a s' → Q' a s') → wp m s Q'.
Proof. unfold wp. destruct (m s) as [[a s']|]; auto. Qed.

Lemma wp_gets {A} (f : S → A) s (Q : A → S → Prop) : Q (f s) s → wp (gets f) s Q.
Proof. done. Qed.

Lemma wp_get (s : S) (Q : S → S → Prop) : Q s s → wp get s Q.
Proof. done. Qed.

Lemma wp_modify (f : S → S) s (Q : () → S → Prop) : Q () (f s) → wp (modify f) s Q.
Proof. done. Qed.

Lemma wp_assert (b : bool) (s : S) (Q : () → S → Prop) :
  b = true → Q () s → wp (boost_assert b) s Q.
Proof. by intros ->. Qed.

(** A total-correctness triple is an equation for the run. *)
Lemma wp_run {A} (m : M S A) (s : S) Q :
  wp m s Q ↔ ∃ a s', m s = Ret (a, s') ∧ Q a s'.
Proof.
  unfold wp. destruct (m s) as [[a s']|e]; naive_solver.
Qed.
End wp_rules.

(** One symbolic step through straight-line code. *)
Ltac wp_step :=
  lazymatch goal with
  | |- wp (mbind _ _) _ _ => apply wp_bind
  | |- wp (mret _) _ _ => apply wp_ret
  | |- wp (gets _) _ _ => apply wp_gets
  | |- wp get _ _ => apply wp_get
  | |- wp (modify _) _ _ => apply wp_modify
  end.
Ltac wp_steps := repeat (wp_step; cbn beta).
