(* ===== verification/Blocks.v ===== *)
(** Lists of blocks: the abstract state of a memory algorithm.

    Both memory algorithms cut a segment into blocks, each a number of units
    of 16 bytes.  The abstract state is the list of the blocks in address
    order, with their sizes and whether they are free; on it the operations of
    the algorithms are operations on lists.  A coarser view is the heap: the
    finite map from the pointers handed out to the bytes each of them may use. *)

From S2P Require Import Prelude.

Record blk := Blk { b_size : Z; b_free : bool }.

#[export] Instance blk_eq_dec : EqDecision blk.
Proof. solve_decision. Defined.

(** The units of a list of blocks, and the units of its allocated blocks. *)
Fixpoint total (bs : list blk) : Z :=
  match bs with [] => 0 | b :: bs => b_size b + total bs end.
Fixpoint used (bs : list blk) : Z :=
  match bs with
  | [] => 0
  | b :: bs => (if b_free b then 0 else b_size b) + used bs
  end.

(** The block after a block of [n] units at [a]. *)
Definition after (a n : Z) : Z := a + 16 * n.

Fixpoint addrs (a : Z) (bs : list blk) : list Z :=
  match bs with [] => [] | b :: bs => a :: addrs (after a (b_size b)) bs end.

(** No two adjacent blocks are free. *)
Fixpoint coalesced (bs : list blk) : Prop :=
  match bs with
  | b :: (b' :: _) as bs' => ¬ (b_free b ∧ b_free b') ∧ coalesced bs'
  | _ => True
  end.

Definition pos_blocks (bs : list blk) : Prop := Forall (λ b, 1 <= b_size b) bs.

(** Every block has at least [m] units. *)
Definition min_blocks (m : Z) (bs : list blk) : Prop := Forall (λ b, m <= b_size b) bs.

(** A free block of [sz] units after [n] of them were allocated: the rest stays
    free if it has at least [d] units, else it goes with the allocated ones. *)
Definition cut (d n sz : Z) : list blk :=
  if n + d <=? sz then [Blk n false; Blk (sz - n) true] else [Blk sz false].

(** The units of the block that [cut] allocates. *)
Definition cut_units (d n sz : Z) : Z := if n + d <=? sz then n else sz.

(** A block of [n] free units put between [pre] and [post], merged with its
    free neighbours. *)
Definition merge_post (n : Z) (post : list blk) : Z * list blk :=
  match post with
  | Blk m true :: post' => (n + m, post')
  | _ => (n, post)
  end.
Definition merge_pre (pre : list blk) (n : Z) : list blk :=
  match rev pre with
  | Blk m true :: rpre => rev rpre ++ [Blk (m + n) true]
  | _ => pre ++ [Blk n true]
  end.
Definition free_at (pre : list blk) (n : Z) (post : list blk) : list blk :=
  let '(n, post) := merge_post n post in merge_pre pre n ++ post.

(** The bytes a user may use of a block of [n] units: all but its header, and
    [u] bytes of the header behind it. *)
Definition capacity (u n : Z) : Z := 16 * n - 16 + u.

(** The user pointers of the allocated blocks from [a] on, with the bytes of
    their buffers. *)
Fixpoint heap (u a : Z) (bs : list blk) : gmap Z Z :=
  match bs with
  | [] => ∅
  | b :: bs =>
      if b_free b then heap u (after a (b_size b)) bs
      else <[a + 16 := capacity u (b_size b)]> (heap u (after a (b_size b)) bs)
  end.

(** ** Units and positions *)

Lemma total_app bs1 bs2 : total (bs1 ++ bs2) = total bs1 + total bs2.
Proof. induction bs1; simpl; lia. Qed.
Lemma used_app bs1 bs2 : used (bs1 ++ bs2) = used bs1 + used bs2.
Proof. induction bs1; simpl; lia. Qed.

Lemma pos_total bs : pos_blocks bs → 0 <= total bs.
Proof. induction 1; simpl; lia. Qed.

Lemma used_bounds bs : pos_blocks bs → 0 <= used bs <= total bs.
Proof. induction 1 as [|b bs ? _ IH]; simpl; [lia|]. destruct (b_free b); lia. Qed.

Lemma pos_app bs1 bs2 : pos_blocks (bs1 ++ bs2) ↔ pos_blocks bs1 ∧ pos_blocks bs2.
Proof. apply Forall_app. Qed.
Lemma pos_cons b bs : pos_blocks (b :: bs) ↔ 1 <= b_size b ∧ pos_blocks bs.
Proof. apply Forall_cons_iff. Qed.

Ltac pos_tac :=
  repeat (apply pos_cons; split; [cbn; lia|]); first [done | by apply Forall_nil].

Lemma min_app m bs1 bs2 : min_blocks m (bs1 ++ bs2) ↔ min_blocks m bs1 ∧ min_blocks m bs2.
Proof. apply Forall_app. Qed.
Lemma min_cons m b bs : min_blocks m (b :: bs) ↔ m <= b_size b ∧ min_blocks m bs.
Proof. apply Forall_cons_iff. Qed.
Lemma min_nil m : min_blocks m [].
Proof. by apply Forall_nil. Qed.
Lemma min_pos m bs : 1 <= m → min_blocks m bs → pos_blocks bs.
Proof. intros Hm H. eapply Forall_impl; [exact H|]. simpl. lia. Qed.

#[export] Hint Resolve min_nil : ipc.

Lemma after_0 a : after a 0 = a.
Proof. unfold after. lia. Qed.
Lemma after_after a n m : after (after a n) m = after a (n + m).
Proof. unfold after. lia. Qed.

Lemma addrs_range a bs k :
  pos_blocks bs → k ∈ addrs a bs →
  (a <= k ∧ k + 16 <= after a (total bs)) ∧ (k - a) mod 16 = 0.
Proof.
  intros Hp. revert a. induction Hp as [|b bs Hb Hp IH]; intros a Hk; [by apply elem_of_nil in Hk|].
  simpl in Hk. apply elem_of_cons in Hk as [->|Hk].
  - pose proof (pos_total _ Hp). unfold after. simpl. rewrite Z.sub_diag. split; [lia|done].
  - apply IH in Hk as [Hk Hm]. unfold after in *. simpl.
    pose proof (pos_total _ Hp). split; [lia|].
    replace (k - a) with (k - (a + 16 * b_size b) + b_size b * 16) by lia.
    by rewrite Z.mod_add by lia.
Qed.

Lemma addrs_nodup a bs : pos_blocks bs → NoDup (addrs a bs).
Proof.
  intros Hp. revert a. induction Hp as [|b bs Hb Hp IH]; intros a; simpl; constructor; auto.
  intros Hk. apply addrs_range in Hk; [|done]. unfold after in Hk. lia.
Qed.

Lemma length_addrs a bs : length (addrs a bs) = length bs.
Proof. revert a. induction bs; intros; simpl; auto. Qed.

(** ** Adjacent free blocks *)

Definition starts_free (bs : list blk) : bool :=
  match bs with [] => false | b :: _ => b_free b end.
Definition ends_free (bs : list blk) : bool :=
  match last bs with None => false | Some b => b_free b end.

Lemma coalesced_cons b bs :
  coalesced (b :: bs) ↔ b_free b && starts_free bs = false ∧ coalesced bs.
Proof.
  destruct bs as [|b' bs]; simpl.
  - rewrite andb_false_r. naive_solver.
  - destruct (b_free b), (b_free b'); simpl; naive_solver.
Qed.

Lemma ends_free_cons b b' bs : ends_free (b :: b' :: bs) = ends_free (b' :: bs).
Proof. done. Qed.

Lemma ends_free_snoc bs b : ends_free (bs ++ [b]) = b_free b.
Proof. unfold ends_free. by rewrite last_snoc. Qed.

Lemma coalesced_app bs1 bs2 :
  coalesced (bs1 ++ bs2) ↔
  coalesced bs1 ∧ coalesced bs2 ∧ ends_free bs1 && starts_free bs2 = false.
Proof.
  induction bs1 as [|b bs1 IH]; [simpl; naive_solver|].
  rewrite <- app_comm_cons, !coalesced_cons, IH.
  destruct bs1 as [|b' bs1].
  - unfold ends_free. simpl. rewrite andb_false_r. tauto.
  - rewrite ends_free_cons. simpl. tauto.
Qed.

Lemma coalesced_cons_used n post : coalesced (Blk n false :: post) ↔ coalesced post.
Proof. rewrite coalesced_cons. simpl. tauto. Qed.

Lemma coalesced_used pre n post :
  coalesced (pre ++ Blk n false :: post) ↔ coalesced pre ∧ coalesced post.
Proof.
  rewrite coalesced_app, coalesced_cons. simpl. rewrite andb_false_r. tauto.
Qed.

Lemma cut_coalesced d pre n sz post :
  coalesced (pre ++ Blk sz true :: post) → coalesced (pre ++ cut d n sz ++ post).
Proof.
  rewrite coalesced_app, coalesced_cons. intros (H1 & (H2 & H3) & H4).
  unfold cut. destruct (n + d <=? sz); rewrite coalesced_app; cbn [app].
  - rewrite !coalesced_cons. simpl in *. rewrite andb_false_r. auto.
  - rewrite coalesced_cons. simpl in *. rewrite andb_false_r. auto.
Qed.

(** Freeing a block merges it with its neighbours, so no two free blocks
    become adjacent. *)
Lemma free_at_coalesced pre n post :
  coalesced (pre ++ Blk n false :: post) → coalesced (free_at pre n post).
Proof.
  rewrite coalesced_app, coalesced_cons. intros (H1 & (_ & H2) & _).
  unfold free_at. destruct (merge_post n post) as [n' post'] eqn:E.
  assert (coalesced post' ∧ starts_free post' = false) as [H3 H4].
  { unfold merge_post in E. destruct post as [|[m [|]] post]; injection E as <- <-; try done.
    apply coalesced_cons in H2 as [H2 ?]. done. }
  rewrite coalesced_app. unfold merge_pre.
  destruct pre as [|b pre _] using rev_ind; [simpl; by rewrite H4, ?andb_false_r|].
  rewrite rev_app_distr. cbn [rev app]. rewrite H4, !andb_false_r.
  apply coalesced_app in H1 as (H1 & _ & H5). destruct b as [m [|]].
  - rewrite rev_involutive, coalesced_app. simpl in *. rewrite andb_true_r in *. auto.
  - rewrite !coalesced_app, ends_free_snoc. simpl in *. rewrite andb_false_r in *. auto.
Qed.

Lemma merge_pre_last pre m n : merge_pre (pre ++ [Blk m true]) n = pre ++ [Blk (m + n) true].
Proof. unfold merge_pre. rewrite rev_app_distr. simpl. by rewrite rev_involutive. Qed.
Lemma merge_pre_used pre m n :
  merge_pre (pre ++ [Blk m false]) n = pre ++ [Blk m false; Blk n true].
Proof. unfold merge_pre. rewrite rev_app_distr. simpl. by rewrite <- app_assoc. Qed.

Lemma merge_pre_total pre f : total (merge_pre pre f) = total pre + f.
Proof.
  unfold merge_pre. destruct pre as [|[m []] pre _] using rev_ind; [simpl; lia|..];
    rewrite rev_app_distr; cbn [rev app]; rewrite ?rev_involutive, !total_app; simpl; lia.
Qed.

Lemma free_at_units pre n post :
  total (free_at pre n post) = total pre + n + total post ∧
  used (free_at pre n post) = used pre + used post.
Proof.
  unfold free_at. assert (∃ n' post', merge_post n post = (n', post') ∧
    n' + total post' = n + total post ∧ used post' = used post) as (n' & post' & -> & E1 & E2).
  { unfold merge_post. destruct post as [|[k []] post]; cbn; do 2 eexists; split_and!; try done; cbn; lia. }
  rewrite total_app, used_app, merge_pre_total. split; [lia|].
  destruct pre as [|[k []] pre _] using rev_ind; [cbn; lia|rewrite merge_pre_last|rewrite merge_pre_used];
    rewrite !used_app; cbn; lia.
Qed.

(** Freeing behind an allocated block does not reach over it. *)
Lemma free_at_used pre k n post :
  free_at (pre ++ [Blk k false]) n post = pre ++ Blk k false :: free_at [] n post.
Proof.
  unfold free_at. destruct (merge_post n post) as [n' post'].
  by rewrite merge_pre_used, <- app_assoc.
Qed.

Lemma free_at_min m pre n post :
  1 <= m → min_blocks m pre → min_blocks m post → m <= n → min_blocks m (free_at pre n post).
Proof.
  intros Hm H1 H2 Hn. unfold free_at.
  assert (∃ n' post', merge_post n post = (n', post') ∧ m <= n' ∧ min_blocks m post')
    as (n' & post' & -> & Hn' & H2').
  { unfold merge_post. destruct post as [|[k []] post]; eauto.
    apply min_cons in H2 as [? ?]. simpl in *. do 2 eexists. split_and!; [done|lia|done]. }
  apply min_app. split; [|done]. destruct pre as [|[k []] pre _] using rev_ind.
  - apply min_cons. by split.
  - rewrite merge_pre_last. apply min_app in H1 as [? [? ?]%min_cons]. simpl in *.
    apply min_app. split; [done|]. apply min_cons. simpl. split; [lia|auto with ipc].
  - rewrite merge_pre_used. apply min_app in H1 as [? [? ?]%min_cons]. simpl in *.
    apply min_app. split; [done|]. rewrite !min_cons. auto with ipc.
Qed.

(** Freeing a block that was just cut from a free one gives it back. *)
Lemma free_cut d pre n sz post :
  coalesced (pre ++ Blk sz true :: post) →
  free_at pre (cut_units d n sz) (tail (cut d n sz) ++ post) = pre ++ Blk sz true :: post.
Proof.
  rewrite coalesced_app, coalesced_cons. intros (H1 & (H2 & H3) & H4). simpl in *.
  assert (∀ k, merge_pre pre k = pre ++ [Blk k true]) as Hm.
  { intros k. unfold merge_pre. destruct pre as [|b pre _] using rev_ind; [done|].
    rewrite ends_free_snoc, andb_true_r in H4. rewrite rev_app_distr. simpl.
    destruct b as [? []]; [done|done]. }
  unfold free_at, cut, cut_units. destruct (n + d <=? sz); simpl.
  - rewrite Hm, <- app_assoc. simpl. do 3 f_equal. lia.
  - destruct post as [|[m []] post]; simpl in *; [|done|]; by rewrite Hm, <- app_assoc.
Qed.

Lemma cut_tail d n sz post :
  cut d n sz ++ post = Blk (cut_units d n sz) false :: tail (cut d n sz) ++ post.
Proof. unfold cut, cut_units. by destruct (_ <=? _). Qed.

(** ** The heap *)

Section heap.
Context (u : Z) (Hu : 0 <= u <= 16).

Lemma heap_range a bs p n :
  pos_blocks bs → heap u a bs !! p = Some n →
  a + 16 <= p ∧ 0 <= n ∧ p + n <= after a (total bs) + u.
Proof using Hu.
  intros Hp. revert a. induction Hp as [|b bs Hb Hp IH]; intros a; simpl; [done|].
  pose proof (pos_total _ Hp).
  assert (heap u (after a (b_size b)) bs !! p = Some n →
          a + 16 <= p ∧ 0 <= n ∧ p + n <= after a (b_size b + total bs) + u) as Hrest.
  { intros Hl. apply IH in Hl. unfold after in *. lia. }
  destruct (b_free b); [done|]. rewrite lookup_insert. case_decide; [|done].
  intros [= <-]. subst. unfold after, capacity. lia.
Qed.

Lemma heap_lookup a bs p c :
  heap u a bs !! p = Some c →
  ∃ pre n post, bs = pre ++ Blk n false :: post ∧ p = after a (total pre) + 16 ∧ c = capacity u n.
Proof.
  revert a. induction bs as [|[n fr] bs IH]; intros a; simpl; [done|].
  assert (heap u (after a n) bs !! p = Some c → ∃ pre m post, Blk n fr :: bs = pre ++ Blk m false :: post ∧
    p = after a (total pre) + 16 ∧ c = capacity u m) as Hrest.
  { intros (pre & m & post & -> & -> & ->)%IH. exists (Blk n fr :: pre), m, post.
    split_and!; [done| |done]. simpl. unfold after. lia. }
  destruct fr; [done|]. rewrite lookup_insert. case_decide; [|done].
  intros [= <-]. exists [], n, bs. split_and!; [done| |done]. subst. simpl. unfold after. lia.
Qed.

Lemma heap_none a bs p :
  pos_blocks bs → p < a + 16 ∨ after a (total bs) < p → heap u a bs !! p = None.
Proof.
  intros Hp Hr. destruct (heap u a bs !! p) eqn:E; [|done].
  apply heap_lookup in E as (pre & n & post & -> & -> & _). rewrite total_app in Hr. cbn in Hr.
  apply pos_app in Hp as [Hp1 [Hn Hp2]%pos_cons]. cbn in Hn.
  pose proof (pos_total _ Hp1). pose proof (pos_total _ Hp2). unfold after in *. lia.
Qed.

Lemma heap_app a bs1 bs2 :
  heap u a (bs1 ++ bs2) = heap u a bs1 ∪ heap u (after a (total bs1)) bs2.
Proof.
  revert a. induction bs1 as [|b bs1 IH]; intros a; simpl.
  - rewrite (left_id_L ∅ (∪)). f_equal. unfold after. lia.
  - rewrite IH, after_after.
    destruct (b_free b); [done|]. by rewrite insert_union_l.
Qed.

(** A block in the middle, allocated or free. *)
Lemma heap_middle a pre n post :
  pos_blocks pre → pos_blocks post → 1 <= n →
  heap u a (pre ++ Blk n false :: post) =
    <[after a (total pre) + 16 := capacity u n]> (heap u a (pre ++ Blk n true :: post)) ∧
  heap u a (pre ++ Blk n true :: post) !! (after a (total pre) + 16) = None.
Proof.
  intros H1 H2 Hn. rewrite !heap_app. simpl.
  assert (heap u a pre !! (after a (total pre) + 16) = None) as Hpre
    by (apply heap_none; [done|lia]).
  split; [by rewrite insert_union_r|].
  apply lookup_union_None. split; [done|]. apply heap_none; [done|]. unfold after. lia.
Qed.

(** Free blocks do not matter, only the units they cover. *)
Lemma heap_free_split a pre n m post :
  heap u a (pre ++ Blk (n + m) true :: post) = heap u a (pre ++ Blk n true :: Blk m true :: post).
Proof.
  revert a. induction pre as [|b pre IH]; intros a; simpl.
  - f_equal. unfold after. lia.
  - by rewrite IH.
Qed.

Lemma heap_cut d a pre n sz post :
  pos_blocks pre → pos_blocks post → 1 <= d → 1 <= n <= sz →
  heap u a (pre ++ cut d n sz ++ post) =
    <[after a (total pre) + 16 := capacity u (cut_units d n sz)]>
      (heap u a (pre ++ Blk sz true :: post))
  ∧ heap u a (pre ++ Blk sz true :: post) !! (after a (total pre) + 16) = None.
Proof.
  intros H1 H2 Hd Hn. split; [|by apply heap_middle; try done; lia].
  unfold cut, cut_units. destruct (Z.leb_spec (n + d) sz); cbn [app].
  - replace (Blk sz true) with (Blk (n + (sz - n)) true) by (f_equal; lia).
    rewrite heap_free_split. apply heap_middle; [done| |lia]. pos_tac.
  - apply heap_middle; [done|done|lia].
Qed.

Lemma heap_free_at a pre n post :
  heap u a (free_at pre n post) = heap u a (pre ++ Blk n true :: post).
Proof.
  unfold free_at, merge_post, merge_pre.
  assert (∀ n post, heap u a (match rev pre with
      | Blk m true :: rpre => rev rpre ++ [Blk (m + n) true] | _ => pre ++ [Blk n true] end ++ post)
      = heap u a (pre ++ Blk n true :: post)) as Hpre.
  { clear. intros n post. destruct pre as [|[m []] pre _] using rev_ind; [done|..];
      rewrite rev_app_distr; cbn [rev app]; rewrite <- ?app_assoc, ?rev_involutive; cbn [app]; [|done].
    by rewrite heap_free_split. }
  destruct post as [|[m []] post]; rewrite Hpre; [done| |done]. by rewrite heap_free_split.
Qed.

Lemma heap_free_tail a pre m k post :
  heap u a (pre ++ Blk m true :: free_at [] k post) = heap u a (pre ++ Blk (m + k) true :: post).
Proof.
  rewrite !heap_app. f_equal. cbn. rewrite heap_free_at. cbn. by rewrite after_after.
Qed.

(** Deallocation removes exactly one pointer. *)
Lemma heap_dealloc a pre n post :
  pos_blocks pre → pos_blocks post → 1 <= n →
  heap u a (free_at pre n post) = delete (after a (total pre) + 16) (heap u a (pre ++ Blk n false :: post)).
Proof.
  intros H1 H2 Hn. rewrite heap_free_at.
  destruct (heap_middle a pre n post H1 H2 Hn) as [-> Hnone]. by rewrite delete_insert_id.
Qed.

(** Two buffers never share a byte, and the header between them is left to the
    algorithm but for its first [u] bytes. *)
Definition heap_disjoint (h : gmap Z Z) : Prop :=
  ∀ p q n m, h !! p = Some n → h !! q = Some m → p ≠ q →
    p + n + (16 - u) <= q ∨ q + m + (16 - u) <= p.

Lemma heap_disjoint_blocks a bs : pos_blocks bs → heap_disjoint (heap u a bs).
Proof using Hu.
  intros Hp. revert a. induction Hp as [|b bs Hb Hp IH]; intros a p q n m; simpl; [done|].
  destruct (b_free b); [by apply IH|]. rewrite !lookup_insert. repeat case_decide; subst.
  - done.
  - intros [= <-] Hq _. apply heap_range in Hq; [|done]. unfold after, capacity in *. lia.
  - intros Hq' [= <-] _. apply heap_range in Hq'; [|done]. unfold after, capacity in *. lia.
  - by apply IH.
Qed.

Lemma heap_all_free a bs : used bs = 0 → pos_blocks bs → heap u a bs = ∅.
Proof.
  intros Hz Hp. revert a. induction Hp as [|b bs Hb Hp IH]; intros a; simpl in *; [done|].
  pose proof (used_bounds _ Hp). destruct (b_free b); [apply IH; lia|lia].
Qed.
End heap.
