(* ===== verification/MathUtil.v ===== *)
(** Rounding, overflow tests and integer functions.

    Models [detail/math_functions.hpp], the size helpers of
    [detail/utilities.hpp] and the unit arithmetic of
    [mem_algo/detail/mem_algo_common.hpp].  Every function works on 64-bit
    words; the loops carry fuel, and the theorems show the fuel is enough. *)

From S2P Require Import Prelude.

Local Open Scope u64_scope.

(** ** [detail/utilities.hpp] *)

Definition get_rounded_size (orig_size round_to : Z) : Z :=
  ((orig_size -! 1) / round_to +! 1) *! round_to.

Definition get_truncated_size (orig_size multiple : Z) : Z :=
  (orig_size / multiple) *! multiple.

(** [~x] on a 64-bit word. *)
Definition bnot64 (x : Z) : Z := u64 (Z.lnot x).

Definition get_rounded_size_po2 (orig_size round_to : Z) : Z :=
  Z.land (orig_size -! 1) (bnot64 (round_to -! 1)) +! round_to.

Definition get_truncated_size_po2 (orig_size multiple : Z) : Z :=
  Z.land orig_size (bnot64 (multiple -! 1)).

(** [ct_rounded_size<OrigSize, RoundTo>::value]; [None] when one of its static
    assertions fails. *)
Definition ct_rounded_size (OrigSize RoundTo : Z) : option Z :=
  if RoundTo =? 0 then None else
  let intermediate_value := (OrigSize -! 1) / RoundTo +! 1 in
  if intermediate_value <=? u64_max / RoundTo
  then Some (intermediate_value *! RoundTo) else None.

Definition sqrt_size_type_max : Z := (u64 (Z.shiftl 1 (8 * (8 / 2)))) -! 1.

Definition multiplication_overflows (a b : Z) : bool :=
  (sqrt_size_type_max <? Z.lor a b) && nz b && (u64_max / b <? a).

Definition size_overflows (SztSizeOfType count : Z) : bool :=
  multiplication_overflows SztSizeOfType count.

Definition sum_overflows (a b : Z) : bool := (u64_max -! a) <? b.

Definition is_ptr_aligned (ptr align : Z) : bool := (ptr mod align) =? 0.

(** ** [detail/math_functions.hpp] *)

(** The [do ... while(B != 0)] loop of [gcd]; [None] on a division by zero or
    when the fuel is exhausted. *)
Fixpoint gcd_loop (fuel : nat) (A B : Z) : option Z :=
  match fuel with
  | O => None
  | S fuel' =>
      if B =? 0 then None else
      let tmp := B in
      let B := A mod B in
      let A := tmp in
      if nz B then gcd_loop fuel' A B else Some A
  end.

Definition gcd (A B : Z) : option Z := gcd_loop 130 A B.

Definition lcm (A B : Z) : option Z :=
  match gcd A B with
  | Some g => Some ((A / g) *! B)
  | None => None
  end.

(** The loop shared by [log2_ceil] and [upper_power_of_2]: the pair of [i] and
    [power_of_2]. *)
Fixpoint pow2_loop (fuel : nat) (A i power_of_2 : Z) : option (Z * Z) :=
  match fuel with
  | O => None
  | S fuel' =>
      if power_of_2 <? A
      then pow2_loop fuel' A (i +! 1) (u64 (Z.shiftl power_of_2 1))
      else Some (i, power_of_2)
  end.

Definition log2_ceil (fuel : nat) (A : Z) : option Z := fst <$> pow2_loop fuel A 0 1.

Definition upper_power_of_2 (fuel : nat) (A : Z) : option Z := snd <$> pow2_loop fuel A 0 1.

(** The [for] loop of [floor_log2]; [shift] goes through 32, 16, ..., 1. *)
Fixpoint floor_log2_loop (shifts : list Z) (n log2 : Z) : Z :=
  match shifts with
  | [] => log2
  | shift :: shifts =>
      let tmp := Z.shiftr n shift in
      if nz tmp then floor_log2_loop shifts tmp (log2 +! shift)
      else floor_log2_loop shifts n log2
  end.

Definition floor_log2 (x : Z) : Z := floor_log2_loop [32; 16; 8; 4; 2; 1] x 0.

(** ** Unit arithmetic of [memory_algorithm_common] *)

(** [alignment_of<max_align_t>] on the x86-64 ABI. *)
Definition Alignment : Z := 16.

Definition check_alignment (ptr : Z) : bool := (ptr mod Alignment) =? 0.
Definition ceil_units (size : Z) : Z := get_rounded_size size Alignment / Alignment.
Definition floor_units (size : Z) : Z := size / Alignment.
Definition multiple_of_units (size : Z) : Z := get_rounded_size size Alignment.

Definition user_buffer_ceil_units (UsableByPreviousChunk size : Z) : Z :=
  if size <=? UsableByPreviousChunk then 0
  else ceil_units (size -! UsableByPreviousChunk).

(** ** Rounding *)

(** The smallest multiple of [m] that is not below [x]. *)
Definition round_up (x m : Z) : Z := (x + m - 1) / m * m.

Lemma round_up_spec x m :
  0 < m → x <= round_up x m < x + m ∧ (m | round_up x m).
Proof.
  intros Hm. unfold round_up. split; [|by apply Z.divide_factor_r].
  pose proof (Z.div_mod (x + m - 1) m). pose proof (Z.mod_pos_bound (x + m - 1) m). lia.
Qed.

Lemma rounded_pred_div x m : 0 < m → (x - 1) / m + 1 = (x + m - 1) / m.
Proof.
  intros. replace (x + m - 1) with (x - 1 + 1 * m) by lia. rewrite Z.div_add; lia.
Qed.

Lemma rounded_size_val x m :
  0 < x → in_u64 x → 0 < m → round_up x m < 18446744073709551616 →
  get_rounded_size x m = round_up x m.
Proof.
  intros Hx Hxr Hm Hno. unfold get_rounded_size, in_u64 in *.
  rewrite (u64_small (x - 1)) by (unfold in_u64; lia).
  pose proof (round_up_spec x m Hm) as [Hr _]. unfold round_up in *.
  rewrite <- (rounded_pred_div x m) in * by lia.
  assert (0 <= (x - 1) / m) by (apply Z.div_pos; lia).
  assert ((x - 1) / m + 1 <= ((x - 1) / m + 1) * m) by nia.
  rewrite (u64_small ((x - 1) / m + 1)) by (unfold in_u64; lia).
  apply u64_small. unfold in_u64. nia.
Qed.

Lemma rounded_size_zero m : (m | 18446744073709551616) → 0 < m → get_rounded_size 0 m = 0.
Proof.
  intros [k Hk] Hm. unfold get_rounded_size.
  rewrite (u64_neg (0 - 1)) by lia.
  replace ((0 - 1 + 18446744073709551616) / m) with (k - 1).
  2: { apply Z.div_unique with (r := m - 1); lia. }
  unfold u64. rewrite Z.mul_mod_idemp_l by lia.
  replace ((k - 1 + 1) * m) with 18446744073709551616 by lia. done.
Qed.

Lemma land_bnot_pow2 x k :
  in_u64 x → 0 <= k < 64 → Z.land x (bnot64 (2 ^ k -! 1)) = x / 2 ^ k * 2 ^ k.
Proof.
  intros Hx Hk. unfold in_u64 in Hx.
  assert (2 ^ k <= 2 ^ 63) by (apply Z.pow_le_mono_r; lia).
  assert (0 < 2 ^ k) by (apply Z.pow_pos_nonneg; lia).
  rewrite (u64_small (2 ^ k - 1)) by (unfold in_u64; lia).
  rewrite <- Z.shiftr_div_pow2, <- Z.shiftl_mul_pow2 by lia.
  rewrite <- Z.ldiff_ones_r by lia.
  replace (2 ^ k - 1) with (Z.ones k) by (rewrite Z.ones_equiv; lia).
  unfold bnot64, u64. change 18446744073709551616 with (2 ^ 64).
  rewrite <- Z.land_ones by lia.
  apply Z.bits_inj'. intros n Hn.
  rewrite !Z.land_spec, Z.ldiff_spec, Z.lnot_spec by lia.
  destruct (decide (n < 64)).
  - rewrite (Z.ones_spec_low 64) by lia. by rewrite andb_true_r.
  - rewrite <- (Z.mod_small x (2 ^ 64)) by lia.
    rewrite Z.mod_pow2_bits_high by lia. done.
Qed.

(** The power-of-two variants compute what the generic ones do, also when the
    result wraps. *)
Lemma rounded_po2_equiv_aux x k :
  in_u64 x → 0 <= k < 64 →
  get_rounded_size_po2 x (2 ^ k) = get_rounded_size x (2 ^ k) ∧
  get_truncated_size_po2 x (2 ^ k) = get_truncated_size x (2 ^ k).
Proof.
  intros Hx Hk. unfold get_rounded_size_po2, get_rounded_size,
    get_truncated_size_po2, get_truncated_size.
  rewrite !land_bnot_pow2 by (auto using u64_range).
  assert (0 < 2 ^ k) by (apply Z.pow_pos_nonneg; lia). split.
  - unfold u64 at 1 3 4. rewrite Z.mul_mod_idemp_l by lia. f_equal. lia.
  - symmetry. apply u64_small. unfold in_u64 in *.
    pose proof (Z.mul_div_le x (2 ^ k)). pose proof (Z.div_pos x (2 ^ k)). nia.
Qed.

(** ** Overflow tests *)

Lemma lor_pow2_lt a b n :
  0 <= a → 0 <= b → 0 <= n → Z.lor a b < 2 ^ n → a < 2 ^ n ∧ b < 2 ^ n.
Proof.
  intros Ha Hb Hn Hlt.
  assert (0 <= Z.lor a b) by (apply Z.lor_nonneg; lia).
  assert (∀ x, 0 <= x → (x < 2 ^ n ↔ x = 0 ∨ Z.log2 x < n)) as Hlog.
  { intros x Hx. destruct (decide (x = 0)) as [->|].
    - split; [auto|]. intros _. apply Z.pow_pos_nonneg; lia.
    - rewrite <- Z.log2_lt_pow2 by lia. lia. }
  rewrite Hlog in Hlt by lia. rewrite !Hlog by lia.
  rewrite Z.lor_eq_0_iff, Z.log2_lor in Hlt by lia. lia.
Qed.

Lemma multiplication_overflows_spec a b :
  in_u64 a → in_u64 b →
  multiplication_overflows a b = true ↔ 18446744073709551616 <= a * b.
Proof.
  unfold in_u64, multiplication_overflows. intros Ha Hb.
  change sqrt_size_type_max with 4294967295. unfold nz, u64_max.
  rewrite !andb_true_iff, negb_true_iff, Z.eqb_neq, !Z.ltb_lt. split.
  - intros [[_ Hb0] Hdiv].
    pose proof (Z.mul_succ_div_gt 18446744073709551615 b). nia.
  - intros Hov. assert (b ≠ 0) by nia. split_and!; [|done|].
    + destruct (decide (Z.lor a b < 2 ^ 32)) as [Hlt|]; [|lia].
      apply lor_pow2_lt in Hlt; [|lia..]. nia.
    + apply Z.div_lt_upper_bound; nia.
Qed.

Lemma sum_overflows_spec a b :
  in_u64 a → in_u64 b → sum_overflows a b = true ↔ 18446744073709551616 <= a + b.
Proof.
  unfold in_u64, sum_overflows, u64_max. intros Ha Hb.
  rewrite u64_small, Z.ltb_lt by (unfold in_u64; lia). lia.
Qed.

(** ** [gcd] and [lcm] *)

Lemma mod_halves a b : 0 < b < a → 2 * (a mod b) < a.
Proof.
  intros H. pose proof (Z.div_mod a b). pose proof (Z.mod_pos_bound a b).
  assert (1 <= a / b) by (apply Z.div_le_lower_bound; lia). nia.
Qed.

Lemma gcd_loop_correct k A B :
  0 < A → 0 < B < 2 ^ Z.of_nat k → ∀ fuel, (2 * k <= fuel)%nat →
  gcd_loop fuel A B = Some (Z.gcd A B).
Proof.
  revert A B. induction k as [|k IH]; intros A B HA HB fuel Hf; [simpl in HB; lia|].
  rewrite Nat2Z.inj_succ, Z.pow_succ_r in HB by lia.
  do 2 (destruct fuel as [|fuel]; [lia|]). cbn [gcd_loop]. unfold nz.
  destruct (Z.eqb_spec B 0); [lia|]. pose proof (Z.mod_pos_bound A B).
  destruct (Z.eqb_spec (A mod B) 0) as [Hr|Hr]; cbn [negb].
  { rewrite Z.gcd_comm, <- Z.gcd_mod, Hr, Z.gcd_0_l by lia. f_equal. lia. }
  destruct (Z.eqb_spec (B mod (A mod B)) 0) as [Hr2|Hr2]; cbn [negb].
  - rewrite (Z.gcd_comm A B), <- Z.gcd_mod, <- (Z.gcd_mod B) by lia.
    rewrite Hr2, Z.gcd_0_l. f_equal. lia.
  - pose proof (mod_halves B (A mod B)). pose proof (Z.mod_pos_bound B (A mod B)).
    rewrite IH by lia.
    rewrite (Z.gcd_comm A B), <- (Z.gcd_mod A B), <- (Z.gcd_mod B) by lia.
    f_equal. apply Z.gcd_comm.
Qed.

Lemma gcd_spec A B : 0 < A → 0 < B → in_u64 B → gcd A B = Some (Z.gcd A B).
Proof.
  intros HA HB HBr. unfold in_u64 in HBr. apply (gcd_loop_correct 64); simpl; lia.
Qed.

Lemma lcm_wraps A B : 0 < A → 0 < B → in_u64 B → lcm A B = Some (u64 (Z.lcm A B)).
Proof.
  intros HA HB HBr. unfold lcm. rewrite gcd_spec by done.
  destruct (Z.gcd_divide_l A B) as [k Hk].
  assert (0 < Z.gcd A B) by (pose proof (Z.gcd_nonneg A B);
    pose proof (Z.gcd_eq_0_l A B); lia).
  destruct (Z.gcd_divide_r A B) as [j Hj].
  assert (A / Z.gcd A B = k) as Ek by (symmetry; apply Z.div_unique_exact; lia).
  assert (B / Z.gcd A B = j) as Ej by (symmetry; apply Z.div_unique_exact; lia).
  do 2 f_equal. unfold Z.lcm. rewrite Ek, Ej, Z.abs_eq by nia. nia.
Qed.

Lemma lcm_spec A B :
  0 < A → 0 < B → in_u64 B → in_u64 (Z.lcm A B) → lcm A B = Some (Z.lcm A B).
Proof. intros HA HB HBr Hl. rewrite lcm_wraps by done. by rewrite u64_small. Qed.

(** ** Powers of two *)

Lemma pow2_loop_correct n A i fuel :
  A <= 2 ^ 63 → 0 <= i → i + Z.of_nat n = Z.log2_up A → (n < fuel)%nat →
  pow2_loop fuel A i (2 ^ i) = Some (Z.log2_up A, 2 ^ Z.log2_up A).
Proof.
  intros HA. revert i fuel. induction n as [|n IH]; intros i fuel Hi Hn Hf.
  all: destruct fuel as [|fuel]; [lia|]; cbn [pow2_loop].
  - replace i with (Z.log2_up A) by lia. destruct (Z.ltb_spec (2 ^ Z.log2_up A) A); [|done].
    destruct (decide (1 < A)); [pose proof (Z.log2_up_spec A); lia|].
    rewrite Z.log2_up_eqn0 in H by lia. lia.
  - assert (1 < A) by (destruct (decide (1 < A)); [done|]; rewrite Z.log2_up_eqn0 in Hn; lia).
    pose proof (Z.log2_up_spec A).
    assert (2 ^ i <= 2 ^ Z.pred (Z.log2_up A)) by (apply Z.pow_le_mono_r; lia).
    destruct (Z.ltb_spec (2 ^ i) A); [|lia].
    assert (Z.log2_up A <= 63).
    { apply Z.log2_up_le_pow2; lia. }
    rewrite u64_small by (unfold in_u64; lia). rewrite Z.shiftl_mul_pow2 by lia.
    replace (2 ^ i * 2 ^ 1) with (2 ^ (i + 1)) by (rewrite Z.pow_add_r; lia).
    rewrite u64_small.
    { apply IH; lia. }
    unfold in_u64. split; [apply Z.pow_nonneg; lia|].
    apply Z.lt_le_trans with (2 ^ 64); [apply Z.pow_lt_mono_r; lia|lia].
Qed.

Lemma pow2_loop_zero A : 0 < A → ∀ fuel i, pow2_loop fuel A i 0 = None.
Proof.
  intros HA. induction fuel as [|fuel IH]; intros i; [done|]. cbn [pow2_loop].
  destruct (Z.ltb_spec 0 A); [|lia]. apply IH.
Qed.

Lemma pow2_loop_big A : 2 ^ 63 < A →
  ∀ n i fuel, (0 <= n <= 63)%nat → pow2_loop fuel A i (2 ^ (63 - Z.of_nat n)) = None.
Proof.
  intros HA. induction n as [|n IH]; intros i fuel Hn;
    (destruct fuel as [|fuel]; [done|]); cbn [pow2_loop].
  - destruct (Z.ltb_spec (2 ^ (63 - Z.of_nat 0)) A); [|simpl in *; lia].
    change (u64 (Z.shiftl (2 ^ (63 - Z.of_nat 0)) 1)) with 0. apply pow2_loop_zero. lia.
  - assert (2 ^ (63 - Z.of_nat (S n)) <= 2 ^ 63) by (apply Z.pow_le_mono_r; lia).
    destruct (Z.ltb_spec (2 ^ (63 - Z.of_nat (S n))) A); [|lia].
    rewrite Z.shiftl_mul_pow2 by lia. rewrite <- Z.pow_add_r by lia.
    replace (63 - Z.of_nat (S n) + 1) with (63 - Z.of_nat n) by lia.
    rewrite (u64_small (2 ^ _)); [apply IH; lia|].
    unfold in_u64. split; [apply Z.pow_nonneg; lia|].
    apply Z.le_lt_trans with (2 ^ 63); [apply Z.pow_le_mono_r; lia|lia].
Qed.

Lemma floor_log2_loop_correct x : 0 < x → ∀ k n l,
  n = Z.shiftr x l → 0 < n < 2 ^ (2 ^ Z.of_nat k) → 0 <= l → l + 2 ^ Z.of_nat k <= 64 →
  floor_log2_loop (map (λ i, 2 ^ Z.of_nat i) (rev (seq 0 k))) n l = Z.log2 x.
Proof.
  intros Hx. induction k as [|k IH]; intros n l Hn Hb Hl Hs.
  - simpl in *. assert (n = 1) as E by lia. rewrite E in Hn.
    symmetry. apply Z.log2_unique; [lia|].
    rewrite Z.shiftr_div_pow2 in Hn by lia.
    assert (0 < 2 ^ l) by (apply Z.pow_pos_nonneg; lia).
    rewrite Z.pow_succ_r by lia.
    pose proof (Z.div_mod x (2 ^ l)). pose proof (Z.mod_pos_bound x (2 ^ l)). nia.
  - rewrite seq_S, rev_app_distr. cbn [rev app map floor_log2_loop Nat.add].
    set (sh := 2 ^ Z.of_nat k) in *.
    assert (0 < sh) by (apply Z.pow_pos_nonneg; lia).
    assert (2 ^ Z.of_nat (S k) = 2 * sh) as Hsh
      by (unfold sh; rewrite Nat2Z.inj_succ, Z.pow_succ_r; lia).
    rewrite Hsh in Hb, Hs. unfold nz.
    assert (0 <= Z.shiftr n sh) by (apply Z.shiftr_nonneg; lia).
    rewrite (Z.shiftr_div_pow2 n) in * by lia.
    destruct (Z.eqb_spec (n / 2 ^ sh) 0) as [E|E]; cbn [negb].
    + apply IH; [done| |lia|lia].
      apply Z.div_small_iff in E; [lia|]. apply Z.pow_nonzero; lia.
    + rewrite u64_small by (unfold in_u64; lia). apply IH; [| |lia|lia].
      * rewrite Hn, <- Z.shiftr_div_pow2, Z.shiftr_shiftr by lia. done.
      * split; [lia|]. apply Z.div_lt_upper_bound; [apply Z.pow_pos_nonneg; lia|].
        rewrite <- Z.pow_add_r by lia. replace (sh + sh) with (2 * sh) by lia. lia.
Qed.

(** ** Properties *)

Lemma truncated_size_val x m : in_u64 x → 0 < m → get_truncated_size x m = x - x mod m.
Proof.
  intros Hx Hm. unfold get_truncated_size, in_u64 in *. pose proof (Z.div_mod x m ltac:(lia)).
  pose proof (Z.mod_pos_bound x m Hm). assert (0 <= x / m) by (apply Z.div_pos; lia).
  rewrite u64_small by (unfold in_u64; nia). lia.
Qed.

(** [get_rounded_size] returns the least multiple of [round_to] that is not
    below [orig_size] whenever that multiple fits in 64 bits, and the masking
    variants [get_rounded_size_po2] and [get_truncated_size_po2] agree with
    the dividing ones on every word, including the requests that wrap. *)
Lemma rounding_functions_correct (x k : Z) :
  in_u64 x → 0 <= k < 64 →
  (0 < x → round_up x (2 ^ k) < 18446744073709551616 →
     get_rounded_size x (2 ^ k) = round_up x (2 ^ k)) ∧
  get_rounded_size 0 (2 ^ k) = 0 ∧
  get_rounded_size_po2 x (2 ^ k) = get_rounded_size x (2 ^ k) ∧
  get_truncated_size_po2 x (2 ^ k) = get_truncated_size x (2 ^ k).
Proof.
  intros Hx Hk. assert (0 < 2 ^ k) by (apply Z.pow_pos_nonneg; lia).
  split; [|split; [|by apply rounded_po2_equiv_aux]].
  - intros Hx0 Hno. by apply rounded_size_val.
  - apply rounded_size_zero; [|done]. exists (2 ^ (64 - k)).
    rewrite <- Z.pow_add_r by lia. by replace (64 - k + k) with 64 by lia.
Qed.

(** The overflow guards used before every size computation are exact:
    [multiplication_overflows] and [sum_overflows] answer true precisely when
    the mathematical product or sum does not fit in 64 bits. *)
Lemma overflow_tests_exact (a b : Z) :
  in_u64 a → in_u64 b →
  (multiplication_overflows a b = true ↔ a *! b ≠ a * b) ∧
  (size_overflows a b = true ↔ a *! b ≠ a * b) ∧
  (sum_overflows a b = true ↔ a +! b ≠ a + b).
Proof.
  intros Ha Hb. unfold size_overflows.
  rewrite multiplication_overflows_spec, sum_overflows_spec by done.
  assert (∀ x, 0 <= x → (18446744073709551616 <= x ↔ u64 x ≠ x)) as Hfit.
  { intros x Hx. pose proof (u64_range x). unfold in_u64 in *. split; [lia|].
    intros Hne. destruct (decide (x < 18446744073709551616)); [|lia].
    destruct Hne. apply u64_small. unfold in_u64. lia. }
  unfold in_u64 in *. rewrite !Hfit by nia. done.
Qed.

(** Euclid's loop terminates on every pair of positive 64-bit words within
    the fuel of the model and returns the greatest common divisor; [lcm]
    returns the least common multiple when it fits in a word. *)
Lemma gcd_lcm_correct (A B : Z) :
  0 < A → 0 < B → in_u64 B →
  gcd A B = Some (Z.gcd A B) ∧ lcm A B = Some (u64 (Z.lcm A B)).
Proof. intros HA HB HBr. split; [by apply gcd_spec|by apply lcm_wraps]. Qed.

(** For every word up to [2^63] the doubling loops terminate and
    [log2_ceil] is the ceiling of the binary logarithm, [upper_power_of_2] the
    least power of two not below the argument; for every larger word the
    doubled power wraps to zero and the loops never terminate. *)
Lemma pow2_functions_correct (A : Z) :
  in_u64 A →
  (A <= 2 ^ 63 → ∀ fuel, (64 <= fuel)%nat →
     log2_ceil fuel A = Some (Z.log2_up A) ∧
     upper_power_of_2 fuel A = Some (2 ^ Z.log2_up A)) ∧
  (2 ^ 63 < A → ∀ fuel, log2_ceil fuel A = None ∧ upper_power_of_2 fuel A = None).
Proof.
  intros HA. unfold log2_ceil, upper_power_of_2. split.
  - intros Hle fuel Hf. pose proof (Z.log2_up_nonneg A).
    assert (Z.log2_up A <= 63).
    { destruct (decide (0 < A)); [by apply Z.log2_up_le_pow2|].
      rewrite Z.log2_up_nonpos; lia. }
    rewrite (pow2_loop_correct (Z.to_nat (Z.log2_up A)) A 0) by lia. done.
  - intros Hgt fuel.
    pose proof (pow2_loop_big A Hgt 63 0 fuel ltac:(lia)) as Hn.
    change (2 ^ (63 - Z.of_nat 63)) with 1 in Hn. by rewrite Hn.
Qed.

(** The binary search of [floor_log2] finds the index of the highest set
    bit of every non-zero word. *)
Lemma floor_log2_correct (x : Z) :
  0 < x → in_u64 x → floor_log2 x = Z.log2 x.
Proof.
  intros Hx Hr. unfold in_u64 in Hr.
  apply (floor_log2_loop_correct x Hx 6 x 0); simpl; try lia.
  by rewrite Z.shiftr_0_r.
Qed.

(** C40: the integer functions.  [get_rounded_size] is the least multiple of
    any [round_to] that is not below the size, whenever the size is positive and
    that multiple fits in 64 bits; [get_truncated_size] is the greatest one that
    is not above it; for powers of two the masking variants agree with the
    dividing ones on every word;
    [multiplication_overflows], [size_overflows] and [sum_overflows] answer true
    exactly when the product or the sum wraps.  The loops terminate with the
    right value: Euclid's loop returns the greatest common divisor of any two
    positive words within the fuel of the model, and [lcm] the least common
    multiple modulo [2^64]; the binary search of [floor_log2] finds the highest
    set bit; up to [2^63] the doubling loops of [log2_ceil] and
    [upper_power_of_2] find the least power of two that is not smaller; above it
    the doubled power wraps to zero and they never terminate. *)
Theorem integer_functions_correct (A B k : Z) :
  in_u64 A → in_u64 B → 0 <= k < 64 →
  ((0 < A → round_up A (2 ^ k) < 18446744073709551616 → get_rounded_size A (2 ^ k) = round_up A (2 ^ k)) ∧
   get_rounded_size 0 (2 ^ k) = 0 ∧
   get_rounded_size_po2 A (2 ^ k) = get_rounded_size A (2 ^ k) ∧
   get_truncated_size_po2 A (2 ^ k) = get_truncated_size A (2 ^ k)) ∧
  (0 < B → (0 < A → round_up A B < 18446744073709551616 → get_rounded_size A B = round_up A B) ∧
   (A <= round_up A B < A + B ∧ (B | round_up A B)) ∧ get_truncated_size A B = A - A mod B) ∧
  ((multiplication_overflows A B = true ↔ A *! B ≠ A * B) ∧
   (size_overflows A B = true ↔ A *! B ≠ A * B) ∧
   (sum_overflows A B = true ↔ A +! B ≠ A + B)) ∧
  (0 < A → 0 < B → gcd A B = Some (Z.gcd A B) ∧ lcm A B = Some (u64 (Z.lcm A B))) ∧
  (0 < A → floor_log2 A = Z.log2 A) ∧
  (A <= 2 ^ 63 → ∀ fuel, (64 <= fuel)%nat →
     log2_ceil fuel A = Some (Z.log2_up A) ∧ upper_power_of_2 fuel A = Some (2 ^ Z.log2_up A)) ∧
  (2 ^ 63 < A → ∀ fuel, log2_ceil fuel A = None ∧ upper_power_of_2 fuel A = None).
Proof.
  intros HA HB Hk. destruct (pow2_functions_correct A HA) as [H1 H2].
  split; [by apply rounding_functions_correct|].
  split; [intros HB0; split_and!; [by intros; apply rounded_size_val|by apply round_up_spec..|by apply truncated_size_val]|].
  split; [by apply overflow_tests_exact|]. split_and!; [by intros; apply gcd_lcm_correct|by intros; apply floor_log2_correct|done|done].
Qed.

Lemma integer_functions_correct_witness :
  get_rounded_size 100 (2 ^ 4) = 112 ∧ get_rounded_size_po2 100 (2 ^ 4) = 112 ∧
  get_rounded_size 100 36 = 108 ∧ get_truncated_size 100 36 = 72 ∧
  gcd 100 36 = Some 4 ∧ lcm 100 36 = Some 900 ∧ floor_log2 100 = 6 ∧
  upper_power_of_2 64 100 = Some 128 ∧ upper_power_of_2 500 (2 ^ 63 + 1) = None.
Proof.
  destruct (integer_functions_correct 100 36 4) as ((H1 & _ & H2 & _) & H0 & _ & H3 & H4 & H5 & _); [unfold in_u64; lia..|lia|].
  destruct H0 as (E0 & _ & E0'); [lia|]. destruct H3 as [E1 E2]; [lia|lia|]. rewrite H2.
  split; [apply H1; vm_compute; reflexivity|]. split; [apply H1; vm_compute; reflexivity|].
  split; [apply E0; vm_compute; reflexivity|]. split; [exact E0'|]. split; [exact E1|]. split; [exact E2|].
  split; [apply H4; lia|]. split; [apply H5; lia|].
  apply (integer_functions_correct (2 ^ 63 + 1) 1 0); [unfold in_u64; lia..|lia|lia].
Defined.
