(* ===== verification/MemAlgo.v ===== *)
(** Operations shared by the memory algorithms.

    Models [memory_algorithm_common<MemoryAlgorithm>] of
    [mem_algo/detail/mem_algo_common.hpp]: the shrinking, over-aligned and
    multiple allocations that every algorithm inherits.  The template
    parameter is the class [BlockAlgo], the operations on blocks an algorithm
    must provide; the algorithm's [priv_allocate] is a further argument of the
    operations that call it. *)

From S2P Require Import Prelude MathUtil.

Local Open Scope u64_scope.

Definition max_value (a b : Z) : Z := if b <? a then a else b.
Definition min_value (a b : Z) : Z := if a <? b then a else b.

(** The bits of an [allocation_type] the algorithms test; [cmd_other] is true
    when any further bit is set. *)
Record allocation_type := Command {
  allocate_new : bool;
  expand_fwd : bool;
  expand_bwd : bool;
  shrink_in_place : bool;
  cmd_other : bool
}.

Definition cmd_allocate_new : allocation_type := Command true false false false false.

(** [command &= ~expand_bwd]. *)
Definition without_expand_bwd (c : allocation_type) : allocation_type :=
  Command (allocate_new c) (expand_fwd c) false (shrink_in_place c) (cmd_other c).

(** [!command]. *)
Definition cmd_is_zero (c : allocation_type) : bool :=
  negb (allocate_new c || expand_fwd c || expand_bwd c || shrink_in_place c || cmd_other c).

(** What [memory_algorithm_common] uses of its template parameter. *)
Class BlockAlgo (St : Type) := {
  BlockCtrlBytes : Z;
  BlockCtrlUnits : Z;
  AllocatedCtrlBytes : Z;
  AllocatedCtrlUnits : Z;
  UsableByPreviousChunk : Z;
  size_mask : Z;
  priv_get_block : Z → Z;
  priv_get_user_buffer : Z → Z;
  blk_size : Z → M St Z;
  set_blk_size : Z → Z → M St ();
  priv_is_allocated_block : Z → M St bool;
  priv_mark_new_allocated_block : Z → M St ();
  priv_deallocate : Z → M St ();
  priv_get_total_units : Z → Z
}.

(** The algorithm's [priv_allocate(command, limit_size, prefer_in_recvd_out_size,
    reuse_ptr, 1, alignof_object)]: the returned pointer and the final values
    of the two reference parameters. *)
Definition allocate_fn (St : Type) : Type :=
  allocation_type → Z → Z → Z → Z → M St (Z * Z * Z).

Section common.
Context {St : Type} `{BlockAlgo St}.

Definition assert_alignment (ptr : Z) : M St () := boost_assert (check_alignment ptr).

(** [calculate_lcm_and_needs_backwards_lcmed]: [None] when it returns false, else
    the final [lcm_out] and [needs_backwards_lcmed_out].  [backwards_multiple] is
    the size of an object, which is not zero. *)

(** "Check if it's multiple of the half of the alignment". *)
Definition lcmed_half (backwards_multiple alignment received_size size_to_achieve : Z)
  : M St (option (Z * Z)) :=
  let lcm_val := backwards_multiple *! 2 in
  let current_forward := get_truncated_size received_size backwards_multiple in
  let needs_backwards_lcmed := size_to_achieve -! current_forward in
  let needs_backwards_lcmed :=
    if nz (Z.land needs_backwards_lcmed (alignment -! 1))
    then needs_backwards_lcmed +! backwards_multiple else needs_backwards_lcmed in
  boost_assert (needs_backwards_lcmed mod lcm_val =? 0);;
  mret (Some (lcm_val, needs_backwards_lcmed)).

(** "Check if it's multiple of the quarter of the alignment". *)
Definition lcmed_quarter (backwards_multiple alignment received_size size_to_achieve : Z)
  : M St (option (Z * Z)) :=
  let lcm_val := backwards_multiple *! 4 in
  let current_forward := get_truncated_size received_size backwards_multiple in
  let needs_backwards_lcmed := size_to_achieve -! current_forward in
  let remainder :=
    Z.shiftr (Z.land needs_backwards_lcmed (alignment -! 1)) (alignment / 8) in
  let needs_backwards_lcmed :=
    if nz remainder then
      if nz (Z.land backwards_multiple (alignment / 2))
      then needs_backwards_lcmed +! remainder *! backwards_multiple
      else needs_backwards_lcmed +! (4 -! remainder) *! backwards_multiple
    else needs_backwards_lcmed in
  boost_assert (needs_backwards_lcmed mod lcm_val =? 0);;
  mret (Some (lcm_val, needs_backwards_lcmed)).

Definition calculate_lcm_and_needs_backwards_lcmed
    (backwards_multiple alignment received_size size_to_achieve : Z) : M St (option (Z * Z)) :=
  let '(max, min) :=
    if backwards_multiple <? alignment then (alignment, backwards_multiple)
    else (backwards_multiple, alignment) in
  if Z.land backwards_multiple (backwards_multiple -! 1) =? 0 then
    if negb (0 =? Z.land size_to_achieve (backwards_multiple -! 1)) then mret None else
    let lcm_val := max in
    let current_forward := get_truncated_size_po2 received_size backwards_multiple in
    let needs_backwards := size_to_achieve -! current_forward in
    boost_assert (needs_backwards mod backwards_multiple =? 0);;
    mret (Some (lcm_val, get_rounded_size_po2 needs_backwards lcm_val))
  else if Z.land backwards_multiple (alignment -! 1) =? 0 then
    let lcm_val := backwards_multiple in
    let current_forward := get_truncated_size received_size backwards_multiple in
    let needs_backwards_lcmed := size_to_achieve -! current_forward in
    boost_assert (Z.land needs_backwards_lcmed (alignment -! 1) =? 0);;
    mret (Some (lcm_val, needs_backwards_lcmed))
  else if Z.land backwards_multiple (alignment / 2 -! 1) =? 0 then
    lcmed_half backwards_multiple alignment received_size size_to_achieve
  else if Z.land backwards_multiple (alignment / 4 -! 1) =? 0 then
    lcmed_quarter backwards_multiple alignment received_size size_to_achieve
  else
    match lcm max min with
    | None => throw OutOfFuel
    | Some lcm_val =>
        let current_forward := get_truncated_size received_size backwards_multiple in
        let needs_backwards := size_to_achieve -! current_forward in
        boost_assert (needs_backwards mod backwards_multiple =? 0);;
        mret (Some (lcm_val, get_rounded_size needs_backwards lcm_val))
    end.

Definition try_shrink (ptr max_size received_size : Z) : M St (bool * Z) :=
  let preferred_size := received_size in
  let block := priv_get_block ptr in
  old_block_units ← blk_size block;
  b ← priv_is_allocated_block block;
  boost_assert b;;
  assert_alignment ptr;;
  let received_size :=
    (old_block_units -! AllocatedCtrlUnits) *! Alignment +! UsableByPreviousChunk in
  let max_user_units := floor_units (max_size -! UsableByPreviousChunk) in
  let preferred_user_units := ceil_units (preferred_size -! UsableByPreviousChunk) in
  if max_user_units <? preferred_user_units then mret (false, received_size) else
  let old_user_units := old_block_units -! AllocatedCtrlUnits in
  if old_user_units <? preferred_user_units then mret (false, received_size) else
  if old_user_units =? preferred_user_units then mret (true, received_size) else
  let shrunk_user_units :=
    if preferred_user_units <=? (BlockCtrlUnits -! AllocatedCtrlUnits)
    then BlockCtrlUnits -! AllocatedCtrlUnits else preferred_user_units in
  if max_user_units <? shrunk_user_units then mret (false, received_size) else
  if (old_user_units -! shrunk_user_units) <? BlockCtrlUnits
  then mret (false, received_size) else
  mret (true, shrunk_user_units *! Alignment +! UsableByPreviousChunk).

Definition shrink (ptr max_size received_size : Z) : M St (bool * Z) :=
  let preferred_size := received_size in
  let block := priv_get_block ptr in
  old_block_units ← blk_size block;
  '(ok, received_size) ← try_shrink ptr max_size received_size;
  if negb ok then mret (false, received_size) else
  if (old_block_units -! AllocatedCtrlUnits)
       =? ceil_units (preferred_size -! UsableByPreviousChunk)
  then mret (true, received_size) else
  set_blk_size block
    (Z.land ((received_size -! UsableByPreviousChunk) / Alignment +! AllocatedCtrlUnits)
            size_mask);;
  bsize ← blk_size block;
  boost_assert (BlockCtrlUnits <=? bsize);;
  let new_block := block + bsize *! Alignment in
  set_blk_size new_block (Z.land (old_block_units -! bsize) size_mask);;
  nsize ← blk_size new_block;
  boost_assert (BlockCtrlUnits <=? nsize);;
  priv_mark_new_allocated_block block;;
  priv_mark_new_allocated_block new_block;;
  priv_deallocate (priv_get_user_buffer new_block);;
  mret (true, received_size).

(** The units requested from the algorithm by [priv_allocate_overaligned]. *)
Definition overaligned_needed_units (nbytes alignment : Z) : Z :=
  let needed_units := user_buffer_ceil_units UsableByPreviousChunk nbytes in
  let needed_units :=
    needed_units +! max_value needed_units (BlockCtrlUnits -! AllocatedCtrlUnits) in
  let needed_units := needed_units +! BlockCtrlUnits in
  needed_units +! (alignment -! Alignment) / Alignment.

(** "If we are lucky and the buffer is aligned, just split it". *)
Definition overaligned_lucky (buffer nbytes : Z) : M St Z :=
  let first := priv_get_block buffer in
  orig_first_units ← blk_size first;
  let first_min_units :=
    max_value (user_buffer_ceil_units UsableByPreviousChunk nbytes +! AllocatedCtrlUnits)
              BlockCtrlUnits in
  if (first_min_units +! BlockCtrlUnits) <=? orig_first_units then
    let second := first + Alignment *! first_min_units in
    set_blk_size first (Z.land first_min_units size_mask);;
    priv_mark_new_allocated_block first;;
    set_blk_size second (Z.land (orig_first_units -! first_min_units) size_mask);;
    priv_mark_new_allocated_block second;;
    priv_deallocate (priv_get_user_buffer second);;
    mret buffer
  else mret buffer.

(** The second block gets the user data; what is left behind it, if it can be
    a block, is freed. *)
Definition overaligned_second (second orig_second_units nbytes : Z) : M St () :=
  let second_min_units :=
    max_value BlockCtrlUnits
      (user_buffer_ceil_units UsableByPreviousChunk nbytes +! AllocatedCtrlUnits) in
  if (second_min_units +! BlockCtrlUnits) <=? orig_second_units then
    let third := second + Alignment *! second_min_units in
    set_blk_size second (Z.land second_min_units size_mask);;
    ssize ← blk_size second;
    set_blk_size third (Z.land (orig_second_units -! ssize) size_mask);;
    tsize ← blk_size third;
    boost_assert (BlockCtrlUnits <=? tsize);;
    priv_mark_new_allocated_block second;;
    priv_mark_new_allocated_block third;;
    priv_deallocate (priv_get_user_buffer third)
  else
    set_blk_size second (Z.land orig_second_units size_mask);;
    ssize ← blk_size second;
    boost_assert (BlockCtrlUnits <=? ssize);;
    priv_mark_new_allocated_block second.

(** "Buffer is not overaligned, so find the aligned part". *)
Definition overaligned_carve (buffer needed_units nbytes alignment : Z) : M St Z :=
  let first := priv_get_block buffer in
  b ← priv_is_allocated_block first;
  boost_assert b;;
  orig_first_units ← blk_size first;
  boost_assert ((needed_units +! AllocatedCtrlUnits) <=? orig_first_units);;
  boost_assert (2 *! BlockCtrlUnits <=? orig_first_units);;
  let usr_buf :=
    Z.land (u64 (buffer + BlockCtrlBytes + alignment - 1)) (u64 (- alignment)) in
  boost_assert (usr_buf <=? first + orig_first_units *! Alignment);;
  boost_assert (usr_buf + nbytes
                  <=? first + orig_first_units *! Alignment + UsableByPreviousChunk);;
  let second := priv_get_block usr_buf in
  let final_first_units := Z.land (u64 (second - first) / Alignment) size_mask in
  let orig_second_units := orig_first_units -! final_first_units in
  overaligned_second second orig_second_units nbytes;;
  set_blk_size first (Z.land final_first_units size_mask);;
  priv_mark_new_allocated_block first;;
  priv_deallocate (priv_get_user_buffer first);;
  ssize ← blk_size second;
  boost_assert (usr_buf + nbytes
                  <=? second + ssize *! Alignment + UsableByPreviousChunk);;
  boost_assert (Z.land usr_buf (alignment -! 1) =? 0);;
  mret usr_buf.

Definition priv_allocate_overaligned (priv_allocate : allocate_fn St)
    (nbytes alignment : Z) : M St Z :=
  let needed_units := overaligned_needed_units nbytes alignment in
  let request := needed_units *! Alignment +! UsableByPreviousChunk in
  '(buffer, _, _) ← priv_allocate cmd_allocate_new request request 0 Alignment;
  if buffer =? 0 then mret 0 else
  if Z.land buffer (alignment -! 1) =? 0 then overaligned_lucky buffer nbytes
  else overaligned_carve buffer needed_units nbytes alignment.

Definition allocate_aligned (priv_allocate : allocate_fn St)
    (nbytes alignment : Z) : M St Z :=
  let alignment_ok := Z.land alignment (alignment -! 1) =? 0 in
  boost_assert alignment_ok;;
  if negb alignment_ok then mret 0
  else if alignment <=? Alignment then
    '(p, _, _) ← priv_allocate cmd_allocate_new nbytes nbytes 0 Alignment;
    mret p
  else priv_allocate_overaligned priv_allocate nbytes alignment.

Fixpoint priv_deallocate_many (chain : list Z) : M St () :=
  match chain with
  | [] => mret ()
  | p :: chain => priv_deallocate p;; priv_deallocate_many chain
  end.

(** *** [priv_allocate_many]

    [elem_sizes] is the array argument, [sizeof_element = 0] asks for
    [n_elements] blocks of size [elem_sizes[0]].  The multiallocation chain
    is the list of its buffers. *)
Section many.
Variable priv_allocate : allocate_fn St.
Variables (sizeof_void_pointer : Z) (elem_sizes : list Z)
          (n_elements alignment sizeof_element : Z).

Definition elem_size_at (i : Z) : M St Z :=
  match elem_sizes !! Z.to_nat i with
  | Some v => mret v
  | None => throw BadAccess
  end.

Definition ptr_size_units : Z := priv_get_total_units sizeof_void_pointer.

(** The [for] loop that adds up the requests of different sizes. *)
Fixpoint sum_requests (fuel : nat) (i total elem_units : Z) : M St (Z * Z) :=
  if i <? n_elements then
    match fuel with
    | O => throw OutOfFuel
    | S fuel =>
        e ← elem_size_at i;
        if multiplication_overflows e sizeof_element then mret (0, elem_units) else
        let elem_units := priv_get_total_units (e *! sizeof_element) in
        let elem_units :=
          if elem_units <? ptr_size_units then ptr_size_units else elem_units in
        if sum_overflows total elem_units then mret (0, elem_units) else
        sum_requests fuel (i +! 1) (total +! elem_units) elem_units
    end
  else mret (total, elem_units).

Definition total_request : M St (Z * Z) :=
  if sizeof_element =? 0 then
    e ← elem_size_at 0;
    let elem_units := priv_get_total_units e in
    let elem_units :=
      if elem_units <? ptr_size_units then ptr_size_units else elem_units in
    mret (n_elements *! elem_units, elem_units)
  else sum_requests (Z.to_nat n_elements) 0 0 0.

Record many_state := Many {
  ms_low_idx : Z; ms_total_request : Z; ms_elem_units : Z; ms_chain : list Z
}.

(** [max_value(priv_get_total_units(elem_sizes[low_idx+1]*sizeof_element),
    ptr_size_units)], evaluated only when it is reached. *)
Definition next_elem_units (low_idx elem_units : Z) : M St Z :=
  if sizeof_element =? 0 then mret elem_units
  else e ← elem_size_at (low_idx +! 1);
       mret (max_value (priv_get_total_units (e *! sizeof_element)) ptr_size_units).

(** Makes [new_block] of the received units: the last block takes all of them
    and is shrunk if the rest can be a block.  The new value of
    [received_units]. *)
Definition carve_block (last : bool) (new_block elem_units received_units total_used_units : Z)
  : M St Z :=
  if last then
    set_blk_size new_block (Z.land (received_units -! total_used_units) size_mask);;
    priv_mark_new_allocated_block new_block;;
    if (elem_units +! BlockCtrlUnits) <=? (received_units -! total_used_units) then
      let shrunk_request :=
        elem_units *! Alignment -! AllocatedCtrlBytes +! UsableByPreviousChunk in
      '(shrink_ok, shrunk_received) ←
        shrink (priv_get_user_buffer new_block) shrunk_request shrunk_request;
      boost_assert shrink_ok;;
      boost_assert (shrunk_request =? shrunk_received);;
      boost_assert (elem_units =?
        (shrunk_request -! UsableByPreviousChunk) / Alignment +! AllocatedCtrlUnits);;
      s ← blk_size new_block;
      boost_assert (s =? elem_units);;
      mret (elem_units +! total_used_units)
    else mret received_units
  else
    set_blk_size new_block (Z.land elem_units size_mask);;
    priv_mark_new_allocated_block new_block;;
    mret received_units.

(** The units of element [low_idx]. *)
Definition elem_units_at (low_idx elem_units : Z) : M St Z :=
  if sizeof_element =? 0 then mret elem_units
  else e ← elem_size_at low_idx;
       let u := priv_get_total_units (e *! sizeof_element) in
       mret (if u <? ptr_size_units then ptr_size_units else u).

(** The inner loop: cuts the received buffer of [received_units] units at
    [block_address] into elements. *)
Fixpoint carve (fuel : nat) (received_units total_used_units block_address : Z)
    (ms : many_state) : M St (many_state * Z * Z) :=
  if negb (total_used_units <? received_units)
  then mret (ms, total_used_units, received_units) else
  match fuel with
  | O => throw OutOfFuel
  | S fuel =>
      let low_idx := ms_low_idx ms in
      elem_units ← elem_units_at low_idx (ms_elem_units ms);
      if received_units <? (total_used_units +! elem_units)
      then mret (Many low_idx (ms_total_request ms) elem_units (ms_chain ms),
                 total_used_units, received_units) else
      let total_request_units := ms_total_request ms -! elem_units in
      let new_block := block_address in
      assert_alignment new_block;;
      last ← (if (low_idx +! 1) =? n_elements then mret true
              else u ← next_elem_units low_idx elem_units;
                   mret (received_units <? (total_used_units +! elem_units +! u)));
      received_units ← carve_block last new_block elem_units received_units total_used_units;
      s ← blk_size new_block;
      boost_assert (sizeof_void_pointer <=? (s *! Alignment -! AllocatedCtrlUnits));;
      carve fuel received_units (total_used_units +! s) (block_address + s *! Alignment)
        (Many (low_idx +! 1) total_request_units elem_units
              (ms_chain ms ++ [priv_get_user_buffer new_block]))
  end.

Fixpoint many_loop (fuel : nat) (ms : many_state) : M St many_state :=
  if negb (ms_low_idx ms <? n_elements) then mret ms else
  match fuel with
  | O => throw OutOfFuel
  | S fuel =>
      let total_bytes :=
        ms_total_request ms *! Alignment -! AllocatedCtrlBytes +! UsableByPreviousChunk in
      min_units ←
        (if sizeof_element =? 0 then mret (ms_elem_units ms)
         else e ← elem_size_at (ms_low_idx ms);
              mret (priv_get_total_units (e *! sizeof_element)));
      let min_allocation :=
        min_units *! Alignment -! AllocatedCtrlBytes +! UsableByPreviousChunk in
      '(ret, _, _) ← priv_allocate cmd_allocate_new min_allocation total_bytes 0 alignment;
      if ret =? 0 then mret ms else
      let block := priv_get_block ret in
      received_units ← blk_size block;
      '(ms, total_used_units, received_units) ←
        carve (S (Z.to_nat n_elements)) received_units 0 block ms;
      boost_assert (total_used_units =? received_units);;
      many_loop fuel ms
  end.

Definition priv_allocate_many (chain : list Z) : M St (list Z) :=
  '(total_request_units, elem_units) ← total_request;
  if nz total_request_units && negb (multiplication_overflows total_request_units Alignment)
  then
    ms ← many_loop (S (Z.to_nat n_elements))
           (Many 0 total_request_units elem_units chain);
    if negb (ms_low_idx ms =? n_elements)
    then priv_deallocate_many (ms_chain ms);; mret []
    else mret (ms_chain ms)
  else mret chain.
End many.

(** [allocate_many] for [n_elements] of one size, and for an array of sizes.
    The second passes [sizeof_element] and [alignment] in the order its
    body writes them. *)
Definition allocate_many_same (priv_allocate : allocate_fn St) (sizeof_void_pointer : Z)
    (elem_bytes n_elements alignment : Z) (chain : list Z) : M St (list Z) :=
  priv_allocate_many priv_allocate sizeof_void_pointer [elem_bytes] n_elements
    alignment 0 chain.

Definition allocate_many_sizes (priv_allocate : allocate_fn St) (sizeof_void_pointer : Z)
    (elem_sizes : list Z) (n_elements sizeof_element alignment : Z) (chain : list Z)
  : M St (list Z) :=
  priv_allocate_many priv_allocate sizeof_void_pointer elem_sizes n_elements
    sizeof_element alignment chain.
End common.
