(* ===== verification/MemAlgoSpec.v ===== *)
(** What [memory_algorithm_common] promises over any memory algorithm.

    [memory_algorithm_common] is a template over the algorithm.  The class
    [BlockAlgoOk] states what the algorithm must promise: how it represents a
    list of blocks, what its accesses to block headers do, and that its
    [priv_deallocate] frees a block.  Against this interface, shrinking,
    over-aligned and multiple allocation are proved here, once; the files of the
    algorithms show that they keep the promise.

    The template writes the headers of new blocks into the buffer of an
    allocated block, one field after another.  While it does so, the memory of
    that block is a [region]: the algorithm knows the blocks before and behind
    it, and two maps record which sizes the template has written and which
    blocks (and with which size) it has marked. *)

From S2P Require Import Prelude Blocks MathUtil MemAlgo.

Local Open Scope u64_scope.

(** ** Arithmetic of units *)

(** [x] rounded up to units. *)
Definition ceil16 (x : Z) : Z := (x + 15) / 16.

(** The units, without the header, of a block for [x] user bytes if [u] bytes
    of the header behind it are usable. *)
Definition user_units (u x : Z) : Z := ceil16 (Z.max 0 (x - u)).

Lemma rounded_units x :
  0 <= x <= 18446744073709551600 → get_rounded_size x 16 / 16 = (x + 15) / 16.
Proof.
  intros Hx. destruct (decide (x = 0)) as [->|]; [done|].
  rewrite rounded_size_val; unfold round_up, in_u64; [|lia|lia|lia|dlia].
  rewrite Z.div_mul by lia. f_equal. lia.
Qed.

Lemma rounded_wrap x :
  18446744073709551600 < x < 18446744073709551616 → get_rounded_size x 16 = 0.
Proof.
  intros Hx. unfold get_rounded_size. rewrite (u64_small (x - 1)) by (unfold in_u64; lia).
  assert ((x - 1) / 16 = 1152921504606846975) as -> by dlia. done.
Qed.

(** [ceil_units(x - u)], which wraps around to 0 for [x < u]. *)
Lemma ceil_units_sub u x :
  0 <= u <= 8 → 0 <= x <= 18446744073709551600 → ceil_units (x -! u) = user_units u x.
Proof.
  intros Hu Hx. unfold ceil_units, user_units, ceil16. change Alignment with 16.
  destruct (decide (u <= x)).
  - rewrite u64_small by (unfold in_u64; lia). rewrite Z.max_r by lia. by apply rounded_units; lia.
  - rewrite u64_neg by lia. rewrite rounded_wrap by lia. by rewrite Z.max_l by lia.
Qed.

Lemma user_ceil_val u x :
  0 <= u <= 8 → 0 <= x <= 18446744073709551600 → user_buffer_ceil_units u x = user_units u x.
Proof.
  intros Hu Hx. unfold user_buffer_ceil_units. rewrite ceil_units_sub by done.
  destruct (Z.leb_spec x u); [|done]. unfold user_units. by rewrite Z.max_l by lia.
Qed.

Lemma user_units_bounds u x :
  0 <= u → 0 <= x → 0 <= user_units u x ∧ x <= 16 * user_units u x + u ∧
  16 * user_units u x <= x + 15.
Proof. intros. unfold user_units, ceil16. destruct (decide (u <= x)); dlia. Qed.

Lemma aligned_after a n : a mod 16 = 0 → check_alignment (after a n) = true.
Proof.
  intros H. unfold check_alignment, after, Alignment. apply Z.eqb_eq.
  by rewrite (Z.mul_comm 16), Z.mod_add by lia.
Qed.
Lemma aligned_after_buffer a n : a mod 16 = 0 → check_alignment (after a n + 16) = true.
Proof.
  intros H. replace (after a n + 16) with (after a (n + 1)) by (unfold after; lia).
  by apply aligned_after.
Qed.

Lemma land_align x k : in_u64 x → 0 <= k < 64 → Z.land x (u64 (- 2 ^ k)) = x / 2 ^ k * 2 ^ k.
Proof.
  intros Hx Hk. rewrite <- land_bnot_pow2 by done. unfold bnot64. do 2 f_equal.
  assert (0 < 2 ^ k) by (apply Z.pow_pos_nonneg; lia).
  assert (2 ^ k <= 2 ^ 63) by (apply Z.pow_le_mono_r; lia).
  rewrite (u64_small (2 ^ k - 1)) by (unfold in_u64; lia). unfold Z.lnot. lia.
Qed.

Lemma land_mask x k : 0 <= k < 64 → Z.land x (2 ^ k -! 1) = x mod 2 ^ k.
Proof.
  intros Hk. assert (0 < 2 ^ k) by (apply Z.pow_pos_nonneg; lia).
  assert (2 ^ k <= 2 ^ 63) by (apply Z.pow_le_mono_r; lia).
  rewrite (u64_small (2 ^ k - 1)) by (unfold in_u64; lia).
  rewrite <- Z.land_ones by lia. f_equal. rewrite Z.ones_equiv. lia.
Qed.

(** ** The interface *)

Class BlockAlgoOk (St : Type) {A : BlockAlgo St} := {
  base : St → Z;                    (** the address of the first block *)
  frame : relation St;              (** the same segment, with other blocks *)
  rep : St → list blk → Prop;       (** the memory holds the blocks *)
  region : St → list blk → Z → list blk → gmap Z Z → gmap Z Z → Prop;
  frame_preorder :: PreOrder frame;
  frame_base s s' : frame s s' → base s' = base s;
  ok_consts : AllocatedCtrlUnits = 1 ∧ AllocatedCtrlBytes = 16 ∧
    BlockCtrlBytes = 16 * BlockCtrlUnits ∧ 1 <= BlockCtrlUnits <= 4096 ∧
    0 <= UsableByPreviousChunk <= 8;
  ok_mask x : 0 <= x < 4611686018427387904 → Z.land x size_mask = x;
  ok_get_block p : priv_get_block p = p - 16;
  ok_user_buffer b : priv_get_user_buffer b = b + 16;
  ok_total_units x : 0 <= x <= 9223372036854775808 →
    BlockCtrlUnits <= priv_get_total_units x <= 1152921504606846976 ∧
    x <= capacity UsableByPreviousChunk (priv_get_total_units x);
  rep_bounds s bs : rep s bs →
    base s mod 16 = 0 ∧ 0 < base s ∧ after (base s) (total bs) < 9223372036854775808 ∧
    min_blocks BlockCtrlUnits bs;
  wp_is_allocated s pre n post : rep s (pre ++ Blk n false :: post) →
    wp (priv_is_allocated_block (after (base s) (total pre))) s (λ r s', r = true ∧ s' = s);
  wp_deallocate s pre n post : rep s (pre ++ Blk n false :: post) →
    wp (priv_deallocate (after (base s) (total pre) + 16)) s
       (λ _ s', rep s' (free_at pre n post) ∧ frame s s');
  region_bounds s pre c post S K : region s pre c post S K →
    base s mod 16 = 0 ∧ 0 < base s ∧
    after (base s) (total pre + c + total post) < 9223372036854775808 ∧ BlockCtrlUnits <= c ∧
    min_blocks BlockCtrlUnits pre ∧ min_blocks BlockCtrlUnits post;
  region_open s pre c post : rep s (pre ++ Blk c false :: post) →
    let a := after (base s) (total pre) in region s pre c post {[ a := c ]} {[ a := c ]};
  region_close s pre c post S K : region s pre c post S K →
    let a := after (base s) (total pre) in S !! a = Some c → K !! a = Some c →
    rep s (pre ++ Blk c false :: post);
  region_front s pre k c post S K : region s pre c post S K → BlockCtrlUnits <= k →
    BlockCtrlUnits <= c - k →
    let a := after (base s) (total pre) in S !! a = Some k → K !! a = Some k →
    region s (pre ++ [Blk k false]) (c - k) post S K;
  region_back s pre f c post S K : region s pre c post S K →
    BlockCtrlUnits <= f → BlockCtrlUnits <= c - f →
    let b := after (base s) (total pre + f) in S !! b = Some (c - f) → K !! b = Some (c - f) →
    region s pre f (Blk (c - f) false :: post) S K;
  wp_blk_size s pre c post S K j n : region s pre c post S K → 0 <= j < c →
    let x := after (base s) (total pre + j) in S !! x = Some n →
    wp (blk_size x) s (λ r s', r = n ∧ s' = s);
  wp_set_blk_size s pre c post S K j v : region s pre c post S K → 0 <= j < c →
    0 <= v < 4611686018427387904 → let x := after (base s) (total pre + j) in
    wp (set_blk_size x v) s (λ _ s', region s' pre c post (<[x := v]> S) K ∧ frame s s');
  wp_mark s pre c post S K j n : region s pre c post S K → 0 <= j → 1 <= n → j + n <= c →
    let x := after (base s) (total pre + j) in S !! x = Some n →
    wp (priv_mark_new_allocated_block x) s
       (λ _ s', region s' pre c post S (<[x := n]> K) ∧ frame s s');
  wp_region_deallocate s pre f k n post S K :
    region s pre f (Blk k false :: Blk n false :: post) S K →
    is_Some (S !! after (base s) (total pre)) → is_Some (K !! after (base s) (total pre)) →
    wp (priv_deallocate (after (base s) (total pre + f + k) + 16)) s
       (λ _ s', region s' pre f (Blk k false :: free_at [] n post) ∅ ∅ ∧ frame s s')
}.

(** The heap of a segment whose blocks are merged as far as possible. *)
Definition implements `{BlockAlgoOk St} (s : St) (h : gmap Z Z) : Prop :=
  ∃ bs, rep s bs ∧ coalesced bs ∧ h = heap UsableByPreviousChunk (base s) bs.

(** What [priv_allocate] does for a new buffer of at least [limit] bytes: it
    fails without change, or allocates a part or the whole of a free block. *)
Definition allocated_from `{BlockAlgoOk St} (limit : Z) (s : St) (bs : list blk)
    (p received : Z) (s' : St) : Prop :=
  ∃ pre sz post n rest, bs = pre ++ Blk sz true :: post ∧
    p = after (base s) (total pre) + 16 ∧ BlockCtrlUnits <= n <= sz ∧
    received = capacity UsableByPreviousChunk n ∧ limit <= received ∧
    (rest = [] ∧ n = sz ∨ rest = [Blk (sz - n) true] ∧ n < sz) ∧
    rep s' (pre ++ Blk n false :: rest ++ post) ∧ frame s s'.

Class AllocateOk `{BlockAlgoOk St} (f : allocate_fn St) : Prop :=
  wp_allocate_new s bs limit prefer align : rep s bs → coalesced bs →
    0 <= limit <= prefer → prefer <= 18446744073709551600 → align <= 16 →
    wp (f cmd_allocate_new limit prefer 0 align) s (λ r s',
      (fst (fst r) = 0 ∧ s' = s) ∨
      allocated_from limit s bs (fst (fst r)) (snd (fst r)) s').
