(* ===== verification/MemAlgoAlign.v ===== *)
(** Shrinking and over-aligned allocation over any memory algorithm.

    Proofs of [memory_algorithm_common::shrink], [allocate_aligned] and
    [priv_allocate_overaligned] against the interface [BlockAlgoOk]. *)

From S2P Require Import Prelude Blocks MathUtil MemAlgo MemAlgoSpec.

Local Open Scope u64_scope.

Section align.
Context {St : Type} {A : BlockAlgo St} {Ok : BlockAlgoOk St}.

Notation U := (@UsableByPreviousChunk St A).
Notation B := (@BlockCtrlUnits St A).

(** ** The accesses to a region, at an address given by the code *)

Lemma rg_size {s b pre c post S K} x j n (Q : Z → St → Prop) :
  region s pre c post S K → base s = b → x = after b (total pre + j) → 0 <= j < c →
  S !! x = Some n → Q n s → wp (blk_size x) s Q.
Proof.
  intros HR <- -> Hj HS HQ. eapply wp_mono; [by eapply wp_blk_size|]. by intros ? ? [-> ->].
Qed.

Lemma rg_set {s b pre c post S K} x j v (Q : () → St → Prop) :
  region s pre c post S K → base s = b → x = after b (total pre + j) → 0 <= j < c →
  0 <= v < 4611686018427387904 →
  (∀ s', region s' pre c post (<[x := v]> S) K → base s' = b → frame s s' → Q () s') →
  wp (set_blk_size x v) s Q.
Proof.
  intros HR <- -> Hj Hv HQ. eapply wp_mono; [by eapply wp_set_blk_size|].
  intros [] s' [HR' HF]. apply HQ; [done|by apply frame_base|done].
Qed.

Lemma rg_mark {s b pre c post S K} x j n (Q : () → St → Prop) :
  region s pre c post S K → base s = b → x = after b (total pre + j) → 0 <= j → 1 <= n →
  j + n <= c → S !! x = Some n →
  (∀ s', region s' pre c post S (<[x := n]> K) → base s' = b → frame s s' → Q () s') →
  wp (priv_mark_new_allocated_block x) s Q.
Proof.
  intros HR <- -> Hj Hn Hc HS HQ. eapply wp_mono; [by eapply wp_mark|].
  intros [] s' [HR' HF]. apply HQ; [done|by apply frame_base|done].
Qed.

Lemma rp_dealloc {s b pre n post} x (Q : () → St → Prop) :
  rep s (pre ++ Blk n false :: post) → base s = b → x = after b (total pre) + 16 →
  (∀ s', rep s' (free_at pre n post) → base s' = b → frame s s' → Q () s') →
  wp (priv_deallocate x) s Q.
Proof.
  intros HR <- -> HQ. eapply wp_mono; [by eapply wp_deallocate|].
  intros [] s' [HR' HF]. apply HQ; [done|by apply frame_base|done].
Qed.

(** Reading the size of an allocated block. *)
Lemma rp_size {s b pre n post} x (Q : Z → St → Prop) :
  rep s (pre ++ Blk n false :: post) → base s = b → x = after b (total pre) →
  Q n s → wp (blk_size x) s Q.
Proof.
  intros HR <- -> HQ. pose proof (region_open _ _ _ _ HR) as Hg.
  eapply (rg_size _ 0); [done|done| | | |done].
  - by rewrite Z.add_0_r.
  - apply region_bounds in Hg. pose proof ok_consts. lia.
  - by rewrite lookup_singleton_eq.
Qed.

Lemma rep_mid s pre n post :
  rep s (pre ++ Blk n false :: post) →
  base s mod 16 = 0 ∧ 0 < base s ∧ 0 <= total pre ∧ 0 <= total post ∧ B <= n ∧ 1 <= n ∧
  after (base s) (total pre + n + total post) < 9223372036854775808 ∧
  pos_blocks pre ∧ pos_blocks post ∧ min_blocks B pre ∧ min_blocks B post.
Proof.
  intros HR. destruct (rep_bounds _ _ HR) as (H1 & H2 & H3 & Hm).
  pose proof ok_consts as (_ & _ & _ & HB & _).
  apply min_app in Hm as [Hm1 [Hn Hm2]%min_cons]. cbn in Hn.
  assert (pos_blocks pre) by (eapply min_pos; [|done]; lia).
  assert (pos_blocks post) by (eapply min_pos; [|done]; lia).
  rewrite total_app in H3. cbn in H3. rewrite Z.add_assoc in H3.
  split_and!; try done; try lia; by apply pos_total.
Qed.

Lemma user_units_range x :
  0 <= x <= 18446744073709551600 → 0 <= user_units U x <= 1152921504606846976.
Proof.
  intros Hx. pose proof ok_consts as (_ & _ & _ & _ & HU).
  pose proof (user_units_bounds U x ltac:(lia) ltac:(lia)). lia.
Qed.

(** ** Splitting an allocated block *)

Lemma region_two s b pre n post S K k :
  region s pre n post S K → base s = b → B <= k → B <= n - k →
  let a := after b (total pre) in
  S !! a = Some k → K !! a = Some k → S !! after a k = Some (n - k) → K !! after a k = Some (n - k) →
  rep s (pre ++ Blk k false :: Blk (n - k) false :: post).
Proof.
  intros HR <- Hk Hnk a H1 H2 H3 H4. pose proof ok_consts as (_ & _ & _ & HB & _).
  unfold a in *. rewrite after_after in *.
  eapply region_close; [eapply region_back; [done|done|done|done|done]|done|done].
Qed.

(** Lookups in the maps of a region. *)
Ltac rins := repeat first
  [ rewrite lookup_insert_eq | rewrite lookup_insert_ne by (unfold after in *; lia)
  | rewrite lookup_singleton_eq ]; try done.

Ltac consts :=
  rewrite ?(proj1 ok_consts), ?(proj1 (proj2 ok_consts)), ?ok_get_block, ?ok_user_buffer;
  change Alignment with 16 in *.

(** "Now we can just rewrite the size of the old buffer": the splitting part of
    [shrink]. *)
Lemma shrink_split_ok s pre n post su :
  rep s (pre ++ Blk n false :: post) → 0 <= su → B - 1 <= su → B <= n - 1 - su →
  let block := after (base s) (total pre) in
  let received_size := su * 16 + U in
  wp (set_blk_size block
        (Z.land ((received_size -! U) / 16 +! 1) size_mask);;
      bsize ← blk_size block;
      boost_assert (B <=? bsize);;
      let new_block := block + bsize *! 16 in
      set_blk_size new_block (Z.land (n -! bsize) size_mask);;
      nsize ← blk_size new_block;
      boost_assert (B <=? nsize);;
      priv_mark_new_allocated_block block;;
      priv_mark_new_allocated_block new_block;;
      priv_deallocate (priv_get_user_buffer new_block);;
      mret (true, received_size)) s (λ r s',
    r = (true, capacity U (su + 1)) ∧
    rep s' (free_at (pre ++ [Blk (su + 1) false]) (n - (su + 1)) post) ∧ frame s s').
Proof.
  intros HR Hsu HBsu Hsun. cbv zeta.
  destruct (rep_mid _ _ _ _ HR) as (Hal & Hb0 & Hp & Hq & HBn & Hn & Hlt & _).
  pose proof ok_consts as (_ & _ & _ & HB & HU).
  pose proof (region_open _ _ _ _ HR) as Hg. cbv zeta in Hg. remember (base s) as b eqn:Hb.
  symmetry in Hb. set (a := after b (total pre)) in *. unfold after in Hlt.
  assert (a = after b (total pre + 0)) as Ea by (unfold a; f_equal; lia).
  assert (after a (su + 1) = after b (total pre + (su + 1))) as Ea' by (apply after_after).
  u64_simpl. replace (su * 16 + U - U) with (su * 16) by lia. rewrite Z.div_mul by lia. u64_simpl.
  rewrite ok_mask by lia.
  wp_step. eapply (rg_set _ 0); [done..|lia|lia|]. intros s1 Hg1 Hb1 HF1.
  wp_step. eapply (rg_size _ 0); [done..|lia|by rins|]. u64_simpl.
  replace (a + (su + 1) * 16) with (after a (su + 1)) by (unfold after; lia).
  rewrite ok_mask by lia. wp_step. apply wp_assert; [apply Z.leb_le; lia|].
  wp_step. eapply (rg_set _ (su + 1)); [done..|lia|lia|]. intros s2 Hg2 Hb2 HF2.
  wp_step. eapply (rg_size _ (su + 1)); [done..|lia|by rins|].
  wp_step. apply wp_assert; [apply Z.leb_le; lia|].
  wp_step. eapply (rg_mark _ 0 (su + 1)); [done..|lia|lia|lia|by rins|]. intros s3 Hg3 Hb3 HF3.
  wp_step. eapply (rg_mark _ (su + 1) (n - (su + 1))); [done..|lia|lia|lia|by rins|].
  intros s4 Hg4 Hb4 HF4. rewrite ok_user_buffer.
  wp_step. eapply (rp_dealloc (pre := pre ++ [Blk (su + 1) false])); [|done| |].
  { rewrite <- app_assoc. eapply region_two; [done..|lia|lia| | | |]; fold a; by rins. }
  { rewrite total_app, Ea'. cbn. do 2 f_equal. lia. }
  intros s5 HR5 Hb5 HF5. wp_step. split_and!; [f_equal; unfold capacity; lia|done|].
  by do 4 (etrans; [done|]).
Qed.

Lemma shrink_ok s pre n post max_size prefer :
  rep s (pre ++ Blk n false :: post) → in_u64 max_size →
  0 <= prefer <= 18446744073709551600 →
  let pu := user_units U prefer in
  let mu := (max_size -! U) / 16 in
  let su := Z.max pu (B - 1) in
  wp (shrink (after (base s) (total pre) + 16) max_size prefer) s (λ r s',
    if (mu <? pu) || (n - 1 <? pu) then r = (false, capacity U n) ∧ s' = s
    else if n - 1 =? pu then r = (true, capacity U n) ∧ s' = s
    else if (mu <? su) || (n - 1 - su <? B) then r = (false, capacity U n) ∧ s' = s
    else r = (true, capacity U (su + 1)) ∧
         rep s' (free_at (pre ++ [Blk (su + 1) false]) (n - (su + 1)) post) ∧ frame s s').
Proof.
  intros HR Hmax Hpref. cbv zeta.
  destruct (rep_mid _ _ _ _ HR) as (Hal & Hb0 & Hp & Hq & HBn & Hn & Hlt & _).
  pose proof ok_consts as (_ & _ & _ & HB & HU).
  pose proof (user_units_range prefer Hpref) as Hpu.
  set (a := after (base s) (total pre)) in *. unfold after in Hlt.
  assert (0 < a ∧ a + 16 * n < 9223372036854775808) as [Ha0 Han] by (unfold a, after; lia).
  set (pu := user_units U prefer) in *. set (mu := (max_size -! U) / 16).
  set (su := Z.max pu (B - 1)).
  assert ((if pu <=? B - 1 then B - 1 else pu) = su) as Esu
    by (unfold su; destruct (Z.leb_spec pu (B - 1)); lia).
  unfold shrink, try_shrink. consts. rewrite !ceil_units_sub by done. fold pu.
  unfold floor_units. consts. fold mu. replace (a + 16 - 16) with a by lia.
  wp_step. eapply rp_size; [done..|]. wp_step. wp_step. eapply rp_size; [done..|].
  wp_step. eapply wp_mono; [by eapply wp_is_allocated|]. intros r ? [-> ->].
  wp_step. apply wp_assert; [done|].
  wp_step. apply wp_assert; [by apply aligned_after_buffer|].
  u64_simpl. rewrite Esu. replace ((n - 1) * 16 + U) with (capacity U n) by (unfold capacity; lia).
  destruct (Z.ltb_spec mu pu); [by do 2 apply wp_ret|].
  destruct (Z.ltb_spec (n - 1) pu); [by do 2 apply wp_ret|]. cbn [orb].
  destruct (Z.eqb_spec (n - 1) pu) as [E|E]; [by do 2 apply wp_ret|].
  destruct (Z.ltb_spec mu su); [by do 2 apply wp_ret|]. cbn [orb].
  assert (su <= n - 1) by lia. u64_simpl.
  destruct (Z.ltb_spec (n - 1 - su) B); [by do 2 apply wp_ret|].
  wp_step. cbv iota. cbn [negb].
  apply shrink_split_ok; [done|lia|lia|lia].
Qed.

(** The units an over-aligned request asks for: room for the buffer twice, for
    a free block in front and for moving to an aligned address. *)
Definition overaligned_units (nbytes k : Z) : Z :=
  let u := user_units U nbytes in u + Z.max u (B - 1) + B + (2 ^ k / 16 - 1).

Lemma needed_units_val nbytes k :
  0 <= nbytes <= 2 ^ 62 → 4 < k <= 62 →
  overaligned_needed_units nbytes (2 ^ k) = overaligned_units nbytes k ∧
  0 <= overaligned_units nbytes k <= 2 ^ 59 + 2 ^ 58 + 8200 ∧ 2 <= 2 ^ k / 16 <= 2 ^ 58 ∧
  16 * (2 ^ k / 16) = 2 ^ k.
Proof.
  intros Hn Hk. assert (2 ^ k <= 2 ^ 62) by (apply Z.pow_le_mono_r; lia).
  assert (2 ^ 5 <= 2 ^ k) by (apply Z.pow_le_mono_r; lia).
  pose proof ok_consts as (_ & _ & _ & HB & HU).
  pose proof (user_units_bounds U nbytes ltac:(lia) ltac:(lia)) as Hu.
  assert (16 * (2 ^ k / 16) = 2 ^ k) as E.
  { replace k with (4 + (k - 4)) by lia. rewrite Z.pow_add_r by lia. change (2 ^ 4) with 16.
    rewrite (Z.mul_comm 16 (2 ^ (k - 4))), Z.div_mul by lia. lia. }
  unfold overaligned_needed_units, overaligned_units. consts. rewrite user_ceil_val by lia.
  set (u := user_units U nbytes) in *. u64_simpl.
  assert (max_value u (B - 1) = Z.max u (B - 1)) as ->
    by (unfold max_value; destruct (Z.ltb_spec (B - 1) u); lia).
  assert ((2 ^ k - 16) / 16 = 2 ^ k / 16 - 1) as -> by dlia.
  u64_simpl. lia.
Qed.

(** "If we are lucky and the buffer is aligned, just split it". *)
Lemma lucky_ok s pre c post nbytes :
  rep s (pre ++ Blk c false :: post) → 0 <= nbytes <= 2 ^ 62 →
  let a := after (base s) (total pre) in
  let k := Z.max (user_units U nbytes + 1) B in
  k + B <= c →
  wp (overaligned_lucky (a + 16) nbytes) s (λ p s', p = a + 16 ∧ frame s s' ∧
    rep s' (free_at (pre ++ [Blk k false]) (c - k) post)).
Proof.
  intros HR Hn a k Hkc. destruct (rep_mid _ _ _ _ HR) as (Hal & Hb0 & Hp & Hq & HBc & Hc & Hlt & _).
  pose proof ok_consts as (_ & _ & _ & HB & HU). pose proof (user_units_bounds U nbytes ltac:(lia) ltac:(lia)).
  pose proof (region_open _ _ _ _ HR) as Hg. cbv zeta in Hg. remember (base s) as b eqn:Hb.
  symmetry in Hb. fold a in Hg. unfold after in Hlt.
  assert (a = after b (total pre + 0)) as Ea by (unfold a; f_equal; lia).
  assert (after a k = after b (total pre + k)) as Eak by (apply after_after).
  unfold overaligned_lucky. consts. rewrite user_ceil_val by lia.
  replace (a + 16 - 16) with a by lia. u64_simpl.
  replace (max_value (user_units U nbytes + 1) B) with k by (unfold k, max_value; destruct (Z.ltb_spec B (user_units U nbytes + 1)); lia).
  wp_step. eapply (rg_size _ 0); [done..|lia|by rins|]. u64_simpl.
  destruct (Z.leb_spec (k + B) c); [|lia]. fold (after a k). rewrite !ok_mask by lia.
  wp_step. eapply (rg_set _ 0); [done..|lia|lia|]. intros s1 Hg1 Hb1 HF1.
  wp_step. eapply (rg_mark _ 0 k); [done..|lia|lia|lia|by rins|]. intros s2 Hg2 Hb2 HF2.
  wp_step. eapply (rg_set _ k); [done..|lia|lia|]. intros s3 Hg3 Hb3 HF3.
  wp_step. eapply (rg_mark _ k (c - k)); [done..|lia|lia|lia|by rins|]. intros s4 Hg4 Hb4 HF4.
  wp_step. eapply (rp_dealloc (pre := pre ++ [Blk k false])); [|done| |].
  { rewrite <- app_assoc. eapply region_two; [done..|lia|lia| | | |]; fold a; by rins. }
  { rewrite total_app, Eak. cbn. do 2 f_equal. lia. }
  intros s5 HR5 Hb5 HF5. wp_step. split_and!; [done|by do 4 (etrans; [done|])|done].
Qed.

(** The second block holds the user data; what is left behind it is freed while
    the first block still has its old header. *)
Lemma second_ok s b pre c f post nbytes S K :
  region s pre c post S K → base s = b → 0 <= nbytes <= 2 ^ 62 → B <= f →
  let a := after b (total pre) in
  is_Some (S !! a) → is_Some (K !! a) → B <= c - f → user_units U nbytes + 1 <= c - f →
  wp (overaligned_second (after a f) (c - f) nbytes) s (λ _ s', ∃ k rest S' K',
    region s' pre f (Blk k false :: rest) S' K' ∧ base s' = b ∧ frame s s' ∧
    nbytes <= capacity U k ∧ B <= k ∧
    (k = c - f ∧ rest = post ∨ k < c - f ∧ rest = free_at [] (c - f - k) post)).
Proof.
  intros Hg Hb Hn Hf a HS HK HBc Huc.
  destruct (region_bounds _ _ _ _ _ _ Hg) as (Hal & Hb0 & Hlt & Hc & Hm1 & Hm2).
  pose proof ok_consts as (_ & _ & _ & HB & HU).
  pose proof (user_units_bounds U nbytes ltac:(lia) ltac:(lia)) as Hu.
  assert (0 <= total pre) by (eapply pos_total, min_pos; [|done]; lia).
  assert (0 <= total post) by (eapply pos_total, min_pos; [|done]; lia).
  rewrite Hb in *. unfold after in Hlt.
  assert (after a f = after b (total pre + f)) as Eaf by (apply after_after).
  unfold overaligned_second. consts. rewrite user_ceil_val by lia. u64_simpl.
  set (k := Z.max B (user_units U nbytes + 1)).
  replace (max_value B (user_units U nbytes + 1)) with k
    by (unfold k, max_value; destruct (Z.ltb_spec (user_units U nbytes + 1) B); lia).
  u64_simpl. destruct (Z.leb_spec (k + B) (c - f)) as [Hbig|Hsmall]; rewrite ?ok_mask by lia.
  - fold (after (after a f) k).
    assert (after (after a f) k = after b (total pre + (f + k))) as Eak
      by (unfold a; rewrite !after_after; f_equal; lia).
    wp_step. eapply (rg_set _ f); [done..|lia|lia|]. intros s1 Hg1 Hb1 HF1.
    wp_step. eapply (rg_size _ f); [done..|lia|by rins|]. u64_simpl. rewrite !ok_mask by lia.
    wp_step. eapply (rg_set _ (f + k)); [done..|lia|lia|]. intros s2 Hg2 Hb2 HF2.
    wp_step. eapply (rg_size _ (f + k)); [done..|lia|by rins|].
    wp_step. apply wp_assert; [apply Z.leb_le; lia|].
    wp_step. eapply (rg_mark _ f k); [done..|lia|lia|lia|by rins|]. intros s3 Hg3 Hb3 HF3.
    wp_step. eapply (rg_mark _ (f + k) (c - f - k)); [done..|lia|lia|lia|by rins|]. intros s4 Hg4 Hb4 HF4.
    apply (region_back _ _ (f + k)) in Hg4; [|lia|lia|rewrite Hb4, <- Eak; rins; f_equal; lia..].
    apply (region_back _ _ f) in Hg4; [|lia|lia|rewrite Hb4, <- Eaf; rins; f_equal; lia..].
    replace (f + k - f) with k in Hg4 by lia.
    eapply wp_mono.
    { replace (after (after a f) k + 16) with (after (base s4) (total pre + f + k) + 16)
        by (rewrite Hb4, Eak; do 2 f_equal; lia).
      eapply wp_region_deallocate; [done|..]; rewrite Hb4; fold a; by rins. }
    intros [] s5 [Hg5 HF5]. exists k. eexists _, _, _. split_and!; [done| | |unfold capacity; lia|lia|].
    + rewrite <- Hb4. by apply frame_base.
    + by do 4 (etrans; [done|]).
    + right. split; [lia|]. f_equal. lia.
  - wp_step. eapply (rg_set _ f); [done..|lia|lia|]. intros s1 Hg1 Hb1 HF1.
    wp_step. eapply (rg_size _ f); [done..|lia|by rins|]. wp_step. apply wp_assert; [apply Z.leb_le; lia|].
    eapply (rg_mark _ f (c - f)); [done..|lia|lia|lia|by rins|]. intros s2 Hg2 Hb2 HF2.
    exists (c - f), post. eexists _, _. split_and!; [|done| |unfold capacity; lia|lia|by left].
    + eapply region_back; [done|lia|lia|rewrite Hb2, <- Eaf; by rins..].
    + by etrans.
Qed.

(** What [second_ok] leaves behind the second block. *)
Definition second_rest (c f k : Z) (rest post : list blk) : Prop :=
  k = c - f ∧ rest = post ∨ k < c - f ∧ rest = free_at [] (c - f - k) post.

Lemma heap_second u a pre c f k rest post :
  second_rest c f k rest post →
  heap u a (pre ++ Blk f true :: Blk k true :: rest) = heap u a (pre ++ Blk c true :: post).
Proof.
  intros [[-> ->]|[_ ->]].
  - replace c with (f + (c - f)) at 2 by lia. by rewrite heap_free_split.
  - rewrite <- heap_free_split, heap_free_tail. do 4 f_equal. lia.
Qed.

Lemma coalesced_second c f k rest post :
  second_rest c f k rest post → coalesced post → coalesced rest.
Proof.
  intros [[-> ->]|[_ ->]]; [done|]. intros Hc. apply free_at_coalesced. by apply coalesced_cons_used.
Qed.

(** The aligned address inside of a block at [a]: [f] units behind its start. *)
Lemma aligned_address a k m :
  a mod 16 = 0 → 4 < k <= 62 → 1 <= m →
  ∃ f, m <= f <= m + 2 ^ k / 16 - 1 ∧
    (a + 16 + 16 * m + 2 ^ k - 1) / 2 ^ k * 2 ^ k = after a f + 16 ∧ (after a f + 16) mod 2 ^ k = 0.
Proof.
  intros Ha Hk Hm.
  assert (2 ^ k = 16 * 2 ^ (k - 4)) as Ek
    by (change 16 with (2 ^ 4); rewrite <- Z.pow_add_r by lia; f_equal; lia).
  assert (0 < 2 ^ (k - 4)) by (apply Z.pow_pos_nonneg; lia).
  set (q := 2 ^ (k - 4)) in *. rewrite Ek in *.
  pose proof (Z.div_mod (a + 16 + 16 * m + 16 * q - 1) (16 * q) ltac:(lia)) as Hd.
  pose proof (Z.mod_pos_bound (a + 16 + 16 * m + 16 * q - 1) (16 * q) ltac:(lia)) as Hr.
  set (d := (a + 16 + 16 * m + 16 * q - 1) / (16 * q)) in *.
  pose proof (Z.div_mod a 16 ltac:(lia)) as Ha16. rewrite Ha in Ha16. set (a16 := a / 16) in *.
  replace (16 * q / 16) with q by (apply Z.div_unique_exact; lia).
  exists (q * d - a16 - 1).
  assert (after a (q * d - a16 - 1) + 16 = d * (16 * q)) as Eaf by (unfold after; nia).
  rewrite Eaf, Z.mod_mul by lia. split_and!; try done; nia.
Qed.

(** "Buffer is not overaligned, so find the aligned part". *)
Lemma carve_ok s pre c post nbytes k :
  rep s (pre ++ Blk c false :: post) → 0 <= nbytes <= 2 ^ 62 → 4 < k <= 62 →
  overaligned_units nbytes k + 1 <= c →
  let a := after (base s) (total pre) in
  wp (overaligned_carve (a + 16) (overaligned_units nbytes k) nbytes (2 ^ k)) s (λ p s',
    ∃ f m rest, p = after a f + 16 ∧ p mod 2 ^ k = 0 ∧ nbytes <= capacity U m ∧ frame s s' ∧
      B <= f ∧ B <= m ∧ second_rest c f m rest post ∧ min_blocks B rest ∧
      rep s' (free_at pre f (Blk m false :: rest))).
Proof.
  intros HR Hn Hk Hc a. destruct (needed_units_val nbytes k Hn Hk) as (_ & Hneed & Hk16 & Ek16).
  destruct (rep_mid _ _ _ _ HR) as (Hal & Hb0 & Hp & Hq & HBc & Hc1 & Hlt & _).
  pose proof ok_consts as (_ & _ & EBB & HB & HU).
  pose proof (user_units_bounds U nbytes ltac:(lia) ltac:(lia)) as Hu.
  pose proof (region_open _ _ _ _ HR) as Hg. cbv zeta in Hg.
  assert (after (base s) (total pre) mod 16 = 0) as Hamod
    by (pose proof (aligned_after (base s) (total pre) Hal) as Hx; by apply Z.eqb_eq in Hx).
  destruct (aligned_address a k B Hamod Hk ltac:(lia)) as (f & Hf & Husr & Hmod).
  unfold overaligned_units in Hc, Hneed |- *. set (u := user_units U nbytes) in *.
  assert (a + 16 * c < 9223372036854775808) by (unfold a, after in *; lia).
  assert (0 < a) by (unfold a, after; lia).
  unfold overaligned_carve. consts. rewrite EBB, land_align by (apply u64_range || lia).
  rewrite (u64_small (a + 16 + 16 * B + 2 ^ k - 1)) by (unfold in_u64; lia).
  rewrite Husr, land_mask, Hmod by lia. replace (a + 16 - 16) with a by lia.
  replace (after a f + 16 - 16) with (after a f) by lia.
  wp_step. eapply wp_mono; [by eapply wp_is_allocated|]. intros r ? [-> ->].
  wp_step. apply wp_assert; [done|]. wp_step. eapply rp_size; [done..|]. u64_simpl.
  wp_step. apply wp_assert; [apply Z.leb_le; lia|].
  wp_step. apply wp_assert; [apply Z.leb_le; lia|].
  wp_step. apply wp_assert; [apply Z.leb_le; unfold after; lia|].
  wp_step. apply wp_assert; [apply Z.leb_le; unfold after; lia|].
  assert (after a f - a = f * 16) as -> by (unfold after; lia). u64_simpl.
  rewrite Z.div_mul, !(ok_mask f) by lia. u64_simpl.
  wp_step. eapply wp_mono.
  { eapply (second_ok s (base s) pre c f post nbytes); [done..|lia| | |lia|lia]; by rins. }
  intros [] s1 (m & rest & S' & K' & Hg1 & Hb1 & HF1 & Hm & HBm & Hrest).
  assert (a = after (base s) (total pre + 0)) as Ea by (unfold a; f_equal; lia).
  wp_step. eapply (rg_set _ 0); [done..|lia|lia|]. intros s2 Hg2 Hb2 HF2.
  wp_step. eapply (rg_mark _ 0 f); [done..|lia|lia|lia|by rins|]. intros s3 Hg3 Hb3 HF3.
  assert (rep s3 (pre ++ Blk f false :: Blk m false :: rest)) as HR3.
  { eapply region_close; [done|rewrite Hb3; fold a; by rins..]. }
  wp_step. eapply rp_dealloc; [exact HR3|exact Hb3|done|]. intros s4 HR4 Hb4 HF4.
  pose proof (rep_mid _ _ _ _ HR4) as (_ & _ & _ & _ & _ & _ & Hlt4 & _ & _ & _ & Hmr).
  wp_step. eapply (rp_size (pre := merge_pre pre f) (n := m)); [exact HR4|exact Hb4| |].
  { rewrite merge_pre_total. apply after_after. }
  rewrite merge_pre_total, Hb4 in Hlt4. rewrite (u64_small (m * 16)) by (unfold in_u64, after in *; lia).
  wp_step. apply wp_assert; [apply Z.leb_le; unfold capacity, after in *; lia|].
  wp_step. apply wp_assert; [done|].
  wp_step. exists f, m, rest. split_and!; try done; [by do 3 (etrans; [done|])|lia].
Qed.

(** ** The operations on the heap *)

Lemma implements_dealloc s h p c :
  implements s h → h !! p = Some c →
  wp (priv_deallocate p) s (λ _ s', implements s' (delete p h) ∧ frame s s').
Proof.
  intros (bs & HR & Hco & ->) Hl. apply heap_lookup in Hl as (pre & n & post & -> & -> & _).
  destruct (rep_mid _ _ _ _ HR) as (_ & _ & _ & _ & _ & Hn & _ & H1 & H2 & _).
  eapply rp_dealloc; [done..|]. intros s' HR' Hb HF. split; [|done].
  exists (free_at pre n post). split_and!; [done|by apply free_at_coalesced|].
  by rewrite Hb, heap_dealloc.
Qed.

Lemma heap_nonnull s h p c : implements s h → h !! p = Some c → p ≠ 0.
Proof.
  intros (bs & HR & _ & ->) Hp. apply heap_lookup in Hp as (pre & n & post & -> & -> & _).
  destruct (rep_mid _ _ _ _ HR) as (_ & ? & ? & _). unfold after. lia.
Qed.

(** The parts of [allocated_from] that do not mention the states. *)
Lemma allocated_lists pre sz post n rest :
  coalesced (pre ++ Blk sz true :: post) → pos_blocks pre → pos_blocks post → 1 <= n <= sz →
  (rest = [] ∧ n = sz ∨ rest = [Blk (sz - n) true] ∧ n < sz) →
  coalesced (pre ++ Blk n false :: rest ++ post) ∧ pos_blocks (rest ++ post) ∧
  ∀ u a, heap u a (pre ++ Blk n true :: rest ++ post) = heap u a (pre ++ Blk sz true :: post).
Proof.
  rewrite coalesced_app, coalesced_cons. intros (H1 & (H2 & H3) & H4) Hp1 Hp2 Hn
    [[-> ->]|[-> Hlt]]; rewrite coalesced_used; cbn [app].
  - auto.
  - split_and!; [done|by apply coalesced_cons|pos_tac|].
    intros u a. rewrite <- heap_free_split. do 4 f_equal. lia.
Qed.

Lemma implements_alloc limit s bs p received s' :
  rep s bs → coalesced bs → allocated_from limit s bs p received s' →
  let h := heap U (base s) bs in
  h !! p = None ∧ p mod 16 = 0 ∧ p ≠ 0 ∧ limit <= received ∧ implements s' (<[p := received]> h).
Proof.
  intros HR Hco (pre & sz & post & n & rest & -> & -> & Hn & -> & Hlim & Hrest & HR' & HF).
  destruct (rep_bounds _ _ HR) as (Hal & Hb0 & _ & Hm). pose proof ok_consts as (_ & _ & _ & HB & _).
  apply min_pos in Hm; [|lia]. apply pos_app in Hm as [H1 [_ H2]%pos_cons].
  destruct (allocated_lists pre sz post n rest) as (Hc' & Hpr & Hh); try done; [lia|]. cbv zeta.
  destruct (heap_middle U (base s) pre n (rest ++ post)) as [E1 E2]; try done; [lia|].
  rewrite Hh in E1, E2. pose proof (pos_total _ H1). split_and!; [done| |unfold after; lia|done|].
  - pose proof (aligned_after_buffer (base s) (total pre) Hal) as Hx. by apply Z.eqb_eq in Hx.
  - exists (pre ++ Blk n false :: rest ++ post). rewrite (frame_base _ _ HF). by rewrite E1.
Qed.

(** An in-place change of the size of a buffer. *)
Lemma heap_resize u a pre n m post :
  pos_blocks pre → pos_blocks post → 1 <= n → 1 <= m →
  heap u a (pre ++ Blk n false :: Blk m true :: post) =
  <[after a (total pre) + 16 := capacity u n]> (heap u a (pre ++ Blk (n + m) false :: post)).
Proof.
  intros H1 H2 Hn Hm.
  destruct (heap_middle u a pre n (Blk m true :: post)) as [-> _]; [done| |done|].
  { by apply pos_cons. }
  destruct (heap_middle u a pre (n + m) post) as [-> _]; [done|done|lia|].
  by rewrite insert_insert_eq, heap_free_split.
Qed.

(** The heap after the end of a buffer was freed. *)
Lemma implements_shrunk s s' pre k n post :
  rep s (pre ++ Blk n false :: post) → coalesced (pre ++ Blk n false :: post) → 1 <= k < n →
  frame s s' → rep s' (free_at (pre ++ [Blk k false]) (n - k) post) →
  implements s' (<[after (base s) (total pre) + 16 := capacity U k]>
                   (heap U (base s) (pre ++ Blk n false :: post))).
Proof.
  intros HR Hco Hk HF HR'. destruct (rep_mid _ _ _ _ HR) as (_ & _ & _ & _ & _ & _ & _ & H1 & H2 & _).
  rewrite coalesced_used in Hco. eexists. split_and!; [exact HR'|apply free_at_coalesced|].
  - rewrite <- app_assoc. cbn [app]. by rewrite coalesced_used, coalesced_cons_used.
  - rewrite (frame_base _ _ HF), heap_free_at, <- app_assoc. cbn [app].
    rewrite heap_resize by (done || lia). by replace (k + (n - k)) with n by lia.
Qed.

(** The heap after a buffer took (a part of) the free block behind it. *)
Lemma implements_expanded d s s' pre n m post k :
  rep s (pre ++ Blk n false :: Blk m true :: post) →
  coalesced (pre ++ Blk n false :: Blk m true :: post) → 1 <= d → 1 <= k <= n + m → frame s s' →
  rep s' (pre ++ cut d k (n + m) ++ post) →
  implements s' (<[after (base s) (total pre) + 16 := capacity U (cut_units d k (n + m))]>
                   (heap U (base s) (pre ++ Blk n false :: Blk m true :: post))).
Proof.
  intros HR Hco Hd Hk HF HR'. destruct (rep_mid _ _ _ _ HR) as (_ & _ & _ & _ & _ & Hn & _ & H1 & H2 & _).
  apply pos_cons in H2 as [Hm H2]. cbn in Hm. rewrite coalesced_used in Hco. destruct Hco as [Hcpre Hc].
  exists (pre ++ cut d k (n + m) ++ post). rewrite (frame_base _ _ HF). split_and!; [done|..].
  - apply coalesced_cons in Hc as Hc'. destruct Hc' as [Hs Hcpost]. unfold cut.
    destruct (k + d <=? n + m); cbn [app]; rewrite coalesced_used; [|done].
    split; [done|]. by apply coalesced_cons.
  - destruct (heap_cut U d (base s) pre k (n + m) post) as [-> _]; [done|done|lia|lia|].
    rewrite heap_resize by (done || lia).
    destruct (heap_middle U (base s) pre (n + m) post) as [-> _]; [done|done|lia|].
    by rewrite !insert_insert_eq.
Qed.

(** [shrink] on the heap. *)
Lemma shrink_heap_ok s h p c max_size prefer :
  implements s h → h !! p = Some c → in_u64 max_size → U <= max_size →
  0 <= prefer <= 18446744073709551600 →
  let pu := user_units U prefer in
  let su := Z.max pu (B - 1) in
  wp (shrink p max_size prefer) s (λ '(ok, received) s',
    (ok = false ∧ s' = s ∧ ¬ (capacity U (pu + 1) <= max_size ∧ c = capacity U (pu + 1)) ∧
     ¬ (capacity U (su + 1) <= max_size ∧ capacity U (su + 1 + B) <= c)) ∨
    (ok = true ∧ prefer <= received ∧ received <= c ∧ received <= max_size ∧
     frame s s' ∧ implements s' (<[p := received]> h))).
Proof.
  intros (bs & HR & Hco & ->) Hl Hmax HUm Hpref pu su.
  pose proof (heap_lookup _ _ _ _ _ Hl) as (pre & n & post & -> & -> & ->).
  pose proof ok_consts as (_ & _ & _ & HB & HU). pose proof (user_units_bounds U prefer ltac:(lia) ltac:(lia)) as Hu.
  destruct (rep_mid _ _ _ _ HR) as (_ & _ & _ & _ & HBn & _).
  eapply wp_mono; [by apply (shrink_ok s pre n post max_size prefer)|]. cbv beta zeta.
  fold pu. fold su. fold pu in Hu. rewrite (u64_small (max_size - U)) by (unfold in_u64 in *; lia).
  set (mu := (max_size - U) / 16). assert (16 * mu <= max_size - U < 16 * mu + 16) as Hmu by (unfold mu; dlia).
  intros [ok received] s' Hr. unfold capacity in *.
  destruct (Z.ltb_spec mu pu); cbn [orb] in Hr.
  { destruct Hr as [[= -> ->] ->]. left. split_and!; [done|done|lia|lia]. }
  destruct (Z.ltb_spec (n - 1) pu).
  { destruct Hr as [[= -> ->] ->]. left. split_and!; [done|done|lia|lia]. }
  destruct (Z.eqb_spec (n - 1) pu).
  { destruct Hr as [[= -> ->] ->]. right. split_and!; [done|lia|lia|lia|done|].
    rewrite insert_id by done. by exists (pre ++ Blk n false :: post). }
  destruct (Z.ltb_spec mu su); cbn [orb] in Hr.
  { destruct Hr as [[= -> ->] ->]. left. split_and!; [done|done|lia|lia]. }
  destruct (Z.ltb_spec (n - 1 - su) B).
  { destruct Hr as [[= -> ->] ->]. left. split_and!; [done|done|lia|lia]. }
  destruct Hr as ([= -> ->] & HR' & HF). right. split_and!; [done|lia|lia|lia|done|].
  apply implements_shrunk; [done|done|lia|done|done].
Qed.

(** The whole of [priv_allocate_overaligned] after its allocation. *)
Lemma overaligned_alloc_ok s bs s1 p received nbytes k :
  rep s bs → coalesced bs → 0 <= nbytes <= 2 ^ 62 → 4 < k <= 62 →
  let needed := overaligned_units nbytes k in
  allocated_from (needed * 16 + U) s bs p received s1 →
  wp (if p =? 0 then mret 0
      else if p mod 2 ^ k =? 0 then overaligned_lucky p nbytes
      else overaligned_carve p needed nbytes (2 ^ k)) s1 (λ p s',
    heap U (base s) bs !! p = None ∧ p mod 2 ^ k = 0 ∧ p ≠ 0 ∧ frame s s' ∧
    ∃ c, nbytes <= c ∧ implements s' (<[p := c]> (heap U (base s) bs))).
Proof.
  intros HR Hco Hn Hk needed (pre & sz & post & n & rest & -> & -> & Hnn & -> & Hlim & Hrest & HR' & HF).
  destruct (rep_bounds _ _ HR) as (Hal & Hb0 & _ & Hm). pose proof ok_consts as (_ & _ & _ & HB & HU).
  apply min_pos in Hm; [|lia]. apply pos_app in Hm as [H1 [_ H2]%pos_cons].
  pose proof (pos_total _ H1). pose proof (user_units_bounds U nbytes ltac:(lia) ltac:(lia)) as Hu.
  destruct (allocated_lists pre sz post n rest) as (Hc' & Hpr & Hh); try done; [lia|].
  apply coalesced_used in Hc' as [Hc1 Hc2]. pose proof (frame_base _ _ HF) as Eb.
  rewrite <- (Hh U (base s)). rewrite <- Eb in *. set (a := after (base s1) (total pre)).
  destruct (Z.eqb_spec (a + 16) 0); [unfold a, after in *; lia|].
  destruct (needed_units_val nbytes k Hn Hk) as (_ & _ & Hk16 & _).
  assert (overaligned_units nbytes k + 1 <= n) as Hneed by (unfold needed, capacity in Hlim; lia).
  destruct (Z.eqb_spec ((a + 16) mod 2 ^ k) 0).
  - set (m := Z.max (user_units U nbytes + 1) B) in *.
    assert (m + B <= n) by (unfold m, overaligned_units in *; lia).
    eapply wp_mono; [by apply (lucky_ok s1 pre n (rest ++ post) nbytes HR' Hn)|].
    intros p s' (-> & HF' & HR2). fold m in HR2. rewrite free_at_used in HR2.
    destruct (heap_middle U (base s1) pre m (free_at [] (n - m) (rest ++ post))) as [E1 E2].
    { done. } { apply (min_pos 1), free_at_min; [lia|lia|apply min_nil|done|lia]. } { lia. }
    rewrite heap_free_tail in E1, E2. replace (m + (n - m)) with n in E1, E2 by lia.
    split_and!; [done..|by etrans|]. exists (capacity U m). split; [unfold capacity; lia|].
    eexists. split_and!; [done| |by rewrite (frame_base _ _ HF')].
    apply coalesced_used. split; [done|]. by apply free_at_coalesced, coalesced_cons_used.
  - eapply wp_mono; [by apply (carve_ok s1 pre n (rest ++ post) nbytes k)|].
    intros p s' (f & m & rest' & -> & Hmod & Hcap & HF' & Hf & HBm & Hsr & Hmr & HR2).
    destruct (heap_middle U (base s1) (pre ++ [Blk f true]) m rest') as [E1 E2].
    { apply pos_app. split; [done|]. pos_tac. } { by eapply min_pos; [|done]; lia. } { lia. }
    rewrite total_app, <- (app_assoc pre _ (Blk m true :: rest')) in E1, E2.
    rewrite <- (app_assoc pre _ (Blk m false :: _)) in E1. cbn [app total b_size] in E1, E2.
    rewrite (heap_second _ _ _ _ _ _ _ _ Hsr) in E1, E2.
    replace (after (base s1) (total pre + (f + 0))) with (after a f) in E1, E2
      by (unfold a; rewrite after_after; f_equal; lia).
    split_and!; [done|done|unfold a, after; lia|by etrans|]. exists (capacity U m). split; [done|].
    exists (free_at pre f (Blk m false :: rest')). split_and!; [done| |].
    + apply free_at_coalesced, coalesced_used. split; [done|].
      apply coalesced_cons_used. by eapply coalesced_second.
    + by rewrite heap_free_at, (frame_base _ _ HF'), E1.
Qed.

Section with_allocate.
Context (alloc : allocate_fn St) {AOk : AllocateOk alloc}.

(** [allocate_aligned]: any power of two. *)
Lemma allocate_aligned_ok s h nbytes k :
  implements s h → 0 <= nbytes <= 2 ^ 62 → 0 <= k <= 62 →
  wp (allocate_aligned alloc nbytes (2 ^ k)) s (λ p s',
    (p = 0 ∧ s' = s) ∨
    (h !! p = None ∧ p mod 2 ^ k = 0 ∧ p ≠ 0 ∧ frame s s' ∧
     ∃ c, nbytes <= c ∧ implements s' (<[p := c]> h))).
Proof.
  intros (bs & HR & Hco & ->) Hn Hk. pose proof ok_consts as (_ & _ & _ & HB & HU).
  unfold allocate_aligned. cbv zeta. rewrite land_mask, Z.mod_same by (try apply Z.pow_nonzero; lia).
  wp_step. apply wp_assert; [done|]. cbn [negb Z.eqb]. change Alignment with 16.
  destruct (Z.leb_spec (2 ^ k) 16) as [Hsmall|Hbig].
  - assert (k <= 4) by (apply (Z.pow_le_mono_r_iff 2); lia).
    wp_step. eapply wp_mono; [eapply wp_allocate_new; [done|done|lia|lia|lia]|].
    intros [[p r] ru] s'. cbn [fst snd]. intros [[-> ->]|Hfrom]; apply wp_ret; [by left|right].
    pose proof Hfrom as (_ & _ & _ & _ & _ & _ & _ & _ & _ & _ & _ & _ & HF).
    destruct (implements_alloc _ _ _ _ _ _ HR Hco Hfrom) as (H1 & H2 & H3 & H4 & H5).
    split_and!; [done| |done|done|by exists r].
    apply Z.mod_divide in H2; [|done]. apply Z.mod_divide; [by apply Z.pow_nonzero; lia|].
    etrans; [|done]. exists (2 ^ (4 - k)). rewrite <- Z.pow_add_r by lia.
    by replace (4 - k + k) with 4 by lia.
  - assert (4 < k) by (apply (Z.pow_lt_mono_r_iff 2); lia).
    unfold priv_allocate_overaligned. destruct (needed_units_val nbytes k) as (-> & Hneed & _); [done|lia|].
    cbv zeta. change Alignment with 16. u64_simpl.
    wp_step. eapply wp_mono; [eapply wp_allocate_new; [done|done|lia|lia|lia]|].
    intros [[p r] ru] s1. cbn [fst snd]. intros [[-> ->]|Hfrom]; [by left|].
    rewrite land_mask by lia. eapply wp_mono; [eapply overaligned_alloc_ok; try done; lia|].
    intros p' s' HQ. by right.
Qed.
End with_allocate.
End align.
