(* ===== verification/MemAlgoLcm.v ===== *)
(** [memory_algorithm_common::calculate_lcm_and_needs_backwards_lcmed].

    A buffer that grows backwards must start at an aligned address and grow by
    whole objects: by a multiple of the least common multiple of the two.  The
    function computes that multiple and the least such growth, with cases for
    the frequent object sizes; the theorem compares it with the definition. *)

From S2P Require Import Prelude MathUtil MemAlgo MemAlgoSpec.

Local Open Scope u64_scope.

(** The least growth: what is missing to [size] beyond the whole objects of
    [received] bytes, rounded up to a multiple of both. *)
Definition needs_backwards (bm alignment received size : Z) : Z :=
  round_up (size - received / bm * bm) (Z.lcm bm alignment).

Lemma truncated_val x m : 0 <= x → 0 < m → in_u64 x → get_truncated_size x m = x / m * m.
Proof.
  intros Hx Hm Hr. unfold get_truncated_size. apply u64_small.
  pose proof (Z.mul_div_le x m). pose proof (Z.div_pos x m). unfold in_u64 in *. nia.
Qed.

(** [bm & (bm - 1)] is zero exactly for powers of two. *)
Lemma pow2_test bm :
  0 < bm → in_u64 bm → Z.land bm (bm -! 1) = 0 → ∃ j, 0 <= j < 64 ∧ bm = 2 ^ j.
Proof.
  intros Hb Hr E. rewrite u64_small in E by (unfold in_u64 in *; lia).
  pose proof (Z.log2_spec bm Hb) as [H1 H2]. set (j := Z.log2 bm) in *.
  assert (0 <= j) by apply Z.log2_nonneg.
  assert (j < 64) by (apply (Z.pow_lt_mono_r_iff 2); unfold in_u64 in *; lia).
  exists j. split; [lia|]. destruct (decide (bm = 2 ^ j)) as [|Hne]; [done|exfalso].
  assert (Z.testbit (Z.land bm (bm - 1)) j = true) as Ht.
  { rewrite Z.land_spec, andb_true_iff. split.
    - unfold j. apply Z.bit_log2. done.
    - replace j with (Z.log2 (bm - 1)); [apply Z.bit_log2; lia|].
      apply Z.log2_unique; lia. }
  rewrite E, Z.bits_0 in Ht. done.
Qed.

Lemma lcm_pow2 j k : 0 <= j → 0 <= k → Z.lcm (2 ^ j) (2 ^ k) = 2 ^ Z.max j k.
Proof.
  intros Hj Hk. assert (∀ i l, 0 <= i <= l → Z.lcm (2 ^ i) (2 ^ l) = 2 ^ l) as H.
  { intros i l Hil. apply Z.divide_lcm_eq_r; [apply Z.pow_nonneg; lia|].
    exists (2 ^ (l - i)). rewrite <- Z.pow_add_r by lia. f_equal. lia. }
  destruct (Z.le_ge_cases j k).
  - rewrite Z.max_r by lia. apply H. lia.
  - rewrite Z.max_l, Z.lcm_comm by lia. apply H. lia.
Qed.

(** A multiple of [m] is its own rounding. *)
Lemma round_up_multiple x m : 0 < m → (m | x) → round_up x m = x.
Proof.
  intros Hm [q ->]. unfold round_up. replace (q * m + m - 1) with (m - 1 + q * m) by lia.
  rewrite Z.div_add, Z.div_small by lia. lia.
Qed.

(** The least multiple of [m] above [x], given as such. *)
Lemma round_up_unique x y m : 0 < m → (m | y) → x <= y < x + m → round_up x m = y.
Proof.
  intros Hm [q ->] Hy. unfold round_up. f_equal. symmetry.
  apply (Z.div_unique _ _ _ (x + m - 1 - q * m)); lia.
Qed.

Lemma gcd_odd o e : o mod 2 = 1 → e = 2 ∨ e = 4 → Z.gcd o e = 1.
Proof.
  intros Ho He. rewrite Z.gcd_comm, <- Z.gcd_mod by lia.
  assert (o mod e = 1 ∨ o mod e = 3) as [-> | ->] by (destruct He as [-> | ->]; dlia);
    by destruct He as [-> | ->].
Qed.

(** The least common multiple if the alignment has [e] times the power of two
    of the object size. *)
Lemma lcm_odd q o e :
  0 < q → 0 < o → o mod 2 = 1 → e = 2 ∨ e = 4 → Z.lcm (q * o) (q * e) = q * o * e.
Proof.
  intros Hq Ho Hodd He. rewrite Z.lcm_mul_mono_l_nonneg by lia. unfold Z.lcm.
  rewrite gcd_odd, Z.div_1_r, Z.abs_eq by (done || nia). lia.
Qed.

(** A multiple of [q] that is not one of [2 * q] is an odd multiple. *)
Lemma odd_multiple x q : 0 < q → x mod q = 0 → x mod (2 * q) ≠ 0 → ∃ o, x = q * o ∧ o mod 2 = 1.
Proof.
  intros Hq H1 H2. apply Z.mod_divide in H1 as [o ->]; [|lia]. exists o. split; [lia|].
  destruct (Z.eq_dec (o mod 2) 0) as [E|E]; [|dlia]. destruct H2.
  rewrite (Z.mul_comm o q), (Z.mul_comm 2 q), Z.mul_mod_distr_l by lia. rewrite E. lia.
Qed.

Section cases.
Context {St : Type} (s : St).
Context (bm k received size : Z).
Context (Hbm : 0 < bm) (Hk : 4 <= k <= 60).
Context (Hrec : 0 <= received < size) (Hdiv : (bm | size)).
Context (Hfit : size + Z.lcm bm (2 ^ k) < 9223372036854775808).

Let A := 2 ^ k.
Let nb := size - received / bm * bm.
Let post (r : option (Z * Z)) (s' : St) : Prop :=
  r = Some (Z.lcm bm A, needs_backwards bm A received size) ∧ s' = s.

Lemma case_facts :
  0 < A ∧ 0 < nb <= size ∧ (bm | nb) ∧ 0 < Z.lcm bm A ∧ bm <= Z.lcm bm A ∧
  get_truncated_size received bm = received / bm * bm ∧
  u64 (size - received / bm * bm) = nb ∧ in_u64 nb ∧ in_u64 bm ∧ 16 <= A ∧
  size + Z.lcm bm A < 9223372036854775808.
Proof.
  assert (0 < A) by (apply Z.pow_pos_nonneg; lia).
  assert (2 ^ 4 <= A) by (apply Z.pow_le_mono_r; lia).
  assert (0 < Z.lcm bm A).
  { pose proof (Z.lcm_nonneg bm A). pose proof (proj1 (Z.lcm_eq_0 bm A)). lia. }
  assert (bm <= Z.lcm bm A) by (apply Z.divide_pos_le; [done|apply Z.divide_lcm_l]).
  pose proof (Z.mul_div_le received bm Hbm). pose proof (Z.div_pos received bm ltac:(lia) Hbm).
  fold A in Hfit. assert (0 < nb <= size) by (unfold nb; nia).
  split_and!; try done; try (unfold in_u64; lia).
  - apply Z.divide_sub_r; [done|]. by eexists.
  - apply truncated_val; unfold in_u64; lia.
  - apply u64_small. unfold in_u64. fold nb. lia.
Qed.

Lemma case_pow2 : Z.land bm (bm -! 1) = 0 →
  wp (calculate_lcm_and_needs_backwards_lcmed bm A received size) s post.
Proof.
  intros E. destruct case_facts as (HA & Hnb & Hbn & Hl & Hbl & Htr & Hu & Hr & Hbr & _ & Hf).
  destruct (pow2_test bm Hbm Hbr E) as (j & Hj & Ej).
  unfold calculate_lcm_and_needs_backwards_lcmed. rewrite E. cbn [Z.eqb].
  destruct (rounded_po2_equiv_aux received j) as [_ Ht]; [unfold in_u64; lia|done|].
  rewrite <- Ej in Ht. rewrite Ht, Htr.
  assert (Z.land size (bm -! 1) = 0) as ->.
  { rewrite Ej, land_mask by lia. rewrite <- Ej. by apply Z.mod_divide; [lia|]. }
  assert ((if bm <? A then (A, bm) else (bm, A)) = (Z.lcm bm A, Z.min bm A)) as ->.
  { unfold A. rewrite Ej, lcm_pow2 by lia. destruct (Z.ltb_spec (2 ^ j) (2 ^ k)) as [H|H].
    - pose proof (proj2 (Z.pow_lt_mono_r_iff 2 j k ltac:(lia) ltac:(lia)) H).
      f_equal; [f_equal; lia|lia].
    - pose proof (proj2 (Z.pow_le_mono_r_iff 2 k j ltac:(lia) ltac:(lia)) H).
      f_equal; [f_equal; lia|lia]. }
  cbn [negb Z.eqb]. wp_step. rewrite Hu. apply wp_assert.
  { apply Z.eqb_eq, Z.mod_divide; [lia|done]. }
  wp_step. split; [|done]. do 2 f_equal. unfold needs_backwards. fold nb.
  assert (Z.lcm bm A = 2 ^ Z.max j k) as El by (unfold A; rewrite Ej; apply lcm_pow2; lia).
  rewrite El in *. destruct (rounded_po2_equiv_aux nb (Z.max j k)) as [-> _]; [done|lia|].
  pose proof (round_up_spec nb (2 ^ Z.max j k) ltac:(lia)) as [Hs _].
  apply rounded_size_val; unfold in_u64 in *; lia.
Qed.

(** The other cases test whether [bm] is a multiple of the alignment, of its
    half or of its quarter. *)
Lemma mask_test x i : 0 <= i <= k → (Z.land x (A / 2 ^ i -! 1) =? 0) = (x mod 2 ^ (k - i) =? 0).
Proof.
  intros Hi. unfold A. rewrite <- Z.pow_sub_r by lia. by rewrite land_mask by lia.
Qed.

Lemma case_multiple : bm mod A = 0 → Z.lcm bm A = bm ∧
  wp (boost_assert (Z.land (size -! get_truncated_size received bm) (A -! 1) =? 0);;
      mret (Some (bm, size -! get_truncated_size received bm))) s post.
Proof.
  intros E. destruct case_facts as (HA & Hnb & Hbn & Hl & Hbl & Htr & Hu & Hr & Hbr & _ & Hf).
  apply Z.mod_divide in E; [|lia].
  assert (Z.lcm bm A = bm) as El by (rewrite Z.lcm_comm; apply Z.divide_lcm_eq_r; [lia|done]). split; [done|].
  rewrite Htr, Hu. wp_step. apply wp_assert.
  { unfold A. rewrite land_mask by lia. apply Z.eqb_eq, Z.mod_divide; [lia|]. by etrans. }
  wp_step. split; [|done]. unfold needs_backwards. fold nb. rewrite El.
  by rewrite round_up_multiple.
Qed.

Lemma case_half : bm mod A ≠ 0 → bm mod 2 ^ (k - 1) = 0 →
  wp (lcmed_half bm A received size) s post.
Proof.
  intros E1 E2. destruct case_facts as (HA & Hnb & Hbn & Hl & Hbl & Htr & Hu & Hr & Hbr & _ & Hf).
  assert (A = 2 * 2 ^ (k - 1)) as EA by (unfold A; rewrite <- Z.pow_succ_r by lia; f_equal; lia).
  set (q := 2 ^ (k - 1)) in *. assert (0 < q) by lia. rewrite EA in E1.
  destruct (odd_multiple bm q) as (o & Eo & Hodd); try done.
  assert (Z.lcm bm A = bm * 2) as El
    by (rewrite EA, Eo, (Z.mul_comm 2 q); rewrite lcm_odd by (done || nia || auto); lia).
  unfold lcmed_half. cbv zeta. rewrite Htr, Hu. unfold A. rewrite land_mask by lia. fold A.
  rewrite (u64_small (bm * 2)) by (unfold in_u64; lia).
  destruct Hbn as [t Et].
  assert (nb mod A = q * (t * o mod 2)) as Em.
  { rewrite Et, Eo, EA, (Z.mul_comm 2 q). replace (t * (q * o)) with (q * (t * o)) by lia.
    by rewrite Z.mul_mod_distr_l by lia. }
  set (y := if nz (nb mod A) then nb +! bm else nb).
  assert ((Z.lcm bm A | y) ∧ nb <= y < nb + Z.lcm bm A) as [Hy1 Hy2].
  { rewrite El. unfold y. rewrite Em. destruct (Z.eq_dec ((t * o) mod 2) 0) as [Z0|Z0].
    - rewrite Z0, Z.mul_0_r. cbn. split; [|lia]. assert (t mod 2 = 0) as Ht.
      { rewrite Z.mul_mod, Hodd, Z.mul_1_r, Z.mod_mod in Z0 by lia. done. }
      apply Z.mod_divide in Ht as [t' ->]; [|lia]. exists t'. lia.
    - assert ((t * o) mod 2 = 1) as Z1 by dlia. rewrite Z1. unfold nz.
      destruct (Z.eqb_spec (q * 1) 0); [lia|]. cbn. rewrite u64_small by (unfold in_u64; lia).
      split; [|lia]. assert (t mod 2 = 1) as Ht.
      { rewrite Z.mul_mod, Hodd, Z.mul_1_r, Z.mod_mod in Z1 by lia. done. }
      exists (t / 2 + 1). rewrite Et. dlia. }
  wp_step. apply wp_assert; [rewrite <- El; apply Z.eqb_eq, Z.mod_divide; [lia|done]|].
  wp_step. split; [|done]. unfold needs_backwards. fold nb. rewrite <- El.
  by rewrite (round_up_unique nb y).
Qed.

(** The quarter of 16, the only alignment for which the shift by
    [alignment / 8] divides by the quarter. *)
Lemma case_quarter : k = 4 → bm mod 8 ≠ 0 → bm mod 4 = 0 →
  wp (lcmed_quarter bm A received size) s post.
Proof.
  intros Ek E1 E2. destruct case_facts as (_ & Hnb & Hbn & Hl & Hbl & Htr & Hu & Hr & Hbr & _ & Hf).
  assert (A = 16) as EA by (unfold A; by rewrite Ek).
  destruct (odd_multiple bm 4) as (o & Eo & Hodd); try done.
  rewrite EA in *. assert (Z.lcm bm 16 = 16 * o) as El
    by (rewrite Eo; change 16 with (4 * 4) at 1; rewrite lcm_odd by (done || lia || auto); lia).
  unfold lcmed_quarter. cbv zeta. rewrite Htr, Hu. change (16 / 8) with 2. change (16 / 2) with 8.
  change (16 -! 1) with (Z.ones 4). rewrite Z.land_ones by lia. change (2 ^ 4) with 16.
  rewrite Z.shiftr_div_pow2 by lia. change (2 ^ 2) with 4.
  rewrite (u64_small (bm * 4)) by (unfold in_u64; lia).
  destruct Hbn as [t Et].
  assert (nb mod 16 / 4 = (t * o) mod 4) as ->.
  { rewrite Et, Eo. replace (t * (4 * o)) with (4 * (t * o)) by lia. change 16 with (4 * 4).
    rewrite Z.mul_mod_distr_l by lia. rewrite (Z.mul_comm 4), Z.div_mul by lia. done. }
  assert (Z.land bm 8 = Z.land (bm mod 16) 8) as ->.
  { change 16 with (2 ^ 4). rewrite <- Z.land_ones, <- Z.land_assoc by lia. done. }
  set (r := (t * o) mod 4). assert (0 <= r < 4) by (apply Z.mod_pos_bound; lia).
  set (y := if nz r then _ else nb).
  assert ((16 * o | y) ∧ nb <= y < nb + 16 * o) as [Hy1 Hy2].
  { unfold y, nz. destruct (Z.eqb_spec r 0) as [R0|R0]; cbn [negb].
    - split; [|lia]. unfold r in R0. assert (t mod 4 = 0) as Ht.
      { rewrite Z.mul_mod in R0 by lia. assert (o mod 4 = 1 ∨ o mod 4 = 3) as [Ho|Ho] by dlia;
          rewrite Ho in R0; dlia. }
      apply Z.mod_divide in Ht as [t' ->]; [|lia]. exists t'. lia.
    - assert (o mod 4 = 1 ∨ o mod 4 = 3) as [Ho|Ho] by dlia.
      + assert (bm mod 16 = 4) as -> by (rewrite Eo; change 16 with (4 * 4);
          rewrite Z.mul_mod_distr_l, Ho by lia; done).
        change (negb (Z.land 4 8 =? 0)) with false. cbv iota. assert (r = t mod 4) as Hr4
          by (unfold r; rewrite Z.mul_mod, Ho, Z.mul_1_r, Z.mod_mod by lia; done).
        clearbody r. assert (0 <= (4 - r) * bm <= 3 * bm) by nia. u64_simpl. split; [|nia].
        assert (t = 4 * (t / 4) + r) as Ht by dlia. exists (t / 4 + 1). rewrite Et, Eo.
        rewrite Ht at 1. lia.
      + assert (bm mod 16 = 12) as -> by (rewrite Eo; change 16 with (4 * 4);
          rewrite Z.mul_mod_distr_l, Ho by lia; done).
        change (negb (Z.land 12 8 =? 0)) with true. cbv iota. assert (r = (t * 3) mod 4) as Hr4
          by (unfold r; rewrite Z.mul_mod, Ho, Z.mul_mod_idemp_l by lia; done).
        clearbody r. assert (0 <= r * bm <= 3 * bm) by nia. u64_simpl. split; [|nia]. assert ((t + r) mod 4 = 0) as Ht by dlia.
        apply Z.mod_divide in Ht as [t' Ht]; [|lia]. exists t'. rewrite Et, Eo.
        replace t with (4 * t' - r) by lia. lia. }
  wp_step. apply wp_assert; [apply Z.eqb_eq, Z.mod_divide; [lia|]; by replace (bm * 4) with (16 * o) by lia|].
  wp_step. split; [|done]. rewrite EA, El. unfold needs_backwards. fold nb. rewrite El.
  rewrite (round_up_unique nb y) by (done || lia). do 2 f_equal. lia.
Qed.

Lemma case_lcm :
  wp (match lcm (Z.max bm A) (Z.min bm A) with
      | None => throw OutOfFuel
      | Some lcm_val =>
          boost_assert ((size -! get_truncated_size received bm) mod bm =? 0);;
          mret (Some (lcm_val, get_rounded_size (size -! get_truncated_size received bm) lcm_val))
      end) s post.
Proof.
  destruct case_facts as (HA & Hnb & Hbn & Hl & Hbl & Htr & Hu & Hr & Hbr & _ & Hf).
  assert (Z.lcm (Z.max bm A) (Z.min bm A) = Z.lcm bm A) as El.
  { destruct (Z.le_ge_cases bm A); [rewrite Z.max_r, Z.min_l, Z.lcm_comm by lia|rewrite Z.max_l, Z.min_r by lia]; done. }
  rewrite lcm_spec, El by (rewrite ?El; unfold in_u64 in *; lia). rewrite Htr, Hu.
  wp_step. apply wp_assert; [apply Z.eqb_eq, Z.mod_divide; [lia|done]|].
  wp_step. split; [|done]. unfold needs_backwards. fold nb. do 2 f_equal.
  pose proof (round_up_spec nb (Z.lcm bm A) Hl) as [Hs _].
  apply rounded_size_val; unfold in_u64 in *; lia.
Qed.

Lemma calculate_ok : k = 4 ∨ bm mod A = 0 ∨ Z.land bm (bm -! 1) = 0 →
  wp (calculate_lcm_and_needs_backwards_lcmed bm A received size) s post.
Proof.
  intros Hcase. destruct (decide (Z.land bm (bm -! 1) = 0)) as [E|E]; [by apply case_pow2|].
  unfold calculate_lcm_and_needs_backwards_lcmed.
  assert ((if bm <? A then (A, bm) else (bm, A)) = (Z.max bm A, Z.min bm A)) as ->
    by (destruct (Z.ltb_spec bm A); f_equal; lia).
  destruct (Z.eqb_spec (Z.land bm (bm -! 1)) 0); [done|].
  pose proof (mask_test bm 0 ltac:(lia)) as M0. pose proof (mask_test bm 1 ltac:(lia)) as M1.
  pose proof (mask_test bm 2 ltac:(lia)) as M2. rewrite Z.sub_0_r in M0.
  change (2 ^ 0) with 1 in M0. change (2 ^ 1) with 2 in M1. change (2 ^ 2) with 4 in M2.
  rewrite Z.div_1_r in M0. rewrite M0, M1, M2. fold A.
  destruct (Z.eqb_spec (bm mod A) 0) as [E0|E0]; [by apply case_multiple|].
  destruct (Z.eqb_spec (bm mod 2 ^ (k - 1)) 0) as [E1|E1]; [by apply case_half|].
  destruct Hcase as [Ek|[?|?]]; [|done|done].
  destruct (Z.eqb_spec (bm mod 2 ^ (k - 2)) 0) as [E2|E2].
  - rewrite Ek in E1, E2. by apply case_quarter.
  - apply case_lcm.
Qed.
End cases.

Lemma backwards_growth_ok {St : Type} (s : St) (bm k received size : Z) :
  0 < bm → 4 <= k <= 60 → 0 <= received < size → (bm | size) →
  size + Z.lcm bm (2 ^ k) < 9223372036854775808 → k = 4 ∨ (2 ^ k | bm) →
  let needs := needs_backwards bm (2 ^ k) received size in
  calculate_lcm_and_needs_backwards_lcmed bm (2 ^ k) received size s =
    Ret (Some (Z.lcm bm (2 ^ k), needs), s) ∧
  (bm | needs) ∧ (2 ^ k | needs) ∧ size <= needs + received ∧
  ∀ y, (bm | y) → (2 ^ k | y) → size <= y + received / bm * bm → needs <= y.
Proof.
  intros Hbm Hk Hrec Hdiv Hfit Hcase needs.
  destruct (case_facts bm k received size) as (HA & Hnb & Hbn & Hl & Hbl & _); try done.
  pose proof (round_up_spec (size - received / bm * bm) (Z.lcm bm (2 ^ k)) Hl) as [Hs Hd].
  split_and!.
  - assert (wp (calculate_lcm_and_needs_backwards_lcmed bm (2 ^ k) received size) s (λ r s',
      r = Some (Z.lcm bm (2 ^ k), needs) ∧ s' = s)) as Hwp.
    { apply calculate_ok; try done. destruct Hcase as [->|Hd']; [by left|right; left].
      apply Z.mod_divide; [lia|done]. }
    apply wp_run in Hwp as (r & s' & E & -> & ->). done.
  - etrans; [|exact Hd]. apply Z.divide_lcm_l.
  - etrans; [|exact Hd]. apply Z.divide_lcm_r.
  - pose proof (Z.mul_div_le received bm Hbm). unfold needs, needs_backwards. lia.
  - intros y Hy1 Hy2 Hy. destruct (Z.lcm_least bm (2 ^ k) y Hy1 Hy2) as [q ->].
    destruct Hd as [q' Hq']. unfold needs, needs_backwards. rewrite Hq' in *.
    assert (q' <= q) by nia. nia.
Qed.

(** C23: the growth of a buffer backwards.  For an object size [bm], the natural
    alignment 16 (or a larger power of two that divides [bm]), a size that is a
    multiple of [bm] and any smaller received size, the function returns the
    least common multiple of object size and alignment, and the least multiple
    of it that, added to the whole objects received, reaches the size; all
    special cases for frequent object sizes agree with this definition, and
    none of the assertions fails.  ([s] is the state of any algorithm, which
    does not change.) *)
Theorem backwards_growth_correct {St : Type} (s : St) (bm k received size : Z) :
  0 < bm → 4 <= k <= 60 → 0 <= received < size → (bm | size) →
  size + Z.lcm bm (2 ^ k) < 9223372036854775808 → k = 4 ∨ (2 ^ k | bm) →
  let needs := needs_backwards bm (2 ^ k) received size in
  calculate_lcm_and_needs_backwards_lcmed bm (2 ^ k) received size s =
    Ret (Some (Z.lcm bm (2 ^ k), needs), s) ∧
  (bm | needs) ∧ (2 ^ k | needs) ∧ size <= needs + received ∧
  ∀ y, (bm | y) → (2 ^ k | y) → size <= y + received / bm * bm → needs <= y.
Proof. apply backwards_growth_ok. Qed.

Lemma backwards_growth_correct_witness :
  calculate_lcm_and_needs_backwards_lcmed 12 (2 ^ 4) 40 120 () =
    Ret (Some (48, 96), ()) ∧ (12 | 96) ∧ (2 ^ 4 | 96) ∧ 120 <= 96 + 40.
Proof.
  destruct (backwards_growth_correct () 12 4 40 120) as (H1 & H2 & H3 & H4 & _);
    [lia|lia|lia|by exists 10|vm_compute; reflexivity|by left|].
  split; [exact H1|split; [exact H2|split; [exact H3|exact H4]]].
Defined.
