(* ===== verification/MemAlgoMany.v ===== *)
(** Allocation of many buffers over any memory algorithm.

    Proof of [memory_algorithm_common::priv_allocate_many] and
    [priv_deallocate_many] against the interface [BlockAlgoOk]: the requests are
    served from as few blocks as possible, each cut into the buffers of several
    elements; if one of them cannot be served all buffers are given back. *)

From S2P Require Import Prelude Blocks MathUtil MemAlgo MemAlgoSpec MemAlgoAlign.

Local Open Scope u64_scope.

(** ** Several new buffers *)

(** [h'] is [h] with the fresh pointers [ps], each with at least the bytes
    requested for it. *)
Inductive grant : gmap Z Z → list Z → list Z → gmap Z Z → Prop :=
  | grant_nil h : grant h [] [] h
  | grant_cons h p c size ps sizes h' :
      h !! p = None → size <= c → grant (<[p := c]> h) ps sizes h' →
      grant h (p :: ps) (size :: sizes) h'.

Lemma grant_app h ps sizes h1 qs sizes' h2 :
  grant h ps sizes h1 → grant h1 qs sizes' h2 → grant h (ps ++ qs) (sizes ++ sizes') h2.
Proof. induction 1; cbn; [done|]. intros. econstructor; eauto. Qed.

Lemma grant_length h ps sizes h' : grant h ps sizes h' → length ps = length sizes.
Proof. induction 1; cbn; lia. Qed.

Lemma grant_keeps h ps sizes h' p c :
  grant h ps sizes h' → h !! p = Some c → h' !! p = Some c ∧ p ∉ ps.
Proof.
  induction 1 as [|h q c' size ps sizes h' Hq Hc Hg IH]; intros Hp; [split; [done|apply not_elem_of_nil]|].
  assert (p ≠ q) by congruence. destruct IH as [H1 H2]; [by rewrite lookup_insert_ne|].
  split; [done|]. by apply not_elem_of_cons.
Qed.

(** The pointers are different. *)
Lemma grant_nodup h ps sizes h' : grant h ps sizes h' → NoDup ps.
Proof.
  induction 1 as [|h q c size ps sizes h' Hq Hc Hg IH]; constructor; [|done].
  by eapply grant_keeps in Hg as [_ ?]; [|by rewrite lookup_insert_eq].
Qed.

(** Taking one back. *)
Lemma grant_delete h p c ps sizes h' :
  grant (<[p := c]> h) ps sizes h' → h !! p = None → h' !! p = Some c ∧ grant h ps sizes (delete p h').
Proof.
  intros Hg Hp. split; [by eapply grant_keeps; [|by rewrite lookup_insert_eq]|].
  remember (<[p := c]> h) as h0 eqn:E. revert h Hp E.
  induction Hg as [h0|h0 q c' size ps sizes h' Hq Hc Hg IH]; intros h Hp ->.
  - rewrite delete_insert_id by done. constructor.
  - assert (q ≠ p) by (intros ->; by rewrite lookup_insert_eq in Hq).
    rewrite lookup_insert_ne in Hq by done. econstructor; [done|exact Hc|].
    apply IH; [by rewrite lookup_insert_ne|]. by rewrite insert_insert_ne.
Qed.

(** A run of allocated blocks is a grant. *)
Definition used_blocks (us : list Z) : list blk := map (λ u, Blk u false) us.

Fixpoint ptrs_from (a : Z) (us : list Z) : list Z :=
  match us with [] => [] | u :: us => a + 16 :: ptrs_from (after a u) us end.

Definition sum_units (us : list Z) : Z := foldr Z.add 0 us.

Lemma total_used_blocks us : total (used_blocks us) = sum_units us.
Proof. unfold sum_units, used_blocks. induction us as [|u us IH]; [done|]. cbn. by rewrite IH. Qed.

Lemma sum_units_pos us : Forall (λ u, 1 <= u) us → 0 <= sum_units us.
Proof. unfold sum_units. induction 1; cbn; lia. Qed.

Lemma heap_free_nil u a pre post : heap u a (pre ++ Blk 0 true :: post) = heap u a (pre ++ post).
Proof. rewrite !heap_app. cbn. by rewrite after_0. Qed.

Lemma heap_grant u a pre us post sizes :
  pos_blocks pre → pos_blocks post → Forall (λ u, 1 <= u) us →
  Forall2 (λ size n, size <= capacity u n) sizes us →
  grant (heap u a (pre ++ Blk (sum_units us) true :: post))
        (ptrs_from (after a (total pre)) us) sizes
        (heap u a (pre ++ used_blocks us ++ post)).
Proof.
  intros Hp1 Hp2 Hus Hsz. revert pre Hp1 sizes Hsz.
  induction Hus as [|n us Hn Hus IH]; intros pre Hp1 sizes Hsz.
  { apply Forall2_nil_inv_r in Hsz as ->. cbn. rewrite heap_free_nil. constructor. }
  apply Forall2_cons_inv_r in Hsz as (size & sizes' & Hs & Hsz & ->).
  pose proof (sum_units_pos _ Hus) as Hsum. cbn [ptrs_from used_blocks map sum_units foldr app].
  fold (used_blocks us) (sum_units us).
  assert (heap u a ((pre ++ [Blk n false]) ++ Blk (sum_units us) true :: post) =
    <[after a (total pre) + 16 := capacity u n]> (heap u a (pre ++ Blk (n + sum_units us) true :: post)) ∧
    heap u a (pre ++ Blk (n + sum_units us) true :: post) !! (after a (total pre) + 16) = None) as [E1 E2].
  { rewrite heap_free_split, <- app_assoc. cbn [app]. destruct (decide (sum_units us = 0)) as [E0|Hne].
    - rewrite E0. pose proof (heap_middle u a pre n post Hp1 Hp2 Hn) as [E1 E2].
      assert (∀ b, heap u a (pre ++ b :: Blk 0 true :: post) = heap u a (pre ++ b :: post)) as Hz.
      { intros b. pose proof (heap_free_nil u a (pre ++ [b]) post) as E. by rewrite <- !app_assoc in E. }
      by rewrite !Hz.
    - apply heap_middle; [done|apply pos_cons; split; [cbn; lia|done]|done]. }
  econstructor; [exact E2|exact Hs|]. rewrite <- E1.
  assert (pos_blocks (pre ++ [Blk n false])) as Hp1' by (apply pos_app; split; [done|pos_tac]).
  specialize (IH _ Hp1' sizes' Hsz). rewrite <- (app_assoc pre _ (used_blocks us ++ post)) in IH.
  rewrite total_app in IH. cbn [total b_size app] in IH. rewrite Z.add_0_r, <- after_after in IH. exact IH.
Qed.

Lemma coalesced_run pre us post :
  us ≠ [] → coalesced pre → coalesced post → coalesced (pre ++ used_blocks us ++ post).
Proof.
  revert pre. induction us as [|u us IH]; intros pre; [done|]. intros _ H1 H2.
  cbn [used_blocks map app]. fold (used_blocks us). apply coalesced_used. split; [done|].
  destruct (decide (us = [])) as [->|Hne]; [done|]. by apply (IH []).
Qed.

Section many.
Context {St : Type} {A : BlockAlgo St} {Ok : BlockAlgoOk St}.
Context (alloc : allocate_fn St) {AOk : AllocateOk alloc}.

Notation U := (@UsableByPreviousChunk St A).
Notation B := (@BlockCtrlUnits St A).

(** The sizes [szs] are those the arguments ask for. *)
Context (vp : Z) (elem_sizes : list Z) (n align sizeof : Z) (szs : list Z).

Notation ptr_units := (ptr_size_units vp).

(** The units of a block for [size] bytes. *)
Definition units_of (size : Z) : Z := Z.max (priv_get_total_units size) ptr_units.

Definition requests : list Z := map units_of szs.

Record many_args : Prop := {
  ma_length : n = Z.of_nat (length szs);
  ma_n : n < 2 ^ 58;
  ma_vp : 0 <= vp <= 15;
  ma_sizes : Forall (λ size, 0 <= size <= 2 ^ 60) szs;
  ma_sum : sum_units requests <= 2 ^ 58;
  ma_align : align <= 16;
  ma_sizeof : in_u64 sizeof;
  ma_first : sizeof = 0 → is_Some (elem_sizes !! 0%nat);
  ma_elem i size : szs !! i = Some size →
    if sizeof =? 0 then elem_sizes !! 0%nat = Some size
    else ptr_units <= priv_get_total_units size ∧
         ∃ e, elem_sizes !! i = Some e ∧ in_u64 e ∧ size = e * sizeof
}.

Context (Ha : many_args).

Lemma units_of_bounds size :
  0 <= size <= 2 ^ 60 → B <= units_of size ∧ ptr_units <= units_of size ∧ units_of size <= 2 ^ 60 ∧
  size <= capacity U (units_of size).
Proof.
  intros Hs. pose proof (ok_total_units size ltac:(lia)). pose proof (ma_vp Ha).
  pose proof (ok_total_units vp ltac:(lia)). unfold units_of, ptr_size_units in *. unfold capacity in *. lia.
Qed.

(** [elem_units] is that of the only size. *)
Definition units_known (eu : Z) : Prop := sizeof = 0 → ∀ size, size ∈ szs → eu = units_of size.

Lemma max_value_max a b : max_value a b = Z.max a b.
Proof. unfold max_value. destruct (Z.ltb_spec b a); lia. Qed.

Lemma size_at_ok s (i : nat) size (Q : Z → St → Prop) :
  szs !! i = Some size → sizeof ≠ 0 →
  (∀ e, in_u64 e → e *! sizeof = size → e * sizeof = size → ptr_units <= priv_get_total_units size → Q e s) →
  wp (elem_size_at elem_sizes (Z.of_nat i)) s Q.
Proof.
  intros Hi Hs HQ. pose proof (ma_elem Ha i size Hi) as He. rewrite (proj2 (Z.eqb_neq _ _) Hs) in He.
  destruct He as (Hp & e & He & Hr & Hm). unfold elem_size_at. rewrite Nat2Z.id, He. apply wp_ret.
  pose proof (Forall_lookup_1 _ _ _ _ (ma_sizes Ha) Hi) as Hsz. cbn in Hsz.
  apply HQ; [done| |done|done]. rewrite <- Hm. apply u64_small. unfold in_u64. lia.
Qed.

Lemma elem_units_at_ok s (i : nat) size eu (Q : Z → St → Prop) :
  szs !! i = Some size → units_known eu →
  Q (units_of size) s → wp (elem_units_at vp elem_sizes sizeof (Z.of_nat i) eu) s Q.
Proof.
  intros Hi Hk HQ. unfold elem_units_at. destruct (Z.eqb_spec sizeof 0) as [E|E].
  { apply wp_ret. rewrite (Hk E size); [done|]. by eapply list_elem_of_lookup_2. }
  wp_step. eapply size_at_ok; [done..|]. intros e _ -> _ Hp. apply wp_ret.
  unfold units_of in HQ. destruct (Z.ltb_spec (priv_get_total_units size) ptr_units); [lia|].
  by rewrite Z.max_l in HQ by lia.
Qed.

Lemma next_elem_units_ok s (i : nat) size eu (Q : Z → St → Prop) :
  szs !! S i = Some size → units_known eu →
  Q (units_of size) s → wp (next_elem_units vp elem_sizes sizeof (Z.of_nat i) eu) s Q.
Proof.
  intros Hi Hk HQ. unfold next_elem_units. destruct (Z.eqb_spec sizeof 0) as [E|E].
  { apply wp_ret. rewrite (Hk E size); [done|]. by eapply list_elem_of_lookup_2. }
  pose proof (lookup_lt_Some _ _ _ Hi). pose proof (ma_length Ha). pose proof (ma_n Ha).
  rewrite u64_small by (unfold in_u64; lia). replace (Z.of_nat i + 1) with (Z.of_nat (S i)) by lia.
  wp_step. eapply size_at_ok; [done..|]. intros e _ -> _ Hp. apply wp_ret. by rewrite max_value_max.
Qed.

(** What is left behind the last of the new blocks. *)
Definition many_rest (c : Z) (vs : list Z) (rest post : list blk) : Prop :=
  sum_units vs = c ∧ rest = post ∨ sum_units vs < c ∧ rest = free_at [] (c - sum_units vs) post.

Ltac rins := repeat first
  [ rewrite lookup_insert_eq | rewrite lookup_insert_ne by (unfold after in *; lia)
  | rewrite lookup_singleton_eq ]; try done.

(** The last new block. *)
Lemma carve_last_ok s b pre c post S K eu R t a :
  region s pre c post S K → base s = b → a = after b (total pre) → B <= eu <= c → 0 <= t →
  R = t + c → R < 2 ^ 60 →
  wp (carve_block true a eu R t) s (λ R' s', ∃ v rest,
    R' = t + v ∧ eu <= v ∧ many_rest c [v] rest post ∧ base s' = b ∧ frame s s' ∧
    rep s' (pre ++ Blk v false :: rest)).
Proof.
  intros Hg Hb Ea He Ht -> HR. pose proof ok_consts as (EAu & EAb & _ & HB & HU).
  destruct (region_bounds _ _ _ _ _ _ Hg) as (Hal & Hb0 & Hlt & Hc & Hm1 & Hm2).
  unfold carve_block. rewrite EAu, EAb, ok_user_buffer. change Alignment with 16.
  u64_simpl. replace (t + c - t) with c by lia. rewrite ok_mask by lia.
  wp_step. eapply (rg_set _ 0); [done..|by rewrite Z.add_0_r|lia|lia|]. intros s1 Hg1 Hb1 HF1.
  wp_step. eapply (rg_mark _ 0 c); [done..|by rewrite Z.add_0_r|lia|lia|lia|by rins|]. intros s2 Hg2 Hb2 HF2.
  assert (rep s2 (pre ++ Blk c false :: post)) as HR2
    by (eapply region_close; [done|rewrite Hb2, <- Ea; by rins..]).
  u64_simpl. destruct (Z.leb_spec (eu + B) c) as [Hbig|Hsmall].
  - assert (user_units U (eu * 16 - 16 + U) = eu - 1) as Eu.
    { unfold user_units, ceil16. rewrite Z.max_r by lia. dlia. }
    wp_step. eapply wp_mono.
    { rewrite Ea, <- Hb2. eapply shrink_ok; [done| |]; [unfold in_u64|]; lia. }
    cbv beta zeta. rewrite Eu, (u64_small (_ - U)) by (unfold in_u64; lia).
    replace ((eu * 16 - 16 + U - U) / 16) with (eu - 1) by dlia.
    rewrite (Z.max_l (eu - 1)) by lia.
    intros [ok rc] s3. rewrite !Z.ltb_irrefl. cbn [orb].
    destruct (Z.ltb_spec (c - 1) (eu - 1)); [lia|]. destruct (Z.eqb_spec (c - 1) (eu - 1)); [lia|].
    destruct (Z.ltb_spec (c - 1 - (eu - 1)) B); [lia|]. replace (eu - 1 + 1) with eu by lia.
    intros ([= -> ->] & HR3 & HF3). rewrite free_at_used in HR3.
    wp_step. apply wp_assert; [done|].
    wp_step. apply wp_assert; [apply Z.eqb_eq; unfold capacity; lia|].
    wp_step. apply wp_assert; [apply Z.eqb_eq; u64_simpl; dlia|].
    assert (base s3 = b) as Hb3 by (rewrite <- Hb2; by apply frame_base).
    wp_step. eapply rp_size; [exact HR3|exact Hb3|done|].
    wp_step. apply wp_assert; [by apply Z.eqb_eq|]. u64_simpl. wp_step.
    exists eu, (free_at [] (c - eu) post). split_and!; [lia|lia| |done|by do 2 (etrans; [done|])|done].
    right. cbn. rewrite Z.add_0_r. split; [lia|done].
  - wp_step. exists c, post. split_and!; [done|lia| |done|by etrans|done]. left. cbn. split; [lia|done].
Qed.

(** A block that is not the last. *)
Lemma carve_next_ok s b pre c post S K eu R t a :
  region s pre c post S K → base s = b → a = after b (total pre) → B <= eu → B <= c - eu →
  eu < 2 ^ 62 →
  wp (carve_block false a eu R t) s (λ R' s', R' = R ∧ base s' = b ∧ frame s s' ∧
    ∃ S' K', region s' (pre ++ [Blk eu false]) (c - eu) post S' K' ∧
      wp (blk_size a) s' (λ r s'', r = eu ∧ s'' = s')).
Proof.
  intros Hg Hb Ea He Hc Hlt. pose proof ok_consts as (EAu & EAb & _ & HB & HU).
  unfold carve_block. rewrite ok_mask by lia.
  wp_step. eapply (rg_set _ 0); [done..|by rewrite Z.add_0_r|lia|lia|]. intros s1 Hg1 Hb1 HF1.
  wp_step. eapply (rg_mark _ 0 eu); [done..|by rewrite Z.add_0_r|lia|lia|lia|by rins|]. intros s2 Hg2 Hb2 HF2.
  wp_step. split_and!; [done|done|by etrans|]. do 2 eexists. split.
  - eapply region_front; [exact Hg2|done|lia|rewrite Hb2, <- Ea; by rins..].
  - eapply (rg_size _ 0); [done..|by rewrite Z.add_0_r|lia|by rins|done].
Qed.

Lemma sum_units_cons u us : sum_units (u :: us) = u + sum_units us.
Proof. done. Qed.

Lemma sum_units_app us vs : sum_units (us ++ vs) = sum_units us + sum_units vs.
Proof. unfold sum_units. rewrite foldr_app. induction us; cbn in *; lia. Qed.

Lemma sum_units_of_bounds sizes :
  Forall (λ size, 0 <= size <= 2 ^ 60) sizes → 0 <= sum_units (map units_of sizes).
Proof.
  unfold sum_units. pose proof ok_consts as (_ & _ & _ & HB & _).
  induction 1 as [|size sizes Hs _ IH]; cbn in *; [lia|]. pose proof (units_of_bounds size Hs). lia.
Qed.

(** The units still requested. *)
Lemma requests_left i :
  0 <= sum_units (map units_of (drop i szs)) <= 2 ^ 58.
Proof.
  pose proof (ma_sum Ha) as Hs. unfold requests in Hs. rewrite <- (take_drop i szs), map_app, sum_units_app in Hs.
  assert (Forall (λ size, 0 <= size <= 2 ^ 60) (take i szs ++ drop i szs)) as [H1 H2]%Forall_app
    by (rewrite take_drop; apply (ma_sizes Ha)).
  apply sum_units_of_bounds in H1, H2. lia.
Qed.

(** The state between two elements: [left] are the sizes still to be served. *)
Definition many_at (ms : many_state) (i : nat) (left chain : list Z) : Prop :=
  left = drop i szs ∧ ms_low_idx ms = Z.of_nat i ∧ ms_total_request ms = sum_units (map units_of left) ∧
  units_known (ms_elem_units ms) ∧ ms_chain ms = chain.

Lemma units_known_at i size : szs !! i = Some size → units_known (units_of size).
Proof.
  intros Hi E size' Hin. apply list_elem_of_lookup in Hin as [j Hj].
  pose proof (ma_elem Ha _ _ Hi) as H1. pose proof (ma_elem Ha _ _ Hj) as H2.
  rewrite E in H1, H2. cbn in H1, H2. congruence.
Qed.

(** Whether the element is the last of the received buffer. *)
Lemma carve_is_last_ok s (i : nat) size left eu t c :
  drop i szs = size :: left → units_known eu → eu = units_of size → 0 <= t → 0 <= c → t + c < 2 ^ 60 →
  wp (if Z.of_nat i +! 1 =? n then mret true
      else u ← next_elem_units vp elem_sizes sizeof (Z.of_nat i) eu; mret (t + c <? t +! eu +! u)) s
    (λ last s', s' = s ∧
       if last then True else ∃ size' left', left = size' :: left' ∧ eu + units_of size' <= c).
Proof.
  intros Hd Hk He Ht Hc Htc. pose proof (ma_n Ha) as Hn. pose proof (ma_length Ha) as Hl.
  assert (length szs = i + S (length left))%nat as Hlen.
  { pose proof (length_drop szs i) as E. rewrite Hd in E. cbn in E. lia. }
  rewrite u64_small by (unfold in_u64; lia). destruct (Z.eqb_spec (Z.of_nat i + 1) n) as [E|E]; [by wp_step|].
  destruct left as [|size' left']; [cbn in Hlen; lia|].
  assert (szs !! S i = Some size' ∧ szs !! i = Some size) as [Hsi Hi].
  { rewrite <- (Nat.add_0_r i) at 2. rewrite <- (Nat.add_1_r i), <- !lookup_drop, Hd. done. }
  wp_step. eapply next_elem_units_ok; [done..|]. wp_step. split; [done|].
  pose proof (units_of_bounds _ (Forall_lookup_1 _ _ _ _ (ma_sizes Ha) Hsi)).
  pose proof (units_of_bounds _ (Forall_lookup_1 _ _ _ _ (ma_sizes Ha) Hi)).
  pose proof ok_consts as (_ & _ & _ & HB & _). subst eu.
  u64_simpl. destruct (Z.ltb_spec (t + c) (t + units_of size + units_of size')); [done|].
  exists size', left'. split; [done|lia].
Qed.

(** What the inner loop does with a received block of [c] units. *)
Definition carved (s : St) (pre : list blk) (c : Z) (post : list blk) (i : nat) (left chain : list Z)
    (t : Z) (r : many_state * Z * Z) (s' : St) : Prop :=
  ∃ vs now later rest, left = now ++ later ∧ vs ≠ [] ∧ Forall2 (λ size v, units_of size <= v) now vs ∧
    many_at r.1.1 (i + length now) later
      (chain ++ ptrs_from (after (base s) (total pre)) vs) ∧
    r.1.2 = t + sum_units vs ∧ r.2 = r.1.2 ∧ many_rest c vs rest post ∧ frame s s' ∧
    rep s' (pre ++ used_blocks vs ++ rest).

Lemma many_carve_ok fuel s pre c post S K (i : nat) size left chain t ms a :
  region s pre c post S K → a = after (base s) (total pre) → many_at ms i (size :: left) chain →
  units_of size <= c → 0 <= t → t + c < 2 ^ 60 → (length left < fuel)%nat →
  wp (carve vp elem_sizes n sizeof fuel (t + c) t a ms) s (carved s pre c post i (size :: left) chain t).
Proof.
  revert s pre c S K i size left chain t ms a.
  induction fuel as [|fuel IH]; intros s pre c S K i size left chain t ms a Hg Ea Hms Hfit Ht Htc Hfuel; [lia|].
  destruct Hms as (Hd & Elow & Etot & Hk & Ech). symmetry in Hd.
  destruct (region_bounds _ _ _ _ _ _ Hg) as (Hal & Hb0 & Hlt & HBc & Hm1 & Hm2).
  pose proof ok_consts as (EAu & _ & _ & HB & _). pose proof (ma_vp Ha) as Hvp.
  assert (szs !! i = Some size) as Hi.
  { rewrite <- (Nat.add_0_r i), <- lookup_drop, Hd. done. }
  pose proof (units_of_bounds _ (Forall_lookup_1 _ _ _ _ (ma_sizes Ha) Hi)) as Hus.
  pose proof (requests_left i) as Hl1. pose proof (requests_left (i + 1)) as Hl2.
  rewrite <- drop_drop, Hd in Hl2. rewrite Hd in Hl1. change (drop 1 (size :: left)) with left in Hl2.
  cbn [map sum_units foldr] in Hl1.
  fold (sum_units (map units_of left)) in Hl1.
  assert (ms_total_request ms -! units_of size = sum_units (map units_of left)) as Etot'.
  { rewrite Etot. cbn [map sum_units foldr]. fold (sum_units (map units_of left)).
    rewrite u64_small by (unfold in_u64; lia). lia. }
  assert (Z.of_nat i +! 1 = Z.of_nat (i + 1)) as Elow'.
  { pose proof (lookup_lt_Some _ _ _ Hi). pose proof (ma_length Ha). pose proof (ma_n Ha).
    rewrite u64_small by (unfold in_u64; lia). lia. }
  assert (left = drop (i + 1) szs) as Hd' by (rewrite <- drop_drop, Hd; done).
  cbn [carve]. rewrite Elow, EAu. change Alignment with 16.
  destruct (Z.ltb_spec t (t + c)); [cbn [negb]|lia].
  wp_step. eapply elem_units_at_ok; [done..|].
  destruct (Z.ltb_spec (t + c) (t +! units_of size)) as [Hx|_]; [u64_simpl; lia|].
  wp_step. apply wp_assert; [rewrite Ea; by apply aligned_after|].
  wp_step. eapply wp_mono; [eapply carve_is_last_ok; [exact Hd|by eapply units_known_at|done|done|lia|done]|].
  intros last s0 [-> Hlast]. rewrite Elow', Ech, Etot'. destruct last.
  - wp_step. eapply wp_mono; [eapply (carve_last_ok s (base s)); try done; lia|].
    intros R' s' (v & rest & -> & Hv & Hrest & Hb' & HF & HR').
    assert (v <= c) by (unfold many_rest in Hrest; cbn in Hrest; lia).
    wp_step. eapply rp_size; [exact HR'|exact Hb'|done|]. u64_simpl.
    wp_step. apply wp_assert; [apply Z.leb_le; lia|].
    replace (carve _ _ _ _ fuel _ _ _ _) with
      (mret (M := M St) (Many (Z.of_nat (i + 1)) (sum_units (map units_of left)) (units_of size)
        (chain ++ [priv_get_user_buffer a]), t + v, t + v))
      by (destruct fuel; cbn [carve]; by rewrite Z.ltb_irrefl).
    wp_step. exists [v], [size], left, rest. cbn [length sum_units foldr used_blocks map app ptrs_from fst snd].
    split_and!; [done|done|by repeat constructor| |lia|done|done|done|done].
    unfold many_at. cbn. rewrite ok_user_buffer, <- Ea. split_and!; try done. by eapply units_known_at.
  - destruct Hlast as (size' & left' & -> & Hfit').
    assert (szs !! (i + 1)%nat = Some size') as Hi'.
    { rewrite <- (Nat.add_0_r (i + 1)), <- lookup_drop, <- Hd'. done. }
    pose proof (units_of_bounds _ (Forall_lookup_1 _ _ _ _ (ma_sizes Ha) Hi')) as Hus'.
    wp_step. eapply wp_mono; [eapply (carve_next_ok s (base s)); try done; lia|].
    intros R' s1 (-> & Hb1 & HF1 & S' & K' & Hg1 & Hsize).
    wp_step. eapply wp_mono; [exact Hsize|]. intros r ? [-> ->]. u64_simpl.
    wp_step. apply wp_assert; [apply Z.leb_le; lia|].
    replace (t + c) with (t + units_of size + (c - units_of size)) by lia.
    eapply wp_mono.
    { eapply (IH s1 (pre ++ [Blk (units_of size) false]) (c - units_of size) S' K' (i + 1)%nat size' left').
      - exact Hg1.
      - rewrite Ea, Hb1, total_app. cbn. unfold after. lia.
      - split_and!; try done. by eapply units_known_at.
      - lia. - lia. - lia. - cbn in Hfuel. lia. }
    intros r s' (vs & now & later & rest & El & Hne & Hf2 & Hat & Et & ER & Hrest & HF & HR').
    exists (units_of size :: vs), (size :: now), later, rest.
    cbn [length sum_units foldr used_blocks map app ptrs_from]. fold (sum_units vs) (used_blocks vs).
    split_and!; [by rewrite El|done|by constructor| |lia|done| |by etrans|].
    + cbn [ms_chain] in Hat. rewrite Hb1, total_app, ok_user_buffer, <- app_assoc, <- Nat.add_assoc in Hat.
      cbn in Hat. rewrite after_after. rewrite Z.add_0_r, Ea in Hat. exact Hat.
    + unfold many_rest in *. rewrite sum_units_cons.
      replace (c - (units_of size + sum_units vs)) with (c - units_of size - sum_units vs) by lia.
      destruct Hrest as [[? ->]|[? ->]]; [left|right]; (split; [lia|done]).
    + rewrite <- app_assoc in HR'. exact HR'.
Qed.

Lemma units_cover now vs :
  Forall (λ size, 0 <= size <= 2 ^ 60) now → Forall2 (λ size v, units_of size <= v) now vs →
  Forall2 (λ size v, size <= capacity U v) now vs ∧ Forall (λ v, 1 <= v) vs.
Proof.
  pose proof ok_consts as (_ & _ & _ & HB & _). intros Hs H2.
  induction H2 as [|size v now vs Hv H2 IH]; [done|]. apply Forall_cons in Hs as [Hs Hss].
  destruct (IH Hss). pose proof (units_of_bounds size Hs). unfold capacity in *.
  split; constructor; try done; lia.
Qed.

(** The new buffers of a received block, on the heap. *)
Definition many_step (s : St) (h : gmap Z Z) (i : nat) (left chain : list Z) (ms : many_state) (s' : St)
  : Prop :=
  ∃ ps now later h', left = now ++ later ∧ now ≠ [] ∧ many_at ms (i + length now) later (chain ++ ps) ∧
    grant h ps now h' ∧ implements s' h' ∧ frame s s'.

Lemma heap_many_rest u a pre c vs rest post :
  many_rest c vs rest post →
  heap u a (pre ++ Blk (sum_units vs) true :: rest) = heap u a (pre ++ Blk c true :: post).
Proof.
  intros [[-> ->]|[_ ->]]; [done|]. rewrite heap_free_tail. do 4 f_equal. lia.
Qed.

Lemma coalesced_many_rest c vs rest post : many_rest c vs rest post → coalesced post → coalesced rest.
Proof.
  intros [[_ ->]|[_ ->]]; [done|]. intros Hc. apply free_at_coalesced. by apply coalesced_cons_used.
Qed.

Lemma carved_step s pre c post s1 (i : nat) left chain r s' h :
  rep s (pre ++ Blk c false :: post) → coalesced pre → coalesced post →
  h = heap U (base s) (pre ++ Blk c true :: post) → Forall (λ size, 0 <= size <= 2 ^ 60) left →
  base s1 = base s → frame s1 s → carved s pre c post i left chain 0 r s' →
  many_step s1 h i left chain r.1.1 s'.
Proof.
  intros HR Hc1 Hc2 -> Hsz Eb HF1 (vs & now & later & rest & -> & Hne & Hf2 & Hat & _ & _ & Hrest & HF & HR').
  apply Forall_app in Hsz as [Hnow _]. destruct (units_cover _ _ Hnow Hf2) as [Hcap Hpos].
  destruct (rep_mid _ _ _ _ HR) as (_ & _ & _ & _ & _ & _ & _ & Hp1 & _).
  destruct (rep_bounds _ _ HR') as (_ & _ & _ & Hm). pose proof ok_consts as (_ & _ & _ & HB & _).
  apply min_pos in Hm; [|lia]. apply pos_app in Hm as [_ [_ Hp2]%pos_app].
  pose proof (heap_grant U (base s) pre vs rest now Hp1 Hp2 Hpos Hcap) as Hg.
  rewrite (heap_many_rest _ _ _ _ _ _ _ Hrest) in Hg.
  exists (ptrs_from (after (base s) (total pre)) vs), now, later.
  eexists. split_and!; [done| |done|exact Hg| |by etrans].
  - intros ->. apply Forall2_nil_inv_l in Hf2. done.
  - exists (pre ++ used_blocks vs ++ rest). rewrite (frame_base _ _ HF). split_and!; [done| |done].
    apply coalesced_run; [done|done|by eapply coalesced_many_rest].
Qed.

(** The units of the smallest buffer that can serve the next element. *)
Lemma min_units_ok s (i : nat) size eu (Q : Z → St → Prop) :
  szs !! i = Some size → units_known eu → Q (units_of size) s →
  wp (if sizeof =? 0 then mret eu
      else e ← elem_size_at elem_sizes (Z.of_nat i); mret (priv_get_total_units (e *! sizeof))) s Q.
Proof.
  intros Hi Hk HQ. destruct (Z.eqb_spec sizeof 0) as [E|E].
  { apply wp_ret. rewrite (Hk E size); [done|]. by eapply list_elem_of_lookup_2. }
  wp_step. eapply size_at_ok; [done..|]. intros e _ -> _ Hp. apply wp_ret.
  unfold units_of in HQ. by rewrite Z.max_l in HQ by lia.
Qed.

(** One turn of the outer loop, after its allocation. *)
Lemma many_turn_ok s h ms (i : nat) size left chain p received s1 bs
    (k : many_state → M St many_state) (Q : many_state → St → Prop) :
  rep s bs → coalesced bs → h = heap U (base s) bs → many_at ms i (size :: left) chain →
  allocated_from (capacity U (units_of size)) s bs p received s1 →
  (∀ ms' s', many_step s h i (size :: left) chain ms' s' → wp (k ms') s' Q) →
  wp (block_units ← blk_size (priv_get_block p);
      '(ms, total_used_units, received_units) ←
        carve vp elem_sizes n sizeof (S (Z.to_nat n)) block_units 0 (priv_get_block p) ms;
      boost_assert (total_used_units =? received_units);; k ms) s1 Q.
Proof.
  intros HR Hco -> Hms (pre & sz & post & m & rest & -> & -> & Hm & -> & Hlim & Hrest & HR1 & HF) HQ.
  destruct (rep_mid _ _ _ _ HR1) as (_ & _ & Hp & Hq & _ & _ & Hlt & _).
  destruct (rep_bounds _ _ HR) as (Hal & Hb0 & _ & Hmin). pose proof ok_consts as (_ & _ & _ & HB & _).
  apply min_pos in Hmin; [|lia]. apply pos_app in Hmin as [H1 [_ H2]%pos_cons].
  destruct (allocated_lists pre sz post m rest) as (Hc' & Hpr & Hh); try done; [lia|].
  apply coalesced_used in Hc' as [Hc1 Hc2]. pose proof (frame_base _ _ HF) as Eb.
  assert (Forall (λ size, 0 <= size <= 2 ^ 60) (size :: left)) as Hsz.
  { destruct Hms as (-> & _). apply Forall_drop, (ma_sizes Ha). }
  assert (length (size :: left) <= length szs)%nat as Hlen.
  { destruct Hms as (-> & _). rewrite length_drop. lia. }
  rewrite ok_get_block. replace (after (base s) (total pre) + 16 - 16) with (after (base s) (total pre)) by lia.
  wp_step. eapply rp_size; [done..|]. unfold capacity, after in Hlim, Hlt.
  wp_step. apply (wp_mono _ _ (carved s1 pre m (rest ++ post) i (size :: left) chain 0)).
  { change m with (0 + m) at 1. eapply many_carve_ok; [by apply region_open|by rewrite Eb|done|lia|lia| |].
    { rewrite Eb in Hlt. lia. }
    pose proof (ma_length Ha). cbn in Hlen. lia. }
  intros [[ms' t'] R'] s' Hcv. pose proof Hcv as (_ & _ & _ & _ & _ & _ & _ & _ & _ & ER & _).
  cbn in ER. subst R'. wp_step. apply wp_assert; [by apply Z.eqb_eq|]. apply HQ.
  eapply (carved_step s1 pre m (rest ++ post) s i (size :: left) chain (ms', t', t')); try done.
  by rewrite Eb, Hh.
Qed.

Lemma many_loop_ok fuel s h ms (i : nat) left chain :
  implements s h → many_at ms i left chain → (length left < fuel)%nat →
  wp (many_loop alloc vp elem_sizes n align sizeof fuel ms) s (λ ms' s', ∃ ps now later h',
    left = now ++ later ∧ many_at ms' (i + length now) later (chain ++ ps) ∧ grant h ps now h' ∧
    implements s' h' ∧ frame s s').
Proof.
  revert s h ms i left chain. induction fuel as [|fuel IH]; intros s h ms i left chain Hh Hms Hfuel; [lia|].
  pose proof Hms as (Hd & Elow & Etot & Hk & Ech). cbn [many_loop]. rewrite Elow.
  pose proof (ma_length Ha) as Hn. pose proof (length_drop szs i) as El. rewrite <- Hd in El.
  pose proof ok_consts as (EAu & EAb & _ & HB & HU). rewrite EAb. change Alignment with 16.
  destruct left as [|size left]; [destruct (Z.ltb_spec (Z.of_nat i) n)|destruct (Z.ltb_spec (Z.of_nat i) n)];
    cbn [negb]; cbn in El; try lia.
  { wp_step. exists [], [], [], h. rewrite (app_nil_r chain). cbn. rewrite Nat.add_0_r.
    split_and!; [done|done|constructor|done|done]. }
  assert (szs !! i = Some size) as Hi.
  { rewrite <- (Nat.add_0_r i), <- lookup_drop, <- Hd. done. }
  pose proof (units_of_bounds _ (Forall_lookup_1 _ _ _ _ (ma_sizes Ha) Hi)) as Hus.
  pose proof (requests_left i) as Hl1. pose proof (requests_left (i + 1)) as Hl2.
  rewrite <- drop_drop, <- Hd in Hl2. rewrite <- Hd in Hl1. change (drop 1 (size :: left)) with left in Hl2.
  rewrite Etot. cbn [map] in Hl1 |- *. rewrite sum_units_cons in Hl1 |- *.
  set (sum := sum_units (map units_of left)) in *.
  wp_step. eapply min_units_ok; [done..|]. destruct Hh as (bs & HR & Hco & ->). u64_simpl.
  wp_step. eapply wp_mono; [eapply wp_allocate_new; [done|done|lia|lia|apply (ma_align Ha)]|].
  intros [[p received] ru] s1. cbn [fst snd]. intros [[-> ->]|Hfrom].
  { cbn [Z.eqb]. wp_step. exists [], [], (size :: left), (heap U (base s) bs). rewrite (app_nil_r chain). cbn.
    rewrite Nat.add_0_r. split_and!; [done|done|constructor|by exists bs|done]. }
  destruct (implements_alloc _ _ _ _ _ _ HR Hco Hfrom) as (_ & _ & Hp0 & _).
  destruct (Z.eqb_spec p 0); [done|].
  eapply many_turn_ok; [done|done|done|done| |].
  { replace (capacity U (units_of size)) with (units_of size * 16 - 16 + U) by (unfold capacity; lia). done. }
  intros ms' s' (ps & now & later & h' & Esz & Hne & Hat & Hg & Hi' & HF). eapply wp_mono.
  { apply (IH s' h' ms' _ later _ Hi' Hat). apply (f_equal length) in Esz. rewrite length_app in Esz.
    destruct now; [done|]. cbn in Esz, Hfuel. lia. }
  intros ms2 s2 (ps2 & now2 & later2 & h2 & -> & Hat2 & Hg2 & Hi2 & HF2).
  exists (ps ++ ps2), (now ++ now2), later2, h2. rewrite length_app, Nat.add_assoc, !app_assoc in *.
  split_and!; [done|done|by eapply grant_app|done|by etrans].
Qed.

(** Giving all buffers back. *)
Lemma deallocate_many_ok s h ps sizes h' :
  grant h ps sizes h' → implements s h' →
  wp (priv_deallocate_many ps) s (λ _ s', implements s' h ∧ frame s s').
Proof.
  revert s sizes h'. induction ps as [|p ps IH]; intros s sizes h' Hg HI; inversion Hg; subst;
    cbn [priv_deallocate_many]; [by wp_step|].
  destruct (grant_delete h p c ps sizes0 h') as [Hl Hg']; [done|done|].
  wp_step. eapply wp_mono; [by eapply implements_dealloc|]. intros [] s1 [HI1 HF1].
  eapply wp_mono; [by eapply IH|]. intros [] s2 [HI2 HF2]. split; [done|by etrans].
Qed.

(** ** The request in units *)

Lemma sum_units_same sizes u :
  (∀ size, size ∈ sizes → units_of size = u) →
  sum_units (map units_of sizes) = Z.of_nat (length sizes) * u.
Proof.
  induction sizes as [|size sizes IH]; intros Hu; [done|]. cbn [map length]. rewrite sum_units_cons, IH.
  - rewrite (Hu size) by left. lia.
  - intros size' Hin. apply Hu. by right.
Qed.

Lemma sum_requests_ok fuel s (i : nat) total eu :
  let sum := sum_units (map units_of (drop i szs)) in
  sizeof ≠ 0 → 0 <= total → total + sum <= 2 ^ 58 → (length szs <= i + fuel)%nat →
  wp (sum_requests vp elem_sizes n sizeof fuel (Z.of_nat i) total eu) s (λ r s',
    r.1 = total + sum ∧ s' = s).
Proof.
  revert i total eu. induction fuel as [|fuel IH]; intros i total eu sum Hs Ht Hsum Hfuel; cbn [sum_requests];
    pose proof (ma_length Ha) as Hn; pose proof (ma_n Ha);
    (destruct (drop i szs) as [|size left] eqn:Hd;
      [apply (f_equal length) in Hd; rewrite length_drop in Hd; cbn in Hd;
       destruct (Z.ltb_spec (Z.of_nat i) n); [lia|]; wp_step; cbn; split; [unfold sum; cbn; lia|done]|]);
    pose proof (length_drop szs i) as El; rewrite Hd in El; cbn in El.
  { lia. }
  assert (szs !! i = Some size) as Hi.
  { rewrite <- (Nat.add_0_r i), <- lookup_drop, Hd. done. }
  pose proof (Forall_lookup_1 _ _ _ _ (ma_sizes Ha) Hi) as Hsz. cbn in Hsz.
  pose proof (units_of_bounds _ Hsz) as Hus. pose proof ok_consts as (_ & _ & _ & HB & _).
  assert (left = drop (i + 1) szs) as Hd' by (rewrite <- drop_drop, Hd; done).
  pose proof (requests_left (i + 1)) as Hl. rewrite <- Hd' in Hl.
  unfold sum in *. cbn [map] in *. rewrite sum_units_cons in *.
  destruct (Z.ltb_spec (Z.of_nat i) n); [|lia].
  wp_step. eapply size_at_ok; [done..|]. intros e He Ee Em Hp.
  destruct (multiplication_overflows e sizeof) eqn:Eo.
  { apply multiplication_overflows_spec in Eo; [lia|done|apply (ma_sizeof Ha)]. }
  rewrite Ee. assert ((if priv_get_total_units size <? ptr_units then ptr_units
    else priv_get_total_units size) = units_of size) as ->.
  { unfold units_of. destruct (Z.ltb_spec (priv_get_total_units size) ptr_units); lia. }
  destruct (sum_overflows total (units_of size)) eqn:Eo'.
  { apply sum_overflows_spec in Eo'; unfold in_u64; lia. }
  u64_simpl. replace (Z.of_nat i + 1) with (Z.of_nat (i + 1)) by lia.
  eapply wp_mono; [apply IH; rewrite <- ?Hd'; try done; lia|]. rewrite <- Hd'. intros r s' [-> ->].
  split; [lia|done].
Qed.

Lemma total_request_ok s :
  wp (total_request vp elem_sizes n sizeof) s (λ r s',
    r.1 = sum_units requests ∧ units_known r.2 ∧ s' = s).
Proof.
  unfold total_request. destruct (Z.eqb_spec sizeof 0) as [E|E].
  - destruct (ma_first Ha E) as [size Hf]. unfold elem_size_at. change (Z.to_nat 0) with 0%nat. rewrite Hf. wp_step. wp_step. cbv zeta. wp_step.
    assert ((if priv_get_total_units size <? ptr_units then ptr_units
      else priv_get_total_units size) = units_of size) as ->.
    { unfold units_of. destruct (Z.ltb_spec (priv_get_total_units size) ptr_units); lia. }
    assert (∀ size', size' ∈ szs → units_of size' = units_of size) as Hall.
    { intros size' [j Hj]%list_elem_of_lookup. pose proof (ma_elem Ha _ _ Hj) as He.
      rewrite E in He. cbn in He. congruence. }
    pose proof (sum_units_same szs _ Hall) as Hsum. pose proof (requests_left 0) as Hb.
    change (drop 0 szs) with szs in Hb. rewrite (ma_length Ha), <- Hsum. cbn. split_and!; [|by intros _ ? <-%Hall|done].
    by rewrite u64_small by (unfold in_u64; lia).
  - pose proof (requests_left 0) as Hb. pose proof (ma_length Ha).
    eapply wp_mono; [apply (sum_requests_ok (Z.to_nat n) s 0); change (drop 0 szs) with szs in *; try done; lia|].
    intros r s' [-> ->]. split_and!; [done|by intros ?|done].
Qed.

(** ** [priv_allocate_many] *)

Lemma allocate_many_ok s h :
  implements s h →
  wp (priv_allocate_many alloc vp elem_sizes n align sizeof []) s (λ ps s', frame s s' ∧
    ((ps = [] ∧ implements s' h) ∨ ∃ h', grant h ps szs h' ∧ implements s' h')).
Proof.
  intros Hh. unfold priv_allocate_many. wp_step. eapply wp_mono; [apply total_request_ok|].
  intros [tot eu] s0 (Et & Hk & ->). cbn [fst snd] in Et, Hk. subst tot. pose proof (requests_left 0) as Hb.
  change (drop 0 szs) with szs in Hb. fold requests in Hb.
  destruct (multiplication_overflows (sum_units requests) Alignment) eqn:Eo.
  { apply multiplication_overflows_spec in Eo; [|unfold in_u64; lia|done]. change Alignment with 16 in Eo. lia. }
  cbn [negb]. rewrite andb_true_r. unfold nz. destruct (Z.eqb_spec (sum_units requests) 0) as [E|E]; cbn [negb].
  { wp_step. split; [done|]. by left. }
  wp_step. eapply wp_mono.
  { apply (many_loop_ok _ s h (Many 0 (sum_units requests) eu []) 0%nat szs []); [done|by split_and!|].
    pose proof (ma_length Ha). lia. }
  intros ms s' (ps & now & later & h' & Esz & (Hl & Elow & _ & _ & Ech) & Hg & Hi & HF). cbn [app] in Ech.
  rewrite Elow, Ech. pose proof (ma_length Ha) as Hn. apply (f_equal length) in Esz as Elen.
  rewrite length_app in Elen. destruct (Z.eqb_spec (Z.of_nat (0 + length now)) n) as [E'|E']; cbn [negb].
  - wp_step. split; [done|right]. exists h'. destruct later; [|cbn in Elen; lia].
    rewrite app_nil_r in Esz. by subst now.
  - wp_step. eapply wp_mono; [by eapply deallocate_many_ok|]. intros [] s2 [Hi2 HF2]. wp_step.
    split; [by etrans|]. by left.
Qed.
End many.
