(* ===== verification/SeqFit.v ===== *)
(** The sequential-fit memory algorithm: its operations.

    Models [mem_algo/detail/simple_seq_fit_impl.hpp], the allocator that keeps
    its free blocks in an address-ordered singly linked list.  The segment is
    memory shared between processes; a block starts with a [block_ctrl] header
    ([m_next], [m_size]) and the two fields of all headers are the two maps of
    the state, keyed by the address of the header.  A header that was merged
    away stays in the maps, as its bytes stay in memory.  Reading a field that
    was never written, or writing a header outside of the segment, faults. *)

From S2P Require Import Prelude MathUtil MemAlgo.

Local Open Scope u64_scope.

(** Where the segment is mapped, [sizeof(simple_seq_fit_impl)], and the offset
    of [m_header.m_root], which depend on the mutex type. *)
Class SegLayout := {
  this_ptr : Z;
  sizeof_impl : Z;
  root_off : Z
}.

(** [header_t] and the headers of the blocks. *)
Record seg := Seg {
  m_next : gmap Z Z;
  m_size : gmap Z Z;
  hdr_allocated : Z;
  hdr_size : Z;
  hdr_extra : Z
}.

Definition set_m_next (f : gmap Z Z → gmap Z Z) (s : seg) : seg :=
  Seg (f (m_next s)) (m_size s) (hdr_allocated s) (hdr_size s) (hdr_extra s).
Definition set_m_size (f : gmap Z Z → gmap Z Z) (s : seg) : seg :=
  Seg (m_next s) (f (m_size s)) (hdr_allocated s) (hdr_size s) (hdr_extra s).
Definition set_allocated (f : Z → Z) (s : seg) : seg :=
  Seg (m_next s) (m_size s) (f (hdr_allocated s)) (hdr_size s) (hdr_extra s).
Definition set_hdr_size (f : Z → Z) (s : seg) : seg :=
  Seg (m_next s) (m_size s) (hdr_allocated s) (f (hdr_size s)) (hdr_extra s).

(** [sizeof(block_ctrl)]: an offset pointer and a [size_type]. *)
Definition sizeof_block_ctrl : Z := 16.
Definition seq_BlockCtrlBytes : Z := default 0 (ct_rounded_size sizeof_block_ctrl Alignment).
Definition seq_BlockCtrlUnits : Z := seq_BlockCtrlBytes / Alignment.

#[global] Arguments seq_BlockCtrlBytes : simpl never.
#[global] Arguments seq_BlockCtrlUnits : simpl never.

(** [get_user_bytes] and [get_total_bytes] of a block of [size] units. *)
Definition get_user_bytes (size : Z) : Z := size *! Alignment -! seq_BlockCtrlBytes.
Definition get_total_bytes (size : Z) : Z := size *! Alignment.

Section seq_fit.
Context {L : SegLayout}.

Definition root : Z := this_ptr + root_off.

(** *** Field accesses *)

Definition ld_next (a : Z) : M seg Z := λ s,
  match m_next s !! a with Some v => Ret (v, s) | None => Fault BadAccess end.
Definition ld_size (a : Z) : M seg Z := λ s,
  match m_size s !! a with Some v => Ret (v, s) | None => Fault BadAccess end.

(** A header can be written at [a]: it is the root, or lies in the segment
    behind the algorithm's own object. *)
Definition in_segment (s : seg) (a : Z) : bool :=
  (a =? root) || ((this_ptr + sizeof_impl <=? a)
                  && (a + sizeof_block_ctrl <=? this_ptr + hdr_size s)).
Definition st_next (a v : Z) : M seg () := λ s,
  if in_segment s a then Ret ((), set_m_next <[a := v]> s) else Fault BadAccess.
Definition st_size (a v : Z) : M seg () := λ s,
  if in_segment s a then Ret ((), set_m_size <[a := v]> s) else Fault BadAccess.

Definition seq_get_block (ptr : Z) : Z := ptr - seq_BlockCtrlBytes.
Definition seq_get_user_buffer (block : Z) : Z := block + seq_BlockCtrlBytes.
Definition seq_is_allocated_block (block : Z) : M seg bool :=
  n ← ld_next block; mret (n =? 0).
Definition seq_mark_new_allocated_block (block : Z) : M seg () := st_next block 0.

Definition assert_aligned (p : Z) : M seg () := boost_assert (check_alignment p).

(** *** Offsets of the first block and of the end *)

Definition this_disalignment : Z := this_ptr -! this_ptr / Alignment *! Alignment.

Definition priv_first_block_offset (extra_hdr_bytes : Z) : M seg Z :=
  let block1_off :=
    get_rounded_size (sizeof_impl +! extra_hdr_bytes +! this_disalignment) Alignment
      -! this_disalignment in
  assert_aligned (this_disalignment +! block1_off);;
  mret block1_off.

Definition priv_block_end_offset : M seg Z :=
  sz ← gets hdr_size;
  let old_end :=
    get_truncated_size (sz +! this_disalignment) Alignment -! this_disalignment in
  assert_aligned (old_end +! this_disalignment);;
  mret old_end.

(** The constructor, run in memory whose fields hold [s]; it does not write
    [m_root.m_size]. *)
Definition simple_seq_fit_impl (segment_size extra_hdr_bytes : Z) : M seg () :=
  modify (λ s, Seg (m_next s) (m_size s) 0 segment_size extra_hdr_bytes);;
  block1_off ← priv_first_block_offset extra_hdr_bytes;
  let block1 := this_ptr + block1_off in
  st_next root block1;;
  assert_aligned block1;;
  st_size block1 ((segment_size -! block1_off) / Alignment);;
  st_next block1 root.

(** *** Deallocation *)

(** [while(pos != &m_root && block > pos)]: the final [prev] and [pos]. *)
Fixpoint dealloc_find (fuel : nat) (block prev pos : Z) : M seg (Z * Z) :=
  if negb (pos =? root) && (pos <? block) then
    match fuel with
    | O => throw OutOfFuel
    | S fuel => nxt ← ld_next pos; dealloc_find fuel block pos nxt
    end
  else mret (prev, pos).

Definition free_fuel (s : seg) : nat := S (size (m_next s)).

(** "Try to combine with upper block" and "Try to combine with lower block". *)
Definition combine_upper (block pos : Z) : M seg () :=
  bsize ← ld_size block;
  if block + Alignment *! bsize =? pos then
    psize ← ld_size pos;
    st_size block (bsize +! psize);;
    pnext ← ld_next pos;
    st_next block pnext
  else st_next block pos.

Definition combine_lower (prev block : Z) : M seg () :=
  prevsize ← ld_size prev;
  if prev + Alignment *! prevsize =? block then
    bsize ← ld_size block;
    st_size prev (prevsize +! bsize);;
    bnext ← ld_next block;
    st_next prev bnext
  else st_next prev block.

(** [priv_deallocate]. *)
Definition seq_deallocate (addr : Z) : M seg () :=
  if addr =? 0 then mret () else
  pos ← ld_next root;
  let block := seq_get_block addr in
  n ← ld_next block;
  boost_assert (n =? 0);;
  assert_aligned addr;;
  bsize ← ld_size block;
  let total_size := Alignment *! bsize in
  alloc ← gets hdr_allocated;
  boost_assert (total_size <=? alloc);;
  modify (set_allocated (λ a, a -! total_size));;
  fuel ← gets free_fuel;
  '(prev, pos) ← dealloc_find fuel block root pos;
  combine_upper block pos;;
  combine_lower prev block.

Definition seq_get_total_units (userbytes : Z) : Z :=
  let s := get_rounded_size userbytes Alignment / Alignment in
  let s := if s =? 0 then s +! 1 else s in
  seq_BlockCtrlUnits +! s.

#[export] Instance seq_block_algo : BlockAlgo seg := {
  BlockCtrlBytes := seq_BlockCtrlBytes;
  BlockCtrlUnits := seq_BlockCtrlUnits;
  AllocatedCtrlBytes := seq_BlockCtrlBytes;
  AllocatedCtrlUnits := seq_BlockCtrlUnits;
  UsableByPreviousChunk := 0;
  size_mask := u64_max;
  priv_get_block := seq_get_block;
  priv_get_user_buffer := seq_get_user_buffer;
  blk_size := ld_size;
  set_blk_size := st_size;
  priv_is_allocated_block := seq_is_allocated_block;
  priv_mark_new_allocated_block := seq_mark_new_allocated_block;
  priv_deallocate := seq_deallocate;
  priv_get_total_units := seq_get_total_units
}.

(** *** Allocation *)

(** The address of the user buffer, or 0, and the new [received_size]. *)
Definition priv_check_and_allocate (nunits prev block received_size : Z) : M seg (Z * Z) :=
  let upper_nunits := nunits +! seq_BlockCtrlUnits in
  bsize ← ld_size block;
  found ←
    (if upper_nunits <? bsize then
       let total_size := bsize in
       st_size block nunits;;
       let new_block := block + Alignment *! nunits in
       st_size new_block (total_size -! nunits);;
       bnext ← ld_next block;
       st_next new_block bnext;;
       st_next prev new_block;;
       mret true
     else if nunits <=? bsize then
       bnext ← ld_next block;
       st_next prev bnext;;
       mret true
     else mret false);
  if found : bool then
    bsize ← ld_size block;
    modify (set_allocated (λ a, a +! bsize *! Alignment));;
    let received_size := get_user_bytes bsize in
    st_next block 0;;
    assert_aligned block;;
    mret (seq_get_user_buffer block, received_size)
  else mret (0, received_size).

(** [size(ptr)]. *)
Definition seq_size (ptr : Z) : M seg Z :=
  sz ← ld_size (seq_get_block ptr); mret (get_user_bytes sz).

Definition priv_next_block_if_free (ptr : Z) : M seg Z :=
  psize ← ld_size ptr;
  let next_block := ptr + psize *! Alignment in
  let distance := u64 (next_block - this_ptr) / Alignment in
  sz ← gets hdr_size;
  if (sz / Alignment) <=? distance then mret 0 else
  n ← ld_next next_block;
  if n =? 0 then mret 0 else mret next_block.

(** The search loop of [priv_prev_block_if_free]. *)
Fixpoint prev_find (fuel : nat) (ptr prev_2_block prev_block : Z) : M seg (Z * Z) :=
  psize ← ld_size prev_block;
  if negb (prev_block + psize *! Alignment =? ptr) && negb (prev_block =? root) then
    match fuel with
    | O => throw OutOfFuel
    | S fuel => n ← ld_next prev_block; prev_find fuel ptr prev_block n
    end
  else mret (prev_2_block, prev_block).

Definition priv_prev_block_if_free (ptr : Z) : M seg (Z * Z) :=
  prev_block ← ld_next root;
  fuel ← gets free_fuel;
  '(prev_2_block, prev_block) ← prev_find fuel ptr root prev_block;
  if prev_block =? root then mret (0, 0) else
  n ← ld_next prev_block;
  if n =? 0 then mret (0, 0) else
  let distance := u64 (prev_block - this_ptr) / Alignment in
  sz ← gets hdr_size;
  if (sz / Alignment) <=? distance then mret (0, 0) else
  mret (prev_2_block, prev_block).

(** [while(prev->m_next != next_block)] of [priv_expand]. *)
Fixpoint find_prev_of (fuel : nat) (next_block prev : Z) : M seg Z :=
  n ← ld_next prev;
  if n =? next_block then mret prev else
  match fuel with
  | O => throw OutOfFuel
  | S fuel => find_prev_of fuel next_block n
  end.

(** The truth value returned and the final [received_size]. *)
Definition priv_expand (ptr min_size received_size : Z) : M seg (bool * Z) :=
  sz ← seq_size ptr;
  if min_size <? sz then mret (nz ptr, sz) else
  let preferred_size := received_size in
  let block := seq_get_block ptr in
  old_block_size ← ld_size block;
  n ← ld_next block;
  boost_assert (n =? 0);;
  let received_size := old_block_size *! Alignment -! seq_BlockCtrlBytes in
  let min_size := get_rounded_size min_size Alignment / Alignment in
  let preferred_size := get_rounded_size preferred_size Alignment / Alignment in
  if preferred_size <? min_size then mret (false, received_size) else
  let data_size := old_block_size -! seq_BlockCtrlUnits in
  if min_size <=? data_size then mret (true, received_size) else
  next_block ← priv_next_block_if_free block;
  if next_block =? 0 then mret (false, received_size) else
  nsize ← ld_size next_block;
  let merged_size := old_block_size +! nsize in
  let received_size := merged_size *! Alignment -! seq_BlockCtrlBytes in
  if merged_size <? (min_size +! seq_BlockCtrlUnits) then mret (false, received_size) else
  nnext ← ld_next next_block;
  st_next block nnext;;
  st_size block merged_size;;
  fuel ← gets free_fuel;
  prev ← find_prev_of fuel next_block root;
  modify (set_allocated (λ a, a -! old_block_size *! Alignment));;
  st_next prev block;;
  let preferred_size := preferred_size +! seq_BlockCtrlUnits in
  let nunits := if preferred_size <? merged_size then preferred_size else merged_size in
  '(addr, received_size) ← priv_check_and_allocate nunits prev block received_size;
  if addr =? 0 then boost_assert false;; mret (false, received_size)
  else mret (true, received_size).

(** The first-fit loop of [priv_allocate]: the buffer found and its received
    size, or the biggest block met and its predecessor. *)
Inductive fit_result :=
| Fit (addr received : Z)
| NoFit (prev_biggest_block biggest_block : Z).

Fixpoint fit_loop (fuel : nat) (nunits prev block prev_biggest biggest biggest_size : Z)
  : M seg fit_result :=
  if block =? root then mret (NoFit prev_biggest biggest) else
  match fuel with
  | O => throw OutOfFuel
  | S fuel =>
      bsize ← ld_size block;
      let '(prev_biggest, biggest_size, biggest) :=
        if biggest_size <? bsize then (prev, bsize, block)
        else (prev_biggest, biggest_size, biggest) in
      assert_aligned block;;
      '(addr, received) ← priv_check_and_allocate nunits prev block 0;
      if nz addr then assert_aligned addr;; mret (Fit addr received) else
      nxt ← ld_next block;
      fit_loop fuel nunits block nxt prev_biggest biggest biggest_size
  end.

(** [priv_allocate]; [aligned] is the call of
    [algo_impl_t::allocate_aligned] for over-aligned objects.  The result is
    the pointer returned and the final [prefer_in_recvd_out_size] and
    [reuse_ptr]. *)
Definition priv_allocate_with (aligned : Z → Z → M seg Z)
    (command : allocation_type) (limit_size prefer_in_recvd_out_size reuse_ptr
     alignof_object : Z) : M seg (Z * Z * Z) :=
  let command := without_expand_bwd command in
  if cmd_is_zero command then mret (0, prefer_in_recvd_out_size, 0) else
  let alignof_object := if alignof_object <? Alignment then Alignment else alignof_object in
  let preferred_size := prefer_in_recvd_out_size in
  if shrink_in_place command then
    if reuse_ptr =? 0 then mret (0, prefer_in_recvd_out_size, reuse_ptr) else
    '(success, recvd) ← shrink reuse_ptr limit_size prefer_in_recvd_out_size;
    mret (if success : bool then reuse_ptr else 0, recvd, reuse_ptr)
  else
  if preferred_size <? limit_size then mret (0, 0, 0) else
  let nunits := get_rounded_size preferred_size Alignment / Alignment +! seq_BlockCtrlUnits in
  block ← ld_next root;
  '(expanded, recvd) ←
    (if nz reuse_ptr && expand_fwd command
     then priv_expand reuse_ptr limit_size preferred_size
     else mret (false, 0));
  if expanded : bool then mret (reuse_ptr, recvd, reuse_ptr) else
  if allocate_new command then
    if Alignment <? alignof_object then
      p ← aligned limit_size alignof_object;
      mret (p, recvd, reuse_ptr)
    else
      fuel ← gets free_fuel;
      r ← fit_loop fuel nunits root block 0 0 0;
      match r with
      | Fit addr received => mret (addr, received, 0)
      | NoFit prev_biggest_block biggest_block =>
          if nz biggest_block then
            let limit_units :=
              get_rounded_size limit_size Alignment / Alignment +! seq_BlockCtrlUnits in
            bsize ← ld_size biggest_block;
            if bsize <? limit_units then mret (0, 0, 0) else
            '(ret, received) ←
              priv_check_and_allocate bsize prev_biggest_block biggest_block
                (bsize *! Alignment -! seq_BlockCtrlUnits);
            boost_assert (nz ret);;
            assert_aligned ret;;
            mret (ret, received, 0)
          else mret (0, 0, 0)
      end
  else mret (0, recvd, 0).

(** [priv_allocate] of an object of the default alignment, which never takes
    the over-aligned branch, and the complete function. *)
Definition priv_allocate_default : allocate_fn seg :=
  priv_allocate_with (λ _ _, throw OutOfFuel).
Definition priv_allocate : allocate_fn seg :=
  priv_allocate_with (allocate_aligned priv_allocate_default).

(** *** Public interface

    Each operation runs under the segment's mutex, so the model runs it as
    one step. *)

Definition seq_allocate (nbytes : Z) : M seg Z :=
  '(p, _, _) ← priv_allocate cmd_allocate_new nbytes nbytes 0 Alignment; mret p.

Definition seq_allocate_aligned (nbytes alignment : Z) : M seg Z :=
  allocate_aligned priv_allocate_default nbytes alignment.

Definition allocation_command (command : allocation_type)
    (limit_size prefer_in_recvd_out_size reuse_ptr sizeof_object : Z) : M seg (Z * Z * Z) :=
  let preferred_size := prefer_in_recvd_out_size in
  sz ← gets hdr_size;
  let max_count := sz / sizeof_object in
  if (max_count <? limit_size) || (max_count <? preferred_size)
  then mret (0, prefer_in_recvd_out_size, 0) else
  let l_size := limit_size *! sizeof_object in
  let r_size := preferred_size *! sizeof_object in
  '(ret, r_size, reuse_ptr) ← priv_allocate command l_size r_size reuse_ptr Alignment;
  mret (ret, r_size / sizeof_object, reuse_ptr).

Definition deallocate (addr : Z) : M seg () :=
  if addr =? 0 then mret () else seq_deallocate addr.

Definition deallocate_many (chain : list Z) : M seg () := priv_deallocate_many chain.

Definition get_size : M seg Z := gets hdr_size.

Definition get_free_memory : M seg Z :=
  gets (λ s, hdr_size s -! hdr_allocated s
               -! multiple_of_units (sizeof_impl +! hdr_extra s)).

Definition get_min_size (extra_hdr_bytes : Z) : Z :=
  get_rounded_size sizeof_impl Alignment +! get_rounded_size extra_hdr_bytes Alignment
    +! seq_BlockCtrlBytes.

Definition all_memory_deallocated : M seg bool :=
  alloc ← gets hdr_allocated;
  if alloc =? 0 then
    first ← ld_next root; n ← ld_next first; mret (n =? root)
  else mret false.

(** [zero_free_memory]: the arguments (address and length) of its calls of
    [std::memset], in order. *)
Fixpoint zero_free_loop (fuel : nat) (block : Z) : M seg (list (Z * Z)) :=
  bsize ← ld_size block;
  let call := (seq_get_user_buffer block, get_user_bytes bsize) in
  nxt ← ld_next block;
  if nxt =? root then mret [call] else
  match fuel with
  | O => throw OutOfFuel
  | S fuel => calls ← zero_free_loop fuel nxt; mret (call :: calls)
  end.

Definition zero_free_memory : M seg (list (Z * Z)) :=
  block ← ld_next root;
  fuel ← gets free_fuel;
  zero_free_loop fuel block.

(** The loop of [check_sanity]: [None] when a check of a block fails. *)
Fixpoint sanity_loop (fuel : nat) (block free_memory : Z) : M seg (option Z) :=
  if block =? root then mret (Some free_memory) else
  match fuel with
  | O => throw OutOfFuel
  | S fuel =>
      assert_aligned block;;
      if negb (check_alignment block) then mret None else
      next ← ld_next block;
      if next =? 0 then mret None else
      bsize ← ld_size block;
      sanity_loop fuel next (free_memory +! bsize *! Alignment)
  end.

Definition check_sanity : M seg bool :=
  block ← ld_next root;
  fuel ← gets free_fuel;
  r ← sanity_loop fuel block 0;
  match r with
  | None => mret false
  | Some free_memory =>
      alloc ← gets hdr_allocated;
      sz ← gets hdr_size;
      if sz <? alloc then mret false else
      if sz <? free_memory then mret false else mret true
  end.

(** [priv_add_segment], which hands a fresh memory range to the free list. *)
Definition priv_add_segment (addr segment_size : Z) : M seg () :=
  assert_aligned addr;;
  boost_assert (negb (segment_size <? seq_BlockCtrlBytes));;
  if segment_size <? seq_BlockCtrlBytes then mret () else
  let new_block := addr in
  st_size new_block (segment_size / Alignment);;
  st_next new_block 0;;
  nsize ← ld_size new_block;
  modify (set_allocated (λ a, a +! nsize *! Alignment));;
  seq_deallocate (seq_get_user_buffer new_block).

Definition grow (extra_size : Z) : M seg () :=
  old_end ← priv_block_end_offset;
  modify (set_hdr_size (λ sz, sz +! extra_size));;
  sz ← gets hdr_size;
  if (sz -! old_end) <? seq_BlockCtrlBytes then mret () else
  let new_block := this_ptr + old_end in
  assert_aligned new_block;;
  st_next new_block 0;;
  st_size new_block ((sz -! old_end) / Alignment);;
  nsize ← ld_size new_block;
  modify (set_allocated (λ a, a +! nsize *! Alignment));;
  seq_deallocate (seq_get_user_buffer new_block).

(** The loop of [shrink_to_fit] that finds the last free block. *)
Fixpoint last_free (fuel : nat) (prev last block : Z) : M seg (Z * Z) :=
  if block =? root then mret (prev, last) else
  match fuel with
  | O => throw OutOfFuel
  | S fuel => nxt ← ld_next block; last_free fuel last block nxt
  end.

(** "Check if have only 1 big free block": the block allocated for the time of
    the shrinking, or 0, and the last free block; [None] for the early return. *)
Definition shrink_unique (prev last last_free_end_address : Z) : M seg (option (Z * Z)) :=
  alloc ← gets hdr_allocated;
  if alloc =? 0 then
    boost_assert (prev =? root);;
    '(unique_block, _, _) ← priv_allocate cmd_allocate_new 0 0 0 Alignment;
    if unique_block =? 0 then mret None else
    last ← ld_next root;
    lsize ← ld_size last;
    boost_assert (last_free_end_address =? last + lsize *! Alignment);;
    mret (Some (unique_block, last))
  else mret (Some (0, last)).

(** The last free block is allocated and cut off the segment. *)
Definition shrink_cut (prev unique_block last : Z) : M seg () :=
  last_units ← ld_size last;
  '(addr, received_size) ← priv_check_and_allocate last_units prev last 0;
  boost_assert (nz addr);;
  boost_assert (received_size =? last_units *! Alignment -! seq_BlockCtrlBytes);;
  modify (set_hdr_size (λ sz, sz / Alignment));;
  lsize ← ld_size last;
  modify (set_hdr_size (λ sz, sz -! lsize));;
  modify (set_hdr_size (λ sz, sz *! Alignment));;
  modify (set_allocated (λ a, a -! lsize *! Alignment));;
  if nz unique_block then seq_deallocate unique_block else mret ().

Definition shrink_to_fit : M seg () :=
  block ← ld_next root;
  if block =? root then mret () else
  fuel ← gets free_fuel;
  '(prev, last) ← last_free fuel root root block;
  lsize ← ld_size last;
  let last_free_end_address := last + lsize *! Alignment in
  end_off ← priv_block_end_offset;
  if negb (last_free_end_address =? this_ptr + end_off) then mret () else
  r ← shrink_unique prev last last_free_end_address;
  match r with
  | None => mret ()
  | Some (unique_block, last) => shrink_cut prev unique_block last
  end.
End seq_fit.
