(* ===== verification/SeqFitInv.v ===== *)
(** The sequential-fit algorithm: abstract state, invariant and the
    correctness of its memory primitives.

    The abstract state of a segment is the list of its blocks in address
    order, each with its size in units and whether it is free.  [seg_inv]
    relates it to the headers in memory: the blocks tile the managed range,
    the free ones are exactly the address-ordered list threaded through
    [m_next] from the root, allocated ones have a null [m_next], no two free
    blocks are adjacent and [m_allocated] counts the allocated bytes. *)

From S2P Require Import Prelude Blocks MathUtil MemAlgo MemAlgoSpec SeqFit.

Local Open Scope u64_scope.

(** The first free address of a list of blocks that starts at [a], [nxt] if it
    has none; the last one, [p] if it has none. *)
Fixpoint hd_free (a : Z) (bs : list blk) (nxt : Z) : Z :=
  match bs with
  | [] => nxt
  | b :: bs => if b_free b then a else hd_free (after a (b_size b)) bs nxt
  end.
Fixpoint last_free_of (p a : Z) (bs : list blk) : Z :=
  match bs with
  | [] => p
  | b :: bs => last_free_of (if b_free b then a else p) (after a (b_size b)) bs
  end.

(** The header fields hold the blocks [bs] from address [a] on; the last free
    one points to [nxt]. *)
Fixpoint reps (nx sz : gmap Z Z) (a : Z) (bs : list blk) (nxt : Z) : Prop :=
  match bs with
  | [] => True
  | b :: bs =>
      sz !! a = Some (b_size b) ∧
      nx !! a = Some (if b_free b then hd_free (after a (b_size b)) bs nxt else 0) ∧
      reps nx sz (after a (b_size b)) bs nxt
  end.

(** ** Lists of blocks *)

Lemma hd_free_app a bs1 bs2 nxt :
  hd_free a (bs1 ++ bs2) nxt = hd_free a bs1 (hd_free (after a (total bs1)) bs2 nxt).
Proof.
  revert a. induction bs1 as [|b bs1 IH]; intros a; simpl.
  - unfold after. by rewrite Z.mul_0_r, Z.add_0_r.
  - destruct (b_free b); [done|]. rewrite IH. unfold after. do 2 f_equal. lia.
Qed.

Lemma last_free_app p a bs1 bs2 :
  last_free_of p a (bs1 ++ bs2) =
  last_free_of (last_free_of p a bs1) (after a (total bs1)) bs2.
Proof.
  revert p a. induction bs1 as [|b bs1 IH]; intros p a; simpl.
  - unfold after. by rewrite Z.mul_0_r, Z.add_0_r.
  - rewrite IH. unfold after. f_equal. lia.
Qed.

Lemma reps_app nx sz a bs1 bs2 nxt :
  reps nx sz a (bs1 ++ bs2) nxt ↔
  reps nx sz a bs1 (hd_free (after a (total bs1)) bs2 nxt) ∧
  reps nx sz (after a (total bs1)) bs2 nxt.
Proof.
  revert a. induction bs1 as [|b bs1 IH]; intros a; simpl.
  - unfold after. rewrite Z.mul_0_r, Z.add_0_r. naive_solver.
  - rewrite IH, hd_free_app.
    replace (after (after a (b_size b)) (total bs1)) with (after a (b_size b + total bs1))
      by (unfold after; lia).
    naive_solver.
Qed.

Lemma reps_addrs nx sz a bs nxt k :
  reps nx sz a bs nxt → k ∈ addrs a bs → is_Some (nx !! k).
Proof.
  revert a. induction bs as [|b bs IH]; intros a; simpl.
  - intros _ Hk. by apply elem_of_nil in Hk.
  - intros (_ & Hn & Hr) [->|Hk]%elem_of_cons; eauto.
Qed.

(** There are at least as many headers in memory as blocks: the fuel of the
    list traversals is enough. *)
Lemma reps_length nx sz a bs nxt :
  pos_blocks bs → reps nx sz a bs nxt → (length bs <= size nx)%nat.
Proof.
  intros Hp Hr. rewrite <- (length_addrs a bs), <- size_dom.
  rewrite <- (size_list_to_set (C := gset Z)) by (by apply addrs_nodup).
  apply subseteq_size. intros k Hk.
  apply elem_of_list_to_set in Hk. rewrite elem_of_dom. by eapply reps_addrs.
Qed.

(** Only the fields at block addresses matter. *)
Lemma reps_ext nx sz nx' sz' a bs nxt :
  (∀ k, k ∈ addrs a bs → nx' !! k = nx !! k ∧ sz' !! k = sz !! k) →
  reps nx sz a bs nxt → reps nx' sz' a bs nxt.
Proof.
  revert a. induction bs as [|b bs IH]; intros a Hk; simpl; [done|].
  intros (Hs & Hn & Hr). destruct (Hk a) as [E1 E2]; [by apply list_elem_of_here|].
  rewrite E1, E2. split_and!; [done..|]. apply IH; [|done].
  intros k Hin. apply Hk. by apply list_elem_of_further.
Qed.

Lemma reps_out nx sz nx' sz' a bs nxt :
  pos_blocks bs →
  (∀ k, a <= k < after a (total bs) → (k - a) mod 16 = 0 →
     nx' !! k = nx !! k ∧ sz' !! k = sz !! k) →
  reps nx sz a bs nxt → reps nx' sz' a bs nxt.
Proof.
  intros Hp Hk. apply reps_ext. intros k Hin.
  apply addrs_range in Hin; [|done]. apply Hk; lia.
Qed.

Lemma last_free_range p a bs :
  pos_blocks bs →
  last_free_of p a bs = p ∨ last_free_of p a bs ∈ addrs a bs.
Proof.
  intros Hp. revert p a. induction Hp as [|b bs Hb Hp IH]; intros p a; simpl; [by left|].
  rewrite elem_of_cons. destruct (IH (if b_free b then a else p) (after a (b_size b))) as [->|H].
  - destruct (b_free b); auto.
  - auto.
Qed.

(** No free block: the list of free blocks is empty. *)
Lemma no_free_reps nx sz a bs v v' :
  Forall (λ b, b_free b = false) bs → reps nx sz a bs v → reps nx sz a bs v'.
Proof.
  intros Hf. revert a. induction Hf as [|b bs Hb Hf IH]; intros a; simpl; [done|].
  rewrite Hb. intros (? & ? & ?). auto.
Qed.

Lemma last_free_eq p a bs :
  pos_blocks bs → p < a → last_free_of p a bs = p → Forall (λ b, b_free b = false) bs.
Proof.
  intros Hp. revert p a. induction Hp as [|b bs Hb Hp IH]; intros p a Hlt; simpl; [constructor|].
  destruct (b_free b) eqn:E; intros Hl.
  - exfalso. destruct (last_free_range a (after a (b_size b)) bs Hp) as [H|H].
    + lia.
    + apply addrs_range in H; [|done]. unfold after in *. lia.
  - constructor; [done|]. apply (IH p (after a (b_size b))); [unfold after; lia|done].
Qed.

Lemma hd_free_none a bs v : Forall (λ b, b_free b = false) bs → hd_free a bs v = v.
Proof. intros H. revert a. induction H as [|b bs Hb]; intros; simpl; [done|]. by rewrite Hb. Qed.

(** Redirecting the last free block of a list. *)
Lemma reps_relink nx sz p a bs v v' :
  pos_blocks bs → p < a → last_free_of p a bs ≠ p →
  reps nx sz a bs v → reps (<[last_free_of p a bs := v']> nx) sz a bs v' ∧
                      hd_free a bs v' = hd_free a bs v.
Proof.
  intros Hp. revert p a. induction Hp as [|b bs Hb Hp IH]; intros p a Hlt Hne; [done|].
  simpl in *. intros (Hs & Hn & Hr).
  assert (a < after a (b_size b)) by (unfold after; lia).
  assert (∀ q, q <= a → last_free_of q (after a (b_size b)) bs ≠ q →
            a ≠ last_free_of q (after a (b_size b)) bs) as Hout.
  { intros q Hq Hneq. destruct (last_free_range q (after a (b_size b)) bs Hp) as [E|E]; [done|].
    apply addrs_range in E; [|done]. lia. }
  destruct (b_free b) eqn:Efree.
  - destruct (decide (last_free_of a (after a (b_size b)) bs = a)) as [E|E].
    + rewrite E. pose proof (last_free_eq _ _ _ Hp ltac:(done) E) as Hnf. split; [|done].
      rewrite lookup_insert_eq, hd_free_none by done. split_and!; [done..|].
      apply reps_out with nx sz; [done| |by eapply no_free_reps].
      intros k Hk _. rewrite lookup_insert_ne by lia. done.
    + destruct (IH a (after a (b_size b)) ltac:(done) E Hr) as [Hr' Hhd].
      split; [|done]. rewrite lookup_insert_ne by (by apply not_eq_sym, Hout).
      rewrite Hhd. done.
  - destruct (IH p (after a (b_size b)) ltac:(lia) Hne Hr) as [Hr' Hhd].
    split; [|done]. rewrite lookup_insert_ne by (apply not_eq_sym, Hout; [lia|done]). done.
Qed.

(** The free list from the root [r], which lies below the blocks. *)
Definition frep (r : Z) (nx sz : gmap Z Z) (a : Z) (bs : list blk) (nxt : Z) : Prop :=
  nx !! r = Some (hd_free a bs nxt) ∧ reps nx sz a bs nxt.

Lemma frep_relink r nx sz a bs v v' :
  pos_blocks bs → r < a → frep r nx sz a bs v →
  frep r (<[last_free_of r a bs := v']> nx) sz a bs v'.
Proof.
  intros Hp Hlt [Hn Hr]. destruct (decide (last_free_of r a bs = r)) as [E|E].
  - rewrite E. pose proof (last_free_eq _ _ _ Hp Hlt E) as Hnf. split.
    + by rewrite lookup_insert_eq, hd_free_none.
    + apply reps_out with nx sz; [done| |by eapply no_free_reps].
      intros k Hk _. rewrite lookup_insert_ne by lia. done.
  - destruct (reps_relink nx sz r a bs v v' Hp Hlt E Hr) as [Hr' Hhd].
    split; [|done]. rewrite lookup_insert_ne by done. by rewrite Hhd.
Qed.

(** What the last free block of a list points to. *)
Lemma last_free_next r nx sz a bs v :
  pos_blocks bs → r < a → nx !! r = Some (hd_free a bs v) → reps nx sz a bs v →
  nx !! last_free_of r a bs = Some v.
Proof.
  intros Hp. revert r a. induction Hp as [|b bs Hb Hp IH]; intros r a Hlt Hn Hr; simpl in *; [done|].
  destruct Hr as (_ & Hn' & Hr). destruct (b_free b); apply IH; try done; unfold after; lia.
Qed.

Lemma frep_out r nx sz nx' sz' a bs nxt :
  pos_blocks bs → nx' !! r = nx !! r →
  (∀ k, a <= k < after a (total bs) → (k - a) mod 16 = 0 →
     nx' !! k = nx !! k ∧ sz' !! k = sz !! k) →
  frep r nx sz a bs nxt → frep r nx' sz' a bs nxt.
Proof.
  intros Hp Hroot Hk [Hn Hr]. split; [by rewrite Hroot|by eapply reps_out].
Qed.

Lemma frep_app r nx sz a bs1 bs2 nxt :
  frep r nx sz a (bs1 ++ bs2) nxt ↔
  frep r nx sz a bs1 (hd_free (after a (total bs1)) bs2 nxt) ∧
  reps nx sz (after a (total bs1)) bs2 nxt.
Proof. unfold frep. rewrite hd_free_app, reps_app. naive_solver. Qed.

Lemma reps_addr_size nx sz a bs nxt k :
  pos_blocks bs → reps nx sz a bs nxt → k ∈ addrs a bs →
  ∃ n, sz !! k = Some n ∧ 1 <= n ∧ after k n <= after a (total bs).
Proof.
  intros Hp. revert a. induction Hp as [|b bs Hb Hp IH]; intros a Hr Hk; simpl in *.
  - by apply elem_of_nil in Hk.
  - destruct Hr as (Hs & _ & Hr). apply elem_of_cons in Hk as [->|Hk].
    + exists (b_size b). pose proof (pos_total _ Hp). unfold after. split_and!; [done|lia|lia].
    + destruct (IH _ Hr Hk) as (n & ? & ? & ?). exists n. unfold after in *.
      split_and!; [done|lia|lia].
Qed.

Lemma hd_free_range a bs nxt :
  pos_blocks bs → hd_free a bs nxt = nxt ∨ a <= hd_free a bs nxt < after a (total bs).
Proof.
  intros Hp. revert a. induction Hp as [|b bs Hb Hp IH]; intros a; simpl; [by left|].
  pose proof (pos_total _ Hp).
  destruct (b_free b); [right; unfold after; lia|].
  destruct (IH (after a (b_size b))) as [->|?]; [by left|right]. unfold after in *. lia.
Qed.

(** ** The invariant *)

Section inv.
Context {L : SegLayout}.

Class SegLayoutOk : Prop := {
  lo_this : 0 < this_ptr;
  lo_root : 0 <= root_off;
  lo_sizeof : root_off + sizeof_block_ctrl <= sizeof_impl
}.

(** The address of the first block and the end of the last one. *)
Definition first_block (s : seg) : Z := round_up (this_ptr + sizeof_impl + hdr_extra s) 16.
Definition seg_end (s : seg) : Z := (this_ptr + hdr_size s) / 16 * 16.

(** The memory of [s] holds the blocks [bs]. *)
Record seg_rep (s : seg) (bs : list blk) : Prop := {
  rep_extra : 0 <= hdr_extra s;
  rep_fits : this_ptr + hdr_size s < 9223372036854775808;
  rep_pos : pos_blocks bs;
  rep_tile : after (first_block s) (total bs) = seg_end s;
  rep_free : frep root (m_next s) (m_size s) (first_block s) bs root;
  rep_root : ∃ r, m_size s !! root = Some r ∧ 0 <= r ∧ root + 16 * r < first_block s;
  rep_alloc : hdr_allocated s = 16 * used bs
}.

Definition seg_inv (s : seg) (bs : list blk) : Prop := seg_rep s bs ∧ coalesced bs.

Context {LOk : SegLayoutOk}.

(** What the proofs use of the position of the blocks. *)
Lemma rep_facts s bs :
  seg_rep s bs →
  0 < this_ptr ∧ root + 16 <= first_block s ∧ this_ptr + sizeof_impl <= first_block s ∧
  first_block s mod 16 = 0 ∧ 0 < root ∧ this_ptr <= root ∧
  after (first_block s) (total bs) <= this_ptr + hdr_size s < 9223372036854775808 ∧
  0 <= total bs.
Proof.
  intros [? ? Hpos Htile _ _ _]. destruct LOk as [? ? ?].
  pose proof (round_up_spec (this_ptr + sizeof_impl + hdr_extra s) 16 ltac:(lia)) as [? Hdiv].
  apply Z.mod_divide in Hdiv; [|lia]. pose proof (pos_total _ Hpos).
  unfold root, sizeof_block_ctrl, seg_end, first_block in *. rewrite Htile.
  split_and!; try done; dlia.
Qed.

Lemma wp_ld_next a v s Q : m_next s !! a = Some v → Q v s → wp (ld_next a) s Q.
Proof. unfold wp, ld_next. by intros ->. Qed.
Lemma wp_ld_size a v s Q : m_size s !! a = Some v → Q v s → wp (ld_size a) s Q.
Proof. unfold wp, ld_size. by intros ->. Qed.
Lemma wp_st_next a v s (Q : () → seg → Prop) :
  in_segment s a = true → Q () (set_m_next <[a := v]> s) → wp (st_next a v) s Q.
Proof. unfold wp, st_next. by intros ->. Qed.
Lemma wp_st_size a v s (Q : () → seg → Prop) :
  in_segment s a = true → Q () (set_m_size <[a := v]> s) → wp (st_size a v) s Q.
Proof. unfold wp, st_size. by intros ->. Qed.

Lemma in_segment_root s : in_segment s root = true.
Proof. unfold in_segment. by rewrite Z.eqb_refl. Qed.

Lemma in_segment_range s a :
  this_ptr + sizeof_impl <= a → a + 16 <= this_ptr + hdr_size s → in_segment s a = true.
Proof.
  intros H1 H2. unfold in_segment. apply orb_true_iff. right. unfold sizeof_block_ctrl.
  apply andb_true_iff. split; apply Z.leb_le; lia.
Qed.

(** The free list is no longer than the fuel of the loops. *)
Lemma rep_fuel s bs : seg_rep s bs → (length bs < free_fuel s)%nat.
Proof.
  intros [_ _ Hp _ [_ Hr] _ _]. unfold free_fuel. apply reps_length in Hr; [lia|done].
Qed.

(** The predecessor of a block in the free list lies before it. *)
Lemma last_free_lt s pre bs :
  seg_rep s (pre ++ bs) →
  let p := last_free_of root (first_block s) pre in
  (p = root ∨ p ∈ addrs (first_block s) pre) ∧
  root <= p < after (first_block s) (total pre) ∧ in_segment s p = true.
Proof.
  intros Hrep. pose proof (rep_facts _ _ Hrep) as Hf. destruct Hrep as [_ _ Hp _ _ _ _].
  apply pos_app in Hp as [Hp1 Hp2]. pose proof (pos_total _ Hp1). pose proof (pos_total _ Hp2).
  rewrite total_app in Hf. unfold after in Hf. cbv zeta.
  destruct (last_free_range root (first_block s) pre Hp1) as [E|E].
  - rewrite E. split; [by left|]. split; [unfold after; lia|apply in_segment_root].
  - split; [by right|]. apply addrs_range in E as [E _]; [|done].
    unfold after in E. split; [unfold after; lia|].
    apply in_segment_range; lia.
Qed.
End inv.
