(* ===== verification/SeqFitOps.v ===== *)
(** The sequential-fit algorithm: what its private operations do to the list
    of blocks.

    Every lemma is a total-correctness statement: from a memory that holds a
    list of blocks the operation does not fault (no field is read that was
    not written, no assertion fails, no header is written outside of the
    segment, no loop runs out of fuel) and leaves a memory that holds the
    list of blocks given by an abstract operation on lists. *)

From S2P Require Import Prelude Blocks MathUtil MemAlgo MemAlgoSpec SeqFit SeqFitInv.

Local Open Scope u64_scope.

(** ** Abstract operations *)

(** ** Tactics *)

Ltac seg_simpl :=
  cbn [m_next m_size hdr_allocated hdr_size hdr_extra
       set_m_next set_m_size set_allocated set_hdr_size] in *.

(** The constants of the algorithm on this ABI. *)
Ltac seg_consts :=
  change seq_BlockCtrlBytes with 16 in *; change seq_BlockCtrlUnits with 1 in *;
  change Alignment with 16 in *; change sizeof_block_ctrl with 16 in *.

Ltac ins := repeat first
  [ rewrite lookup_insert_eq
  | rewrite lookup_insert_ne by (unfold after in *; lia) ].

Ltac u64_side ::= unfold in_u64, after in *; lia.

Section ops.
Context {L : SegLayout} {LOk : SegLayoutOk}.

Lemma rep_update s s' bs bs' :
  seg_rep s bs → hdr_extra s' = hdr_extra s → hdr_size s' = hdr_size s →
  pos_blocks bs' → total bs' = total bs →
  frep root (m_next s') (m_size s') (first_block s) bs' root →
  m_size s' !! root = m_size s !! root →
  hdr_allocated s' = 16 * used bs' → seg_rep s' bs'.
Proof.
  intros [He Hf Hp Ht Hfr Hro Ha] E1 E2 Hp' Ht' Hfr' Hro' Ha'.
  assert (first_block s' = first_block s) as Efb by (unfold first_block; by rewrite E1).
  constructor; rewrite ?Efb, ?E1, ?E2, ?Hro'; try done.
  unfold seg_end in *. rewrite E2, Ht'. done.
Qed.

(** The allocated bytes never exceed the segment. *)
Lemma rep_alloc_bound s bs :
  seg_rep s bs → 0 <= hdr_allocated s <= hdr_size s ∧
                 hdr_allocated s <= 16 * total bs.
Proof.
  intros Hrep. pose proof (rep_facts _ _ Hrep) as Hf. destruct Hrep as [_ _ Hp _ _ _ ->].
  pose proof (used_bounds _ Hp). unfold after in Hf.
  destruct LOk as [? ? ?]. seg_consts. lia.
Qed.

Lemma rep_split s pre b post :
  seg_rep s (pre ++ b :: post) →
  let a := after (first_block s) (total pre) in
  pos_blocks pre ∧ pos_blocks post ∧ 1 <= b_size b ∧ 0 <= total pre ∧ 0 <= total post ∧
  frep root (m_next s) (m_size s) (first_block s) pre
       (if b_free b then a else hd_free (after a (b_size b)) post root) ∧
  m_size s !! a = Some (b_size b) ∧
  m_next s !! a = Some (if b_free b then hd_free (after a (b_size b)) post root else 0) ∧
  reps (m_next s) (m_size s) (after a (b_size b)) post root ∧
  after (after a (b_size b)) (total post) <= this_ptr + hdr_size s < 9223372036854775808.
Proof.
  intros Hrep. pose proof (rep_facts _ _ Hrep) as Hf. destruct Hrep as [_ _ Hp _ Hfr _ _].
  apply pos_app in Hp as [Hp1 Hp2]. apply pos_cons in Hp2 as [Hb Hp2].
  apply frep_app in Hfr as [Hfr Hr]. simpl in *.
  rewrite total_app in Hf. simpl in Hf.
  pose proof (pos_total _ Hp1). pose proof (pos_total _ Hp2).
  destruct Hr as (Hs & Hn & Hr). unfold after in *. split_and!; try done; lia.
Qed.

(** Replacing the blocks [old] between [pre] and [post] by [mid]: the last
    free block of [pre] is linked to the first free one behind it. *)
Lemma rep_splice s s' pre old mid post :
  seg_rep s (pre ++ old ++ post) →
  hdr_extra s' = hdr_extra s → hdr_size s' = hdr_size s →
  pos_blocks mid → total mid = total old →
  let fb := first_block s in
  let a := after fb (total pre) in
  let e := after a (total old) in
  let nxt := hd_free e post root in
  (∀ k, k = root ∨ fb <= k < a → m_next s' !! k =
      <[last_free_of root fb pre := hd_free a mid nxt]> (m_next s) !! k) →
  (∀ k, k = root ∨ fb <= k < a → m_size s' !! k = m_size s !! k) →
  (∀ k, e <= k < after e (total post) →
      m_next s' !! k = m_next s !! k ∧ m_size s' !! k = m_size s !! k) →
  reps (m_next s') (m_size s') a mid nxt →
  hdr_allocated s' = hdr_allocated s + 16 * (used mid - used old) →
  seg_rep s' (pre ++ mid ++ post).
Proof.
  intros Hrep E1 E2 Hpm Htm. cbv zeta. intros Hpre Hsz Hpost Hmid Hal.
  pose proof (rep_facts _ _ Hrep) as Hf. pose proof (rep_pos _ _ Hrep) as Hp.
  pose proof (rep_alloc _ _ Hrep) as Halloc.
  rewrite !pos_app in Hp. destruct Hp as (Hp1 & Hp2 & Hp3).
  pose proof (pos_total _ Hp1). pose proof (pos_total _ Hp3).
  pose proof (rep_free _ _ Hrep) as Hfr.
  apply frep_app in Hfr as [Hfr Hr]. apply reps_app in Hr as [_ Hr].
  apply rep_update with s (pre ++ old ++ post); try done.
  - by rewrite !pos_app.
  - rewrite !total_app. lia.
  - apply frep_app. rewrite hd_free_app, reps_app, Htm. split_and!.
    + eapply frep_out; [done|apply Hpre; by left| |by eapply frep_relink; [|lia|]].
      intros k Hk _. split; [apply Hpre|apply Hsz]; by right.
    + done.
    + apply reps_out with (m_next s) (m_size s); [done| |done]. intros k Hk _. by apply Hpost.
  - apply Hsz. by left.
  - rewrite Hal, Halloc, !used_app. lia.
Qed.

(** The same when the first free address stays the same: the blocks before
    need not change. *)
Lemma rep_splice_same s s' pre old mid post :
  seg_rep s (pre ++ old ++ post) →
  hdr_extra s' = hdr_extra s → hdr_size s' = hdr_size s →
  pos_blocks mid → total mid = total old →
  let fb := first_block s in
  let a := after fb (total pre) in
  let e := after a (total old) in
  let nxt := hd_free e post root in
  hd_free a mid nxt = hd_free a old nxt →
  (∀ k, k = root ∨ fb <= k < a → m_next s' !! k = m_next s !! k ∧
                                 m_size s' !! k = m_size s !! k) →
  (∀ k, e <= k < after e (total post) →
      m_next s' !! k = m_next s !! k ∧ m_size s' !! k = m_size s !! k) →
  reps (m_next s') (m_size s') a mid nxt →
  hdr_allocated s' = hdr_allocated s + 16 * (used mid - used old) →
  seg_rep s' (pre ++ mid ++ post).
Proof.
  intros Hrep E1 E2 Hpm Htm. cbv zeta. intros Hhd Hpre Hpost Hmid Hal.
  eapply rep_splice; try done; [|by intros; apply Hpre].
  intros k Hk. rewrite (proj1 (Hpre k Hk)).
  assert (m_next s !! last_free_of root (first_block s) pre =
          Some (hd_free (after (first_block s) (total pre)) old
            (hd_free (after (after (first_block s) (total pre)) (total old)) post root))) as E.
  { pose proof (rep_facts _ _ Hrep) as Hf. pose proof (rep_pos _ _ Hrep) as Hp.
    apply pos_app in Hp as [Hp1 _].
    pose proof (rep_free _ _ Hrep) as Hfr. apply frep_app in Hfr as [[Hn Hr] _].
    rewrite (hd_free_app _ old) in Hn, Hr. eapply last_free_next; [done| |done|done]. lia. }
  rewrite Hhd, insert_id; done.
Qed.

Lemma user_bytes_val n :
  1 <= n → 16 * n < 18446744073709551616 → get_user_bytes n = 16 * n - 16.
Proof. intros. unfold get_user_bytes. seg_consts. u64_simpl. lia. Qed.

(** Allocating [n] units from the free block behind [pre]. *)
Lemma check_and_allocate_ok s pre sz post n r0 :
  seg_rep s (pre ++ Blk sz true :: post) → 1 <= n < 18446744073709551615 →
  let a := after (first_block s) (total pre) in
  wp (priv_check_and_allocate n (last_free_of root (first_block s) pre) a r0) s
     (λ r s', if n <=? sz
              then r = (a + 16, 16 * cut_units 2 n sz - 16) ∧
                   seg_rep s' (pre ++ cut 2 n sz ++ post) ∧
                   hdr_extra s' = hdr_extra s ∧ hdr_size s' = hdr_size s
              else r = (0, r0) ∧ s' = s).
Proof.
  intros Hrep Hn. cbv zeta.
  pose proof (rep_facts _ _ Hrep) as Hf. pose proof (rep_alloc_bound _ _ Hrep) as Hal.
  pose proof (rep_split _ _ _ _ Hrep) as (Hp1 & Hp2 & Hsz & Ht1 & Ht2 & Hfr & Hs & Hnx & Hr & Hend).
  pose proof (last_free_lt _ _ _ Hrep) as (_ & Hlf & Hseg). cbv zeta in *.
  pose proof (rep_alloc _ _ Hrep) as Halloc. rewrite used_app in Halloc. cbn in Halloc.
  pose proof (used_bounds _ Hp1). pose proof (used_bounds _ Hp2).
  change (pre ++ Blk sz true :: post) with (pre ++ [Blk sz true] ++ post) in Hrep.
  cbn [b_size b_free] in *.
  assert (in_segment s (after (first_block s) (total pre)) = true) as Hsa
    by (apply in_segment_range; unfold after in *; lia).
  unfold priv_check_and_allocate. seg_consts.
  apply wp_bind, (wp_ld_size _ sz); [done|]. u64_simpl.
  unfold cut, cut_units.
  replace (n + 1 <? sz) with (n + 2 <=? sz) by (apply eq_true_iff_eq; rewrite Z.leb_le, Z.ltb_lt; lia).
  destruct (Z.leb_spec (n + 2) sz) as [Hbig|Hsmall]; [|destruct (Z.leb_spec n sz) as [Hfit|Hno]].
  - destruct (Z.leb_spec n sz); [|lia]. u64_simpl.
    fold (after (after (first_block s) (total pre)) n).
    wp_step. wp_step. apply wp_st_size; [done|].
    assert (in_segment s (after (after (first_block s) (total pre)) n) = true) as Hsn
      by (apply in_segment_range; unfold after in *; lia).
    wp_step. apply wp_st_size; [done|].
    wp_step. eapply wp_ld_next; [done|]. wp_step. apply wp_st_next; [done|].
    wp_step. apply wp_st_next; [done|]. wp_step.
    wp_step. apply (wp_ld_size _ n); [seg_simpl; by ins|].
    wp_step. wp_step. wp_step. apply wp_st_next; [done|].
    wp_step. apply wp_assert; [by apply aligned_after; apply Hf|]. wp_step.
    rewrite user_bytes_val by (unfold after in *; lia). split_and!; [done| |done|done].
    eapply rep_splice; try done; seg_simpl.
    + pos_tac.
    + simpl. lia.
    + intros k Hk. cbn. rewrite !lookup_insert. by repeat case_decide; try (unfold after in *; lia).
    + intros k Hk. by ins.
    + intros k Hk. cbn in Hk. by ins.
    + cbn. rewrite Z.add_0_r. ins.
      by replace (after _ sz) with (after (after (after (first_block s) (total pre)) n) (sz - n))
        by (unfold after; lia).
    + cbn. u64_simpl. lia.
  - wp_step. wp_step. eapply wp_ld_next; [done|]. wp_step. apply wp_st_next; [done|]. wp_step.
    wp_step. eapply wp_ld_size; [done|]. wp_step. wp_step. wp_step. apply wp_st_next; [done|].
    wp_step. apply wp_assert; [by apply aligned_after; apply Hf|]. wp_step.
    rewrite user_bytes_val by (unfold after in *; lia). split_and!; [done| |done|done].
    eapply rep_splice; try done; seg_simpl.
    + pos_tac.
    + intros k Hk. cbn. rewrite Z.add_0_r. by ins.
    + intros k Hk. cbn in Hk. by ins.
    + cbn. by ins.
    + cbn. u64_simpl. lia.
  - wp_step. wp_step. wp_step. done.
Qed.

(** ** Deallocation *)

Lemma dealloc_find_ok s nxt block mid : ∀ a p fuel,
  pos_blocks mid → reps (m_next s) (m_size s) a mid nxt → root < a →
  after a (total mid) = block → nxt = root ∨ block <= nxt → (length mid <= fuel)%nat →
  wp (dealloc_find fuel block p (hd_free a mid nxt)) s
     (λ r s', r = (last_free_of p a mid, nxt) ∧ s' = s).
Proof.
  induction mid as [|b mid IH]; intros a p fuel Hp Hr Hra Hend Hnxt Hf.
  - destruct fuel; cbn [dealloc_find hd_free last_free_of];
      (destruct (Z.eqb_spec nxt root); [by apply wp_ret|]);
      (destruct (Z.ltb_spec nxt block); [lia|by apply wp_ret]).
  - apply pos_cons in Hp as [Hb Hp]. destruct Hr as (Hs & Hn & Hr).
    destruct fuel as [|fuel]; [simpl in Hf; lia|]. pose proof (pos_total _ Hp).
    cbn [hd_free last_free_of]. cbn [total] in Hend. simpl in Hf.
    destruct (b_free b) eqn:E.
    + cbn [dealloc_find]. destruct (Z.eqb_spec a root); [lia|].
      destruct (Z.ltb_spec a block); [|unfold after in *; lia]. cbn [negb andb].
      wp_step. eapply wp_ld_next; [done|].
      apply IH; try done; unfold after in *; lia.
    + apply (IH (after a (b_size b)) p (S fuel)); try done; unfold after in *; lia.
Qed.

(** The blocks behind a freed block that its merge takes over. *)
Lemma merge_post_split n post n' post' :
  pos_blocks post → merge_post n post = (n', post') →
  ∃ tl, post = tl ++ post' ∧ n' = n + total tl ∧ used tl = 0 ∧
        ((tl = [] ∧ ∀ m post'', post ≠ Blk m true :: post'') ∨ ∃ m, tl = [Blk m true] ∧ 1 <= m).
Proof.
  intros Hp. unfold merge_post.
  destruct post as [|[m [|]] post2]; intros [= <- <-].
  - exists []. simpl. split_and!; try done; [lia|]. by left.
  - apply pos_cons in Hp as [? _]. exists [Blk m true]. simpl. split_and!; try done; [lia|]. eauto.
  - exists []. simpl. split_and!; try done; [lia|]. left. naive_solver.
Qed.

(** Whether the free block found behind [block] starts where it ends. *)
Lemma hd_free_adjacent a post :
  pos_blocks post → root < a →
  (a =? hd_free a post root) =
  match post with Blk _ true :: _ => true | _ => false end.
Proof.
  intros Hp Hra. destruct post as [|[m [|]] post]; simpl.
  - apply Z.eqb_neq. lia.
  - apply Z.eqb_refl.
  - apply pos_cons in Hp as [Hm Hp]. apply Z.eqb_neq. simpl in *.
    destruct (hd_free_range (after a m) post root Hp) as [->|?]; [lia|unfold after in *; lia].
Qed.

(** Whether the free block found before [pre]'s end ends there. *)
Lemma last_free_adjacent s pre bs :
  seg_rep s (pre ++ bs) →
  let p := last_free_of root (first_block s) pre in
  ∃ psz, m_size s !! p = Some psz ∧ 0 <= psz ∧ in_u64 (16 * psz) ∧
    ((∃ pre' m, pre = pre' ++ [Blk m true] ∧ p = after (first_block s) (total pre') ∧ psz = m) ∨
     ((∀ n, merge_pre pre n = pre ++ [Blk n true]) ∧
      after p psz < after (first_block s) (total pre))).
Proof.
  intros Hrep. cbv zeta. pose proof (rep_facts _ _ Hrep) as Hf.
  pose proof (rep_pos _ _ Hrep) as Hp. apply pos_app in Hp as [Hp1 Hp2].
  pose proof (pos_total _ Hp1). pose proof (pos_total _ Hp2).
  rewrite total_app in Hf.
  pose proof (rep_free _ _ Hrep) as Hfr. apply frep_app in Hfr as [[_ Hr] _].
  destruct (rep_root _ _ Hrep) as (r & Hroot & Hr0 & Hrlt).
  destruct pre as [|[m fr] pre' _] using rev_ind.
  { exists r. simpl. split_and!; try done.
    - unfold in_u64, after in *. lia.
    - right. split; [done|]. unfold after in *. lia. }
  apply pos_app in Hp1 as [Hp1 Hm]. apply pos_cons in Hm as [Hm _]. simpl in Hm.
  rewrite last_free_app. rewrite total_app in *. simpl in *. destruct fr.
  - exists m. apply reps_app in Hr as [_ (Hs & _)]. simpl in Hs. split_and!; try done.
    + lia.
    + pose proof (pos_total _ Hp1). unfold in_u64, after in *. lia.
    + left. eauto.
  - assert (∃ psz, m_size s !! last_free_of root (first_block s) pre' = Some psz ∧ 0 <= psz ∧
      after (last_free_of root (first_block s) pre') psz <= after (first_block s) (total pre') )
      as (psz & E1 & E2 & E3).
    { apply reps_app in Hr as [Hr _].
      destruct (last_free_range root (first_block s) pre' Hp1) as [->|Hin].
      - exists r. pose proof (pos_total _ Hp1). split_and!; try done. unfold after. lia.
      - destruct (reps_addr_size _ _ _ _ _ _ Hp1 Hr Hin) as (psz & ? & ? & ?).
        exists psz. split_and!; try done. lia. }
    exists psz. split_and!; try done.
    + pose proof (last_free_lt s pre' (Blk m false :: bs)) as Hl. rewrite <- app_assoc in Hrep.
      destruct (Hl Hrep) as (_ & ? & _). pose proof (pos_total _ Hp1).
      unfold in_u64, after in *. lia.
    + right. split.
      * intros n. unfold merge_pre. by rewrite rev_app_distr.
      * unfold after in *. lia.
Qed.

(** The header of a freed block after it took over the free block behind. *)
Lemma combine_upper_ok s a n post n' post' :
  pos_blocks post → merge_post n post = (n', post') → 1 <= n → root < a →
  m_size s !! a = Some n → reps (m_next s) (m_size s) (after a n) post root →
  in_segment s a = true → after (after a n) (total post) < 18446744073709551616 → 0 < a →
  wp (combine_upper a (hd_free (after a n) post root)) s
     (λ _ s', ∃ nx' sz', s' = Seg nx' sz' (hdr_allocated s) (hdr_size s) (hdr_extra s) ∧
        (∀ k, k ≠ a → nx' !! k = m_next s !! k ∧ sz' !! k = m_size s !! k) ∧
        nx' !! a = Some (hd_free (after a n') post' root) ∧ sz' !! a = Some n').
Proof.
  intros Hp Emp Hn Hra Hs Hr Hseg Hend Ha. pose proof (pos_total _ Hp).
  unfold combine_upper. seg_consts. wp_step. eapply wp_ld_size; [done|]. u64_simpl.
  fold (after a n). rewrite hd_free_adjacent by (done || (unfold after; lia)).
  destruct post as [|[m [|]] post2]; simpl in Emp; injection Emp as <- <-.
  - apply wp_st_next; [done|]. do 2 eexists. split; [done|]. seg_simpl.
    split; [intros k Hk; by ins|]. by ins.
  - apply pos_cons in Hp as [Hm Hp]. pose proof (pos_total _ Hp).
    destruct Hr as (Hms & Hmn & _). cbn in Hms, Hmn, Hend, Hm.
    wp_step. eapply wp_ld_size; [done|]. u64_simpl.
    wp_step. apply wp_st_size; [done|]. wp_step.
    eapply wp_ld_next; [done|]. apply wp_st_next; [done|].
    do 2 eexists. split; [done|]. seg_simpl. split; [intros k Hk; by ins|].
    ins. by replace (after (after a n) m) with (after a (n + m)) by (unfold after; lia).
  - apply wp_st_next; [done|]. do 2 eexists. split; [done|]. seg_simpl.
    split; [intros k Hk; by ins|]. by ins.
Qed.

(** Linking the freed block, or adding it to the free block before it. *)
Lemma combine_lower_ok s s1 pre n n' tl post' :
  seg_rep s (pre ++ (Blk n false :: tl) ++ post') →
  n' = n + total tl → used tl = 0 →
  hdr_extra s1 = hdr_extra s → hdr_size s1 = hdr_size s →
  hdr_allocated s1 = hdr_allocated s - 16 * n →
  let a := after (first_block s) (total pre) in
  (∀ k, k ≠ a → m_next s1 !! k = m_next s !! k ∧ m_size s1 !! k = m_size s !! k) →
  m_next s1 !! a = Some (hd_free (after a n') post' root) → m_size s1 !! a = Some n' →
  wp (combine_lower (last_free_of root (first_block s) pre) a) s1
     (λ _ s', seg_rep s' (merge_pre pre n' ++ post') ∧
              hdr_extra s' = hdr_extra s ∧ hdr_size s' = hdr_size s).
Proof.
  intros Hrep -> Hut E1 E2 E3. cbv zeta. intros Hk Hna Hsa.
  pose proof (rep_facts _ _ Hrep) as Hf.
  pose proof (rep_pos _ _ Hrep) as Hp. rewrite !pos_app, pos_cons in Hp.
  destruct Hp as (Hp1 & [Hn Hptl] & Hpp). cbn in Hn.
  pose proof (pos_total _ Hp1). pose proof (pos_total _ Hptl). pose proof (pos_total _ Hpp).
  rewrite !total_app in Hf. cbn in Hf.
  pose proof (last_free_lt _ _ _ Hrep) as (_ & Hlf & Hseg).
  pose proof (last_free_adjacent _ _ _ Hrep) as (psz & Hpsz & Hpsz0 & Hpszr & Hadj).
  cbv zeta in *. remember (after (first_block s) (total pre)) as a eqn:Ea.
  remember (last_free_of root (first_block s) pre) as p eqn:Ep.
  assert (in_segment s1 p = true) as Hseg1 by (unfold in_segment in *; by rewrite E2).
  unfold combine_lower. seg_consts.
  wp_step. eapply wp_ld_size; [by rewrite (proj2 (Hk p ltac:(lia)))|].
  u64_simpl. fold (after p psz).
  destruct Hadj as [(pre' & m & -> & Epp & ->)|[Hmp Hadj]].
  - rewrite total_app in *. cbn in Ea.
    destruct (Z.eqb_spec (after p m) a); [|unfold after in *; lia].
    rewrite merge_pre_last, <- app_assoc.
    wp_step. eapply wp_ld_size; [done|]. wp_step. apply wp_st_size; [done|].
    wp_step. eapply wp_ld_next; [seg_simpl; done|]. apply wp_st_next; [done|].
    split; [|done]. apply pos_app in Hp1 as [Hp1 Hm]. apply pos_cons in Hm as [Hm _].
    simpl in Hm. pose proof (pos_total _ Hp1).
    eapply (rep_splice_same s _ pre' ([Blk m true; Blk n false] ++ tl)); seg_simpl; try done.
    + by rewrite <- !app_assoc in *.
    + pos_tac.
    + rewrite total_app. cbn. lia.
    + intros k Hkr. rewrite <- Epp in Hkr. destruct (Hk k) as [F1 F2]; [unfold after in *; lia|].
      ins. done.
    + intros k Hkr. rewrite <- Epp, total_app in Hkr. cbn in Hkr.
      destruct (Hk k) as [F1 F2]; [unfold after in *; lia|]. by ins.
    + cbn. rewrite <- Epp. ins. rewrite ?total_app. cbn. u64_simpl. split_and!; try done.
      do 2 f_equal. unfold after in *. lia.
    + rewrite used_app. cbn. lia.
  - destruct (Z.eqb_spec (after p psz) a); [lia|].
    rewrite Hmp, <- app_assoc. apply wp_st_next; [done|]. split; [|done].
    eapply (rep_splice s _ pre (Blk n false :: tl)); seg_simpl; try done.
    + pos_tac.
    + cbn. lia.
    + intros k Hkr. rewrite <- Ep. cbn. rewrite <- Ea in *. rewrite !lookup_insert.
      case_decide; [done|]. apply Hk. unfold after in *; lia.
    + intros k Hkr. rewrite <- Ea in *. apply Hk. unfold after in *; lia.
    + intros k Hkr. rewrite <- Ea in *. cbn in Hkr. ins. apply Hk. unfold after in *; lia.
    + cbn. rewrite <- Ea. by ins.
    + cbn. lia.
Qed.

(** Freeing the allocated block of [n] units behind [pre]. *)
Lemma deallocate_ok s pre n post :
  seg_rep s (pre ++ Blk n false :: post) →
  wp (seq_deallocate (after (first_block s) (total pre) + 16)) s
     (λ _ s', seg_rep s' (free_at pre n post) ∧
              hdr_extra s' = hdr_extra s ∧ hdr_size s' = hdr_size s).
Proof.
  intros Hrep.
  pose proof (rep_facts _ _ Hrep) as Hf. pose proof (rep_alloc_bound _ _ Hrep) as Hal.
  pose proof (rep_split _ _ _ _ Hrep) as (Hp1 & Hp2 & Hsz & Ht1 & Ht2 & Hfr & Hs & Hnx & Hr & Hend).
  pose proof (rep_alloc _ _ Hrep) as Halloc. rewrite used_app in Halloc. cbn in Halloc.
  pose proof (used_bounds _ Hp1). pose proof (used_bounds _ Hp2).
  pose proof (rep_fuel _ _ Hrep) as Hfuel. rewrite length_app in Hfuel.
  cbn [b_size b_free] in *. cbv zeta in *. destruct Hfr as [Hroot Hrpre].
  set (a := after (first_block s) (total pre)) in *.
  assert (in_segment s a = true) as Hsa by (apply in_segment_range; unfold a, after in *; lia).
  destruct (merge_post n post) as [n' post'] eqn:Emp.
  destruct (merge_post_split _ _ _ _ Hp2 Emp) as (tl & Etl & En' & Hut & _).
  unfold seq_deallocate, free_at. rewrite Emp. unfold seq_get_block. seg_consts.
  destruct (Z.eqb_spec (a + 16) 0); [unfold a, after in *; lia|].
  wp_step. eapply wp_ld_next; [done|]. replace (a + 16 - 16) with a by lia.
  wp_step. eapply wp_ld_next; [done|]. wp_step. apply wp_assert; [done|].
  wp_step. apply wp_assert.
  { unfold a. replace (_ + 16) with (after (first_block s) (total pre + 1)) by (unfold after; lia).
    apply aligned_after, Hf. }
  wp_step. eapply wp_ld_size; [done|]. rewrite (u64_small (16 * n)) by (unfold a in *; u64_side).
  wp_step. wp_step. wp_step. apply wp_assert; [apply Z.leb_le; lia|].
  wp_step. wp_step. wp_step. wp_step. wp_step.
  eapply wp_mono.
  { eapply (dealloc_find_ok _ (hd_free (after a n) post root) a pre (first_block s) root);
      try done; [lia| |simpl in *; unfold free_fuel in *; seg_simpl; lia].
    destruct (hd_free_range (after a n) post root Hp2) as [->|?];
      [by left|right; unfold after in *; lia]. }
  intros r s1 [-> ->]. cbv beta iota. wp_step. eapply wp_mono.
  { apply (combine_upper_ok _ a n post n' post'); try done; unfold a, after in *; lia. }
  intros [] s1 (nx1 & sz1 & -> & Hk & Hna & Hsa1). seg_simpl.
  eapply combine_lower_ok; seg_simpl; try done.
  - by rewrite Etl in Hrep.
  - by rewrite u64_small by (unfold in_u64; lia).
Qed.
End ops.
