(* ===== verification/SeqFitAlloc.v ===== *)
(** The sequential-fit algorithm: allocation.

    The first-fit search, [priv_allocate] and the merging of free blocks, as
    operations on the list of blocks. *)

From S2P Require Import Prelude Blocks MathUtil MemAlgo MemAlgoSpec.
From S2P Require Import SeqFit SeqFitInv SeqFitOps.

Local Open Scope u64_scope.

(** ** Adjacent free blocks *)

(** ** The search *)

Definition nofit (n : Z) (bs : list blk) : Prop :=
  Forall (λ b, b_free b = true → b_size b < n) bs.

(** The units of a block for [x] user bytes, header included. *)
Definition units (x : Z) : Z := (x + 15) / 16 + 1.

Lemma units_bounds x : 0 <= x <= 18446744073709551600 → 1 <= units x < 1152921504606846977.
Proof. unfold units. intros. dlia. Qed.

(** Whether a block of [n] units holds [x] user bytes. *)
Lemma units_le x n : 0 <= x → units x <= n ↔ x <= 16 * n - 16.
Proof. unfold units. intros. dlia. Qed.

Section alloc.
Context {L : SegLayout} {LOk : SegLayoutOk}.

(** [b] is a biggest free block of [bs], found at address [a] behind [pre]. *)
Definition biggest_at (fb : Z) (bs : list blk) (pa a sz : Z) : Prop :=
  (a = 0 ∧ sz = 0 ∧ Forall (λ b, b_free b = false) bs) ∨
  (∃ pre post, bs = pre ++ Blk sz true :: post ∧ a = after fb (total pre) ∧
     pa = last_free_of root fb pre ∧ Forall (λ b, b_free b = true → b_size b <= sz) bs).

Lemma biggest_snoc_used fb bs pa a sz b :
  b_free b = false → biggest_at fb bs pa a sz → biggest_at fb (bs ++ [b]) pa a sz.
Proof.
  intros Hb [(? & ? & ?)|(pre & post & -> & ? & ? & Hall)].
  - left. split_and!; [done..|]. by apply Forall_app; auto.
  - right. exists pre, (post ++ [b]). rewrite <- app_assoc. split_and!; try done.
    rewrite app_assoc. apply Forall_app. split; [done|].
    by apply Forall_singleton; congruence.
Qed.

Lemma biggest_snoc_free fb bs pa a sz n :
  1 <= n → biggest_at fb bs pa a sz →
  if sz <? n
  then biggest_at fb (bs ++ [Blk n true]) (last_free_of root fb bs)
         (after fb (total bs)) n
  else biggest_at fb (bs ++ [Blk n true]) pa a sz.
Proof.
  intros Hn Hb. destruct (Z.ltb_spec sz n) as [Hlt|Hge].
  - right. exists bs, []. split_and!; try done. apply Forall_app. split; [|by apply Forall_singleton; simpl; lia].
    destruct Hb as [(? & ? & Hnf)|(pre & post & -> & ? & ? & Hall)].
    + eapply Forall_impl; [done|]. simpl. congruence.
    + eapply Forall_impl; [done|]. simpl. intros x Hx Hfr. specialize (Hx Hfr). lia.
  - destruct Hb as [(? & ? & Hnf)|(pre & post & -> & ? & ? & Hall)]; [lia|].
    right. exists pre, (post ++ [Blk n true]). rewrite <- app_assoc. split_and!; try done.
    rewrite app_assoc. apply Forall_app. split; [done|].
    apply Forall_singleton. simpl. lia.
Qed.

(** The first-fit loop from the blocks [post] on: either it allocates from the
    first free block that is big enough, or there is none and it reports a
    biggest one. *)
Lemma fit_loop_ok n s bs : seg_rep s bs → 1 <= n < 18446744073709551615 →
  ∀ post pre fuel pb b bsz, bs = pre ++ post → nofit n pre →
  biggest_at (first_block s) pre pb b bsz → (length post < fuel)%nat →
  wp (fit_loop fuel n (last_free_of root (first_block s) pre)
        (hd_free (after (first_block s) (total pre)) post root) pb b bsz) s
     (λ r s', (∃ pre sz post, bs = pre ++ Blk sz true :: post ∧ nofit n pre ∧ n <= sz ∧
                 r = Fit (after (first_block s) (total pre) + 16) (16 * cut_units 2 n sz - 16) ∧
                 seg_rep s' (pre ++ cut 2 n sz ++ post) ∧
                 hdr_extra s' = hdr_extra s ∧ hdr_size s' = hdr_size s) ∨
              (nofit n bs ∧ s' = s ∧
                 ∃ pb b bsz, r = NoFit pb b ∧ biggest_at (first_block s) bs pb b bsz)).
Proof.
  intros Hrep Hn. pose proof (rep_facts _ _ Hrep) as Hf.
  induction post as [|[sz fr] post IH]; intros pre fuel pb b bsz -> Hnf Hbig Hfuel.
  - destruct fuel; cbn; rewrite Z.eqb_refl; apply wp_ret; right;
      rewrite app_nil_r; eauto 10.
  - destruct fuel as [|fuel]; [simpl in Hfuel; lia|].
    pose proof (rep_split _ _ _ _ Hrep) as (Hp1 & Hp2 & Hsz & Ht1 & Ht2 & _ & Hs & Hnx & _ & Hend).
    cbv zeta in *. cbn [b_size b_free] in *.
    assert (pre ++ Blk sz fr :: post = (pre ++ [Blk sz fr]) ++ post) as Eapp
      by (by rewrite <- app_assoc).
    assert (after (first_block s) (total (pre ++ [Blk sz fr])) =
            after (after (first_block s) (total pre)) sz) as Eaft
      by (rewrite total_app; unfold after; simpl; lia).
    destruct fr; cbn [hd_free b_free b_size].
    + cbn [fit_loop].
      destruct (Z.eqb_spec (after (first_block s) (total pre)) root); [unfold after in *; lia|].
      wp_step. eapply wp_ld_size; [done|].
      pose proof (biggest_snoc_free _ _ _ _ _ sz Hsz Hbig) as Hbig'.
      destruct (if bsz <? sz then _ else _) as [[pb' bsz'] b'] eqn:Eb.
      assert (biggest_at (first_block s) (pre ++ [Blk sz true]) pb' b' bsz')
        by (destruct (bsz <? sz); by simplify_eq).
      wp_step. apply wp_assert; [apply aligned_after, Hf|]. wp_step.
      eapply wp_mono; [by apply check_and_allocate_ok with (post := post)|].
      intros r s1. cbv beta. destruct (Z.leb_spec n sz) as [Hfit|Hno].
      * intros (-> & Hrep' & E1 & E2). cbv iota. unfold nz.
        destruct (Z.eqb_spec (after (first_block s) (total pre) + 16) 0);
          [unfold after in *; lia|]. cbn [negb].
        wp_step. apply wp_assert.
        { replace (_ + 16) with (after (first_block s) (total pre + 1)) by (unfold after; lia).
          apply aligned_after, Hf. }
        wp_step. left. exists pre, sz, post. done.
      * intros [-> ->]. cbn. wp_step. eapply wp_ld_next; [done|].
        rewrite <- Eaft.
        replace (after (first_block s) (total pre)) with
          (last_free_of root (first_block s) (pre ++ [Blk sz true]))
          by (by rewrite last_free_app).
        apply IH; try done; [|simpl in *; lia].
        apply Forall_app. split; [done|]. apply Forall_singleton; simpl; lia.
    + rewrite <- Eaft.
      replace (last_free_of root (first_block s) pre) with
        (last_free_of root (first_block s) (pre ++ [Blk sz false])) by (by rewrite last_free_app).
      apply IH; try done; [|by apply biggest_snoc_used|simpl in *; lia].
      apply Forall_app. split; [done|]. by apply Forall_singleton.
Qed.

(** What an allocation of at least [limit] and preferably [prefer] bytes does:
    it takes the first block with room for [prefer] bytes, or else a biggest
    block if that has room for [limit] bytes, or else fails. *)
Definition alloc_post (limit prefer : Z) (s : seg) (bs : list blk)
    (p received : Z) (s' : seg) : Prop :=
  (∃ pre sz post, bs = pre ++ Blk sz true :: post ∧
     nofit (units prefer) pre ∧ units prefer <= sz ∧
     p = after (first_block s) (total pre) + 16 ∧
     received = 16 * cut_units 2 (units prefer) sz - 16 ∧
     seg_rep s' (pre ++ cut 2 (units prefer) sz ++ post)) ∨
  (nofit (units prefer) bs ∧ ∃ pre sz post, bs = pre ++ Blk sz true :: post ∧
     Forall (λ b, b_free b = true → b_size b <= sz) bs ∧ units limit <= sz ∧
     p = after (first_block s) (total pre) + 16 ∧ received = 16 * sz - 16 ∧
     seg_rep s' (pre ++ cut 2 sz sz ++ post)) ∨
  (nofit (units limit) bs ∧ p = 0 ∧ received = 0 ∧ s' = s).

Lemma priv_allocate_new_ok aligned limit prefer align s bs :
  seg_rep s bs → 0 <= limit <= prefer → prefer <= 18446744073709551600 → align <= 16 →
  wp (priv_allocate_with aligned cmd_allocate_new limit prefer 0 align) s
     (λ r s', alloc_post limit prefer s bs (fst (fst r)) (snd (fst r)) s' ∧ snd r = 0 ∧
              hdr_extra s' = hdr_extra s ∧ hdr_size s' = hdr_size s).
Proof.
  intros Hrep Hl Hp Halign. pose proof (rep_facts _ _ Hrep) as Hf.
  pose proof (units_bounds prefer ltac:(lia)) as Hu.
  unfold priv_allocate_with. seg_consts. cbn.
  replace (16 <? (if align <? 16 then 16 else align)) with false
    by (symmetry; apply Z.ltb_ge; destruct (Z.ltb_spec align 16); lia).
  destruct (Z.ltb_spec prefer limit); [lia|].
  wp_step. destruct (rep_free _ _ Hrep) as [Hroot _]. eapply wp_ld_next; [done|].
  wp_step. wp_step. wp_step. wp_step. wp_step.
  rewrite rounded_units by lia. fold (units prefer). rewrite (u64_small (units prefer)) by u64_side.
  pose proof (fit_loop_ok (units prefer) s bs Hrep ltac:(lia) bs [] (free_fuel s) 0 0 0) as Hloop.
  replace (after (first_block s) (total [])) with (first_block s) in Hloop by (unfold after; simpl; lia).
  eapply wp_mono.
  { apply Hloop; [done| | |by apply rep_fuel].
    - by apply Forall_nil.
    - left. split_and!; [done..|]. by apply Forall_nil. }
  clear Hloop.
  intros r s1 [(pre & sz & post & -> & Hnf & Hsz & -> & Hrep' & E1 & E2)
              |(Hnf & -> & pb & b & bsz & -> & Hbig)]; cbv beta iota.
  { wp_step. split_and!; [|done..]. left. exists pre, sz, post. done. }
  destruct Hbig as [(-> & _ & Hall)|(pre & post & -> & -> & -> & Hall)].
  - apply wp_ret. split_and!; [|done..]. right; right. split_and!; [|done..].
    eapply Forall_impl; [done|]. simpl. congruence.
  - pose proof (rep_split _ _ _ _ Hrep) as (_ & _ & Hsz & Ht1 & Ht2 & _ & Hs & _ & _ & Hend).
    cbv zeta in *. cbn [b_size b_free] in *.
    unfold nz. destruct (Z.eqb_spec (after (first_block s) (total pre)) 0);
      [unfold after in *; lia|]. cbn [negb].
    wp_step. eapply wp_ld_size; [done|]. rewrite rounded_units by lia. fold (units limit).
    pose proof (units_bounds limit ltac:(lia)).
    rewrite (u64_small (units limit)) by u64_side.
    destruct (Z.ltb_spec bsz (units limit)) as [Hlt|Hge].
    + wp_step. split_and!; [|done..]. right; right. split_and!; [|done..].
      eapply Forall_impl; [done|]. simpl. intros x Hx Hfr. specialize (Hx Hfr). lia.
    + wp_step. eapply wp_mono; [by apply check_and_allocate_ok with (post := post);
        [|unfold after in *; lia]|].
      cbv beta. rewrite Z.leb_refl. intros r s1 (-> & Hrep' & E1 & E2). cbv iota.
      wp_step. apply wp_assert; [unfold nz; apply negb_true_iff, Z.eqb_neq; unfold after in *; lia|].
      wp_step. apply wp_assert.
      { replace (_ + 16) with (after (first_block s) (total pre + 1)) by (unfold after; lia).
        apply aligned_after, Hf. }
      wp_step. split_and!; [|done..]. right; left. split; [done|]. exists pre, bsz, post.
      split_and!; try done. simpl. unfold cut_units. by destruct (_ <=? _).
Qed.
End alloc.
