(* ===== verification/SeqFitResize.v ===== *)
(** The sequential-fit algorithm: resizing.

    Shrinking and expanding a buffer in place, splitting an allocated block,
    and the over-aligned allocation built from them. *)

From S2P Require Import Prelude Blocks MathUtil MemAlgo MemAlgoSpec.
From S2P Require Import SeqFit SeqFitInv SeqFitOps.
From S2P Require Import SeqFitAlloc.

Local Open Scope u64_scope.

Lemma land_size_mask x : in_u64 x → Z.land x u64_max = x.
Proof.
  intros Hx. change u64_max with (Z.ones 64). rewrite Z.land_ones by lia.
  by apply u64_small.
Qed.

Lemma size_insert_ge (m : gmap Z Z) k v : (size m <= size (<[k := v]> m))%nat.
Proof.
  destruct (m !! k) eqn:E; [rewrite map_size_insert_Some by eauto|rewrite map_size_insert_None by done];
    lia.
Qed.

Section resize.
Context {L : SegLayout} {LOk : SegLayoutOk}.

(** Writing the headers that split an allocated block in two allocated ones. *)
Lemma rep_split_used s s' pre n k post :
  seg_rep s (pre ++ Blk n false :: post) → 1 <= k < n →
  hdr_extra s' = hdr_extra s → hdr_size s' = hdr_size s →
  hdr_allocated s' = hdr_allocated s →
  let a := after (first_block s) (total pre) in
  (∀ j, j ≠ a → j ≠ after a k → m_next s' !! j = m_next s !! j ∧ m_size s' !! j = m_size s !! j) →
  m_size s' !! a = Some k → m_next s' !! a = Some 0 →
  m_size s' !! after a k = Some (n - k) → m_next s' !! after a k = Some 0 →
  seg_rep s' (pre ++ Blk k false :: Blk (n - k) false :: post).
Proof.
  intros Hrep Hk E1 E2 E3. cbv zeta. intros Hj Hs1 Hn1 Hs2 Hn2.
  pose proof (rep_facts _ _ Hrep) as Hf.
  pose proof (rep_split _ _ _ _ Hrep) as (_ & _ & Hsz & Ht1 & Ht2 & _ & _ & _ & _ & _).
  apply (rep_splice_same s s' pre [Blk n false] [Blk k false; Blk (n - k) false] post);
    try done; cbn; rewrite ?Z.add_0_r.
  - pos_tac.
  - lia.
  - intros j Hr. apply Hj; unfold after in *; lia.
  - intros j Hr. apply Hj; unfold after in *; lia.
  - lia.
Qed.

(** *** Expansion

    The checks that a neighbour lies in the segment divide distances from
    [this] by the alignment, so they need an aligned [this]. *)
Definition this_aligned : Prop := this_ptr mod 16 = 0.

Lemma next_block_ok s pre n post :
  this_aligned → seg_rep s (pre ++ Blk n false :: post) →
  let a := after (first_block s) (total pre) in
  wp (priv_next_block_if_free a) s
     (λ r s', s' = s ∧ r = if starts_free post then after a n else 0).
Proof.
  intros Hthis Hrep. cbv zeta. unfold this_aligned in Hthis.
  pose proof (rep_facts _ _ Hrep) as Hf. pose proof (rep_tile _ _ Hrep) as Htile.
  pose proof (rep_split _ _ _ _ Hrep) as (_ & Hp2 & Hsz & Ht1 & Ht2 & _ & Hs & _ & Hr & Hend).
  cbv zeta in *. cbn [b_size b_free] in *. rewrite total_app in Htile. cbn in Htile.
  unfold seg_end in Htile. remember (after (first_block s) (total pre)) as a eqn:Ea.
  unfold priv_next_block_if_free. seg_consts.
  wp_step. eapply wp_ld_size; [done|]. wp_step. wp_step.
  assert (0 < a) by (unfold after in *; lia). u64_simpl.
  replace (a + n * 16) with (after a n) by (unfold after; lia). u64_simpl.
  destruct (Z.leb_spec (hdr_size s / 16) ((after a n - this_ptr) / 16)) as [Hle|Hgt].
  - wp_step. split; [done|]. destruct post as [|[m fr] post]; [done|].
    apply pos_cons in Hp2 as [Hm Hp2]. pose proof (pos_total _ Hp2). cbn in *.
    exfalso. unfold after in *. dlia.
  - destruct post as [|[m fr] post].
    { exfalso. cbn in *. unfold after in *. dlia. }
    destruct Hr as (_ & Hn & _). cbn in Hn. apply pos_cons in Hp2 as [Hm Hp2].
    wp_step. eapply wp_ld_next; [done|]. cbn. destruct fr.
    + pose proof (hd_free_range (after (after a n) m) post root Hp2).
      destruct (Z.eqb_spec (hd_free (after (after a n) m) post root) 0);
        [cbn in *; unfold after in *; lia|by wp_step].
    + by apply wp_ret.
Qed.

Lemma find_prev_ok s nxt mid : ∀ a p fuel,
  pos_blocks mid → reps (m_next s) (m_size s) a mid nxt →
  m_next s !! p = Some (hd_free a mid nxt) → after a (total mid) <= nxt →
  (length mid <= fuel)%nat →
  wp (find_prev_of fuel nxt p) s (λ r s', r = last_free_of p a mid ∧ s' = s).
Proof.
  induction mid as [|b mid IH]; intros a p fuel Hp Hr Hn Hnxt Hf.
  - destruct fuel; cbn [find_prev_of last_free_of]; wp_step;
      (eapply wp_ld_next; [done|]); cbn [hd_free]; rewrite Z.eqb_refl; by wp_step.
  - apply pos_cons in Hp as [Hb Hp]. destruct Hr as (Hs & Hn' & Hr).
    pose proof (pos_total _ Hp). cbn [hd_free total] in *. simpl in Hf.
    destruct fuel as [|fuel]; [lia|]. cbn [last_free_of].
    destruct (b_free b).
    + cbn [find_prev_of]. wp_step. eapply wp_ld_next; [done|].
      destruct (Z.eqb_spec a nxt); [unfold after in *; lia|].
      apply IH; try done; unfold after in *; lia.
    + apply IH; try done; unfold after in *; lia.
Qed.

(** What [priv_expand] does to a block of [n] units before [post]: the truth
    value, the received size and the blocks that replace the two. *)
Definition expand_spec (n min_size prefer : Z) (post : list blk)
  : bool * Z * option (list blk) :=
  let mu := ceil16 min_size in
  let pu := ceil16 prefer in
  if min_size <? 16 * n - 16 then (true, 16 * n - 16, None)
  else if pu <? mu then (false, 16 * n - 16, None)
  else if mu <=? n - 1 then (true, 16 * n - 16, None)
  else match post with
  | Blk m true :: post' =>
      if n + m <? mu + 1 then (false, 16 * (n + m) - 16, None)
      else let k := Z.min (pu + 1) (n + m) in
           (true, 16 * cut_units 2 k (n + m) - 16, Some (cut 2 k (n + m) ++ post'))
  | _ => (false, 16 * n - 16, None)
  end.

(** The merged block put into the free list in place of the free one. *)
Lemma expand_merge_ok s pre n m post :
  seg_rep s (pre ++ Blk n false :: Blk m true :: post) →
  let a := after (first_block s) (total pre) in
  let p := last_free_of root (first_block s) pre in
  seg_rep (set_m_next <[p := a]>
            (set_allocated (λ x, x -! (n * 16))
              (set_m_size <[a := n + m]>
                (set_m_next <[a := hd_free (after (after a n) m) post root]> s))))
          (pre ++ Blk (n + m) true :: post).
Proof.
  intros Hrep. cbv zeta. pose proof (rep_facts _ _ Hrep) as Hf.
  pose proof (rep_alloc_bound _ _ Hrep) as Hal. pose proof (rep_alloc _ _ Hrep) as Halloc.
  pose proof (rep_split _ _ _ _ Hrep) as (Hp1 & Hp2 & Hsz & Ht1 & Ht2 & _ & _ & _ & Hr & Hend).
  pose proof (last_free_lt _ _ _ Hrep) as (_ & Hlf & _). cbv zeta in *.
  apply pos_cons in Hp2 as [Hm Hp2]. pose proof (pos_total _ Hp2).
  pose proof (used_bounds _ Hp1). pose proof (used_bounds _ Hp2).
  rewrite used_app in Halloc. cbn in Halloc, Hend, Hm, Hsz.
  assert (0 < after (first_block s) (total pre)) by (unfold after in *; lia).
  apply (rep_splice s _ pre [Blk n false; Blk m true] [Blk (n + m) true] post); seg_simpl;
    try done; cbn; rewrite ?Z.add_0_r.
  - pos_tac.
  - done.
  - intros k Hk. rewrite !lookup_insert. case_decide; [done|]. by case_decide; [lia|].
  - intros k Hk. by ins.
  - intros k Hk. by ins.
  - ins. replace (after (after (after (first_block s) (total pre)) n) m) with
      (after (after (first_block s) (total pre)) (n + m)) by (unfold after; lia). done.
  - u64_simpl. lia.
Qed.

Lemma expand_ok s pre n post min_size prefer :
  this_aligned → seg_rep s (pre ++ Blk n false :: post) →
  0 <= min_size <= 18446744073709551600 → 0 <= prefer <= 18446744073709551600 →
  wp (priv_expand (after (first_block s) (total pre) + 16) min_size prefer) s
     (λ r s', hdr_extra s' = hdr_extra s ∧ hdr_size s' = hdr_size s ∧
        let '(ok, received, bs') := expand_spec n min_size prefer post in
        r = (ok, received) ∧
        match bs' with None => s' = s | Some l => seg_rep s' (pre ++ l) end).
Proof.
  intros Hthis Hrep Hmin Hpref.
  pose proof (rep_facts _ _ Hrep) as Hf.
  pose proof (rep_split _ _ _ _ Hrep) as (Hp1 & Hp2 & Hsz & Ht1 & Ht2 & [Hroot Hrpre] & Hs & Hnx & Hr & Hend).
  pose proof (next_block_ok _ _ _ _ Hthis Hrep) as Hnext.
  pose proof (rep_fuel _ _ Hrep) as Hfuel. rewrite length_app in Hfuel.
  pose proof (last_free_lt _ _ _ Hrep) as (_ & Hlf & Hseg).
  cbv zeta in *. cbn [b_size b_free] in *.
  assert (0 < after (first_block s) (total pre)) by (unfold after in *; lia).
  assert (0 <= ceil16 prefer < 1152921504606846976) as Hpu by (unfold ceil16; dlia).
  assert (0 <= ceil16 min_size < 1152921504606846976) as Hmu by (unfold ceil16; dlia).
  unfold priv_expand, seq_size, expand_spec, seq_get_block. seg_consts.
  replace (after (first_block s) (total pre) + 16 - 16) with (after (first_block s) (total pre)) by lia.
  wp_step. wp_step. eapply wp_ld_size; [done|]. wp_step. rewrite user_bytes_val by (unfold after in *; lia).
  destruct (Z.ltb_spec min_size (16 * n - 16)).
  { wp_step. split_and!; try done. unfold nz. destruct (Z.eqb_spec (after (first_block s) (total pre) + 16) 0); [lia|done]. }
  wp_step. eapply wp_ld_size; [done|]. wp_step. eapply wp_ld_next; [done|].
  wp_step. apply wp_assert; [done|]. rewrite !rounded_units by lia.
  fold (ceil16 min_size) (ceil16 prefer). u64_simpl.
  replace (n * 16 - 16) with (16 * n - 16) by lia.
  destruct (Z.ltb_spec (ceil16 prefer) (ceil16 min_size)); [by wp_step|].
  destruct (Z.leb_spec (ceil16 min_size) (n - 1)); [by wp_step|].
  wp_step. eapply wp_mono; [apply Hnext|]. intros r s1 [-> ->]. clear Hnext.
  destruct post as [|[m []] post]; cbn [starts_free b_free]; try by apply wp_ret.
  destruct Hr as (Hms & Hmn & _). apply pos_cons in Hp2 as [Hm Hp2]. cbn [b_size b_free total] in *.
  pose proof (pos_total _ Hp2).
  remember (after (first_block s) (total pre)) as a eqn:Ea.
  assert (in_segment s a = true) as Hsa by (apply in_segment_range; unfold after in *; lia).
  destruct (Z.eqb_spec (after a n) 0); [unfold after in *; lia|].
  wp_step. eapply wp_ld_size; [done|]. u64_simpl.
  replace ((n + m) * 16 - 16) with (16 * (n + m) - 16) by lia.
  destruct (Z.ltb_spec (n + m) (ceil16 min_size + 1)); [by wp_step|].
  wp_step. eapply wp_ld_next; [done|]. wp_step. apply wp_st_next; [done|].
  wp_step. apply wp_st_size; [done|]. wp_step. wp_step. wp_step.
  eapply wp_mono.
  { apply (find_prev_ok _ (after a n) pre (first_block s) root); seg_simpl; try done.
    - apply reps_out with (m_next s) (m_size s); [done| |by rewrite Ea in *].
      rewrite <- Ea. intros k Hk _. by ins.
    - ins. by rewrite Hroot.
    - rewrite <- Ea. unfold after. lia.
    - unfold free_fuel in *. seg_simpl. pose proof (size_insert_ge (m_next s) a
        (hd_free (after (after a n) m) post root)). simpl in Hfuel. lia. }
  cbv beta. intros r s1 [-> ->].
  wp_step. wp_step. wp_step. apply wp_st_next; [done|].
  pose proof (expand_merge_ok _ _ _ _ _ Hrep) as Hrep1. cbv zeta in Hrep1. rewrite <- Ea in Hrep1.
  set (k := if ceil16 prefer + 1 <? n + m then ceil16 prefer + 1 else n + m).
  assert (Z.min (ceil16 prefer + 1) (n + m) = k) as -> by (unfold k; ztest (ceil16 prefer + 1) (n + m); lia).
  assert (1 <= k <= n + m) by (unfold k; ztest (ceil16 prefer + 1) (n + m); lia).
  pose proof (λ r0, check_and_allocate_ok _ pre (n + m) post k r0 Hrep1) as Hca. cbv zeta in Hca.
  change (first_block (set_m_next _ _)) with (first_block s) in Hca. rewrite <- Ea in Hca.
  wp_step. eapply wp_mono; [apply Hca; unfold after in *; lia|].
  cbv beta. destruct (Z.leb_spec k (n + m)); [|lia].
  intros r s1 (-> & Hrep2 & E1 & E2). cbv iota.
  destruct (Z.eqb_spec (a + 16) 0); [lia|]. by wp_step.
Qed.

(** *** Framing

    A deallocation reads and writes the size field of three blocks only; it
    runs the same when the size field of any other block is different. *)

Definition upd_size (x v : Z) (s : seg) : seg := set_m_size <[x := v]> s.

Definition commutes {A} (x v : Z) (m : M seg A) (s : seg) : Prop :=
  m (upd_size x v s) =
  match m s with Ret (a, s') => Ret (a, upd_size x v s') | Fault e => Fault e end.

Lemma commutes_bind {A B} x v (m : M seg A) (f : A → M seg B) s :
  commutes x v m s →
  (∀ a s', m s = Ret (a, s') → commutes x v (f a) s') → commutes x v (m ≫= f) s.
Proof.
  unfold commutes, mbind, M_bind. intros -> Hf.
  destruct (m s) as [[a s']|]; [by apply Hf|done].
Qed.

Lemma commutes_ret {A} x v (a : A) s : commutes x v (mret a) s.
Proof. done. Qed.
Lemma commutes_throw {A} x v e s : commutes x v (throw (A := A) e) s.
Proof. done. Qed.
Lemma commutes_assert x v b s : commutes x v (boost_assert b) s.
Proof. by destruct b. Qed.
Lemma assert_state (b : bool) (s s' : seg) u : boost_assert b s = Ret (u, s') → s' = s.
Proof. destruct b; [by intros [= _ ->]|done]. Qed.
Lemma commutes_ld_next x v a s : commutes x v (ld_next a) s.
Proof. unfold commutes, ld_next. cbn. by destruct (m_next s !! a). Qed.
Lemma commutes_ld_size x v a s : a ≠ x → commutes x v (ld_size a) s.
Proof.
  intros Hne. unfold commutes, ld_size. cbn. rewrite lookup_insert_ne by done.
  by destruct (m_size s !! a).
Qed.
Lemma commutes_st_next x v a w s : commutes x v (st_next a w) s.
Proof.
  unfold commutes, st_next. change (in_segment (upd_size x v s) a) with (in_segment s a).
  by destruct (in_segment s a).
Qed.
Lemma commutes_st_size x v a w s : a ≠ x → commutes x v (st_size a w) s.
Proof.
  intros Hne. unfold commutes, st_size. change (in_segment (upd_size x v s) a) with (in_segment s a).
  destruct (in_segment s a); [|done]. unfold upd_size, set_m_size. cbn. by rewrite insert_insert_ne.
Qed.

Lemma commutes_find x v fuel block : ∀ prev pos s, commutes x v (dealloc_find fuel block prev pos) s.
Proof.
  induction fuel as [|fuel IH]; intros prev pos s; cbn [dealloc_find];
    destruct (negb (pos =? root) && (pos <? block)); try done.
  apply commutes_bind; [apply commutes_ld_next|]. intros. apply IH.
Qed.

Lemma commutes_combine x v a b s :
  a ≠ x → b ≠ x → commutes x v (combine_upper a b) s ∧ commutes x v (combine_lower a b) s.
Proof.
  intros Ha Hb. unfold combine_upper, combine_lower.
  split; (apply commutes_bind; [by apply commutes_ld_size|]); intros n s1 _;
    (match goal with |- context [if ?b then _ else _] => destruct b end;
     [|apply commutes_st_next]);
    repeat first [ apply commutes_bind; [|intros ? ? _]
                 | by apply commutes_ld_size | by apply commutes_st_size
                 | apply commutes_ld_next | apply commutes_st_next ].
Qed.

(** Freeing a block while the size field of the allocated block behind [pre]
    holds another value [v]. *)
Lemma deallocate_framed_ok s pre f k n post v :
  seg_rep s (pre ++ Blk f false :: Blk k false :: Blk n false :: post) →
  let x := after (first_block s) (total pre) in
  wp (seq_deallocate (after (after x f) k + 16)) (upd_size x v s)
     (λ _ s', ∃ s2, s' = upd_size x v s2 ∧
        seg_rep s2 (free_at (pre ++ [Blk f false; Blk k false]) n post) ∧
        hdr_extra s2 = hdr_extra s ∧ hdr_size s2 = hdr_size s).
Proof.
  intros Hrep. cbv zeta. set (x := after (first_block s) (total pre)).
  pose proof (rep_facts _ _ Hrep) as Hf. pose proof (rep_fuel _ _ Hrep) as Hfuel.
  pose proof (last_free_lt _ _ _ Hrep) as (_ & Hlf & _).
  assert (seg_rep s ((pre ++ [Blk f false; Blk k false]) ++ Blk n false :: post)) as Hrep'
    by (by rewrite <- app_assoc).
  pose proof (rep_split _ _ _ _ Hrep') as (Hp1 & Hp2 & Hn & Ht1 & Ht2 & [Hroot Hr] & Hs & Hnx & _ & Hend).
  rewrite pos_app, !pos_cons in Hp1. destruct Hp1 as (Hp1 & Hf1 & Hk1 & _). pose proof (pos_total _ Hp1).
  assert (after (first_block s) (total (pre ++ [Blk f false; Blk k false])) = after (after x f) k)
    as Ea by (rewrite total_app; unfold x, after; simpl; lia).
  pose proof (deallocate_ok _ _ _ _ Hrep') as Hok. rewrite Ea in *. cbn [b_size b_free] in *.
  apply wp_run in Hok as (u & s2 & Erun & Hrep2 & E1 & E2).
  enough (commutes x v (seq_deallocate (after (after x f) k + 16)) s) as Hc.
  { unfold wp. rewrite Hc, Erun. eauto. }
  assert (0 < x) by (unfold x, after in *; lia).
  unfold seq_deallocate, seq_get_block. seg_consts.
  replace (after (after x f) k + 16 - 16) with (after (after x f) k) by lia.
  destruct (_ =? 0); [done|].
  apply commutes_bind; [apply commutes_ld_next|]. intros pos s1 Hpos.
  unfold ld_next in Hpos. rewrite Hroot in Hpos. injection Hpos as <- <-.
  apply commutes_bind; [apply commutes_ld_next|]. intros nx s1 Hn1.
  unfold ld_next in Hn1. rewrite Hnx in Hn1. injection Hn1 as <- <-.
  do 2 (apply commutes_bind; [apply commutes_assert|]; intros ? ? ->%assert_state).
  apply commutes_bind; [apply commutes_ld_size; simpl in *; unfold after; lia|].
  intros bsz s1 Hb. unfold ld_size in Hb. rewrite Hs in Hb. injection Hb as <- <-.
  apply commutes_bind; [done|]. intros al s1 [= <- <-].
  apply commutes_bind; [apply commutes_assert|]. intros ? ? ->%assert_state.
  apply commutes_bind; [done|]. intros [] s1 [= <-].
  apply commutes_bind; [done|]. intros fuel s1 [= <- <-].
  apply commutes_bind; [apply commutes_find|]. intros [prev pos] s3 Hfind.
  assert (prev = last_free_of root (first_block s) pre ∧
          pos = hd_free (after (after (after x f) k) n) post root) as [-> ->].
  { match type of Hfind with ?m ?st = _ => assert (wp m st (λ r _, r =
      (last_free_of root (first_block s) (pre ++ [Blk f false; Blk k false]),
       hd_free (after (after (after x f) k) n) post root))) as Hd end;
    [|unfold wp in Hd; rewrite Hfind, last_free_app in Hd; by injection Hd as -> ->].
    eapply wp_mono; [apply dealloc_find_ok|by intros ? ? [-> _]].
    - rewrite pos_app. split; [done|]. pos_tac.
    - done.
    - lia.
    - done.
    - destruct (hd_free_range (after (after (after x f) k) n) post root Hp2) as [->|?];
        [by left|right; unfold after in *; lia].
    - rewrite !length_app in *. unfold free_fuel in *. simpl in *. lia. }
  apply commutes_bind; [apply commutes_combine|intros; apply commutes_combine];
    simpl in *; unfold after in *; try lia.
  fold x in Hlf.
  destruct (hd_free_range (x + 16 * f + 16 * k + 16 * n) post root Hp2) as [->|?];
    unfold x in *; lia.
Qed.

(** *** Over-aligned allocation *)

End resize.
