(* ===== verification/SeqFitHeap.v ===== *)
(** The sequential-fit algorithm keeps the promises of [BlockAlgoOk].

    With this instance the proofs of [memory_algorithm_common] apply to it, and
    the heap of a segment is the one of [MemAlgoSpec]. *)

From S2P Require Import Prelude Blocks MathUtil MemAlgo MemAlgoSpec MemAlgoAlign.
From S2P Require Import SeqFit SeqFitInv SeqFitOps.
From S2P Require Import SeqFitAlloc SeqFitResize.

Local Open Scope u64_scope.

Section instance.
Context {L : SegLayout} {LOk : SegLayoutOk}.

(** The memory in which the region is an allocated block of [c] units. *)
Definition close_region (a c : Z) (s : seg) : seg :=
  set_m_next <[a := 0]> (set_m_size <[a := c]> s).

Definition seq_region (s : seg) (pre : list blk) (c : Z) (post : list blk)
    (S K : gmap Z Z) : Prop :=
  let a := after (first_block s) (total pre) in
  seg_rep (close_region a c s) (pre ++ Blk c false :: post) ∧
  (∀ x n, a <= x < after a c → S !! x = Some n → m_size s !! x = Some n) ∧
  (∀ x n, a <= x < after a c → K !! x = Some n → m_next s !! x = Some 0).

Definition same_segment (s s' : seg) : Prop :=
  hdr_extra s' = hdr_extra s ∧ hdr_size s' = hdr_size s.

#[local] Instance same_segment_preorder : PreOrder same_segment.
Proof. unfold same_segment. split; [done|]. intros s1 s2 s3 [-> ->] [-> ->]. done. Qed.

Lemma first_block_eq s s' : hdr_extra s' = hdr_extra s → first_block s' = first_block s.
Proof. unfold first_block. by intros ->. Qed.

(** Whatever is written into the buffer of a block, the blocks stay. *)
Lemma rep_interior s s' pre n post :
  seg_rep s (pre ++ Blk n false :: post) → same_segment s s' → hdr_allocated s' = hdr_allocated s →
  let a := after (first_block s) (total pre) in
  (∀ k, k <= a ∨ after a n <= k → m_next s' !! k = m_next s !! k ∧ m_size s' !! k = m_size s !! k) →
  seg_rep s' (pre ++ Blk n false :: post).
Proof.
  intros Hrep [E1 E2] E3. cbv zeta. intros Hk. pose proof (rep_facts _ _ Hrep) as Hf.
  pose proof (rep_split _ _ _ _ Hrep) as (Hp1 & Hp2 & Hn & Ht1 & Ht2 & _ & Hs & Hnx & _). cbn in Hn, Hs, Hnx.
  apply (rep_splice_same s _ pre [Blk n false] [Blk n false] post); try done; cbn; rewrite ?Z.add_0_r.
  - pos_tac.
  - intros k Hr. apply Hk. unfold after in *; lia.
  - intros k Hr. apply Hk. unfold after in *; lia.
  - destruct (Hk (after (first_block s) (total pre))) as [-> ->]; [lia|done].
  - lia.
Qed.

(** A write inside of the region. *)
Lemma region_write s s' pre c post S K :
  seq_region s pre c post S K → same_segment s s' → hdr_allocated s' = hdr_allocated s →
  let a := after (first_block s) (total pre) in
  (∀ k, k < a ∨ after a c <= k → m_next s' !! k = m_next s !! k ∧ m_size s' !! k = m_size s !! k) →
  seg_rep (close_region a c s') (pre ++ Blk c false :: post).
Proof.
  intros [Hrep _] [E1 E2] E3. cbv zeta. intros Hk.
  pose proof (rep_split _ _ _ _ Hrep) as (_ & _ & Hc & _). cbn in Hc.
  eapply rep_interior; [exact Hrep|done|done|]. unfold close_region. cbn.
  change (first_block (set_m_next _ _)) with (first_block s).
  intros k Hr. destruct (decide (k = after (first_block s) (total pre))) as [->|Hne].
  - by rewrite !lookup_insert_eq.
  - rewrite !lookup_insert_ne by done. apply Hk. unfold after in *. lia.
Qed.

Lemma close_id a c s : m_size s !! a = Some c → m_next s !! a = Some 0 → close_region a c s = s.
Proof. destruct s. unfold close_region, set_m_next, set_m_size. cbn. intros. by rewrite !insert_id. Qed.

Lemma seq_region_bounds s pre c post S K :
  seq_region s pre c post S K →
  first_block s mod 16 = 0 ∧ 0 < first_block s ∧
  after (first_block s) (total pre + c + total post) < 9223372036854775808 ∧ 1 <= c ∧
  pos_blocks pre ∧ pos_blocks post ∧ this_ptr + sizeof_impl <= first_block s ∧
  after (first_block s) (total pre + c + total post) <= this_ptr + hdr_size s ∧
  0 <= total pre ∧ 0 <= total post.
Proof.
  intros [Hrep _]. pose proof (rep_facts _ _ Hrep) as Hf.
  pose proof (rep_split _ _ _ _ Hrep) as (Hp1 & Hp2 & Hn & Ht1 & Ht2 & _ & _ & _ & _ & Hend).
  change (first_block (close_region _ _ _)) with (first_block s) in *.
  cbn in *. unfold after in *. split_and!; try done; try lia; tauto.
Qed.

(** The first and the last part of a region become blocks. *)
Lemma seq_region_split s pre c post S K k :
  seq_region s pre c post S K → 1 <= k < c →
  let a := after (first_block s) (total pre) in
  (∀ s', same_segment s s' → hdr_allocated s' = hdr_allocated s →
     (∀ j, j ≠ a → j ≠ after a k → m_next s' !! j = m_next s !! j ∧ m_size s' !! j = m_size s !! j) →
     m_size s' !! a = Some k → m_next s' !! a = Some 0 →
     m_size s' !! after a k = Some (c - k) → m_next s' !! after a k = Some 0 →
     seg_rep s' (pre ++ Blk k false :: Blk (c - k) false :: post)).
Proof.
  intros [Hrep _] Hk a s' [E1 E2] E3 Hj H1 H2 H3 H4.
  eapply rep_split_used; [exact Hrep|done|done|done|done|..]; try done.
  change (first_block (close_region _ _ _)) with (first_block s). fold a.
  unfold close_region. cbn. intros j Hj1 Hj2. fold a. rewrite !lookup_insert_ne by done. by apply Hj.
Qed.

#[local] Obligation Tactic := idtac.

#[export] Program Instance seq_algo_ok : BlockAlgoOk seg := {
  base := first_block;
  frame := same_segment;
  rep := seg_rep;
  region := seq_region
}.
Next Obligation. intros s s' [E _]. by apply first_block_eq. Qed.
Next Obligation. cbn. seg_consts. done. Qed.
Next Obligation. intros x Hx. apply land_size_mask. unfold in_u64. lia. Qed.
Next Obligation. done. Qed.
Next Obligation. done. Qed.
Next Obligation.
  intros x Hx. cbn. unfold seq_get_total_units. seg_consts. rewrite rounded_units by lia.
  assert (0 <= (x + 15) / 16 <= 576460752303423488 ∧ x <= 16 * ((x + 15) / 16)) as Hu by dlia.
  destruct (Z.eqb_spec ((x + 15) / 16) 0) as [E|E]; rewrite ?E; u64_simpl; unfold capacity; lia.
Qed.
Next Obligation.
  intros s bs Hrep. pose proof (rep_facts _ _ Hrep) as Hf. pose proof (rep_pos _ _ Hrep).
  split_and!; try done; tauto || lia.
Qed.
Next Obligation.
  intros s pre n post Hrep. pose proof (rep_split _ _ _ _ Hrep) as (_ & _ & _ & _ & _ & _ & _ & Hnx & _).
  cbn in *. unfold seq_is_allocated_block. wp_step. eapply wp_ld_next; [done|]. by wp_step.
Qed.
Next Obligation. intros s pre n post Hrep. eapply wp_mono; [by apply deallocate_ok|]. by intros ? ? (? & ? & ?). Qed.
Next Obligation.
  intros s pre c post S K HR. destruct (seq_region_bounds _ _ _ _ _ _ HR) as (? & ? & ? & ? & ? & ? & _).
  split_and!; try done.
Qed.
Next Obligation.
  intros s pre c post Hrep. pose proof (rep_split _ _ _ _ Hrep) as (_ & _ & _ & _ & _ & _ & Hs & Hnx & _).
  cbn in *. unfold seq_region. rewrite close_id by done. split_and!; [done|..];
    intros x n _; rewrite lookup_singleton; case_decide; [subst|done|subst|done]; intros [= ->]; done.
Qed.
Next Obligation.
  cbn. intros s pre c post S K HR HSa HKa. pose proof HR as (Hrep & HS & HK).
  destruct (seq_region_bounds _ _ _ _ _ _ HR) as (_ & _ & _ & Hc & _).
  rewrite close_id in Hrep; [done|apply (HS _ c)|apply (HK _ c)]; try done; unfold after; lia.
Qed.
Next Obligation.
  cbn. intros s pre k c post S K HR Hk Hck HSa HKa. seg_consts.
  pose proof HR as (Hrep & HS & HK). unfold seq_region.
  assert (after (first_block s) (total (pre ++ [Blk k false])) =
          after (after (first_block s) (total pre)) k) as -> by (rewrite total_app, after_after; cbn; f_equal; lia).
  set (a := after (first_block s) (total pre)) in *. split_and!.
  - rewrite <- app_assoc. eapply seq_region_split; [exact HR|lia|done|done|..]; unfold close_region; cbn; fold a.
    + intros j Hj1 Hj2. by rewrite !lookup_insert_ne.
    + ins. apply (HS _ k); [unfold after; lia|done].
    + ins. apply (HK _ k); [unfold after; lia|done].
    + by ins.
    + by ins.
  - intros x n Hx. apply HS. unfold after in *; lia.
  - intros x n Hx. apply HK. unfold after in *; lia.
Qed.
Next Obligation.
  cbn. intros s pre f c post S K HR Hf Hc HSa HKa. seg_consts.
  pose proof HR as (Hrep & HS & HK). unfold seq_region. rewrite <- after_after in *.
  set (a := after (first_block s) (total pre)) in *. split_and!.
  - eapply seq_region_split; [exact HR|lia|done|done|..]; unfold close_region; cbn; fold a.
    + intros j Hj1 Hj2. by rewrite !lookup_insert_ne.
    + by ins.
    + by ins.
    + ins. apply (HS _ (c - f)); [unfold after; lia|done].
    + ins. apply (HK _ (c - f)); [unfold after; lia|done].
  - intros x n Hx. apply HS. unfold after in *; lia.
  - intros x n Hx. apply HK. unfold after in *; lia.
Qed.
Next Obligation.
  cbn. intros s pre c post S K j n (_ & HS & _) Hj HSx. eapply wp_ld_size; [|done].
  apply HS; [unfold after; lia|done].
Qed.
Next Obligation.
  cbn. intros s pre c post S K j v HR Hj Hv.
  destruct (seq_region_bounds _ _ _ _ _ _ HR) as (_ & _ & _ & _ & _ & _ & Hlo & Hhi & Hp & Hq).
  apply wp_st_size; [apply in_segment_range; unfold after in *; lia|].
  split; [|done]. pose proof HR as (_ & HS & HK). split_and!.
  - apply (region_write s _ _ _ _ _ _ HR); [done|done|]. cbn. intros k Hk. rewrite lookup_insert_ne; [done|].
    unfold after in *; lia.
  - cbn. intros x n Hx. rewrite !lookup_insert. case_decide; [done|]. by apply HS.
  - done.
Qed.
Next Obligation.
  cbn. intros s pre c post S K j n HR Hj Hn Hjn HSx.
  destruct (seq_region_bounds _ _ _ _ _ _ HR) as (_ & _ & _ & _ & _ & _ & Hlo & Hhi & Hp & Hq).
  unfold seq_mark_new_allocated_block.
  apply wp_st_next; [apply in_segment_range; unfold after in *; lia|].
  split; [|done]. pose proof HR as (_ & HS & HK). split_and!.
  - apply (region_write s _ _ _ _ _ _ HR); [done|done|]. cbn. intros k Hk. rewrite lookup_insert_ne; [done|].
    unfold after in *; lia.
  - done.
  - cbn. intros x m Hx. rewrite !lookup_insert. case_decide; [done|]. by apply HK.
Qed.
Next Obligation.
  cbn. intros s pre f k n post S K HR [v HSa] [w HKa]. pose proof HR as (Hrep & HS & HK).
  destruct (seq_region_bounds _ _ _ _ _ _ HR) as (_ & _ & _ & Hf & _).
  set (a := after (first_block s) (total pre)) in *.
  assert (upd_size a v (close_region a f s) = s) as E.
  { apply HS in HSa; [|unfold after; lia]. apply HK in HKa; [|unfold after; lia].
    destruct s. unfold upd_size, close_region, set_m_next, set_m_size in *. cbn in *.
    by rewrite insert_insert_eq, !insert_id. }
  pose proof (deallocate_framed_ok _ _ _ _ _ _ v Hrep) as Hd. cbv zeta in Hd.
  change (first_block (close_region a f s)) with (first_block s) in Hd. fold a in Hd. rewrite E in Hd.
  replace (after (first_block s) (total pre + f + k)) with (after (after a f) k)
    by (unfold a; rewrite !after_after; f_equal; lia).
  eapply wp_mono; [exact Hd|]. intros [] s' (s2 & -> & Hrep2 & E1 & E2). cbn in E1, E2. split; [|done].
  assert (first_block (upd_size a v s2) = first_block s) as Efb by (by apply first_block_eq).
  change [Blk f false; Blk k false] with ([Blk f false] ++ [Blk k false]) in Hrep2.
  rewrite app_assoc, free_at_used, <- app_assoc in Hrep2. cbn [app] in Hrep2.
  pose proof (rep_split _ _ _ _ Hrep2) as (_ & _ & _ & _ & _ & _ & Hs2 & Hnx2 & _). cbn in Hs2, Hnx2.
  assert (first_block s2 = first_block s) as Efb2 by (by apply first_block_eq).
  rewrite Efb2 in *. fold a in Hs2, Hnx2.
  unfold seq_region. rewrite Efb. fold a. split_and!; [|done..].
  replace (close_region a f (upd_size a v s2)) with s2; [done|].
  destruct s2. unfold upd_size, close_region, set_m_next, set_m_size in *. cbn in *.
  by rewrite insert_insert_eq, !insert_id.
Qed.

Lemma implements_seq s h :
  implements s h ↔ ∃ bs, seg_inv s bs ∧ h = heap 0 (first_block s) bs.
Proof. unfold implements, seg_inv. cbn. naive_solver. Qed.

(** Its [priv_allocate] allocates as promised, whatever the over-aligned branch
    does. *)
#[export] Instance seq_allocate_ok aligned : AllocateOk (priv_allocate_with aligned).
Proof.
  intros s bs limit prefer align Hrep _ Hl Hp Ha. eapply wp_mono; [by apply priv_allocate_new_ok|].
  intros [[p r] ru] s'. cbn [fst snd]. unfold alloc_post, allocated_from.
  pose proof (units_bounds prefer ltac:(lia)) as Hu. pose proof (units_bounds limit ltac:(lia)) as Hul.
  intros ([(pre & sz & post & -> & _ & Hsz & -> & -> & Hrep')
          |[(_ & pre & sz & post & -> & _ & Hsz & -> & -> & Hrep')|(_ & -> & _ & ->)]] & _ & E1 & E2).
  - right. exists pre, sz, post, (cut_units 2 (units prefer) sz), (tail (cut 2 (units prefer) sz)).
    rewrite cut_tail in Hrep'. cbn. seg_consts. pose proof (proj1 (units_le prefer (units prefer) ltac:(lia)) ltac:(lia)).
    unfold capacity, cut_units, cut in *.
    destruct (Z.leb_spec (units prefer + 2) sz); split_and!; try done; try lia; try (by left); right; split; done || lia.
  - right. exists pre, sz, post, sz, []. pose proof (proj1 (units_le limit sz ltac:(lia)) Hsz).
    unfold cut in Hrep'. destruct (Z.leb_spec (sz + 2) sz); [lia|]. cbn. seg_consts. unfold capacity.
    split_and!; try done; try lia; by left.
  - by left.
Qed.
End instance.
