(* ===== verification/SeqFitGrow.v ===== *)
(** The sequential-fit algorithm: construction, growing and shrinking of the
    segment, and the queries. *)

From S2P Require Import Prelude Blocks MathUtil MemAlgo MemAlgoSpec.
From S2P Require Import SeqFit SeqFitInv SeqFitOps.
From S2P Require Import SeqFitAlloc SeqFitResize SeqFitHeap.

Local Open Scope u64_scope.

Section grow.
Context {L : SegLayout} {LOk : SegLayoutOk}.

Lemma disalignment_val : in_u64 this_ptr → this_disalignment = this_ptr mod 16.
Proof.
  intros Ht. unfold this_disalignment. seg_consts. unfold in_u64 in Ht.
  rewrite (u64_small (this_ptr / 16 * 16)) by (unfold in_u64; dlia).
  rewrite u64_small by (unfold in_u64; dlia). dlia.
Qed.

Lemma end_offset_ok s Q :
  0 <= hdr_size s → this_ptr + hdr_size s < 9223372036854775808 → this_ptr <= seg_end s →
  Q (seg_end s - this_ptr) s → wp priv_block_end_offset s Q.
Proof.
  intros Hsz Hfit Hend HQ. destruct LOk as [Ht _ _]. unfold priv_block_end_offset.
  rewrite disalignment_val by (unfold in_u64; lia).
  unfold get_truncated_size, assert_aligned, check_alignment, seg_end in *. seg_consts.
  wp_step. wp_step. cbv zeta.
  rewrite (u64_small (hdr_size s + this_ptr mod 16)) by (unfold in_u64; dlia).
  rewrite (u64_small ((hdr_size s + this_ptr mod 16) / 16 * 16)) by (unfold in_u64; dlia).
  assert ((hdr_size s + this_ptr mod 16) / 16 * 16 - this_ptr mod 16 =
          (this_ptr + hdr_size s) / 16 * 16 - this_ptr) as E by dlia.
  rewrite E, (u64_small (_ - this_ptr)) by (unfold in_u64; dlia).
  wp_step. apply wp_assert; [|by wp_step]. apply Z.eqb_eq.
  rewrite u64_small by (unfold in_u64; dlia). dlia.
Qed.

Lemma first_offset_ok extra s Q :
  0 <= extra → this_ptr + sizeof_impl + extra < 9223372036854775808 →
  Q (round_up (this_ptr + sizeof_impl + extra) 16 - this_ptr) s →
  wp (priv_first_block_offset extra) s Q.
Proof.
  intros He Hfit HQ. destruct LOk as [Ht Hr Hs]. change sizeof_block_ctrl with 16 in Hs. unfold priv_first_block_offset.
  rewrite disalignment_val by (unfold in_u64; lia).
  unfold assert_aligned, check_alignment. seg_consts. cbv zeta.
  rewrite (u64_small (sizeof_impl + extra)) by (unfold in_u64; lia).
  rewrite (u64_small (sizeof_impl + extra + this_ptr mod 16)) by (unfold in_u64; dlia).
  rewrite rounded_size_val by (unfold in_u64, round_up; dlia).
  assert (round_up (sizeof_impl + extra + this_ptr mod 16) 16 - this_ptr mod 16 =
          round_up (this_ptr + sizeof_impl + extra) 16 - this_ptr) as -> by (unfold round_up; dlia).
  pose proof (round_up_spec (this_ptr + sizeof_impl + extra) 16 ltac:(lia)) as [Hb Hd].
  apply Z.mod_divide in Hd; [|lia].
  rewrite (u64_small (_ - this_ptr)) by (unfold in_u64; lia).
  wp_step. apply wp_assert; [|by wp_step]. apply Z.eqb_eq.
  rewrite u64_small by (unfold in_u64; dlia). dlia.
Qed.

(** The constructor makes one free block of the whole segment. *)
Lemma construct_ok s0 size extra r :
  0 <= extra → this_ptr + size < 9223372036854775808 →
  round_up (this_ptr + sizeof_impl + extra) 16 + 16 <= this_ptr + size →
  m_size s0 !! root = Some r → 0 <= r →
  root + 16 * r < round_up (this_ptr + sizeof_impl + extra) 16 →
  wp (simple_seq_fit_impl size extra) s0
     (λ _ s, hdr_size s = size ∧ hdr_extra s = extra ∧
        ∃ n, seg_inv s [Blk n true] ∧
             after (first_block s) n = seg_end s).
Proof.
  intros He Hfit Hmin Hr Hr0 Hrlt. pose proof LOk as [Ht Hro Hs].
  pose proof (round_up_spec (this_ptr + sizeof_impl + extra) 16 ltac:(lia)) as [Hb Hd].
  apply Z.mod_divide in Hd; [|lia].
  set (fb := round_up (this_ptr + sizeof_impl + extra) 16) in *.
  unfold simple_seq_fit_impl. wp_step. wp_step. wp_step. apply first_offset_ok; [done|lia|].
  fold fb. cbv zeta. replace (this_ptr + (fb - this_ptr)) with fb by lia. seg_consts.
  wp_step. apply wp_st_next; [apply in_segment_root|].
  wp_step. apply wp_assert; [by apply Z.eqb_eq|].
  assert (∀ s', hdr_size s' = size → in_segment s' fb = true) as Hseg.
  { intros s' E. apply in_segment_range; [lia|]. rewrite E. lia. }
  rewrite (u64_small (size - _)) by (unfold in_u64, root in *; lia).
  wp_step. apply wp_st_size; [by apply Hseg|]. apply wp_st_next; [by apply Hseg|].
  split_and!; [done|done|]. exists ((size - (fb - this_ptr)) / 16).
  assert (fb + 16 * ((size - (fb - this_ptr)) / 16) = (this_ptr + size) / 16 * 16) as Etile by dlia.
  assert (1 <= (size - (fb - this_ptr)) / 16) by dlia.
  assert (fb ≠ root) by (unfold root in *; lia).
  split; [|unfold after, seg_end, first_block; seg_simpl; fold fb; lia].
  split; [|done]. constructor; unfold first_block, seg_end; seg_simpl; fold fb; try done.
  - apply pos_cons. split; [done|by apply Forall_nil].
  - unfold after. cbn. lia.
  - split; cbn.
    + rewrite lookup_insert_ne by done. by rewrite lookup_insert_eq.
    + by rewrite !lookup_insert_eq.
  - exists r. split_and!; try done. by rewrite lookup_insert_ne by done.
Qed.

Lemma inv_size_bound s bs : seg_rep s bs → 0 <= hdr_size s ∧ this_ptr <= seg_end s.
Proof.
  intros Hrep. pose proof (rep_facts _ _ Hrep) as Hf. pose proof (rep_tile _ _ Hrep) as Ht.
  destruct LOk as [? ? ?]. seg_consts. unfold after in *. lia.
Qed.

(** The last block of the grown segment: the old end up to the new one. *)
Lemma grow_ok s bs extra :
  seg_inv s bs → 0 <= extra → this_ptr + hdr_size s + extra < 9223372036854775808 →
  wp (grow extra) s
     (λ _ s', hdr_size s' = hdr_size s + extra ∧ hdr_extra s' = hdr_extra s ∧
        let n := (this_ptr + hdr_size s + extra - seg_end s) / 16 in
        seg_inv s' (if n =? 0 then bs else merge_pre bs n)).
Proof.
  intros [Hrep Hco] He Hfit. pose proof (rep_facts _ _ Hrep) as Hf.
  pose proof (inv_size_bound _ _ Hrep) as [Hs0 Hse]. pose proof (rep_alloc_bound _ _ Hrep) as Hal.
  pose proof (rep_tile _ _ Hrep) as Htile. pose proof (rep_pos _ _ Hrep) as Hpos.
  unfold grow. wp_step. apply end_offset_ok; [lia..|]. wp_step. wp_step. wp_step. wp_step. seg_consts.
  assert (set_hdr_size (λ sz, sz +! extra) s =
    Seg (m_next s) (m_size s) (hdr_allocated s) (hdr_size s + extra) (hdr_extra s)) as ->
    by (unfold set_hdr_size; by rewrite u64_small by u64_side).
  seg_simpl.
  set (e := seg_end s) in *. set (n := (this_ptr + hdr_size s + extra - e) / 16).
  assert (e = (this_ptr + hdr_size s) / 16 * 16) as Ee by done.
  rewrite (u64_small (hdr_size s + extra - (e - this_ptr))) by (unfold in_u64; dlia).
  replace (hdr_size s + extra - (e - this_ptr)) with (this_ptr + hdr_size s + extra - e) by lia.
  replace (this_ptr + (e - this_ptr)) with e by lia. fold n.
  destruct (Z.ltb_spec (this_ptr + hdr_size s + extra - e) 16) as [Hsm|Hbig].
  - assert (n = 0) as E0 by (unfold n; dlia). wp_step. cbv zeta. rewrite E0, Z.eqb_refl. split_and!; [done|done|].
    split; [|done]. destruct Hrep as [H1 H2 H3 H4 H5 H6 H7].
    constructor; seg_simpl; try done; [lia|].
    change (first_block _) with (first_block s). rewrite Htile, Ee. unfold seg_end. seg_simpl. dlia.
  - assert (1 <= n) by (unfold n; dlia). destruct (Z.eqb_spec n 0); [lia|].
    assert (e mod 16 = 0) by (rewrite Ee; by rewrite Z.mod_mul).
    wp_step. apply wp_assert; [by apply Z.eqb_eq|].
    assert (∀ s', hdr_size s' = hdr_size s + extra → in_segment s' e = true) as Hseg.
    { intros s' E. apply in_segment_range; [unfold after in *; lia|]. rewrite E. lia. }
    wp_step. apply wp_st_next; [by apply Hseg|]. wp_step. apply wp_st_size; [by apply Hseg|].
    wp_step. apply (wp_ld_size _ n); [seg_simpl; by rewrite lookup_insert_eq|].
    wp_step. wp_step.
    assert (16 * n <= this_ptr + hdr_size s + extra - e) by (unfold n; dlia).
    rewrite (u64_small (n * 16)) by u64_side.
    match goal with |- wp _ ?st _ => set (s1 := st) end.
    assert (first_block s1 = first_block s) as Efb by done.
    assert (seg_rep s1 (bs ++ [Blk n false])) as Hrep1.
    { destruct Hrep as [H1' H2' H3' H4' [H5a H5b] (r & R1 & R2 & R3) H7'].
      constructor; unfold s1; seg_simpl; rewrite ?Efb; try done.
      - lia.
      - apply pos_app. split; [done|]. pos_tac.
      - change (first_block _) with (first_block s).
        rewrite total_app. unfold seg_end. seg_simpl. cbn. unfold after in *. unfold n. dlia.
      - apply frep_app. change (first_block _) with (first_block s). rewrite Htile. cbn. split.
        + eapply frep_out; [done| | |split; done].
          * by ins.
          * rewrite Htile. intros k Hk _. by ins.
        + by rewrite !lookup_insert_eq.
      - exists r. change (first_block _) with (first_block s). split_and!; try done.
        rewrite lookup_insert_ne by (unfold after in *; lia). done.
      - rewrite used_app. cbn. rewrite u64_small by u64_side. lia. }
    eapply wp_mono.
    + unfold seq_get_user_buffer. seg_consts.
      pose proof (deallocate_ok _ _ _ _ Hrep1) as Hd. rewrite Efb, Htile in Hd. exact Hd.
    + intros [] s2 (Hrep2 & E1 & E2). unfold free_at in Hrep2. cbn in Hrep2. rewrite app_nil_r in Hrep2.
      split_and!; [by rewrite E2|by rewrite E1|]. split; [done|].
      pose proof (free_at_coalesced bs n []) as Hc. unfold free_at in Hc. cbn in Hc.
      rewrite app_nil_r in Hc. apply Hc. by apply coalesced_used.
Qed.

(** *** Queries *)

Lemma sanity_loop_ok s mid : ∀ a fuel free,
  pos_blocks mid → reps (m_next s) (m_size s) a mid root → a mod 16 = 0 → 0 < root < a →
  0 <= free → free + 16 * total mid < 9223372036854775808 → (length mid < fuel)%nat →
  wp (sanity_loop fuel (hd_free a mid root) free) s
     (λ r s', r = Some (free + 16 * (total mid - used mid)) ∧ s' = s).
Proof.
  induction mid as [|b mid IH]; intros a fuel free Hp Hr Ha Hroot Hfree Hfit Hf.
  - destruct fuel; [simpl in Hf; lia|]. cbn. rewrite Z.eqb_refl. wp_step. split; [|done]. f_equal. lia.
  - apply pos_cons in Hp as [Hb Hp]. destruct Hr as (Hs & Hn & Hr). pose proof (pos_total _ Hp).
    destruct fuel as [|fuel]; [simpl in Hf; lia|]. cbn [hd_free total used] in *. simpl in Hf.
    assert (after a (b_size b) mod 16 = 0)
      by (unfold after; rewrite (Z.mul_comm 16), Z.mod_add by lia; done).
    destruct (b_free b).
    + cbn [sanity_loop]. destruct (Z.eqb_spec a root); [lia|].
      assert (check_alignment a = true) as Hca by (by apply Z.eqb_eq). unfold assert_aligned. rewrite Hca.
      wp_step. apply wp_assert; [done|]. cbn [negb]. wp_step. eapply wp_ld_next; [done|].
      pose proof (hd_free_range (after a (b_size b)) mid root Hp).
      destruct (Z.eqb_spec (hd_free (after a (b_size b)) mid root) 0); [unfold after in *; lia|].
      wp_step. eapply wp_ld_size; [done|]. seg_consts.
      rewrite (u64_small (b_size b * 16)) by u64_side.
      rewrite (u64_small (free + b_size b * 16)) by u64_side.
      eapply wp_mono; [apply IH; try done; unfold after in *; lia|].
      intros r s' [-> ->]. split; [|done]. f_equal. lia.
    + eapply wp_mono; [apply (IH (after a (b_size b)) (S fuel)); try done; unfold after in *; lia|].
      intros r s' [-> ->]. split; [|done]. f_equal. lia.
Qed.

Lemma check_sanity_ok s bs :
  seg_rep s bs → wp check_sanity s (λ r s', r = true ∧ s' = s).
Proof.
  intros Hrep. pose proof (rep_facts _ _ Hrep) as Hf. pose proof (rep_alloc_bound _ _ Hrep) as Hal.
  pose proof (rep_free _ _ Hrep) as [Hroot Hr]. pose proof (rep_pos _ _ Hrep) as Hp.
  pose proof (used_bounds _ Hp). destruct LOk as [? ? ?]. seg_consts.
  unfold check_sanity. wp_step. eapply wp_ld_next; [done|]. wp_step. wp_step. wp_step.
  eapply wp_mono.
  { apply sanity_loop_ok; try done; try tauto; unfold after in *; try lia. by apply rep_fuel. }
  intros r s' [-> ->]. cbv iota. wp_step. wp_step. wp_step. wp_step.
  destruct (Z.ltb_spec (hdr_size s) (hdr_allocated s)); [lia|].
  destruct (Z.ltb_spec (hdr_size s) (0 + 16 * (total bs - used bs))); [unfold after in *; lia|].
  by wp_step.
Qed.

(** The buffers of the free blocks from [a] on. *)
Fixpoint free_buffers (a : Z) (bs : list blk) : list (Z * Z) :=
  match bs with
  | [] => []
  | b :: bs =>
      (if b_free b then [(a + 16, 16 * b_size b - 16)] else [])
        ++ free_buffers (after a (b_size b)) bs
  end.

Lemma zero_free_loop_ok s mid : ∀ a fuel,
  pos_blocks mid → reps (m_next s) (m_size s) a mid root → 0 < root < a →
  after a (total mid) < 9223372036854775808 → (length mid <= fuel)%nat →
  hd_free a mid root ≠ root →
  wp (zero_free_loop fuel (hd_free a mid root)) s
     (λ r s', r = free_buffers a mid ∧ s' = s).
Proof.
  induction mid as [|b mid IH]; intros a fuel Hp Hr Hroot Hfit Hf Hne; [done|].
  apply pos_cons in Hp as [Hb Hp]. destruct Hr as (Hs & Hn & Hr). pose proof (pos_total _ Hp).
  cbn [hd_free total free_buffers] in *. simpl in Hf. destruct fuel as [|fuel]; [lia|].
  destruct (b_free b).
  - cbn [zero_free_loop]. wp_step. eapply wp_ld_size; [done|]. cbv zeta.
    wp_step. eapply wp_ld_next; [done|]. rewrite user_bytes_val by (unfold after in *; lia).
    unfold seq_get_user_buffer. seg_consts.
    destruct (Z.eqb_spec (hd_free (after a (b_size b)) mid root) root) as [E|E].
    + wp_step. split; [|done]. cbn. f_equal.
      assert (Forall (λ b, b_free b = false) mid) as Hnf.
      { assert (root < after a (b_size b)) as Hra by (unfold after; lia).
        clear -Hp E Hra. revert E Hra. generalize (after a (b_size b)) as c.
        induction Hp as [|b' mid Hb' Hp IH]; intros c; [constructor|]. simpl.
        destruct (b_free b') eqn:Ef; intros E Hra; [lia|]. constructor; [done|].
        eapply IH; [done|]. unfold after. lia. }
      clear -Hnf. generalize (after a (b_size b)) as c.
      induction Hnf as [|b' mid Hb' Hnf IH]; intros c; [done|]. simpl. by rewrite Hb', <- IH.
    + wp_step. eapply wp_mono; [apply IH; try done; unfold after in *; lia|].
      intros r s' [-> ->]. by wp_step.
  - eapply wp_mono; [apply (IH (after a (b_size b)) (S fuel)); try done; unfold after in *; lia|].
    done.
Qed.

(** *** Shrinking the segment *)

(** The free block before the last one. *)
Fixpoint prev_free_of (p l a : Z) (bs : list blk) : Z :=
  match bs with
  | [] => p
  | b :: bs => if b_free b then prev_free_of l a (after a (b_size b)) bs
               else prev_free_of p l (after a (b_size b)) bs
  end.

Lemma prev_free_snoc p l a bs n : prev_free_of p l a (bs ++ [Blk n true]) = last_free_of l a bs.
Proof.
  revert p l a. induction bs as [|b bs IH]; intros p l a; simpl; [done|].
  by destruct (b_free b).
Qed.

Lemma last_free_loop_ok s mid : ∀ a fuel p l,
  pos_blocks mid → reps (m_next s) (m_size s) a mid root → root < a → (length mid <= fuel)%nat →
  wp (last_free fuel p l (hd_free a mid root)) s
     (λ r s', r = (prev_free_of p l a mid, last_free_of l a mid) ∧ s' = s).
Proof.
  induction mid as [|b mid IH]; intros a fuel p l Hp Hr Hroot Hf.
  - destruct fuel; cbn; rewrite Z.eqb_refl; by wp_step.
  - apply pos_cons in Hp as [Hb Hp]. destruct Hr as (Hs & Hn & Hr). simpl in Hf.
    destruct fuel as [|fuel]; [lia|]. cbn [hd_free prev_free_of last_free_of].
    destruct (b_free b).
    + cbn [last_free]. destruct (Z.eqb_spec a root); [lia|].
      wp_step. eapply wp_ld_next; [done|]. apply IH; try done; unfold after; lia.
    + apply IH; try done; unfold after; lia.
Qed.

(** Dropping the allocated last block from the managed size. *)
Lemma drop_last_rep s s' pre n :
  this_aligned → seg_rep s (pre ++ [Blk n false]) →
  m_next s' = m_next s → m_size s' = m_size s → hdr_extra s' = hdr_extra s →
  hdr_size s' = (hdr_size s / 16 - n) * 16 → hdr_allocated s' = hdr_allocated s - 16 * n →
  seg_rep s' pre.
Proof.
  intros Hal Hrep E1 E2 E3 E4 E5. unfold this_aligned in Hal.
  pose proof (rep_facts _ _ Hrep) as Hf. destruct Hrep as [H1 H2 H3 H4 H5 H6 H7].
  apply pos_app in H3 as [Hp1 Hp2]. apply pos_cons in Hp2 as [Hn _]. cbn in Hn.
  assert (first_block s' = first_block s) as Efb by (unfold first_block; by rewrite E3).
  rewrite total_app in H4. rewrite used_app in H7. cbn in H4, H7.
  constructor; rewrite ?Efb, ?E1, ?E2, ?E3; try done.
  - rewrite E4. dlia.
  - unfold seg_end in *. rewrite E4. unfold after in *. dlia.
  - apply frep_app in H5 as [H5 _]. cbn in H5. done.
  - rewrite E5, H7. lia.
Qed.

(** The last block, free, is allocated and cut off. *)
Lemma cut_last_ok s pre n unique (Q : () → seg → Prop) :
  this_aligned → seg_rep s (pre ++ [Blk n true]) →
  (∀ s', seg_rep s' pre → hdr_extra s' = hdr_extra s →
         hdr_size s' = (hdr_size s / 16 - n) * 16 →
         wp (if nz unique then seq_deallocate unique else mret ()) s' Q) →
  wp (shrink_cut (last_free_of root (first_block s) pre) unique
        (after (first_block s) (total pre))) s Q.
Proof.
  intros Hal Hrep HQ. unfold shrink_cut. pose proof (rep_facts _ _ Hrep) as Hf.
  pose proof (rep_split s pre (Blk n true) [] Hrep) as (Hp1 & _ & Hn & Ht1 & _ & _ & Hs & _ & _ & Hend).
  cbv zeta in *. cbn [b_size b_free total] in *.
  wp_step. eapply wp_ld_size; [done|]. wp_step.
  eapply wp_mono; [apply (check_and_allocate_ok s pre n [] n 0 Hrep); unfold after in *; lia|].
  cbv beta. rewrite Z.leb_refl. intros r s1 (-> & Hrep1 & E1 & E2). cbv iota.
  unfold cut, cut_units in *. destruct (Z.leb_spec (n + 2) n); [lia|]. cbn [app] in Hrep1.
  assert (first_block s1 = first_block s) as Efb by (unfold first_block; by rewrite E1).
  pose proof (rep_split s1 pre (Blk n false) [] Hrep1) as (_ & _ & _ & _ & _ & _ & Hs1 & _ & _ & _).
  pose proof (rep_alloc_bound _ _ Hrep1) as Hab. pose proof (rep_tile _ _ Hrep1) as Htile.
  pose proof (rep_alloc _ _ Hrep1) as Halloc. rewrite used_app in Halloc. cbn in Halloc.
  pose proof (used_bounds _ Hp1).
  rewrite Efb, total_app in *. cbn in Hs1, Htile. unfold seg_end in Htile. rewrite E2 in *.
  assert (n <= hdr_size s / 16) by (unfold this_aligned, after in *; dlia).
  seg_consts. u64_simpl.
  wp_step. apply wp_assert; [unfold nz; apply negb_true_iff, Z.eqb_neq; unfold after in *; lia|].
  wp_step. apply wp_assert; [apply Z.eqb_eq; lia|].
  wp_step. wp_step. wp_step. eapply wp_ld_size; [done|].
  wp_step. wp_step. wp_step. wp_step. wp_step. wp_step. apply HQ.
  - eapply drop_last_rep; try done; seg_simpl; rewrite ?E2.
    + rewrite (u64_small (hdr_size s / 16 - n)) by (unfold in_u64; dlia).
      rewrite u64_small by (unfold in_u64; dlia). done.
    + rewrite (u64_small (n * 16)) by u64_side. rewrite u64_small by u64_side. lia.
  - done.
  - seg_simpl. rewrite E2. rewrite (u64_small (hdr_size s / 16 - n)) by (unfold in_u64; dlia).
    rewrite u64_small by (unfold in_u64; dlia). done.
Qed.

(** What [shrink_to_fit] leaves of the blocks [bs]. *)
Definition shrink_spec (bs : list blk) : list blk :=
  match rev bs with
  | Blk n true :: rpre => if used bs =? 0 then [Blk 1 true] else rev rpre
  | _ => bs
  end.

Lemma used_zero bs : pos_blocks bs → used bs = 0 → Forall (λ b, b_free b = true) bs.
Proof.
  induction 1 as [|b bs Hb Hp IH]; simpl; intros Hu; [constructor|].
  pose proof (used_bounds _ Hp). destruct (b_free b) eqn:E; [|lia].
  constructor; [done|]. apply IH. lia.
Qed.

(** An unused coalesced segment that ends with a block has only this one. *)
Lemma unused_single pre b :
  pos_blocks (pre ++ [b]) → coalesced (pre ++ [b]) → used (pre ++ [b]) = 0 → pre = [].
Proof.
  intros Hp Hco Hu. apply used_zero in Hp; [|done]. apply coalesced_app in Hco as (_ & _ & Hends).
  apply Forall_app in Hp as [Hfr Hb0]. rewrite Forall_singleton in Hb0. cbn in Hends. rewrite Hb0 in Hends.
  destruct pre as [|b' pre _] using rev_ind; [done|]. rewrite ends_free_snoc in Hends.
  apply Forall_app in Hfr as [_ Hb]. rewrite Forall_singleton in Hb. by rewrite Hb in Hends.
Qed.

(** An unused segment: one unit of its only block is kept. *)
Lemma shrink_unused_ok s n :
  this_aligned → seg_inv s [Blk n true] → 2 < n →
  let last := first_block s in
  wp (r ← shrink_unique root last (last + n * 16);
      match r with
      | None => mret ()
      | Some (unique_block, last) => shrink_cut root unique_block last
      end) s
    (λ _ s', seg_inv s' [Blk 1 true] ∧ hdr_extra s' = hdr_extra s ∧ hdr_size s' <= hdr_size s).
Proof.
  intros Hal [Hrep Hco] Hn. cbv zeta. pose proof (rep_facts _ _ Hrep) as Hf. cbn in Hf.
  pose proof (rep_alloc _ _ Hrep) as Halloc. pose proof (inv_size_bound _ _ Hrep) as [Hs0 Hse].
  wp_step. unfold shrink_unique. wp_step. wp_step. rewrite Halloc.
  change (16 * used [Blk n true] =? 0) with true. cbv iota beta. wp_step. apply wp_assert; [apply Z.eqb_refl|]. wp_step.
  eapply wp_mono; [by apply priv_allocate_new_ok with (bs := [Blk n true])|].
  intros [[p rc] ru] s1 (Hpost & _ & E1 & E2). cbn [fst snd] in Hpost.
  assert (units 0 = 1) as Hu0 by done. unfold alloc_post in Hpost. rewrite Hu0 in Hpost.
  assert (p = first_block s + 16 ∧ seg_rep s1 [Blk 1 false; Blk (n - 1) true]) as [-> Hrep1].
  { destruct Hpost as [(q & sz & post & Eq & _ & _ & -> & _ & Hr1)|[(Hnf & _)|(Hnf & _)]];
      [|unfold nofit in Hnf; rewrite Forall_singleton in Hnf; cbn in Hnf; specialize (Hnf eq_refl); lia..].
    destruct q as [|? [|? ?]]; [|done..]. cbn in Eq. injection Eq as -> <-.
    unfold cut in Hr1. destruct (Z.leb_spec (1 + 2) sz); [|lia].
    split; [unfold after; cbn; lia|done]. }
  assert (first_block s1 = first_block s) as Efb by (unfold first_block; by rewrite E1).
  pose proof (rep_free _ _ Hrep1) as [Hroot1 _]. cbn in Hroot1.
  pose proof (rep_split s1 [Blk 1 false] (Blk (n - 1) true) [] Hrep1) as (_ & _ & _ & _ & _ & _ & Hs1 & _ & _ & _).
  cbn in Hs1. rewrite Efb in *.
  destruct (Z.eqb_spec (first_block s + 16) 0); [lia|].
  wp_step. eapply wp_ld_next; [done|].
  wp_step. eapply wp_ld_size; [replace (after (first_block s) 1) with (after (first_block s) (1 + 0)) by done; done|].
  seg_consts. rewrite (u64_small ((n - 1) * 16)) by u64_side.
  wp_step. apply wp_assert; [apply Z.eqb_eq; unfold after in *; lia|]. wp_step. cbv iota.
  pose proof (cut_last_ok s1 [Blk 1 false] (n - 1)) as Hcl.
  rewrite Efb in Hcl. cbn [last_free_of b_free b_size total] in Hcl. apply Hcl; [done|done|].
  intros s2 Hrep2 F1 F2. unfold nz. destruct (Z.eqb_spec (first_block s + 16) 0); [lia|].
  cbn [negb]. eapply wp_mono.
  { pose proof (deallocate_ok s2 [] 1 [] Hrep2) as Hd.
    assert (after (first_block s2) (total []) = first_block s) as Ed
      by (unfold after, first_block; rewrite F1, E1; cbn; lia).
    rewrite Ed in Hd. exact Hd. }
  intros [] s3 (Hrep3 & G1 & G2). split_and!; [split; done|by rewrite G1, F1|].
  rewrite G2, F2, E2. dlia.
Qed.

(** The last free block does not reach the end when the last block is
    allocated. *)
Lemma last_free_inside s pre n :
  seg_rep s (pre ++ [Blk n false]) →
  ∃ psz, m_size s !! last_free_of root (first_block s) pre = Some psz ∧ in_u64 (psz * 16) ∧
    last_free_of root (first_block s) pre + psz * 16 < seg_end s.
Proof.
  intros Hrep. pose proof (rep_facts _ _ Hrep) as Hf. pose proof (rep_tile _ _ Hrep) as Htile.
  rewrite total_app in Htile. cbn in Htile.
  pose proof (rep_split s pre (Blk n false) [] Hrep) as (_ & _ & Hn & _).
  pose proof (last_free_adjacent s pre [Blk n false] Hrep) as (psz & Hps & Hps0 & Hpr & Hadj).
  assert (after (last_free_of root (first_block s) pre) psz <= after (first_block s) (total pre)) as Hle.
  { destruct Hadj as [(pre' & m & -> & -> & ->)|[_ ?]]; [|lia]. rewrite total_app. unfold after. simpl. lia. }
  cbn in Hn. exists psz. split_and!; [done|unfold in_u64 in *; lia|]. unfold after in *. lia.
Qed.

(** [shrink_to_fit] when the segment ends with a free block: all of it is
    given back, but for one unit when nothing is allocated; in that case the
    block must have more than two units. *)
Lemma shrink_to_fit_ok s bs :
  this_aligned → seg_inv s bs → (used bs = 0 → 2 < total bs) →
  wp shrink_to_fit s (λ _ s', seg_inv s' (shrink_spec bs) ∧ hdr_extra s' = hdr_extra s ∧
                              hdr_size s' <= hdr_size s).
Proof.
  intros Hal [Hrep Hco] Hmin. pose proof (rep_facts _ _ Hrep) as Hf.
  pose proof (rep_pos _ _ Hrep) as Hp. pose proof (rep_free _ _ Hrep) as [Hroot Hr].
  pose proof (rep_tile _ _ Hrep) as Htile. pose proof (inv_size_bound _ _ Hrep) as [Hs0 Hse].
  pose proof (rep_fuel _ _ Hrep) as Hfuel. pose proof (rep_alloc _ _ Hrep) as Halloc.
  unfold shrink_to_fit. wp_step. eapply wp_ld_next; [done|].
  destruct (Z.eqb_spec (hd_free (first_block s) bs root) root) as [E|E].
  { wp_step. split_and!; [|done|lia]. unfold shrink_spec.
    destruct bs as [|[n fr] bs _] using rev_ind; [done|]. rewrite rev_app_distr. cbn.
    destruct fr; [|done]. exfalso. rewrite hd_free_app in E. cbn in E.
    apply pos_app in Hp as [Hp1 _]. pose proof (pos_total _ Hp1).
    destruct (hd_free_range (first_block s) bs (after (first_block s) (total bs)) Hp1) as [H1|H1];
      unfold after in *; lia. }
  wp_step. wp_step. wp_step. eapply wp_mono; [apply last_free_loop_ok; try done; lia|].
  intros r s1 [-> ->]. cbv iota. unfold shrink_spec.
  destruct bs as [|[n fr] pre _] using rev_ind; [done|].
  rewrite rev_app_distr. cbn [rev app]. rewrite last_free_app, rev_involutive. cbn [last_free_of b_free].
  pose proof (rep_split s pre (Blk n fr) [] Hrep) as (Hp1 & _ & Hn & Ht1 & _ & _ & Hs & _ & _ & Hend).
  cbv zeta in *. cbn [b_size b_free total] in *. rewrite total_app in Htile. cbn in Htile. seg_consts.
  destruct fr.
  2: { destruct (last_free_inside s pre n Hrep) as (psz & Hps & Hw & Hlt).
    wp_step. eapply wp_ld_size; [done|]. rewrite (u64_small (psz * 16)) by done.
    wp_step. apply end_offset_ok; [lia..|].
    destruct (Z.eqb_spec (last_free_of root (first_block s) pre + psz * 16)
      (this_ptr + (seg_end s - this_ptr))); [lia|].
    cbn [negb]. wp_step. done. }
  wp_step. eapply wp_ld_size; [done|]. wp_step. apply end_offset_ok; [lia..|].
  rewrite (u64_small (n * 16)) by u64_side.
  destruct (Z.eqb_spec (after (first_block s) (total pre) + n * 16)
      (this_ptr + (seg_end s - this_ptr))); [|unfold after in *; lia]. cbn [negb].
  rewrite prev_free_snoc. assert (hdr_size s / 16 * 16 <= hdr_size s) by dlia.
  apply coalesced_app in Hco as Hco'. destruct Hco' as (Hcpre & _ & Hend_free).
  destruct (Z.eqb_spec (used (pre ++ [Blk n true])) 0) as [Hz|Hz].
  - assert (pre = []) as -> by (by eapply unused_single).
    cbn [last_free_of total app] in *. replace (after (first_block s) 0) with (first_block s) by (unfold after; lia).
    apply shrink_unused_ok; [done|done|]. specialize (Hmin Hz). cbn in Hmin. lia.
  - wp_step. unfold shrink_unique. wp_step. wp_step. rewrite Halloc.
    destruct (Z.eqb_spec (16 * used (pre ++ [Blk n true])) 0); [lia|]. wp_step. cbv iota.
    apply (cut_last_ok s pre n); [done|done|]. intros s2 Hrep2 F1 F2. apply wp_ret.
    split_and!; [split; done|done|]. rewrite F2. dlia.
Qed.
End grow.
