(* ===== verification/SeqFitProps.v ===== *)
(** The sequential-fit algorithm: its correctness theorems.

    The public operations of [simple_seq_fit_impl] implement the abstract heap
    of [SeqFitHeap], and the defects that the model shows in them. *)

From S2P Require Import Prelude Blocks MathUtil MemAlgo MemAlgoSpec MemAlgoAlign.
From S2P Require Import SeqFit SeqFitInv SeqFitOps.
From S2P Require Import SeqFitAlloc SeqFitResize SeqFitHeap SeqFitGrow.

Local Open Scope u64_scope.

(** ** A concrete segment

    1024 bytes at address 65536; a spin mutex in front of the root gives
    offset 8 and an object of 48 bytes. *)

Definition demo_layout : SegLayout :=
  {| this_ptr := 65536; sizeof_impl := 48; root_off := 8 |}.

Definition zeroed : seg := Seg ∅ {[ 65544 := 0 ]} 0 0 0.

Definition demo : seg :=
  Seg (<[65584 := 65544]> {[ 65544 := 65584 ]}) (<[65584 := 61]> {[ 65544 := 0 ]}) 0 1024 0.

(** [demo] after [allocate(100)]. *)
Definition demo1 : seg :=
  Seg (<[65584 := 0]> (<[65544 := 65712]> (<[65712 := 65544]> (m_next demo))))
      (<[65712 := 53]> (<[65584 := 8]> (m_size demo))) 128 1024 0.

Lemma demo_ok : @SegLayoutOk demo_layout.
Proof. split; vm_compute; congruence. Qed.

Notation demo_implements := (@implements seg (@seq_block_algo demo_layout) (@seq_algo_ok demo_layout demo_ok)).

Lemma demo_inv : @seg_inv demo_layout demo [Blk 61 true].
Proof.
  split; [|done]. constructor; try (vm_compute; congruence).
  - by repeat constructor.
  - vm_compute. repeat split.
  - exists 0. by vm_compute.
Qed.

Lemma demo1_inv : @seg_inv demo_layout demo1 [Blk 8 false; Blk 53 true].
Proof.
  split; [|by vm_compute; intuition]. constructor; try (vm_compute; congruence).
  - by repeat constructor.
  - vm_compute. repeat split.
  - exists 0. by vm_compute.
Qed.

(** ** Helper lemmas *)

Section heap_steps.
Context {L : SegLayout} {LOk : SegLayoutOk}.

Lemma inv_middle s pre b post :
  seg_inv s (pre ++ b :: post) → pos_blocks pre ∧ pos_blocks post ∧ 1 <= b_size b.
Proof.
  intros [Hrep _]. pose proof (rep_pos _ _ Hrep) as Hp. rewrite pos_app, pos_cons in Hp. tauto.
Qed.

(** [allocation_command] with [shrink_in_place] on the buffer behind [pre]. *)
Lemma shrink_in_place_ok s pre n post limit prefer :
  seg_inv s (pre ++ Blk n false :: post) →
  0 <= limit <= 18446744073709551600 → 0 <= prefer <= 18446744073709551600 →
  let p := after (first_block s) (total pre) + 16 in
  let h := heap 0 (first_block s) (pre ++ Blk n false :: post) in
  h !! p = Some (16 * n - 16) →
  wp (priv_allocate (Command false false false true false) limit prefer p Alignment) s
    (λ '(r, received, _) s',
      (r = 0 ∧ s' = s ∧ ¬ (16 * ceil16 prefer <= limit ∧ 16 * ceil16 prefer <= 16 * n - 16)) ∨
      (r = p ∧ prefer <= received <= 16 * n - 16 ∧ implements s' (<[p := received]> h))).
Proof.
  intros Hinv Hlim Hpref p h Hl. pose proof (inv_middle _ _ _ _ Hinv) as (Hp1 & _ & Hn). cbn in Hn.
  pose proof (rep_facts _ _ (proj1 Hinv)) as Hf. pose proof (pos_total _ Hp1).
  assert (p ≠ 0) as Hnz by (unfold p, after; lia).
  assert (user_units 0 prefer = ceil16 prefer) as Epu
    by (unfold user_units; rewrite Z.max_r by lia; f_equal; lia).
  assert (0 <= ceil16 prefer) by (unfold ceil16; dlia).
  unfold priv_allocate, priv_allocate_with. cbn. destruct (Z.eqb_spec p 0); [done|]. wp_step.
  assert (implements s h) as Hi by (apply implements_seq; by eexists).
  eapply wp_mono.
  { apply (shrink_heap_ok s h p _ limit prefer Hi Hl); [unfold in_u64; lia|cbn; lia|lia]. }
  cbn. rewrite Epu. seg_consts. unfold capacity.
  intros [[] rc] s' [(E & -> & Hno1 & Hno2)|(E & H1 & H2 & _ & _ & Hi')]; try done; apply wp_ret.
  - right. split_and!; [done|lia|lia|done].
  - left. split_and!; [done|done|]. rewrite Z.max_l in Hno2 by lia. lia.
Qed.

(** [allocation_command] with [expand_fwd] on the buffer behind [pre]. *)
Lemma expand_fwd_ok s pre n post limit prefer :
  this_aligned → seg_inv s (pre ++ Blk n false :: post) →
  0 <= limit <= prefer → prefer <= 18446744073709551600 →
  let p := after (first_block s) (total pre) + 16 in
  let h := heap 0 (first_block s) (pre ++ Blk n false :: post) in
  h !! p = Some (16 * n - 16) →
  wp (priv_allocate (Command false true false false false) limit prefer p Alignment) s
    (λ '(r, received, _) s', (r = 0 ∧ s' = s) ∨
      (r = p ∧ limit <= received ∧ implements s' (<[p := received]> h))).
Proof.
  intros Hal Hinv Hlim Hpref p h Hl. pose proof (inv_middle _ _ _ _ Hinv) as (Hp1 & _ & Hn). cbn in Hn.
  pose proof (proj1 Hinv) as Hrep. pose proof (rep_facts _ _ Hrep) as Hf. pose proof (pos_total _ Hp1).
  assert (implements s (<[p := 16 * n - 16]> h)) as Hsame
    by (rewrite insert_id by done; apply implements_seq; by eexists).
  assert (p ≠ 0) as Hnz by (unfold p, after; lia).
  assert (0 <= ceil16 limit ∧ limit <= 16 * ceil16 limit) as [] by (unfold ceil16; dlia).
  assert (ceil16 limit <= ceil16 prefer) by (unfold ceil16; apply Z.div_le_mono; lia).
  unfold priv_allocate, priv_allocate_with. cbn.
  destruct (Z.ltb_spec prefer limit); [lia|]. wp_step.
  pose proof (rep_free _ _ Hrep) as [Hroot _]. eapply wp_ld_next; [done|].
  unfold nz. destruct (Z.eqb_spec p 0); [done|]. cbn [negb andb].
  wp_step. eapply wp_mono; [apply expand_ok; try done; lia|]. intros [ok rc] s' (E1 & E2 & Hr).
  unfold expand_spec in Hr. destruct (Z.ltb_spec limit (16 * n - 16)).
  { destruct Hr as [[= -> ->] ->]. apply wp_ret. right. split_and!; [done|lia|done]. }
  destruct (Z.ltb_spec (ceil16 prefer) (ceil16 limit)); [lia|].
  destruct (Z.leb_spec (ceil16 limit) (n - 1)).
  { destruct Hr as [[= -> ->] ->]. apply wp_ret. right. split_and!; [done|lia|done]. }
  destruct post as [|[m []] post]; try (destruct Hr as [[= -> ->] ->]; apply wp_ret; by left).
  destruct (Z.ltb_spec (n + m) (ceil16 limit + 1)).
  { destruct Hr as [[= -> ->] ->]. apply wp_ret. by left. }
  destruct Hr as [[= -> ->] Hrep']. apply wp_ret. right.
  set (k := Z.min (ceil16 prefer + 1) (n + m)) in *.
  assert (k <= cut_units 2 k (n + m)) by (unfold cut_units; destruct (Z.leb_spec (k + 2) (n + m)); lia).
  split_and!; [done|lia|].
  replace (16 * cut_units 2 k (n + m) - 16) with (capacity 0 (cut_units 2 k (n + m))) by (unfold capacity; lia).
  exact (implements_expanded 2 s s' pre n m post k Hrep (proj2 Hinv) ltac:(lia) ltac:(lia) (conj E1 E2) Hrep').
Qed.

End heap_steps.

(** ** Properties *)

(** [allocate] implements allocation on the abstract heap.  On every
    well-formed segment and for every request that does not wrap it returns
    without fault; either it returns null and changes nothing, or it returns a
    16-byte aligned pointer that was not allocated, to a buffer of at least
    the requested size, and every other buffer stays as it was. *)
Lemma allocate_refines {L : SegLayout} {LOk : SegLayoutOk} (s : seg) (h : gmap Z Z) (nbytes : Z) :
  implements s h → 0 <= nbytes <= 18446744073709551600 →
  ∃ p s', seq_allocate nbytes s = Ret (p, s') ∧
    ((p = 0 ∧ s' = s) ∨
     (p ≠ 0 ∧ h !! p = None ∧ p mod 16 = 0 ∧
      ∃ c, nbytes <= c ∧ implements s' (<[p := c]> h))).
Proof.
  intros (bs & Hrep & Hco & ->) Hn. apply wp_run. unfold seq_allocate, priv_allocate. wp_step.
  eapply wp_mono; [apply wp_allocate_new; [done|done|lia|lia|seg_consts; lia]|].
  intros [[p r] ru] s'. cbn [fst snd]. intros [[-> ->]|Hfrom]; apply wp_ret; [by left|right].
  destruct (implements_alloc _ _ _ _ _ _ Hrep Hco Hfrom) as (H1 & H2 & H3 & H4 & H5). eauto 10.
Qed.

(** [allocate] is first fit and complete: it takes the lowest-addressed free
    block with room for the request (cutting it when more than one unit is
    left over), and it fails only if no free block has room. *)
Lemma allocate_first_fit {L : SegLayout} {LOk : SegLayoutOk} (s : seg) (bs : list blk) (nbytes : Z) :
  seg_inv s bs → 0 <= nbytes <= 18446744073709551600 →
  ∃ p s', seq_allocate nbytes s = Ret (p, s') ∧
    ((∃ pre sz post, bs = pre ++ Blk sz true :: post ∧
        Forall (λ b, b_free b = true → 16 * b_size b - 16 < nbytes) pre ∧
        nbytes <= 16 * sz - 16 ∧ p = after (first_block s) (total pre) + 16 ∧
        seg_inv s' (pre ++ cut 2 (units nbytes) sz ++ post)) ∨
     (Forall (λ b, b_free b = true → 16 * b_size b - 16 < nbytes) bs ∧ p = 0 ∧ s' = s)).
Proof.
  intros [Hrep Hco] Hn. apply wp_run. unfold seq_allocate. wp_step. eapply wp_mono.
  { apply (priv_allocate_new_ok _ nbytes nbytes Alignment s bs); [done|lia|lia|done]. }
  intros [[p rc] ru] s' (Hpost & _ & E1 & E2). apply wp_ret. cbn in Hpost.
  assert (∀ bs, nofit (units nbytes) bs →
    Forall (λ b, b_free b = true → 16 * b_size b - 16 < nbytes) bs) as Hnofit.
  { intros l Hl. eapply Forall_impl; [exact Hl|]. cbn. intros b Hb Hfr. specialize (Hb Hfr).
    destruct (decide (nbytes <= 16 * b_size b - 16)) as [Hle|]; [|lia].
    apply units_le in Hle; lia. }
  destruct Hpost as [(pre & sz & post & -> & Hnf & Hsz & -> & _ & Hrep')
                    |[(Hnf & pre & sz & post & -> & _ & Hsz & -> & _ & Hrep')|(Hnf & -> & _ & ->)]].
  - left. exists pre, sz, post. split_and!; auto; [apply units_le; lia|].
    split; [done|by apply cut_coalesced].
  - exfalso. apply Forall_app in Hnf as [_ Hnf]. apply Forall_cons in Hnf as [Hlt _].
    cbn in Hlt. specialize (Hlt eq_refl). lia.
  - right. auto.
Qed.

(** [deallocate] of an allocated pointer removes exactly that buffer from the
    abstract heap and keeps the segment well formed: the free list stays in
    address order, complete and without adjacent free blocks. *)
Lemma deallocate_refines {L : SegLayout} {LOk : SegLayoutOk} (s : seg) (h : gmap Z Z) (p c : Z) :
  implements s h → h !! p = Some c →
  ∃ s', deallocate p s = Ret ((), s') ∧ implements s' (delete p h).
Proof.
  intros Hi Hp. assert (p ≠ 0) as Hnz.
  { destruct Hi as (bs & Hrep & _ & ->). pose proof (rep_facts _ _ Hrep).
    apply heap_range in Hp; [|cbn; lia|apply (rep_pos _ _ Hrep)]. cbn in Hp. lia. }
  enough (wp (deallocate p) s (λ _ s', implements s' (delete p h))) as Hwp
    by (apply wp_run in Hwp as ([] & s' & E & Hi'); eauto).
  unfold deallocate. destruct (Z.eqb_spec p 0); [done|].
  eapply wp_mono; [exact (implements_dealloc s h p c Hi Hp)|]. by intros [] s' [? _].
Qed.

(** Allocating and at once deallocating is the identity on the blocks of the
    segment: the same free blocks of the same sizes at the same addresses, and
    the same count of allocated bytes. *)
Lemma allocate_deallocate_roundtrip {L : SegLayout} {LOk : SegLayoutOk}
    (s : seg) (bs : list blk) (nbytes : Z) :
  seg_inv s bs → 0 <= nbytes <= 18446744073709551600 →
  ∃ s', (p ← seq_allocate nbytes; deallocate p) s = Ret ((), s') ∧ seg_inv s' bs ∧
        hdr_allocated s' = hdr_allocated s.
Proof.
  intros Hinv Hn. enough (wp (p ← seq_allocate nbytes; deallocate p) s
    (λ _ s', seg_inv s' bs)) as Hwp.
  { apply wp_run in Hwp as ([] & s' & E & Hi). exists s'. split_and!; [done|done|].
    by rewrite (rep_alloc _ _ (proj1 Hi)), (rep_alloc _ _ (proj1 Hinv)). }
  destruct Hinv as [Hrep Hco]. unfold seq_allocate. wp_step. wp_step. eapply wp_mono.
  { apply (priv_allocate_new_ok _ nbytes nbytes Alignment s bs); [done|lia|lia|done]. }
  intros [[p rc] ru] s1 (Hpost & _ & E1 & E2). apply wp_ret. cbn in Hpost.
  pose proof (units_bounds nbytes Hn) as Hu. pose proof (rep_facts _ _ Hrep) as Hf.
  destruct Hpost as [(pre & sz & post & -> & _ & Hsz & -> & _ & Hrep')
                    |[(Hnf & pre & sz & post & -> & _ & Hsz & -> & _ & Hrep')|(_ & -> & _ & ->)]].
  - pose proof (rep_split _ _ _ _ Hrep) as (_ & _ & _ & Ht & _).
    unfold deallocate. destruct (Z.eqb_spec (after (first_block s) (total pre) + 16) 0);
      [unfold after in *; lia|]. rewrite <- (first_block_eq s s1) by done.
    rewrite cut_tail in Hrep'. eapply wp_mono; [by apply deallocate_ok|].
    intros [] s2 (Hrep2 & _ & _). rewrite free_cut in Hrep2 by done. done.
  - exfalso. apply Forall_app in Hnf as [_ Hnf]. apply Forall_cons in Hnf as [Hlt _].
    cbn in Hlt. specialize (Hlt eq_refl). lia.
  - done.
Qed.

(** The pointer [allocate] returns depends on the request only through the number
    of units it rounds it to, and within 15 bytes of [2^64] the rounding wraps
    around to that of an empty request. *)
Lemma seq_allocate_units {L : SegLayout} n m s :
  get_rounded_size n 16 = get_rounded_size m 16 → seq_allocate n s = seq_allocate m s.
Proof.
  intros E. unfold seq_allocate, priv_allocate, priv_allocate_with. unfold Alignment in *. cbn.
  rewrite !Z.ltb_irrefl, E. reflexivity.
Qed.

Lemma seq_allocate_top {L : SegLayout} nbytes s :
  18446744073709551600 < nbytes < 18446744073709551616 → seq_allocate nbytes s = seq_allocate 0 s.
Proof.
  intros Hn. apply seq_allocate_units. change (get_rounded_size 0 16) with 0.
  unfold get_rounded_size. rewrite (u64_small (nbytes - 1)) by (unfold in_u64; lia).
  replace ((nbytes - 1) / 16) with 1152921504606846975 by dlia. reflexivity.
Qed.

(** C2: allocation and deallocation on the abstract heap, the map from the
    pointers handed out to the bytes of their buffers.  For requests of at most
    [2^64 - 16] bytes, [allocate] returns null without change or adds a fresh
    16-byte aligned pointer with at least the requested bytes; above it the size
    wraps around and the request is served like one of no bytes; [deallocate] of
    a pointer of the heap removes it and nothing else; and deallocating what was
    just allocated restores the blocks and the count of allocated bytes. *)
Theorem seq_heap_refines {L : SegLayout} {LOk : SegLayoutOk} (s : seg) (h : gmap Z Z) :
  implements s h →
  (∀ nbytes, 0 <= nbytes <= 18446744073709551600 →
     ∃ p s', seq_allocate nbytes s = Ret (p, s') ∧
       ((p = 0 ∧ s' = s) ∨
        (p ≠ 0 ∧ h !! p = None ∧ p mod 16 = 0 ∧ ∃ c, nbytes <= c ∧ implements s' (<[p := c]> h)))) ∧
  (∀ nbytes, 18446744073709551600 < nbytes < 18446744073709551616 →
     seq_allocate nbytes s = seq_allocate 0 s) ∧
  (∀ p c, h !! p = Some c → ∃ s', deallocate p s = Ret ((), s') ∧ implements s' (delete p h)) ∧
  (∀ bs nbytes, seg_inv s bs → 0 <= nbytes <= 18446744073709551600 →
     ∃ s', (p ← seq_allocate nbytes; deallocate p) s = Ret ((), s') ∧ seg_inv s' bs ∧
           hdr_allocated s' = hdr_allocated s).
Proof.
  intros Hi. split_and!.
  - intros nbytes Hn. by apply allocate_refines.
  - intros nbytes Hn. by apply seq_allocate_top.
  - intros p c Hp. by eapply deallocate_refines.
  - intros bs nbytes Hinv Hn. by apply allocate_deallocate_roundtrip.
Qed.

Lemma demo1_implements : demo_implements demo1 {[ 65600 := 112 ]}.
Proof. apply implements_seq. exists [Blk 8 false; Blk 53 true]. split; [apply demo1_inv|reflexivity]. Qed.

Lemma seq_heap_refines_witness :
  (∃ p s', @seq_allocate demo_layout 200 demo1 = Ret (p, s') ∧
     ((p = 0 ∧ s' = demo1) ∨
      (p ≠ 0 ∧ ({[ 65600 := 112 ]} : gmap Z Z) !! p = None ∧ p mod 16 = 0 ∧
       ∃ c, 200 <= c ∧ demo_implements s' (<[p := c]> {[ 65600 := 112 ]})))) ∧
  @seq_allocate demo_layout 18446744073709551615 demo1 = @seq_allocate demo_layout 0 demo1 ∧
  (∃ s', @deallocate demo_layout 65600 demo1 = Ret ((), s') ∧
     demo_implements s' (delete 65600 ({[ 65600 := 112 ]} : gmap Z Z))) ∧
  (∃ s', (p ← @seq_allocate demo_layout 200; @deallocate demo_layout p) demo1 = Ret ((), s') ∧
     @seg_inv demo_layout s' [Blk 8 false; Blk 53 true] ∧ hdr_allocated s' = hdr_allocated demo1).
Proof.
  destruct (@seq_heap_refines demo_layout demo_ok demo1 _ demo1_implements) as (H1 & H0 & H2 & H3).
  split; [apply H1; lia|]. split; [apply H0; lia|]. split; [apply (H2 65600 112); reflexivity|].
  apply H3; [exact demo1_inv|lia].
Defined.

(** Safety of the buffers of a well-formed segment: any two of them are
    disjoint, header included, every one lies behind the algorithm's own
    object and ends inside of the segment, and whatever a process writes into
    a buffer (including bytes that look like headers) leaves the segment well
    formed with the same abstract heap. *)
Lemma buffers_safe {L : SegLayout} {LOk : SegLayoutOk} (s : seg) (h : gmap Z Z) :
  implements s h →
  heap_disjoint 0 h ∧
  (∀ p c, h !! p = Some c → this_ptr + sizeof_impl + 16 <= p ∧ p + c <= this_ptr + hdr_size s) ∧
  (∀ p c nx sz, h !! p = Some c →
     (∀ k, k < p ∨ p + c <= k → nx !! k = m_next s !! k ∧ sz !! k = m_size s !! k) →
     implements (Seg nx sz (hdr_allocated s) (hdr_size s) (hdr_extra s)) h).
Proof.
  intros (bs & [Hrep Hco] & ->)%implements_seq. pose proof (rep_facts _ _ Hrep) as Hf.
  pose proof (rep_pos _ _ Hrep) as Hp. split_and!.
  - by apply heap_disjoint_blocks.
  - intros p c Hl. apply heap_range in Hl; [|lia|done]. lia.
  - intros p c nx sz Hl Hsame. destruct (heap_lookup _ _ _ _ _ Hl) as (pre & n & post & -> & Ep & Ec).
    unfold capacity in Ec. apply implements_seq. exists (pre ++ Blk n false :: post). split; [split|]; [|done|done].
    apply (rep_interior s _ _ _ _ Hrep); [done|done|]. cbn. intros k Hk. apply Hsame.
    unfold after in *; lia.
Qed.

Lemma buffers_safe_demo :
  demo_implements demo1 {[ 65600 := 112 ]} ∧ 65536 + 48 + 16 <= 65600 ∧
  65600 + 112 <= 65536 + hdr_size demo1.
Proof.
  assert (demo_implements demo1 {[ 65600 := 112 ]}) as Hi
    by (apply implements_seq; exists [Blk 8 false; Blk 53 true]; split; [apply demo1_inv|reflexivity]).
  split; [exact Hi|].
  destruct (@buffers_safe demo_layout demo_ok demo1 _ Hi) as (_ & H & _).
  apply (H 65600 112). reflexivity.
Defined.

(** Resizing in place, as [allocation_command] does it.  Shrinking
    ([shrink_in_place]) a buffer of [c] bytes to a preferred size keeps the
    pointer and leaves a capacity between the preferred and the old one, or
    fails without change; it cannot fail when the preferred size, rounded up
    to 16, is within the capacity and the limit.  Expanding ([expand_fwd])
    either succeeds with a capacity of at least the limit, or fails without
    change.  No other buffer is affected. *)
Lemma resize_in_place_refines {L : SegLayout} {LOk : SegLayoutOk}
    (s : seg) (h : gmap Z Z) (p c limit prefer : Z) :
  this_aligned → implements s h → h !! p = Some c →
  0 <= limit <= 18446744073709551600 → 0 <= prefer <= 18446744073709551600 →
  (∃ r received reuse s',
     priv_allocate (Command false false false true false) limit prefer p Alignment s =
       Ret ((r, received, reuse), s') ∧
     ((r = 0 ∧ s' = s ∧ ¬ (16 * ceil16 prefer <= limit ∧ 16 * ceil16 prefer <= c)) ∨
      (r = p ∧ prefer <= received <= c ∧ implements s' (<[p := received]> h)))) ∧
  (limit <= prefer → ∃ r received reuse s',
     priv_allocate (Command false true false false false) limit prefer p Alignment s =
       Ret ((r, received, reuse), s') ∧
     ((r = 0 ∧ s' = s) ∨ (r = p ∧ limit <= received ∧ implements s' (<[p := received]> h)))).
Proof.
  intros Hal (bs & Hinv & ->)%implements_seq Hl Hlim Hpref.
  pose proof (heap_lookup _ _ _ _ _ Hl) as (pre & n & post & -> & -> & ->).
  unfold capacity in *. replace (16 * n - 16 + 0) with (16 * n - 16) in * by lia. split.
  - pose proof (shrink_in_place_ok s pre n post limit prefer Hinv Hlim Hpref Hl) as Hwp.
    apply wp_run in Hwp as ([[r rc] ru] & s' & E & HQ); eauto 10.
  - intros Hle. pose proof (expand_fwd_ok s pre n post limit prefer Hal Hinv) as Hwp.
    cbv zeta in Hwp. apply wp_run in Hwp as ([[r rc] ru] & s' & E & HQ); [eauto 10|lia|lia|done].
Qed.

Lemma resize_in_place_demo :
  demo_implements demo1 {[ 65600 := 112 ]} ∧
  (∃ r received reuse s',
     @priv_allocate demo_layout (Command false false false true false) 120 200 65600 Alignment demo1 =
       Ret ((r, received, reuse), s') ∧
     ((r = 0 ∧ s' = demo1 ∧ ¬ (16 * ceil16 200 <= 120 ∧ 16 * ceil16 200 <= 112)) ∨
      (r = 65600 ∧ 200 <= received <= 112 ∧
       demo_implements s' (<[65600 := received]> {[ 65600 := 112 ]})))) ∧
  (∃ r received reuse s',
     @priv_allocate demo_layout (Command false true false false false) 120 200 65600 Alignment demo1 =
       Ret ((r, received, reuse), s') ∧
     ((r = 0 ∧ s' = demo1) ∨
      (r = 65600 ∧ 120 <= received ∧
       demo_implements s' (<[65600 := received]> {[ 65600 := 112 ]})))).
Proof.
  assert (demo_implements demo1 {[ 65600 := 112 ]}) as Hi
    by (apply implements_seq; exists [Blk 8 false; Blk 53 true]; split; [apply demo1_inv|reflexivity]).
  split; [exact Hi|].
  destruct (@resize_in_place_refines demo_layout demo_ok demo1 {[ 65600 := 112 ]} 65600 112 120 200)
    as [H1 H2]; try exact Hi; try reflexivity; try lia.
  split; [exact H1|apply H2; lia].
Defined.
