(* ===== verification/SeqFitSegment.v ===== *)
(** The sequential-fit algorithm: the theorems about whole segments.

    Construction, growing and shrinking the segment, the queries, and the
    behaviours of the code that break its own promises, each shown on a
    concrete segment. *)

From S2P Require Import Prelude Blocks MathUtil MemAlgo MemAlgoSpec.
From S2P Require Import SeqFit SeqFitInv SeqFitOps.
From S2P Require Import SeqFitAlloc SeqFitResize SeqFitHeap SeqFitGrow SeqFitProps.

Local Open Scope u64_scope.

Section heap_ends.
Lemma heap_merge_pre a bs n :
  heap 0 a (merge_pre bs n) = heap 0 a bs.
Proof.
  pose proof (heap_free_at 0 a bs n []) as H.
  unfold free_at, merge_post in H. rewrite app_nil_r in H. rewrite H, heap_app.
  simpl. by rewrite (right_id_L ∅ (∪)).
Qed.

Lemma heap_shrink_spec a bs : pos_blocks bs → heap 0 a (shrink_spec bs) = heap 0 a bs.
Proof.
  intros Hp. unfold shrink_spec.
  destruct bs as [|[n fr] pre _] using rev_ind; [done|]. rewrite rev_app_distr. cbn [rev app].
  destruct fr; [|done]. rewrite rev_involutive.
  destruct (Z.eqb_spec (used (pre ++ [Blk n true])) 0) as [E|E].
  - by rewrite (heap_all_free 0 a (pre ++ _)).
  - apply pos_app in Hp as [Hp _]. rewrite heap_app. simpl.
    by rewrite (right_id_L ∅ (∪)).
Qed.

(** A coalesced list of free blocks has at most one element. *)
Lemma coalesced_all_free bs :
  coalesced bs → Forall (λ b, b_free b = true) bs → (length bs <= 1)%nat.
Proof.
  intros Hc Hf. destruct bs as [|b [|b' bs]]; simpl; [lia..|].
  destruct Hc as [Hc _]. inversion Hf as [|?? H1 H2]. inversion H2 as [|?? H3].
  destruct Hc. by rewrite H1, H3.
Qed.
End heap_ends.

(** The constructor formats any sufficiently large memory: the segment is
    well formed, consists of one free block that reaches to the segment's end,
    and has no buffer.  ([r] is what the memory holds in [m_root.m_size], a
    field the constructor does not write.) *)
Lemma construct_establishes {L : SegLayout} {LOk : SegLayoutOk} (s0 : seg) (size extra r : Z) :
  0 <= extra → this_ptr + size < 9223372036854775808 →
  round_up (this_ptr + sizeof_impl + extra) 16 + 16 <= this_ptr + size →
  m_size s0 !! root = Some r → 0 <= r →
  root + 16 * r < round_up (this_ptr + sizeof_impl + extra) 16 →
  ∃ s n, simple_seq_fit_impl size extra s0 = Ret (tt, s) ∧ hdr_size s = size ∧
    seg_inv s [Blk n true] ∧ after (first_block s) n = seg_end s ∧ implements s ∅.
Proof.
  intros H1 H2 H3 H4 H5 H6.
  pose proof (construct_ok s0 size extra r H1 H2 H3 H4 H5 H6) as Hwp.
  apply wp_run in Hwp as ([] & s & E & E1 & E2 & n & Hinv & Hend).
  exists s, n. split_and!; try done. apply implements_seq. by exists [Blk n true].
Qed.

(** [grow] and [shrink_to_fit] change the segment's size and nothing of its
    buffers: growing adds exactly the whole units behind the old end as free
    memory; shrinking removes a last free block completely (one unit remains
    if nothing is allocated), never enlarges the segment, and is safe unless
    an unused segment has two units or fewer left. *)
Lemma grow_shrink_preserve {L : SegLayout} {LOk : SegLayoutOk} (s : seg) (bs : list blk) (extra : Z) :
  seg_inv s bs →
  (0 <= extra → this_ptr + hdr_size s + extra < 9223372036854775808 →
   ∃ s', grow extra s = Ret (tt, s') ∧ hdr_size s' = hdr_size s + extra ∧
     (let n := (this_ptr + hdr_size s + extra - seg_end s) / 16 in
      seg_inv s' (if n =? 0 then bs else merge_pre bs n)) ∧
     implements s' (heap 0 (first_block s) bs)) ∧
  (this_aligned → (used bs = 0 → 2 < total bs) →
   ∃ s', shrink_to_fit s = Ret (tt, s') ∧ hdr_size s' <= hdr_size s ∧
     seg_inv s' (shrink_spec bs) ∧ implements s' (heap 0 (first_block s) bs)).
Proof.
  intros Hinv. pose proof Hinv as [Hrep _]. pose proof (rep_pos _ _ Hrep) as Hp. split.
  - intros He Hfit. pose proof (grow_ok s bs extra Hinv He Hfit) as Hwp.
    apply wp_run in Hwp as ([] & s' & E & E1 & E2 & Hinv').
    exists s'. split_and!; try done. apply implements_seq. eexists. split; [exact Hinv'|].
    rewrite (first_block_eq s s') by done.
    destruct (Z.eqb_spec ((this_ptr + hdr_size s + extra - seg_end s) / 16) 0); [done|].
    by rewrite heap_merge_pre.
  - intros Hal Hmin. pose proof (shrink_to_fit_ok s bs Hal Hinv Hmin) as Hwp.
    apply wp_run in Hwp as ([] & s' & E & Hinv' & E2 & E3).
    exists s'. split_and!; try done. apply implements_seq. eexists. split; [exact Hinv'|].
    by rewrite (first_block_eq s s'), heap_shrink_spec.
Qed.

(** The queries tell the truth about a well-formed segment and change
    nothing: [check_sanity] accepts it; [size] is the capacity of a buffer;
    [all_memory_deallocated] holds exactly when no buffer is allocated; and
    [zero_free_memory] clears exactly the free buffers, if there are any. *)
Lemma queries_correct {L : SegLayout} {LOk : SegLayoutOk} (s : seg) (bs : list blk) :
  seg_inv s bs →
  check_sanity s = Ret (true, s) ∧
  (∀ p c, heap 0 (first_block s) bs !! p = Some c → seq_size p s = Ret (c, s)) ∧
  all_memory_deallocated s = Ret (used bs =? 0, s) ∧
  (Exists (λ b, b_free b = true) bs →
     zero_free_memory s = Ret (free_buffers (first_block s) bs, s)).
Proof.
  intros [Hrep Hco]. pose proof (rep_facts _ _ Hrep) as Hf. pose proof (rep_pos _ _ Hrep) as Hp.
  pose proof (rep_free _ _ Hrep) as [Hroot Hr]. split_and!.
  - pose proof (check_sanity_ok s bs Hrep) as Hwp. apply wp_run in Hwp as (r & s' & E & -> & ->). done.
  - intros p c Hl. apply heap_lookup in Hl as (pre & n & post & -> & -> & ->).
    pose proof (rep_split _ _ _ _ Hrep) as (_ & _ & Hn & Ht & Ht2 & _ & Hs & _ & _ & Hend).
    cbn [b_size] in *. cbv zeta in *.
    assert (wp (seq_size (after (first_block s) (total pre) + 16)) s
      (λ r s', r = 16 * n - 16 ∧ s' = s)) as Hwp;
      [|apply wp_run in Hwp as (r & s' & E & -> & ->); by rewrite E; unfold capacity; do 3 f_equal; lia].
    unfold seq_size, seq_get_block. seg_consts. wp_step.
    replace (after (first_block s) (total pre) + 16 - 16) with (after (first_block s) (total pre)) by lia.
    eapply wp_ld_size; [done|]. wp_step. split; [|done].
    apply user_bytes_val; [done|]. unfold after in *. lia.
  - pose proof (rep_alloc _ _ Hrep) as Ha.
    assert (wp all_memory_deallocated s (λ r s', r = (used bs =? 0) ∧ s' = s)) as Hwp;
      [|apply wp_run in Hwp as (r & s' & E & -> & ->); by rewrite E; unfold capacity; do 3 f_equal; lia].
    unfold all_memory_deallocated. wp_step. wp_step. rewrite Ha.
    destruct (Z.eqb_spec (used bs) 0) as [E|E]; [|destruct (Z.eqb_spec (16 * used bs) 0); [lia|by wp_step]].
    rewrite E. change (16 * 0 =? 0) with true. cbv iota. wp_step. eapply wp_ld_next; [done|].
    pose proof (used_zero _ Hp E) as Hall. pose proof (coalesced_all_free _ Hco Hall) as Hlen.
    destruct bs as [|b [|]]; simpl in Hlen; [| |lia].
    + wp_step. eapply wp_ld_next; [done|]. wp_step. split; [apply Z.eqb_refl|done].
    + apply Forall_cons in Hall as [Hb _]. cbn [hd_free reps] in *. rewrite Hb in *.
      destruct Hr as (_ & Hn & _). wp_step. eapply wp_ld_next; [exact Hn|].
      wp_step. split; [apply Z.eqb_refl|done].
  - intros Hex. assert (hd_free (first_block s) bs root ≠ root) as Hne.
    { apply Exists_exists in Hex as (b & Hin & Hb). apply list_elem_of_split in Hin as (l1 & l2 & ->).
      apply pos_app in Hp as [Hp1 _]. pose proof (pos_total _ Hp1).
      rewrite hd_free_app. cbn [hd_free]. rewrite Hb.
      destruct (hd_free_range (first_block s) l1 (after (first_block s) (total l1)) Hp1) as [-> | ?];
        unfold after in *; lia. }
    assert (wp zero_free_memory s (λ r s', r = free_buffers (first_block s) bs ∧ s' = s)) as Hwp;
      [|apply wp_run in Hwp as (r & s' & E & -> & ->); by rewrite E; unfold capacity; do 3 f_equal; lia].
    unfold zero_free_memory. wp_step. eapply wp_ld_next; [done|]. wp_step. wp_step.
    apply zero_free_loop_ok; try done; try (unfold after in *; lia).
    pose proof (rep_fuel _ _ Hrep). lia.
Qed.

(** The life of a segment.  The constructor formats any sufficiently large
    memory into one free block that reaches to the end ([r] is what the memory
    holds in [m_root.m_size], a field the constructor does not write).  [grow]
    adds exactly the whole units behind the old end as free memory,
    [shrink_to_fit] removes a last free block (it is safe unless an unused
    segment has two units or fewer left); both keep all buffers.  The queries
    tell the truth and change nothing: [check_sanity] accepts the segment,
    [size] is the capacity of a buffer, [all_memory_deallocated] holds exactly
    when no buffer is allocated, and [zero_free_memory] clears exactly the free
    buffers, if there are any. *)
Lemma seq_segment_lifecycle {L : SegLayout} {LOk : SegLayoutOk} (s : seg) :
  (∀ size extra r, 0 <= extra → this_ptr + size < 9223372036854775808 →
     round_up (this_ptr + sizeof_impl + extra) 16 + 16 <= this_ptr + size →
     m_size s !! root = Some r → 0 <= r →
     root + 16 * r < round_up (this_ptr + sizeof_impl + extra) 16 →
     ∃ s' n, simple_seq_fit_impl size extra s = Ret (tt, s') ∧ hdr_size s' = size ∧
       seg_inv s' [Blk n true] ∧ after (first_block s') n = seg_end s' ∧ implements s' ∅) ∧
  (∀ bs, seg_inv s bs →
     (∀ extra, 0 <= extra → this_ptr + hdr_size s + extra < 9223372036854775808 →
        ∃ s', grow extra s = Ret (tt, s') ∧ hdr_size s' = hdr_size s + extra ∧
          (let n := (this_ptr + hdr_size s + extra - seg_end s) / 16 in
           seg_inv s' (if n =? 0 then bs else merge_pre bs n)) ∧
          implements s' (heap 0 (first_block s) bs)) ∧
     (this_aligned → (used bs = 0 → 2 < total bs) →
        ∃ s', shrink_to_fit s = Ret (tt, s') ∧ hdr_size s' <= hdr_size s ∧
          seg_inv s' (shrink_spec bs) ∧ implements s' (heap 0 (first_block s) bs)) ∧
     check_sanity s = Ret (true, s) ∧
     (∀ p c, heap 0 (first_block s) bs !! p = Some c → seq_size p s = Ret (c, s)) ∧
     all_memory_deallocated s = Ret (used bs =? 0, s) ∧
     (Exists (λ b, b_free b = true) bs →
        zero_free_memory s = Ret (free_buffers (first_block s) bs, s))).
Proof.
  split.
  - intros size extra r. apply construct_establishes.
  - intros bs Hinv. split; [intros extra|split; [|by apply queries_correct]];
      [by apply grow_shrink_preserve|by apply (grow_shrink_preserve s bs 0)].
Qed.

Lemma seq_segment_lifecycle_demo :
  (∃ s' n, @simple_seq_fit_impl demo_layout 1024 0 zeroed = Ret (tt, s') ∧ hdr_size s' = 1024 ∧
    @seg_inv demo_layout s' [Blk n true] ∧
    after (@first_block demo_layout s') n = @seg_end demo_layout s' ∧ demo_implements s' ∅) ∧
  (∃ s', @grow demo_layout 100 demo1 = Ret (tt, s') ∧ hdr_size s' = 1124 ∧
     demo_implements s' {[ 65600 := 112 ]}) ∧
  (∃ s', @shrink_to_fit demo_layout demo1 = Ret (tt, s') ∧ hdr_size s' <= 1024 ∧
     @seg_inv demo_layout s' [Blk 8 false] ∧ demo_implements s' {[ 65600 := 112 ]}) ∧
  @check_sanity demo_layout demo1 = Ret (true, demo1) ∧
  seq_size 65600 demo1 = Ret (112, demo1) ∧
  @zero_free_memory demo_layout demo1 = Ret ([(65728, 832)], demo1).
Proof.
  split; [|destruct (@seq_segment_lifecycle demo_layout demo_ok demo1) as [_ H];
    destruct (H _ demo1_inv) as (H1 & H2 & H3 & H4 & _ & H5); split; [|split; [|split; [|split]]]].
  - apply (@seq_segment_lifecycle demo_layout demo_ok zeroed) with (r := 0);
      vm_compute; (reflexivity || congruence).
  - destruct (H1 100) as (s' & E & Es & _ & Hi); [vm_compute; congruence..|]. by exists s'.
  - destruct H2 as (s' & E & Es & Hinv & Hi); [reflexivity|vm_compute; congruence|]. by exists s'.
  - exact H3.
  - apply H4. reflexivity.
  - apply H5. apply Exists_cons_tl, Exists_cons_hd. reflexivity.
Defined.

(** ** Where the code does not do what it means to *)

(** What a run returns, without the state it leaves. *)
Definition result_of {S A} (o : outcome (A * S)) : fault + A :=
  match o with Ret (a, _) => inr a | Fault e => inl e end.

(** A request whose rounding to a multiple of 16 wraps around is granted with
    an empty buffer. *)
Theorem allocate_wraps :
  result_of ((p ← @seq_allocate demo_layout 18446744073709551615; n ← seq_size p; mret (p, n)) demo)
  = inr (65600, 0).
Proof. by vm_compute. Qed.

(** [shrink_to_fit] on an unused segment leaves one unit; the second call reads
    [m_root] as if it were the block before it and fails its assertion. *)
Theorem shrink_to_fit_twice :
  result_of (@shrink_to_fit demo_layout demo) = inr tt ∧
  result_of ((@shrink_to_fit demo_layout;; @shrink_to_fit demo_layout) demo) = inl AssertFailed.
Proof. by vm_compute. Qed.

(** On a segment without a free block [zero_free_memory] starts its [do] loop
    with the list's root and clears almost the whole address space behind it. *)
Theorem zero_free_memory_full :
  result_of ((p ← @seq_allocate demo_layout 960;
              calls ← @zero_free_memory demo_layout; mret (p, calls)) demo)
  = inr (65600, [(65560, 18446744073709551600)]).
Proof. by vm_compute. Qed.

(** [priv_allocate_aligned] adds the request to its size twice: an aligned
    request fails in a segment with room for almost twice the bytes. *)
Theorem allocate_aligned_asks_twice :
  result_of (@seq_allocate_aligned demo_layout 500 32 demo) = inr 0 ∧
  result_of (@seq_allocate demo_layout 900 demo) = inr 65600.
Proof. by vm_compute. Qed.

(** The array version of [allocate_many] passes the element size where the
    alignment is expected and the other way round: it finds no memory for
    three small buffers, which the exchanged arguments get. *)
Theorem allocate_many_arguments_swapped :
  let many a b := @allocate_many_sizes seg (@seq_block_algo demo_layout)
      (@priv_allocate_default demo_layout) 8 [10; 20; 30] 3 a b [] in
  result_of (many 1 16 demo) = inr [] ∧
  result_of ((chain ← many 16 1; mret (length chain)) demo) = inr 3%nat.
Proof. by vm_compute. Qed.
