(* ===== verification/RbTree.v ===== *)
(** The best-fit memory algorithm: its operations.

    Models [mem_algo/rbtree_best_fit.hpp], the default allocator of the managed
    segments.  A block starts with a [SizeHolder]: the size of the block in
    units (62 bits), whether it and the block before it are allocated, and the
    size of the block before it.  The last field is written only while that
    block is free; otherwise its bytes belong to the user of that block.  Each
    field is a map of the state, keyed by the address of the header.  Reading a
    field that was never written, or writing outside of the segment, faults.

    The free blocks are in an intrusive multiset of Boost.Intrusive ordered by
    size, which is the class [Imultiset] here.

    The debug checks ([#ifndef NDEBUG]) are part of the model. *)

From S2P Require Import Prelude MathUtil MemAlgo.

Local Open Scope u64_scope.

(** ** The multiset of Boost.Intrusive

    Its elements are the addresses of the blocks, in the order of an iteration.
    The comparisons read the size of a block in memory, the argument [key].  An
    iterator is the address of its element, or [None] for [end()]. *)
Class Imultiset (T : Type) := {
  elements : T → list Z;
  ms_empty : T;
  ms_insert : (Z → Z) → Z → T → T;
  ms_insert_hint : (Z → Z) → option Z → Z → T → T;
  ms_erase : Z → T → T;
  ms_lower_bound : (Z → Z) → Z → T → option Z
}.

(** The elements before and behind an iterator. *)
Fixpoint next_of (x : Z) (l : list Z) : option Z :=
  match l with
  | [] => None
  | y :: l => if y =? x then head l else next_of x l
  end.
Fixpoint prev_of (x : Z) (l : list Z) : option Z :=
  match l with
  | y :: (z :: _) as l' => if z =? x then Some y else prev_of x l'
  | _ => None
  end.

(** Where the segment is mapped, [sizeof(rbtree_best_fit)], which depends on the
    mutex, and [sizeof(TreeHook)]. *)
Class RbLayout := {
  rb_this : Z;
  sizeof_rbtree : Z;
  sizeof_TreeHook : Z
}.

(** The headers of the blocks, and [header_t].  [cleared] records the memory
    ranges set to zero, as address and length. *)
Record rbseg (T : Type) := RbSeg {
  f_size : gmap Z Z;
  f_prev_size : gmap Z Z;
  f_prev_allocated : gmap Z bool;
  f_allocated : gmap Z bool;
  m_imultiset : T;
  h_allocated : Z;
  h_size : Z;
  h_extra : Z;
  cleared : list (Z * Z)
}.
Arguments RbSeg {T}.
Arguments f_size {T}.
Arguments f_prev_size {T}.
Arguments f_prev_allocated {T}.
Arguments f_allocated {T}.
Arguments m_imultiset {T}.
Arguments h_allocated {T}.
Arguments h_size {T}.
Arguments h_extra {T}.
Arguments cleared {T}.

Section setters.
Context {T : Type}.
Implicit Types s : rbseg T.

Definition set_f_size f s := RbSeg (f (f_size s)) (f_prev_size s) (f_prev_allocated s)
  (f_allocated s) (m_imultiset s) (h_allocated s) (h_size s) (h_extra s) (cleared s).
Definition set_f_prev_size f s := RbSeg (f_size s) (f (f_prev_size s)) (f_prev_allocated s)
  (f_allocated s) (m_imultiset s) (h_allocated s) (h_size s) (h_extra s) (cleared s).
Definition set_f_prev_allocated f s := RbSeg (f_size s) (f_prev_size s) (f (f_prev_allocated s))
  (f_allocated s) (m_imultiset s) (h_allocated s) (h_size s) (h_extra s) (cleared s).
Definition set_f_allocated f s := RbSeg (f_size s) (f_prev_size s) (f_prev_allocated s)
  (f (f_allocated s)) (m_imultiset s) (h_allocated s) (h_size s) (h_extra s) (cleared s).
Definition set_imultiset (f : T → T) s : rbseg T := RbSeg (f_size s) (f_prev_size s) (f_prev_allocated s)
  (f_allocated s) (f (m_imultiset s)) (h_allocated s) (h_size s) (h_extra s) (cleared s).
Definition set_h_allocated f s := RbSeg (f_size s) (f_prev_size s) (f_prev_allocated s)
  (f_allocated s) (m_imultiset s) (f (h_allocated s)) (h_size s) (h_extra s) (cleared s).
Definition set_h_size f s := RbSeg (f_size s) (f_prev_size s) (f_prev_allocated s)
  (f_allocated s) (m_imultiset s) (h_allocated s) (f (h_size s)) (h_extra s) (cleared s).
End setters.

(** ** Constants *)

Definition sizeof_SizeHolder : Z := 16.
Definition rb_size_mask : Z := u64_max / 4.
Definition rb_AllocatedCtrlBytes : Z := default 0 (ct_rounded_size sizeof_SizeHolder Alignment).
Definition rb_AllocatedCtrlUnits : Z := rb_AllocatedCtrlBytes / Alignment.
Definition rb_EndCtrlBlockBytes : Z := default 0 (ct_rounded_size sizeof_SizeHolder Alignment).
Definition rb_EndCtrlBlockUnits : Z := rb_EndCtrlBlockBytes / Alignment.
Definition rb_UsableByPreviousChunk : Z := 8.

#[global] Arguments rb_AllocatedCtrlBytes : simpl never.
#[global] Arguments rb_AllocatedCtrlUnits : simpl never.
#[global] Arguments rb_EndCtrlBlockBytes : simpl never.
#[global] Arguments rb_EndCtrlBlockUnits : simpl never.
#[global] Arguments rb_size_mask : simpl never.

Section rbtree.
Context {T : Type} {MS : Imultiset T} {L : RbLayout}.
Notation seg := (rbseg T).

Definition rb_BlockCtrlBytes : Z :=
  default 0 (ct_rounded_size (sizeof_SizeHolder + sizeof_TreeHook) Alignment).
Definition rb_BlockCtrlUnits : Z := rb_BlockCtrlBytes / Alignment.

(** *** Field accesses *)

Definition ld {V} (f : seg → gmap Z V) (a : Z) : M seg V := λ s,
  match f s !! a with Some v => Ret (v, s) | None => Fault BadAccess end.

(** A header fits at [a], behind the algorithm's own object. *)
Definition rb_in_segment (s : seg) (a : Z) : bool :=
  (rb_this + sizeof_rbtree <=? a) && (a + sizeof_SizeHolder <=? rb_this + h_size s).

Definition st (f : seg → seg) (a : Z) : M seg () := λ s,
  if rb_in_segment s a then Ret ((), f s) else Fault BadAccess.

Definition rb_ld_size : Z → M seg Z := ld f_size.
Definition rb_ld_prev_size : Z → M seg Z := ld f_prev_size.
Definition rb_ld_prev_allocated : Z → M seg bool := ld f_prev_allocated.
Definition rb_ld_allocated : Z → M seg bool := ld f_allocated.
(** [m_size] is a bit field of 62 bits. *)
Definition rb_st_size (a v : Z) : M seg () :=
  st (set_f_size <[a := v mod 4611686018427387904]>) a.
Definition rb_st_prev_size (a v : Z) : M seg () := st (set_f_prev_size <[a := v]>) a.
Definition rb_st_prev_allocated (a : Z) (b : bool) : M seg () :=
  st (set_f_prev_allocated <[a := b]>) a.
Definition rb_st_allocated (a : Z) (b : bool) : M seg () := st (set_f_allocated <[a := b]>) a.

(** Placement [new] of a [block_ctrl], whose constructor leaves [m_prev_size]
    indeterminate, and of a [SizeHolder], which leaves every field so. *)
Definition new_block_ctrl (a : Z) : M seg () :=
  st (set_f_prev_size (delete a)) a;;
  rb_st_size a 0;; rb_st_allocated a false;; rb_st_prev_allocated a false.
Definition new_SizeHolder (a : Z) : M seg () :=
  st (set_f_prev_size (delete a)) a;; st (set_f_size (delete a)) a;;
  st (set_f_prev_allocated (delete a)) a;; st (set_f_allocated (delete a)) a.

(** Zeroing [len] bytes from [a] on.  Headers that lay there are gone. *)
Definition forget {V} (a len : Z) (m : gmap Z V) : gmap Z V :=
  filter (λ kv, ¬ (a <= kv.1 < a + len)) m.
Definition clear_range (a len : Z) : M seg () := λ s,
  if (rb_this + sizeof_rbtree <=? a) && (a + len <=? rb_this + h_size s)
  then Ret ((), RbSeg (forget a len (f_size s)) (forget a len (f_prev_size s))
                  (forget a len (f_prev_allocated s)) (forget a len (f_allocated s))
                  (m_imultiset s) (h_allocated s) (h_size s) (h_extra s)
                  (cleared s ++ [(a, len)]))
  else Fault BadAccess.

(** *** The multiset in the header *)

Definition size_key (s : seg) (a : Z) : Z := default 0 (f_size s !! a).
Definition insert_block (a : Z) : M seg () :=
  modify (λ s, set_imultiset (ms_insert (size_key s) a) s).
Definition insert_block_hint (hint : option Z) (a : Z) : M seg () :=
  modify (λ s, set_imultiset (ms_insert_hint (size_key s) hint a) s).
(** [erase(s_iterator_to(block))] returns the iterator behind the block. *)
Definition erase_block (a : Z) : M seg (option Z) := λ s,
  Ret (next_of a (elements (m_imultiset s)), set_imultiset (ms_erase a) s).

Definition rb_assert_aligned (p : Z) : M seg () := boost_assert (check_alignment p).

(** *** Blocks *)

Definition rb_first_block_offset_from_this (extra_hdr_bytes : Z) : M seg Z :=
  let uint_this := rb_this in
  let main_hdr_end := uint_this +! sizeof_rbtree +! extra_hdr_bytes in
  let aligned_main_hdr_end := get_rounded_size main_hdr_end Alignment in
  let block1_off := aligned_main_hdr_end -! uint_this in
  rb_assert_aligned aligned_main_hdr_end;;
  rb_assert_aligned (uint_this +! block1_off);;
  mret block1_off.

Definition rb_priv_first_block : M seg Z :=
  extra ← gets h_extra;
  block1_off ← rb_first_block_offset_from_this extra;
  mret (rb_this + block1_off).

Definition rb_priv_end_block : M seg Z :=
  extra ← gets h_extra;
  block1_off ← rb_first_block_offset_from_this extra;
  sz ← gets h_size;
  let original_first_block_size := (sz -! block1_off) / Alignment -! rb_EndCtrlBlockUnits in
  mret (rb_this + block1_off + original_first_block_size *! Alignment).

Definition rb_get_block (ptr : Z) : Z := ptr - rb_AllocatedCtrlBytes.
Definition rb_get_user_buffer (block : Z) : Z := block + rb_AllocatedCtrlBytes.

Definition rb_get_total_units (userbytes : Z) : Z :=
  let userbytes :=
    if userbytes <? rb_UsableByPreviousChunk then rb_UsableByPreviousChunk else userbytes in
  let units :=
    get_rounded_size (userbytes -! rb_UsableByPreviousChunk) Alignment / Alignment
      +! rb_AllocatedCtrlUnits in
  if units <? rb_BlockCtrlUnits then rb_BlockCtrlUnits else units.

Definition rb_next_block (ptr : Z) : M seg Z :=
  n ← rb_ld_size ptr; mret (ptr + n *! Alignment).

Definition rb_prev_block (ptr : Z) : M seg Z :=
  pa ← rb_ld_prev_allocated ptr;
  boost_assert (negb pa);;
  n ← rb_ld_prev_size ptr;
  mret (ptr - n *! Alignment).

(** The overloads of [priv_end_block] and [priv_first_block] that go from one
    end of the segment to the other through the distance stored there. *)
Definition rb_end_block_of (first_segment_block : Z) : M seg Z :=
  pa ← rb_ld_prev_allocated first_segment_block;
  boost_assert pa;;
  n ← rb_ld_prev_size first_segment_block;
  let end_block := first_segment_block + n *! Alignment in
  al ← rb_ld_allocated end_block;
  boost_assert al;;
  m ← rb_ld_size end_block;
  boost_assert (m =? n);;
  boost_assert (first_segment_block <? end_block);;
  mret end_block.

Definition rb_first_block_of (end_segment_block : Z) : M seg Z :=
  al ← rb_ld_allocated end_segment_block;
  boost_assert al;;
  n ← rb_ld_size end_segment_block;
  let first_block := end_segment_block - n *! Alignment in
  pa ← rb_ld_prev_allocated first_block;
  boost_assert pa;;
  m ← rb_ld_prev_size first_block;
  boost_assert (m =? n);;
  boost_assert (first_block <? end_segment_block);;
  mret first_block.

Definition rb_is_allocated_block (block : Z) : M seg bool :=
  allocated ← rb_ld_allocated block;
  end_block ← rb_priv_end_block;
  (if negb (block =? end_block) then
     n ← rb_ld_size block;
     let next_block := block + n *! Alignment in
     next_block_prev_allocated ← rb_ld_prev_allocated next_block;
     boost_assert (Bool.eqb allocated next_block_prev_allocated)
   else mret ());;
  mret allocated.

Definition rb_is_prev_allocated (block : Z) : M seg bool :=
  pa ← rb_ld_prev_allocated block;
  if pa : bool then mret true else
  first ← rb_priv_first_block;
  (if negb (block =? first) then
     prev ← rb_prev_block block;
     al ← rb_ld_allocated prev;
     boost_assert (negb al);;
     psize ← rb_ld_size prev;
     n ← rb_ld_prev_size block;
     boost_assert (psize =? n)
   else mret ());;
  mret false.

Definition rb_mark_as_allocated_block (block : Z) : M seg () :=
  rb_st_allocated block true;;
  n ← rb_ld_size block;
  rb_st_prev_allocated (block + n *! Alignment) true.

Definition rb_mark_as_free_block (block : Z) : M seg () :=
  rb_st_allocated block false;;
  next_block ← rb_next_block block;
  rb_st_prev_allocated next_block false;;
  n ← rb_ld_size block;
  rb_st_prev_size next_block n.

(** *** Deallocation *)

(** The parts of [priv_deallocate] that merge the block with its neighbours. *)
Definition rb_merge_with_prev (block : Z) : M seg Z :=
  prev ← rb_prev_block block;
  psize ← rb_ld_size prev;
  bsize ← rb_ld_size block;
  rb_st_size prev (Z.land (psize +! bsize) rb_size_mask);;
  n ← rb_ld_size prev;
  boost_assert (rb_BlockCtrlUnits <=? n);;
  _ ← erase_block prev;
  mret prev.

Definition rb_merge_with_next (block_to_insert next_block : Z) : M seg () :=
  isize ← rb_ld_size block_to_insert;
  nsize ← rb_ld_size next_block;
  rb_st_size block_to_insert (Z.land (isize +! nsize) rb_size_mask);;
  n ← rb_ld_size block_to_insert;
  boost_assert (rb_BlockCtrlUnits <=? n);;
  _ ← erase_block next_block;
  mret ().

Definition rb_deallocate (addr : Z) : M seg () :=
  if addr =? 0 then mret () else
  let block := rb_get_block addr in
  b ← rb_is_allocated_block block;
  boost_assert b;;
  rb_assert_aligned addr;;
  bsize ← rb_ld_size block;
  let block_old_size := Alignment *! bsize in
  alloc ← gets h_allocated;
  boost_assert (block_old_size <=? alloc);;
  modify (set_h_allocated (λ a, a -! block_old_size));;
  next_block ← rb_next_block block;
  pa ← rb_is_prev_allocated block;
  na ← rb_is_allocated_block next_block;
  let merge_with_prev := negb pa in
  let merge_with_next := negb na in
  block_to_insert ← (if merge_with_prev : bool then rb_merge_with_prev block else mret block);
  (if merge_with_next : bool then rb_merge_with_next block_to_insert next_block else mret ());;
  rb_mark_as_free_block block_to_insert;;
  insert_block block_to_insert.

#[export] Instance rb_block_algo : BlockAlgo seg := {
  BlockCtrlBytes := rb_BlockCtrlBytes;
  BlockCtrlUnits := rb_BlockCtrlUnits;
  AllocatedCtrlBytes := rb_AllocatedCtrlBytes;
  AllocatedCtrlUnits := rb_AllocatedCtrlUnits;
  UsableByPreviousChunk := rb_UsableByPreviousChunk;
  size_mask := rb_size_mask;
  priv_get_block := rb_get_block;
  priv_get_user_buffer := rb_get_user_buffer;
  blk_size := rb_ld_size;
  set_blk_size := rb_st_size;
  priv_is_allocated_block := rb_is_allocated_block;
  priv_mark_new_allocated_block := rb_mark_as_allocated_block;
  priv_deallocate := rb_deallocate;
  priv_get_total_units := rb_get_total_units
}.

(** *** Allocation *)

(** "This block is bigger than needed, split it in two blocks". *)
Definition rb_alloc_split (nunits block block_old_size : Z) : M seg () :=
  rb_st_size block (Z.land nunits rb_size_mask);;
  n ← rb_ld_size block;
  boost_assert (rb_BlockCtrlUnits <=? n);;
  let rem_block := block + Alignment *! nunits in
  new_block_ctrl rem_block;;
  rb_assert_aligned rem_block;;
  rb_st_size rem_block (Z.land (block_old_size -! nunits) rb_size_mask);;
  n ← rb_ld_size rem_block;
  boost_assert (rb_BlockCtrlUnits <=? n);;
  rb_mark_as_free_block rem_block;;
  hint ← erase_block block;
  insert_block_hint hint rem_block.

(** "We need block_ctrl for deallocation stuff, so return memory user can
    overwrite": the buffer and the received bytes. *)
Definition rb_alloc_finish (block : Z) : M seg (Z * Z) :=
  bsize ← rb_ld_size block;
  modify (set_h_allocated (λ a, a +! bsize *! Alignment));;
  let received_size :=
    (bsize -! rb_AllocatedCtrlUnits) *! Alignment +! rb_UsableByPreviousChunk in
  rb_mark_as_allocated_block block;;
  let tree_hook_offset_in_block := sizeof_SizeHolder in
  clear_range (block + tree_hook_offset_in_block)
              (rb_BlockCtrlBytes -! tree_hook_offset_in_block);;
  next_block ← rb_next_block block;
  rb_st_prev_size next_block 0;;
  mret (rb_get_user_buffer block, received_size).

(** The pointer returned and the final [received_size]. *)
Definition rb_check_and_allocate (nunits block received_size : Z) : M seg (Z * Z) :=
  let upper_nunits := nunits +! rb_BlockCtrlUnits in
  rb_assert_aligned block;;
  bsize ← rb_ld_size block;
  found ←
    (if upper_nunits <=? bsize then rb_alloc_split nunits block bsize;; mret true
     else if nunits <=? bsize then _ ← erase_block block; mret true
     else boost_assert false;; mret false);
  if found : bool then rb_alloc_finish block else mret (0, received_size).

(** [size(ptr)]. *)
Definition rb_size (ptr : Z) : M seg Z :=
  n ← rb_ld_size (rb_get_block ptr);
  mret ((n -! rb_AllocatedCtrlUnits) *! Alignment +! rb_UsableByPreviousChunk).

(** The part of [priv_expand] that splits the next block. *)
Definition rb_expand_split (block next_block intended_units merged_units intended_user_units
    old_block_units : Z) : M seg () :=
  nsize ← rb_ld_size next_block;
  nn ← rb_next_block next_block;
  nnprev ← rb_ld_prev_size nn;
  boost_assert (nsize =? nnprev);;
  let rem_units := merged_units -! intended_units in
  _ ← erase_block next_block;
  let rem_block := block + intended_units *! Alignment in
  new_block_ctrl rem_block;;
  rb_st_size rem_block (Z.land rem_units rb_size_mask);;
  rb_assert_aligned rem_block;;
  n ← rb_ld_size rem_block;
  boost_assert (rb_BlockCtrlUnits <=? n);;
  rb_mark_as_free_block rem_block;;
  insert_block rem_block;;
  rb_st_size block (Z.land (intended_user_units +! rb_AllocatedCtrlUnits) rb_size_mask);;
  n ← rb_ld_size block;
  boost_assert (rb_BlockCtrlUnits <=? n);;
  modify (set_h_allocated (λ a, a +! (intended_units -! old_block_units) *! Alignment)).

(** ... and the part that takes all of it. *)
Definition rb_expand_merge (block next_block merged_units old_block_units : Z) : M seg () :=
  _ ← erase_block next_block;
  rb_st_size block (Z.land merged_units rb_size_mask);;
  n ← rb_ld_size block;
  boost_assert (rb_BlockCtrlUnits <=? n);;
  modify (set_h_allocated (λ a, a +! (merged_units -! old_block_units) *! Alignment)).

(** The truth value returned and the final [prefer_in_recvd_out_size]. *)
Definition rb_expand (ptr min_size prefer_in_recvd_out_size : Z) : M seg (bool * Z) :=
  let preferred_size := prefer_in_recvd_out_size in
  let block := rb_get_block ptr in
  old_block_units ← rb_ld_size block;
  b ← rb_is_allocated_block block;
  boost_assert b;;
  let received :=
    (old_block_units -! rb_AllocatedCtrlUnits) *! Alignment +! rb_UsableByPreviousChunk in
  if (preferred_size <=? received) || (min_size <=? received) then mret (true, received) else
  let min_user_units := ceil_units (min_size -! rb_UsableByPreviousChunk) in
  let preferred_user_units := ceil_units (preferred_size -! rb_UsableByPreviousChunk) in
  boost_assert (min_user_units <=? preferred_user_units);;
  next_block ← rb_next_block block;
  na ← rb_is_allocated_block next_block;
  if na : bool then mret (min_size <=? received, received) else
  rb_assert_aligned next_block;;
  nsize ← rb_ld_size next_block;
  let merged_units := old_block_units +! nsize in
  let merged_user_units := merged_units -! rb_AllocatedCtrlUnits in
  if merged_user_units <? min_user_units then
    mret (false, merged_units *! Alignment -! rb_UsableByPreviousChunk) else
  let intended_user_units :=
    if merged_user_units <? preferred_user_units then merged_user_units
    else preferred_user_units in
  let intended_units := rb_AllocatedCtrlUnits +! intended_user_units in
  (if rb_BlockCtrlUnits <=? (merged_units -! intended_units)
   then rb_expand_split block next_block intended_units merged_units intended_user_units
          old_block_units
   else rb_expand_merge block next_block merged_units old_block_units);;
  rb_mark_as_allocated_block block;;
  n ← rb_ld_size block;
  mret (true, (n -! rb_AllocatedCtrlUnits) *! Alignment +! rb_UsableByPreviousChunk).

(** *** Expansion to both sides *)

(** "Update the old previous block in the free blocks tree". *)
Definition rb_reorder (prev_block : Z) : M seg () :=
  t ← gets m_imultiset;
  let begin := head (elements t) in
  let was_smaller_it := prev_of prev_block (elements t) in
  if negb (bool_decide (begin = Some prev_block)) then
    match was_smaller_it with
    | None => throw BadAccess
    | Some w =>
        wsize ← rb_ld_size w;
        psize ← rb_ld_size prev_block;
        if psize <? wsize then
          _ ← erase_block prev_block;
          t ← gets m_imultiset;
          insert_block_hint (head (elements t)) prev_block
        else mret ()
    end
  else mret ().

(** The previous block is split and its end goes to the buffer. *)
Definition rb_backwards_split (prev_block reuse reuse_ptr needs_backwards_aligned received
    sizeof_object : Z) : M seg (Z * Z) :=
  let new_block := reuse - needs_backwards_aligned in
  rb_st_size new_block
    (Z.land (rb_AllocatedCtrlUnits +!
             (needs_backwards_aligned +! (received -! rb_UsableByPreviousChunk)) / Alignment)
            rb_size_mask);;
  n ← rb_ld_size new_block;
  boost_assert (rb_BlockCtrlUnits <=? n);;
  rb_mark_as_allocated_block new_block;;
  rb_st_size prev_block (Z.land (u64 (new_block - prev_block) / Alignment) rb_size_mask);;
  n ← rb_ld_size prev_block;
  boost_assert (rb_BlockCtrlUnits <=? n);;
  rb_mark_as_free_block prev_block;;
  rb_reorder prev_block;;
  modify (set_h_allocated (λ a, a +! needs_backwards_aligned));;
  rb_assert_aligned new_block;;
  let user_ptr := rb_get_user_buffer new_block in
  boost_assert (u64 (reuse_ptr - user_ptr) mod sizeof_object =? 0);;
  rb_assert_aligned user_ptr;;
  mret (user_ptr, needs_backwards_aligned +! received).

(** The whole previous block goes to the buffer. *)
Definition rb_backwards_merge (prev_block reuse reuse_ptr received sizeof_object : Z)
  : M seg (Z * Z) :=
  _ ← erase_block prev_block;
  psize ← rb_ld_size prev_block;
  let received := received +! psize *! Alignment in
  modify (set_h_allocated (λ a, a +! psize *! Alignment));;
  rsize ← rb_ld_size reuse;
  rb_st_size prev_block (Z.land (psize +! rsize) rb_size_mask);;
  n ← rb_ld_size prev_block;
  boost_assert (rb_BlockCtrlUnits <=? n);;
  rb_mark_as_allocated_block prev_block;;
  let user_ptr := rb_get_user_buffer prev_block in
  boost_assert (u64 (reuse_ptr - user_ptr) mod sizeof_object =? 0);;
  rb_assert_aligned user_ptr;;
  mret (user_ptr, received).

(** The body of [if(command & expand_bwd)]; [received] is the value of
    [prefer_in_recvd_out_size] there. *)
Definition rb_expand_backwards (command : allocation_type)
    (min_size preferred_size received reuse_ptr : Z) (only_preferred_backwards : bool)
    (sizeof_object alignof_object : Z) : M seg (Z * Z) :=
  let reuse := rb_get_block reuse_ptr in
  rb_assert_aligned reuse;;
  pa ← rb_is_prev_allocated reuse;
  if pa : bool then mret (0, received) else
  prev_block ← rb_prev_block reuse;
  b ← rb_is_allocated_block prev_block;
  boost_assert (negb b);;
  psize ← rb_ld_size prev_block;
  rprev ← rb_ld_prev_size reuse;
  boost_assert (psize =? rprev);;
  rb_assert_aligned prev_block;;
  r ← calculate_lcm_and_needs_backwards_lcmed sizeof_object alignof_object received
        (if only_preferred_backwards then preferred_size else min_size);
  match r with
  | None => mret (0, received)
  | Some (lcm_val, needs_backwards_aligned) =>
      if needs_backwards_aligned <=? psize *! Alignment then
        (if expand_fwd command then
           '(ok, received_size2) ← rb_expand reuse_ptr received received;
           boost_assert ok;;
           boost_assert (received =? received_size2)
         else mret ());;
        psize ← rb_ld_size prev_block;
        if (needs_backwards_aligned / Alignment +! rb_BlockCtrlUnits) <=? psize then
          rb_backwards_split prev_block reuse reuse_ptr needs_backwards_aligned received
            sizeof_object
        else if (needs_backwards_aligned / Alignment <=? psize)
                && (0 =? (psize *! Alignment) mod lcm_val) then
          rb_backwards_merge prev_block reuse reuse_ptr received sizeof_object
        else mret (0, received)
      else mret (0, received)
  end.

(** [priv_expand_both_sides]: the pointer returned and the final
    [prefer_in_recvd_out_size]. *)
Definition rb_expand_both_sides (command : allocation_type)
    (min_size prefer_in_recvd_out_size reuse_ptr : Z) (only_preferred_backwards : bool)
    (sizeof_object alignof_object : Z) : M seg (Z * Z) :=
  let preferred_size := prefer_in_recvd_out_size in
  rb_assert_aligned reuse_ptr;;
  '(done, received) ←
    (if expand_fwd command then rb_expand reuse_ptr min_size preferred_size
     else
       received ← rb_size reuse_ptr;
       mret ((preferred_size <=? received) || (min_size <=? received), received));
  if done : bool then mret (reuse_ptr, received) else
  (if nz sizeof_object then
     boost_assert (0 =? min_size mod sizeof_object);;
     boost_assert (0 =? preferred_size mod sizeof_object)
   else mret ());;
  if expand_bwd command then
    rb_expand_backwards command min_size preferred_size received reuse_ptr
      only_preferred_backwards sizeof_object alignof_object
  else mret (0, received).

(** [priv_allocate]; [aligned] is the call of [algo_impl_t::allocate_aligned]
    for over-aligned objects.  The result is the pointer returned and the final
    [prefer_in_recvd_out_size] and [reuse_ptr]. *)
Definition rb_allocate_with (aligned : Z → Z → M seg Z) (sizeof_object : Z)
    (command : allocation_type) (limit_size prefer_in_recvd_out_size reuse_ptr
     alignof_object : Z) : M seg (Z * Z * Z) :=
  let alignof_object := if alignof_object <? Alignment then Alignment else alignof_object in
  let preferred_size := prefer_in_recvd_out_size in
  if shrink_in_place command then
    if reuse_ptr =? 0 then mret (0, prefer_in_recvd_out_size, reuse_ptr) else
    '(success, recvd) ← shrink reuse_ptr limit_size preferred_size;
    mret (if success : bool then reuse_ptr else 0, recvd, reuse_ptr)
  else
  if preferred_size <? limit_size then mret (0, 0, 0) else
  let preferred_units := rb_get_total_units preferred_size in
  let limit_units := rb_get_total_units limit_size in
  let expand := nz reuse_ptr && (expand_fwd command || expand_bwd command) in
  '(ret, recvd) ←
    (if expand
     then rb_expand_both_sides command limit_size preferred_size reuse_ptr true
            sizeof_object alignof_object
     else mret (0, preferred_size));
  if nz ret then mret (ret, recvd, reuse_ptr) else
  let expand_min (recvd : Z) :=
    if expand then
      '(ret, recvd) ← rb_expand_both_sides command limit_size preferred_size reuse_ptr false
                        sizeof_object alignof_object;
      mret (ret, recvd, reuse_ptr)
    else mret (0, recvd, 0) in
  if allocate_new command then
    if Alignment <? alignof_object then
      p ← aligned limit_size alignof_object;
      mret (p, recvd, reuse_ptr)
    else
      t ← gets m_imultiset;
      s ← get;
      match ms_lower_bound (size_key s) preferred_units t with
      | Some it =>
          '(p, recvd) ← rb_check_and_allocate preferred_units it recvd;
          mret (p, recvd, 0)
      | None =>
          match last (elements t) with
          | Some it =>
              n ← rb_ld_size it;
              if limit_units <=? n then
                '(p, recvd) ← rb_check_and_allocate n it recvd;
                mret (p, recvd, 0)
              else expand_min recvd
          | None => expand_min recvd
          end
      end
  else expand_min recvd.

(** The calls from [memory_algorithm_common] have objects of one byte and, but
    for [allocate_many], the natural alignment, so they never take the
    over-aligned branch; and the complete function. *)
Definition rb_allocate_default : allocate_fn seg :=
  rb_allocate_with (λ _ _, throw OutOfFuel) 1.
Definition rb_allocate_sizeof (sizeof_object : Z) : allocate_fn seg :=
  rb_allocate_with (allocate_aligned rb_allocate_default) sizeof_object.
Definition rb_priv_allocate : allocate_fn seg := rb_allocate_sizeof 1.

(** *** Public interface

    Each operation runs under the segment's mutex, so the model runs it as
    one step. *)

Definition rb_allocate (nbytes : Z) : M seg Z :=
  '(p, _, _) ← rb_priv_allocate cmd_allocate_new nbytes nbytes 0 Alignment; mret p.

Definition rb_allocate_aligned (nbytes alignment : Z) : M seg Z :=
  allocate_aligned rb_allocate_default nbytes alignment.

Definition rb_allocation_command (command : allocation_type)
    (limit_size prefer_in_recvd_out_size reuse_ptr sizeof_object alignof_object : Z)
  : M seg (Z * Z * Z) :=
  let preferred_size := prefer_in_recvd_out_size in
  sz ← gets h_size;
  let max_count := sz / sizeof_object in
  if (max_count <? limit_size) || (max_count <? preferred_size)
  then mret (0, prefer_in_recvd_out_size, 0) else
  let l_size := limit_size *! sizeof_object in
  let p_size := preferred_size *! sizeof_object in
  '(ret, r_size, reuse_ptr) ←
    rb_allocate_sizeof sizeof_object command l_size p_size reuse_ptr alignof_object;
  mret (ret, r_size / sizeof_object, reuse_ptr).

Definition rb_dealloc (addr : Z) : M seg () :=
  if addr =? 0 then mret () else rb_deallocate addr.

Definition rb_deallocate_many (chain : list Z) : M seg () := priv_deallocate_many chain.

Definition rb_allocate_many (sizeof_void_pointer elem_bytes num_elements alignment : Z)
    (chain : list Z) : M seg (list Z) :=
  allocate_many_same rb_priv_allocate sizeof_void_pointer elem_bytes num_elements alignment chain.

Definition rb_allocate_many_sizes (sizeof_void_pointer : Z) (elem_sizes : list Z)
    (n_elements sizeof_element alignment : Z) (chain : list Z) : M seg (list Z) :=
  allocate_many_sizes rb_priv_allocate sizeof_void_pointer elem_sizes n_elements
    sizeof_element alignment chain.

Definition rb_get_size : M seg Z := gets h_size.

Definition rb_get_free_memory : M seg Z :=
  sz ← gets h_size;
  alloc ← gets h_allocated;
  extra ← gets h_extra;
  block1_off ← rb_first_block_offset_from_this extra;
  mret (sz -! alloc -! block1_off).

Definition rb_get_min_size (extra_hdr_bytes : Z) : Z :=
  (ceil_units sizeof_rbtree +! ceil_units extra_hdr_bytes +! rb_BlockCtrlUnits
     +! rb_EndCtrlBlockUnits) *! Alignment.

Definition rb_all_memory_deallocated : M seg bool :=
  extra ← gets h_extra;
  block1_off ← rb_first_block_offset_from_this extra;
  alloc ← gets h_allocated;
  if negb (alloc =? 0) then mret false else
  t ← gets m_imultiset;
  match elements t with
  | [b] =>
      n ← rb_ld_size b;
      sz ← gets h_size;
      mret (n =? (sz -! block1_off -! rb_EndCtrlBlockBytes) / Alignment)
  | _ => mret false
  end.

(** The loop of [check_sanity]: [None] when a block is not aligned. *)
Fixpoint rb_sanity_loop (blocks : list Z) (free_memory : Z) : M seg (option Z) :=
  match blocks with
  | [] => mret (Some free_memory)
  | ib :: blocks =>
      n ← rb_ld_size ib;
      let free_memory := free_memory +! n *! Alignment in
      if negb (check_alignment ib) then mret None else rb_sanity_loop blocks free_memory
  end.

Definition rb_check_sanity : M seg bool :=
  t ← gets m_imultiset;
  r ← rb_sanity_loop (elements t) 0;
  match r with
  | None => mret false
  | Some free_memory =>
      alloc ← gets h_allocated;
      sz ← gets h_size;
      if sz <? alloc then mret false else
      extra ← gets h_extra;
      block1_off ← rb_first_block_offset_from_this extra;
      if (sz -! block1_off) <? free_memory then mret false else mret true
  end.

(** [zero_free_memory]. *)
Fixpoint rb_zero_loop (blocks : list Z) : M seg () :=
  match blocks with
  | [] => mret ()
  | ib :: blocks =>
      n ← rb_ld_size ib;
      clear_range (ib + rb_BlockCtrlBytes) (n *! Alignment -! rb_BlockCtrlBytes);;
      rb_zero_loop blocks
  end.
Definition rb_zero_free_memory : M seg () :=
  t ← gets m_imultiset; rb_zero_loop (elements t).

(** *** The segment *)

Definition rb_add_segment (addr segment_size : Z) : M seg () :=
  boost_assert (rb_BlockCtrlBytes +! rb_EndCtrlBlockBytes <=? segment_size);;
  let first_big_block := addr in
  new_block_ctrl first_big_block;;
  rb_st_size first_big_block
    (Z.land (segment_size / Alignment -! rb_EndCtrlBlockUnits) rb_size_mask);;
  n ← rb_ld_size first_big_block;
  boost_assert (rb_BlockCtrlUnits <=? n);;
  let end_block := addr + n *! Alignment in
  new_SizeHolder end_block;;
  rb_mark_as_free_block first_big_block;;
  let distance := Z.land (u64 (end_block - first_big_block) / Alignment) rb_size_mask in
  rb_st_size end_block distance;;
  rb_st_prev_size first_big_block distance;;
  rb_st_allocated end_block true;;
  rb_st_prev_allocated first_big_block true;;
  nb ← rb_next_block first_big_block;
  boost_assert (nb =? end_block);;
  pb ← rb_prev_block end_block;
  boost_assert (pb =? first_big_block);;
  fb ← rb_priv_first_block;
  boost_assert (fb =? first_big_block);;
  eb ← rb_priv_end_block;
  boost_assert (eb =? end_block);;
  insert_block first_big_block.

(** The constructor, run in memory whose fields hold [s]. *)
Definition rbtree_best_fit (segment_size extra_hdr_bytes : Z) : M seg () :=
  modify (λ s, RbSeg (f_size s) (f_prev_size s) (f_prev_allocated s) (f_allocated s) ms_empty
                     0 segment_size extra_hdr_bytes (cleared s));;
  boost_assert (rb_get_min_size extra_hdr_bytes <=? segment_size);;
  block1_off ← rb_first_block_offset_from_this extra_hdr_bytes;
  rb_add_segment (rb_this + block1_off) (segment_size -! block1_off).

Definition rb_grow (extra_size : Z) : M seg () :=
  first_block ← rb_priv_first_block;
  old_end_block ← rb_priv_end_block;
  let old_border_offset := u64 (old_end_block - rb_this) +! rb_EndCtrlBlockBytes in
  modify (set_h_size (λ sz, sz +! extra_size));;
  sz ← gets h_size;
  if (sz -! old_border_offset) <? rb_BlockCtrlBytes then mret () else
  let align_offset := (sz -! old_border_offset) / Alignment in
  let new_end_block := old_end_block + align_offset *! Alignment in
  rb_st_allocated new_end_block true;;
  rb_st_size new_end_block
    (Z.land (u64 (new_end_block - first_block) / Alignment) rb_size_mask);;
  n ← rb_ld_size new_end_block;
  rb_st_prev_size first_block n;;
  rb_st_prev_allocated first_block true;;
  eb ← rb_priv_end_block;
  boost_assert (new_end_block =? eb);;
  let new_block := old_end_block in
  rb_st_size new_block (Z.land (u64 (new_end_block - new_block) / Alignment) rb_size_mask);;
  n ← rb_ld_size new_block;
  boost_assert (rb_BlockCtrlUnits <=? n);;
  rb_mark_as_allocated_block new_block;;
  nb ← rb_next_block new_block;
  boost_assert (nb =? new_end_block);;
  n ← rb_ld_size new_block;
  modify (set_h_allocated (λ a, a +! n *! Alignment));;
  rb_deallocate (rb_get_user_buffer new_block).

(** The part of [shrink_to_fit] that finds the last block: the buffer that is
    allocated for the time of the shrinking, or 0, and the block; [None] for an
    early return. *)
Definition rb_shrink_find (first_block old_end_block : Z) : M seg (option (Z * Z)) :=
  nb ← rb_next_block first_block;
  if nb =? old_end_block then
    '(unique_buffer, _, _) ← rb_priv_allocate cmd_allocate_new 0 0 0 Alignment;
    if unique_buffer =? 0 then mret None else
    rb_assert_aligned unique_buffer;;
    let unique_block := rb_get_block unique_buffer in
    b ← rb_is_allocated_block unique_block;
    boost_assert b;;
    rb_assert_aligned unique_block;;
    last_block ← rb_next_block unique_block;
    b ← rb_is_allocated_block last_block;
    boost_assert (negb b);;
    rb_assert_aligned last_block;;
    mret (Some (unique_buffer, last_block))
  else
    pa ← rb_is_prev_allocated old_end_block;
    if pa : bool then mret None else
    last_block ← rb_prev_block old_end_block;
    mret (Some (0, last_block)).

Definition rb_shrink_to_fit : M seg () :=
  first_block ← rb_priv_first_block;
  rb_assert_aligned first_block;;
  old_end_block ← rb_priv_end_block;
  rb_assert_aligned old_end_block;;
  old_end_block_size ← rb_ld_size old_end_block;
  r ← rb_shrink_find first_block old_end_block;
  match r with
  | None => mret ()
  | Some (unique_buffer, last_block) =>
      last_block_size ← rb_ld_size last_block;
      _ ← erase_block last_block;
      let shrunk_border_offset := u64 (last_block - rb_this) +! rb_EndCtrlBlockBytes in
      let new_end_block := last_block in
      rb_assert_aligned new_end_block;;
      rb_st_size new_end_block
        (Z.land (u64 (new_end_block - first_block) / Alignment) rb_size_mask);;
      n ← rb_ld_size new_end_block;
      rb_st_prev_size first_block n;;
      rb_st_allocated new_end_block true;;
      boost_assert (n =? (old_end_block_size -! last_block_size));;
      modify (set_h_size (λ _, Z.land shrunk_border_offset rb_size_mask));;
      eb ← rb_priv_end_block;
      boost_assert (eb =? new_end_block);;
      if nz unique_buffer then rb_deallocate unique_buffer else mret ()
  end.
End rbtree.
