(* ===== verification/RbTreeInv.v ===== *)
(** The best-fit algorithm: invariant and memory primitives.

    A block owns its header (its size and whether it is allocated) and its
    footer, the two fields about it in the header behind it: whether it is
    allocated and, only if it is free, its size.  [chain] says that the blocks
    of a list have their headers and footers in memory.  [rb_core] has the
    position of the blocks, the header fields at both ends of the segment and
    the tree of the free blocks.  It does not look into allocated blocks, so
    writing there, joining and splitting them keeps it; erasing a block from the
    tree and inserting one are its other transitions. *)

From Stdlib Require Import Sorted.
From S2P Require Import Prelude Blocks MathUtil MemAlgo MemAlgoSpec RbTree.

Local Open Scope u64_scope.

(** ** What is relied on of Boost.Intrusive and of the layout *)

Definition ordered (key : Z → Z) (l : list Z) : Prop :=
  StronglySorted (λ x y, key x <= key y) l.

(** Insertion puts the element where the order wants it, whatever the hint;
    erasing by iterator compares nothing; [lower_bound] finds the first element
    that is not less. *)
Class ImultisetOk (T : Type) {MS : Imultiset T} : Prop := {
  elements_empty : elements ms_empty = [];
  elements_insert key x t :
    ordered key (elements t) → x ∉ elements t →
    elements (ms_insert key x t) ≡ₚ x :: elements t ∧
    ordered key (elements (ms_insert key x t));
  elements_insert_hint key hint x t :
    ordered key (elements t) → x ∉ elements t → from_option (.∈ elements t) True hint →
    elements (ms_insert_hint key hint x t) ≡ₚ x :: elements t ∧
    ordered key (elements (ms_insert_hint key hint x t));
  elements_erase x t : x ∈ elements t → elements (ms_erase x t) = filter (.≠ x) (elements t);
  lower_bound_first key n t : ordered key (elements t) →
    match ms_lower_bound key n t with
    | Some x => ∃ l1 l2, elements t = l1 ++ x :: l2 ∧ Forall (λ y, key y < n) l1 ∧ n <= key x
    | None => Forall (λ y, key y < n) (elements t)
    end
}.

Class RbLayoutOk {L : RbLayout} : Prop := {
  rl_this : 0 < rb_this;
  rl_sizeof : 0 <= sizeof_rbtree;
  rl_hook : 1 <= sizeof_TreeHook <= 65000
}.

(** ** Order *)

Lemma ordered_ext key key' l :
  (∀ x, x ∈ l → key' x = key x) → ordered key l → ordered key' l.
Proof.
  intros Hk H. induction H as [|x l H IH Hx]; constructor.
  - apply IH. intros y Hy. apply Hk. by apply list_elem_of_further.
  - apply Forall_forall. intros y Hy. rewrite Forall_forall in Hx.
    rewrite (Hk x) by apply list_elem_of_here. rewrite (Hk y) by (by apply list_elem_of_further).
    by apply Hx.
Qed.

Lemma ordered_filter key (P : Z → Prop) `{∀ x, Decision (P x)} l :
  ordered key l → ordered key (filter P l).
Proof.
  induction 1 as [|x l H' IH Hx]; [constructor|]. rewrite filter_cons. case_decide; [|done].
  constructor; [done|]. apply Forall_forall. intros y Hy. apply list_elem_of_filter in Hy as [_ Hy].
  rewrite Forall_forall in Hx. by apply Hx.
Qed.

(** An element is erased from a list without duplicates. *)
Lemma filter_ne_not_in (x : Z) (l : list Z) : x ∉ l → filter (.≠ x) l = l.
Proof.
  intros Hx. induction l as [|y l IH]; [done|]. apply not_elem_of_cons in Hx as [Hne Hx].
  rewrite filter_cons_True by done. by rewrite IH.
Qed.

Lemma filter_ne_perm (x : Z) (l l' : list Z) : x ∉ l' → l ≡ₚ x :: l' → filter (.≠ x) l ≡ₚ l'.
Proof.
  intros Hx ->. rewrite filter_cons_False by (intros H; by apply H). by rewrite filter_ne_not_in.
Qed.

Lemma next_of_in x (l : list Z) y : NoDup l → next_of x l = Some y → y ∈ filter (.≠ x) l.
Proof.
  induction l as [|z l IH]; simpl; [done|]. intros [Hz Hl]%NoDup_cons.
  destruct (Z.eqb_spec z x) as [->|Hne]; intros Hy.
  - rewrite filter_cons_False by (intros H; by apply H).
    destruct l as [|w l]; [done|]. injection Hy as ->. apply list_elem_of_filter. split.
    + intros ->. apply Hz. apply list_elem_of_here.
    + apply list_elem_of_here.
  - rewrite filter_cons_True by done. apply list_elem_of_further. auto.
Qed.

(** ** The addresses of the free blocks *)

Fixpoint frees (a : Z) (bs : list blk) : list Z :=
  match bs with
  | [] => []
  | b :: bs => (if b_free b then [a] else []) ++ frees (after a (b_size b)) bs
  end.

Lemma frees_app a bs1 bs2 : frees a (bs1 ++ bs2) = frees a bs1 ++ frees (after a (total bs1)) bs2.
Proof.
  revert a. induction bs1 as [|b bs1 IH]; intros a; simpl; [by rewrite after_0|].
  by rewrite IH, after_after, app_assoc.
Qed.

Lemma frees_addrs a bs x : x ∈ frees a bs → x ∈ addrs a bs.
Proof.
  revert a. induction bs as [|b bs IH]; intros a; simpl; [done|].
  rewrite elem_of_app, elem_of_cons. intros [H|H]; [|auto].
  destruct (b_free b); [|by apply elem_of_nil in H]. left. by apply list_elem_of_singleton in H.
Qed.

Lemma frees_range a bs x :
  pos_blocks bs → x ∈ frees a bs → a <= x ∧ x + 16 <= after a (total bs).
Proof. intros Hp H%frees_addrs. by apply addrs_range in H as [? _]. Qed.

Lemma frees_nodup a bs : pos_blocks bs → NoDup (frees a bs).
Proof.
  intros Hp. revert a. induction Hp as [|b bs Hb Hp IH]; intros a; simpl; [constructor|].
  apply NoDup_app. split_and!; [|intros x Hx Hx'|auto].
  - destruct (b_free b); [apply NoDup_singleton|constructor].
  - destruct (b_free b); [|by apply elem_of_nil in Hx]. apply list_elem_of_singleton in Hx as ->.
    apply frees_range in Hx'; [|done]. unfold after in Hx'. lia.
Qed.

(** A free block is the only one at its address. *)
Lemma frees_lookup a bs x :
  x ∈ frees a bs → ∃ pre n post, bs = pre ++ Blk n true :: post ∧ x = after a (total pre).
Proof.
  revert a. induction bs as [|[n f] bs IH]; intros a; simpl; [by intros ?%elem_of_nil|].
  rewrite elem_of_app. intros [H|H].
  - destruct f; [|by apply elem_of_nil in H]. apply list_elem_of_singleton in H as ->.
    exists [], n, bs. split; [done|]. by rewrite after_0.
  - apply IH in H as (pre & m & post & -> & ->). exists (Blk n f :: pre), m, post.
    split; [done|]. by rewrite after_after.
Qed.

(** ** The invariant *)

Section inv.
Context {T : Type} {MS : Imultiset T} {L : RbLayout}.
Notation seg := (rbseg T).
Notation B := rb_BlockCtrlUnits.

Definition rb_first (s : seg) : Z := round_up (rb_this + sizeof_rbtree + h_extra s) 16.
Definition rb_end (s : seg) : Z :=
  rb_first s + 16 * ((h_size s - (rb_first s - rb_this)) / 16 - 1).

(** The header and the footer of a block. *)
Record block_at (s : seg) (a : Z) (b : blk) : Prop := {
  at_size : f_size s !! a = Some (b_size b);
  at_allocated : f_allocated s !! a = Some (negb (b_free b));
  at_foot : f_prev_allocated s !! after a (b_size b) = Some (negb (b_free b));
  at_foot_size : b_free b = true → f_prev_size s !! after a (b_size b) = Some (b_size b)
}.

Fixpoint chain (s : seg) (a : Z) (bs : list blk) : Prop :=
  match bs with
  | [] => True
  | b :: bs => block_at s a b ∧ chain s (after a (b_size b)) bs
  end.

Record rb_core (s : seg) (bs : list blk) : Prop := {
  rc_extra : 0 <= h_extra s;
  rc_fits : rb_this + h_size s < 9223372036854775808;
  rc_min : min_blocks B bs;
  rc_tile : after (rb_first s) (total bs) = rb_end s;
  rc_head : f_prev_allocated s !! rb_first s = Some true;
  rc_head_size : f_prev_size s !! rb_first s = Some (total bs);
  rc_tail_size : f_size s !! rb_end s = Some (total bs);
  rc_tail : f_allocated s !! rb_end s = Some true;
  rc_tree : elements (m_imultiset s) ≡ₚ frees (rb_first s) bs;
  rc_ordered : ordered (size_key s) (elements (m_imultiset s))
}.

(** The memory of [s] holds the blocks [bs]. *)
Record rb_rep (s : seg) (bs : list blk) : Prop := {
  rr_core : rb_core s bs;
  rr_chain : chain s (rb_first s) bs;
  rr_alloc : h_allocated s = 16 * used bs
}.

Definition rb_inv (s : seg) (bs : list blk) : Prop := rb_rep s bs ∧ coalesced bs.

(** The same segment. *)
Definition rb_frame (s s' : seg) : Prop := h_extra s' = h_extra s ∧ h_size s' = h_size s.

#[export] Instance rb_frame_preorder : PreOrder rb_frame.
Proof. unfold rb_frame. split; [done|]. intros s1 s2 s3 [-> ->] [-> ->]. done. Qed.

Lemma rb_frame_first s s' : rb_frame s s' → rb_first s' = rb_first s.
Proof. unfold rb_first. by intros [-> _]. Qed.
Lemma rb_frame_end s s' : rb_frame s s' → rb_end s' = rb_end s.
Proof. intros H. unfold rb_end. rewrite (rb_frame_first _ _ H). by destruct H as [_ ->]. Qed.

(** The memory is unchanged outside of the units from [lo] to [hi] and the
    footer behind them. *)
Record agree_out (s s' : seg) (lo hi : Z) : Prop := {
  ag_size x : x < lo ∨ hi <= x → f_size s' !! x = f_size s !! x;
  ag_allocated x : x < lo ∨ hi <= x → f_allocated s' !! x = f_allocated s !! x;
  ag_prev x : x <= lo ∨ hi < x → f_prev_allocated s' !! x = f_prev_allocated s !! x;
  ag_prev_size x : x <= lo ∨ hi < x → f_prev_size s' !! x = f_prev_size s !! x
}.

Lemma agree_refl s lo hi : agree_out s s lo hi.
Proof. by constructor. Qed.

Lemma agree_weaken s s' lo hi lo' hi' :
  agree_out s s' lo hi → lo' <= lo → hi <= hi' → agree_out s s' lo' hi'.
Proof. intros [? ? ? ?] ? ?. constructor; intros x Hx; eauto with lia. Qed.

Lemma agree_trans s1 s2 s3 lo hi :
  agree_out s1 s2 lo hi → agree_out s2 s3 lo hi → agree_out s1 s3 lo hi.
Proof. 
  intros [a1 a2 a3 a4] [b1 b2 b3 b4]. constructor; intros x Hx.
  - by rewrite b1, a1.
  - by rewrite b2, a2.
  - by rewrite b3, a3.
  - by rewrite b4, a4.
Qed.

Lemma chain_app s a bs1 bs2 :
  chain s a (bs1 ++ bs2) ↔ chain s a bs1 ∧ chain s (after a (total bs1)) bs2.
Proof.
  revert a. induction bs1 as [|b bs1 IH]; intros a; simpl; [rewrite after_0; tauto|].
  rewrite IH, after_after. tauto.
Qed.

Lemma chain_fields s s' a bs :
  f_size s' = f_size s → f_allocated s' = f_allocated s →
  f_prev_allocated s' = f_prev_allocated s → f_prev_size s' = f_prev_size s →
  chain s a bs → chain s' a bs.
Proof.
  intros E1 E2 E3 E4. revert a. induction bs as [|x bs IH]; intros a; [done|].
  intros [[? ? ? ?] ?]. split; [constructor; by rewrite ?E1, ?E2, ?E3, ?E4|by apply IH].
Qed.

Lemma chain_agree s s' lo hi a bs :
  pos_blocks bs → agree_out s s' lo hi → after a (total bs) <= lo ∨ hi <= a →
  chain s a bs → chain s' a bs.
Proof.
  intros Hp Hag. revert a. induction Hp as [|b bs Hb Hp IH]; intros a Hr; simpl in *; [done|].
  pose proof (pos_total _ Hp). destruct Hag as [A1 A2 A3 A4]. intros [[H1 H2 H3 H4] Hch].
  split; [|apply IH; [unfold after in *; lia|done]]. unfold after in Hr.
  constructor; rewrite ?A1, ?A2, ?A3, ?A4; try done; unfold after; lia.
Qed.

Context {LOk : RbLayoutOk}.

Lemma B_val : B = (16 + sizeof_TreeHook + 15) / 16 ∧ rb_BlockCtrlBytes = 16 * B ∧ 2 <= B <= 4096.
Proof.
  destruct LOk as [_ _ Hh].
  unfold rb_BlockCtrlUnits, rb_BlockCtrlBytes, ct_rounded_size, sizeof_SizeHolder, Alignment.
  change (16 =? 0) with false. cbv zeta. cbv iota.
  assert (1 <= (16 + sizeof_TreeHook - 1) / 16 <= 4063) by dlia. u64_simpl.
  change (u64_max / 16) with 1152921504606846975.
  destruct (Z.leb_spec ((16 + sizeof_TreeHook - 1) / 16 + 1) 1152921504606846975); [|lia].
  cbn [from_option]. unfold id. u64_simpl. rewrite Z.div_mul by lia. dlia.
Qed.

(** What the proofs use of the position of the blocks. *)
Lemma core_facts s bs :
  rb_core s bs →
  0 < rb_this ∧ rb_this + sizeof_rbtree <= rb_first s ∧ rb_first s mod 16 = 0 ∧
  rb_first s < rb_this + sizeof_rbtree + h_extra s + 16 ∧
  after (rb_first s) (total bs) = rb_end s ∧ rb_end s + 16 <= rb_this + h_size s ∧
  rb_this + h_size s < 9223372036854775808 ∧ 0 <= total bs ∧ pos_blocks bs.
Proof.
  intros [? ? Hm Htile _ _ _ _ _ _]. destruct LOk as [? ? ?]. destruct B_val as (_ & _ & HB).
  assert (pos_blocks bs) as Hp by (eapply min_pos; [|done]; lia). pose proof (pos_total _ Hp).
  pose proof (round_up_spec (rb_this + sizeof_rbtree + h_extra s) 16 ltac:(lia)) as [? Hdiv].
  apply Z.mod_divide in Hdiv; [|lia]. rewrite Htile. unfold rb_end, rb_first, after in *.
  split_and!; try done; dlia.
Qed.

(** The blocks around one in the middle. *)
Lemma core_split s pre b post :
  rb_core s (pre ++ b :: post) →
  pos_blocks pre ∧ pos_blocks post ∧ min_blocks B pre ∧ min_blocks B post ∧ B <= b_size b ∧
  0 <= total pre ∧ 0 <= total post ∧
  after (after (rb_first s) (total pre)) (b_size b + total post) = rb_end s.
Proof.
  intros Hc. pose proof (core_facts _ _ Hc) as (_ & _ & _ & _ & Ht & _ & _ & _ & Hp).
  apply pos_app in Hp as [Hp1 [? Hp2]%pos_cons].
  pose proof (rc_min _ _ Hc) as [? [? ?]%min_cons]%min_app.
  rewrite total_app in Ht. simpl in Ht. rewrite after_after.
  split_and!; try done; by apply pos_total.
Qed.

(** ** Transitions of the core *)

Lemma size_key_agree s s' lo hi x :
  agree_out s s' lo hi → x < lo ∨ hi <= x → size_key s' x = size_key s x.
Proof. intros Hag Hx. unfold size_key. by rewrite (ag_size _ _ _ _ Hag). Qed.

(** The free blocks lie outside of an allocated one. *)
Lemma frees_outside a pre c post x :
  pos_blocks pre → pos_blocks post → x ∈ frees a (pre ++ Blk c false :: post) →
  x < after a (total pre) ∨ after (after a (total pre)) c <= x.
Proof.
  intros Hp1 Hp2. rewrite frees_app. cbn. rewrite elem_of_app.
  intros [H|H]; apply frees_range in H; try done; lia.
Qed.

Lemma frees_free_perm a pre n post :
  frees a (pre ++ Blk n true :: post) ≡ₚ
    after a (total pre) :: frees a (pre ++ Blk n false :: post).
Proof. rewrite !frees_app. cbn. by rewrite Permutation_middle. Qed.

Lemma core_build s s' bs bs' lo hi :
  rb_core s bs → rb_frame s s' → agree_out s s' lo hi → rb_first s <= lo → hi <= rb_end s →
  total bs' = total bs → min_blocks B bs' →
  elements (m_imultiset s') ≡ₚ frees (rb_first s) bs' →
  ordered (size_key s') (elements (m_imultiset s')) → rb_core s' bs'.
Proof.
  intros [? ? ? ? ? ? ? ? _ _] HF [A1 A2 A3 A4] Hlo Hhi Ht Hm Htree Hord.
  pose proof (rb_frame_first _ _ HF) as E1. pose proof (rb_frame_end _ _ HF) as E2.
  destruct HF as [E3 E4]. constructor; rewrite ?E1, ?E2, ?E3, ?E4, ?Ht; try done.
  - rewrite A3; [done|lia].
  - rewrite A4; [done|lia].
  - rewrite A1; [done|lia].
  - rewrite A2; [done|lia].
Qed.

Section core_middle.
Context (s s' : seg) (pre : list blk) (c : Z) (post : list blk).
Notation a := (after (rb_first s) (total pre)).
Context (HF : rb_frame s s') (Hag : agree_out s s' a (after a c)).

Lemma core_write :
  rb_core s (pre ++ Blk c false :: post) → m_imultiset s' = m_imultiset s →
  rb_core s' (pre ++ Blk c false :: post).
Proof using HF Hag LOk.
  intros Hc Ht. pose proof (core_split _ _ _ _ Hc) as (Hp1 & Hp2 & _ & _ & _ & ? & ? & He).
  cbn in He. eapply core_build; [exact Hc|done|exact Hag| | | | | |]; rewrite ?Ht; try done.
  - unfold after. lia.
  - unfold after in *. lia.
  - apply Hc.
  - apply Hc.
  - eapply ordered_ext; [|apply Hc]. intros x Hx. eapply size_key_agree; [done|].
    rewrite (rc_tree _ _ Hc) in Hx. exact (frees_outside _ _ _ _ _ Hp1 Hp2 Hx).
Qed.

Context {MSOk : ImultisetOk T}.

Lemma core_erase :
  rb_core s (pre ++ Blk c true :: post) → m_imultiset s' = ms_erase a (m_imultiset s) →
  rb_core s' (pre ++ Blk c false :: post) ∧ a ∈ elements (m_imultiset s).
Proof using HF Hag LOk MSOk.
  intros Hc Ht. pose proof (core_split _ _ _ _ Hc) as (Hp1 & Hp2 & Hm1 & Hm2 & HB & ? & ? & He).
  pose proof (core_facts _ _ Hc) as (_ & _ & _ & _ & _ & _ & _ & _ & Hp).
  pose proof (rc_tree _ _ Hc) as Hel. rewrite frees_free_perm in Hel.
  pose proof (frees_nodup (rb_first s) _ Hp) as Hnd. rewrite frees_free_perm in Hnd.
  apply NoDup_cons in Hnd as [Hnin _].
  assert (a ∈ elements (m_imultiset s)) as Hin by (rewrite Hel; apply list_elem_of_here).
  split; [|done]. cbn in *.
  assert (elements (m_imultiset s') ≡ₚ frees (rb_first s) (pre ++ Blk c false :: post)) as Hel'.
  { rewrite Ht, elements_erase by done. by apply filter_ne_perm. }
  eapply core_build; [exact Hc|done|exact Hag| | | | |done|].
  - unfold after. lia.
  - unfold after in *. lia.
  - by rewrite !total_app.
  - apply min_app. split; [done|]. by apply min_cons.
  - apply (ordered_ext (size_key s)).
    + intros x Hx. eapply size_key_agree; [done|]. rewrite Hel' in Hx. exact (frees_outside _ _ _ _ _ Hp1 Hp2 Hx).
    + rewrite Ht, elements_erase by done. apply ordered_filter, Hc.
Qed.
End core_middle.

Section core_tree.
Context (s s' : seg) (pre : list blk) (c : Z) (post : list blk).
Notation a := (after (rb_first s) (total pre)).
Context (HF : rb_frame s s') (Hag : agree_out s s' 0 0).
Context {MSOk : ImultisetOk T}.

Lemma core_not_in : rb_core s (pre ++ Blk c false :: post) → a ∉ elements (m_imultiset s).
Proof using LOk.
  intros Hc. pose proof (core_split _ _ _ _ Hc) as (Hp1 & Hp2 & _ & _ & HB & _).
  destruct B_val as (_ & _ & ?).
  rewrite (rc_tree _ _ Hc). intros Hin. apply frees_outside in Hin; [|done..].
  cbn in HB. unfold after in Hin. lia.
Qed.

(** [t'] is the tree with the block inserted. *)
Lemma core_insert :
  rb_core s (pre ++ Blk c false :: post) →
  elements (m_imultiset s') ≡ₚ a :: elements (m_imultiset s) →
  ordered (size_key s) (elements (m_imultiset s')) →
  rb_core s' (pre ++ Blk c true :: post).
Proof using HF Hag LOk.
  intros Hc Ht Hord. pose proof (core_split _ _ _ _ Hc) as (Hp1 & Hp2 & Hm1 & Hm2 & HB & ? & ? & He).
  assert (rb_first s <= a) by (unfold after; lia). destruct B_val as (_ & _ & HB2).
  pose proof (core_facts _ _ Hc) as (? & ? & _ & _ & _ & _).
  destruct LOk as [_ ? _].
  assert (agree_out s s' (rb_first s) (rb_first s)) as Hag'.
  { destruct Hag as [A1 A2 A3 A4]. constructor; intros x _.
    - apply A1. lia.
    - apply A2. lia.
    - apply A3. lia.
    - apply A4. lia. }
  eapply core_build; [exact Hc|done|exact Hag'|lia| | | | |].
  - cbn in *. unfold after in *. lia.
  - by rewrite !total_app.
  - apply min_app. split; [done|]. by apply min_cons.
  - by rewrite Ht, frees_free_perm, (rc_tree _ _ Hc).
  - eapply ordered_ext; [|done]. intros x _. eapply size_key_agree; [done|lia].
Qed.
End core_tree.

(** Allocated blocks that are adjacent are one to the core. *)
Lemma core_join s pre n m post :
  rb_core s (pre ++ Blk n false :: Blk m false :: post) →
  rb_core s (pre ++ Blk (n + m) false :: post).
Proof.
  intros Hc. pose proof (core_split _ _ _ _ Hc) as (_ & _ & Hm1 & [Hm Hm2]%min_cons & HB & _).
  destruct B_val as (_ & _ & ?). pose proof (core_facts _ _ Hc) as (_ & _ & _ & _ & ? & _ & _ & _).
  pose proof (core_split _ _ _ _ Hc) as (_ & _ & _ & _ & _ & ? & ? & He).
  eapply (core_build s s _ _ (rb_first s) (rb_first s));
    [exact Hc|done|apply agree_refl|lia| | | | |apply Hc].
  - cbn in *. unfold after in *. lia.
  - rewrite !total_app. cbn. lia.
  - apply min_app. split; [done|]. apply min_cons. cbn in *. split; [lia|done].
  - rewrite (rc_tree _ _ Hc), !frees_app. cbn. by rewrite !after_after, Z.add_assoc.
Qed.

Lemma core_cut s pre n k post :
  rb_core s (pre ++ Blk n false :: post) → B <= k → B <= n - k →
  rb_core s (pre ++ Blk k false :: Blk (n - k) false :: post).
Proof.
  intros Hc Hk Hnk. pose proof (core_split _ _ _ _ Hc) as (_ & _ & Hm1 & Hm2 & _ & ? & ? & He).
  destruct B_val as (_ & _ & ?).
  eapply (core_build s s _ _ (rb_first s) (rb_first s));
    [exact Hc|done|apply agree_refl|lia| | | | |apply Hc].
  - cbn in *. unfold after in *. lia.
  - rewrite !total_app. cbn. lia.
  - rewrite min_app, !min_cons. done.
  - rewrite (rc_tree _ _ Hc), !frees_app. cbn. rewrite !after_after.
    by replace (k + (n - k)) with n by lia.
Qed.
End inv.
