(* ===== verification/RbTreeOps.v ===== *)
(** The best-fit algorithm: memory primitives and deallocation. *)

From Stdlib Require Import Sorted.
From S2P Require Import Prelude Blocks MathUtil MemAlgo MemAlgoSpec RbTree.
From S2P Require Import RbTreeInv.

Local Open Scope u64_scope.

Lemma forget_out {V} a len (m : gmap Z V) x :
  ¬ (a <= x < a + len) → forget a len m !! x = m !! x.
Proof.
  intros Hx. unfold forget. destruct (m !! x) eqn:E.
  - apply map_lookup_filter_Some. split; done.
  - apply map_lookup_filter_None. by left.
Qed.

(** Lookups behind writes to the fields. *)
Ltac lkp := repeat first
  [ rewrite lookup_insert_eq
  | rewrite forget_out by (unfold after in *; lia)
  | rewrite lookup_insert_ne by (unfold after in *; lia)
  | rewrite lookup_delete_ne by (unfold after in *; lia) ]; try done.

(** [s'] has other fields than [s] at some places between [lo] and [hi]. *)
Ltac agree := constructor; intros ? ?; cbn; lkp.

Section ops.
Context {T : Type} {MS : Imultiset T} {L : RbLayout} {LOk : RbLayoutOk}.
Notation seg := (rbseg T).
Notation B := rb_BlockCtrlUnits.
Implicit Types s : seg.

(** ** Accesses *)

Lemma wp_ld {V} (f : seg → gmap Z V) a v s Q : f s !! a = Some v → Q v s → wp (ld f a) s Q.
Proof. unfold wp, ld. by intros ->. Qed.
Lemma wp_st f a s (Q : () → seg → Prop) :
  rb_in_segment s a = true → Q () (f s) → wp (st f a) s Q.
Proof. unfold wp, st. by intros ->. Qed.

Lemma rb_in_range s a :
  rb_this + sizeof_rbtree <= a → a + 16 <= rb_this + h_size s → rb_in_segment s a = true.
Proof.
  intros H1 H2. unfold rb_in_segment, sizeof_SizeHolder. apply andb_true_iff.
  split; apply Z.leb_le; lia.
Qed.

(** The segment has room for the end block. *)
Definition seg_ok s : Prop :=
  0 <= h_extra s ∧ rb_first s + 16 <= rb_this + h_size s < 9223372036854775808.

Lemma core_seg_ok s bs : rb_core s bs → seg_ok s.
Proof.
  intros Hc. pose proof (core_facts _ _ Hc) as (_ & ? & _ & _ & Ht & ? & ? & ? & _).
  unfold seg_ok, after in *. pose proof (rc_extra _ _ Hc). lia.
Qed.

Lemma seg_ok_first s :
  seg_ok s → 0 < rb_this ∧ rb_this + sizeof_rbtree <= rb_first s ∧ rb_first s mod 16 = 0 ∧ 0 <= sizeof_rbtree.
Proof.
  intros [? ?]. destruct LOk as [? ? ?].
  pose proof (round_up_spec (rb_this + sizeof_rbtree + h_extra s) 16 ltac:(lia)) as [? Hdiv].
  apply Z.mod_divide in Hdiv; [|lia]. unfold rb_first. split_and!; try done; lia.
Qed.

Lemma check_aligned x : x mod 16 = 0 → check_alignment x = true.
Proof. intros H. unfold check_alignment, Alignment. by apply Z.eqb_eq. Qed.

Lemma wp_first_block_offset s Q :
  seg_ok s → Q (rb_first s - rb_this) s → wp (rb_first_block_offset_from_this (h_extra s)) s Q.
Proof.
  intros Hok HQ. pose proof (seg_ok_first s Hok) as (? & ? & Hmod & ?). destruct Hok as [? ?].
  unfold rb_first_block_offset_from_this, Alignment.
  pose proof (round_up_spec (rb_this + sizeof_rbtree + h_extra s) 16 ltac:(lia)) as [? _].
  fold (rb_first s) in *. u64_simpl.
  rewrite rounded_size_val by (unfold in_u64; fold (rb_first s); lia). fold (rb_first s). u64_simpl.
  wp_step. apply wp_assert; [by apply check_aligned|].
  wp_step. apply wp_assert; [apply check_aligned; by replace (rb_this + (rb_first s - rb_this)) with (rb_first s) by lia|].
  by wp_step.
Qed.

Lemma wp_priv_first_block s Q : seg_ok s → Q (rb_first s) s → wp rb_priv_first_block s Q.
Proof.
  intros Hok HQ. unfold rb_priv_first_block. wp_step. wp_step. wp_step.
  apply wp_first_block_offset; [done|]. wp_step.
  by replace (rb_this + (rb_first s - rb_this)) with (rb_first s) by lia.
Qed.

Lemma wp_priv_end_block s Q : seg_ok s → Q (rb_end s) s → wp rb_priv_end_block s Q.
Proof.
  intros Hok HQ. unfold rb_priv_end_block. wp_step. wp_step. wp_step.
  apply wp_first_block_offset; [done|]. wp_step. wp_step. wp_step.
  pose proof (seg_ok_first s Hok) as (? & ? & ? & ?). destruct Hok as [? ?].
  change rb_EndCtrlBlockUnits with 1. unfold Alignment. u64_simpl.
  assert (1 <= (h_size s - (rb_first s - rb_this)) / 16 <= 1152921504606846975) by dlia. u64_simpl.
  replace (rb_this + _ + _) with (rb_end s) by (unfold rb_end; lia). done.
Qed.

(** ** Blocks *)

Lemma wp_is_allocated_block s a b Q :
  seg_ok s → block_at s a b → 0 <= b_size b <= 1152921504606846975 →
  Q (negb (b_free b)) s → wp (rb_is_allocated_block a) s Q.
Proof.
  intros Hok [H1 H2 H3 _] Hn HQ. unfold rb_is_allocated_block, Alignment.
  wp_step. eapply wp_ld; [done|]. wp_step. apply wp_priv_end_block; [done|].
  wp_step. destruct (negb (a =? rb_end s)); [|by repeat wp_step].
  wp_step. eapply wp_ld; [done|]. u64_simpl. wp_step. eapply wp_ld.
  { replace (a + b_size b * 16) with (after a (b_size b)) by (unfold after; lia). done. }
  apply wp_assert; [by destruct (b_free b)|]. by wp_step.
Qed.

Lemma wp_is_allocated_end s Q :
  seg_ok s → f_allocated s !! rb_end s = Some true → Q true s →
  wp (rb_is_allocated_block (rb_end s)) s Q.
Proof.
  intros Hok H1 HQ. unfold rb_is_allocated_block. wp_step. eapply wp_ld; [done|].
  wp_step. apply wp_priv_end_block; [done|]. rewrite Z.eqb_refl. by repeat wp_step.
Qed.

Lemma wp_next_block s a n Q :
  f_size s !! a = Some n → 0 <= n <= 1152921504606846975 → Q (after a n) s →
  wp (rb_next_block a) s Q.
Proof.
  intros H1 Hn HQ. unfold rb_next_block, Alignment. wp_step. eapply wp_ld; [done|]. wp_step.
  u64_simpl. by replace (a + n * 16) with (after a n) by (unfold after; lia).
Qed.

(** From a block to the free block before it. *)
Lemma wp_prev_block s p n Q :
  block_at s p (Blk n true) → 0 <= n <= 1152921504606846975 → Q p s →
  wp (rb_prev_block (after p n)) s Q.
Proof.
  intros [_ _ H3 H4] Hn HQ. cbn in *. unfold rb_prev_block, Alignment.
  wp_step. eapply wp_ld; [done|]. wp_step. apply wp_assert; [done|].
  wp_step. eapply wp_ld; [by apply H4|]. wp_step. u64_simpl.
  by replace (after p n - n * 16) with p by (unfold after; lia).
Qed.

Lemma wp_is_prev_allocated_true s x Q :
  f_prev_allocated s !! x = Some true → Q true s → wp (rb_is_prev_allocated x) s Q.
Proof. intros H HQ. unfold rb_is_prev_allocated. wp_step. eapply wp_ld; [done|]. by apply wp_ret. Qed.

Lemma wp_is_prev_allocated_false s p n Q :
  seg_ok s → block_at s p (Blk n true) → 0 <= n <= 1152921504606846975 → Q false s →
  wp (rb_is_prev_allocated (after p n)) s Q.
Proof.
  intros Hok Hb Hn HQ. pose proof Hb as [H1 H2 H3 H4]. cbn in *. unfold rb_is_prev_allocated.
  wp_step. eapply wp_ld; [done|]. cbv iota. wp_step. apply wp_priv_first_block; [done|].
  wp_step. destruct (negb (after p n =? rb_first s)); [|by repeat wp_step].
  wp_step. eapply wp_prev_block; [done..|]. wp_step. eapply wp_ld; [done|].
  wp_step. apply wp_assert; [done|]. wp_step. eapply wp_ld; [done|]. wp_step.
  eapply wp_ld; [by apply H4|]. apply wp_assert; [apply Z.eqb_refl|]. by wp_step.
Qed.

Lemma rb_mask x : 0 <= x < 4611686018427387904 → Z.land x rb_size_mask = x.
Proof.
  intros Hx. change rb_size_mask with (Z.ones 62). rewrite Z.land_ones by lia.
  apply Z.mod_small. lia.
Qed.

Lemma rb_wp_st_size a v s (Q : () → seg → Prop) :
  rb_in_segment s a = true → 0 <= v < 4611686018427387904 → Q () (set_f_size <[a := v]> s) →
  wp (rb_st_size a v) s Q.
Proof. intros H1 Hv HQ. apply wp_st; [done|]. by rewrite Z.mod_small. Qed.

Lemma wp_erase a s (Q : option Z → seg → Prop) :
  Q (next_of a (elements (m_imultiset s))) (set_imultiset (ms_erase a) s) → wp (erase_block a) s Q.
Proof. done. Qed.

Context {MSOk : ImultisetOk T}.

(** ** Deallocation *)

(** The positions of a block and of the segment as inequalities. *)
Lemma core_range s pre n post :
  rb_core s (pre ++ Blk n false :: post) →
  let a := after (rb_first s) (total pre) in
  0 < rb_this ∧ rb_this + sizeof_rbtree <= rb_first s ∧ rb_first s <= a ∧ a mod 16 = 0 ∧
  a + 16 * n + 16 <= rb_this + h_size s ∧ rb_this + h_size s < 9223372036854775808 ∧
  2 <= B ∧ B <= n ∧ n <= 1152921504606846975 ∧ 0 <= sizeof_rbtree ∧ a + 16 * n <= rb_end s.
Proof using LOk.
  intros Hc. pose proof (core_facts _ _ Hc) as (? & ? & ? & _ & ? & ? & ? & _).
  pose proof (core_split _ _ _ _ Hc) as (_ & _ & _ & _ & HB & ? & ? & He).
  destruct B_val as (_ & _ & ?). destruct LOk as [_ ? _]. cbn in *. cbv zeta. unfold after in *.
  split_and!; try lia. by rewrite (Z.mul_comm 16), Z.mod_add by lia.
Qed.

(** The same, for a free block. *)
Lemma core_range_free s pre n post :
  rb_core s (pre ++ Blk n true :: post) →
  let a := after (rb_first s) (total pre) in
  0 < rb_this ∧ rb_this + sizeof_rbtree <= rb_first s ∧ rb_first s <= a ∧ a mod 16 = 0 ∧
  a + 16 * n + 16 <= rb_this + h_size s ∧ rb_this + h_size s < 9223372036854775808 ∧
  2 <= B ∧ B <= n ∧ n <= 1152921504606846975 ∧ 0 <= sizeof_rbtree ∧ a + 16 * n <= rb_end s.
Proof using LOk MSOk.
  intros Hc.
  assert (rb_core (set_imultiset (ms_erase (after (rb_first s) (total pre))) s)
            (pre ++ Blk n false :: post)) as Hc'
    by (refine (proj1 (core_erase s _ _ _ _ _ _ Hc _)); [done|by constructor|done]).
  by apply core_range in Hc'.
Qed.

Lemma wp_merge_prev s pre m n post (Q : Z → seg → Prop) :
  rb_core s (pre ++ Blk m true :: Blk n false :: post) →
  let p := after (rb_first s) (total pre) in
  block_at s p (Blk m true) → f_size s !! after p m = Some n →
  (∀ s', rb_core s' (pre ++ Blk (m + n) false :: post) → rb_frame s s' →
     agree_out s s' p (after p m) → f_size s' !! p = Some (m + n) →
     h_allocated s' = h_allocated s → Q p s') →
  wp (rb_merge_with_prev (after p m)) s Q.
Proof using LOk MSOk.
  intros Hc p Hb Hn HQ. pose proof (core_range_free _ _ _ _ Hc) as Hr. cbv zeta in Hr. fold p in Hr.
  assert (0 <= n) as Hn0.
  { apply core_split in Hc as (_ & [? _]%pos_cons & _). cbn in *. lia. }
  assert (after p (m + n) <= rb_end s ∧ rb_end s < 9223372036854775808) as [He1 He2].
  { pose proof (core_facts _ _ Hc) as (? & _ & _ & _ & _ & ? & ? & _).
    pose proof (core_split _ _ _ _ Hc) as (_ & [_ Hp]%pos_cons & _ & _ & _ & _ & _ & He).
    apply pos_total in Hp. cbn in He. fold p in He. unfold after in *. lia. }
  unfold after in He1. pose proof Hb as [H1 _ _ _]. cbn in H1.
  unfold rb_merge_with_prev. wp_step. eapply wp_prev_block; [done|lia|].
  wp_step. eapply wp_ld; [done|]. wp_step. eapply wp_ld; [done|].
  u64_simpl. rewrite rb_mask by lia. wp_step. apply rb_wp_st_size; [apply rb_in_range; lia|lia|].
  wp_step. eapply wp_ld; [cbn; by lkp|]. wp_step. apply wp_assert; [apply Z.leb_le; lia|].
  wp_step. apply wp_erase. wp_step. apply HQ; try done; cbn; [|by agree|by lkp].
  apply core_join. refine (proj1 (core_erase s _ pre m _ _ _ Hc _)); [done| |done]. by agree.
Qed.

Lemma wp_merge_next s pre n k post (Q : () → seg → Prop) :
  rb_core s (pre ++ Blk n false :: Blk k true :: post) →
  let b := after (rb_first s) (total pre) in
  f_size s !! b = Some n → f_size s !! after b n = Some k →
  (∀ s', rb_core s' (pre ++ Blk (n + k) false :: post) → rb_frame s s' →
     agree_out s s' b (after b n) → f_size s' !! b = Some (n + k) →
     h_allocated s' = h_allocated s → Q () s') →
  wp (rb_merge_with_next b (after b n)) s Q.
Proof using LOk MSOk.
  intros Hc b Hn Hk HQ. pose proof (core_range _ _ _ _ Hc) as Hr. cbv zeta in Hr. fold b in Hr.
  assert (rb_core s ((pre ++ [Blk n false]) ++ Blk k true :: post)) as Hc2 by (by rewrite <- app_assoc).
  assert (after (rb_first s) (total (pre ++ [Blk n false])) = after b n) as Ea
    by (rewrite total_app; unfold b; rewrite after_after; cbn; f_equal; lia).
  pose proof (core_range_free _ _ _ _ Hc2) as Hr2. cbv zeta in Hr2. rewrite Ea in Hr2. unfold after in Hr2.
  unfold rb_merge_with_next. wp_step. eapply wp_ld; [done|]. wp_step. eapply wp_ld; [done|].
  u64_simpl. rewrite rb_mask by lia. wp_step. apply rb_wp_st_size; [apply rb_in_range; lia|lia|].
  wp_step. eapply wp_ld; [cbn; by lkp|]. wp_step. apply wp_assert; [apply Z.leb_le; lia|].
  wp_step. apply wp_erase. wp_step. apply HQ; try done; cbn; [|by agree|by lkp].
  apply core_join. replace (pre ++ _) with ((pre ++ [Blk n false]) ++ Blk k false :: post) by (by rewrite <- app_assoc).
  assert (rb_core (set_f_size <[b := n + k]> s) (pre ++ Blk n false :: Blk k true :: post)) as Hc3.
  { eapply (core_write s); [| |exact Hc|]; try done. by agree. }
  rewrite <- Ea. replace (rb_first s) with (rb_first (set_f_size <[b := n + k]> s)) by done.
  refine (proj1 (core_erase (set_f_size <[b := n + k]> s) _ _ _ _ _ _ _ _)); [done|by constructor|by rewrite <- app_assoc|done].
Qed.
(** "Mark as free" and the insertion into the tree. *)
Lemma wp_mark_free s a n (Q : () → seg → Prop) :
  f_size s !! a = Some n → 0 < n <= 1152921504606846975 →
  rb_this + sizeof_rbtree <= a → after a n + 16 <= rb_this + h_size s →
  (let s' := set_f_prev_size <[after a n := n]> (set_f_prev_allocated <[after a n := false]>
               (set_f_allocated <[a := false]> s)) in
   block_at s' a (Blk n true) → agree_out s s' a (after a n) → Q () s') →
  wp (rb_mark_as_free_block a) s Q.
Proof.
  intros Hn Hr H1 H2 HQ. unfold after in H2. unfold rb_mark_as_free_block.
  wp_step. apply wp_st; [apply rb_in_range; lia|]. wp_step. eapply wp_next_block; [done|lia|].
  wp_step. apply wp_st; [apply rb_in_range; cbn; unfold after; lia|]. wp_step. eapply wp_ld; [done|].
  apply wp_st; [apply rb_in_range; cbn; unfold after; lia|].
  apply HQ; [|by agree]. constructor; cbn; try intros _; by lkp.
Qed.

(** An insertion, with or without a hint. *)
Lemma core_inserted s pre n post t :
  rb_core s (pre ++ Blk n false :: post) →
  let b := after (rb_first s) (total pre) in
  let s' := set_imultiset (λ _, t) s in
  elements t ≡ₚ b :: elements (m_imultiset s) → ordered (size_key s) (elements t) →
  rb_core s' (pre ++ Blk n true :: post) ∧ (∀ lo hi, agree_out s s' lo hi) ∧
  (∀ a bs, chain s a bs → chain s' a bs).
Proof using LOk.
  intros Hc b s' H1 H2. split_and!.
  - eapply core_insert; [| |exact Hc|exact H1|exact H2]; [done|by constructor].
  - by constructor.
  - intros a bs. by apply chain_fields.
Qed.

Lemma wp_insert_block s pre n post (Q : () → seg → Prop) :
  rb_core s (pre ++ Blk n false :: post) →
  let b := after (rb_first s) (total pre) in
  (∀ s', rb_core s' (pre ++ Blk n true :: post) → rb_frame s s' → h_allocated s' = h_allocated s →
     (∀ lo hi, agree_out s s' lo hi) → (∀ a bs, chain s a bs → chain s' a bs) → Q () s') →
  wp (insert_block b) s Q.
Proof using LOk MSOk.
  intros Hc b HQ. unfold insert_block. wp_step.
  pose proof (core_not_in _ _ _ _ Hc) as Hnin.
  pose proof (elements_insert (size_key s) b (m_imultiset s) (rc_ordered _ _ Hc) Hnin) as [H1 H2].
  destruct (core_inserted _ _ _ _ _ Hc H1 H2) as (? & ? & ?). by apply HQ.
Qed.

Lemma wp_insert_block_hint s pre n post hint (Q : () → seg → Prop) :
  rb_core s (pre ++ Blk n false :: post) → from_option (.∈ elements (m_imultiset s)) True hint →
  let b := after (rb_first s) (total pre) in
  (∀ s', rb_core s' (pre ++ Blk n true :: post) → rb_frame s s' → h_allocated s' = h_allocated s →
     (∀ lo hi, agree_out s s' lo hi) → (∀ a bs, chain s a bs → chain s' a bs) → Q () s') →
  wp (insert_block_hint hint b) s Q.
Proof using LOk MSOk.
  intros Hc Hh b HQ. unfold insert_block_hint. wp_step.
  pose proof (core_not_in _ _ _ _ Hc) as Hnin.
  pose proof (elements_insert_hint (size_key s) hint b (m_imultiset s) (rc_ordered _ _ Hc) Hnin Hh) as [H1 H2].
  destruct (core_inserted _ _ _ _ _ Hc H1 H2) as (? & ? & ?). by apply HQ.
Qed.

Lemma wp_free_insert s pre n post (Q : () → seg → Prop) :
  rb_core s (pre ++ Blk n false :: post) →
  let b := after (rb_first s) (total pre) in
  f_size s !! b = Some n →
  (∀ s', rb_core s' (pre ++ Blk n true :: post) → block_at s' b (Blk n true) → rb_frame s s' →
     agree_out s s' b (after b n) → h_allocated s' = h_allocated s → Q () s') →
  wp (rb_mark_as_free_block b;; insert_block b) s Q.
Proof using LOk MSOk.
  intros Hc b Hn HQ. pose proof (core_range _ _ _ _ Hc) as Hr. cbv zeta in Hr. fold b in Hr.
  wp_step. eapply wp_mark_free; [done|lia|lia|unfold after; lia|]. intros s1 Hb1 Hag1.
  assert (rb_core s1 (pre ++ Blk n false :: post)) as Hc1 by (by eapply (core_write s)).
  apply (wp_insert_block s1 pre n post); [done|]. intros s2 Hc2 HF2 E2 Hag2 Hch.
  apply HQ; [done| |done| |done].
  - apply (Hch b [Blk n true]). by split.
  - eapply agree_trans; [done|apply Hag2].
Qed.

(** The blocks [l] end where the block to free starts.  The block before it, if
    it is free, is merged with it. *)
Lemma dealloc_prev s pre0 l n post a0 block :
  rb_core s ((pre0 ++ l) ++ Blk n false :: post) → (l = [] → pre0 = []) →
  a0 = after (rb_first s) (total pre0) → block = after a0 (total l) →
  chain s a0 (l ++ Blk n false :: post) →
  ∃ (pa : bool) l' m,
  (∀ k, merge_pre l k = l' ++ [Blk (m + k) true]) ∧ total l = total l' + m ∧ 0 <= m ∧
  chain s a0 l' ∧
  (∀ Q, Q pa s → wp (rb_is_prev_allocated block) s Q) ∧
  (∀ Q : Z → seg → Prop,
   (∀ s', rb_core s' ((pre0 ++ l') ++ Blk (m + n) false :: post) → rb_frame s s' →
      agree_out s s' (after a0 (total l')) block → f_size s' !! after a0 (total l') = Some (m + n) →
      h_allocated s' = h_allocated s → Q (after a0 (total l')) s') →
   wp (if negb pa then rb_merge_with_prev block else mret block) s Q).
Proof using LOk MSOk.
  intros Hc Hl Ea Eb Hch. pose proof (core_seg_ok _ _ Hc) as Hok.
  pose proof (core_range _ _ _ _ Hc) as Hr. cbv zeta in Hr.
  rewrite total_app, <- after_after, <- Ea, <- Eb in Hr.
  pose proof (core_split _ _ _ _ Hc) as ([Hp0 Hpl]%pos_app & _). pose proof (pos_total _ Hp0).
  apply chain_app in Hch as [Hchl [[Hn _ _ _] _]]. cbn in Hn. rewrite <- Eb in Hn.
  destruct l as [|[m fr] l' _] using rev_ind.
  { rewrite (Hl eq_refl) in *. exists true, [], 0. rewrite <- Eb in *. split_and!; try done.
    - intros Q HQ. apply wp_is_prev_allocated_true; [|done].
      rewrite Eb, Ea. cbn. rewrite !after_0. apply Hc.
    - intros Q HQ. apply wp_ret. by apply HQ. }
  apply pos_app in Hpl as [Hpl [Hm _]%pos_cons]. cbn in Hm. pose proof (pos_total _ Hpl).
  apply chain_app in Hchl as [Hchl [Hbm _]].
  rewrite total_app in Eb. cbn in Eb. rewrite Z.add_0_r, <- after_after in Eb.
  assert (0 <= m <= 1152921504606846975) as Hm' by (rewrite Eb, Ea in Hr; unfold after in Hr; lia).
  destruct fr.
  - exists false, l', m. split_and!; [apply merge_pre_last|rewrite total_app; cbn; lia|lia|done| |].
    + intros Q HQ. rewrite Eb. by eapply wp_is_prev_allocated_false.
    + intros Q HQ. cbn [negb]. cbv iota.
      rewrite <- !app_assoc in Hc. cbn in Hc. rewrite app_assoc in Hc.
      assert (after a0 (total l') = after (rb_first s) (total (pre0 ++ l'))) as Ep
        by (by rewrite Ea, total_app, after_after).
      rewrite Eb, Ep in *. by eapply (wp_merge_prev s (pre0 ++ l') m n post).
  - exists true, (l' ++ [Blk m false]), 0.
    split_and!; [|lia|done|by apply chain_app| |].
    + intros k. by rewrite merge_pre_used, <- app_assoc.
    + intros Q HQ. apply wp_is_prev_allocated_true; [|done]. rewrite Eb. by destruct Hbm.
    + intros Q HQ. apply wp_ret.
      assert (after a0 (total (l' ++ [Blk m false])) = block) as E
        by (rewrite Eb, total_app, after_after; cbn; f_equal; lia).
      rewrite E in HQ. by apply HQ.
Qed.

(** The same for the block behind it, which is [k] units and [post'] if [na] is
    false. *)
Definition merge_next_ok s n post block (na : bool) k post' : Prop :=
  ∀ s1 pre' m (Q : () → seg → Prop),
  let ins := after (rb_first s1) (total pre') in
  rb_core s1 (pre' ++ Blk m false :: post) → after ins m = after block n →
  f_size s1 !! ins = Some m → agree_out s s1 ins block →
  (∀ s2, rb_core s2 (pre' ++ Blk (m + k) false :: post') → rb_frame s1 s2 →
     agree_out s1 s2 ins (after ins m) → f_size s2 !! ins = Some (m + k) →
     h_allocated s2 = h_allocated s1 → Q () s2) →
  wp (if negb na then rb_merge_with_next ins (after block n) else mret ()) s1 Q.

Lemma dealloc_next s n post block :
  seg_ok s → chain s (after block n) post → pos_blocks post →
  0 <= n → 0 < block → after (after block n) (total post) = rb_end s →
  f_allocated s !! rb_end s = Some true →
  ∃ (na : bool) k post',
  merge_post n post = (n + k, post') ∧ 0 <= k ∧ total post = k + total post' ∧
  chain s (after block (n + k)) post' ∧
  (∀ Q, Q na s → wp (rb_is_allocated_block (after block n)) s Q) ∧
  merge_next_ok s n post block na k post'.
Proof using LOk MSOk.
  intros Hok Hch Hp Hn0 Hb He Hal.
  assert (∀ na : bool, na = true → (∀ Q, Q na s → wp (rb_is_allocated_block (after block n)) s Q) →
    merge_post n post = (n, post) → ∃ (na : bool) k post', merge_post n post = (n + k, post') ∧ 0 <= k ∧
    total post = k + total post' ∧ chain s (after block (n + k)) post' ∧
    (∀ Q, Q na s → wp (rb_is_allocated_block (after block n)) s Q) ∧ merge_next_ok s n post block na k post')
    as Hno.
  { intros na -> HQ Hm. exists true, 0, post. rewrite !Z.add_0_r. split_and!; try done.
    intros s1 pre' m Q ins Hc1 E1 Hs1 Hag HQ1. apply wp_ret. rewrite Z.add_0_r in HQ1. by apply HQ1. }
  destruct post as [|[k fr] post].
  { apply (Hno true); try done. intros Q HQ. rewrite after_0 in He. rewrite He. by apply wp_is_allocated_end. }
  destruct Hch as [Hbk Hch]. apply pos_cons in Hp as [Hk Hp]. cbn in Hk, He, Hch.
  pose proof (pos_total _ Hp).
  assert (k <= 1152921504606846975).
  { unfold seg_ok in Hok. destruct Hok as (? & ?). destruct LOk.
    unfold rb_end, after in He. unfold rb_first, round_up in *. dlia. }
  destruct fr.
  - exists false, k, post. rewrite <- after_after. split_and!; try done; [lia|..].
    + intros Q HQ. eapply wp_is_allocated_block; [done|done|cbn; lia|done].
    + intros s1 pre' m Q ins Hc1 E1 Hs1 Hag HQ1. cbn [negb]. cbv iota. rewrite <- E1.
      eapply wp_merge_next; [done|done| |done]. fold ins. rewrite E1.
      pose proof (core_range _ _ _ _ Hc1) as Hr. cbv zeta in Hr.
      rewrite (ag_size _ _ _ _ Hag) by (unfold after in *; lia). apply Hbk.
  - apply (Hno true); try done. intros Q HQ. eapply wp_is_allocated_block; [done|done|cbn; lia|done].
Qed.
(** The count of allocated bytes is not part of the core. *)
Lemma core_set_allocated f s bs : rb_core s bs → rb_core (set_h_allocated f s) bs.
Proof. by intros [? ? ? ? ? ? ? ? ? ?]. Qed.
Lemma chain_set_allocated f s a bs : chain s a bs → chain (set_h_allocated f s) a bs.
Proof. by apply chain_fields. Qed.

(** Merging with both neighbours and inserting. *)
Lemma wp_dealloc_merge s pre0 l n post a0 block (Q : () → seg → Prop) :
  rb_core s ((pre0 ++ l) ++ Blk n false :: post) → (l = [] → pre0 = []) →
  a0 = after (rb_first s) (total pre0) → block = after a0 (total l) →
  chain s a0 (l ++ Blk n false :: post) →
  (∀ s', rb_core s' (pre0 ++ free_at l n post) → chain s' a0 (free_at l n post) →
     rb_frame s s' → agree_out s s' a0 (rb_end s) → h_allocated s' = h_allocated s → Q () s') →
  wp (pa ← rb_is_prev_allocated block; na ← rb_is_allocated_block (after block n);
      block_to_insert ← (if negb pa then rb_merge_with_prev block else mret block);
      (if negb na then rb_merge_with_next block_to_insert (after block n) else mret ());;
      rb_mark_as_free_block block_to_insert;;
      insert_block block_to_insert) s Q.
Proof using LOk MSOk.
  intros Hc Hl Ea Eb Hch HQ.
  pose proof (core_split _ _ _ _ Hc) as ([Hp0 Hpl]%pos_app & Hpp & _ & _ & HB & _ & _ & He).
  pose proof (core_range _ _ _ _ Hc) as Hr. cbv zeta in Hr.
  rewrite total_app, <- (after_after _ (total pre0)), <- Ea, <- Eb in Hr, He. cbn in HB, He.
  destruct (dealloc_prev s pre0 l n post a0 block Hc Hl Ea Eb Hch)
    as (pa & l' & m & Hmp & Htl & Hm & Hchl & Hpa & Hprev).
  apply chain_app in Hch as [_ [_ Hchp]]. cbn in Hchp. rewrite <- Eb in Hchp.
  destruct (dealloc_next s n post block) as (na & k & post' & Hmn & Hk & Htk & Hchp' & Hna & Hnext);
    [by eapply core_seg_ok|done|done|lia|lia|by rewrite after_after|apply Hc|].
  wp_step. apply Hpa. wp_step. apply Hna. wp_step. apply Hprev. intros s1 Hc1 HF1 Hag1 Hs1 Eh1.
  assert (after a0 (total l') = after (rb_first s1) (total (pre0 ++ l'))) as Ei
    by (by rewrite (rb_frame_first _ _ HF1), Ea, total_app, after_after).
  assert (after (after a0 (total l')) (m + n) = after block n) as Em
    by (rewrite Eb, Htl, !after_after; f_equal; lia).
  rewrite Ei in *.
  wp_step. eapply Hnext; [exact Hc1|done|done|done|]. intros s2 Hc2 HF2 Hag2 Hs2 Eh2.
  rewrite <- (rb_frame_first _ _ HF2) in *.
  eapply wp_free_insert; [exact Hc2|done|]. intros s3 Hc3 Hb3 HF3 Hag3 Eh3.
  assert (rb_frame s s3) as HF by (by etrans; [|etrans]).
  pose proof (core_split _ _ _ _ Hc3) as ([_ Hpl']%pos_app & Hpp' & _).
  pose proof (pos_total _ Hpl'). pose proof (pos_total _ Hpp'). rewrite <- Ei in *.
  set (ins := after a0 (total l')) in *.
  assert (after ins (m + n + k) = after block (n + k)) as Ek
    by (rewrite <- (after_after _ (m + n)), Em, after_after; done).
  assert (agree_out s s3 ins (after block (n + k))) as Hag.
  { rewrite Em in Hag2. rewrite Ek in Hag3.
    eapply agree_trans; [|eapply agree_trans; [|exact Hag3]];
      eapply agree_weaken; try done; unfold after; lia. }
  assert (free_at l n post = l' ++ Blk (m + n + k) true :: post') as Ef
    by (unfold free_at; rewrite Hmn, Hmp, <- app_assoc, Z.add_assoc; done).
  rewrite Ef in *. apply HQ; [by rewrite <- app_assoc in Hc3| |done| |lia].
  - apply chain_app. split; [eapply chain_agree; [done|exact Hag|by left|done]|].
    split; [done|]. cbn. fold ins. rewrite Ek.
    eapply chain_agree; [done|exact Hag|by right|done].
  - eapply agree_weaken; [exact Hag|unfold ins, after; lia|unfold after in *; lia].
Qed.

Lemma rb_deallocate_local s pre0 l n post a0 :
  rb_core s ((pre0 ++ l) ++ Blk n false :: post) → (l = [] → pre0 = []) →
  a0 = after (rb_first s) (total pre0) →
  chain s a0 (l ++ Blk n false :: post) → 16 * n <= h_allocated s < 9223372036854775808 →
  wp (rb_deallocate (after a0 (total l) + 16)) s (λ _ s',
    rb_core s' (pre0 ++ free_at l n post) ∧ chain s' a0 (free_at l n post) ∧
    rb_frame s s' ∧ agree_out s s' a0 (rb_end s) ∧ h_allocated s' = h_allocated s - 16 * n).
Proof using LOk MSOk.
  intros Hc Hl Ea Hch Hal. pose proof (core_range _ _ _ _ Hc) as Hr. cbv zeta in Hr.
  rewrite total_app, <- (after_after _ (total pre0)), <- Ea in Hr.
  pose proof Hch as [_ [Hbn _]]%chain_app. pose proof Hbn as [Hn _ _ _]. cbn in Hn.
  set (block := after a0 (total l)) in *. unfold rb_deallocate, rb_get_block.
  change rb_AllocatedCtrlBytes with 16. replace (block + 16 - 16) with block by lia.
  destruct (Z.eqb_spec (block + 16) 0); [lia|].
  wp_step. eapply wp_is_allocated_block; [by eapply core_seg_ok|done|cbn; lia|].
  wp_step. apply wp_assert; [done|]. unfold rb_assert_aligned.
  wp_step. apply wp_assert; [apply check_aligned; dlia|].
  wp_step. eapply wp_ld; [done|]. unfold Alignment. wp_step. wp_step. u64_simpl.
  wp_step. apply wp_assert; [apply Z.leb_le; lia|]. wp_step. wp_step. u64_simpl.
  wp_step. eapply wp_next_block; [done|lia|].
  set (s1 := set_h_allocated _ s).
  eapply (wp_dealloc_merge s1 pre0 l n post a0 block); try done.
  - by apply core_set_allocated.
  - by apply chain_set_allocated.
  - intros s' Hc' Hch' HF' [A1 A2 A3 A4] Eh. split_and!; try done.
    rewrite Eh. unfold s1. cbn. by u64_simpl.
Qed.
End ops.
