(* ===== verification/RbTreeAlloc.v ===== *)
(** The best-fit algorithm: deallocation and allocation on the blocks of a
    segment. *)

From stdpp Require Import sorting.
From S2P Require Import Prelude Blocks MathUtil MemAlgo MemAlgoSpec RbTree.
From S2P Require Import RbTreeInv RbTreeOps.

Local Open Scope u64_scope.

Section alloc.
Context {T : Type} {MS : Imultiset T} {MSOk : ImultisetOk T} {L : RbLayout} {LOk : RbLayoutOk}.
Notation seg := (rbseg T).
Notation B := rb_BlockCtrlUnits.
Implicit Types s : seg.

Lemma alloc_range_core s bs : rb_core s bs → 0 <= 16 * used bs < 9223372036854775808.
Proof using LOk.
  intros Hc. pose proof (core_facts _ _ Hc) as (? & ? & ? & _ & ? & ? & ? & ? & Hp).
  pose proof (used_bounds _ Hp). pose proof rl_sizeof. unfold after in *. lia.
Qed.
Lemma alloc_range s bs : rb_rep s bs → 0 <= 16 * used bs < 9223372036854775808.
Proof using LOk. intros [Hc _ _]. by eapply alloc_range_core. Qed.

Lemma rb_deallocate_ok s pre n post :
  rb_rep s (pre ++ Blk n false :: post) →
  wp (rb_deallocate (after (rb_first s) (total pre) + 16)) s
     (λ _ s', rb_rep s' (free_at pre n post) ∧ rb_frame s s').
Proof using LOk MSOk.
  intros HR. pose proof (alloc_range _ _ HR) as Hal. destruct HR as [Hc Hch Eal].
  pose proof (core_split _ _ _ _ Hc) as (Hp1 & Hp2 & _ & _ & HB & _). cbn in HB.
  destruct B_val as (_ & _ & ?). pose proof (used_bounds _ Hp1). pose proof (used_bounds _ Hp2).
  rewrite used_app in *. cbn in *.
  eapply wp_mono.
  { eapply (rb_deallocate_local s [] pre n post); [done|done| |done|lia]. cbn. by rewrite after_0. }
  intros [] s' (Hc' & Hch' & HF & _ & Eal'). split; [|done]. constructor; [done| |].
  - by rewrite (rb_frame_first _ _ HF).
  - rewrite (proj2 (free_at_units _ _ _)). lia.
Qed.

(** Some blocks of a segment are replaced by others of the same total size. *)
Lemma rep_replace s s' pre mid mid' post :
  rb_rep s (pre ++ mid ++ post) → rb_core s' (pre ++ mid' ++ post) → rb_frame s s' →
  let a := after (rb_first s) (total pre) in
  agree_out s s' a (after a (total mid)) → chain s' a mid' → total mid' = total mid →
  h_allocated s' = h_allocated s + 16 * (used mid' - used mid) →
  rb_rep s' (pre ++ mid' ++ post).
Proof using LOk.
  intros [Hc Hch Eal] Hc' HF a Hag Hm' Et Eh.
  pose proof (core_facts _ _ Hc) as (_ & _ & _ & _ & _ & _ & _ & _ & Hp).
  apply pos_app in Hp as [Hp1 [_ Hp2]%pos_app].
  apply chain_app in Hch as [Hch1 [_ Hch2]%chain_app]. fold a in Hch2.
  constructor; [done| |rewrite Eh, Eal, !used_app; lia].
  rewrite (rb_frame_first _ _ HF), !chain_app. fold a. rewrite Et. split_and!; [|done|].
  - eapply chain_agree; [done|exact Hag|by left|done].
  - eapply chain_agree; [done|exact Hag|by right|done].
Qed.

(** ** Taking a free block *)

Lemma wp_mark_allocated s a n (Q : () → seg → Prop) :
  f_size s !! a = Some n → 0 < n <= 1152921504606846975 →
  rb_this + sizeof_rbtree <= a → after a n + 16 <= rb_this + h_size s →
  Q () (set_f_prev_allocated <[after a n := true]> (set_f_allocated <[a := true]> s)) →
  wp (rb_mark_as_allocated_block a) s Q.
Proof.
  intros Hn Hr H1 H2 HQ. unfold after in H2. unfold rb_mark_as_allocated_block, Alignment.
  wp_step. apply wp_st; [apply rb_in_range; lia|]. wp_step. eapply wp_ld; [done|]. u64_simpl.
  replace (a + n * 16) with (after a n) by (unfold after; lia).
  apply wp_st; [apply rb_in_range; cbn; unfold after; lia|]. done.
Qed.
Lemma wp_new_block_ctrl s a (Q : () → seg → Prop) :
  rb_this + sizeof_rbtree <= a → a + 16 <= rb_this + h_size s →
  Q () (set_f_prev_allocated <[a := false]> (set_f_allocated <[a := false]>
         (set_f_size <[a := 0]> (set_f_prev_size (delete a) s)))) →
  wp (new_block_ctrl a) s Q.
Proof.
  intros H1 H2 HQ. unfold new_block_ctrl.
  wp_step. apply wp_st; [by apply rb_in_range|]. wp_step. apply rb_wp_st_size; [by apply rb_in_range|done|].
  wp_step. apply wp_st; [by apply rb_in_range|]. by apply wp_st; [apply rb_in_range|].
Qed.

Lemma wp_alloc_split s pre sz post n (Q : () → seg → Prop) :
  rb_core s (pre ++ Blk sz true :: post) → B <= n → n + B <= sz →
  let b := after (rb_first s) (total pre) in
  (∀ s', rb_core s' (pre ++ Blk n false :: Blk (sz - n) true :: post) →
     f_size s' !! b = Some n → block_at s' (after b n) (Blk (sz - n) true) →
     rb_frame s s' → agree_out s s' b (after b sz) → h_allocated s' = h_allocated s → Q () s') →
  wp (rb_alloc_split n b sz) s Q.
Proof using LOk MSOk.
  intros Hc Hn Hsz b HQ. pose proof (core_range_free _ _ _ _ Hc) as Hr. cbv zeta in Hr. fold b in Hr.
  unfold rb_alloc_split, rb_assert_aligned, Alignment. u64_simpl. rewrite !rb_mask by lia. fold (after b n).
  wp_step. apply rb_wp_st_size; [apply rb_in_range; lia|lia|].
  wp_step. eapply wp_ld; [cbn; by lkp|]. wp_step. apply wp_assert; [apply Z.leb_le; lia|].
  wp_step. apply wp_new_block_ctrl; [unfold after; lia|cbn; unfold after; lia|].
  wp_step. apply wp_assert; [apply check_aligned; unfold after; dlia|].
  wp_step. apply rb_wp_st_size; [apply rb_in_range; cbn; unfold after; lia|lia|].
  wp_step. eapply wp_ld; [cbn; by lkp|]. wp_step. apply wp_assert; [apply Z.leb_le; lia|].
  wp_step. eapply (wp_mark_free _ _ (sz - n)); [cbn; by lkp|lia|unfold after; lia|cbn; unfold after; lia|].
  rewrite after_after, Zplus_minus. intros s5 Hb5 _.
  wp_step. apply wp_erase. set (s6 := set_imultiset _ s5).
  assert (agree_out s s6 b (after b sz)) as Hag by (by agree).
  destruct (core_erase s s6 pre sz post ltac:(done) Hag Hc eq_refl) as [Hc6 Hin].
  apply (core_cut _ _ _ n) in Hc6; [|lia|lia].
  replace (pre ++ _) with ((pre ++ [Blk n false]) ++ Blk (sz - n) false :: post) in Hc6
    by (by rewrite <- app_assoc).
  assert (after (rb_first s6) (total (pre ++ [Blk n false])) = after b n) as Er
    by (rewrite total_app; unfold b; rewrite after_after; cbn; f_equal; lia).
  rewrite <- Er. apply (wp_insert_block_hint _ _ _ _ _ _ Hc6).
  { destruct (next_of b _) as [x|] eqn:E; [|done]. cbn.
    rewrite elements_erase by done. apply next_of_in; [|done].
    rewrite (rc_tree _ _ Hc). apply frees_nodup. apply core_facts in Hc. tauto. }
  intros s7 Hc7 HF7 Eh7 Hag7 Hch7. apply HQ; [| | |done| |done].
  - by rewrite <- app_assoc in Hc7.
  - rewrite (ag_size _ _ _ _ (Hag7 0 0)) by lia. cbn. by lkp.
  - apply (Hch7 _ [Blk (sz - n) true]). split; [|done]. by destruct Hb5.
  - eapply agree_trans; [done|apply Hag7].
Qed.

Lemma wp_alloc_finish s pre n post (Q : Z * Z → seg → Prop) :
  rb_core s (pre ++ Blk n false :: post) → 0 <= h_allocated s <= 9223372036854775808 →
  let b := after (rb_first s) (total pre) in
  f_size s !! b = Some n →
  (∀ s', rb_core s' (pre ++ Blk n false :: post) → block_at s' b (Blk n false) →
     rb_frame s s' → agree_out s s' b (after b n) → h_allocated s' = h_allocated s + 16 * n →
     Q (b + 16, capacity 8 n) s') →
  wp (rb_alloc_finish b) s Q.
Proof using LOk MSOk.
  intros Hc Hh b Hn HQ. pose proof (core_range _ _ _ _ Hc) as Hr. cbv zeta in Hr. fold b in Hr.
  destruct B_val as (_ & EB & HB).
  unfold rb_alloc_finish, Alignment, rb_UsableByPreviousChunk, sizeof_SizeHolder.
  change rb_AllocatedCtrlUnits with 1. rewrite EB.
  wp_step. eapply wp_ld; [done|]. u64_simpl. wp_step. wp_step. u64_simpl.
  wp_step. eapply wp_mark_allocated; [done|lia|lia|cbn; unfold after; lia|].
  wp_step. unfold clear_range, wp at 1. cbn.
  destruct (Z.leb_spec (rb_this + sizeof_rbtree) (b + 16)); [|lia].
  destruct (Z.leb_spec (b + 16 + (16 * B - 16)) (rb_this + h_size s)); [|lia]. cbn.
  wp_step. eapply (wp_next_block _ _ n); [cbn; by rewrite forget_out by lia|lia|].
  wp_step. apply wp_st; [apply rb_in_range; cbn; unfold after; lia|].
  unfold rb_get_user_buffer. change rb_AllocatedCtrlBytes with 16.
  wp_step. replace ((n - 1) * 16 + 8) with (capacity 8 n) by (unfold capacity; lia).
  match goal with |- Q _ ?x => set (s' := x) end.
  assert (agree_out s s' b (after b n)) as Hag by (by agree).
  apply HQ; [by eapply (core_write s)| |done|done|cbn; u64_simpl; lia].
  constructor; cbn; [by lkp..|done].
Qed.

(** [check_and_allocate] of a free block with enough units. *)
Lemma wp_check_and_allocate s pre sz post n recvd (Q : Z * Z → seg → Prop) :
  rb_rep s (pre ++ Blk sz true :: post) → B <= n <= sz →
  let b := after (rb_first s) (total pre) in
  (∀ s', rb_rep s' (pre ++ cut B n sz ++ post) → rb_frame s s' →
     agree_out s s' b (after b sz) → Q (b + 16, capacity 8 (cut_units B n sz)) s') →
  wp (rb_check_and_allocate n b recvd) s Q.
Proof using LOk MSOk.
  intros HR Hn b HQ. pose proof (alloc_range _ _ HR) as Hal. pose proof HR as [Hc Hch Eal].
  pose proof (core_range_free _ _ _ _ Hc) as Hr. cbv zeta in Hr. fold b in Hr.
  apply chain_app in Hch as [_ [[Hb _ _ _] _]]. fold b in Hb. cbn in Hb.
  assert (0 <= h_allocated s <= 9223372036854775808) as Hh by lia.
  unfold rb_check_and_allocate, rb_assert_aligned. u64_simpl.
  wp_step. apply wp_assert; [apply check_aligned; lia|].
  wp_step. eapply wp_ld; [done|].
  assert (∀ s1 s2 k (rest : list blk), cut B n sz = Blk k false :: rest → cut_units B n sz = k → rb_frame s s1 → rb_frame s1 s2 → h_allocated s1 = h_allocated s →
    h_allocated s2 = h_allocated s1 + 16 * k → agree_out s s1 b (after b sz) →
    agree_out s1 s2 b (after b k) → k <= sz → block_at s2 b (Blk k false) → used rest = 0 →
    total rest = sz - k → chain s2 (after b k) rest →
    rb_core s2 (pre ++ (Blk k false :: rest) ++ post) → Q (b + 16, capacity 8 k) s2) as Hfin.
  { intros s1 s2 k rest Ec Eu HF1 HF2 Eh1 Eh2 Hag1 Hag2 Hk Hbk Hu Ht Hch Hc2.
    assert (agree_out s s2 b (after b sz)) as Hag
      by (eapply agree_trans; [done|]; eapply agree_weaken; [done|lia|unfold after; lia]).
    rewrite <- Eu. apply HQ; [|by etrans|done]. rewrite Ec.
    eapply (rep_replace s s2 pre [Blk sz true]); [done|done|by etrans| |by split| |]; cbn;
      rewrite ?Z.add_0_r; [done|lia|lia]. }
  unfold cut, cut_units in Hfin. destruct (Z.leb_spec (n + B) sz) as [Hbig|Hsmall].
  - wp_step. wp_step. apply (wp_alloc_split s pre sz post); [done|lia|lia|]. intros s1 Hc1 Hn1 Hb1 HF1 Hag1 Eh1.
    wp_step. pose proof (rb_frame_first _ _ HF1) as E1. unfold b in *. rewrite <- E1 in *.
    eapply wp_alloc_finish; [done|by rewrite Eh1|done|]. intros s2 Hc2 Hb2 HF2 Hag2 Eh2.
    eapply (Hfin s1 s2 n [Blk (sz - n) true]); try done; try (cbn; lia).
    eapply chain_agree; [pos_tac|exact Hag2|right; lia|by split].
  - destruct (Z.leb_spec n sz); [|lia].
    wp_step. wp_step. apply wp_erase. set (s1 := set_imultiset _ s).
    assert (agree_out s s1 b (after b sz)) as Hag1 by (by constructor).
    destruct (core_erase s s1 pre sz post ltac:(done) Hag1 Hc eq_refl) as [Hc1 _].
    wp_step. eapply (wp_alloc_finish s1); [done|done|done|]. intros s2 Hc2 Hb2 HF2 Hag2 Eh2.
    eapply (Hfin s1 s2 sz []); try done; cbn; lia.
Qed.
(** ** Searching a free block *)

(** The free blocks and their keys in the tree. *)
Lemma free_elem s bs pre sz post :
  rb_rep s bs → bs = pre ++ Blk sz true :: post →
  let x := after (rb_first s) (total pre) in
  x ∈ elements (m_imultiset s) ∧ size_key s x = sz.
Proof using LOk.
  intros [Hc Hch _] -> x. split.
  - rewrite (rc_tree _ _ Hc), frees_free_perm. apply list_elem_of_here.
  - apply chain_app in Hch as [_ [[Hs _ _ _] _]]. unfold size_key. fold x in Hs. by rewrite Hs.
Qed.

Lemma elem_free s bs x :
  rb_rep s bs → x ∈ elements (m_imultiset s) →
  ∃ pre sz post, bs = pre ++ Blk sz true :: post ∧ x = after (rb_first s) (total pre) ∧
    size_key s x = sz.
Proof using LOk.
  intros HR Hx. pose proof HR as [Hc _ _]. rewrite (rc_tree _ _ Hc) in Hx.
  apply frees_lookup in Hx as (pre & sz & post & E & ->).
  exists pre, sz, post. split_and!; [done|done|]. by eapply free_elem.
Qed.

(** No free block with at least [n] units has less than [sz]. *)
Definition best_fit (bs : list blk) (n sz : Z) : Prop :=
  ∀ m, Blk m true ∈ bs → n <= m → sz <= m.

Lemma lower_bound_best s bs n :
  rb_rep s bs →
  match ms_lower_bound (size_key s) n (m_imultiset s) with
  | Some x => ∃ pre sz post, bs = pre ++ Blk sz true :: post ∧
      x = after (rb_first s) (total pre) ∧ n <= sz ∧ best_fit bs n sz
  | None => ∀ m, Blk m true ∈ bs → m < n
  end.
Proof using LOk MSOk.
  intros HR. pose proof HR as [Hc _ _].
  pose proof (lower_bound_first (size_key s) n (m_imultiset s) (rc_ordered _ _ Hc)) as Hlb.
  assert (∀ m, Blk m true ∈ bs → ∃ y, y ∈ elements (m_imultiset s) ∧ size_key s y = m) as Hfree.
  { intros m (l1 & l2 & E)%list_elem_of_split. eexists. by eapply free_elem. }
  destruct (ms_lower_bound _ _ _) as [x|].
  - destruct Hlb as (l1 & l2 & El & Hl1 & Hn). rewrite Forall_forall in Hl1.
    destruct (elem_free s bs x HR) as (pre & sz & post & E & Ex & Ek).
    { rewrite El. apply elem_of_app. right. apply list_elem_of_here. }
    exists pre, sz, post. split_and!; [done|done|lia|].
    intros m Hm Hnm. destruct (Hfree m Hm) as (y & Hy & <-).
    pose proof (rc_ordered _ _ Hc) as Hord. rewrite El in Hy, Hord.
    apply StronglySorted_app_1_r in Hord. inversion_clear Hord as [|? ? _ Hx]. rewrite Forall_forall in Hx.
    apply elem_of_app in Hy as [Hy|[->|Hy]%elem_of_cons]; [|lia|].
    + apply Hl1 in Hy. lia.
    + apply Hx in Hy. lia.
  - intros m Hm. destruct (Hfree m Hm) as (y & Hy & <-). rewrite Forall_forall in Hlb. by apply Hlb.
Qed.

(** The last element of the tree is the biggest free block. *)
Lemma last_biggest s bs :
  rb_rep s bs →
  match last (elements (m_imultiset s)) with
  | Some x => ∃ pre sz post, bs = pre ++ Blk sz true :: post ∧
      x = after (rb_first s) (total pre) ∧ ∀ m, Blk m true ∈ bs → m <= sz
  | None => ∀ m, Blk m true ∉ bs
  end.
Proof using LOk MSOk.
  intros HR. pose proof HR as [Hc _ _].
  assert (∀ m, Blk m true ∈ bs → ∃ y, y ∈ elements (m_imultiset s) ∧ size_key s y = m) as Hfree.
  { intros m (l1 & l2 & E)%list_elem_of_split. eexists. by eapply free_elem. }
  pose proof (rc_ordered _ _ Hc) as Hord.
  destruct (elements (m_imultiset s)) as [|x l _] eqn:El using rev_ind.
  - intros m Hm. destruct (Hfree m Hm) as (y & Hy & _). by apply elem_of_nil in Hy.
  - rewrite last_snoc. destruct (elem_free s bs x HR) as (pre & sz & post & E & Ex & Ek).
    { rewrite El. apply elem_of_app. right. apply list_elem_of_here. }
    exists pre, sz, post. split_and!; [done|done|]. intros m Hm. destruct (Hfree m Hm) as (y & Hy & <-).
    rewrite <- Ek. apply elem_of_app in Hy as [Hy|Hy%list_elem_of_singleton]; [|subst; lia].
    unfold ordered in Hord. rewrite StronglySorted_app in Hord. apply Hord; [done|apply list_elem_of_here].
Qed.
(** ** A new buffer *)

Lemma rb_total_units_val x :
  0 <= x <= 18446744073709551600 →
  rb_get_total_units x = Z.max B (user_units 8 x + 1) ∧
  0 <= user_units 8 x <= 1152921504606846975 ∧ x <= capacity 8 (rb_get_total_units x).
Proof using LOk.
  intros Hx. destruct B_val as (_ & _ & HB). pose proof (user_units_bounds 8 x ltac:(lia) ltac:(lia)).
  assert (rb_get_total_units x = Z.max B (user_units 8 x + 1)) as E.
  { unfold rb_get_total_units, rb_UsableByPreviousChunk, Alignment. change rb_AllocatedCtrlUnits with 1.
    assert (get_rounded_size ((if x <? 8 then 8 else x) -! 8) 16 / 16 = user_units 8 x) as ->.
    { unfold user_units, ceil16. destruct (Z.ltb_spec x 8).
      - rewrite Z.max_l by lia. done.
      - u64_simpl. rewrite rounded_units, Z.max_r by lia. done. }
    u64_simpl. destruct (Z.ltb_spec (user_units 8 x + 1) B); lia. }
  rewrite E. unfold capacity. lia.
Qed.

(** What a request for a new buffer returns: the pointer, the bytes of the buffer
    and the new segment. *)
Inductive rb_new_result s bs (limit prefer : Z) : Z → Z → seg → Prop :=
  | new_preferred pre sz post s' :
      let n := rb_get_total_units prefer in
      bs = pre ++ Blk sz true :: post → n <= sz → best_fit bs n sz →
      rb_rep s' (pre ++ cut B n sz ++ post) → rb_frame s s' →
      rb_new_result s bs limit prefer (after (rb_first s) (total pre) + 16)
        (capacity 8 (cut_units B n sz)) s'
  | new_biggest pre sz post s' :
      bs = pre ++ Blk sz true :: post → sz < rb_get_total_units prefer →
      rb_get_total_units limit <= sz → (∀ m, Blk m true ∈ bs → m <= sz) →
      rb_rep s' (pre ++ Blk sz false :: post) → rb_frame s s' →
      rb_new_result s bs limit prefer (after (rb_first s) (total pre) + 16) (capacity 8 sz) s'
  | new_none :
      (∀ m, Blk m true ∈ bs → m < rb_get_total_units limit) →
      rb_new_result s bs limit prefer 0 prefer s.

Lemma rb_allocate_new_ok aligned sizeof_object s bs limit prefer align :
  rb_rep s bs → 0 <= limit <= prefer → prefer <= 18446744073709551600 → align <= 16 →
  wp (rb_allocate_with aligned sizeof_object cmd_allocate_new limit prefer 0 align) s (λ r s',
    rb_new_result s bs limit prefer (fst (fst r)) (snd (fst r)) s' ∧ snd r = 0).
Proof using LOk MSOk.
  intros HR Hlim Hpref Hal. destruct (rb_total_units_val prefer) as (Ep & Hp & _); [lia|].
  destruct (rb_total_units_val limit) as (El & Hl & _); [lia|].
  assert (rb_get_total_units limit <= rb_get_total_units prefer) as Hle.
  { rewrite El, Ep. unfold user_units, ceil16. apply Z.max_le_compat_l, Z.add_le_mono_r.
    apply Z.div_le_mono; lia. }
  unfold rb_allocate_with. cbn [shrink_in_place allocate_new cmd_allocate_new].
  destruct (Z.ltb_spec prefer limit); [lia|]. change (nz 0) with false. cbn [andb].
  wp_step. wp_step. change (nz 0) with false. cbv iota.
  assert (Alignment <? (if align <? Alignment then Alignment else align) = false) as ->.
  { apply Z.ltb_ge. unfold Alignment. destruct (Z.ltb_spec align 16); lia. }
  wp_step. wp_step. wp_step. wp_step.
  pose proof (lower_bound_best s bs (rb_get_total_units prefer) HR) as Hlb.
  pose proof (last_biggest s bs HR) as Hlast.
  destruct (ms_lower_bound _ _ _) as [x|].
  - destruct Hlb as (pre & sz & post & E & -> & Hn & Hbest). wp_step. rewrite E in HR.
    apply (wp_check_and_allocate s pre sz post); [done|lia|]. intros s' HR' HF _.
    apply wp_ret. split; [|done]. by apply (new_preferred _ _ _ _ pre sz post).
  - destruct (last _) as [x|].
    + destruct Hlast as (pre & sz & post & E & -> & Hbig). pose proof HR as HR0. rewrite E in HR.
      pose proof HR as [Hc Hch _]. apply chain_app in Hch as [_ [[Hsz _ _ _] _]]. cbn in Hsz.
      wp_step. eapply wp_ld; [done|].
      pose proof (core_split _ _ _ _ Hc) as (_ & _ & _ & _ & HBs & _). cbn in HBs.
      destruct (Z.leb_spec (rb_get_total_units limit) sz).
      * wp_step. apply (wp_check_and_allocate s pre sz post); [done|lia|]. intros s' HR' HF _.
        apply wp_ret. split; [|done]. destruct B_val as (_ & _ & HB). unfold cut, cut_units in *.
        destruct (Z.leb_spec (sz + B) sz); [lia|].
        apply (new_biggest _ _ _ _ pre sz post); try done. apply Hlb. rewrite E.
        apply elem_of_app. right. apply list_elem_of_here.
      * wp_step. split; [|done]. apply new_none. intros m Hm. apply Hbig in Hm. lia.
    + wp_step. split; [|done]. apply new_none. intros m Hm. by apply Hlast in Hm.
Qed.
End alloc.
