(* ===== verification/RbTreeHeap.v ===== *)
(** The best-fit algorithm keeps the promises of [BlockAlgoOk].

    With this instance the proofs of [memory_algorithm_common] apply to it too. *)

From S2P Require Import Prelude Blocks MathUtil MemAlgo MemAlgoSpec MemAlgoAlign.
From S2P Require Import RbTree RbTreeInv RbTreeOps RbTreeAlloc.

Local Open Scope u64_scope.

Section instance.
Context {T : Type} {MS : Imultiset T} {MSOk : ImultisetOk T} {L : RbLayout} {LOk : RbLayoutOk}.
Notation seg := (rbseg T).
Notation B := rb_BlockCtrlUnits.
Implicit Types s : seg.

(** Of the region, only what [S] and [K] record is known. *)
Record rb_region s (pre : list blk) (c : Z) (post : list blk) (S K : gmap Z Z) : Prop := {
  rg_core : rb_core s (pre ++ Blk c false :: post);
  rg_pre : chain s (rb_first s) pre;
  rg_post : chain s (after (rb_first s) (total pre + c)) post;
  rg_alloc : h_allocated s = 16 * used (pre ++ Blk c false :: post);
  rg_sizes x n : after (rb_first s) (total pre) <= x < after (rb_first s) (total pre + c) →
    S !! x = Some n → f_size s !! x = Some n;
  rg_marks x n : after (rb_first s) (total pre) <= x < after (rb_first s) (total pre + c) →
    K !! x = Some n →
    f_allocated s !! x = Some true ∧ f_prev_allocated s !! after x n = Some true
}.

(** The blocks that the maps describe. *)
Lemma region_block s pre c post S K j n :
  rb_region s pre c post S K → 0 <= j < c →
  let x := after (rb_first s) (total pre + j) in
  S !! x = Some n → K !! x = Some n → block_at s x (Blk n false).
Proof.
  intros HR Hj x HS HK. pose proof (rg_sizes _ _ _ _ _ _ HR x n) as H1.
  pose proof (rg_marks _ _ _ _ _ _ HR x n) as H2.
  destruct H2 as [H2 H3]; [unfold x, after; lia|done|].
  constructor; cbn; [|done|done|done]. apply H1; [unfold x, after; lia|done].
Qed.

(** Writes inside of the region. *)
Lemma region_update s s' pre c post S K S' K' :
  rb_region s pre c post S K → rb_frame s s' → m_imultiset s' = m_imultiset s →
  h_allocated s' = h_allocated s →
  let a := after (rb_first s) (total pre) in
  agree_out s s' a (after a c) →
  (∀ x n, a <= x < after a c → S' !! x = Some n → f_size s' !! x = Some n) →
  (∀ x n, a <= x < after a c → K' !! x = Some n →
     f_allocated s' !! x = Some true ∧ f_prev_allocated s' !! after x n = Some true) →
  rb_region s' pre c post S' K'.
Proof using LOk.
  intros [Hc H1 H2 H3 _ _] HF Et Eh a Hag HS HK.
  pose proof (core_split _ _ _ _ Hc) as (Hp1 & Hp2 & _).
  pose proof (rb_frame_first _ _ HF) as E.
  constructor; rewrite ?E, ?Eh, <- ?after_after; fold a; try done.
  - by eapply (core_write s).
  - eapply chain_agree; [done|exact Hag|by left|done].
  - rewrite <- after_after in H2. fold a in H2. eapply chain_agree; [done|exact Hag|by right|done].
Qed.

#[local] Obligation Tactic := idtac.

#[export] Program Instance rb_algo_ok : BlockAlgoOk seg := {
  base := rb_first;
  frame := rb_frame;
  rep := rb_rep;
  region := rb_region
}.
Next Obligation. intros s s'. apply rb_frame_first. Qed.
Next Obligation. destruct B_val as (_ & ? & ?). cbn. unfold rb_UsableByPreviousChunk. split_and!; done || lia. Qed.
Next Obligation. apply rb_mask. Qed.
Next Obligation. done. Qed.
Next Obligation. done. Qed.
Next Obligation.
  intros x Hx. destruct (rb_total_units_val x) as (E & ? & ?); [lia|]. destruct B_val as (_ & _ & ?).
  pose proof (user_units_bounds 8 x ltac:(lia) ltac:(lia)). cbn. split; [lia|done].
Qed.
Next Obligation.
  intros s bs [Hc _ _]. pose proof (core_facts _ _ Hc) as (? & ? & ? & _ & ? & ? & ? & _).
  destruct LOk as [_ ? _]. split_and!; [done|lia|lia|apply Hc].
Qed.
Next Obligation.
  intros s pre n post [Hc Hch _]. pose proof (core_range _ _ _ _ Hc) as Hr. cbv zeta in Hr.
  apply chain_app in Hch as [_ [Hb _]].
  eapply wp_is_allocated_block; [by eapply core_seg_ok|done|cbn; lia|done].
Qed.
Next Obligation. intros s pre n post. apply rb_deallocate_ok. Qed.
Next Obligation.
  intros s pre c post S K [Hc _ _ _ _ _].
  pose proof (core_facts _ _ Hc) as (? & ? & ? & _ & Ht & ? & ? & _).
  pose proof (core_split _ _ _ _ Hc) as (_ & _ & Hm1 & Hm2 & HB & _).
  rewrite total_app in Ht. cbn in Ht, HB. rewrite Z.add_assoc in Ht.
  destruct LOk as [_ ? _]. split_and!; try done; lia.
Qed.
Next Obligation.
  intros s pre c post [Hc Hch Hal]. apply chain_app in Hch as [H1 [[H2 H3 H4 _] H5]]. cbn in H2, H3, H4, H5.
  rewrite after_after in H5. constructor; try done.
  - intros x n _. rewrite lookup_singleton. case_decide; [subst|done]. by intros [= ->].
  - intros x n _. rewrite lookup_singleton. case_decide; [subst|done]. by intros [= ->].
Qed.
Next Obligation.
  intros s pre c post S K HR a HS HK. pose proof HR as [Hc H1 H2 H3 _ _].
  pose proof (core_range _ _ _ _ Hc) as Hr. cbv zeta in Hr. constructor; [done| |done].
  apply chain_app. split; [done|]. split; [|by rewrite after_after].
  pose proof (region_block _ _ _ _ _ _ 0 c HR) as Hb. rewrite Z.add_0_r in Hb. apply Hb; [lia|done|done].
Qed.
Next Obligation.
  cbn. intros s pre k c post S K HR Hk Hck HS HK. pose proof HR as [Hc H1 H2 H3 H4 H5].
  destruct B_val as (_ & _ & HB).
  pose proof (region_block _ _ _ _ _ _ 0 k HR) as Hb. rewrite Z.add_0_r in Hb.
  assert (total (pre ++ [Blk k false]) = total pre + k) as Et by (rewrite total_app; cbn; lia).
  constructor; rewrite ?Et; try done.
  - rewrite <- app_assoc. by apply core_cut.
  - apply chain_app. split; [done|]. split; [|done]. apply Hb; [lia|done|done].
  - by replace (total pre + k + (c - k)) with (total pre + c) by lia.
  - rewrite H3, !used_app. cbn. lia.
  - intros x n Hx. apply H4. unfold after in *. lia.
  - intros x n Hx. apply H5. unfold after in *. lia.
Qed.
Next Obligation.
  cbn. intros s pre f c post S K HR Hf Hcf HS HK. pose proof HR as [Hc H1 H2 H3 H4 H5].
  destruct B_val as (_ & _ & HB).
  pose proof (region_block _ _ _ _ _ _ f (c - f) HR) as Hb.
  constructor; try done.
  - by apply core_cut.
  - split; [apply Hb; [lia|done|done]|]. cbn. rewrite after_after.
    by replace (total pre + f + (c - f)) with (total pre + c) by lia.
  - rewrite H3, !used_app. cbn. lia.
  - intros x n Hx. apply H4. unfold after in *. lia.
  - intros x n Hx. apply H5. unfold after in *. lia.
Qed.
Next Obligation.
  cbn. intros s pre c post S K j n HR Hj HS. eapply wp_ld; [|done].
  eapply rg_sizes; [done|unfold after; lia|done].
Qed.
Next Obligation.
  cbn. intros s pre c post S K j v HR Hj Hv. pose proof HR as [Hc _ _ _ H4 H5].
  pose proof (core_range _ _ _ _ Hc) as Hr. cbv zeta in Hr.
  rewrite <- after_after in *. set (a := after (rb_first s) (total pre)) in *.
  apply rb_wp_st_size; [apply rb_in_range; unfold after; lia|done|]. split; [|done].
  eapply (region_update s); [done|done|done|done|by agree| |].
  - intros x n Hx. cbn. rewrite !lookup_insert. case_decide; [done|].
    by apply H4.
  - intros x n Hx. by apply H5.
Qed.
Next Obligation.
  cbn. intros s pre c post S K j n HR Hj Hn Hc0 HS. pose proof HR as [Hc _ _ _ H4 H5].
  pose proof (core_range _ _ _ _ Hc) as Hr. cbv zeta in Hr.
  rewrite <- after_after in *. set (a := after (rb_first s) (total pre)) in *.
  apply (wp_mark_allocated _ _ n); [|lia|unfold after; lia|unfold after; lia|].
  { apply H4; [unfold after; lia|done]. }
  split; [|done]. eapply (region_update s); [done|done|done|done|by agree| |].
  - intros x m Hx. by apply H4.
  - intros x m Hx. cbn. rewrite (lookup_insert _ _ x), !lookup_insert. case_decide; subst.
    + intros [= ->]. by rewrite !decide_True.
    + intros HKx. destruct (H5 x m) as [E1 E2]; [done|done|].
      rewrite E1, E2. split; [done|by case_decide].
Qed.
Next Obligation.
  cbn. intros s pre f k n post S K HR _ _. pose proof HR as [Hc H1 H2 H3 _ _].
  set (pre0 := pre ++ [Blk f false]).
  assert (rb_core s ((pre0 ++ [Blk k false]) ++ Blk n false :: post)) as Hc'
    by (unfold pre0; by rewrite <- !app_assoc).
  assert (total pre0 = total pre + f) as Et by (unfold pre0; rewrite total_app; cbn; lia).
  pose proof (core_split _ _ _ _ Hc) as (Hp1 & Hp2 & _ & _ & HB & _). cbn in HB.
  apply pos_cons in Hp2 as [Hk [_ Hp2]%pos_cons]. cbn in Hk. destruct B_val as (_ & _ & HB2).
  pose proof (alloc_range_core _ _ Hc) as Hal.
  pose proof (used_bounds _ Hp1). pose proof (used_bounds _ Hp2). rewrite used_app in H3, Hal. cbn in H3, Hal.
  replace (after (rb_first s) (total pre + f + k))
    with (after (after (rb_first s) (total pre0)) (total [Blk k false]))
    by (rewrite Et, after_after; cbn; f_equal; lia).
  eapply wp_mono.
  { eapply (rb_deallocate_local s pre0 [Blk k false] n post _ Hc' ltac:(done) eq_refl);
      [by rewrite Et|lia]. }
  intros [] s' (Hc2 & Hch2 & HF & Hag & Eh). split; [|done].
  change [Blk k false] with ([] ++ [Blk k false]) in Hc2, Hch2. rewrite free_at_used in Hc2, Hch2.
  unfold pre0 in Hc2. rewrite <- app_assoc in Hc2. cbn [app] in Hc2, Hch2.
  pose proof (rb_frame_first _ _ HF) as E1.
  constructor; rewrite ?E1; try done.
  - eapply chain_agree; [done|exact Hag|left; unfold after; lia|done].
  - by rewrite <- Et.
  - rewrite Eh, H3, used_app. cbn. rewrite (proj2 (free_at_units _ _ _)). cbn. lia.
Qed.

(** Its [priv_allocate] allocates as promised. *)
#[export] Instance rb_allocate_ok aligned sizeof_object :
  AllocateOk (rb_allocate_with aligned sizeof_object).
Proof.
  intros s bs limit prefer align HR _ Hl Hp Ha.
  eapply wp_mono; [by apply rb_allocate_new_ok|]. intros [[p r] ru] s' [Hres _]. cbn [fst snd] in *.
  destruct (rb_total_units_val prefer) as (E1 & ? & Hc1); [lia|].
  destruct (rb_total_units_val limit) as (E2 & ? & Hc2); [lia|].
  destruct Hres as [pre sz post s' n -> Hn _ HR' HF|pre sz post s' -> _ Hn _ HR' HF|_]; [right..|by left].
  - exists pre, sz, post, (cut_units B n sz), (tail (cut B n sz)). rewrite cut_tail in HR'. cbn.
    destruct B_val as (_ & _ & HB). unfold rb_UsableByPreviousChunk.
    unfold capacity, cut_units, cut in *. fold n in E1, Hc1.
    destruct (Z.leb_spec (n + B) sz); split_and!; try done; try lia; try (by left); right; split; done || lia.
  - exists pre, sz, post, sz, []. unfold capacity in *. cbn. unfold rb_UsableByPreviousChunk.
    split_and!; try done; try lia. by left.
Qed.
End instance.
