(* ===== verification/RbTreeResize.v ===== *)
(** The best-fit algorithm: expansion of a buffer, forwards and backwards. *)

From stdpp Require Import sorting.
From S2P Require Import Prelude Blocks MathUtil MemAlgo MemAlgoSpec MemAlgoAlign.
From S2P Require Import MemAlgoLcm RbTree RbTreeInv RbTreeOps RbTreeAlloc RbTreeHeap.

Local Open Scope u64_scope.

Section resize.
Context {T : Type} {MS : Imultiset T} {MSOk : ImultisetOk T} {L : RbLayout} {LOk : RbLayoutOk}.
Notation seg := (rbseg T).
Notation B := rb_BlockCtrlUnits.
Implicit Types s : seg.

(** ** Forwards *)

(** The free block behind an allocated one is taken out of the tree, and both
    are one block to the core. *)
Lemma core_take_next s pre n m post :
  rb_core s (pre ++ Blk n false :: Blk m true :: post) →
  let b := after (rb_first s) (total pre) in
  rb_core (set_imultiset (ms_erase (after b n)) s) (pre ++ Blk (n + m) false :: post).
Proof using LOk MSOk.
  intros Hc b. replace (pre ++ _) with ((pre ++ [Blk n false]) ++ Blk m true :: post) in Hc
    by (by rewrite <- app_assoc).
  assert (after (rb_first s) (total (pre ++ [Blk n false])) = after b n) as Ea
    by (rewrite total_app; unfold b; rewrite after_after; cbn; f_equal; lia).
  apply core_join. replace (pre ++ _) with ((pre ++ [Blk n false]) ++ Blk m false :: post)
    by (by rewrite <- app_assoc).
  refine (proj1 (core_erase s _ _ _ _ _ _ Hc _)); [done|by constructor|by rewrite Ea].
Qed.

Section expand.
Context (s : seg) (pre : list blk) (n m : Z) (post : list blk).
Context (HR : rb_rep s (pre ++ Blk n false :: Blk m true :: post)).
Let b := after (rb_first s) (total pre).

Lemma expand_range :
  0 < rb_this ∧ rb_this + sizeof_rbtree <= b ∧ 0 < b ∧ b mod 16 = 0 ∧ 2 <= B ∧ B <= n ∧ B <= m ∧
  b + 16 * (n + m) + 16 <= rb_this + h_size s ∧ rb_this + h_size s < 9223372036854775808 ∧
  0 <= h_allocated s /\ h_allocated s + 16 * m < 9223372036854775808 ∧
  block_at s b (Blk n false) ∧ block_at s (after b n) (Blk m true).
Proof using HR LOk MSOk.
  pose proof (rr_core _ _ HR) as Hc. pose proof (rr_chain _ _ HR) as Hch.
  pose proof (core_range _ _ _ _ (core_take_next _ _ _ _ _ Hc)) as Hr. cbv zeta in Hr.
  change (rb_first (set_imultiset _ s)) with (rb_first s) in Hr. fold b in Hr. cbn in Hr.
  apply chain_app in Hch as [_ [Hb1 [Hb2 _]]]. fold b in Hb1, Hb2. cbn in Hb2.
  pose proof (core_split _ _ _ _ Hc) as (_ & _ & _ & [Hm _]%min_cons & Hn & _). cbn in Hm, Hn.
  pose proof (alloc_range_core _ _ (core_take_next _ _ _ _ _ Hc)) as Hal.
  pose proof (rr_alloc _ _ HR) as Eal. rewrite used_app in Hal, Eal. cbn in Hal, Eal.
  pose proof (alloc_range _ _ HR) as Hal'. rewrite used_app in Hal'. cbn in Hal'.
  split_and!; try done; lia.
Qed.

Lemma wp_expand_split i (Q : () → seg → Prop) :
  n < i → i + B <= n + m →
  (∀ s', rb_core s' (pre ++ Blk i false :: Blk (n + m - i) true :: post) → rb_frame s s' →
     agree_out s s' b (after b (n + m)) → f_size s' !! b = Some i →
     block_at s' (after b i) (Blk (n + m - i) true) →
     h_allocated s' = h_allocated s + 16 * (i - n) → Q () s') →
  wp (rb_expand_split b (after b n) i (n + m) (i - 1) n) s Q.
Proof using HR LOk MSOk.
  intros Hi Hcut HQ. destruct expand_range as (? & ? & ? & Hal & ? & ? & ? & ? & ? & ? & ? & Hb1 & Hb2).
  pose proof (core_take_next _ _ _ _ _ (rr_core _ _ HR)) as Hc1. fold b in Hc1.
  unfold rb_expand_split, rb_assert_aligned, Alignment. change rb_AllocatedCtrlUnits with 1.
  wp_step. eapply wp_ld; [apply Hb2|]. cbn [b_size].
  wp_step. eapply (wp_next_block _ _ m); [apply Hb2|lia|].
  wp_step. eapply wp_ld; [by apply Hb2|]. wp_step. apply wp_assert; [apply Z.eqb_refl|].
  u64_simpl. rewrite !rb_mask by lia. replace (b + i * 16) with (after b i) by (unfold after; lia).
  wp_step. apply wp_erase. set (s1 := set_imultiset _ s) in *.
  wp_step. apply wp_new_block_ctrl; [unfold after; lia|cbn; unfold after; lia|].
  wp_step. apply rb_wp_st_size; [apply rb_in_range; cbn; unfold after; lia|lia|].
  wp_step. apply wp_assert; [apply check_aligned; unfold after; dlia|].
  wp_step. eapply wp_ld; [cbn; by lkp|]. wp_step. apply wp_assert; [apply Z.leb_le; lia|].
  wp_step. eapply (wp_mark_free _ _ (n + m - i)); [cbn; by lkp|lia|unfold after; lia|cbn; unfold after; lia|].
  rewrite after_after, Zplus_minus. intros s2 Hb _.
  assert (agree_out s1 s2 b (after b (n + m))) as Hag2 by (by agree).
  assert (rb_core s2 (pre ++ Blk (n + m) false :: post)) as Hc2 by (by eapply (core_write s1)).
  apply (core_cut _ _ _ i) in Hc2; [|lia|lia].
  replace (pre ++ _) with ((pre ++ [Blk i false]) ++ Blk (n + m - i) false :: post) in Hc2
    by (by rewrite <- app_assoc).
  assert (after (rb_first s2) (total (pre ++ [Blk i false])) = after b i) as Er
    by (rewrite total_app; unfold b; rewrite after_after; cbn; f_equal; lia).
  wp_step. rewrite <- Er. apply (wp_insert_block _ _ _ _ _ Hc2). intros s3 Hc3 HF3 Eh3 Hag3 Hch3.
  rewrite <- app_assoc in Hc3. cbn [app] in Hc3.
  pose proof HF3 as [E1 E2]. cbn in E1, E2. pose proof (rb_frame_first _ _ HF3) as E3.
  wp_step. replace (i - 1 + 1) with i by lia.
  apply rb_wp_st_size; [apply rb_in_range; lia|lia|].
  wp_step. eapply wp_ld; [cbn; by lkp|]. wp_step. apply wp_assert; [apply Z.leb_le; lia|].
  wp_step. cbn in Eh3. set (s4 := set_h_allocated _ _).
  assert (agree_out s3 s4 b (after b i)) as Hag4 by (by agree).
  assert (agree_out s s4 b (after b (n + m))) as Hag.
  { eapply agree_trans; [|eapply agree_weaken; [exact Hag4|lia|unfold after; lia]].
    eapply agree_trans; [|apply Hag3]. by agree. }
  apply HQ; [| |done| | |].
  - assert (b = after (rb_first s3) (total pre)) as Eb by (by rewrite E3).
    rewrite Eb in Hag4. by eapply (core_write s3).
  - done.
  - cbn. by lkp.
  - assert (chain s4 (after b i) [Blk (n + m - i) true]) as [? _]; [|done].
    eapply chain_agree; [pos_tac|exact Hag4|right; lia|]. apply Hch3. split; [|done].
    by destruct Hb.
  - unfold s4. cbn. rewrite Eh3. u64_simpl. lia.
Qed.

Lemma wp_expand_merge (Q : () → seg → Prop) :
  (∀ s', rb_core s' (pre ++ Blk (n + m) false :: post) → rb_frame s s' →
     agree_out s s' b (after b (n + m)) → f_size s' !! b = Some (n + m) →
     h_allocated s' = h_allocated s + 16 * m → Q () s') →
  wp (rb_expand_merge b (after b n) (n + m) n) s Q.
Proof using HR LOk MSOk.
  intros HQ. destruct expand_range as (? & ? & ? & Hal & ? & ? & ? & ? & ? & ? & ? & Hb1 & Hb2).
  pose proof (core_take_next _ _ _ _ _ (rr_core _ _ HR)) as Hc1. fold b in Hc1.
  unfold rb_expand_merge, Alignment. u64_simpl. rewrite rb_mask by lia.
  wp_step. apply wp_erase. set (s1 := set_imultiset _ s) in *.
  wp_step. apply rb_wp_st_size; [apply rb_in_range; cbn; lia|lia|].
  wp_step. eapply wp_ld; [cbn; by lkp|]. wp_step. apply wp_assert; [apply Z.leb_le; lia|].
  wp_step. set (s2 := set_h_allocated _ _).
  apply HQ; [|done|by agree|cbn; by lkp|unfold s2; cbn; u64_simpl; lia].
  eapply (core_write s1); [done| |exact Hc1|done].
  change (rb_first s1) with (rb_first s). fold b. by agree.
Qed.

(** The block is marked again; the sizes and the tree are done. *)
Lemma wp_expand_finish s1 k rest (Q : bool * Z → seg → Prop) :
  rb_core s1 (pre ++ Blk k false :: rest ++ post) → rb_frame s s1 →
  agree_out s s1 b (after b (n + m)) → f_size s1 !! b = Some k →
  chain s1 (after b k) rest → pos_blocks rest → used rest = 0 → k + total rest = n + m →
  h_allocated s1 = h_allocated s + 16 * (k - n) →
  (∀ s', rb_rep s' (pre ++ Blk k false :: rest ++ post) → rb_frame s s' →
     Q (true, capacity 8 k) s') →
  wp (rb_mark_as_allocated_block b;; x ← rb_ld_size b;
      mret (true, (x -! rb_AllocatedCtrlUnits) *! Alignment +! rb_UsableByPreviousChunk)) s1 Q.
Proof using HR LOk MSOk.
  intros Hc1 HF1 Hag1 Hk Hch Hpr Hu Ht Eh HQ.
  destruct expand_range as (? & ? & ? & Hal & ? & ? & ? & ? & ? & ? & ? & _).
  pose proof (core_range _ _ _ _ Hc1) as Hr. cbv zeta in Hr. rewrite (rb_frame_first _ _ HF1) in Hr. fold b in Hr.
  pose proof (pos_total _ Hpr). unfold Alignment, rb_UsableByPreviousChunk. change rb_AllocatedCtrlUnits with 1.
  wp_step. eapply wp_mark_allocated; [done|lia|lia|unfold after; lia|]. set (s2 := set_f_prev_allocated _ _).
  assert (agree_out s1 s2 b (after b k)) as Hag2 by (by agree).
  wp_step. eapply wp_ld; [done|]. wp_step. u64_simpl.
  replace ((k - 1) * 16 + 8) with (capacity 8 k) by (unfold capacity; lia). apply HQ; [|done].
  eapply (rep_replace s s2 pre [Blk n false; Blk m true] (Blk k false :: rest) post);
    [done| |done| | | |]; cbn; rewrite ?Z.add_0_r; fold b; try lia.
  - unfold b in Hag2. rewrite <- (rb_frame_first _ _ HF1) in Hag2. by eapply (core_write s1).
  - eapply agree_trans; [exact Hag1|]. eapply agree_weaken; [done|lia|unfold after; lia].
  - split; [constructor; cbn; by lkp|]. eapply chain_agree; [done|exact Hag2|right; lia|done].
Qed.

Lemma wp_expand_next prefer (Q : bool * Z → seg → Prop) :
  n <= user_units 8 prefer → user_units 8 prefer <= 1152921504606846976 →
  (∀ s', let i := 1 + Z.min (user_units 8 prefer) (n + m - 1) in
     rb_rep s' (pre ++ cut B i (n + m) ++ post) → rb_frame s s' →
     Q (true, capacity 8 (cut_units B i (n + m))) s') →
  let iu := if n + m - 1 <? user_units 8 prefer then n + m - 1 else user_units 8 prefer in
  wp ((if B <=? (n + m -! (1 +! iu))
       then rb_expand_split b (after b n) (1 +! iu) (n + m) iu n
       else rb_expand_merge b (after b n) (n + m) n);;
      rb_mark_as_allocated_block b;; x ← rb_ld_size b;
      mret (true, (x -! rb_AllocatedCtrlUnits) *! Alignment +! rb_UsableByPreviousChunk)) s Q.
Proof using HR LOk MSOk.
  intros Hn Hu HQ iu. destruct expand_range as (? & ? & ? & Hal & ? & ? & ? & ? & ? & ? & ? & _).
  assert (iu = Z.min (user_units 8 prefer) (n + m - 1)) as E
    by (unfold iu; destruct (Z.ltb_spec (n + m - 1) (user_units 8 prefer)); lia).
  rewrite E in *. clear iu E. set (iu := Z.min _ _) in *. u64_simpl. cbv zeta in HQ.
  unfold cut, cut_units in HQ.
  wp_step. destruct (Z.leb_spec B (n + m - (1 + iu))), (Z.leb_spec (1 + iu + B) (n + m)); try lia.
  - replace iu with (1 + iu - 1) at 2 by lia. apply wp_expand_split; [lia|lia|].
    intros s1 Hc1 HF1 Hag1 Hs1 Hb1 Eh1.
    apply (wp_expand_finish s1 (1 + iu) [Blk (n + m - (1 + iu)) true]); try done; cbn; [pos_tac|lia].
  - apply wp_expand_merge. intros s1 Hc1 HF1 Hag1 Hs1 Eh1.
    apply (wp_expand_finish s1 (n + m) []); try done; cbn; [pos_tac|lia|lia].
Qed.
End expand.

(** What [priv_expand] returns, and the segment after it. *)
Definition expand_post s pre n post (min_size prefer : Z) (r : bool * Z) s' : Prop :=
  if min_size <=? capacity 8 n then r = (true, capacity 8 n) ∧ s' = s else
  match post with
  | Blk m true :: post' =>
      let i := 1 + Z.min (user_units 8 prefer) (n + m - 1) in
      if n + m - 1 <? user_units 8 min_size then r = (false, capacity 8 (n + m)) ∧ s' = s
      else r = (true, capacity 8 (cut_units B i (n + m))) ∧
           rb_rep s' (pre ++ cut B i (n + m) ++ post') ∧ rb_frame s s'
  | _ => r = (false, capacity 8 n) ∧ s' = s
  end.

Lemma rb_expand_ok s pre n post min_size prefer :
  rb_rep s (pre ++ Blk n false :: post) → 0 <= min_size <= prefer → prefer <= 18446744073709551600 →
  wp (rb_expand (after (rb_first s) (total pre) + 16) min_size prefer) s
     (expand_post s pre n post min_size prefer).
Proof using LOk MSOk.
  intros HR Hmin Hpref. set (b := after (rb_first s) (total pre)).
  pose proof (rr_core _ _ HR) as Hc. pose proof (core_range _ _ _ _ Hc) as Hr. cbv zeta in Hr. fold b in Hr.
  pose proof (rr_chain _ _ HR) as Hch. apply chain_app in Hch as [_ [Hb Hch]]. fold b in Hb, Hch.
  pose proof (user_units_bounds 8 min_size ltac:(lia) ltac:(lia)) as Hmu.
  pose proof (user_units_bounds 8 prefer ltac:(lia) ltac:(lia)) as Hpu.
  assert (user_units 8 min_size <= user_units 8 prefer) as Hle.
  { unfold user_units, ceil16. apply Z.div_le_mono; lia. }
  unfold rb_expand, rb_get_block, rb_assert_aligned, Alignment, rb_UsableByPreviousChunk.
  change rb_AllocatedCtrlUnits with 1. change rb_AllocatedCtrlBytes with 16.
  replace (b + 16 - 16) with b by lia. rewrite !ceil_units_sub by lia.
  wp_step. eapply wp_ld; [apply Hb|]. cbn [b_size].
  wp_step. eapply wp_is_allocated_block; [by eapply core_seg_ok|done|cbn; lia|].
  wp_step. apply wp_assert; [done|]. u64_simpl.
  replace ((n - 1) * 16 + 8) with (capacity 8 n) by (unfold capacity; lia). unfold expand_post.
  destruct (Z.leb_spec min_size (capacity 8 n)).
  { rewrite orb_true_r. by apply wp_ret. }
  destruct (Z.leb_spec prefer (capacity 8 n)); [lia|]. cbn [orb].
  assert (n <= user_units 8 min_size) as Hnu by (unfold capacity in *; lia).
  wp_step. apply wp_assert; [by apply Z.leb_le|].
  wp_step. eapply wp_next_block; [apply Hb|cbn; lia|]. cbn [b_size].
  destruct post as [|[m fr] post].
  { wp_step. replace (after b n) with (rb_end s).
    - eapply wp_is_allocated_end; [by eapply core_seg_ok|apply Hc|]. by apply wp_ret.
    - pose proof (rc_tile _ _ Hc) as Ht. rewrite total_app in Ht. cbn in Ht. unfold b.
      rewrite after_after, <- Ht. f_equal. lia. }
  destruct Hch as [Hbm _]. cbn in Hbm.
  assert (0 <= m <= 1152921504606846975) as Hm.
  { pose proof (core_split _ _ _ _ Hc) as (_ & [? Hp]%pos_cons & _ & _ & _ & _ & _ & He).
    apply pos_total in Hp. pose proof (core_facts _ _ Hc) as (_ & _ & _ & _ & _ & ? & _). cbn in *. fold b in He.
    unfold after in He. lia. }
  wp_step. eapply wp_is_allocated_block; [by eapply core_seg_ok|done|cbn; lia|]. cbn [b_free].
  destruct fr; [|by apply wp_ret].
  pose proof (expand_range s pre n m post HR) as Hx. fold b in Hx.
  destruct Hx as (? & ? & ? & Hal & ? & ? & ? & ? & ? & ? & ? & _).
  cbn [negb]. cbv iota. wp_step. apply wp_assert; [apply check_aligned; unfold after; dlia|].
  wp_step. eapply wp_ld; [apply Hbm|]. cbn [b_size]. u64_simpl.
  destruct (Z.ltb_spec (n + m - 1) (user_units 8 min_size)).
  { apply wp_ret. by replace ((n + m) * 16 - 8) with (capacity 8 (n + m)) by (unfold capacity; lia). }
  pose proof (wp_expand_next s pre n m post HR prefer) as Hnext. fold b in Hnext.
  unfold Alignment, rb_UsableByPreviousChunk in Hnext. change rb_AllocatedCtrlUnits with 1 in Hnext.
  apply Hnext; [lia|lia|]. intros s' HR' HF. split_and!; done.
Qed.

(** ** Backwards *)

(** The part of [priv_expand_both_sides] that takes all of the free block behind
    the buffer, [received] bytes, before the buffer grows backwards. *)
Definition forward_to (n N : Z) (post postN : list blk) : Prop :=
  (N = n ∧ postN = post) ∨ (∃ k, post = Blk k true :: postN ∧ N = n + k ∧ 1 <= k).

Lemma wp_forward (fwd : bool) s pre n post N postN (Q : () → seg → Prop) :
  rb_rep s (pre ++ Blk n false :: post) → forward_to n N post postN →
  (fwd = false → N = n ∧ postN = post) →
  let received := capacity 8 N in
  (∀ s1, rb_rep s1 (pre ++ Blk N false :: postN) → rb_frame s s1 → Q () s1) →
  wp (if fwd then
        '(ok, received_size2) ←
           rb_expand (after (rb_first s) (total pre) + 16) received received;
        boost_assert ok;; boost_assert (received =? received_size2)
      else mret ()) s Q.
Proof using LOk MSOk.
  intros HR Hto Hfwd received HQ. destruct fwd.
  2: { destruct (Hfwd eq_refl) as [-> ->]. apply wp_ret. by apply HQ. }
  pose proof (core_range _ _ _ _ (rr_core _ _ HR)) as Hr. cbv zeta in Hr.
  assert (n <= N /\ N <= 1152921504606846975) as HN.
  { destruct Hto as [[-> _]|(k & -> & -> & Hk)]; [lia|].
    pose proof (expand_range s pre n k postN HR). destruct Hr as (_ & ? & _). pose proof rl_this. pose proof rl_sizeof. lia. }
  wp_step. eapply wp_mono.
  { apply (rb_expand_ok s pre n post received received HR); unfold received, capacity; lia. }
  intros [ok r2] s1. unfold expand_post, received. cbv beta.
  destruct (Z.leb_spec (capacity 8 N) (capacity 8 n)) as [Hle|Hle].
  { unfold capacity in Hle. intros [[= -> ->] ->]. assert (N = n) as -> by lia.
    apply wp_bind, wp_assert; [done|]. apply wp_assert; [apply Z.eqb_refl|]. apply HQ; [|done].
    destruct Hto as [[_ ->]|(k & -> & E & Hk)]; [done|lia]. }
  destruct Hto as [[-> _]|(k & -> & -> & Hk)]; [lia|].
  assert (user_units 8 (capacity 8 (n + k)) = n + k - 1) as Eu
    by (unfold user_units, ceil16, capacity; dlia).
  rewrite Eu, Z.ltb_irrefl, Z.min_id, Zplus_minus. destruct B_val as (_ & _ & HB).
  unfold cut, cut_units. destruct (Z.leb_spec (n + k + B) (n + k)); [lia|].
  intros ([= -> ->] & HR' & HF). apply wp_bind, wp_assert; [done|].
  apply wp_assert; [apply Z.eqb_refl|]. by apply HQ.
Qed.

(** *** The tree after the size of a block in it was reduced *)

Lemma prev_of_none l x y : x ∉ l → prev_of x (y :: l) = None.
Proof.
  revert y. induction l as [|z l IH]; intros y Hx; [done|].
  apply not_elem_of_cons in Hx as [Hne Hx].
  change (prev_of x (y :: z :: l)) with (if z =? x then Some y else prev_of x (z :: l)).
  destruct (Z.eqb_spec z x); [by subst|]. by apply IH.
Qed.

Lemma prev_of_app l1 l2 x : x ∉ l1 → x ∉ l2 → prev_of x (l1 ++ x :: l2) = last l1.
Proof.
  intros Hx Hx2. induction l1 as [|y l1 IH]; [by apply prev_of_none|].
  apply not_elem_of_cons in Hx as [_ Hx]. destruct l1 as [|z l1]; cbn [app] in *.
  - cbn. by rewrite Z.eqb_refl.
  - change (prev_of x (y :: z :: l1 ++ x :: l2)) with
      (if z =? x then Some y else prev_of x (z :: l1 ++ x :: l2)).
    destruct (Z.eqb_spec z x); [subst; by destruct Hx; apply list_elem_of_here|].
    rewrite IH by done. done.
Qed.

(** An element whose key was reduced may stay if its predecessor allows it. *)
Lemma ordered_reduced key key' l1 x l2 :
  ordered key (l1 ++ x :: l2) → (∀ y, y ∈ l1 ++ l2 → key' y = key y) → key' x <= key x →
  (∀ w, last l1 = Some w → key' w <= key' x) → ordered key' (l1 ++ x :: l2).
Proof.
  unfold ordered. rewrite !StronglySorted_app, !StronglySorted_cons. intros (H12 & H1 & Hx & H2) Hk Hxk Hw.
  assert (∀ y, y ∈ l1 → key' y = key y) as Hk1 by (intros; apply Hk, elem_of_app; auto).
  assert (∀ y, y ∈ l2 → key' y = key y) as Hk2 by (intros; apply Hk, elem_of_app; auto).
  rewrite Forall_forall in Hx. split_and!.
  - intros y z Hy [->|Hz]%elem_of_cons.
    + destruct l1 as [|w l1 _] using rev_ind; [by apply elem_of_nil in Hy|].
      rewrite last_snoc in Hw. specialize (Hw w eq_refl).
      apply elem_of_app in Hy as [Hy|Hy%list_elem_of_singleton]; [|by subst].
      apply StronglySorted_app in H1 as (H1 & _). specialize (H1 y w Hy (list_elem_of_here _ _)).
      rewrite Hk1 by (apply elem_of_app; auto).
      rewrite (Hk1 w) in Hw by (apply elem_of_app; right; apply list_elem_of_here). lia.
    + rewrite Hk1, Hk2 by done. apply H12; [done|]. by apply list_elem_of_further.
  - by eapply ordered_ext.
  - apply Forall_forall. intros y Hy. rewrite (Hk2 y) by done. specialize (Hx y Hy). lia.
  - by eapply ordered_ext.
Qed.

Lemma wp_reorder s key p (Q : () → seg → Prop) :
  NoDup (elements (m_imultiset s)) → p ∈ elements (m_imultiset s) →
  (∀ x, x ∈ elements (m_imultiset s) → is_Some (f_size s !! x)) →
  ordered key (elements (m_imultiset s)) →
  (∀ x, x ∈ elements (m_imultiset s) → x ≠ p → size_key s x = key x) →
  size_key s p <= key p →
  (∀ t, elements t ≡ₚ elements (m_imultiset s) → ordered (size_key s) (elements t) →
     Q () (set_imultiset (λ _, t) s)) →
  wp (rb_reorder p) s Q.
Proof using MSOk.
  intros Hnd Hp Hsz Hord Hkey Hle HQ. unfold rb_reorder. wp_step. wp_step.
  set (t := m_imultiset s) in *.
  assert (Q () s ↔ Q () (set_imultiset (λ _, t) s)) as Hid by (by destruct s).
  apply list_elem_of_split in Hp as (l1 & l2 & El). rewrite El in Hnd.
  apply NoDup_app in Hnd as (_ & Hd1 & [Hd2 _]%NoDup_cons).
  assert (p ∉ l1) as Hp1 by (intros Hin; destruct (Hd1 p Hin); apply list_elem_of_here).
  assert (∀ y, y ∈ l1 ++ l2 → size_key s y = key y) as Hk'.
  { intros y Hy. apply elem_of_app in Hy. apply Hkey; [|intros ->; by destruct Hy].
    rewrite El, elem_of_app, elem_of_cons. tauto. }
  assert (∀ x y, x ∈ elements t → f_size s !! x = Some y → size_key s x = y) as Hval.
  { intros x y _ E. unfold size_key. by rewrite E. }
  assert ((∀ w, last l1 = Some w → size_key s w <= size_key s p) → ordered (size_key s) (elements t)) as Hstay.
  { intros Hw. rewrite El in *. by eapply ordered_reduced. }
  case_bool_decide as Hhd; cbn [negb].
  { apply wp_ret, Hid, HQ; [done|]. apply Hstay. rewrite El in Hhd.
    destruct l1 as [|y l1]; [done|]. cbn in Hhd. injection Hhd as ->. destruct Hp1. apply list_elem_of_here. }
  rewrite El, prev_of_app by done. destruct l1 as [|w l1 _] using rev_ind.
  { destruct Hhd. by rewrite El. }
  rewrite last_snoc in *.
  destruct (Hsz w) as [vw Ew]; [rewrite El, <- app_assoc; apply elem_of_app; right; apply list_elem_of_here|].
  destruct (Hsz p) as [vp Ep]; [rewrite El; apply elem_of_app; right; apply list_elem_of_here|].
  wp_step. eapply wp_ld; [done|]. wp_step. eapply wp_ld; [done|].
  assert (size_key s w = vw ∧ size_key s p = vp) as [Ew' Ep'] by (unfold size_key; by rewrite Ew, Ep).
  destruct (Z.ltb_spec vp vw).
  - wp_step. apply wp_erase. wp_step. wp_step. unfold insert_block_hint. wp_step. cbn. fold t.
    assert (elements (ms_erase p t) = filter (.≠ p) (elements t)) as Eer.
    { apply elements_erase. rewrite El. apply elem_of_app. right. apply list_elem_of_here. }
    assert (ordered (size_key s) (elements (ms_erase p t))) as Hoe.
    { rewrite Eer. eapply ordered_ext; [|apply ordered_filter, Hord].
      intros x [Hx ?]%list_elem_of_filter. by apply Hkey. }
    assert (p ∉ elements (ms_erase p t)) as Hnin by (rewrite Eer; intros [Hx _]%list_elem_of_filter; done).
    edestruct (elements_insert_hint (size_key s) (head (elements (ms_erase p t))) p _ Hoe Hnin) as [H1 H2].
    { destruct (elements (ms_erase p t)) eqn:E; cbn; [done|apply list_elem_of_here]. }
    refine (HQ (ms_insert_hint (size_key s) _ p (ms_erase p t)) _ H2). rewrite H1, Eer, El. rewrite filter_app, filter_cons_False by (intros Hx; by apply Hx).
    rewrite !filter_ne_not_in by done. by rewrite Permutation_middle.
  - apply wp_ret, Hid, HQ; [done|]. apply Hstay. intros w' [= <-]. lia.
Qed.

(** *** Growing into the free block in front *)

Lemma frees_pair a pre m n post :
  frees a (pre ++ Blk m true :: Blk n false :: post) ≡ₚ
    after a (total pre) :: frees a (pre ++ Blk (m + n) false :: post).
Proof. rewrite !frees_app. cbn. by rewrite after_after, Permutation_middle. Qed.

Lemma tree_sizes s bs x :
  rb_rep s bs → x ∈ elements (m_imultiset s) → is_Some (f_size s !! x).
Proof using LOk.
  intros [Hc Hch _]. rewrite (rc_tree _ _ Hc). intros (pre & n & post & -> & ->)%frees_lookup.
  apply chain_app in Hch as [_ [[? _ _ _] _]]. by eexists.
Qed.

Section backwards.
Context (s : seg) (pre : list blk) (m n : Z) (post : list blk).
Context (HR : rb_rep s (pre ++ Blk m true :: Blk n false :: post)).
Let p := after (rb_first s) (total pre).

Lemma backwards_range :
  0 < rb_this ∧ rb_this + sizeof_rbtree <= p ∧ 0 < p ∧ p mod 16 = 0 ∧ 2 <= B ∧ B <= n ∧ B <= m ∧
  p + 16 * (m + n) + 16 <= rb_this + h_size s ∧ rb_this + h_size s < 9223372036854775808 ∧
  0 <= h_allocated s ∧ h_allocated s + 16 * m < 9223372036854775808 ∧
  after p (m + n) <= rb_end s ∧
  block_at s p (Blk m true) ∧ block_at s (after p m) (Blk n false).
Proof using HR LOk MSOk.
  pose proof (rr_core _ _ HR) as Hc. pose proof (rr_chain _ _ HR) as Hch.
  apply chain_app in Hch as [_ [Hb1 [Hb2 _]]]. fold p in Hb1, Hb2. cbn in Hb2.
  assert (rb_core (set_imultiset (ms_erase p) s) (pre ++ Blk (m + n) false :: post)) as Hc1.
  { apply core_join. refine (proj1 (core_erase s _ _ _ _ _ _ Hc _)); [done|by constructor|done]. }
  pose proof (core_range _ _ _ _ Hc1) as Hr. cbv zeta in Hr.
  change (rb_first (set_imultiset _ s)) with (rb_first s) in Hr.
  change (rb_end (set_imultiset _ s)) with (rb_end s) in Hr. fold p in Hr. cbn in Hr.
  pose proof (core_split _ _ _ _ Hc) as (_ & _ & _ & [Hm _]%min_cons & Hn & _). cbn in Hm, Hn.
  pose proof (alloc_range_core _ _ Hc1) as Hal. pose proof (rr_alloc _ _ HR) as Eal.
  pose proof (alloc_range _ _ HR) as Hal'. rewrite used_app in Hal, Eal, Hal'. cbn in Hal, Eal, Hal'.
  unfold after at 1. split_and!; try done; lia.
Qed.

Lemma wp_backwards_merge sizeof_object (Q : Z * Z → seg → Prop) :
  (16 * m) mod sizeof_object = 0 →
  (∀ s', rb_rep s' (pre ++ Blk (m + n) false :: post) → rb_frame s s' →
     Q (p + 16, capacity 8 (m + n)) s') →
  wp (rb_backwards_merge p (after p m) (after p m + 16) (capacity 8 n) sizeof_object) s Q.
Proof using HR LOk MSOk.
  intros Hmod HQ. destruct backwards_range as (? & ? & ? & Hal & ? & ? & ? & ? & ? & ? & ? & ? & Hb1 & Hb2).
  pose proof (rr_core _ _ HR) as Hc.
  unfold rb_backwards_merge, rb_assert_aligned, rb_get_user_buffer, Alignment.
  change rb_AllocatedCtrlBytes with 16.
  wp_step. apply wp_erase. set (s1 := set_imultiset _ s).
  assert (rb_core s1 (pre ++ Blk (m + n) false :: post)) as Hc1.
  { apply core_join. refine (proj1 (core_erase s _ _ _ _ _ _ Hc _)); [done|by constructor|done]. }
  wp_step. eapply wp_ld; [apply Hb1|]. cbn [b_size]. unfold capacity in *. u64_simpl. wp_step. wp_step.
  wp_step. eapply wp_ld; [apply Hb2|]. cbn [b_size]. u64_simpl. rewrite rb_mask by lia.
  wp_step. apply rb_wp_st_size; [apply rb_in_range; cbn; lia|lia|].
  wp_step. eapply wp_ld; [cbn; by lkp|]. wp_step. apply wp_assert; [apply Z.leb_le; lia|].
  wp_step. eapply (wp_mark_allocated _ _ (m + n)); [cbn; by lkp|lia|lia|cbn; unfold after; lia|].
  replace (after p m + 16 - (p + 16)) with (16 * m) by (unfold after; lia). u64_simpl.
  wp_step. apply wp_assert; [by rewrite Hmod|]. wp_step. apply wp_assert; [apply check_aligned; dlia|].
  wp_step. replace (16 * n - 16 + 8 + m * 16) with (16 * (m + n) - 16 + 8) by lia.
  match goal with |- Q _ ?x => set (s2 := x) end.
  assert (agree_out s1 s2 p (after p (m + n))) as Hag2 by (by agree).
  apply HQ; [|done].
  eapply (rep_replace s s2 pre [Blk m true; Blk n false] [Blk (m + n) false] post);
    [done| |done| | | |]; cbn [total used b_size b_free]; rewrite ?Z.add_0_r; fold p.
  - by eapply (core_write s1).
  - by agree.
  - split; [constructor; cbn; by lkp|done].
  - lia.
  - unfold s2. cbn. u64_simpl. lia.
Qed.

Lemma wp_backwards_split d sizeof_object (Q : Z * Z → seg → Prop) :
  1 <= d → d + B <= m → (16 * d) mod sizeof_object = 0 →
  (∀ s', rb_rep s' (pre ++ Blk (m - d) true :: Blk (d + n) false :: post) → rb_frame s s' →
     Q (after p (m - d) + 16, capacity 8 (d + n)) s') →
  wp (rb_backwards_split p (after p m) (after p m + 16) (16 * d) (capacity 8 n) sizeof_object) s Q.
Proof using HR LOk MSOk.
  intros Hd Hdm Hmod HQ.
  destruct backwards_range as (? & ? & ? & Hal & ? & ? & ? & ? & ? & ? & ? & ? & Hb1 & Hb2).
  pose proof (rr_core _ _ HR) as Hc.
  unfold rb_backwards_split, rb_assert_aligned, rb_get_user_buffer, Alignment, rb_UsableByPreviousChunk, capacity in *.
  change rb_AllocatedCtrlBytes with 16. change rb_AllocatedCtrlUnits with 1.
  replace (after p m - 16 * d) with (after p (m - d)) by (unfold after; lia).
  replace (after p (m - d) - p) with (16 * (m - d)) by (unfold after; lia).
  replace (after p m + 16 - (after p (m - d) + 16)) with (16 * d) by (unfold after; lia).
  u64_simpl. assert ((16 * d + (16 * n - 16 + 8 - 8)) / 16 = d + n - 1) as -> by dlia.
  assert (16 * (m - d) / 16 = m - d) as -> by dlia.
  u64_simpl. replace (1 + (d + n - 1)) with (d + n) by lia. rewrite !rb_mask by lia.
  set (q := after p (m - d)).
  wp_step. apply rb_wp_st_size; [apply rb_in_range; unfold q, after; lia|lia|].
  wp_step. eapply wp_ld; [cbn; by lkp|]. wp_step. apply wp_assert; [apply Z.leb_le; lia|].
  wp_step. eapply (wp_mark_allocated _ _ (d + n)); [cbn; by lkp|lia|unfold q, after; lia|cbn; unfold q, after; lia|].
  assert (after q (d + n) = after p (m + n)) as -> by (unfold q; rewrite after_after; f_equal; lia).
  wp_step. apply rb_wp_st_size; [apply rb_in_range; cbn; lia|lia|].
  wp_step. eapply wp_ld; [cbn; by lkp|]. wp_step. apply wp_assert; [apply Z.leb_le; lia|].
  wp_step. eapply (wp_mark_free _ _ (m - d)); [cbn; by lkp|lia|lia|cbn; unfold after; lia|]. fold q.
  intros s1 _ _.
  assert (agree_out s s1 p (after p (m + n))) as Hag1 by (agree; unfold q; lkp).
  wp_step. pose proof (core_facts _ _ Hc) as (_ & _ & _ & _ & _ & _ & _ & _ & Hpos).
  pose proof (core_split _ _ _ _ Hc) as (Hp1 & [_ Hp2]%pos_cons & Hm1 & [_ Hm2]%min_cons & _).
  pose proof (rc_tree _ _ Hc) as Htree. pose proof (frees_pair (rb_first s) pre m n post) as Hpair.
  fold p in Hpair.
  assert (∀ x, x ∈ elements (m_imultiset s) → x ≠ p → x < p ∨ after p (m + n) <= x) as Hout.
  { intros x. rewrite Htree, Hpair. intros [->|Hx]%elem_of_cons; [done|].
    intros _. exact (frees_outside _ _ _ _ _ Hp1 Hp2 Hx). }
  assert (f_size s1 !! p = Some (m - d)) as Hs1p by (cbn; by lkp).
  eapply (wp_reorder s1 (size_key s)).
  - cbn. rewrite Htree. by apply frees_nodup.
  - cbn. rewrite Htree, Hpair. apply list_elem_of_here.
  - intros x Hx. destruct (decide (x = p)) as [->|Hne]; [by eexists|].
    rewrite (ag_size _ _ _ _ Hag1) by (by apply Hout). by eapply tree_sizes.
  - apply Hc.
  - intros x Hx Hne. eapply size_key_agree; [exact Hag1|]. by apply Hout.
  - unfold size_key. rewrite Hs1p, (at_size _ _ _ Hb1). cbn. lia.
  - intros t Ht Hord. wp_step. wp_step. unfold q in *.
    wp_step. apply wp_assert; [apply check_aligned; unfold after; dlia|].
    wp_step. apply wp_assert; [by rewrite Hmod|].
    wp_step. apply wp_assert; [apply check_aligned; unfold after; dlia|].
    wp_step. replace (16 * d + (16 * n - 16 + 8)) with (16 * (d + n) - 16 + 8) by lia.
    match goal with |- Q _ ?x => set (s2 := x) end.
    assert (agree_out s s2 p (after p (m + n))) as Hag2 by (by destruct Hag1).
    apply HQ; [|done].
    eapply (rep_replace s s2 pre [Blk m true; Blk n false] [Blk (m - d) true; Blk (d + n) false] post);
      [done| |done| | | |]; cbn [total used b_size b_free]; rewrite ?Z.add_0_r; fold p; [|done| |lia|].
    + eapply (core_build s s2 _ _ p (after p (m + n))); try done.
      * unfold p, after. apply core_split in Hc. lia.
      * rewrite !total_app. cbn. lia.
      * apply min_app. split; [done|]. apply min_cons. split; [cbn; lia|]. apply min_cons. split; [cbn; lia|done].
      * cbn. rewrite Ht. cbn. rewrite Htree, Hpair, frees_pair. fold p.
        by replace (m - d + (d + n)) with (m + n) by lia.
    + split; [constructor; cbn; try intros _; by lkp|]. split; [|done].
      cbn. constructor; cbn; [by lkp..| |done]. rewrite after_after.
      replace (m - d + (d + n)) with (m + n) by lia. by lkp.
    + unfold s2. cbn. u64_simpl. lia.
Qed.
End backwards.

(** Whether the block in front is free: either nothing in front is, or the
    blocks in front end with a free one. *)
Lemma prev_cases s pre n post (Q : bool → seg → Prop) :
  rb_rep s (pre ++ Blk n false :: post) →
  (ends_free pre = false → Q true s) →
  (∀ pre' m, pre = pre' ++ [Blk m true] → Q false s) →
  wp (rb_is_prev_allocated (after (rb_first s) (total pre))) s Q.
Proof using LOk.
  intros HR H1 H2. pose proof (rr_core _ _ HR) as Hc. pose proof (rr_chain _ _ HR) as Hch.
  pose proof (core_range _ _ _ _ Hc) as Hr. cbv zeta in Hr.
  pose proof (core_split _ _ _ _ Hc) as (Hp & _). apply chain_app in Hch as [Hch _].
  destruct pre as [|[m fr] pre _] using rev_ind.
  { apply wp_is_prev_allocated_true; [|by apply H1]. cbn. rewrite after_0. apply Hc. }
  apply chain_app in Hch as [_ [Hb _]]. apply pos_app in Hp as [Hp [Hm _]%pos_cons]. cbn in Hm.
  apply pos_total in Hp. rewrite total_app, <- after_after in *. cbn [total b_size] in *. rewrite Z.add_0_r in *.
  destruct fr.
  - eapply wp_is_prev_allocated_false; [by eapply core_seg_ok|done| |by eapply H2].
    unfold after in *. pose proof rl_sizeof. lia.
  - apply wp_is_prev_allocated_true; [apply Hb|]. apply H1. by rewrite ends_free_snoc.
Qed.

(** The buffer was extended by the last [d] of the [m] free units in front. *)
Definition grown_back s pre m d N postN (bm target r received : Z) s' : Prop :=
  1 <= d <= m ∧ (bm | 16 * d) ∧ target <= received ∧ received = capacity 8 (d + N) ∧
  r = after (rb_first s) (total pre + (m - d)) + 16 ∧
  rb_rep s' (pre ++ (if d <? m then [Blk (m - d) true] else []) ++ Blk (d + N) false :: postN).

Lemma rb_backwards_ok cmd s pre0 n post N postN min_size prefer only_preferred bm k :
  let target := if only_preferred : bool then prefer else min_size in
  rb_rep s (pre0 ++ Blk n false :: post) → forward_to n N post postN →
  (expand_fwd cmd = false → N = n ∧ postN = post) →
  capacity 8 N < target → 0 < bm → (bm | target) → 4 <= k <= 60 → k = 4 ∨ (2 ^ k | bm) →
  target + Z.lcm bm (2 ^ k) < 9223372036854775808 →
  wp (rb_expand_backwards cmd min_size prefer (capacity 8 N)
        (after (rb_first s) (total pre0) + 16) only_preferred bm (2 ^ k)) s (λ '(r, received) s',
    rb_frame s s' ∧
    ((r = 0 ∧ (s' = s ∨ rb_rep s' (pre0 ++ Blk N false :: postN))) ∨
     (∃ pre m d, pre0 = pre ++ [Blk m true] ∧ grown_back s pre m d N postN bm target r received s'))).
Proof using LOk MSOk.
  intros target HR Hto Hfwd Hrec Hbm Hdiv Hk Hkb Hfit.
  pose proof (core_range _ _ _ _ (rr_core _ _ HR)) as Hr. cbv zeta in Hr.
  assert (n <= N) as HN by (destruct Hto as [[-> _]|(j & _ & -> & ?)]; lia).
  unfold rb_expand_backwards, rb_get_block, rb_assert_aligned, Alignment.
  change rb_AllocatedCtrlBytes with 16. rewrite Z.add_simpl_r.
  wp_step. apply wp_assert; [apply check_aligned; lia|].
  wp_step. eapply prev_cases; [done|intros _; apply wp_ret; split; [done|left; auto]|]. intros pre m ->. cbv iota.
  assert (rb_rep s (pre ++ Blk m true :: Blk n false :: post)) as HR' by (by rewrite <- app_assoc in HR).
  destruct (backwards_range s pre m n post HR') as (? & ? & ? & Hal & ? & ? & ? & ? & ? & ? & ? & _ & Hb1 & Hb2).
  rewrite total_app in *. cbn [total b_size] in *. rewrite Z.add_0_r, <- after_after in *.
  set (p := after (rb_first s) (total pre)) in *.
  wp_step. eapply wp_prev_block; [done|lia|].
  wp_step. eapply wp_is_allocated_block; [by eapply core_seg_ok, rr_core|done|cbn; lia|].
  wp_step. apply wp_assert; [done|]. wp_step. eapply wp_ld; [apply Hb1|]. cbn [b_size].
  wp_step. eapply wp_ld; [by apply Hb1|]. wp_step. apply wp_assert; [apply Z.eqb_refl|].
  wp_step. apply wp_assert; [by apply check_aligned|].
  fold target. unfold capacity in Hrec.
  destruct (backwards_growth_ok s bm k (capacity 8 N) target) as (Ecalc & Hd1 & Hd2 & Hach & _);
    try done; [unfold capacity; lia|].
  wp_step. unfold wp at 1. rewrite Ecalc. clear Ecalc. set (needs := needs_backwards _ _ _ _) in *.
  assert (16 | needs) as [d Ed].
  { etrans; [|exact Hd2]. exists (2 ^ (k - 4)). change 16 with (2 ^ 4). rewrite <- Z.pow_add_r by lia. f_equal. lia. }
  assert (1 <= d) as Hd by (unfold capacity in Hach; lia).
  u64_simpl. destruct (Z.leb_spec needs (m * 16)); [|apply wp_ret; split; [done|left; auto]].
  wp_step. pose proof (wp_forward (expand_fwd cmd) s (pre ++ [Blk m true]) n post N postN) as Hf.
  rewrite total_app in Hf. cbn [total b_size] in Hf. rewrite Z.add_0_r, <- after_after in Hf. fold p in Hf.
  eapply Hf; [done|done|done|]. clear Hf. intros s1 HR1 HF1.
  assert (rb_rep s1 (pre ++ Blk m true :: Blk N false :: postN)) as HR1' by (by rewrite <- app_assoc in HR1).
  pose proof (backwards_range s1 pre m N postN HR1') as (_ & _ & _ & _ & _ & _ & _ & _ & _ & _ & _ & _ & Hb1' & _).
  assert (after (rb_first s1) (total pre) = p) as Ep by (by rewrite (rb_frame_first _ _ HF1)).
  rewrite Ep in Hb1'. wp_step. eapply wp_ld; [apply Hb1'|]. cbn [b_size].
  assert (needs / 16 = d) as -> by (rewrite Ed; by rewrite Z.div_mul by lia). u64_simpl.
  destruct (Z.leb_spec (d + B) m).
  - rewrite Ed, (Z.mul_comm d 16).
    rewrite <- Ep. apply (wp_backwards_split s1 pre m N postN HR1' d bm); [lia|lia| |].
    { apply Z.mod_divide; [lia|]. by rewrite Z.mul_comm, <- Ed. }
    intros s2 HR2 HF2. split; [by etrans|]. right. exists pre, m, d. split; [done|].
    unfold grown_back. destruct (Z.ltb_spec d m); [|lia].
    split_and!; try done; try lia.
    + by rewrite Z.mul_comm, <- Ed.
    + unfold capacity in *. lia.
    + rewrite (rb_frame_first _ _ HF1), after_after. done.
  - destruct (Z.leb_spec d m); cbn [andb]; [|lia].
    destruct (Z.eqb_spec 0 ((m * 16) mod Z.lcm bm (2 ^ k))) as [Em|Em].
    2: { apply wp_ret. split; [done|]. left. split; [done|by right]. }
    assert (bm | 16 * m) as Hbm16.
    { symmetry in Em. apply Z.mod_divide in Em; [|].
      - rewrite Z.mul_comm. etrans; [apply Z.divide_lcm_l|exact Em].
      - intros E0. apply Z.lcm_eq_0 in E0 as [?|E0]; [lia|]. by apply Z.pow_nonzero in E0; lia. }
    rewrite <- Ep. apply (wp_backwards_merge s1 pre m N postN HR1' bm); [by apply Z.mod_divide; [lia|]|].
    intros s2 HR2 HF2. split; [by etrans|]. right. exists pre, m, m. split; [done|].
    unfold grown_back. rewrite Z.ltb_irrefl.
    split_and!; try done; try lia.
    + unfold capacity in *. lia.
    + rewrite (rb_frame_first _ _ HF1), Z.sub_diag, Z.add_0_r. done.
Qed.

(** ** On the heap *)

Lemma heap_grown_back u a pre m d n N post postN :
  pos_blocks pre → pos_blocks post → 1 <= d <= m → 1 <= n → forward_to n N post postN →
  let rest := if d <? m then [Blk (m - d) true] else [] in
  let h := heap u a (pre ++ Blk m true :: Blk n false :: post) in
  let r := after a (total pre + (m - d)) + 16 in
  let p := after a (total pre + m) + 16 in
  heap u a (pre ++ rest ++ Blk (d + N) false :: postN) = <[r := capacity u (d + N)]> (delete p h) ∧
  h !! r = None.
Proof.
  intros H1 H2 Hd Hn Hto rest h r p.
  assert (pos_blocks postN ∧ n <= N ∧ ∀ pre, heap u a (pre ++ Blk n true :: post) = heap u a (pre ++ Blk N true :: postN))
    as (H3 & HN & Hfree).
  { destruct Hto as [[-> ->]|(k & -> & -> & Hk)]; [done|]. apply pos_cons in H2 as [? ?].
    split_and!; [done|lia|]. intros l. by rewrite heap_free_split. }
  assert (heap u a (pre ++ Blk m true :: Blk N true :: postN) = heap u a (pre ++ rest ++ Blk (d + N) true :: postN)) as Hsame.
  { unfold rest. destruct (Z.ltb_spec d m); cbn [app]; rewrite <- !heap_free_split.
    - by replace (m - d + (d + N)) with (m + N) by lia.
    - by replace d with m by lia. }
  assert (pos_blocks (pre ++ rest) ∧ total (pre ++ rest) = total pre + (m - d)) as [H4 Et].
  { unfold rest. rewrite total_app. destruct (Z.ltb_spec d m); cbn; [|rewrite app_nil_r; split; [done|lia]].
    split; [|lia]. apply pos_app. split; [done|pos_tac]. }
  destruct (heap_middle u a (pre ++ rest) (d + N) postN H4 H3) as [E1 E2]; [lia|].
  rewrite Et in E1, E2. rewrite <- !app_assoc in E1, E2.
  assert (delete p h = heap u a (pre ++ rest ++ Blk (d + N) true :: postN)) as Eh.
  { rewrite <- Hsame. unfold h, p.
    change (Blk m true :: Blk n false :: post) with ([Blk m true] ++ Blk n false :: post). rewrite app_assoc.
    destruct (heap_middle u a (pre ++ [Blk m true]) n post) as [-> E4]; [|done|lia|].
    { apply pos_app. split; [done|pos_tac]. }
    rewrite total_app in *. cbn [total b_size] in *. rewrite Z.add_0_r in *.
    rewrite delete_insert_id by done. rewrite Hfree. by rewrite <- app_assoc. }
  rewrite Eh. split; [by rewrite <- (app_assoc pre rest (Blk (d + N) true :: postN)) in E1|].
  rewrite <- Eh in E2. rewrite lookup_delete_ne in E2; [done|].
  unfold p, r, after. lia.
Qed.

Lemma coalesced_grown_back pre m d n N post postN :
  coalesced ((pre ++ [Blk m true]) ++ Blk n false :: post) → forward_to n N post postN →
  coalesced (pre ++ (if d <? m then [Blk (m - d) true] else []) ++ Blk (d + N) false :: postN).
Proof.
  rewrite coalesced_used, app_assoc, coalesced_used, (coalesced_app pre). intros [(H1 & _ & H2) H3] Hto.
  split.
  - destruct (d <? m); [|by rewrite app_nil_r]. by rewrite coalesced_app.
  - destruct Hto as [[_ ->]|(k & -> & _)]; [done|]. by apply coalesced_cons in H3 as [_ ?].
Qed.

(** What an attempt to expand the buffer [p] of [c] bytes does to the heap: it
    fails, perhaps after the buffer took the free block behind it; it grows the
    buffer in place; or it moves its start by whole objects. *)
Inductive expand_result s (h : gmap Z Z) (p c min_size target bm : Z) (bwd : bool)
  : Z → Z → seg → Prop :=
  | expand_failed received c' s' :
      c <= c' → implements s' (<[p := c']> h) → rb_frame s s' →
      expand_result s h p c min_size target bm bwd 0 received s'
  | expand_forward received s' :
      min_size <= received → c <= received → implements s' (<[p := received]> h) → rb_frame s s' →
      expand_result s h p c min_size target bm bwd p received s'
  | expand_backward r received s' :
      bwd = true → 0 < r < p → (bm | p - r) → target <= received → p + c <= r + received →
      h !! r = None → implements s' (<[r := received]> (delete p h)) → rb_frame s s' →
      expand_result s h p c min_size target bm bwd r received s'.

Lemma implements_forward s s' pre n N post postN :
  rb_rep s (pre ++ Blk n false :: post) → coalesced (pre ++ Blk n false :: post) →
  forward_to n N post postN → rb_frame s s' → rb_rep s' (pre ++ Blk N false :: postN) →
  implements s' (<[after (rb_first s) (total pre) + 16 := capacity 8 N]>
                   (heap 8 (rb_first s) (pre ++ Blk n false :: post))).
Proof using LOk MSOk.
  intros HR Hco [[-> ->]|(k & -> & -> & Hk)] HF HR'.
  - rewrite insert_id; [exists (pre ++ Blk n false :: post); split_and!; [done|done|]|].
    + cbn. by rewrite (rb_frame_first _ _ HF).
    + pose proof (core_split _ _ _ _ (rr_core _ _ HR)) as (H1 & H2 & _ & _ & HB & _). cbn in HB.
      destruct B_val as (_ & _ & ?). destruct (heap_middle 8 (rb_first s) pre n post H1 H2) as [-> _]; [lia|].
      by rewrite lookup_insert_eq.
  - destruct B_val as (_ & _ & HB).
    pose proof (core_split _ _ _ _ (rr_core _ _ HR)) as (_ & _ & _ & _ & HBn & _). cbn in HBn.
    pose proof (implements_expanded B s s' pre n k postN (n + k)) as Hi. unfold cut, cut_units in Hi.
    destruct (Z.leb_spec (n + k + B) (n + k)); [lia|]. apply Hi; try done; lia.
Qed.

Lemma implements_same s pre n post :
  rb_rep s (pre ++ Blk n false :: post) → coalesced (pre ++ Blk n false :: post) →
  let h := heap 8 (rb_first s) (pre ++ Blk n false :: post) in
  implements s (<[after (rb_first s) (total pre) + 16 := capacity 8 n]> h).
Proof using LOk MSOk.
  intros HR Hco. eapply (implements_forward s s pre n n post post); try done. by left.
Qed.

(** The first attempt: in place. *)
Lemma expand_first_ok (fwd : bool) s pre n post min_size prefer :
  rb_rep s (pre ++ Blk n false :: post) → coalesced (pre ++ Blk n false :: post) →
  0 <= min_size <= prefer → prefer <= 18446744073709551600 →
  let p := after (rb_first s) (total pre) + 16 in
  wp (if fwd then rb_expand p min_size prefer
      else received ← rb_size p;
           mret ((prefer <=? received) || (min_size <=? received), received)) s
     (λ '(done, received) s',
        if done : bool
        then min_size <= received ∧ capacity 8 n <= received ∧ rb_frame s s' ∧
             implements s' (<[p := received]> (heap 8 (rb_first s) (pre ++ Blk n false :: post)))
        else s' = s ∧ received < min_size ∧
             ∃ N postN, forward_to n N post postN ∧ received = capacity 8 N ∧
               (fwd = false → N = n ∧ postN = post)).
Proof using LOk MSOk.
  intros HR Hco Hmin Hpref p. pose proof (implements_same _ _ _ _ HR Hco) as Hid. cbv zeta in Hid. fold p in Hid.
  pose proof (rr_core _ _ HR) as Hc. pose proof (core_range _ _ _ _ Hc) as Hr. cbv zeta in Hr.
  pose proof (user_units_bounds 8 min_size ltac:(lia) ltac:(lia)) as Hmu.
  assert (user_units 8 min_size <= user_units 8 prefer) as Hle.
  { unfold user_units, ceil16. apply Z.div_le_mono; lia. }
  assert (forward_to n n post post) as Hto by (by left).
  destruct fwd.
  - eapply wp_mono; [by apply (rb_expand_ok s pre n post min_size prefer)|].
    intros [done received] s'. unfold expand_post.
    destruct (Z.leb_spec min_size (capacity 8 n)); [intros [[= -> ->] ->]; by split_and!|].
    destruct post as [|[m []] post]; try (intros [[= -> ->] ->]; split_and!; [done|lia|by exists n; eexists]).
    destruct (Z.ltb_spec (n + m - 1) (user_units 8 min_size)) as [Hlt|Hge].
    + intros [[= -> ->] ->]. split_and!; [done| |].
      * unfold user_units, ceil16, capacity in *. dlia.
      * exists (n + m), post. split_and!; [|done|done]. right. exists m. split_and!; try done.
        pose proof (core_split _ _ _ _ Hc) as (_ & [? _]%pos_cons & _). done.
    + intros ([= -> ->] & HR' & HF). set (i := 1 + _) in *.
      pose proof (core_split _ _ _ _ Hc) as (_ & [Hm _]%pos_cons & _). cbn in Hm. destruct B_val as (_ & _ & HB).
      assert (1 + user_units 8 min_size <= i <= n + m) as Hi by (unfold i; lia).
      assert (i <= cut_units B i (n + m)) by (unfold cut_units; destruct (i + B <=? n + m); lia).
      split_and!; [unfold capacity in *; lia|unfold capacity in *; lia|done|].
      pose proof (implements_expanded B s s' pre n m post i) as Hx. apply Hx; try done; lia.
  - pose proof (rr_chain _ _ HR) as Hch. apply chain_app in Hch as [_ [[Hn _ _ _] _]].
    unfold rb_size, rb_get_block, Alignment, rb_UsableByPreviousChunk.
    change rb_AllocatedCtrlUnits with 1. change rb_AllocatedCtrlBytes with 16. unfold p at 1. rewrite Z.add_simpl_r.
    wp_step. wp_step. eapply wp_ld; [done|]. cbn [b_size]. wp_step. wp_step. u64_simpl.
    replace ((n - 1) * 16 + 8) with (capacity 8 n) by (unfold capacity; lia).
    destruct (Z.leb_spec min_size (capacity 8 n)); [rewrite orb_true_r; by split_and!|].
    destruct (Z.leb_spec prefer (capacity 8 n)); [lia|]. cbn [orb]. split_and!; [done|lia|by exists n; eexists].
Qed.

Lemma expand_both_sides_ok cmd s h p c min_size prefer only_preferred bm k :
  let target := if only_preferred : bool then prefer else min_size in
  implements s h → h !! p = Some c → 0 <= min_size <= prefer →
  0 < bm → (bm | min_size) → (bm | prefer) → 4 <= k <= 60 → k = 4 ∨ (2 ^ k | bm) →
  prefer + Z.lcm bm (2 ^ k) < 9223372036854775808 →
  wp (rb_expand_both_sides cmd min_size prefer p only_preferred bm (2 ^ k)) s
     (λ '(r, received) s',
        expand_result s h p c min_size target bm (expand_bwd cmd) r received s').
Proof using LOk MSOk.
  intros target (bs & HR & Hco & ->) Hl Hmin Hbm Hd1 Hd2 Hk Hkb Hfit. cbn in HR, Hl.
  pose proof (heap_lookup _ _ _ _ _ Hl) as (pre & n & post & -> & -> & ->). cbn [base rb_algo_ok] in *.
  change UsableByPreviousChunk with 8 in *. change rb_UsableByPreviousChunk with 8 in *.
  pose proof (rr_core _ _ HR) as Hc. pose proof (core_range _ _ _ _ Hc) as Hr. cbv zeta in Hr.
  assert (0 <= Z.lcm bm (2 ^ k)) by apply Z.lcm_nonneg.
  pose proof (implements_same _ _ _ _ HR Hco) as Hid. cbv zeta in Hid.
  set (p := after (rb_first s) (total pre)) in *.
  set (h := heap 8 (rb_first s) (pre ++ Blk n false :: post)) in *.
  unfold rb_expand_both_sides, rb_assert_aligned.
  wp_step. apply wp_assert; [apply check_aligned; dlia|].
  wp_step. eapply wp_mono; [apply (expand_first_ok (expand_fwd cmd) s pre n post min_size prefer HR Hco); lia|].
  intros [[|] received] s1; cbn beta iota.
  { intros (? & ? & HF & Hi). apply wp_ret. by eapply expand_forward. }
  intros (-> & Hlt & N & postN & Hto & -> & Hfw).
  destruct (Z.eqb_spec bm 0); [lia|]. unfold nz at 1. destruct (Z.eqb_spec bm 0); [lia|]. cbn [negb].
  wp_step. wp_step. apply wp_assert; [apply Z.eqb_eq; symmetry; by apply Z.mod_divide|].
  apply wp_assert; [apply Z.eqb_eq; symmetry; by apply Z.mod_divide|].
  assert (n <= N) as HN by (destruct Hto as [[-> _]|(j & _ & -> & ?)]; lia).
  destruct (expand_bwd cmd); [|apply wp_ret; eapply (expand_failed _ _ _ _ _ _ _ _ _ (capacity 8 n)); [lia|done|done]].
  eapply wp_mono; [apply (rb_backwards_ok cmd s pre n post N postN min_size prefer only_preferred bm k HR Hto Hfw);
    try done; fold target; unfold target; destruct only_preferred; try done; lia|].
  intros [r received] s'. fold target.
  intros [HF [[-> [->|HR']]|(pre' & m & d & -> & Hd & Hbd & Htar & -> & -> & HR')]].
  - eapply (expand_failed _ _ _ _ _ _ _ _ _ (capacity 8 n)); [lia|done|done].
  - eapply (expand_failed _ _ _ _ _ _ _ _ _ (capacity 8 N)); [unfold capacity; lia| |done].
    by eapply implements_forward.
  - pose proof (core_split _ _ _ _ Hc) as ([Hp1 _]%pos_app & Hp2 & _). pose proof (pos_total _ Hp1).
    pose proof (core_facts _ _ Hc) as (? & ? & _). pose proof rl_sizeof. destruct B_val as (_ & _ & ?).
    assert (p = after (rb_first s) (total pre' + m)) as Ep
      by (unfold p; rewrite total_app; cbn; f_equal; lia).
    assert (h = heap 8 (rb_first s) (pre' ++ Blk m true :: Blk n false :: post)) as Eh
      by (unfold h; by rewrite <- app_assoc).
    pose proof (heap_grown_back 8 (rb_first s) pre' m d n N post postN) as Hg. cbv zeta in Hg.
    rewrite <- Ep, <- Eh in Hg. destruct Hg as [Hg1 Hg2]; try done; try lia.
    apply expand_backward; [done| | |done| | | |done].
    + rewrite Ep. unfold after. lia.
    + replace (p + 16 - _) with (16 * d) by (rewrite Ep; unfold after; lia). done.
    + rewrite Ep. unfold capacity, after. lia.
    + done.
    + eexists. split_and!; [exact HR'|by eapply coalesced_grown_back|].
      cbn. by rewrite (rb_frame_first _ _ HF).
Qed.
End resize.
