(* ===== verification/RbTreeSegment.v ===== *)
(** The best-fit algorithm: construction, growing, shrinking and zeroing of a
    segment. *)

From stdpp Require Import sorting.
From S2P Require Import Prelude Blocks MathUtil MemAlgo MemAlgoSpec MemAlgoAlign.
From S2P Require Import RbTree RbTreeInv RbTreeOps RbTreeAlloc RbTreeHeap.

Local Open Scope u64_scope.

Section segment.
Context {T : Type} {MS : Imultiset T} {MSOk : ImultisetOk T} {L : RbLayout} {LOk : RbLayoutOk}.
Notation seg := (rbseg T).
Notation B := rb_BlockCtrlUnits.
Implicit Types s : seg.

(** Segments are mapped at multiples of the page size. *)
Definition rb_this_aligned : Prop := rb_this mod 16 = 0.

(** Only the fields of the blocks themselves matter to a chain. *)
Lemma chain_ext_aligned s s' a bs :
  pos_blocks bs → a mod 16 = 0 →
  (∀ x, x mod 16 = 0 → a <= x < after a (total bs) →
     f_size s' !! x = f_size s !! x ∧ f_allocated s' !! x = f_allocated s !! x) →
  (∀ x, x mod 16 = 0 → a < x <= after a (total bs) →
     f_prev_allocated s' !! x = f_prev_allocated s !! x ∧
     (f_prev_size s' !! x = f_prev_size s !! x)) →
  chain s a bs → chain s' a bs.
Proof.
  intros Hp. revert a. induction Hp as [|b bs Hb Hp IH]; intros a Ha H1 H2; [done|]. cbn in *.
  pose proof (pos_total _ Hp). intros [[? ? ? ?] Hch].
  assert (after a (b_size b) mod 16 = 0) as Ha' by (unfold after; dlia).
  destruct (H1 a) as [E1 E2]; [done|unfold after; lia|].
  destruct (H2 (after a (b_size b))) as [E3 E4]; [done|unfold after; lia|].
  split; [constructor; by rewrite ?E1, ?E2, ?E3, ?E4|].
  apply IH; [done| |intros x Hm Hx; apply H2; [done|unfold after in *; lia]|done].
  intros x Hm Hx. apply H1; [done|]. unfold after in *. lia.
Qed.

Lemma chain_ext s s' a bs :
  pos_blocks bs → a mod 16 = 0 →
  (∀ x, a <= x < after a (total bs) →
     f_size s' !! x = f_size s !! x ∧ f_allocated s' !! x = f_allocated s !! x) →
  (∀ x, a < x <= after a (total bs) →
     f_prev_allocated s' !! x = f_prev_allocated s !! x ∧ f_prev_size s' !! x = f_prev_size s !! x) →
  chain s a bs → chain s' a bs.
Proof. intros Hp Ha H1 H2. apply chain_ext_aligned; auto. Qed.

(** ** The constructor *)

Lemma rb_min_size_val extra :
  0 <= extra → rb_this + sizeof_rbtree + extra < 9223372036854775808 →
  rb_get_min_size extra = 16 * (ceil16 sizeof_rbtree + ceil16 extra + B + 1).
Proof using LOk.
  intros He Hf. pose proof rl_this. pose proof rl_sizeof. destruct B_val as (_ & _ & HB).
  unfold rb_get_min_size, ceil_units, Alignment. change rb_EndCtrlBlockUnits with 1.
  rewrite !rounded_units by lia. fold (ceil16 sizeof_rbtree) (ceil16 extra).
  assert (0 <= 16 * ceil16 sizeof_rbtree <= sizeof_rbtree + 15) by (unfold ceil16; dlia).
  assert (0 <= 16 * ceil16 extra <= extra + 15) by (unfold ceil16; dlia).
  u64_simpl. lia.
Qed.

Lemma wp_new_SizeHolder s a (Q : () → seg → Prop) :
  rb_this + sizeof_rbtree <= a → a + 16 <= rb_this + h_size s →
  Q () (set_f_allocated (delete a) (set_f_prev_allocated (delete a)
         (set_f_size (delete a) (set_f_prev_size (delete a) s)))) →
  wp (new_SizeHolder a) s Q.
Proof.
  intros H1 H2 HQ. unfold new_SizeHolder.
  wp_step. apply wp_st; [by apply rb_in_range|]. wp_step. apply wp_st; [by apply rb_in_range|].
  wp_step. apply wp_st; [by apply rb_in_range|]. by apply wp_st; [apply rb_in_range|].
Qed.

Lemma wp_add_segment s size (Q : () → seg → Prop) :
  seg_ok s → elements (m_imultiset s) = [] → h_allocated s = 0 →
  size = h_size s - (rb_first s - rb_this) → 16 * B + 16 <= size →
  (∀ s', rb_inv s' [Blk (size / 16 - 1) true] → rb_frame s s' → Q () s') →
  wp (rb_add_segment (rb_first s) size) s Q.
Proof using LOk MSOk.
  intros Hok Hemp Hal Esz Hsz HQ. pose proof (seg_ok_first s Hok) as (? & ? & Hmod & ?).
  pose proof Hok as [? [? ?]]. destruct B_val as (_ & EB & HB).
  set (n := size / 16 - 1). assert (B <= n <= 576460752303423489 ∧ 16 * (n + 1) <= size) as Hn by (unfold n; dlia).
  set (a := rb_first s) in *.
  assert (rb_end s = after a n) as Eend by (unfold rb_end, after, n; rewrite Esz; fold a; lia).
  unfold rb_add_segment, Alignment. change rb_EndCtrlBlockBytes with 16. change rb_EndCtrlBlockUnits with 1.
  rewrite EB. u64_simpl. fold n. rewrite rb_mask by lia.
  wp_step. apply wp_assert; [apply Z.leb_le; lia|].
  wp_step. apply wp_new_block_ctrl; [lia|lia|].
  wp_step. apply rb_wp_st_size; [apply rb_in_range; cbn; lia|lia|].
  wp_step. eapply wp_ld; [cbn; by lkp|]. wp_step. apply wp_assert; [apply Z.leb_le; lia|]. u64_simpl.
  replace (a + n * 16) with (after a n) by (unfold after; lia).
  assert ((after a n - a) / 16 = n) as -> by (unfold after; dlia).
  rewrite rb_mask by lia.
  wp_step. apply wp_new_SizeHolder; [unfold after; lia|cbn; unfold after; lia|].
  wp_step. eapply (wp_mark_free _ _ n); [cbn; by lkp|lia|lia|cbn; unfold after; lia|]. intros s1 _ _.
  wp_step. apply rb_wp_st_size; [apply rb_in_range; cbn; unfold after; lia|lia|].
  wp_step. apply wp_st; [apply rb_in_range; cbn; lia|].
  wp_step. apply wp_st; [apply rb_in_range; cbn; unfold after; lia|].
  wp_step. apply wp_st; [apply rb_in_range; cbn; lia|]. set (s2 := set_f_prev_allocated _ _).
  assert (block_at s2 a (Blk n true)) as Hb by (constructor; cbn; try intros _; by lkp).
  wp_step. eapply wp_next_block; [apply Hb|cbn; lia|]. wp_step. apply wp_assert; [apply Z.eqb_refl|].
  wp_step. eapply wp_prev_block; [done|lia|]. wp_step. apply wp_assert; [apply Z.eqb_refl|].
  wp_step. apply wp_priv_first_block; [done|]. wp_step. apply wp_assert; [apply Z.eqb_refl|].
  wp_step. apply wp_priv_end_block; [done|]. wp_step.
  apply wp_assert; [apply Z.eqb_eq; exact Eend|].
  assert (rb_core s2 [Blk n false]) as Hc.
  { constructor; cbn [total b_size]; rewrite ?Z.add_0_r; try done.
    - apply min_cons. split; [cbn; lia|apply min_nil].
    - cbn. by lkp.
    - cbn. by lkp.
    - change (rb_end s2) with (rb_end s). rewrite Eend. cbn. by lkp.
    - change (rb_end s2) with (rb_end s). rewrite Eend. cbn. by lkp.
    - cbn. by rewrite Hemp.
    - cbn. rewrite Hemp. constructor. }
  pose proof (wp_insert_block s2 [] n [] Q Hc) as Hins. cbv zeta in Hins. cbn [total] in Hins. rewrite after_0 in Hins.
  apply Hins. intros s3 Hc3 HF3 Eh3 _ Hch3. apply HQ; [|done].
  split; [|done]. constructor; [done| |by rewrite Eh3].
  rewrite (rb_frame_first _ _ HF3). apply Hch3. by split.
Qed.

Lemma rbtree_constructor_ok s segment_size extra :
  rb_this_aligned → 0 <= extra → rb_this + segment_size < 9223372036854775808 →
  16 * (ceil16 sizeof_rbtree + ceil16 extra + B + 1) <= segment_size →
  wp (rbtree_best_fit segment_size extra) s (λ _ s',
    h_size s' = segment_size ∧ h_extra s' = extra ∧
    rb_inv s' [Blk ((rb_this + segment_size - rb_first s') / 16 - 1) true]).
Proof using LOk MSOk.
  intros Hal He Hf Hmin. pose proof rl_this. pose proof rl_sizeof. destruct B_val as (_ & _ & HB).
  assert (sizeof_rbtree <= 16 * ceil16 sizeof_rbtree ∧ extra <= 16 * ceil16 extra) by (unfold ceil16; dlia).
  unfold rbtree_best_fit. wp_step. wp_step. set (s1 := RbSeg _ _ _ _ _ _ _ _ _).
  rewrite rb_min_size_val by lia. wp_step. apply wp_assert; [by apply Z.leb_le|].
  pose proof (round_up_spec (rb_this + sizeof_rbtree + extra) 16 ltac:(lia)) as [Hru _].
  change (round_up (rb_this + sizeof_rbtree + extra) 16) with (rb_first s1) in Hru.
  assert (rb_first s1 <= rb_this + 16 * (ceil16 sizeof_rbtree + ceil16 extra)) as Hfirst.
  { unfold rb_first, round_up, rb_this_aligned in *. cbn [h_extra s1]. dlia. }
  assert (seg_ok s1) as Hok by (unfold seg_ok; cbn [h_extra h_size s1]; lia).
  wp_step. apply (wp_first_block_offset s1 _ Hok). u64_simpl.
  replace (rb_this + (rb_first s1 - rb_this)) with (rb_first s1) by lia.
  apply wp_add_segment; [done|apply elements_empty|done|done|lia|].
  intros s' Hinv HF. pose proof HF as [E1 E2]. cbn in E1, E2. split_and!; [done|done|].
  rewrite (rb_frame_first _ _ HF).
  by replace (rb_this + segment_size - rb_first s1) with (segment_size - (rb_first s1 - rb_this)) by lia.
Qed.

(** ** Growing *)

(** The bytes behind the end block that are too few for a block. *)
Definition rb_slack s : Z := rb_this + h_size s - (rb_end s + 16).

Lemma rb_end_unique s t :
  after (rb_first s) t + 16 <= rb_this + h_size s < after (rb_first s) t + 32 →
  rb_end s = after (rb_first s) t.
Proof. unfold rb_end, after. intros H. dlia. Qed.

Lemma rb_slack_range s bs : rb_core s bs → 0 <= rb_slack s < 16.
Proof using LOk.
  intros Hc. pose proof (core_facts _ _ Hc) as (_ & _ & _ & _ & Et & _). unfold rb_slack, rb_end, after in *. dlia.
Qed.

(** Behind the last block, an allocated one of [q] units was made of new memory. *)
Lemma rep_extend s s' bs q :
  rb_rep s bs → B <= q → h_extra s' = h_extra s → rb_this + h_size s' < 9223372036854775808 →
  let e := rb_end s in
  rb_end s' = after e q → m_imultiset s' = m_imultiset s →
  (∀ x, x < e → f_size s' !! x = f_size s !! x ∧ f_allocated s' !! x = f_allocated s !! x) →
  (∀ x, rb_first s < x <= e →
     f_prev_allocated s' !! x = f_prev_allocated s !! x ∧ f_prev_size s' !! x = f_prev_size s !! x) →
  f_prev_allocated s' !! rb_first s = Some true →
  f_prev_size s' !! rb_first s = Some (total bs + q) →
  f_size s' !! after e q = Some (total bs + q) → f_allocated s' !! after e q = Some true →
  block_at s' e (Blk q false) → h_allocated s' = h_allocated s + 16 * q →
  rb_rep s' (bs ++ [Blk q false]).
Proof using LOk.
  intros [Hc Hch Eal] Hq Ex Hf e Eend Et Hin Hprev H1 H2 H3 H4 Hb Eh.
  pose proof (core_facts _ _ Hc) as (_ & _ & Hmod & _ & Etile & _ & _ & _ & Hp). fold e in Etile.
  assert (rb_first s' = rb_first s) as Ef by (unfold rb_first; by rewrite Ex).
  constructor.
  - destruct Hc. constructor; rewrite ?Ef, ?total_app, ?Eend, ?Et, ?Ex; cbn [total b_size];
      rewrite ?Z.add_0_r; try done.
    + apply min_app. split; [done|]. apply min_cons. split; [done|apply min_nil].
    + by rewrite <- after_after, Etile.
    + rewrite frees_app. cbn. by rewrite app_nil_r.
    + eapply ordered_ext; [|done]. intros x Hx. unfold size_key.
      rewrite rc_tree in Hx. apply frees_range in Hx; [|done].
      rewrite (proj1 (Hin x ltac:(lia))). done.
  - rewrite Ef. apply chain_app. rewrite Etile. split; [|by split].
    eapply chain_ext; [done|done| | |exact Hch]; rewrite Etile; [|done]. intros x Hx. apply Hin. lia.
  - rewrite used_app. cbn. lia.
Qed.

(** Too few bytes for a block, and the end block stays where it is. *)
Lemma rep_slack s s' bs :
  rb_rep s bs → h_extra s' = h_extra s → rb_this + h_size s' < 9223372036854775808 →
  rb_end s' = rb_end s → m_imultiset s' = m_imultiset s → h_allocated s' = h_allocated s →
  f_size s' = f_size s → f_allocated s' = f_allocated s →
  f_prev_allocated s' = f_prev_allocated s → f_prev_size s' = f_prev_size s →
  rb_rep s' bs.
Proof.
  intros [Hc Hch Eal] Ex Hf Eend Et Eh E1 E2 E3 E4.
  assert (rb_first s' = rb_first s) as Ef by (unfold rb_first; by rewrite Ex).
  constructor; [|rewrite Ef; by apply (chain_fields s)|by rewrite Eh].
  destruct Hc. constructor; rewrite ?Ef, ?Eend, ?Ex, ?Et, ?E1, ?E2, ?E3, ?E4; try done.
  eapply ordered_ext; [|done]. intros x _. unfold size_key. by rewrite E1.
Qed.

Lemma wp_grow s bs extra_size (Q : () → seg → Prop) :
  rb_inv s bs → 0 <= extra_size → rb_this + h_size s + extra_size < 9223372036854775808 →
  let gap := rb_slack s + extra_size in
  gap < 16 ∨ 16 * B <= gap →
  (∀ s', h_extra s' = h_extra s → h_size s' = h_size s + extra_size →
     rb_inv s' (if 16 * B <=? gap then free_at bs (gap / 16) [] else bs) → Q () s') →
  wp (rb_grow extra_size) s Q.
Proof using LOk MSOk.
  intros [HR Hco] He Hf gap Hgap HQ. pose proof HR as [Hc Hch Eal].
  pose proof (core_seg_ok _ _ Hc) as Hok.
  pose proof (core_facts _ _ Hc) as (? & ? & Hmod & _ & Etile & ? & ? & ? & Hp). destruct B_val as (_ & EB & HB).
  pose proof rl_sizeof. pose proof (rb_slack_range _ _ Hc) as Hsl.
  assert (rb_first s <= rb_end s) by (unfold after in Etile; lia).
  unfold rb_grow, Alignment. change rb_EndCtrlBlockBytes with 16. rewrite EB.
  wp_step. apply wp_priv_first_block; [done|]. wp_step. apply wp_priv_end_block; [done|].
  wp_step. wp_step. wp_step. wp_step. u64_simpl. cbn [h_size set_h_size]. u64_simpl.
  replace (h_size s + extra_size - (rb_end s - rb_this + 16)) with gap by (unfold gap, rb_slack; lia).
  set (s1 := set_h_size _ s).
  assert (h_size s1 = h_size s + extra_size) as Es1 by (unfold s1; cbn; by u64_simpl).
  destruct (Z.leb_spec (16 * B) gap) as [Hbig|Hsmall].
  2: { destruct (Z.ltb_spec gap (16 * B)); [|lia]. apply wp_ret, HQ; [done|done|].
       assert (rb_end s1 = rb_end s) as Eend.
       { rewrite <- Etile. apply (rb_end_unique s1). change (rb_first s1) with (rb_first s). rewrite Es1, Etile. unfold gap, rb_slack in *. lia. }
       split; [|done]. apply (rep_slack s); try done. rewrite Es1. lia. }
  destruct (Z.ltb_spec gap (16 * B)); [lia|].
  set (q := gap / 16). assert (B <= q ∧ 16 * q <= gap < 16 * q + 16) as Hq by (unfold q; dlia).
  set (a := rb_first s) in *. set (e := rb_end s) in *. set (t := total bs) in *.
  assert (a + 16 * t = e) as Ee by (unfold after in Etile; lia).
  assert (e + 16 + gap = rb_this + h_size s1) as Eg by (rewrite Es1; unfold gap, rb_slack; fold e; lia).
  assert (q * 16 <= 9223372036854775808) by lia. u64_simpl.
  replace (e + q * 16) with (after e q) by (unfold after; lia).
  assert ((after e q - a) / 16 = t + q) as -> by (unfold after; dlia).
  assert ((after e q - e) / 16 = q) as -> by (unfold after; dlia).
  rewrite !rb_mask by lia.
  assert (rb_end s1 = after e q) as Eend1.
  { rewrite <- Etile, after_after. apply (rb_end_unique s1). change (rb_first s1) with a.
    rewrite <- after_after, Etile. unfold after. lia. }
  wp_step. apply wp_st; [apply rb_in_range; unfold after; lia|].
  wp_step. apply rb_wp_st_size; [apply rb_in_range; cbn [h_size set_f_allocated]; unfold after; lia|lia|].
  wp_step. eapply wp_ld; [cbn; by lkp|].
  wp_step. apply wp_st; [apply rb_in_range; cbn [h_size set_f_allocated set_f_size]; lia|].
  wp_step. apply wp_st; [apply rb_in_range; cbn [h_size set_f_allocated set_f_size set_f_prev_size]; lia|].
  set (s2 := set_f_prev_allocated _ _).
  assert (seg_ok s2) as Hok2 by (destruct Hok; unfold seg_ok; change (rb_first s2) with a; change (h_size s2) with (h_size s1); change (h_extra s2) with (h_extra s); lia).
  change (rb_end s1) with (rb_end s2) in Eend1.
  wp_step. apply wp_priv_end_block; [done|]. wp_step. apply wp_assert; [rewrite Eend1; apply Z.eqb_refl|].
  wp_step. apply rb_wp_st_size; [apply rb_in_range; [lia|change (e + 16 <= rb_this + h_size s1); lia]|lia|].
  wp_step. eapply wp_ld; [cbn; by lkp|]. wp_step. apply wp_assert; [apply Z.leb_le; lia|].
  wp_step. eapply (wp_mark_allocated _ _ q); [cbn; by lkp|lia|lia|change (after e q + 16 <= rb_this + h_size s1); unfold after; lia|].
  wp_step. eapply (wp_next_block _ _ q); [cbn; by lkp|lia|]. wp_step. apply wp_assert; [apply Z.eqb_refl|].
  wp_step. eapply (wp_ld _ _ q); [cbn; by lkp|]. wp_step. wp_step. set (s3 := set_h_allocated _ _).
  pose proof (alloc_range _ _ HR) as Hal. u64_simpl.
  unfold rb_get_user_buffer. change rb_AllocatedCtrlBytes with 16.
  assert (rb_rep s3 (bs ++ [Blk q false])) as HR3.
  { apply (rep_extend s s3 bs q); try done; fold a; fold e; fold t; try (cbn; by lkp); try lia.
    - change (rb_this + h_size s1 < 9223372036854775808). lia.
    - intros x Hx. cbn. by lkp.
    - intros x Hx. cbn. by lkp.
    - constructor; cbn; by lkp.
    - cbn. u64_simpl. lia. }
  replace e with (after (rb_first s3) (total bs)).
  eapply wp_mono; [by apply (rb_deallocate_ok s3 bs q [])|].
  intros [] s' [HR' HF]. destruct HF as [E1 E2]. apply HQ; [done|by rewrite E2|].
  split; [done|]. apply free_at_coalesced. by apply coalesced_used.
Qed.

(** ** Shrinking *)

(** The last block, which is free, is cut off. *)
Lemma rep_truncate s s' bs m :
  rb_rep s (bs ++ [Blk m true]) → h_extra s' = h_extra s →
  let e := after (rb_first s) (total bs) in
  rb_this + h_size s' = e + 16 → m_imultiset s' = ms_erase e (m_imultiset s) →
  (∀ x, x < e → f_size s' !! x = f_size s !! x ∧ f_allocated s' !! x = f_allocated s !! x) →
  (∀ x, rb_first s < x <= e →
     f_prev_allocated s' !! x = f_prev_allocated s !! x ∧ f_prev_size s' !! x = f_prev_size s !! x) →
  f_prev_allocated s' !! rb_first s = Some true → f_prev_size s' !! rb_first s = Some (total bs) →
  f_size s' !! e = Some (total bs) → f_allocated s' !! e = Some true →
  h_allocated s' = h_allocated s → rb_rep s' bs ∧ rb_end s' = e.
Proof using LOk MSOk.
  intros [Hc Hch Eal] Ex e Hf Et Hin Hprev H1 H2 H3 H4 Eh.
  pose proof (core_split _ _ _ _ Hc) as (Hp & _ & Hm & _ & HBm & Htot & _ & He). cbn in He, HBm. fold e in He.
  pose proof (core_facts _ _ Hc) as (_ & _ & Hmod & _ & _ & ? & ? & _ & Hpos). destruct B_val as (_ & _ & HB).
  assert (rb_first s' = rb_first s) as Ef by (unfold rb_first; by rewrite Ex).
  assert (rb_end s' = e) as Eend.
  { unfold e. rewrite <- Ef. apply rb_end_unique. rewrite Ef. fold e. lia. }
  pose proof (rc_tree _ _ Hc) as Htree. rewrite (frees_free_perm _ bs m []) in Htree. fold e in Htree.
  pose proof (frees_nodup (rb_first s) _ Hpos) as Hnd. rewrite (frees_free_perm _ bs m []) in Hnd. fold e in Hnd.
  apply NoDup_cons in Hnd as [Hnin _].
  rewrite frees_app in Htree, Hnin. cbn in Htree, Hnin. rewrite app_nil_r in Htree, Hnin.
  assert (elements (m_imultiset s') = filter (.≠ e) (elements (m_imultiset s))) as Eel.
  { rewrite Et. apply elements_erase. rewrite Htree. apply list_elem_of_here. }
  assert (elements (m_imultiset s') ≡ₚ frees (rb_first s) bs) as Hel
    by (rewrite Eel; by apply filter_ne_perm).
  split; [|done]. constructor.
  - destruct Hc. constructor; rewrite ?Ef, ?Eend, ?Ex; try done.
    + unfold after in He. lia.
    + apply (ordered_ext (size_key s)); [|rewrite Eel; by apply ordered_filter].
      intros x Hx. rewrite Hel in Hx. apply frees_range in Hx; [|done]. fold e in Hx.
      unfold size_key. rewrite (proj1 (Hin x ltac:(lia))). done.
  - rewrite Ef. apply chain_app in Hch as [Hch _].
    eapply chain_ext; [done|done| | |exact Hch]; fold e; [|done]. intros x Hx. apply Hin. lia.
  - rewrite Eh, Eal, used_app. cbn. lia.
Qed.

(** What [shrink_to_fit] does once it found the last block, whose size is [m]. *)
Lemma wp_shrink_cut s bs m unique_buffer (Q : () → seg → Prop) :
  rb_rep s (bs ++ [Blk m true]) → rb_this + h_size s < 4611686018427387904 →
  let a := rb_first s in let e := after a (total bs) in
  (∀ s', rb_rep s' bs → h_extra s' = h_extra s → rb_this + h_size s' = e + 16 →
     wp (if nz unique_buffer then rb_deallocate unique_buffer else mret ()) s' Q) →
  wp (last_block_size ← rb_ld_size e;
      _ ← erase_block e;
      let shrunk_border_offset := u64 (e - rb_this) +! rb_EndCtrlBlockBytes in
      let new_end_block := e in
      rb_assert_aligned new_end_block;;
      rb_st_size new_end_block (Z.land (u64 (new_end_block - a) / Alignment) rb_size_mask);;
      n ← rb_ld_size new_end_block;
      rb_st_prev_size a n;;
      rb_st_allocated new_end_block true;;
      boost_assert (n =? (total (bs ++ [Blk m true]) -! last_block_size));;
      modify (set_h_size (λ _, Z.land shrunk_border_offset rb_size_mask));;
      eb ← rb_priv_end_block;
      boost_assert (eb =? new_end_block);;
      if nz unique_buffer then rb_deallocate unique_buffer else mret ()) s Q.
Proof using LOk MSOk.
  intros HR Hf a e HQ. pose proof HR as [Hc Hch _].
  pose proof (core_split _ _ _ _ Hc) as (_ & _ & _ & _ & HBm & Htot & _ & He). cbn in He, HBm. fold a e in He.
  pose proof (core_facts _ _ Hc) as (? & Hfirst & Hmod & _ & _ & ? & ? & _). fold a in Hfirst, Hmod.
  destruct B_val as (_ & _ & HB). pose proof rl_sizeof. unfold after in He. rewrite Z.add_0_r in He.
  apply chain_app in Hch as [_ [[Hm _ _ _] _]]. fold a e in Hm. cbn in Hm.
  assert (e = a + 16 * total bs) as Ee by done.
  unfold rb_assert_aligned, Alignment. change rb_EndCtrlBlockBytes with 16.
  wp_step. eapply wp_ld; [done|]. wp_step. apply wp_erase. cbv zeta.
  assert (u64 (e - a) / 16 = total bs) as -> by (rewrite u64_small by (unfold in_u64; lia); dlia).
  rewrite total_app. cbn [total b_size]. rewrite Z.add_0_r. u64_simpl. rewrite !rb_mask by lia.
  wp_step. apply wp_assert; [apply check_aligned; rewrite Ee; dlia|].
  wp_step. apply rb_wp_st_size; [apply rb_in_range; cbn; lia|lia|]. wp_step. eapply wp_ld; [cbn; by lkp|].
  wp_step. apply wp_st; [apply rb_in_range; cbn; lia|]. wp_step. apply wp_st; [apply rb_in_range; cbn; lia|].
  wp_step. apply wp_assert; [apply Z.eqb_eq; lia|]. wp_step. wp_step. set (s1 := set_h_size _ _).
  destruct (rep_truncate s s1 bs m HR) as [HR1 Eend]; try done; fold a; fold e; try (cbn; by lkp).
  { cbn. lia. }
  { intros x Hx. cbn. by lkp. }
  { intros x Hx. cbn. by lkp. }
  { cbn. apply Hc. }
  wp_step. apply wp_priv_end_block; [by eapply core_seg_ok, rr_core|].
  wp_step. apply wp_assert; [apply Z.eqb_eq; exact Eend|]. apply HQ; [done|done|]. cbn. lia.
Qed.

(** The blocks after [shrink_to_fit]: a free block at the end is cut off; of an
    empty segment the smallest block remains. *)
Definition shrunk (bs : list blk) : list blk :=
  match bs with
  | [Blk _ true] => [Blk B true]
  | _ => if ends_free bs then removelast bs else bs
  end.

Lemma shrunk_snoc pre m fr :
  pre ≠ [] → shrunk (pre ++ [Blk m fr]) = if fr then pre else pre ++ [Blk m fr].
Proof.
  intros Hne. assert (shrunk (pre ++ [Blk m fr]) =
    if ends_free (pre ++ [Blk m fr]) then removelast (pre ++ [Blk m fr]) else pre ++ [Blk m fr]) as ->.
  { destruct pre as [|[k []] [|? ?]]; done. }
  rewrite ends_free_snoc, removelast_last. done.
Qed.

Lemma allocate_zero s bs (Q : Z * Z * Z → seg → Prop) :
  rb_rep s bs →
  (∀ r s', rb_new_result s bs 0 0 (fst (fst r)) (snd (fst r)) s' → Q r s') →
  wp (rb_priv_allocate cmd_allocate_new 0 0 0 Alignment) s Q.
Proof using LOk MSOk.
  intros HR HQ. unfold rb_priv_allocate, rb_allocate_sizeof, Alignment.
  eapply wp_mono; [apply (rb_allocate_new_ok _ 1 s bs 0 0 16 HR); lia|].
  intros r s' [H _]. by apply HQ.
Qed.

Lemma wp_shrink_find_single s n fr (Q : option (Z * Z) → seg → Prop) :
  rb_rep s [Blk n fr] → (fr = true → 2 * B <= n) → rb_this + h_size s < 4611686018427387904 →
  (fr = false → Q None s) →
  (∀ s', let a := rb_first s in fr = true → rb_rep s' ([Blk B false] ++ [Blk (n - B) true]) → rb_frame s s' →
     Q (Some (a + 16, after a B)) s') →
  wp (rb_shrink_find (rb_first s) (rb_end s)) s Q.
Proof using LOk MSOk.
  intros HR Hn Hf HQ1 HQ2. pose proof HR as [Hc [Hb _] _]. destruct B_val as (_ & _ & HB).
  pose proof (core_facts _ _ Hc) as (? & ? & Hmod & _ & Et & ? & ? & Ht0 & _).
  cbn in Et, Ht0. rewrite Z.add_0_r in Et, Ht0. pose proof rl_sizeof.
  assert (0 <= n <= 1152921504606846975) by (unfold after in Et; lia). unfold rb_shrink_find, rb_assert_aligned.
  wp_step. eapply wp_next_block; [apply Hb|done|]. cbn [b_size]. rewrite Et, Z.eqb_refl.
  wp_step. apply (allocate_zero s [Blk n fr]); [done|]. intros [[p rc] ru] s' Hres. cbn [fst snd] in Hres.
  destruct (rb_total_units_val 0) as (E0 & _); [lia|].
  assert (rb_get_total_units 0 = B) as Eu by (rewrite E0; change (user_units 8 0) with 0; lia).
  destruct fr.
  - specialize (Hn eq_refl). destruct Hres as [pre sz post s' u E Hle Hbest HR' HF
      |pre sz post s' E Hlt Hle Hbig HR' HF|Hnone].
    + destruct pre as [|? [|? ?]]; [|done..]. injection E as <- <-. cbn [total] in *. rewrite after_0 in *.
      unfold u in *. rewrite Eu in HR'. unfold cut in HR'. destruct (Z.leb_spec (B + B) n); [|lia]. cbn [app] in HR'.
      destruct (Z.eqb_spec (rb_first s + 16) 0); [lia|].
      pose proof HR' as [Hc' [Hb1 [Hb2 _]] _]. pose proof (rb_frame_first _ _ HF) as Ef. rewrite Ef in *. cbn in Hb2.
      unfold rb_get_block. change rb_AllocatedCtrlBytes with 16. rewrite Z.add_simpl_r.
      wp_step. apply wp_assert; [apply check_aligned; dlia|].
      wp_step. eapply wp_is_allocated_block; [by eapply core_seg_ok|done|cbn; lia|].
      wp_step. apply wp_assert; [done|]. wp_step. apply wp_assert; [by apply check_aligned|].
      wp_step. eapply wp_next_block; [apply Hb1|cbn; lia|]. cbn [b_size].
      wp_step. eapply wp_is_allocated_block; [by eapply core_seg_ok|done|cbn; unfold after in *; lia|].
      wp_step. apply wp_assert; [done|]. wp_step. apply wp_assert; [apply check_aligned; unfold after; dlia|].
      wp_step. by apply HQ2.
    + destruct pre as [|? [|? ?]]; [|done..]. injection E as <- <-. rewrite Eu in Hlt. lia.
    + assert (n < rb_get_total_units 0) by (apply Hnone, list_elem_of_here). lia.
  - destruct Hres as [pre sz post s' u E|pre sz post s' E|Hnone].
    1, 2: by destruct pre as [|? [|? ?]].
    rewrite Z.eqb_refl. apply wp_ret. by apply HQ1.
Qed.

(** With more than one block, the last one is found from the end block. *)
Lemma wp_shrink_find_last s pre m fr (Q : option (Z * Z) → seg → Prop) :
  rb_rep s (pre ++ [Blk m fr]) → pre ≠ [] →
  Q (if fr then Some (0, after (rb_first s) (total pre)) else None) s →
  wp (rb_shrink_find (rb_first s) (rb_end s)) s Q.
Proof using LOk MSOk.
  intros HR Hne HQ. pose proof HR as [Hc Hch _]. destruct B_val as (_ & _ & HB).
  pose proof (core_facts _ _ Hc) as (? & ? & Hmod & _ & Et & ? & ? & ? & _).
  pose proof (core_split _ _ _ _ Hc) as (Hp & _ & _ & _ & HBm & Htot & _ & He). cbn in HBm, He.
  rewrite Z.add_0_r in He. pose proof rl_sizeof.
  apply chain_app in Hch as [Hch1 [Hb _]].
  destruct pre as [|[n1 fr1] pre]; [done|]. destruct Hch1 as [Hb1 _]. cbn [b_size] in *.
  apply pos_cons in Hp as [Hn1 Hp]. cbn in Hn1. pose proof (pos_total _ Hp).
  set (p := after (rb_first s) (total (Blk n1 fr1 :: pre))) in *.
  assert (p = rb_first s + 16 * n1 + 16 * total pre) as Ep by (unfold p, after; cbn; lia).
  unfold after in He. unfold rb_shrink_find.
  wp_step. eapply wp_next_block; [apply Hb1|cbn; lia|]. cbn [b_size].
  destruct (Z.eqb_spec (after (rb_first s) n1) (rb_end s)); [unfold after in *; lia|].
  replace (rb_end s) with (after p m) by (unfold after; lia).
  destruct fr; wp_step.
  - eapply wp_is_prev_allocated_false; [by eapply core_seg_ok|done|lia|]. cbv iota.
    wp_step. eapply wp_prev_block; [done|lia|]. by wp_step.
  - apply wp_is_prev_allocated_true; [apply Hb|]. by apply wp_ret.
Qed.

Lemma wp_shrink_to_fit s bs (Q : () → seg → Prop) :
  rb_inv s bs → bs ≠ [] → (∀ n, bs = [Blk n true] → 2 * B <= n) →
  rb_this + h_size s < 4611686018427387904 →
  (∀ s', rb_inv s' (shrunk bs) → h_extra s' = h_extra s → h_size s' <= h_size s →
     Q () s') →
  wp rb_shrink_to_fit s Q.
Proof using LOk MSOk.
  intros [HR Hco] Hne Hbig Hf HQ. pose proof HR as [Hc Hch _]. destruct B_val as (_ & _ & HB).
  pose proof (core_facts _ _ Hc) as (? & ? & Hmod & _ & Et & ? & ? & ? & _). pose proof rl_sizeof.
  pose proof (core_seg_ok _ _ Hc) as Hok. unfold rb_shrink_to_fit, rb_assert_aligned at 1 2.
  wp_step. apply wp_priv_first_block; [done|]. wp_step. apply wp_assert; [by apply check_aligned|].
  wp_step. apply wp_priv_end_block; [done|].
  wp_step. apply wp_assert; [apply check_aligned; rewrite <- Et; unfold after; dlia|].
  wp_step. eapply wp_ld; [apply Hc|]. wp_step.
  destruct bs as [|[m fr] pre _] using rev_ind; [done|]. destruct pre as [|b1 pre].
  - cbn [app] in *. apply (wp_shrink_find_single s m fr); [done|intros ->; by apply Hbig|done|..].
    + intros ->. apply wp_ret. by apply HQ.
    + intros s1 a -> HR1 HF1. pose proof (rb_frame_first _ _ HF1) as Ef. pose proof HF1 as [E1 E2].
      pose proof (wp_shrink_cut s1 [Blk B false] (m - B) (a + 16) Q HR1) as Hcut. cbv zeta in Hcut.
      rewrite Ef in Hcut. fold a in Hcut. cbn [total b_size app] in Hcut |- *. rewrite !Z.add_0_r in Hcut |- *.
      replace (B + (m - B + 0)) with m in Hcut by lia. apply Hcut; [by rewrite E2|].
      intros s2 HR2 E3 E4. unfold nz. destruct (Z.eqb_spec (a + 16) 0); [unfold a in *; lia|]. cbn [negb].
      pose proof (rb_deallocate_ok s2 [] B [] HR2) as Hd. cbn [total] in Hd. rewrite after_0 in Hd.
      replace (rb_first s2) with a in Hd by (unfold a, rb_first; by rewrite E3, E1).
      eapply wp_mono; [exact Hd|]. intros [] s3 [HR3 [E5 E6]].
      apply HQ; [by split|by rewrite E5, E3|].
      unfold after, a in *. cbn in Et. specialize (Hbig m eq_refl). lia.
  - apply (wp_shrink_find_last s (b1 :: pre) m fr); [done|done|]. destruct fr.
    2: { apply wp_ret. apply HQ; [|done|done]. by rewrite shrunk_snoc. }
    apply wp_shrink_cut; [done|done|]. intros s2 HR2 E3 E4. apply wp_ret.
    apply HQ; [|done|].
    + rewrite shrunk_snoc by done. by apply coalesced_app in Hco as [Hco _].
    + pose proof (core_split _ _ _ _ Hc) as (_ & _ & _ & _ & HBm & _ & _ & He). cbn in HBm, He.
      unfold after in *. cbn in *. lia.
Qed.
End segment.
