(* ===== verification/RbTreeQuery.v ===== *)
(** The best-fit algorithm: queries, zeroing of free memory, and what writing
    into a buffer leaves alone. *)

From stdpp Require Import sorting.
From S2P Require Import Prelude Blocks MathUtil MemAlgo MemAlgoSpec MemAlgoAlign.
From S2P Require Import RbTree RbTreeInv RbTreeOps RbTreeAlloc RbTreeHeap RbTreeSegment.

Local Open Scope u64_scope.

Section query.
Context {T : Type} {MS : Imultiset T} {MSOk : ImultisetOk T} {L : RbLayout} {LOk : RbLayoutOk}.
Notation seg := (rbseg T).
Notation B := rb_BlockCtrlUnits.
Implicit Types s : seg.

(** ** Writing into a buffer *)

(** The fields of the headers that lie outside of the buffer behind [a] are
    unchanged; [m_prev_size] comes first in a header, so the one in the header
    behind the block may change. *)
Lemma rep_user_write s s' pre n post :
  rb_rep s (pre ++ Blk n false :: post) → rb_frame s s' → m_imultiset s' = m_imultiset s →
  h_allocated s' = h_allocated s →
  let a := after (rb_first s) (total pre) in
  (∀ x, x mod 16 = 0 → x <= a ∨ after a n <= x →
     f_size s' !! x = f_size s !! x ∧ f_allocated s' !! x = f_allocated s !! x ∧
     f_prev_allocated s' !! x = f_prev_allocated s !! x) →
  (∀ x, x mod 16 = 0 → x <= a ∨ after a n < x → f_prev_size s' !! x = f_prev_size s !! x) →
  rb_rep s' (pre ++ Blk n false :: post).
Proof using LOk.
  intros [Hc Hch Eal] HF Et Eh a H1 H2.
  pose proof (core_facts _ _ Hc) as (_ & _ & Hmod & _ & Etile & _ & _ & _ & Hp).
  pose proof (core_range _ _ _ _ Hc) as Hr. cbv zeta in Hr. fold a in Hr.
  pose proof (core_split _ _ _ _ Hc) as (Hp1 & Hp2 & _ & _ & _ & ? & ? & He). cbn in He. fold a in He.
  assert (after a n mod 16 = 0) as Hmod2 by (unfold after; dlia).
  assert (rb_end s mod 16 = 0) as Hmod3 by (rewrite <- Etile; unfold after; dlia).
  constructor; [|rewrite (rb_frame_first _ _ HF)|by rewrite Eh].
  - destruct (H1 (rb_first s)) as (_ & _ & E1); [done|lia|].
    destruct (H1 (rb_end s)) as (E2 & E3 & _); [done|unfold after in *; lia|].
    pose proof (H2 (rb_first s) Hmod ltac:(lia)) as E4.
    pose proof (rb_frame_first _ _ HF) as E5. pose proof (rb_frame_end _ _ HF) as E6. destruct HF as [E7 E8].
    destruct Hc. constructor; rewrite ?E5, ?E6, ?E7, ?E8, ?E1, ?E2, ?E3, ?E4, ?Et; try done.
    eapply ordered_ext; [|done]. intros x Hx. unfold size_key. rewrite rc_tree in Hx.
    pose proof (frees_addrs _ _ _ Hx) as Hx2. apply addrs_range in Hx2 as [_ Hx2]; [|done].
    apply frees_outside in Hx; [|done..]. fold a in Hx.
    rewrite (proj1 (H1 x ltac:(dlia) ltac:(lia))). done.
  - apply chain_app in Hch as [Hch1 [[Hb1 Hb2 Hb3 _] Hch2]]. apply chain_app. fold a in Hb1, Hb2, Hb3, Hch2 |- *.
    cbn in *. split; [|split].
    + eapply chain_ext_aligned; [done|done| | |exact Hch1]; fold a; intros x Hm Hx.
      * destruct (H1 x Hm) as (? & ? & _); [lia|done].
      * destruct (H1 x Hm) as (_ & _ & ?); [lia|]. split; [done|]. apply H2; [done|lia].
    + destruct (H1 a) as (E1 & E2 & _); [lia|lia|]. destruct (H1 (after a n)) as (_ & _ & E3); [done|lia|].
      constructor; cbn; [by rewrite E1|by rewrite E2|by rewrite E3|done].
    + eapply chain_ext_aligned; [done|done| | |exact Hch2]; intros x Hm Hx.
      * destruct (H1 x Hm) as (? & ? & _); [lia|done].
      * destruct (H1 x Hm) as (_ & _ & ?); [lia|]. split; [done|]. apply H2; [done|lia].
Qed.

(** ** Queries *)

Lemma wp_free_memory s bs (Q : Z → seg → Prop) :
  rb_rep s bs → Q (h_size s - 16 * used bs - (rb_first s - rb_this)) s → wp rb_get_free_memory s Q.
Proof using LOk.
  intros HR HQ. pose proof HR as [Hc _ Eal]. pose proof (alloc_range _ _ HR).
  pose proof (core_facts _ _ Hc) as (? & ? & _ & _ & Et & ? & ? & ? & Hp). pose proof (used_bounds _ Hp).
  pose proof rl_sizeof. unfold rb_get_free_memory. wp_step. wp_step. wp_step. wp_step. wp_step. wp_step. wp_step.
  apply wp_first_block_offset; [by eapply core_seg_ok|]. wp_step. rewrite Eal.
  unfold after in Et. u64_simpl. done.
Qed.

(** Blocks without an allocated one are a single free block. *)
Lemma unused_one bs : used bs = 0 → pos_blocks bs → coalesced bs → bs = [] ∨ ∃ n, bs = [Blk n true].
Proof.
  intros Hu Hp Hc. destruct bs as [|[n []] bs]; [by left| |].
  - right. exists n. destruct bs as [|[m []] bs]; [done|..].
    + cbn in Hc. by destruct Hc as [[] _].
    + apply pos_cons in Hp as [_ [? Hp]%pos_cons]. pose proof (used_bounds _ Hp). cbn in *. lia.
  - apply pos_cons in Hp as [? Hp]. pose proof (used_bounds _ Hp). cbn in *. lia.
Qed.

Lemma wp_all_deallocated s bs (Q : bool → seg → Prop) :
  rb_inv s bs → bs ≠ [] → (∀ b, (b = true ↔ used bs = 0) → Q b s) → wp rb_all_memory_deallocated s Q.
Proof using LOk.
  intros [HR Hco] Hne HQ. pose proof HR as [Hc Hch Eal].
  pose proof (core_facts _ _ Hc) as (? & ? & _ & _ & Et & ? & ? & ? & Hp). pose proof rl_sizeof.
  unfold rb_all_memory_deallocated. wp_step. wp_step. wp_step.
  apply wp_first_block_offset; [by eapply core_seg_ok|]. wp_step. wp_step. rewrite Eal.
  destruct (Z.eqb_spec (16 * used bs) 0) as [Hz|Hz]; cbn [negb].
  2: { apply wp_ret, HQ. split; [done|lia]. }
  destruct (unused_one bs) as [->|[n ->]]; [lia|done|done|done|].
  wp_step. wp_step. pose proof (rc_tree _ _ Hc) as Hel. cbn in Hel.
  apply Permutation_singleton_r in Hel. rewrite Hel. destruct Hch as [[Hn _ _ _] _]. cbn in Hn.
  wp_step. eapply wp_ld; [done|]. wp_step. wp_step. apply wp_ret, HQ. change rb_EndCtrlBlockBytes with 16.
  cbn. split; [done|]. intros _. apply Z.eqb_eq. unfold Alignment. cbn in Et. rewrite Z.add_0_r in Et.
  unfold after in Et.
  apply pos_total in Hp. cbn in Hp. u64_simpl. unfold rb_end in *. dlia.
Qed.

(** The units of the free blocks, added up in any order. *)
Definition key_sum (key : Z → Z) (l : list Z) : Z := foldr (λ x acc, key x + acc) 0 l.

#[local] Arguments key_sum : simpl never.

Lemma key_sum_cons key x l : key_sum key (x :: l) = key x + key_sum key l.
Proof. done. Qed.

Lemma key_sum_perm key l l' : l ≡ₚ l' → key_sum key l = key_sum key l'.
Proof. unfold key_sum. induction 1; cbn; lia. Qed.

Lemma key_sum_app key l l' : key_sum key (l ++ l') = key_sum key l + key_sum key l'.
Proof. unfold key_sum. induction l; cbn; lia. Qed.

Lemma key_sum_frees s a bs : chain s a bs → key_sum (size_key s) (frees a bs) = total bs - used bs.
Proof.
  revert a. induction bs as [|[n fr] bs IH]; intros a; cbn; [done|]. intros [[Hn _ _ _] Hch].
  rewrite key_sum_app, IH by done. cbn in Hn. destruct fr; [|unfold key_sum; cbn; lia].
  rewrite key_sum_cons. unfold size_key at 1, key_sum. rewrite Hn. cbn. lia.
Qed.

Lemma wp_sanity_loop s l acc (Q : option Z → seg → Prop) :
  (∀ x, x ∈ l → ∃ n, f_size s !! x = Some n ∧ 0 <= n ∧ x mod 16 = 0) → 0 <= acc →
  acc + 16 * key_sum (size_key s) l < 9223372036854775808 →
  Q (Some (acc + 16 * key_sum (size_key s) l)) s → wp (rb_sanity_loop l acc) s Q.
Proof.
  revert acc. induction l as [|x l IH]; intros acc Hl Hacc Hlt HQ; cbn [rb_sanity_loop].
  { apply wp_ret. unfold key_sum in HQ. cbn [foldr] in HQ. by rewrite Z.mul_0_r, Z.add_0_r in HQ. }
  destruct (Hl x) as (n & Hn & Hn0 & Hm); [apply list_elem_of_here|].
  assert (∀ y, y ∈ l → ∃ n, f_size s !! y = Some n ∧ 0 <= n ∧ y mod 16 = 0) as Hl'
    by (intros y Hy; apply Hl; by apply list_elem_of_further).
  assert (0 <= key_sum (size_key s) l) as Hs.
  { clear -Hl'. induction l as [|y l IH]; [done|]. rewrite key_sum_cons.
    destruct (Hl' y) as (n & Hn & ? & _); [apply list_elem_of_here|].
    assert (0 <= key_sum (size_key s) l) by (apply IH; intros z Hz; apply Hl'; by apply list_elem_of_further).
    unfold size_key at 1. rewrite Hn. cbn. lia. }
  assert (size_key s x = n) as Ek by (unfold size_key; by rewrite Hn). rewrite key_sum_cons, Ek in Hlt, HQ.
  unfold Alignment. wp_step. eapply wp_ld; [done|]. u64_simpl. rewrite check_aligned by done. cbn [negb].
  apply IH; [done|lia|lia|].
  by replace (acc + n * 16 + 16 * key_sum (size_key s) l) with (acc + 16 * (n + key_sum (size_key s) l)) by lia.
Qed.

(** Every element of the tree is a free block with its size in its header. *)
Lemma tree_elem s bs x :
  rb_rep s bs → x ∈ elements (m_imultiset s) →
  ∃ pre n post, bs = pre ++ Blk n true :: post ∧ x = after (rb_first s) (total pre) ∧
    f_size s !! x = Some n ∧ size_key s x = n ∧ B <= n ∧ x mod 16 = 0.
Proof using LOk.
  intros HR Hx. destruct (elem_free _ _ _ HR Hx) as (pre & n & post & -> & -> & Ek).
  pose proof HR as [Hc Hch _]. apply chain_app in Hch as [_ [[Hn _ _ _] _]]. cbn in Hn.
  pose proof (core_split _ _ _ _ Hc) as (_ & _ & _ & _ & HB & _).
  pose proof (core_facts _ _ Hc) as (_ & _ & Hm & _). exists pre, n, post.
  split_and!; try done. unfold after. dlia.
Qed.

Lemma wp_check_sanity s bs (Q : bool → seg → Prop) :
  rb_rep s bs → Q true s → wp rb_check_sanity s Q.
Proof using LOk.
  intros HR HQ. pose proof HR as [Hc Hch Eal]. pose proof (alloc_range _ _ HR).
  pose proof (core_facts _ _ Hc) as (? & ? & _ & _ & Et & ? & ? & ? & Hp). pose proof (used_bounds _ Hp).
  pose proof rl_sizeof. destruct B_val as (_ & _ & ?).
  assert (key_sum (size_key s) (elements (m_imultiset s)) = total bs - used bs) as Ek.
  { rewrite (key_sum_perm _ _ _ (rc_tree _ _ Hc)). by apply key_sum_frees. }
  unfold rb_check_sanity. unfold after in Et. wp_step. wp_step. wp_step.
  apply wp_sanity_loop; rewrite ?Ek; [|lia|lia|].
  { intros x Hx. destruct (tree_elem _ _ _ HR Hx) as (pre & n & post & _ & _ & ? & _ & ? & ?).
    exists n. split_and!; [done|lia|done]. }
  wp_step. wp_step. wp_step. wp_step. rewrite Eal. destruct (Z.ltb_spec (h_size s) (16 * used bs)); [lia|].
  wp_step. wp_step. wp_step. apply wp_first_block_offset; [by eapply core_seg_ok|]. u64_simpl.
  destruct (Z.ltb_spec (h_size s - (rb_first s - rb_this)) (0 + 16 * (total bs - used bs))); [lia|].
  by apply wp_ret.
Qed.

(** ** Zeroing the free memory *)

Lemma rep_clear s s' pre n post :
  rb_rep s (pre ++ Blk n true :: post) → rb_frame s s' → m_imultiset s' = m_imultiset s →
  h_allocated s' = h_allocated s →
  let a := after (rb_first s) (total pre) in
  (∀ x, x <= a ∨ after a n <= x →
     f_size s' !! x = f_size s !! x ∧ f_allocated s' !! x = f_allocated s !! x ∧
     f_prev_allocated s' !! x = f_prev_allocated s !! x ∧ f_prev_size s' !! x = f_prev_size s !! x) →
  rb_rep s' (pre ++ Blk n true :: post).
Proof using LOk MSOk.
  intros [Hc Hch Eal] HF Et Eh a H1.
  pose proof (core_facts _ _ Hc) as (_ & _ & Hmod & _ & Etile & _ & _ & _ & Hp).
  pose proof (core_range_free _ _ _ _ Hc) as Hr. cbv zeta in Hr. fold a in Hr.
  pose proof (core_split _ _ _ _ Hc) as (Hp1 & Hp2 & _ & _ & _ & ? & ? & He). cbn in He. fold a in He.
  assert (after a n mod 16 = 0) as Hmod2 by (unfold after; dlia).
  constructor; [|rewrite (rb_frame_first _ _ HF)|by rewrite Eh].
  - destruct (H1 (rb_first s)) as (_ & _ & E1 & E4); [lia|].
    destruct (H1 (rb_end s)) as (E2 & E3 & _); [unfold after in *; lia|].
    pose proof (rb_frame_first _ _ HF) as E5. pose proof (rb_frame_end _ _ HF) as E6. destruct HF as [E7 E8].
    destruct Hc. constructor; rewrite ?E5, ?E6, ?E7, ?E8, ?E1, ?E2, ?E3, ?E4, ?Et; try done.
    eapply ordered_ext; [|done]. intros x Hx. unfold size_key. rewrite rc_tree, frees_free_perm in Hx.
    fold a in Hx. assert (x <= a ∨ after a n <= x) as Hout.
    { apply elem_of_cons in Hx as [->|Hx]; [lia|]. apply frees_outside in Hx; [|done..]. fold a in Hx. lia. }
    rewrite (proj1 (H1 x Hout)). done.
  - apply chain_app in Hch as [Hch1 [[Hb1 Hb2 Hb3 Hb4] Hch2]]. apply chain_app. fold a in Hb1, Hb2, Hb3, Hb4, Hch2 |- *.
    cbn in *. destruct (H1 a) as (E1 & E2 & _); [lia|]. destruct (H1 (after a n)) as (_ & _ & E3 & E4); [lia|].
    split; [|split; [constructor; cbn; by rewrite ?E1, ?E2, ?E3, ?E4|]].
    + eapply chain_ext; [done|done| | |exact Hch1]; fold a; intros x Hx; destruct (H1 x) as (? & ? & ? & ?); done || lia.
    + eapply chain_ext; [done|done| | |exact Hch2]; intros x Hx; destruct (H1 x) as (? & ? & ? & ?); done || lia.
Qed.

(** The memory that [zero_free_memory] clears in a free block: all but the
    control data. *)
Definition zeroed_range s (x : Z) : Z * Z := (x + 16 * B, 16 * size_key s x - 16 * B).

Lemma wp_zero_loop s0 l s bs (Q : () → seg → Prop) :
  rb_rep s bs → (∀ x, x ∈ l → x ∈ elements (m_imultiset s)) →
  (∀ x, x ∈ elements (m_imultiset s) → size_key s x = size_key s0 x) →
  (∀ s', rb_rep s' bs → rb_frame s s' → cleared s' = cleared s ++ map (zeroed_range s0) l → Q () s') →
  wp (rb_zero_loop l) s Q.
Proof using LOk MSOk.
  revert s. induction l as [|x l IH]; intros s HR Hl Hk HQ; cbn [rb_zero_loop].
  { apply wp_ret, HQ; [done|done|]. by rewrite app_nil_r. }
  assert (x ∈ elements (m_imultiset s)) as Hx by (apply Hl, list_elem_of_here).
  destruct (tree_elem _ _ _ HR Hx) as (pre & n & post & -> & Ex & Hn & Ek & HB & Hmod).
  pose proof (core_range_free _ _ _ _ (rr_core _ _ HR)) as Hr. cbv zeta in Hr. rewrite <- Ex in Hr.
  destruct B_val as (_ & EB & HB2). unfold Alignment. rewrite EB.
  wp_step. eapply wp_ld; [done|]. u64_simpl. wp_step. unfold clear_range, wp at 1. cbn.
  destruct (Z.leb_spec (rb_this + sizeof_rbtree) (x + 16 * B)); [|lia].
  destruct (Z.leb_spec (x + 16 * B + (n * 16 - 16 * B)) (rb_this + h_size s)); [|lia]. cbn [andb].
  set (s1 := RbSeg _ _ _ _ _ _ _ _ _).
  assert (rb_rep s1 (pre ++ Blk n true :: post)) as HR1.
  { apply (rep_clear s); try done. rewrite <- Ex. intros y Hy. unfold s1. cbn.
    rewrite !forget_out by (unfold after in *; lia). done. }
  apply IH; [done| | |].
  - intros y Hy. apply Hl. by apply list_elem_of_further.
  - intros y Hy. rewrite <- Hk by done. change (y ∈ elements (m_imultiset s)) in Hy.
    assert (y <= x ∨ after x n <= y) as Hout.
    { pose proof (core_split _ _ _ _ (rr_core _ _ HR)) as (Hp1 & Hp2 & _).
      rewrite (rc_tree _ _ (rr_core _ _ HR)), frees_free_perm in Hy. apply elem_of_cons in Hy as [->|Hy]; [lia|].
      apply frees_outside in Hy; [|done..]. rewrite <- Ex in Hy. lia. }
    unfold size_key, s1. cbn. rewrite forget_out by (unfold after in *; lia). done.
  - intros s2 HR2 HF2 Ec. apply HQ; [done|done|]. rewrite Ec. cbn. rewrite <- app_assoc. cbn.
    unfold zeroed_range at 2. rewrite <- Hk by done. rewrite Ek. do 3 f_equal. lia.
Qed.
End query.
