(* ===== verification/RbTreeProps.v ===== *)
(** The best-fit algorithm: its theorems. *)

From stdpp Require Import sorting.
From S2P Require Import Prelude Blocks MathUtil MemAlgo MemAlgoSpec MemAlgoAlign.
From S2P Require Import RbTree RbTreeInv RbTreeOps RbTreeAlloc RbTreeHeap.
From S2P Require Import RbTreeResize RbTreeSegment RbTreeQuery.

Local Open Scope u64_scope.

(** ** A multiset and a segment for concrete runs

    Sorted lists have the properties of the multiset of Boost.Intrusive. *)

Fixpoint list_insert_by (key : Z → Z) (x : Z) (l : list Z) : list Z :=
  match l with
  | [] => [x]
  | y :: l' => if key x <? key y then x :: l else y :: list_insert_by key x l'
  end.
Fixpoint list_lower_bound (key : Z → Z) (n : Z) (l : list Z) : option Z :=
  match l with
  | [] => None
  | y :: l => if key y <? n then list_lower_bound key n l else Some y
  end.

#[export] Instance list_multiset : Imultiset (list Z) := {|
  elements := λ l, l;
  ms_empty := [];
  ms_insert := list_insert_by;
  ms_insert_hint := λ key _, list_insert_by key;
  ms_erase := λ x, filter (.≠ x);
  ms_lower_bound := list_lower_bound
|}.

Lemma list_insert_by_ok key x l :
  ordered key l → list_insert_by key x l ≡ₚ x :: l ∧ ordered key (list_insert_by key x l).
Proof.
  unfold ordered. induction l as [|y l IH]; intros Ho; cbn; [by repeat constructor|].
  destruct (Z.ltb_spec (key x) (key y)) as [Hlt|Hge].
  - split; [done|]. constructor; [done|]. apply StronglySorted_cons in Ho as [Hy _].
    constructor; [lia|]. eapply Forall_impl; [exact Hy|]. cbn. intros; lia.
  - apply StronglySorted_cons in Ho as [Hy Ho]. destruct (IH Ho) as [E Ho'].
    split; [rewrite E; apply Permutation_swap|]. constructor; [done|].
    rewrite E. by constructor.
Qed.

#[export] Instance list_multiset_ok : ImultisetOk (list Z).
Proof.
  split; cbn; [done|..].
  - intros key x t Ho _. by apply list_insert_by_ok.
  - intros key hint x t Ho _ _. by apply list_insert_by_ok.
  - done.
  - intros key n t Ho. induction t as [|y t IH]; cbn; [constructor|].
    apply StronglySorted_cons in Ho as [Hy Ho]. specialize (IH Ho).
    destruct (Z.ltb_spec (key y) n).
    + destruct (list_lower_bound key n t); [|by constructor].
      destruct IH as (l1 & l2 & -> & H1 & H2). exists (y :: l1), l2. split_and!; [done|by constructor|done].
    + exists [], t. split_and!; [done|constructor|done].
Qed.

(** A segment of 1024 bytes; then one with a buffer of 104 bytes. *)
#[export] Instance rb_demo_layout : RbLayout :=
  {| rb_this := 65536; sizeof_rbtree := 128; sizeof_TreeHook := 24 |}.

#[export] Instance rb_demo_ok : RbLayoutOk.
Proof. split; vm_compute; intuition congruence. Qed.

Definition rb_blank : rbseg (list Z) := RbSeg ∅ ∅ ∅ ∅ [] 0 0 0 [].
Definition state_of {S A} (m : M S A) (s : S) : S :=
  match m s with Ret (_, s') => s' | Fault _ => s end.
Definition rb_demo : rbseg (list Z) := state_of (rbtree_best_fit 1024 0) rb_blank.
Definition rb_demo1 : rbseg (list Z) := state_of (rb_allocate 100) rb_demo.

Lemma rb_demo_inv : rb_inv rb_demo [Blk 55 true].
Proof.
  pose proof (rbtree_constructor_ok rb_blank 1024 0) as H. apply wp_run in H as ([] & s' & E & _ & _ & Hinv).
  - assert (s' = rb_demo) as ->; [|exact Hinv]. unfold rb_demo, state_of. by rewrite E.
  - by vm_compute.
  - lia.
  - by vm_compute.
  - by vm_compute.
Qed.

Section helpers.
Context {T : Type} {MS : Imultiset T} {MSOk : ImultisetOk T} {L : RbLayout} {LOk : RbLayoutOk}.
Notation seg := (rbseg T).
Notation B := rb_BlockCtrlUnits.
Implicit Types s : seg.

Lemma implements_rb s h : implements s h ↔ ∃ bs, rb_inv s bs ∧ h = heap 8 (rb_first s) bs.
Proof. unfold implements, rb_inv. cbn. naive_solver. Qed.

(** Units and bytes of a block. *)
Lemma rb_units_le nbytes m :
  0 <= nbytes <= 18446744073709551600 → B <= m →
  rb_get_total_units nbytes <= m ↔ nbytes <= capacity 8 m.
Proof using LOk.
  intros Hn Hm. destruct (rb_total_units_val nbytes Hn) as (-> & _ & _).
  unfold user_units, ceil16, capacity. split; intros H; dlia.
Qed.

Lemma inv_min s bs m fr : rb_inv s bs → Blk m fr ∈ bs → B <= m.
Proof.
  intros [[Hc _ _] _] Hm. pose proof (rc_min _ _ Hc) as H. unfold min_blocks in H.
  rewrite Forall_forall in H. by apply H in Hm.
Qed.

Lemma rb_allocate_ok_blocks s bs nbytes :
  rb_inv s bs → 0 <= nbytes <= 18446744073709551600 →
  wp (rb_allocate nbytes) s (λ p s',
    (∃ pre sz post, bs = pre ++ Blk sz true :: post ∧ nbytes <= capacity 8 sz ∧
       best_fit bs (rb_get_total_units nbytes) sz ∧ p = after (rb_first s) (total pre) + 16 ∧
       rb_frame s s' ∧ rb_inv s' (pre ++ cut B (rb_get_total_units nbytes) sz ++ post)) ∨
    ((∀ m, Blk m true ∈ bs → capacity 8 m < nbytes) ∧ p = 0 ∧ s' = s)).
Proof using LOk MSOk.
  intros Hinv Hn. pose proof Hinv as [HR Hco]. unfold rb_allocate, rb_priv_allocate, rb_allocate_sizeof, Alignment.
  wp_step. eapply wp_mono; [apply (rb_allocate_new_ok _ 1 s bs nbytes nbytes 16 HR); lia|].
  intros [[p r] ru] s' [Hres _]. cbn [fst snd] in Hres. apply wp_ret.
  destruct Hres as [pre sz post s' n E Hle Hbest HR' HF|pre sz post s' E Hlt Hle _ _ _|Hnone].
  - left. exists pre, sz, post. split_and!; try done.
    + apply rb_units_le; [done| |done]. eapply inv_min; [done|]. rewrite E. apply elem_of_app. right. apply list_elem_of_here.
    + split; [done|]. rewrite E in Hco. by apply cut_coalesced.
  - lia.
  - right. split_and!; [|done|done]. intros m Hm. pose proof (Hnone m Hm).
    pose proof (rb_units_le nbytes m Hn (inv_min _ _ _ _ Hinv Hm)). lia.
Qed.

(** The tree hooks lie in free blocks. *)
Lemma hook_outside s pre n post x :
  rb_rep s (pre ++ Blk n false :: post) → x ∈ elements (m_imultiset s) →
  let p := after (rb_first s) (total pre) + 16 in
  x + 16 * B <= p ∨ p + capacity 8 n <= x + 16.
Proof using LOk.
  intros HR Hx p. pose proof (rr_core _ _ HR) as Hc.
  pose proof (core_split _ _ _ _ Hc) as (Hp1 & Hp2 & Hm & _). unfold p, capacity.
  rewrite (rc_tree _ _ Hc), frees_app in Hx. cbn in Hx. apply elem_of_app in Hx as [Hx|Hx].
  - left. apply frees_lookup in Hx as (l1 & k & l2 & -> & ->).
    apply min_app in Hm as [_ [Hk _]%min_cons]. apply pos_app in Hp1 as [_ [_ Hp1]%pos_cons].
    pose proof (pos_total _ Hp1). rewrite total_app. cbn in *. unfold after. lia.
  - right. apply frees_range in Hx; [|done]. unfold after in *. lia.
Qed.

(** Growing and shrinking keep the heap. *)
Lemma heap_snoc_free u a bs n : heap u a (bs ++ [Blk n true]) = heap u a bs.
Proof. rewrite heap_app. cbn. by rewrite (right_id_L ∅ (∪)). Qed.

Lemma heap_shrunk u a bs : heap u a (shrunk bs) = heap u a bs.
Proof.
  destruct bs as [|[m fr] pre _] using rev_ind; [done|]. destruct pre as [|b pre]; [by destruct fr|].
  rewrite shrunk_snoc by done. destruct fr; [|done]. by rewrite heap_snoc_free.
Qed.

Lemma heap_empty_unused u a bs : pos_blocks bs → heap u a bs = ∅ → used bs = 0.
Proof.
  intros Hp. revert a. induction Hp as [|[n []] bs Hb Hp IH]; intros a; cbn; [done|..].
  - intros H. by rewrite (IH _ H).
  - intros H. exfalso. by apply insert_non_empty in H.
Qed.

Lemma rb_roundtrip_ok s bs nbytes :
  rb_inv s bs → 0 <= nbytes <= 18446744073709551600 →
  ∃ s', (p ← rb_allocate nbytes; rb_dealloc p) s = Ret ((), s') ∧ rb_inv s' bs.
Proof using LOk MSOk.
  intros Hinv Hn. enough (wp (p ← rb_allocate nbytes; rb_dealloc p) s (λ _ s', rb_inv s' bs)) as Hwp
    by (apply wp_run in Hwp as ([] & s' & E & H); eauto).
  wp_step. eapply wp_mono; [by apply rb_allocate_ok_blocks|].
  intros p s' [(pre & sz & post & -> & _ & _ & -> & HF & [HR Hco])|(_ & -> & ->)]; [|by apply wp_ret].
  pose proof (rb_frame_first _ _ HF) as E. rewrite cut_tail in HR. rewrite <- E in *.
  pose proof (core_range _ _ _ _ (rr_core _ _ HR)) as Hr. cbv zeta in Hr.
  unfold rb_dealloc. destruct (Z.eqb_spec (after (rb_first s') (total pre) + 16) 0); [lia|].
  eapply wp_mono; [by apply rb_deallocate_ok|]. intros [] s2 [HR2 _].
  destruct Hinv as [_ Hco0]. rewrite free_cut in HR2 by done. by split.
Qed.

(** The pointer [allocate] returns depends on the request only through the number
    of units it rounds it to, and within 15 bytes of [2^64] the rounding either
    gives what it gives for [2^64 - 16] or wraps around to that of an empty
    request. *)
Lemma rb_check_and_allocate_received n it r r' s :
  (x ← rb_check_and_allocate n it r; mret x.1) s = (x ← rb_check_and_allocate n it r'; mret x.1) s.
Proof.
  unfold rb_check_and_allocate, mbind, M_bind. destruct (rb_assert_aligned it s) as [[[] s1]|]; [|done].
  destruct (rb_ld_size it s1) as [[? s2]|]; [|done]. by destruct (_ s2) as [[[] s3]|].
Qed.

Lemma rb_allocate_units n m s :
  rb_get_total_units n = rb_get_total_units m → rb_allocate n s = rb_allocate m s.
Proof.
  intros E. unfold rb_allocate, rb_priv_allocate, rb_allocate_sizeof, rb_allocate_with.
  rewrite !Z.ltb_irrefl, E. unfold mbind, M_bind. cbn.
  destruct (ms_lower_bound _ _ _) as [it|].
  - pose proof (rb_check_and_allocate_received (rb_get_total_units m) it n m s) as H.
    unfold mbind, M_bind in H. destruct (rb_check_and_allocate _ _ n s) as [[[p r] s']|];
      destruct (rb_check_and_allocate _ _ m s) as [[[p' r'] s'']|]; cbn in *; congruence.
  - destruct (last _) as [it|]; [|done]. destruct (rb_ld_size it s) as [[k s0]|]; [|done].
    destruct (_ <=? k); [|done].
    pose proof (rb_check_and_allocate_received k it n m s0) as H.
    unfold mbind, M_bind in H. destruct (rb_check_and_allocate _ _ n s0) as [[[p r] s']|];
      destruct (rb_check_and_allocate _ _ m s0) as [[[p' r'] s'']|]; cbn in *; congruence.
Qed.

Lemma rb_allocate_top nbytes s :
  18446744073709551600 < nbytes < 18446744073709551616 →
  rb_allocate nbytes s =
  rb_allocate (if nbytes <=? 18446744073709551608 then 18446744073709551600 else 0) s.
Proof.
  intros Hn. apply rb_allocate_units.
  assert (nbytes = 18446744073709551616 - (18446744073709551616 - nbytes)) as -> by lia.
  assert (0 < 18446744073709551616 - nbytes < 16) as Hk by lia.
  revert Hk. generalize (18446744073709551616 - nbytes). intros k Hk.
  assert (k = 1 ∨ k = 2 ∨ k = 3 ∨ k = 4 ∨ k = 5 ∨ k = 6 ∨ k = 7 ∨ k = 8 ∨ k = 9 ∨ k = 10 ∨
    k = 11 ∨ k = 12 ∨ k = 13 ∨ k = 14 ∨ k = 15) as Hin by lia.
  destruct_or! Hin; subst k; reflexivity.
Qed.
End helpers.

Lemma rb_demo1_inv : rb_inv rb_demo1 [Blk 7 false; Blk 48 true].
Proof.
  pose proof (rb_allocate_ok_blocks rb_demo [Blk 55 true] 100 rb_demo_inv ltac:(lia)) as H.
  destruct (proj1 (wp_run _ _ _) H) as (p & s' & E & [(pre & sz & post & E1 & _ & _ & _ & _ & Hinv)|(Hnone & _)]).
  - assert (s' = rb_demo1) as -> by (unfold rb_demo1, state_of; by rewrite E).
    destruct pre as [|? [|? ?]]; [|done..]. injection E1 as <- <-. exact Hinv.
  - assert (capacity 8 55 < 100) by (apply Hnone, list_elem_of_here). by vm_compute in H.
Qed.

(** C17: best fit.  On a well-formed segment [allocate] takes the smallest free
    block with room for the request (the part it does not need, if it can be a
    block, stays free), and it returns null, without change, only if no free
    block has room; for requests of at most [2^64 - 16] bytes, as larger ones
    may wrap around. *)
Theorem rb_allocate_best_fit {T} `{MSOk : ImultisetOk T} {L : RbLayout} {LOk : RbLayoutOk}
    (s : rbseg T) (bs : list blk) (nbytes : Z) :
  rb_inv s bs → 0 <= nbytes <= 18446744073709551600 →
  ∃ p s', rb_allocate nbytes s = Ret (p, s') ∧
    ((∃ pre sz post, bs = pre ++ Blk sz true :: post ∧ nbytes <= capacity 8 sz ∧
        (∀ m, Blk m true ∈ bs → nbytes <= capacity 8 m → sz <= m) ∧
        p = after (rb_first s) (total pre) + 16 ∧
        rb_inv s' (pre ++ cut rb_BlockCtrlUnits (rb_get_total_units nbytes) sz ++ post)) ∨
     ((∀ m, Blk m true ∈ bs → capacity 8 m < nbytes) ∧ p = 0 ∧ s' = s)).
Proof.
  intros Hinv Hn. apply wp_run. eapply wp_mono; [by apply rb_allocate_ok_blocks|].
  intros p s' [(pre & sz & post & E & Hcap & Hbest & Ep & _ & Hi)|H]; [left|by right].
  exists pre, sz, post. split_and!; try done. intros m Hm Hmn. apply Hbest; [done|].
  apply rb_units_le; [done| |done]. by eapply (inv_min s).
Qed.

Lemma rb_allocate_best_fit_witness :
  rb_inv rb_demo1 [Blk 7 false; Blk 48 true] ∧
  ∃ p s', rb_allocate 200 rb_demo1 = Ret (p, s') ∧
    ((∃ pre sz post, [Blk 7 false; Blk 48 true] = pre ++ Blk sz true :: post ∧ 200 <= capacity 8 sz ∧
        (∀ m, Blk m true ∈ [Blk 7 false; Blk 48 true] → 200 <= capacity 8 m → sz <= m) ∧
        p = after (rb_first rb_demo1) (total pre) + 16 ∧
        rb_inv s' (pre ++ cut rb_BlockCtrlUnits (rb_get_total_units 200) sz ++ post)) ∨
     ((∀ m, Blk m true ∈ [Blk 7 false; Blk 48 true] → capacity 8 m < 200) ∧ p = 0 ∧ s' = rb_demo1)).
Proof.
  split; [exact rb_demo1_inv|].
  apply (rb_allocate_best_fit rb_demo1 _ 200 rb_demo1_inv). lia.
Defined.

(** C1: allocation and deallocation on the abstract heap, the map from the
    pointers handed out to the bytes of their buffers.  [allocate] returns null
    without change or adds a fresh aligned pointer with at least the requested
    bytes, for requests of at most [2^64 - 16] bytes; up to [2^64 - 8] bytes a
    request is served like that, and above it the size wraps around and the
    request is served like one of no bytes; [deallocate] of a pointer of the
    heap removes it and nothing else; and deallocating what was just allocated
    restores the blocks. *)
Theorem rb_heap_refines {T} `{MSOk : ImultisetOk T} {L : RbLayout} {LOk : RbLayoutOk}
    (s : rbseg T) (h : gmap Z Z) :
  implements s h →
  (∀ nbytes, 0 <= nbytes <= 18446744073709551600 →
     ∃ p s', rb_allocate nbytes s = Ret (p, s') ∧
       ((p = 0 ∧ s' = s) ∨
        (p ≠ 0 ∧ h !! p = None ∧ p mod 16 = 0 ∧ ∃ c, nbytes <= c ∧ implements s' (<[p := c]> h)))) ∧
  (∀ nbytes, 18446744073709551600 < nbytes < 18446744073709551616 →
     rb_allocate nbytes s =
     rb_allocate (if nbytes <=? 18446744073709551608 then 18446744073709551600 else 0) s) ∧
  (∀ p c, h !! p = Some c → ∃ s', rb_dealloc p s = Ret ((), s') ∧ implements s' (delete p h)) ∧
  (∀ bs nbytes, rb_inv s bs → 0 <= nbytes <= 18446744073709551600 →
     ∃ s', (p ← rb_allocate nbytes; rb_dealloc p) s = Ret ((), s') ∧ rb_inv s' bs).
Proof.
  intros Hi. split_and!.
  - intros nbytes Hn. destruct Hi as (bs & HR & Hco & ->). apply wp_run.
    unfold rb_allocate, rb_priv_allocate, rb_allocate_sizeof, Alignment. wp_step.
    eapply wp_mono; [apply (wp_allocate_new (f := rb_allocate_with _ _) s bs); [done|done|lia|lia|lia]|].
    intros [[p r] ru] s'. cbn [fst snd]. intros [[-> ->]|Hfrom]; apply wp_ret; [by left|right].
    destruct (implements_alloc _ _ _ _ _ _ HR Hco Hfrom) as (H1 & H2 & H3 & H4 & H5). eauto 10.
  - intros nbytes Hn. by apply rb_allocate_top.
  - intros p c Hp. pose proof (heap_nonnull s h p c Hi Hp) as Hnz.
    pose proof (implements_dealloc s h p c Hi Hp) as Hwp. apply wp_run in Hwp as ([] & s' & E & Hi' & _).
    exists s'. split; [|done]. unfold rb_dealloc. destruct (Z.eqb_spec p 0); [done|]. exact E.
  - intros bs nbytes Hinv Hn. by apply rb_roundtrip_ok.
Qed.

Lemma rb_heap_refines_witness :
  implements rb_demo1 {[ 65680 := 104 ]} ∧
  (∃ p s', rb_allocate 200 rb_demo1 = Ret (p, s') ∧
     ((p = 0 ∧ s' = rb_demo1) ∨
      (p ≠ 0 ∧ ({[ 65680 := 104 ]} : gmap Z Z) !! p = None ∧ p mod 16 = 0 ∧
       ∃ c, 200 <= c ∧ implements s' (<[p := c]> {[ 65680 := 104 ]})))) ∧
  rb_allocate 18446744073709551615 rb_demo1 = rb_allocate 0 rb_demo1 ∧
  (∃ s', rb_dealloc 65680 rb_demo1 = Ret ((), s') ∧
     implements s' (delete 65680 ({[ 65680 := 104 ]} : gmap Z Z))) ∧
  (∃ s', (p ← rb_allocate 300; rb_dealloc p) rb_demo1 = Ret ((), s') ∧
     rb_inv s' [Blk 7 false; Blk 48 true]).
Proof.
  assert (implements rb_demo1 {[ 65680 := 104 ]}) as Hi
    by (apply implements_rb; exists [Blk 7 false; Blk 48 true]; split; [exact rb_demo1_inv|reflexivity]).
  split; [exact Hi|]. destruct (rb_heap_refines rb_demo1 _ Hi) as (H1 & H0 & H2 & H3). split; [|split; [|split]].
  - apply H1. lia.
  - exact (H0 18446744073709551615 ltac:(lia)).
  - apply (H2 65680 104). reflexivity.
  - apply H3; [exact rb_demo1_inv|lia].
Defined.

(** C18: safety of the buffers.  Any two buffers are disjoint, and 8 bytes of the
    header behind a buffer belong to it; each lies inside of the segment, away
    from the tree hooks of the free blocks; and whatever is written into one
    (of a header, [m_prev_size] are the first 8 bytes and the other fields the
    last 8) leaves the segment well formed. *)
Theorem rb_buffers_safe {T} `{MSOk : ImultisetOk T} {L : RbLayout} {LOk : RbLayoutOk}
    (s : rbseg T) (h : gmap Z Z) :
  implements s h →
  heap_disjoint 8 h ∧
  (∀ p c, h !! p = Some c →
     rb_this + sizeof_rbtree + 16 <= p ∧ p + c <= rb_this + h_size s ∧
     ∀ x, x ∈ elements (m_imultiset s) → x + rb_BlockCtrlBytes <= p ∨ p + c <= x + sizeof_SizeHolder) ∧
  (∀ p c s', h !! p = Some c → rb_frame s s' → m_imultiset s' = m_imultiset s →
     h_allocated s' = h_allocated s →
     (∀ x, x + 16 <= p ∨ p + c <= x + 8 →
        f_size s' !! x = f_size s !! x ∧ f_allocated s' !! x = f_allocated s !! x ∧
        f_prev_allocated s' !! x = f_prev_allocated s !! x) →
     (∀ x, x + 8 <= p ∨ p + c <= x → f_prev_size s' !! x = f_prev_size s !! x) →
     implements s' h).
Proof.
  intros (bs & [HR Hco] & ->)%implements_rb. pose proof HR as [Hc _ _].
  pose proof (core_facts _ _ Hc) as (_ & ? & Hmod & _ & Et & ? & ? & _ & Hp). destruct B_val as (_ & EB & HB).
  split_and!.
  - apply heap_disjoint_blocks; [lia|done].
  - intros p c Hl. pose proof (heap_range 8 ltac:(lia) _ _ _ _ Hp Hl). split_and!; [lia|lia|].
    intros x Hx. destruct (heap_lookup _ _ _ _ _ Hl) as (pre & n & post & -> & -> & ->).
    rewrite EB. unfold sizeof_SizeHolder. by eapply hook_outside.
  - intros p c s' Hl HF Ht Eh Hf1 Hf2. destruct (heap_lookup _ _ _ _ _ Hl) as (pre & n & post & -> & -> & ->).
    apply implements_rb. exists (pre ++ Blk n false :: post). rewrite (rb_frame_first _ _ HF).
    split; [|done]. split; [|done]. apply (rep_user_write s); try done; unfold capacity, after in *.
    + intros x Hx Hr. apply Hf1. lia.
    + intros x Hx Hr. apply Hf2. dlia.
Qed.

Lemma rb_buffers_safe_witness :
  implements rb_demo1 {[ 65680 := 104 ]} ∧ 65536 + 128 + 16 <= 65680 ∧
  65680 + 104 <= 65536 + h_size rb_demo1.
Proof.
  assert (implements rb_demo1 {[ 65680 := 104 ]}) as Hi
    by (apply implements_rb; exists [Blk 7 false; Blk 48 true]; split; [exact rb_demo1_inv|reflexivity]).
  split; [exact Hi|].
  destruct (rb_buffers_safe rb_demo1 _ Hi) as (_ & H & _).
  destruct (H 65680 104) as (H1 & H2 & _); [reflexivity|]. split; [exact H1|exact H2].
Defined.

(** C19: expansion, as [allocation_command] asks for it ([expand_fwd],
    [expand_bwd], or both) for objects of [bm] bytes, with the natural alignment
    16 or a larger power of two that divides [bm], and sizes that are multiples
    of [bm] and, with a common multiple, below [2^63].  The buffer grows in place
    to at least the limit, or (with [expand_bwd]) its start moves back by whole
    objects so that it has the size aimed at and covers the old buffer; no
    other buffer changes.  When the attempt fails, null is returned; even then
    the buffer may have taken the free block behind it. *)
Theorem rb_expansion_refines {T} `{MSOk : ImultisetOk T} {L : RbLayout} {LOk : RbLayoutOk}
    (cmd : allocation_type) (s : rbseg T) (h : gmap Z Z)
    (p c min_size prefer : Z) (only_preferred : bool) (bm k : Z) :
  implements s h → h !! p = Some c → 0 <= min_size <= prefer →
  0 < bm → (bm | min_size) → (bm | prefer) → 4 <= k <= 60 → k = 4 ∨ (2 ^ k | bm) →
  prefer + Z.lcm bm (2 ^ k) < 9223372036854775808 →
  ∃ r received s',
    rb_expand_both_sides cmd min_size prefer p only_preferred bm (2 ^ k) s = Ret ((r, received), s') ∧
    ((r = 0 ∧ ∃ c', c <= c' ∧ implements s' (<[p := c']> h)) ∨
     (r = p ∧ min_size <= received ∧ c <= received ∧ implements s' (<[p := received]> h)) ∨
     (expand_bwd cmd = true ∧ 0 < r < p ∧ (bm | p - r) ∧
      (if only_preferred then prefer else min_size) <= received ∧ p + c <= r + received ∧
      h !! r = None ∧ implements s' (<[r := received]> (delete p h)))).
Proof.
  intros Hi Hl Hmin Hbm Hd1 Hd2 Hk Hkb Hfit.
  pose proof (expand_both_sides_ok cmd s h p c min_size prefer only_preferred bm k
    Hi Hl Hmin Hbm Hd1 Hd2 Hk Hkb Hfit) as Hwp.
  apply wp_run in Hwp as ([r received] & s' & E & Hres). exists r, received, s'. split; [done|].
  destruct Hres as [? c' ? ? ? ?|? ? ? ? ?|? ? ? ? ? ? ? ? ? ?].
  - left. split; [done|]. by exists c'.
  - right. left. done.
  - right. right. done.
Qed.

Lemma rb_expansion_refines_witness :
  implements rb_demo1 {[ 65680 := 104 ]} ∧
  ∃ r received s',
    rb_expand_both_sides (Command false true true false false) 120 240 65680 true 24 (2 ^ 4) rb_demo1 =
      Ret ((r, received), s') ∧
    ((r = 0 ∧ ∃ c', 104 <= c' ∧ implements s' (<[65680 := c']> {[ 65680 := 104 ]})) ∨
     (r = 65680 ∧ 120 <= received ∧ 104 <= received ∧
      implements s' (<[65680 := received]> {[ 65680 := 104 ]})) ∨
     (true = true ∧ 0 < r < 65680 ∧ (24 | 65680 - r) ∧ 240 <= received ∧ 65680 + 104 <= r + received ∧
      ({[ 65680 := 104 ]} : gmap Z Z) !! r = None ∧
      implements s' (<[r := received]> (delete 65680 {[ 65680 := 104 ]})))).
Proof.
  assert (implements rb_demo1 {[ 65680 := 104 ]}) as Hi
    by (apply implements_rb; exists [Blk 7 false; Blk 48 true]; split; [exact rb_demo1_inv|reflexivity]).
  split; [exact Hi|].
  apply (rb_expansion_refines (Command false true true false false) rb_demo1 _ 65680 104 120 240 true 24 4 Hi).
  - reflexivity.
  - lia.
  - lia.
  - exists 5. reflexivity.
  - exists 10. reflexivity.
  - lia.
  - left. reflexivity.
  - vm_compute. reflexivity.
Defined.

(** The queries tell the truth about a well-formed segment and change nothing;
    [zero_free_memory] clears all of every free block but its control data and
    keeps the segment well formed. *)
Lemma rb_queries_correct {T} `{MSOk : ImultisetOk T} {L : RbLayout} {LOk : RbLayoutOk}
    (s : rbseg T) (bs : list blk) :
  rb_inv s bs → bs ≠ [] →
  rb_check_sanity s = Ret (true, s) ∧
  rb_get_free_memory s = Ret (h_size s - 16 * used bs - (rb_first s - rb_this), s) ∧
  (∃ b, rb_all_memory_deallocated s = Ret (b, s) ∧
        (b = true ↔ heap 8 (rb_first s) bs = ∅)) ∧
  (∃ s', rb_zero_free_memory s = Ret ((), s') ∧ rb_inv s' bs ∧
     cleared s' = cleared s ++ map (zeroed_range s) (elements (m_imultiset s))).
Proof.
  intros Hinv Hne. pose proof Hinv as [HR Hco].
  pose proof (core_facts _ _ (rr_core _ _ HR)) as (_ & _ & _ & _ & _ & _ & _ & _ & Hp). split_and!.
  - assert (wp rb_check_sanity s (λ b s', b = true ∧ s' = s)) as Hwp by (by apply (wp_check_sanity s bs)).
    by apply wp_run in Hwp as (b & s' & E & -> & ->).
  - assert (wp rb_get_free_memory s (λ b s', b = h_size s - 16 * used bs - (rb_first s - rb_this) ∧ s' = s))
      as Hwp by (by apply (wp_free_memory s bs)).
    by apply wp_run in Hwp as (b & s' & E & -> & ->).
  - assert (wp rb_all_memory_deallocated s (λ b s', (b = true ↔ used bs = 0) ∧ s' = s)) as Hwp
      by (by apply (wp_all_deallocated s bs)).
    apply wp_run in Hwp as (b & s' & E & Hb & ->). exists b. split; [done|]. rewrite Hb. split.
    + intros Hu. by apply heap_all_free.
    + by apply heap_empty_unused.
  - assert (wp rb_zero_free_memory s (λ _ s', rb_inv s' bs ∧
      cleared s' = cleared s ++ map (zeroed_range s) (elements (m_imultiset s)))) as Hwp.
    { unfold rb_zero_free_memory. wp_step. wp_step. apply (wp_zero_loop s _ s bs); try done. }
    apply wp_run in Hwp as ([] & s' & E & H). by exists s'.
Qed.

(** C22: the life of a segment.  The constructor formats any sufficiently large
    memory into one free block.  [grow], unless it leaves at least the alignment
    but less than a block behind the end, keeps all buffers and adds the whole
    units that were gained.  [shrink_to_fit], on a segment that ends below [2^62]
    and is not an unused one of fewer than two smallest blocks, keeps all buffers
    and cuts off the free block at the end; an unused segment keeps its smallest
    block.  ([rb_defects] shows what happens otherwise.)  The
    queries tell the truth and change nothing; [zero_free_memory] clears all of
    every free block but its control data. *)
Theorem rb_segment_lifecycle {T} `{MSOk : ImultisetOk T} {L : RbLayout} {LOk : RbLayoutOk}
    (s : rbseg T) :
  (∀ segment_size extra, rb_this_aligned → 0 <= extra → rb_this + segment_size < 9223372036854775808 →
     sizeof_rbtree + extra <= segment_size → rb_get_min_size extra <= segment_size →
     ∃ s', rbtree_best_fit segment_size extra s = Ret ((), s') ∧ h_size s' = segment_size ∧
       rb_inv s' [Blk ((rb_this + segment_size - rb_first s') / 16 - 1) true]) ∧
  (∀ bs extra_size, rb_inv s bs → 0 <= extra_size →
     rb_this + h_size s + extra_size < 9223372036854775808 →
     let gap := rb_slack s + extra_size in
     gap < 16 ∨ rb_BlockCtrlBytes <= gap →
     ∃ s', rb_grow extra_size s = Ret ((), s') ∧ h_size s' = h_size s + extra_size ∧
       rb_inv s' (if rb_BlockCtrlBytes <=? gap then free_at bs (gap / 16) [] else bs) ∧
       implements s' (heap 8 (rb_first s) bs)) ∧
  (∀ bs, rb_inv s bs → bs ≠ [] → (∀ n, bs = [Blk n true] → 2 * rb_BlockCtrlUnits <= n) →
     rb_this + h_size s < 4611686018427387904 →
     ∃ s', rb_shrink_to_fit s = Ret ((), s') ∧ h_size s' <= h_size s ∧ rb_inv s' (shrunk bs) ∧
       implements s' (heap 8 (rb_first s) bs)) ∧
  (∀ bs, rb_inv s bs → bs ≠ [] →
     rb_check_sanity s = Ret (true, s) ∧
     rb_get_free_memory s = Ret (h_size s - 16 * used bs - (rb_first s - rb_this), s) ∧
     (∃ b, rb_all_memory_deallocated s = Ret (b, s) ∧ (b = true ↔ heap 8 (rb_first s) bs = ∅)) ∧
     (∃ s', rb_zero_free_memory s = Ret ((), s') ∧ rb_inv s' bs ∧
        cleared s' = cleared s ++ map (zeroed_range s) (elements (m_imultiset s)))).
Proof.
  destruct B_val as (_ & EB & HB). split_and!; [..|intros bs; apply rb_queries_correct].
  - intros size extra Hal He Hf Hfit Hmin. rewrite rb_min_size_val in Hmin by lia.
    enough (wp (rbtree_best_fit size extra) s (λ _ s', h_size s' = size ∧ h_extra s' = extra ∧
      rb_inv s' [Blk ((rb_this + size - rb_first s') / 16 - 1) true])) as Hwp.
    { apply wp_run in Hwp as ([] & s' & E & E1 & _ & Hi). by exists s'. }
    by apply rbtree_constructor_ok.
  - intros bs e Hinv He Hf gap Hgap. rewrite EB in *.
    enough (wp (rb_grow e) s (λ _ s', h_size s' = h_size s + e ∧ h_extra s' = h_extra s ∧
      rb_inv s' (if 16 * rb_BlockCtrlUnits <=? gap then free_at bs (gap / 16) [] else bs))) as Hwp.
    { apply wp_run in Hwp as ([] & s' & E & E1 & E2 & Hi). exists s'. split_and!; try done.
      apply implements_rb. eexists. split; [exact Hi|].
      assert (rb_first s' = rb_first s) as -> by (unfold rb_first; by rewrite E2).
      destruct (_ <=? _); [|done]. by rewrite heap_free_at, heap_snoc_free. }
    by apply (wp_grow s bs).
  - intros bs Hinv Hne Hbig Hf.
    enough (wp rb_shrink_to_fit s (λ _ s', h_size s' <= h_size s ∧ h_extra s' = h_extra s ∧
      rb_inv s' (shrunk bs))) as Hwp.
    { apply wp_run in Hwp as ([] & s' & E & E1 & E2 & Hi). exists s'. split_and!; try done.
      apply implements_rb. eexists. split; [exact Hi|].
      assert (rb_first s' = rb_first s) as -> by (unfold rb_first; by rewrite E2).
      by rewrite heap_shrunk. }
    by apply (wp_shrink_to_fit s bs).
Qed.

Lemma rb_segment_lifecycle_witness :
  (∃ s', rbtree_best_fit 1024 0 rb_blank = Ret ((), s') ∧ rb_inv s' [Blk 55 true]) ∧
  (∃ s', rb_grow 256 rb_demo1 = Ret ((), s') ∧ h_size s' = 1280 ∧
     implements s' (heap 8 (rb_first rb_demo1) [Blk 7 false; Blk 48 true])) ∧
  (∃ s', rb_shrink_to_fit rb_demo1 = Ret ((), s') ∧ rb_inv s' [Blk 7 false] ∧
     implements s' (heap 8 (rb_first rb_demo1) [Blk 7 false; Blk 48 true])) ∧
  rb_check_sanity rb_demo1 = Ret (true, rb_demo1).
Proof.
  split; [|split; [|split]].
  - destruct (rb_segment_lifecycle rb_blank) as (H & _).
    destruct (H 1024 0) as (s' & E & _ & Hi);
      [reflexivity|lia|reflexivity|vm_compute; congruence|vm_compute; congruence|].
    exists s'. split; [exact E|].
    assert (s' = rb_demo) as -> by (unfold rb_demo, state_of; rewrite E; reflexivity). exact Hi.
  - destruct (rb_segment_lifecycle rb_demo1) as (_ & H & _).
    destruct (H _ 256 rb_demo1_inv) as (s' & E & E1 & _ & Hi);
      [lia|vm_compute; reflexivity|right; vm_compute; congruence|].
    exists s'. split; [exact E|]. split; [exact E1|exact Hi].
  - destruct (rb_segment_lifecycle rb_demo1) as (_ & _ & H & _).
    destruct (H _ rb_demo1_inv) as (s' & E & _ & Hi & Hh);
      [discriminate|intros n; discriminate|vm_compute; reflexivity|].
    exists s'. split; [exact E|]. split; [exact Hi|exact Hh].
  - destruct (rb_segment_lifecycle rb_demo1) as (_ & _ & _ & H).
    apply (H _ rb_demo1_inv). discriminate.
Defined.

(** What a run returns, without the final state. *)
Definition result_of {S A} (m : M S A) (s : S) : outcome A :=
  match m s with Ret (a, _) => Ret a | Fault e => Fault e end.

(** Where the code does not do what it means to, on the segment of 1024
    bytes.  A second [shrink_to_fit] of an unused segment fails its assertion:
    the smallest block cannot be split.  Growing by 16 bytes moves the address
    computed for the end block without writing one there, and the next
    [shrink_to_fit] reads it.  A request of 100 to 500 bytes for objects aligned
    to 32 gets a buffer of 104 bytes and is told that it received 500.  Growing
    back by objects of 24 bytes aligned to 32 fails an assertion.  Shrinking to
    at most 4 bytes reports success with a buffer of 40.  A request of [2^64 - 1]
    bytes gets a buffer of 40, and one of [2^63] bytes aligned to 64 fails
    an assertion. *)
Theorem rb_defects :
  result_of (rb_shrink_to_fit;; rb_shrink_to_fit) rb_demo = Fault AssertFailed ∧
  result_of (rb_grow 16;; rb_shrink_to_fit) rb_demo = Fault BadAccess ∧
  result_of ('(p, received, _) ← rb_priv_allocate cmd_allocate_new 100 500 0 32;
             c ← rb_size p; mret (received, c)) rb_demo = Ret (500, 104) ∧
  result_of (calculate_lcm_and_needs_backwards_lcmed 24 32 40 240) rb_demo = Fault AssertFailed ∧
  result_of (shrink 65680 4 0) rb_demo1 = Ret (true, 40) ∧
  result_of (p ← rb_allocate 18446744073709551615; rb_size p) rb_demo = Ret 40 ∧
  result_of (rb_allocate_aligned (2 ^ 63) 64) rb_demo = Fault AssertFailed.
Proof. repeat split; vm_compute; reflexivity. Qed.

(** A command that only asks whether a buffer could be shrunk, as
    [iunordered_set_index::shrink_buckets] issues it, is always refused: the
    algorithm does not know it and finds a limit above the preferred size. *)
Lemma rb_try_shrink_refused {T} `{Imultiset T} {L : RbLayout} (s : rbseg T) (limit prefer reuse sizeof_object align : Z) :
  0 <= prefer < limit → 0 < sizeof_object → limit * sizeof_object < 18446744073709551616 →
  ∃ received, rb_allocation_command (Command false false false false true) limit prefer reuse sizeof_object align s = Ret ((0, received, 0), s).
Proof.
  intros Hp Hs Hb. unfold rb_allocation_command, mbind, M_bind, gets. destruct (_ || _); [by eexists|].
  unfold rb_allocate_sizeof, rb_allocate_with. cbn. rewrite !u64_small by (unfold in_u64; nia).
  destruct (Z.ltb_spec (prefer * sizeof_object) (limit * sizeof_object)); [|nia]. by eexists.
Qed.
