(* ===== verification/MemAlgoProps.v ===== *)
(** [memory_algorithm_common]: its theorems.

    They hold for every memory algorithm that keeps the promises of
    [BlockAlgoOk] and [AllocateOk]; the witnesses are runs over both algorithms. *)

From S2P Require Import Prelude Blocks MathUtil MemAlgo MemAlgoSpec MemAlgoAlign.
From S2P Require Import MemAlgoMany SeqFit SeqFitInv SeqFitHeap SeqFitProps.
From S2P Require Import RbTree RbTreeInv RbTreeHeap RbTreeProps.

Local Open Scope u64_scope.

(** ** Requests that overflow *)

Section overflow.
Context {St : Type} {A : BlockAlgo St}.
Context (vp : Z) (elem_sizes : list Z) (n sizeof : Z).

(** The addition of the sizes gives up at the first product that does not fit. *)
Lemma sum_requests_overflow fuel s (i j : nat) e total eu :
  n = Z.of_nat (length elem_sizes) → n < 2 ^ 60 → Forall in_u64 elem_sizes → in_u64 sizeof →
  elem_sizes !! j = Some e → 18446744073709551616 <= e * sizeof → (i <= j)%nat → (j < i + fuel)%nat →
  wp (sum_requests (St := St) vp elem_sizes n sizeof fuel (Z.of_nat i) total eu) s (λ r s', r.1 = 0 ∧ s' = s).
Proof.
  intros En Hn He Hs Hj Hov. pose proof (lookup_lt_Some _ _ _ Hj) as Hlen.
  revert i total eu. induction fuel as [|fuel IH]; intros i total eu Hij Hf; [lia|]. cbn [sum_requests].
  destruct (Z.ltb_spec (Z.of_nat i) n); [|lia].
  destruct (lookup_lt_is_Some_2 elem_sizes i ltac:(lia)) as [e' He'].
  unfold elem_size_at. rewrite Nat2Z.id, He'. wp_step. wp_step.
  destruct (multiplication_overflows e' sizeof) eqn:Eo; [by wp_step|].
  cbv zeta. destruct (sum_overflows _ _); [by wp_step|].
  assert (i ≠ j) as Hne.
  { intros ->. assert (e' = e) as -> by congruence. rewrite Forall_lookup in He.
    assert (multiplication_overflows e sizeof = true); [|congruence].
    apply multiplication_overflows_spec; [by eapply He|done|done]. }
  rewrite (u64_small (Z.of_nat i + 1)) by (unfold in_u64; lia).
  replace (Z.of_nat i + 1) with (Z.of_nat (i + 1)) by lia. apply IH; lia.
Qed.

(** ... or it computes the sum of the units, unless that does not fit either. *)
Lemma sum_requests_total {Ok : BlockAlgoOk St} fuel s (i : nat) total eu :
  n = Z.of_nat (length elem_sizes) → n < 2 ^ 60 → in_u64 sizeof → 0 <= vp <= 15 →
  Forall (λ e, in_u64 e ∧ e * sizeof <= 2 ^ 63) elem_sizes → in_u64 total → (length elem_sizes <= i + fuel)%nat →
  wp (sum_requests (St := St) vp elem_sizes n sizeof fuel (Z.of_nat i) total eu) s (λ r s',
    (r.1 = 0 ∨ r.1 = total + sum_units (map (λ e, units_of vp (e * sizeof)) (drop i elem_sizes))) ∧ in_u64 r.1 ∧ s' = s).
Proof.
  intros En Hn Hs Hvp He. revert i total eu. induction fuel as [|fuel IH]; intros i total eu Ht Hf; cbn [sum_requests];
    (destruct (Z.ltb_spec (Z.of_nat i) n) as [Hi|Hi];
      [|rewrite (drop_ge elem_sizes i) by lia; wp_step; cbn; split_and!; [right; lia|done|done]]); [lia|].
  destruct (lookup_lt_is_Some_2 elem_sizes i ltac:(lia)) as [e Hl]. rewrite Forall_lookup in He.
  destruct (He _ _ Hl) as [He0 He1]. unfold elem_size_at. rewrite Nat2Z.id, Hl. wp_step. wp_step.
  destruct (multiplication_overflows e sizeof) eqn:Eo; [by wp_step; cbn; split_and!; [left| |]|].
  cbv zeta. rewrite (u64_small (e * sizeof)) by (unfold in_u64 in *; nia).
  assert ((if priv_get_total_units (e * sizeof) <? ptr_size_units vp then ptr_size_units vp
    else priv_get_total_units (e * sizeof)) = units_of vp (e * sizeof)) as ->.
  { unfold units_of. destruct (Z.ltb_spec (priv_get_total_units (e * sizeof)) (ptr_size_units vp)); lia. }
  assert (0 <= units_of vp (e * sizeof) <= 2 ^ 60) as Hu.
  { unfold in_u64 in *. pose proof (ok_total_units (e * sizeof) ltac:(nia)).
    pose proof (ok_total_units vp ltac:(lia)). pose proof ok_consts as (_ & _ & _ & HB & _).
    unfold units_of, ptr_size_units. lia. }
  assert (in_u64 (units_of vp (e * sizeof))) as Hu' by (unfold in_u64; lia).
  destruct (sum_overflows total _) eqn:Eo'; [by wp_step; cbn; split_and!; [left| |]|].
  assert (total + units_of vp (e * sizeof) < 18446744073709551616) as Hfit.
  { destruct (Z.lt_ge_cases (total + units_of vp (e * sizeof)) 18446744073709551616) as [|Hge]; [done|].
    apply sum_overflows_spec in Hge; [congruence|done|done]. }
  unfold in_u64 in *. rewrite (u64_small (Z.of_nat i + 1)), (u64_small (total + _)) by (unfold in_u64; lia).
  replace (Z.of_nat i + 1) with (Z.of_nat (i + 1)) by lia.
  eapply wp_mono; [apply IH; [lia|lia]|]. intros r s' (Hr & Hr' & ->). split_and!; [|lia|lia|done].
  rewrite (drop_S _ _ _ Hl). cbn [map]. rewrite sum_units_cons. replace (S i) with (i + 1)%nat by lia.
  destruct Hr as [?|Hr]; [by left|right; lia].
Qed.
End overflow.

(** C20: [allocate_aligned] for any power of two up to [2^62] and any size up to
    [2^62], over any memory algorithm.  It returns null without change, or a
    fresh pointer that is a multiple of the alignment and has the requested
    bytes; every other buffer keeps its place. *)
Theorem allocate_aligned_refines {St} {A : BlockAlgo St} {Ok : BlockAlgoOk St}
    (alloc : allocate_fn St) {AOk : AllocateOk alloc} (s : St) (h : gmap Z Z) (nbytes k : Z) :
  implements s h → 0 <= nbytes <= 2 ^ 62 → 0 <= k <= 62 →
  ∃ p s', allocate_aligned alloc nbytes (2 ^ k) s = Ret (p, s') ∧
    ((p = 0 ∧ s' = s) ∨
     (p ≠ 0 ∧ h !! p = None ∧ p mod 2 ^ k = 0 ∧ ∃ c, nbytes <= c ∧ implements s' (<[p := c]> h))).
Proof.
  intros Hi Hn Hk. apply wp_run. eapply wp_mono; [by apply allocate_aligned_ok|].
  intros p s' [?|(H1 & H2 & H3 & _ & H4)]; [by left|right]. done.
Qed.

Lemma rb_demo1_implements : implements rb_demo1 {[ 65680 := 104 ]}.
Proof. apply implements_rb. exists [Blk 7 false; Blk 48 true]. split; [exact rb_demo1_inv|reflexivity]. Qed.

Lemma allocate_aligned_refines_witness :
  (∃ p s', @seq_allocate_aligned demo_layout 40 (2 ^ 6) demo1 = Ret (p, s') ∧
     ((p = 0 ∧ s' = demo1) ∨
      (p ≠ 0 ∧ ({[ 65600 := 112 ]} : gmap Z Z) !! p = None ∧ p mod 2 ^ 6 = 0 ∧
       ∃ c, 40 <= c ∧ demo_implements s' (<[p := c]> {[ 65600 := 112 ]})))) ∧
  (∃ p s', rb_allocate_aligned 40 (2 ^ 6) rb_demo1 = Ret (p, s') ∧
     ((p = 0 ∧ s' = rb_demo1) ∨
      (p ≠ 0 ∧ ({[ 65680 := 104 ]} : gmap Z Z) !! p = None ∧ p mod 2 ^ 6 = 0 ∧
       ∃ c, 40 <= c ∧ implements s' (<[p := c]> {[ 65680 := 104 ]})))).
Proof.
  split.
  - apply (@allocate_aligned_refines _ _ (@seq_algo_ok demo_layout demo_ok) (@priv_allocate_default demo_layout)
      (@seq_allocate_ok demo_layout demo_ok _) demo1 _ 40 6 demo1_implements); lia.
  - apply (allocate_aligned_refines rb_allocate_default (AOk := rb_allocate_ok _ _) rb_demo1 _ 40 6 rb_demo1_implements); lia.
Defined.

(** C21: [allocate_many], over any memory algorithm.  All requests are served, by
    different fresh pointers with at least the bytes each of them asks for, or
    none is: then the buffers already allocated have been given back.  This is
    for requests of at most [2^58] units in total, elements of at most [2^60]
    bytes that have at least the units of a pointer, and the natural alignment
    ([many_args]).  An array of sizes is refused without change if the size of
    an element does not fit in a machine word, or if the sizes are at most
    [2^63] and the bytes of all their units do not fit. *)
Theorem allocate_many_refines {St} {A : BlockAlgo St} {Ok : BlockAlgoOk St}
    (alloc : allocate_fn St) {AOk : AllocateOk alloc} (s : St) (h : gmap Z Z)
    (vp : Z) (elem_sizes : list Z) (n align sizeof : Z) :
  implements s h →
  (∀ szs, many_args vp elem_sizes n align sizeof szs →
     ∃ ps s', priv_allocate_many alloc vp elem_sizes n align sizeof [] s = Ret (ps, s') ∧
       ((ps = [] ∧ implements s' h) ∨
        (NoDup ps ∧ length ps = length szs ∧ ∃ h', grant h ps szs h' ∧ implements s' h'))) ∧
  (∀ (i : nat) e, n = Z.of_nat (length elem_sizes) → n < 2 ^ 60 → Forall in_u64 elem_sizes → in_u64 sizeof →
     elem_sizes !! i = Some e → 18446744073709551616 <= e * sizeof →
     priv_allocate_many alloc vp elem_sizes n align sizeof [] s = Ret ([], s)) ∧
  (n = Z.of_nat (length elem_sizes) → n < 2 ^ 60 → in_u64 sizeof → sizeof ≠ 0 → 0 <= vp <= 15 →
     Forall (λ e, in_u64 e ∧ e * sizeof <= 2 ^ 63) elem_sizes →
     2 ^ 60 <= sum_units (map (λ e, units_of vp (e * sizeof)) elem_sizes) →
     priv_allocate_many alloc vp elem_sizes n align sizeof [] s = Ret ([], s)).
Proof.
  intros Hi. split; [|split].
  - intros szs Ha. apply wp_run. eapply wp_mono; [by apply allocate_many_ok|].
    intros ps s' (_ & [?|(h' & Hg & Hi')]); [by left|right].
    split_and!; [by eapply grant_nodup|by eapply grant_length|by exists h'].
  - intros i e En Hn He Hs Hl Hov. enough (wp (priv_allocate_many alloc vp elem_sizes n align sizeof []) s
      (λ ps s', ps = [] ∧ s' = s)) as Hwp by (by apply wp_run in Hwp as (? & ? & E & -> & ->)).
    unfold priv_allocate_many, total_request. destruct (Z.eqb_spec sizeof 0) as [->|_]; [lia|].
    pose proof (lookup_lt_Some _ _ _ Hl). wp_step.
    eapply wp_mono; [apply (sum_requests_overflow vp elem_sizes n sizeof _ s 0 i e); try done; lia|].
    intros [tot eu] s' [Et ->]. cbn in Et. subst tot. by apply (wp_ret []).
  - intros En Hn Hs Hs0 Hvp He Hsum. enough (wp (priv_allocate_many alloc vp elem_sizes n align sizeof []) s
      (λ ps s', ps = [] ∧ s' = s)) as Hwp by (by apply wp_run in Hwp as (? & ? & E & -> & ->)).
    unfold priv_allocate_many, total_request. destruct (Z.eqb_spec sizeof 0) as [->|_]; [done|]. wp_step.
    eapply wp_mono; [apply (sum_requests_total vp elem_sizes n sizeof _ s 0); try done; lia|].
    change (drop 0 elem_sizes) with elem_sizes. intros [tot eu] s' (Ht & Hr & ->). cbn [fst] in Ht, Hr.
    destruct Ht as [->| ->]; [by apply (wp_ret [])|]. rewrite Z.add_0_l in *.
    assert (multiplication_overflows (sum_units (map (λ e, units_of vp (e * sizeof)) elem_sizes)) Alignment = true) as ->.
    { apply multiplication_overflows_spec; [done|done|]. unfold Alignment. lia. }
    rewrite andb_false_r. by apply (wp_ret []).
Qed.

Lemma allocate_many_refines_witness :
  (∃ ps s', @allocate_many_same _ (@seq_block_algo demo_layout) (@priv_allocate demo_layout) 8 100 3 16 [] demo1 =
     Ret (ps, s') ∧
     ((ps = [] ∧ demo_implements s' {[ 65600 := 112 ]}) ∨
      (NoDup ps ∧ length ps = 3%nat ∧
       ∃ h', grant {[ 65600 := 112 ]} ps [100; 100; 100] h' ∧ demo_implements s' h'))) ∧
  (∃ ps s', priv_allocate_many rb_priv_allocate 8 [2; 40; 7] 3 16 4 [] rb_demo1 = Ret (ps, s') ∧
     ((ps = [] ∧ implements s' {[ 65680 := 104 ]}) ∨
      (NoDup ps ∧ length ps = 3%nat ∧
       ∃ h', grant {[ 65680 := 104 ]} ps [8; 160; 28] h' ∧ implements s' h'))) ∧
  priv_allocate_many rb_priv_allocate 8 [1; 4611686018427387904] 2 16 4 [] rb_demo1 = Ret ([], rb_demo1) ∧
  priv_allocate_many rb_priv_allocate 8 [2 ^ 61; 2 ^ 61] 2 16 4 [] rb_demo1 = Ret ([], rb_demo1).
Proof.
  split; [|split; [|split]].
  - destruct (@allocate_many_refines _ _ (@seq_algo_ok demo_layout demo_ok) (@priv_allocate demo_layout)
      (@seq_allocate_ok demo_layout demo_ok _) demo1 _ 8 [100] 3 16 0 demo1_implements) as [H _].
    apply (H [100; 100; 100]).
    split; [reflexivity|lia|lia|repeat (constructor; [lia|]); constructor|vm_compute; congruence|lia|
            vm_compute; intuition congruence|by exists 100|].
    intros [|[|[|i]]] size; cbn; rewrite ?lookup_nil; intros [= <-]; reflexivity.
  - destruct (allocate_many_refines rb_priv_allocate (AOk := rb_allocate_ok _ _) rb_demo1 _ 8 [2; 40; 7] 3 16 4
      rb_demo1_implements) as [H _]. apply (H [8; 160; 28]).
    split; [reflexivity|lia|lia|repeat (constructor; [lia|]); constructor|vm_compute; congruence|lia|
            vm_compute; intuition congruence|discriminate|].
    intros [|[|[|i]]] size; cbn; rewrite ?lookup_nil; intros [= <-]; (split; [vm_compute; congruence|eexists; split; [reflexivity|]]);
      (split; [vm_compute; intuition congruence|reflexivity]).
  - destruct (allocate_many_refines rb_priv_allocate (AOk := rb_allocate_ok _ _) rb_demo1 _ 8
      [1; 4611686018427387904] 2 16 4 rb_demo1_implements) as (_ & H & _).
    apply (H 1%nat 4611686018427387904);
      [reflexivity|reflexivity| |vm_compute; intuition congruence|reflexivity|vm_compute; congruence].
    repeat constructor; vm_compute; congruence.
  - destruct (allocate_many_refines rb_priv_allocate (AOk := rb_allocate_ok _ _) rb_demo1 _ 8
      [2 ^ 61; 2 ^ 61] 2 16 4 rb_demo1_implements) as (_ & _ & H).
    apply H; [reflexivity|reflexivity|vm_compute; intuition congruence|discriminate|lia| |vm_compute; congruence].
    repeat constructor; vm_compute; congruence.
Defined.
