(* ===== verification/SegMgrLayout.v ===== *)
(** The layout of the objects of a segment manager.

    Models the second ABI (the default) of [block_header] and of the offset
    templates of [detail/segment_manager_helper.hpp].  The memory of a named
    object is one buffer that holds, in this order, unused bytes, the node of
    the index, the [block_header], the values, the length of the name and the
    name; an anonymous object has neither node nor name. *)

From S2P Require Import Prelude MathUtil.

Local Open Scope u64_scope.

(** [sizeof] and [alignof] of [index_data_t], the node of the intrusive index. *)
Class SmLayout := {
  sizeof_index_data : Z;
  alignof_index_data : Z
}.

(** A character type. *)
Record char_type := CharType { c_size : Z; c_align : Z }.

(** [block_header]: bit-fields of 2 and 62 bits. *)
Record block_header := BlockHeader { m_alloc_type : Z; m_value_bytes : Z }.

Definition sizeof_block_header : Z := 8.
Definition alignof_block_header : Z := 8.
Definition sizeof_name_len_t : Z := 2.
Definition alignof_name_len_t : Z := 2.

Definition make_block_header (val_bytes al_type : Z) : block_header :=
  BlockHeader (Z.land al_type 3) (Z.land val_bytes (u64_max / 4)).

(** [ct_rounded_size<OrigSize, RoundTo>::value]. *)
Definition ct_rounded (OrigSize RoundTo : Z) : Z := default 0 (ct_rounded_size OrigSize RoundTo).

Section layout.
Context {L : SmLayout}.

(** *** [sm_between_headers], [sg_offsets_with_header], [sg_offsets_without_header] *)

Definition sm_between_headers : Z :=
  sizeof_index_data +! ct_rounded sizeof_block_header alignof_index_data -! sizeof_block_header.

Definition both_headers : Z := sm_between_headers +! sizeof_block_header.
Definition total_prefix_with_header (TypeAlignment : Z) : Z := ct_rounded both_headers TypeAlignment.
Definition block_header_prefix_with_header (TypeAlignment : Z) : Z :=
  total_prefix_with_header TypeAlignment -! sizeof_block_header.
Definition front_space_with_header (TypeAlignment : Z) : Z :=
  total_prefix_with_header TypeAlignment -! both_headers.

Definition total_prefix_without_header (TypeAlignment : Z) : Z :=
  ct_rounded sizeof_block_header TypeAlignment.
Definition block_header_prefix_without_header (TypeAlignment : Z) : Z :=
  total_prefix_without_header TypeAlignment -! sizeof_block_header.
Definition front_space_without_header (TypeAlignment : Z) : Z :=
  block_header_prefix_without_header TypeAlignment.

(** *** The offsets of a [block_header] *)

Definition value_offset : Z := sizeof_block_header.

Definition name_length_offset (hdr : block_header) : Z :=
  value_offset +! get_rounded_size (m_value_bytes hdr) alignof_name_len_t.

Definition name_offset (CharAlign : Z) (hdr : block_header) : Z :=
  get_rounded_size (name_length_offset hdr +! sizeof_name_len_t) CharAlign.

Definition total_anonymous_size (TypeAlignment : Z) (hdr : block_header) : Z :=
  block_header_prefix_without_header TypeAlignment +! value_offset +! m_value_bytes hdr.

Definition total_named_size (TypeAlignment : Z) (ch : char_type) (hdr : block_header) (namelen : Z) : Z :=
  block_header_prefix_without_header TypeAlignment +! name_offset (c_align ch) hdr
    +! (namelen +! 1) *! c_size ch.

Definition total_named_size_with_header (TypeAlignment : Z) (ch : char_type) (hdr : block_header)
    (namelen : Z) : Z :=
  block_header_prefix_with_header TypeAlignment +! name_offset (c_align ch) hdr
    +! (namelen +! 1) *! c_size ch.

(** *** Addresses *)

Definition hdr_value (hdr : Z) : Z := hdr + value_offset.
Definition from_value (value : Z) : Z := value - value_offset.
Definition from_header (node : Z) : Z := node + sm_between_headers.
Definition to_header (hdr : Z) : Z := hdr - sm_between_headers.
End layout.

(** ** The layout is sound *)

Class SmLayoutOk {L : SmLayout} : Prop := {
  sl_align : alignof_index_data = 8 ∨ alignof_index_data = 16;
  sl_sizeof : 0 < sizeof_index_data <= 65536 ∧ (alignof_index_data | sizeof_index_data)
}.

Definition char_ok (ch : char_type) : Prop :=
  (∃ j, 0 <= j <= 3 ∧ c_align ch = 2 ^ j) ∧ 0 < c_size ch <= 8.

Lemma ct_rounded_val x k :
  0 < x <= 2 ^ 60 → 0 <= k <= 60 → ct_rounded x (2 ^ k) = round_up x (2 ^ k).
Proof.
  intros Hx Hk. assert (0 < 2 ^ k) by (apply Z.pow_pos_nonneg; lia).
  assert (2 ^ k <= 2 ^ 60) by (apply Z.pow_le_mono_r; lia).
  pose proof (round_up_spec x (2 ^ k) ltac:(lia)) as [Hr _].
  unfold ct_rounded, ct_rounded_size. destruct (Z.eqb_spec (2 ^ k) 0); [lia|].
  pose proof (rounded_size_val x (2 ^ k)) as E. unfold get_rounded_size in E.
  rewrite (u64_small (x - 1)) in * by (unfold in_u64; lia).
  assert ((x - 1) / 2 ^ k <= x - 1) by (apply Z.div_le_upper_bound; nia).
  assert (0 <= (x - 1) / 2 ^ k) by (apply Z.div_pos; lia).
  rewrite (u64_small ((x - 1) / 2 ^ k + 1)) in * by (unfold in_u64; lia).
  assert ((x - 1) / 2 ^ k * 2 ^ k <= x - 1) by (rewrite Z.mul_comm; apply Z.mul_div_le; lia).
  destruct (Z.leb_spec ((x - 1) / 2 ^ k + 1) (u64_max / 2 ^ k)) as [Hle|Hgt]; cbn.
  - apply E; unfold in_u64; lia.
  - exfalso. assert (u64_max / 2 ^ k < (x - 1) / 2 ^ k + 1) as Hlt by lia.
    apply (Z.mul_lt_mono_pos_r (2 ^ k)) in Hlt; [|lia].
    pose proof (Z.mul_succ_div_gt u64_max (2 ^ k) ltac:(lia)). unfold u64_max in *. nia.
Qed.

Lemma round_up_exact x m : 0 < m → (m | x) → round_up x m = x.
Proof. intros Hm [q ->]. unfold round_up. replace (q * m + m - 1) with (m - 1 + q * m) by lia.
  rewrite Z.div_add, (Z.div_small (m - 1)) by lia. lia. Qed.

Lemma pow2_divides i k : 0 <= i <= k → (2 ^ i | 2 ^ k).
Proof. intros H. exists (2 ^ (k - i)). rewrite <- Z.pow_add_r by lia. f_equal. lia. Qed.

(** [get_rounded_size] of any size, zero included. *)
Lemma rounded_val x m :
  0 <= x → 0 < m <= 8 → (m | 8) → x <= 2 ^ 63 →
  get_rounded_size x m = round_up x m ∧ x <= round_up x m < x + m ∧ (m | round_up x m).
Proof.
  intros Hx Hm Hd Hb. destruct (round_up_spec x m ltac:(lia)) as [H1 H2]. split; [|done].
  destruct (decide (x = 0)) as [->|]; [|apply rounded_size_val; unfold in_u64; lia].
  rewrite round_up_exact by (lia || by apply Z.divide_0_r).
  assert (m = 1 ∨ m = 2 ∨ m = 4 ∨ m = 8) as Hc; [|by destruct Hc as [->|[->|[->| ->]]]].
  destruct Hd as [q Hq]. assert (m ≠ 3 ∧ m ≠ 5 ∧ m ≠ 6 ∧ m ≠ 7) by lia. lia.
Qed.

Section layout_ok.
Context {L : SmLayout} {LOk : SmLayoutOk}.

Lemma between_val :
  sizeof_index_data <= sm_between_headers <= sizeof_index_data + 8 ∧
  both_headers = sm_between_headers + 8 ∧ (alignof_index_data | both_headers) ∧ (8 | both_headers) ∧
  16 <= both_headers <= 65552.
Proof.
  pose proof sl_sizeof as [Hs Hd]. unfold both_headers, sm_between_headers, sizeof_block_header.
  destruct sl_align as [E|E]; rewrite E in *; destruct Hd as [q Hq].
  - change (ct_rounded 8 8) with 8. u64_simpl. split_and!; try lia; [exists (q + 1)|exists (q + 1)]; lia.
  - change (ct_rounded 8 16) with 16. u64_simpl. split_and!; try lia; [exists (q + 1)|exists (2 * q + 2)]; lia.
Qed.

Lemma prefix_val k :
  0 <= k <= 59 →
  let P := total_prefix_with_header (2 ^ k) in
  P = round_up both_headers (2 ^ k) ∧ both_headers <= P < both_headers + 2 ^ k ∧ (2 ^ k | P) ∧ (8 | P) ∧
  (alignof_index_data | P - both_headers) ∧
  block_header_prefix_with_header (2 ^ k) = P - 8 ∧ front_space_with_header (2 ^ k) = P - both_headers.
Proof.
  intros Hk P. destruct between_val as (Hb1 & Hb2 & Hb3 & Hb4 & Hb5).
  assert (0 < 2 ^ k) by (apply Z.pow_pos_nonneg; lia).
  assert (2 ^ k <= 2 ^ 59) by (apply Z.pow_le_mono_r; lia).
  assert (P = round_up both_headers (2 ^ k)) as EP by (apply ct_rounded_val; lia).
  destruct (round_up_spec both_headers (2 ^ k) ltac:(lia)) as [Hr Hd].
  assert ((alignof_index_data | P - both_headers)) as HA.
  { assert (∃ j, 3 <= j <= 4 ∧ alignof_index_data = 2 ^ j) as (j & Hj & Ej).
    { destruct sl_align as [->| ->]; [by exists 3|by exists 4]. }
    rewrite Ej in *. destruct (decide (j <= k)).
    - apply Z.divide_sub_r; [|done]. rewrite EP. etrans; [|exact Hd]. apply pow2_divides. lia.
    - rewrite EP, round_up_exact; [by rewrite Z.sub_diag; apply Z.divide_0_r|done|].
      etrans; [|exact Hb3]. apply pow2_divides. lia. }
  assert ((8 | P)) as H8.
  { replace P with (P - both_headers + both_headers) by lia. apply Z.divide_add_r; [|done].
    etrans; [|exact HA]. destruct sl_align as [->| ->]; [by exists 1|by exists 2]. }
  split_and!; try done; try (rewrite EP; done || lia).
  - unfold block_header_prefix_with_header, sizeof_block_header. fold P. rewrite EP. u64_simpl. done.
  - unfold front_space_with_header. fold P. rewrite EP. u64_simpl. done.
Qed.

Lemma prefix_without_val k :
  0 <= k <= 59 →
  let P := total_prefix_without_header (2 ^ k) in
  8 <= P <= 2 ^ 59 + 8 ∧ (2 ^ k | P) ∧ (8 | P) ∧
  block_header_prefix_without_header (2 ^ k) = P - 8 ∧ front_space_without_header (2 ^ k) = P - 8.
Proof.
  intros Hk P. assert (0 < 2 ^ k) by (apply Z.pow_pos_nonneg; lia).
  assert (2 ^ k <= 2 ^ 59) by (apply Z.pow_le_mono_r; lia).
  assert (P = round_up 8 (2 ^ k)) as EP by (apply ct_rounded_val; lia).
  destruct (round_up_spec 8 (2 ^ k) ltac:(lia)) as [Hr Hd].
  assert ((8 | P)) as H8.
  { rewrite EP. destruct (decide (3 <= k)).
    - etrans; [|exact Hd]. change 8 with (2 ^ 3) at 1. apply pow2_divides. lia.
    - rewrite round_up_exact; [done|lia|]. change 8 with (2 ^ 3). apply pow2_divides. lia. }
  assert (block_header_prefix_without_header (2 ^ k) = P - 8) as E.
  { unfold block_header_prefix_without_header, sizeof_block_header. fold P. rewrite EP. u64_simpl. done. }
  split_and!; try done; rewrite EP; done || lia.
Qed.

Lemma name_offsets ch vb t :
  char_ok ch → 0 <= vb <= 2 ^ 62 →
  let hdr := BlockHeader t vb in
  name_length_offset hdr = 8 + round_up vb 2 ∧ vb <= round_up vb 2 <= vb + 1 ∧ (2 | name_length_offset hdr) ∧
  name_length_offset hdr + 2 <= name_offset (c_align ch) hdr <= name_length_offset hdr + 9 ∧
  (c_align ch | name_offset (c_align ch) hdr).
Proof.
  intros [(j & Hj & Ej) _] Hv hdr.
  destruct (rounded_val vb 2) as (E1 & R1 & D1); [lia|lia|by exists 4|lia|].
  assert (name_length_offset hdr = 8 + round_up vb 2) as En.
  { unfold name_length_offset, value_offset, sizeof_block_header, alignof_name_len_t. cbn [m_value_bytes hdr].
    rewrite E1. u64_simpl. done. }
  assert (0 < 2 ^ j) by (apply Z.pow_pos_nonneg; lia).
  assert (2 ^ j <= 2 ^ 3) by (apply Z.pow_le_mono_r; lia).
  assert ((2 ^ j | 8)) by (change 8 with (2 ^ 3); apply pow2_divides; lia).
  destruct (rounded_val (8 + round_up vb 2 + 2) (2 ^ j)) as (E2 & R2 & D2); [lia|lia|done|lia|].
  assert (name_offset (c_align ch) hdr = round_up (8 + round_up vb 2 + 2) (2 ^ j)) as Eo.
  { unfold name_offset, sizeof_name_len_t. rewrite En, Ej, (u64_small (_ + 2)) by (unfold in_u64; lia). exact E2. }
  rewrite Eo, En, Ej. split_and!; try done; try lia. apply Z.divide_add_r; [by exists 4|done].
Qed.

(** The parts of the buffer of a named object, from its first byte on. *)
Lemma named_layout ch vb t k namelen buffer :
  char_ok ch → 0 <= vb < 2 ^ 62 → 0 <= k <= 59 → 0 <= namelen < 2 ^ 60 →
  buffer mod 16 = 0 → buffer mod 2 ^ k = 0 →
  let info := BlockHeader t vb in
  let node := buffer + front_space_with_header (2 ^ k) in
  let hdr := from_header node in
  let total := total_named_size_with_header (2 ^ k) ch info namelen in
  buffer <= node ∧ node + sizeof_index_data <= hdr ∧ hdr_value hdr = hdr + 8 ∧
  hdr_value hdr + vb <= hdr + name_length_offset info ∧
  hdr + name_length_offset info + 2 <= hdr + name_offset (c_align ch) info ∧
  hdr + name_offset (c_align ch) info + (namelen + 1) * c_size ch = buffer + total ∧
  total <= vb + (namelen + 1) * 8 + 2 ^ 59 + 65600 ∧
  node mod alignof_index_data = 0 ∧ hdr mod 8 = 0 ∧ hdr_value hdr mod 2 ^ k = 0.
Proof.
  intros Hch Hv Hk Hn H16 Hal info node hdr total.
  pose proof (proj2 Hch) as Hcs. destruct (name_offsets ch vb t Hch ltac:(lia)) as (N1 & N2 & N3 & N4 & N5).
  destruct (prefix_val k Hk) as (_ & P1 & P2 & P3 & P4 & P5 & P6). cbv zeta in *.
  destruct between_val as (B1 & B2 & B3 & B4 & B5). fold info in N1, N2, N3, N4, N5.
  set (P := total_prefix_with_header (2 ^ k)) in *. set (no := name_offset (c_align ch) info) in *.
  assert (2 ^ k <= 2 ^ 59) by (apply Z.pow_le_mono_r; lia).
  assert (0 < 2 ^ k) by (apply Z.pow_pos_nonneg; lia).
  assert (0 <= (namelen + 1) * c_size ch <= (namelen + 1) * 8) by nia.
  assert (total = P - 8 + no + (namelen + 1) * c_size ch) as Et.
  { unfold total, total_named_size_with_header. fold no. rewrite P5. u64_simpl. lia. }
  assert (hdr = buffer + P - 8) as Eh by (unfold hdr, from_header, node; rewrite P6; lia).
  apply Z.mod_divide in H16; [|done]. apply Z.mod_divide in Hal; [|lia].
  unfold hdr_value, value_offset, sizeof_block_header. rewrite Et.
  split_and!; try (rewrite ?Eh; unfold node; rewrite ?P6; lia).
  - apply Z.mod_divide; [destruct sl_align as [->| ->]; lia|]. unfold node. rewrite P6. apply Z.divide_add_r; [|done].
    etrans; [|exact H16]. destruct sl_align as [->| ->]; [by exists 2|by exists 1].
  - apply Z.mod_divide; [done|]. rewrite Eh. apply Z.divide_sub_r; [|by exists 1].
    apply Z.divide_add_r; [|done]. etrans; [|exact H16]. by exists 2.
  - apply Z.mod_divide; [lia|]. rewrite Eh. replace (buffer + P - 8 + 8) with (buffer + P) by lia.
    by apply Z.divide_add_r.
Qed.

(** The same for an anonymous object. *)
Lemma anonymous_layout vb t k buffer :
  0 <= vb < 2 ^ 62 → 0 <= k <= 59 → buffer mod 16 = 0 → buffer mod 2 ^ k = 0 →
  let info := BlockHeader t vb in
  let hdr := buffer + front_space_without_header (2 ^ k) in
  let total := total_anonymous_size (2 ^ k) info in
  buffer <= hdr ∧ hdr_value hdr = hdr + 8 ∧ hdr_value hdr + vb = buffer + total ∧ total <= vb + 2 ^ 59 + 8 ∧
  hdr mod 8 = 0 ∧ hdr_value hdr mod 2 ^ k = 0.
Proof.
  intros Hv Hk H16 Hal info hdr total.
  destruct (prefix_without_val k Hk) as (P1 & P2 & P3 & P4 & P5). cbv zeta in *.
  set (P := total_prefix_without_header (2 ^ k)) in *.
  assert (0 < 2 ^ k) by (apply Z.pow_pos_nonneg; lia).
  apply Z.mod_divide in H16; [|done]. apply Z.mod_divide in Hal; [|lia].
  assert (total = P + vb) as Et.
  { unfold total, total_anonymous_size, value_offset, sizeof_block_header. cbn [m_value_bytes info].
    rewrite P4. u64_simpl. lia. }
  assert (hdr = buffer + P - 8) as Eh by (unfold hdr; rewrite P5; lia).
  unfold hdr_value, value_offset, sizeof_block_header. rewrite Et.
  split_and!; try (rewrite ?Eh; lia).
  - apply Z.mod_divide; [done|]. rewrite Eh. apply Z.divide_sub_r; [|by exists 1].
    apply Z.divide_add_r; [|done]. etrans; [|exact H16]. by exists 2.
  - apply Z.mod_divide; [lia|]. rewrite Eh. replace (buffer + P - 8 + 8) with (buffer + P) by lia.
    by apply Z.divide_add_r.
Qed.
End layout_ok.
