(* ===== verification/SegMgr.v ===== *)
(** The segment manager: named, unique and anonymous objects.

    Models [segment_manager_base] and [segment_manager] of
    [segment_manager.hpp], [construct_n] of [detail/named_proxy.hpp] and the
    comparison of [indexes/iset_index.hpp], the default index.  The manager is a
    template over the memory algorithm ([BlockAlgo] and its [priv_allocate]) and
    runs each operation under its recursive mutex, so an operation is one step.

    The intrusive set is code of Boost.Intrusive: the class [Iset] has its
    operations, [IsetOk] what they are documented to do.  Constructors and
    destructors of the objects are code of the user: a constructor makes an
    object or throws, and [throws i] tells whether that of element [i] does. *)

From stdpp Require Import sorting.
From S2P Require Import Prelude MathUtil MemAlgo SegMgrLayout.

Local Open Scope u64_scope.

(** ** Names *)

(** The characters of a name, without the final null. *)
Notation name := (list Z).

(** [std::char_traits<CharT>::compare(a, b, n)] for names of [n] characters. *)
Fixpoint traits_compare (a b : name) : Z :=
  match a, b with
  | x :: a, y :: b => if x <? y then -1 else if y <? x then 1 else traits_compare a b
  | _, _ => 0
  end.

(** [less_function]: shorter names come first. *)
Definition name_less (a b : name) : bool :=
  (Z.of_nat (length a) <? Z.of_nat (length b)) ||
  ((Z.of_nat (length a) =? Z.of_nat (length b)) && (traits_compare a b <? 0)).

Definition equivalent (a b : name) : Prop := name_less a b = false ∧ name_less b a = false.

(** ** The intrusive set of Boost.Intrusive

    Its elements are the addresses of the nodes; the name of a node is read from
    the segment, the argument [key].  [insert_check] returns the element that
    prevents the insertion, if any, and the data for [insert_commit]. *)
Class Iset (T C : Type) := {
  ix_elements : T → list Z;
  ix_empty : T;
  ix_find : (Z → name) → name → T → option Z;
  ix_insert_check : (Z → name) → name → T → option Z * C;
  ix_insert_commit : Z → C → T → T;
  ix_erase : Z → T → T
}.

(** ** Exceptions and objects *)

Inductive exn := BadAlloc | AlreadyExists | UserException.

Inductive res (A : Type) := Val (a : A) | Exc (e : exn).
Arguments Val {A} _.
Arguments Exc {A} _.

(** The type of an object: [sizeof], [alignof] and [typeid(T).name()]. *)
Record obj_type := ObjType { t_size : Z; t_align : Z; t_name : name }.

Definition anonymous_type : Z := 0.
Definition named_type : Z := 1.
Definition unique_type : Z := 2.
Definition max_allocation_type : Z := 3.

(** [char_ptr_holder]. *)
Inductive char_ptr_holder := AnonymousInstance | UniqueInstance | Name (n : name).

Definition is_unique (h : char_ptr_holder) : bool :=
  match h with UniqueInstance => true | _ => false end.
Definition is_anonymous (h : char_ptr_holder) : bool :=
  match h with AnonymousInstance => true | _ => false end.

(** ** Memory

    What the manager and the constructors place into the buffers: an address
    holds a datum with its length in bytes, and writing one destroys every datum
    it overlaps. *)
Inductive datum :=
  | DHeader (h : block_header)
  | DNode
  | DNameLength (n : Z)
  | DName (s : name)
  | DObject.

Notation cells := (gmap Z (Z * datum)).

Definition write (a len : Z) (d : datum) (m : cells) : cells :=
  <[a := (len, d)]> (filter (λ kv, kv.1 + kv.2.1 <= a ∨ a + len <= kv.1) m).

Record segmgr (St T : Type) := SegMgr {
  sm_algo : St;
  sm_cells : cells;
  m_named_index : T;
  m_unique_index : T
}.
Arguments SegMgr {St T}.
Arguments sm_algo {St T}.
Arguments sm_cells {St T}.
Arguments m_named_index {St T}.
Arguments m_unique_index {St T}.

(** The two indexes; names of unique objects consist of [char]. *)
Inductive index_id := NamedIndex | UniqueIndex.
#[export] Instance index_id_eq : EqDecision index_id.
Proof. solve_decision. Defined.

Section segment_manager.
Context {St T C : Type} {A : BlockAlgo St} {IX : Iset T C} {L : SmLayout}.
(** [priv_allocate] of the memory algorithm, [CharType]. *)
Context (priv_allocate : allocate_fn St) (CharT : char_type).

Notation mgr := (segmgr St T).
Implicit Types s : mgr.

Definition char_of (ix : index_id) : char_type :=
  match ix with NamedIndex => CharT | UniqueIndex => CharType 1 1 end.
Definition index_of (ix : index_id) s : T :=
  match ix with NamedIndex => m_named_index s | UniqueIndex => m_unique_index s end.
Definition set_index (ix : index_id) (t : T) s : mgr :=
  match ix with
  | NamedIndex => SegMgr (sm_algo s) (sm_cells s) t (m_unique_index s)
  | UniqueIndex => SegMgr (sm_algo s) (sm_cells s) (m_named_index s) t
  end.
Definition set_cells (f : cells → cells) s : mgr :=
  SegMgr (sm_algo s) (f (sm_cells s)) (m_named_index s) (m_unique_index s).

(** An operation of the memory algorithm. *)
Definition lift {X} (m : M St X) : M mgr X := λ s,
  match m (sm_algo s) with
  | Ret (x, a) => Ret (x, SegMgr a (sm_cells s) (m_named_index s) (m_unique_index s))
  | Fault e => Fault e
  end.

Definition st_cell (a len : Z) (d : datum) : M mgr () := modify (set_cells (write a len d)).
Definition forget_cell (a : Z) : M mgr () := modify (set_cells (delete a)).

Definition ld_header (a : Z) : M mgr block_header := λ s,
  match sm_cells s !! a with Some (_, DHeader h) => Ret (h, s) | _ => Fault BadAccess end.

(** *** [block_header] in memory *)

Definition name_length_at (m : cells) (hdr : Z) : option Z :=
  match m !! hdr with
  | Some (_, DHeader h) =>
      if m_alloc_type h =? anonymous_type then Some 0 else
      match m !! (hdr + name_length_offset h) with Some (_, DNameLength n) => Some n | _ => None end
  | _ => None
  end.
Definition name_at (ch : char_type) (m : cells) (hdr : Z) : option name :=
  match m !! hdr with
  | Some (_, DHeader h) =>
      match m !! (hdr + name_offset (c_align ch) h) with Some (_, DName n) => Some n | _ => None end
  | _ => None
  end.

(** The key of a node, [name()] up to [name_length()]. *)
Definition node_key (ch : char_type) (m : cells) (node : Z) : name :=
  match name_length_at m (from_header node), name_at ch m (from_header node) with
  | Some n, Some str => take (Z.to_nat n) str
  | _, _ => []
  end.
Definition key (ix : index_id) s : Z → name := node_key (char_of ix) (sm_cells s).

Definition assert_ptr_aligned (p align : Z) : M mgr () := boost_assert (is_ptr_aligned p align).

Definition block_header_from_value (t : obj_type) (value : Z) : M mgr Z :=
  assert_ptr_aligned value (t_align t);;
  let hdr := from_value value in
  h ← ld_header hdr;
  boost_assert (m_value_bytes h mod t_size t =? 0);;
  mret hdr.

Definition from_first_header (node : Z) : M mgr Z :=
  assert_ptr_aligned node alignof_index_data;;
  let hdr := from_header node in
  assert_ptr_aligned hdr alignof_block_header;;
  mret hdr.

Definition to_first_header (hdr : Z) : M mgr Z :=
  assert_ptr_aligned hdr alignof_block_header;;
  let node := to_header hdr in
  assert_ptr_aligned node alignof_index_data;;
  mret node.

(** *** Construction and destruction of arrays *)

Fixpoint destroy_loop (t : obj_type) (n : nat) (memory : Z) : M mgr () :=
  match n with
  | O => mret ()
  | S n =>
      c ← gets (λ s, sm_cells s !! memory);
      match c with
      | Some (_, DObject) => forget_cell memory;; destroy_loop t n (memory + t_size t)
      | _ => throw BadAccess
      end
  end.
Definition priv_destroy_n (t : obj_type) (memory num : Z) : M mgr () :=
  destroy_loop t (Z.to_nat num) memory.

(** The index of the element whose constructor throws, if one does. *)
Fixpoint construct_loop (t : obj_type) (throws : Z → bool) (n : nat) (memory i : Z)
  : M mgr (option Z) :=
  match n with
  | O => mret None
  | S n =>
      if throws i then mret (Some i) else
      st_cell memory (t_size t) DObject;;
      construct_loop t throws n (memory + t_size t) (i + 1)
  end.

(** [construct_n]: whether it returns. *)
Definition construct_n (t : obj_type) (throws : Z → bool) (mem num : Z) : M mgr bool :=
  r ← construct_loop t throws (Z.to_nat num) mem 0;
  match r with
  | None => mret true
  | Some constructed => priv_destroy_n t mem constructed;; mret false
  end.

Definition null_or_bad_alloc (dothrow : bool) : M mgr (res Z) :=
  mret (if dothrow then Exc BadAlloc else Val 0).
Definition null_or_already_exists (dothrow : bool) : M mgr (res Z) :=
  mret (if dothrow then Exc AlreadyExists else Val 0).

(** *** [segment_manager_base] *)

Definition base_allocate_nothrow (nbytes : Z) : M mgr Z :=
  lift ('(p, _, _) ← priv_allocate cmd_allocate_new nbytes nbytes 0 Alignment; mret p).
Definition base_allocate (nbytes : Z) : M mgr (res Z) :=
  ret ← base_allocate_nothrow nbytes;
  mret (if ret =? 0 then Exc BadAlloc else Val ret).
Definition base_allocate_aligned_nothrow (nbytes alignment : Z) : M mgr Z :=
  lift (allocate_aligned priv_allocate nbytes alignment).
Definition base_allocate_aligned (nbytes alignment : Z) : M mgr (res Z) :=
  ret ← base_allocate_aligned_nothrow nbytes alignment;
  mret (if ret =? 0 then Exc BadAlloc else Val ret).
Definition base_deallocate (addr : Z) : M mgr () :=
  lift (if addr =? 0 then mret () else priv_deallocate addr).

(** The constructor: that of the memory algorithm, [algo_ctor], and two empty
    indexes. *)
Definition segment_manager_ctor (algo_ctor : Z → Z → M St ()) (segment_size reserved_bytes : Z) : M mgr () :=
  lift (algo_ctor segment_size reserved_bytes);;
  modify (λ s, SegMgr (sm_algo s) (sm_cells s) ix_empty ix_empty).

(** *** Anonymous objects *)

Definition priv_anonymous_construct (t : obj_type) (throws : Z → bool) (num : Z) (dothrow : bool)
  : M mgr (res Z) :=
  let block_info := make_block_header (t_size t *! num) anonymous_type in
  let total_size := total_anonymous_size (t_align t) block_info in
  ptr_struct ← base_allocate_aligned_nothrow total_size (t_align t);
  if ptr_struct =? 0 then null_or_bad_alloc dothrow else
  let front_space := front_space_without_header (t_align t) in
  let hdr := ptr_struct + front_space in
  st_cell hdr sizeof_block_header (DHeader block_info);;
  assert_ptr_aligned hdr alignof_block_header;;
  let ptr := hdr_value hdr in
  ok ← construct_n t throws ptr num;
  if ok : bool then assert_ptr_aligned ptr (t_align t);; mret (Val ptr)
  else base_deallocate ptr_struct;; mret (Exc UserException).

Definition priv_anonymous_destroy (t : obj_type) (object : Z) : M mgr () :=
  assert_ptr_aligned object (t_align t);;
  ctrl_data ← block_header_from_value t object;
  h ← ld_header ctrl_data;
  boost_assert (m_alloc_type h =? anonymous_type);;
  priv_destroy_n t object (m_value_bytes h / t_size t);;
  base_deallocate (ctrl_data - front_space_without_header (t_align t)).

(** *** Named and unique objects *)

(** The pointer (0 if there is none) and the number of elements. *)
Definition priv_generic_find (t : obj_type) (ix : index_id) (nm : name) : M mgr (Z * Z) :=
  s ← get;
  match ix_find (key ix s) nm (index_of ix s) with
  | None => mret (0, 0)
  | Some it =>
      ctrl_data ← from_first_header it;
      h ← ld_header ctrl_data;
      boost_assert (m_value_bytes h mod t_size t =? 0);;
      mret (hdr_value ctrl_data, m_value_bytes h / t_size t)
  end.

Definition priv_generic_named_destroy_impl (t : obj_type) (ix : index_id) (it : Z) : M mgr bool :=
  ctrl_data ← from_first_header it;
  h ← ld_header ctrl_data;
  boost_assert (m_value_bytes h mod t_size t =? 0);;
  modify (λ s, set_index ix (ix_erase it (index_of ix s)) s);;
  ihdr ← to_first_header ctrl_data;
  let memory := ihdr - front_space_with_header (t_align t) in
  forget_cell ihdr;;
  priv_destroy_n t (hdr_value ctrl_data) (m_value_bytes h / t_size t);;
  forget_cell ctrl_data;;
  base_deallocate memory;;
  mret true.

Definition priv_generic_named_destroy (t : obj_type) (ix : index_id) (nm : name) : M mgr bool :=
  s ← get;
  match ix_find (key ix s) nm (index_of ix s) with
  | None => mret false
  | Some it => priv_generic_named_destroy_impl t ix it
  end.

(** The overload for a header, which destroys by name. *)
Definition priv_generic_named_destroy_header (t : obj_type) (ix : index_id) (hdr : Z) : M mgr bool :=
  s ← get;
  match name_at (char_of ix) (sm_cells s) hdr with
  | Some nm => priv_generic_named_destroy t ix nm
  | None => throw BadAccess
  end.

Definition priv_destroy_ptr (t : obj_type) (ptr : Z) : M mgr () :=
  assert_ptr_aligned ptr (t_align t);;
  ctrl_data ← block_header_from_value t ptr;
  h ← ld_header ctrl_data;
  if m_alloc_type h =? anonymous_type then priv_anonymous_destroy t ptr
  else if m_alloc_type h =? named_type then
    _ ← priv_generic_named_destroy_header t NamedIndex ctrl_data; mret ()
  else if m_alloc_type h =? unique_type then
    _ ← priv_generic_named_destroy_header t UniqueIndex ctrl_data; mret ()
  else boost_assert false.

(** The part of [priv_generic_named_construct] that follows the allocation of
    [buffer_ptr]: the headers, the name, the index and the values. *)
Definition named_construct_in (t : obj_type) (throws : Z → bool) (ix : index_id) (nm : name) (num : Z)
    (block_info : block_header) (commit_data : C) (buffer_ptr : Z) : M mgr (res Z) :=
  let namelen := Z.of_nat (length nm) in
  let front_space := front_space_with_header (t_align t) in
  hdr ← from_first_header (buffer_ptr + front_space);
  assert_ptr_aligned hdr alignof_block_header;;
  st_cell hdr sizeof_block_header (DHeader block_info);;
  let ptr := hdr_value hdr in
  st_cell (hdr + name_length_offset block_info) sizeof_name_len_t (DNameLength (namelen mod 65536));;
  st_cell (hdr + name_offset (c_align (char_of ix)) block_info)
          ((namelen +! 1) *! c_size (char_of ix)) (DName nm);;
  let index_data := buffer_ptr + front_space in
  st_cell index_data sizeof_index_data DNode;;
  assert_ptr_aligned index_data alignof_index_data;;
  modify (λ s, set_index ix (ix_insert_commit index_data commit_data (index_of ix s)) s);;
  ok ← construct_n t throws ptr num;
  if ok : bool then assert_ptr_aligned ptr (t_align t);; mret (Val ptr)
  else
    modify (λ s, set_index ix (ix_erase index_data (index_of ix s)) s);;
    base_deallocate buffer_ptr;;
    mret (Exc UserException).

Definition priv_generic_named_construct (t : obj_type) (throws : Z → bool) (type : Z) (ix : index_id)
    (nm : name) (num : Z) (try2find dothrow : bool) : M mgr (res Z) :=
  let block_info := make_block_header (t_size t *! num) type in
  s ← get;
  let '(existing_it, commit_data) := ix_insert_check (key ix s) nm (index_of ix s) in
  match existing_it with
  | Some it =>
      if try2find then hdr ← from_first_header it; mret (Val (hdr_value hdr))
      else null_or_already_exists dothrow
  | None =>
      let total_size :=
        total_named_size_with_header (t_align t) (char_of ix) block_info (Z.of_nat (length nm)) in
      buffer_ptr ← base_allocate_aligned_nothrow total_size (t_align t);
      if buffer_ptr =? 0 then null_or_bad_alloc dothrow else
      named_construct_in t throws ix nm num block_info commit_data buffer_ptr
  end.

Definition generic_construct (t : obj_type) (throws : Z → bool) (nm : char_ptr_holder) (num : Z)
    (try2find dothrow : bool) : M mgr (res Z) :=
  if u64_max / t_size t <? num then null_or_bad_alloc dothrow else
  match nm with
  | AnonymousInstance => priv_anonymous_construct t throws num dothrow
  | UniqueInstance =>
      priv_generic_named_construct t throws unique_type UniqueIndex (t_name t) num try2find dothrow
  | Name n => priv_generic_named_construct t throws named_type NamedIndex n num try2find dothrow
  end.

(** *** Public interface *)

(** [construct<T>(name)[n1][n2]...(args)] and its variants: the proxy multiplies
    the numbers of elements. *)
Definition proxy_num (nums : list Z) : Z := fold_left (λ m n, m *! n) nums 1.
Definition construct_call (t : obj_type) (throws : Z → bool) (nm : char_ptr_holder) (nums : list Z)
    (find dothrow : bool) : M mgr (res Z) :=
  generic_construct t throws nm (proxy_num nums) find dothrow.

Definition find (t : obj_type) (nm : char_ptr_holder) : M mgr (Z * Z) :=
  boost_assert (negb (is_anonymous nm));;
  match nm with
  | Name n => priv_generic_find t NamedIndex n
  | _ => priv_generic_find t UniqueIndex (t_name t)
  end.

Definition destroy (t : obj_type) (nm : char_ptr_holder) : M mgr bool :=
  boost_assert (negb (is_anonymous nm));;
  match nm with
  | Name n => priv_generic_named_destroy t NamedIndex n
  | _ => priv_generic_named_destroy t UniqueIndex (t_name t)
  end.

Definition destroy_ptr (t : obj_type) (p : Z) : M mgr () := priv_destroy_ptr t p.

Definition get_instance_name (t : obj_type) (ptr : Z) : M mgr (option name) :=
  ctrl_data ← block_header_from_value t ptr;
  h ← ld_header ctrl_data;
  s ← get;
  match name_length_at (sm_cells s) ctrl_data with
  | None => throw BadAccess
  | Some n =>
      if m_alloc_type h =? anonymous_type then boost_assert (n =? 0);; mret None else
      boost_assert (negb (n =? 0));;
      match name_at CharT (sm_cells s) ctrl_data with
      | None => throw BadAccess
      | Some nm => boost_assert (n =? Z.of_nat (length nm));; mret (Some nm)
      end
  end.

Definition get_instance_length (t : obj_type) (ptr : Z) : M mgr Z :=
  ctrl_data ← block_header_from_value t ptr;
  h ← ld_header ctrl_data;
  boost_assert (m_value_bytes h mod t_size t =? 0);;
  mret (m_value_bytes h / t_size t).

Definition get_instance_type (t : obj_type) (ptr : Z) : M mgr Z :=
  ctrl_data ← block_header_from_value t ptr;
  h ← ld_header ctrl_data;
  boost_assert (m_alloc_type h <? max_allocation_type);;
  mret (m_alloc_type h).

Definition get_num_named_objects : M mgr Z :=
  gets (λ s, Z.of_nat (length (ix_elements (m_named_index s)))).
Definition get_num_unique_objects : M mgr Z :=
  gets (λ s, Z.of_nat (length (ix_elements (m_unique_index s)))).
End segment_manager.
