(* ===== verification/SegMgrInv.v ===== *)
(** The segment manager: names, memory cells and the invariant. *)

From stdpp Require Import sorting.
From S2P Require Import Prelude Blocks MathUtil MemAlgo MemAlgoSpec MemAlgoAlign.
From S2P Require Import SegMgrLayout SegMgr.

Local Open Scope u64_scope.

(** ** The order of names *)

Lemma compare_refl a : traits_compare a a = 0.
Proof. induction a as [|x a IH]; cbn; [done|]. by rewrite Z.ltb_irrefl. Qed.

Lemma compare_antisym a b : traits_compare a b = - traits_compare b a.
Proof.
  revert b. induction a as [|x a IH]; intros [|y b]; cbn; try done.
  destruct (Z.ltb_spec x y), (Z.ltb_spec y x); try lia. apply IH.
Qed.

Lemma compare_zero a b : length a = length b → traits_compare a b = 0 → a = b.
Proof.
  revert b. induction a as [|x a IH]; intros [|y b]; cbn; try done. intros Hl.
  destruct (Z.ltb_spec x y), (Z.ltb_spec y x); try done. intros E.
  f_equal; [lia|]. apply IH; [lia|done].
Qed.

Lemma name_less_irrefl a : name_less a a = false.
Proof. unfold name_less. by rewrite Z.ltb_irrefl, compare_refl, andb_false_r. Qed.

(** Equivalent names are equal: the order is total. *)
Lemma equivalent_eq a b : equivalent a b ↔ a = b.
Proof.
  split; [|intros ->; split; apply name_less_irrefl]. unfold equivalent, name_less. intros [H1 H2]. btests.
  assert (length a = length b) as Hl by lia. apply compare_zero; [done|].
  rewrite Hl, Z.eqb_refl in *. cbn in *. btests.
  pose proof (compare_antisym a b). lia.
Qed.

(** ** The intrusive set *)

Definition iset_ok {T C} `{Iset T C} (key : Z → name) (t : T) : Prop :=
  StronglySorted (λ x y, name_less (key x) (key y) = true) (ix_elements t).

Class IsetOk (T C : Type) {IX : Iset T C} : Prop := {
  elements_empty_ix : ix_elements ix_empty = [];
  find_ok key k t : iset_ok key t →
    match ix_find key k t with
    | Some x => x ∈ ix_elements t ∧ equivalent (key x) k
    | None => ∀ x, x ∈ ix_elements t → ¬ equivalent (key x) k
    end;
  insert_check_ok key k t : iset_ok key t →
    match fst (ix_insert_check key k t) with
    | Some x => x ∈ ix_elements t ∧ equivalent (key x) k
    | None => ∀ x, x ∈ ix_elements t → ¬ equivalent (key x) k
    end;
  insert_commit_ok key key' k x c t : iset_ok key t → ix_insert_check key k t = (None, c) →
    (∀ y, y ∈ ix_elements t → key' y = key y) → equivalent (key' x) k → x ∉ ix_elements t →
    ix_elements (ix_insert_commit x c t) ≡ₚ x :: ix_elements t ∧
    iset_ok key' (ix_insert_commit x c t);
  erase_ok x t : x ∈ ix_elements t → ix_elements (ix_erase x t) = filter (.≠ x) (ix_elements t)
}.

Lemma iset_ext {T C} `{Iset T C} key key' (t : T) :
  (∀ x, x ∈ ix_elements t → key' x = key x) → iset_ok key t → iset_ok key' t.
Proof.
  unfold iset_ok. generalize (ix_elements t). intros l Hk Hs.
  induction Hs as [|x l Hs IH Hx]; constructor.
  - apply IH. intros y Hy. apply Hk. by right.
  - apply Forall_forall. intros y Hy. rewrite Forall_forall in Hx.
    rewrite (Hk x), (Hk y) by (by left || by right). by apply Hx.
Qed.

Lemma iset_filter {T C} `{Iset T C} key (t t' : T) x :
  ix_elements t' = filter (.≠ x) (ix_elements t) → iset_ok key t → iset_ok key t'.
Proof.
  unfold iset_ok. intros ->. generalize (ix_elements t). intros l Hs.
  induction Hs as [|y l Hs IH Hy]; [constructor|]. rewrite filter_cons. case_decide; [|done].
  constructor; [done|]. apply Forall_forall. intros z [_ Hz]%list_elem_of_filter.
  rewrite Forall_forall in Hy. by apply Hy.
Qed.

(** Names in an index are different. *)
Lemma iset_inj {T C} `{Iset T C} key (t : T) x y :
  iset_ok key t → x ∈ ix_elements t → y ∈ ix_elements t → key x = key y → x = y.
Proof.
  unfold iset_ok. generalize (ix_elements t). intros l Hs.
  induction Hs as [|z l Hs IH Hz]; intros Hx Hy E; [by apply not_elem_of_nil in Hx|].
  rewrite Forall_forall in Hz. apply elem_of_cons in Hx as [->|Hx], Hy as [->|Hy]; [done|..|by apply IH].
  - apply Hz in Hy. by rewrite E, name_less_irrefl in Hy.
  - apply Hz in Hx. by rewrite E, name_less_irrefl in Hx.
Qed.

Lemma iset_nodup {T C} `{Iset T C} key (t : T) : iset_ok key t → NoDup (ix_elements t).
Proof.
  unfold iset_ok. intros Hs. induction Hs as [|x l Hs IH Hx]; constructor; [|done].
  rewrite Forall_forall in Hx. intros Hin. specialize (Hx _ Hin). by rewrite name_less_irrefl in Hx.
Qed.

(** ** Memory cells *)

Definition holds (m : cells) (x : Z * Z * datum) : Prop := m !! x.1.1 = Some (x.1.2, x.2).

(** [m'] keeps the cells of [m] outside of [lo] to [hi]. *)
Definition keeps (lo hi : Z) (m m' : cells) : Prop :=
  ∀ b l d, m !! b = Some (l, d) → 0 < l → b + l <= lo ∨ hi <= b → m' !! b = Some (l, d).

#[export] Instance keeps_preorder lo hi : PreOrder (keeps lo hi).
Proof. split; [by intros m b l d|]. intros m1 m2 m3 H1 H2 b l d Hb Hl Ho. by eapply H2; [eapply H1|..]. Qed.

Lemma keeps_weaken lo hi lo' hi' m m' : lo' <= lo → hi <= hi' → keeps lo hi m m' → keeps lo' hi' m m'.
Proof. intros H1 H2 Hk b l d Hb Hl Ho. apply Hk; [done|done|lia]. Qed.

Lemma write_here a len d m : write a len d m !! a = Some (len, d).
Proof. apply lookup_insert_eq. Qed.

Lemma write_keeps lo hi a len d m : lo <= a → a + len <= hi → 0 < len → keeps lo hi m (write a len d m).
Proof.
  intros H1 H2 Hlen b l d' Hb Hl Ho. unfold write. rewrite lookup_insert_ne by lia.
  apply map_lookup_filter_Some. split; [done|]. cbn. lia.
Qed.

Lemma delete_keeps lo hi a (m : cells) : lo <= a < hi → keeps lo hi m (delete a m).
Proof. intros Ha b l d Hb Hl Ho. rewrite lookup_delete_ne by lia. done. Qed.

Lemma holds_keep lo hi m m' x :
  keeps lo hi m m' → 0 < x.1.2 → x.1.1 + x.1.2 <= lo ∨ hi <= x.1.1 → holds m x → holds m' x.
Proof. intros Hk Hl Ho Hx. by apply Hk. Qed.

Lemma holds_write a len d m x :
  holds m x → x.1.1 + x.1.2 <= a ∨ a + len <= x.1.1 → 0 < x.1.2 → 0 < len → holds (write a len d m) x.
Proof. intros Hx Ho Hl Hlen. apply (write_keeps a (a + len)); [lia|lia|lia|done|done|lia]. Qed.

(** [n] objects of [sz] bytes from [a] on. *)
Fixpoint obj_cells (sz : Z) (n : nat) (a : Z) : list (Z * Z * datum) :=
  match n with O => [] | S n => (a, sz, DObject) :: obj_cells sz n (a + sz) end.
Fixpoint write_objs (sz : Z) (n : nat) (a : Z) (m : cells) : cells :=
  match n with O => m | S n => write_objs sz n (a + sz) (write a sz DObject m) end.
Fixpoint forget_objs (sz : Z) (n : nat) (a : Z) (m : cells) : cells :=
  match n with O => m | S n => forget_objs sz n (a + sz) (delete a m) end.

Lemma obj_cells_range sz n a x :
  0 < sz → x ∈ obj_cells sz n a → a <= x.1.1 ∧ x.1.1 + x.1.2 <= a + Z.of_nat n * sz ∧ x.1.2 = sz.
Proof.
  intros Hs. revert a. induction n as [|n IH]; intros a; cbn [obj_cells]; [by intros ?%not_elem_of_nil|].
  intros [->|Hx]%elem_of_cons; [cbn; lia|]. apply IH in Hx. lia.
Qed.

Lemma write_objs_keeps sz n a m :
  0 < sz → keeps a (a + Z.of_nat n * sz) m (write_objs sz n a m).
Proof.
  intros Hs. revert a m. induction n as [|n IH]; intros a m; cbn [write_objs]; [reflexivity|].
  transitivity (write a sz DObject m); [apply write_keeps; lia|].
  eapply keeps_weaken; [..|apply IH]; lia.
Qed.

Lemma write_objs_holds sz n a m : 0 < sz → Forall (holds (write_objs sz n a m)) (obj_cells sz n a).
Proof.
  intros Hs. revert a m. induction n as [|n IH]; intros a m; cbn [write_objs obj_cells]; constructor; [|apply IH].
  eapply holds_keep; [by apply write_objs_keeps|done|cbn; lia|apply write_here].
Qed.

Lemma forget_objs_keeps sz n a m :
  0 < sz → keeps a (a + Z.of_nat n * sz) m (forget_objs sz n a m).
Proof.
  intros Hs. revert a m. induction n as [|n IH]; intros a m; cbn [forget_objs]; [reflexivity|].
  transitivity (delete a m); [apply delete_keeps; lia|].
  eapply keeps_weaken; [..|apply IH]; lia.
Qed.

(** ** The objects *)

Inductive okind := KAnonymous | KNamed (ix : index_id) (nm : name).

(** An object of the manager: its type, the number of its elements, how it was
    constructed and the buffer it lies in. *)
Record sobj := SObj { o_type : obj_type; o_num : Z; o_kind : okind; o_buf : Z }.

Definition type_ok (t : obj_type) : Prop :=
  0 < t_size t ∧ ∃ k, 0 <= k <= 59 ∧ t_align t = 2 ^ k.

Section objects.
Context {L : SmLayout} (CharT : char_type).

Notation chr := (char_of CharT).

Definition type_code (ix : index_id) : Z :=
  match ix with NamedIndex => named_type | UniqueIndex => unique_type end.

Definition o_code (o : sobj) : Z :=
  match o_kind o with KAnonymous => anonymous_type | KNamed ix _ => type_code ix end.
Definition o_bytes (o : sobj) : Z := t_size (o_type o) * o_num o.
Definition o_info (o : sobj) : block_header := BlockHeader (o_code o) (o_bytes o).
Definition o_node (o : sobj) : Z := o_buf o + front_space_with_header (t_align (o_type o)).
Definition o_hdr (o : sobj) : Z :=
  match o_kind o with
  | KAnonymous => o_buf o + front_space_without_header (t_align (o_type o))
  | KNamed _ _ => from_header (o_node o)
  end.
Definition o_value (o : sobj) : Z := hdr_value (o_hdr o).
Definition o_total (o : sobj) : Z :=
  match o_kind o with
  | KAnonymous => total_anonymous_size (t_align (o_type o)) (o_info o)
  | KNamed ix nm =>
      total_named_size_with_header (t_align (o_type o)) (chr ix) (o_info o) (Z.of_nat (length nm))
  end.

(** What the object's buffer holds. *)
Definition name_cells (o : sobj) : list (Z * Z * datum) :=
  match o_kind o with
  | KAnonymous => []
  | KNamed ix nm =>
      [(o_node o, sizeof_index_data, DNode);
       (o_hdr o + name_length_offset (o_info o), 2, DNameLength (Z.of_nat (length nm)));
       (o_hdr o + name_offset (c_align (chr ix)) (o_info o),
        (Z.of_nat (length nm) + 1) * c_size (chr ix), DName nm)]
  end.
Definition o_head (o : sobj) : list (Z * Z * datum) := (o_hdr o, 8, DHeader (o_info o)) :: name_cells o.
Definition o_cells (o : sobj) : list (Z * Z * datum) :=
  o_head o ++ obj_cells (t_size (o_type o)) (Z.to_nat (o_num o)) (o_value o).

Lemma o_head_header o m : Forall (holds m) (o_head o) → m !! o_hdr o = Some (8, DHeader (o_info o)).
Proof. by intros [H _]%Forall_cons. Qed.

Lemma o_head_name o m ix nm :
  Forall (holds m) (o_head o) → o_kind o = KNamed ix nm →
  name_at (chr ix) m (o_hdr o) = Some nm ∧ name_length_at m (o_hdr o) = Some (Z.of_nat (length nm)).
Proof.
  intros H Ek. pose proof (o_head_header o m H) as H0. unfold o_head, name_cells in H. rewrite Ek in H.
  apply Forall_cons in H as [_ H1].
  apply Forall_cons in H1 as [_ H1]. apply Forall_cons in H1 as [H1 H3]. apply Forall_cons in H3 as [H3 _].
  unfold holds in *. cbn [fst snd] in *. unfold name_length_at, name_at. rewrite H0, H1, H3.
  assert (m_alloc_type (o_info o) =? anonymous_type = false) as ->
    by (unfold o_info, o_code; rewrite Ek; by destruct ix).
  done.
Qed.

(** The name of a node. *)
Lemma o_head_key o ix nm m :
  o_kind o = KNamed ix nm → Forall (holds m) (o_head o) → node_key (chr ix) m (o_node o) = nm.
Proof.
  intros Ek H. destruct (o_head_name o m ix nm H Ek) as [E1 E2]. unfold node_key.
  assert (from_header (o_node o) = o_hdr o) as -> by (unfold o_hdr; by rewrite Ek).
  rewrite E1, E2, Nat2Z.id. apply take_ge. done.
Qed.

Lemma o_cells_split o m :
  Forall (holds m) (o_cells o) ↔ Forall (holds m) (o_head o) ∧
  Forall (holds m) (obj_cells (t_size (o_type o)) (Z.to_nat (o_num o)) (o_value o)).
Proof. apply Forall_app. Qed.

Lemma o_cells_header o m : Forall (holds m) (o_cells o) → m !! o_hdr o = Some (8, DHeader (o_info o)).
Proof. intros [H _]%o_cells_split. by apply o_head_header. Qed.

Lemma o_key o ix nm m :
  o_kind o = KNamed ix nm → Forall (holds m) (o_cells o) → node_key (chr ix) m (o_node o) = nm.
Proof. intros Ek [H _]%o_cells_split. by apply o_head_key. Qed.

Definition obj_ok (o : sobj) : Prop :=
  type_ok (o_type o) ∧ 0 <= o_num o ∧ o_bytes o <= 2 ^ 61 ∧
  o_buf o mod 16 = 0 ∧ o_buf o mod t_align (o_type o) = 0 ∧
  match o_kind o with KAnonymous => True | KNamed _ nm => Z.of_nat (length nm) < 65536 end.

Context {LOk : SmLayoutOk} (Hchr : char_ok CharT).

Lemma chr_ok ix : char_ok (chr ix).
Proof. destruct ix; [done|]. split; [by exists 0|cbn; lia]. Qed.

Lemma o_bytes_range o : obj_ok o → 0 <= o_bytes o <= 2 ^ 61.
Proof. intros ((H1 & _) & H2 & H3 & _). unfold o_bytes in *. nia. Qed.

(** The parts of a named object, in their order. *)
Lemma o_named_parts o ix nm :
  obj_ok o → o_kind o = KNamed ix nm →
  o_buf o <= o_node o ∧ o_node o + sizeof_index_data <= o_hdr o ∧ o_value o = o_hdr o + 8 ∧
  o_value o + o_bytes o <= o_hdr o + name_length_offset (o_info o) ∧
  o_hdr o + name_length_offset (o_info o) + 2 <= o_hdr o + name_offset (c_align (chr ix)) (o_info o) ∧
  o_hdr o + name_offset (c_align (chr ix)) (o_info o) + (Z.of_nat (length nm) + 1) * c_size (chr ix) =
    o_buf o + o_total o ∧
  o_total o <= 2 ^ 62 ∧ 0 < sizeof_index_data ∧ 0 < (Z.of_nat (length nm) + 1) * c_size (chr ix) < 2 ^ 62 ∧
  o_node o mod alignof_index_data = 0 ∧ o_hdr o mod 8 = 0 ∧ o_value o mod t_align (o_type o) = 0.
Proof.
  intros Hok Ek. pose proof (o_bytes_range o Hok) as Hb. destruct Hok as ((Ht & k & Hk & Ea) & Hn & _ & H16 & Hal & Hnm).
  rewrite Ek in Hnm. rewrite Ea in *. pose proof (proj2 (chr_ok ix)) as Hcs. pose proof sl_sizeof as [Hsz _].
  pose proof (named_layout (chr ix) (o_bytes o) (o_code o) k (Z.of_nat (length nm)) (o_buf o)
    (chr_ok ix) ltac:(lia) Hk ltac:(lia) H16 Hal) as H. cbv zeta in H. fold (o_info o) in H.
  unfold o_value, o_hdr, o_total, o_node. rewrite Ek, Ea.
  destruct H as (H1 & H2 & H3 & H4 & H5 & H6 & H7 & H8 & H9 & H10). split_and!; try done; try lia; try nia.
Qed.

Lemma o_anonymous_parts o :
  obj_ok o → o_kind o = KAnonymous →
  o_buf o <= o_hdr o ∧ o_value o = o_hdr o + 8 ∧ o_value o + o_bytes o = o_buf o + o_total o ∧
  o_total o <= 2 ^ 62 ∧ o_hdr o mod 8 = 0 ∧ o_value o mod t_align (o_type o) = 0.
Proof.
  intros Hok Ek. pose proof (o_bytes_range o Hok) as Hb. destruct Hok as ((Ht & k & Hk & Ea) & Hn & _ & H16 & Hal & _).
  rewrite Ea in *. pose proof (anonymous_layout (o_bytes o) (o_code o) k (o_buf o) ltac:(lia) Hk H16 Hal) as H.
  cbv zeta in H. fold (o_info o) in H. unfold o_value, o_hdr, o_total. rewrite Ek, Ea.
  destruct H as (H1 & H2 & H3 & H4 & H5 & H6). split_and!; try done; lia.
Qed.

(** Every part lies in the buffer. *)
Lemma o_cells_range o x :
  obj_ok o → x ∈ o_cells o → o_buf o <= x.1.1 ∧ x.1.1 + x.1.2 <= o_buf o + o_total o ∧ 0 < x.1.2.
Proof.
  intros Hok Hx. pose proof Hok as ((Ht & _) & Hn & _). pose proof (o_bytes_range o Hok) as Hb.
  assert (Z.of_nat (Z.to_nat (o_num o)) * t_size (o_type o) = o_bytes o) as Eb by (unfold o_bytes; lia).
  unfold o_cells, o_head in Hx. apply elem_of_app in Hx as [[->|Hx]%elem_of_cons|Hx].
  - destruct (o_kind o) eqn:Ek; [pose proof (o_anonymous_parts o Hok Ek)|pose proof (o_named_parts o _ _ Hok Ek)];
      cbn; lia.
  - unfold name_cells in Hx. destruct (o_kind o) as [|ix nm] eqn:Ek; [by apply not_elem_of_nil in Hx|].
    pose proof (o_named_parts o _ _ Hok Ek).
    repeat (apply elem_of_cons in Hx as [->|Hx]; [cbn; lia|]). by apply not_elem_of_nil in Hx.
  - apply obj_cells_range in Hx as (H1 & H2 & H3); [|done].
    destruct (o_kind o) eqn:Ek; [pose proof (o_anonymous_parts o Hok Ek)|pose proof (o_named_parts o _ _ Hok Ek)]; lia.
Qed.

Lemma o_cells_keep o lo hi m m' :
  obj_ok o → keeps lo hi m m' → o_buf o + o_total o <= lo ∨ hi <= o_buf o →
  Forall (holds m) (o_cells o) → Forall (holds m') (o_cells o).
Proof.
  intros Hok Hk Ho H. rewrite Forall_forall in H |- *. intros x Hx.
  pose proof (o_cells_range o x Hok Hx). eapply holds_keep; [done|lia|lia|by apply H].
Qed.

End objects.

(** ** The invariant *)

Lemma implements_disjoint {St} {A : BlockAlgo St} {Ok : BlockAlgoOk St} (s : St) h :
  implements s h → heap_disjoint UsableByPreviousChunk h.
Proof.
  intros (bs & HR & _ & ->). destruct (rep_bounds _ _ HR) as (_ & _ & _ & Hm).
  pose proof ok_consts as (_ & _ & _ & HB & HU). apply heap_disjoint_blocks; [lia|].
  eapply min_pos; [|done]. lia.
Qed.

Lemma implements_pointer {St} {A : BlockAlgo St} {Ok : BlockAlgoOk St} (s : St) h p c :
  implements s h → h !! p = Some c → p mod 16 = 0 ∧ 0 < p.
Proof.
  intros (bs & HR & _ & ->) Hl. apply heap_lookup in Hl as (pre & n & post & -> & -> & _).
  destruct (rep_mid _ _ _ _ HR) as (Hal & Hb & Hp & _).
  pose proof (aligned_after_buffer (base s) (total pre) Hal) as Hx. apply Z.eqb_eq in Hx.
  split; [done|unfold after; lia].
Qed.

Section invariant.
Context {St T C : Type} {A : BlockAlgo St} {Ok : BlockAlgoOk St} {IX : Iset T C} {IXOk : IsetOk T C}.
Context {L : SmLayout} {LOk : SmLayoutOk} (CharT : char_type) (Hchr : char_ok CharT).

Notation mgr := (segmgr St T).
Notation chr := (char_of CharT).
Notation cells_of := (o_cells CharT).
Notation total_of := (o_total CharT).

(** The objects of the table [os], by the address of their values. *)
Record objs_ok (m : cells) (h : gmap Z Z) (os : gmap Z sobj) : Prop := {
  ob_obj p o : os !! p = Some o →
    p = o_value o ∧ obj_ok o ∧ Forall (holds m) (cells_of o) ∧
    ∃ c, h !! o_buf o = Some c ∧ total_of o <= c;
  ob_inj p q o o' : os !! p = Some o → os !! q = Some o' → o_buf o = o_buf o' → p = q
}.

(** The index [ix] holds the nodes of the objects with a name in it. *)
Definition index_ok (m : cells) (t : T) (ix : index_id) (os : gmap Z sobj) : Prop :=
  iset_ok (node_key (chr ix) m) t ∧
  ∀ x, x ∈ ix_elements t ↔ ∃ p o nm, os !! p = Some o ∧ o_kind o = KNamed ix nm ∧ x = o_node o.

Definition sm_inv (s : mgr) (h : gmap Z Z) (os : gmap Z sobj) : Prop :=
  implements (sm_algo s) h ∧ objs_ok (sm_cells s) h os ∧
  ∀ ix, index_ok (sm_cells s) (index_of ix s) ix os.

(** No object uses the memory from [lo] to [hi]. *)
Definition apart (lo hi : Z) (os : gmap Z sobj) : Prop :=
  ∀ p o, os !! p = Some o → o_buf o + total_of o <= lo ∨ hi <= o_buf o.

Lemma buffer_apart (s : St) m h os buf c :
  implements s h → objs_ok m h os → h !! buf = Some c →
  (∀ p o, os !! p = Some o → o_buf o ≠ buf) → apart buf (buf + c) os.
Proof.
  intros Hi Ho Hb Hne p o Hp. destruct (ob_obj _ _ _ Ho p o Hp) as (_ & _ & _ & c' & Hc' & Ht).
  pose proof ok_consts as (_ & _ & _ & _ & HU).
  pose proof (implements_disjoint s h Hi _ _ _ _ Hc' Hb (Hne p o Hp)). lia.
Qed.

Lemma objs_keep m m' h h' os lo hi :
  objs_ok m h os → keeps lo hi m m' → apart lo hi os →
  (∀ p o, os !! p = Some o → h' !! o_buf o = h !! o_buf o) → objs_ok m' h' os.
Proof.
  intros Ho Hk Ha Hh. split; [|by apply Ho]. intros p o Hp.
  destruct (ob_obj _ _ _ Ho p o Hp) as (E & Hok & Hc & c & Hc' & Ht). split_and!; [done|done| |].
  - apply (o_cells_keep CharT Hchr o lo hi m); [done|done|exact (Ha p o Hp)|done].
  - exists c. by rewrite (Hh p o Hp).
Qed.

Lemma keys_same m m' h h' os t ix x :
  objs_ok m h os → objs_ok m' h' os → index_ok m t ix os → x ∈ ix_elements t →
  node_key (chr ix) m' x = node_key (chr ix) m x.
Proof.
  intros Ho Ho' [_ Hn] (p & o & nm & Hp & Ek & ->)%Hn.
  destruct (ob_obj _ _ _ Ho p o Hp) as (_ & _ & Hc & _).
  destruct (ob_obj _ _ _ Ho' p o Hp) as (_ & _ & Hc' & _).
  by rewrite (o_key CharT o ix nm m), (o_key CharT o ix nm m').
Qed.

Lemma index_keep m m' h h' os t ix :
  objs_ok m h os → objs_ok m' h' os → index_ok m t ix os → index_ok m' t ix os.
Proof.
  intros Ho Ho' Hi. pose proof Hi as [Hs Hn]. split; [|done].
  eapply iset_ext; [|exact Hs]. intros x Hx. by eapply keys_same.
Qed.

(** Looking up a name. *)
Lemma index_lookup m h os t ix nm (r : option Z) :
  objs_ok m h os → index_ok m t ix os →
  match r with
  | Some x => x ∈ ix_elements t ∧ equivalent (node_key (chr ix) m x) nm
  | None => ∀ x, x ∈ ix_elements t → ¬ equivalent (node_key (chr ix) m x) nm
  end →
  match r with
  | Some x => ∃ p o, os !! p = Some o ∧ o_kind o = KNamed ix nm ∧ x = o_node o
  | None => ∀ p o, os !! p = Some o → o_kind o ≠ KNamed ix nm
  end.
Proof.
  intros Ho [_ Hn] Hr. destruct r as [x|].
  - destruct Hr as [(p & o & nm' & Hp & Ek & ->)%Hn Heq]. exists p, o. split_and!; [done| |done].
    destruct (ob_obj _ _ _ Ho p o Hp) as (_ & _ & Hc & _).
    rewrite (o_key CharT o ix nm' m) in Heq by done. apply equivalent_eq in Heq. by subst.
  - intros p o Hp Ek. apply (Hr (o_node o)); [apply Hn; by exists p, o, nm|].
    destruct (ob_obj _ _ _ Ho p o Hp) as (_ & _ & Hc & _).
    rewrite (o_key CharT o ix nm m) by done. by apply equivalent_eq.
Qed.

(** Names are unique. *)
Lemma name_unique m h os t ix nm p q o o' :
  objs_ok m h os → index_ok m t ix os → os !! p = Some o → os !! q = Some o' →
  o_kind o = KNamed ix nm → o_kind o' = KNamed ix nm → p = q.
Proof.
  intros Ho [Hs Hn] Hp Hq Ep Eq. destruct (ob_obj _ _ _ Ho p o Hp) as (-> & _ & Hc & _).
  destruct (ob_obj _ _ _ Ho q o' Hq) as (-> & _ & Hc' & _).
  assert (o_node o = o_node o') as E.
  { eapply iset_inj; [exact Hs|apply Hn; eauto 10|apply Hn; eauto 10|].
    by rewrite (o_key CharT o ix nm m), (o_key CharT o' ix nm m). }
  unfold o_value, o_hdr. by rewrite Ep, Eq, E.
Qed.
End invariant.
