(* ===== verification/SegMgrOps.v ===== *)
(** The segment manager: adding and removing objects, and the operations. *)

From stdpp Require Import sorting.
From S2P Require Import Prelude Blocks MathUtil MemAlgo MemAlgoSpec MemAlgoAlign.
From S2P Require Import SegMgrLayout SegMgr SegMgrInv.

Local Open Scope u64_scope.

Section ops.
Context {St T C : Type} {A : BlockAlgo St} {Ok : BlockAlgoOk St} {IX : Iset T C} {IXOk : IsetOk T C}.
Context {L : SmLayout} {LOk : SmLayoutOk} (CharT : char_type) (Hchr : char_ok CharT).

Notation mgr := (segmgr St T).
Notation chr := (char_of CharT).
Notation cells_of := (o_cells CharT).
Notation total_of := (o_total CharT).
Notation U := (@UsableByPreviousChunk St A).
Implicit Types (s : mgr) (os : gmap Z sobj).

(** ** Objects in the table *)

Lemma value_range o : obj_ok o → o_buf o + 8 <= o_value o ∧ o_value o + o_bytes o <= o_buf o + total_of o.
Proof.
  intros Hok. pose proof (o_bytes_range o Hok).
  destruct (o_kind o) eqn:Ek; [pose proof (o_anonymous_parts CharT o Hok Ek)|
    pose proof (o_named_parts CharT Hchr o _ _ Hok Ek)]; lia.
Qed.

(** The table has nothing in a fresh buffer. *)
Lemma fresh_apart (a : St) m h os o cap :
  objs_ok CharT m h os → obj_ok o → h !! o_buf o = None → implements a (<[o_buf o := cap]> h) → total_of o <= cap →
  apart CharT (o_buf o) (o_buf o + cap) os ∧ os !! o_value o = None.
Proof.
  intros Ho Hok Hb Hi Ht.
  assert (∀ p o', os !! p = Some o' → o_buf o' ≠ o_buf o) as Hne.
  { intros p o' Hp E. destruct (ob_obj _ _ _ _ Ho p o' Hp) as (_ & _ & _ & c & Hc' & _). congruence. }
  pose proof ok_consts as (_ & _ & _ & _ & HU). pose proof (value_range o Hok) as Hv.
  assert (apart CharT (o_buf o) (o_buf o + cap) os) as Hap.
  { intros p o' Hp. destruct (ob_obj _ _ _ _ Ho p o' Hp) as (_ & _ & _ & c & Hc & Ht').
    assert ((<[o_buf o := cap]> h) !! o_buf o' = Some c) as Hc' by (rewrite lookup_insert_ne; [done|]; intros E; by apply (Hne p o' Hp)).
    pose proof (implements_disjoint a _ Hi _ _ _ _ Hc' (lookup_insert_eq _ _ _) (Hne p o' Hp)). lia. }
  split; [done|]. destruct (os !! o_value o) as [o'|] eqn:E; [|done].
  destruct (ob_obj _ _ _ _ Ho _ o' E) as (E' & Hok' & _). pose proof (Hap _ _ E).
  pose proof (value_range o' Hok'). pose proof (o_bytes_range o Hok). pose proof (o_bytes_range o' Hok'). lia.
Qed.

(** A new object in a fresh buffer. *)
Lemma objs_add (a' : St) m m' h os o cap :
  objs_ok CharT m h os → obj_ok o → h !! o_buf o = None → implements a' (<[o_buf o := cap]> h) →
  total_of o <= cap → keeps (o_buf o) (o_buf o + cap) m m' → Forall (holds m') (cells_of o) →
  objs_ok CharT m' (<[o_buf o := cap]> h) (<[o_value o := o]> os) ∧
  objs_ok CharT m' (<[o_buf o := cap]> h) os ∧ os !! o_value o = None.
Proof.
  intros Ho Hok Hb Hi Ht Hk Hc.
  assert (∀ p o', os !! p = Some o' → o_buf o' ≠ o_buf o) as Hne.
  { intros p o' Hp E. destruct (ob_obj _ _ _ _ Ho p o' Hp) as (_ & _ & _ & c & Hc' & _). congruence. }
  assert (∀ p o', os !! p = Some o' → (<[o_buf o := cap]> h) !! o_buf o' = h !! o_buf o') as Hh.
  { intros p o' Hp. apply lookup_insert_ne. apply not_eq_sym. by eapply Hne. }
  destruct (fresh_apart a' m h os o cap) as [Hap Hnew]; try done.
  assert (objs_ok CharT m' (<[o_buf o := cap]> h) os) as Ho' by (by eapply (objs_keep CharT Hchr)).
  split_and!; [|done|done]. split.
  - intros p o' Hp. apply lookup_insert_Some in Hp as [[<- <-]|[_ Hp]]; [|by apply Ho'].
    split_and!; [done|done|done|]. exists cap. by rewrite lookup_insert_eq.
  - intros p q o1 o2 H1 H2 E. apply lookup_insert_Some in H1 as [[<- <-]|[_ H1]], H2 as [[<- <-]|[_ H2]].
    + done.
    + by destruct (Hne q o2 H2).
    + by destruct (Hne p o1 H1).
    + by eapply (ob_inj _ _ _ _ Ho).
Qed.

(** An object and its buffer are given back. *)
Lemma objs_remove (a : St) m m' h os p o :
  implements a h → objs_ok CharT m h os → os !! p = Some o → keeps (o_buf o) (o_buf o + total_of o) m m' →
  objs_ok CharT m' (delete (o_buf o) h) (delete p os).
Proof.
  intros Hi Ho Hp Hk.
  assert (∀ q o', delete p os !! q = Some o' → os !! q = Some o' ∧ o_buf o' ≠ o_buf o) as Hd.
  { intros q o' [Hne Hq]%lookup_delete_Some. split; [done|]. intros E. destruct Hne.
    eapply (ob_inj _ _ _ _ Ho); [exact Hp|exact Hq|congruence]. }
  assert (objs_ok CharT m h (delete p os)) as Ho1.
  { split.
    - intros q o' [Hq _]%Hd. by apply Ho.
    - intros q1 q2 o1 o2 [H1 _]%Hd [H2 _]%Hd. by eapply (ob_inj _ _ _ _ Ho). }
  destruct (ob_obj _ _ _ _ Ho p o Hp) as (_ & Hok & _ & c & Hc & Ht).
  eapply (objs_keep CharT Hchr); [exact Ho1|exact Hk|..].
  - intros q o' Hq. pose proof (Hd _ _ Hq) as [Hq' Hne].
    destruct (ob_obj _ _ _ _ Ho q o' Hq') as (_ & _ & _ & c' & Hc' & Ht').
    pose proof (implements_disjoint a h Hi _ _ _ _ Hc' Hc Hne).
    pose proof ok_consts as (_ & _ & _ & _ & HU). lia.
  - intros q o' [_ Hne]%Hd. by apply lookup_delete_ne, not_eq_sym.
Qed.

(** ** The indexes *)

Lemma index_add_other m t ix os o :
  index_ok CharT m t ix os → (∀ nm, o_kind o ≠ KNamed ix nm) → os !! o_value o = None →
  index_ok CharT m t ix (<[o_value o := o]> os).
Proof.
  intros [Hs Hn] Hk Hnew. split; [done|]. intros x. rewrite Hn. split.
  - intros (p & o' & nm & Hp & E & ->). exists p, o', nm. split_and!; [|done|done].
    rewrite lookup_insert_ne; [done|]. congruence.
  - intros (p & o' & nm & Hp & E & ->). exists p, o', nm. split_and!; [|done|done].
    apply lookup_insert_Some in Hp as [[_ <-]|[_ Hp]]; [by destruct (Hk nm)|done].
Qed.

Lemma node_new m h os t ix o nm :
  objs_ok CharT m h os → index_ok CharT m t ix os → o_kind o = KNamed ix nm → os !! o_value o = None →
  o_node o ∉ ix_elements t.
Proof.
  intros Ho [_ Hn] Ek Hnew (p & o' & nm' & Hp & Ek' & E)%Hn.
  destruct (ob_obj _ _ _ _ Ho p o' Hp) as (E' & _).
  assert (o_value o = o_value o') as E2 by (unfold o_value, o_hdr; by rewrite Ek, Ek', E). congruence.
Qed.

Lemma index_commit m m' h h' t ix os o nm c :
  objs_ok CharT m h os → objs_ok CharT m' h' os → index_ok CharT m t ix os →
  o_kind o = KNamed ix nm → os !! o_value o = None →
  node_key (chr ix) m' (o_node o) = nm →
  ix_insert_check (node_key (chr ix) m) nm t = (None, c) →
  ix_elements (ix_insert_commit (o_node o) c t) ≡ₚ o_node o :: ix_elements t ∧
  iset_ok (node_key (chr ix) m') (ix_insert_commit (o_node o) c t).
Proof.
  intros Ho Ho' Hi Ek Hnew Hkey Hchk. eapply insert_commit_ok; [by apply Hi|exact Hchk| | |].
  - intros y Hy. eapply keys_same; [exact Ho|exact Ho'|exact Hi|exact Hy].
  - by apply equivalent_eq.
  - exact (node_new m h os t ix o nm Ho Hi Ek Hnew).
Qed.

Lemma index_add m m' h h' t ix os o nm c :
  objs_ok CharT m h os → objs_ok CharT m' h' os → index_ok CharT m t ix os →
  o_kind o = KNamed ix nm → os !! o_value o = None → Forall (holds m') (cells_of o) →
  ix_insert_check (node_key (chr ix) m) nm t = (None, c) →
  index_ok CharT m' (ix_insert_commit (o_node o) c t) ix (<[o_value o := o]> os).
Proof.
  intros Ho Ho' Hi Ek Hnew Hc Hchk.
  destruct (index_commit m m' h h' t ix os o nm c) as [Hp Hs]; try done; [by apply o_key|].
  split; [done|]. intros x. rewrite Hp, elem_of_cons, (proj2 Hi). split.
  - intros [->|(p & o' & nm' & Hp' & E & ->)].
    + exists (o_value o), o, nm. by rewrite lookup_insert_eq.
    + exists p, o', nm'. rewrite lookup_insert_ne by congruence. done.
  - intros (p & o' & nm' & Hp' & E & ->). apply lookup_insert_Some in Hp' as [[_ <-]|[_ Hp']]; [by left|right].
    eauto 10.
Qed.

(** A committed node that is erased again leaves the index as it was. *)
Lemma index_undo m m' h h' t ix os o nm c :
  objs_ok CharT m h os → objs_ok CharT m' h' os → index_ok CharT m t ix os →
  o_kind o = KNamed ix nm → os !! o_value o = None → node_key (chr ix) m' (o_node o) = nm →
  ix_insert_check (node_key (chr ix) m) nm t = (None, c) →
  index_ok CharT m' (ix_erase (o_node o) (ix_insert_commit (o_node o) c t)) ix os.
Proof.
  intros Ho Ho' Hi Ek Hnew Hkey Hchk.
  destruct (index_commit m m' h h' t ix os o nm c) as [Hp Hs]; try done.
  assert (o_node o ∈ ix_elements (ix_insert_commit (o_node o) c t)) as Hin by (rewrite Hp; by left).
  pose proof (erase_ok _ _ Hin) as E. split; [by eapply iset_filter|].
  intros x. rewrite E, list_elem_of_filter, Hp, elem_of_cons, <- (proj2 Hi).
  pose proof (node_new m h os t ix o nm Ho Hi Ek Hnew). split; [naive_solver|].
  intros Hx. split; [|by right]. by intros ->.
Qed.

Lemma index_remove m m' h h' t ix os p o nm :
  objs_ok CharT m h os → objs_ok CharT m' h' (delete p os) → index_ok CharT m t ix os →
  os !! p = Some o → o_kind o = KNamed ix nm →
  index_ok CharT m' (ix_erase (o_node o) t) ix (delete p os).
Proof.
  intros Ho Ho' Hi Hp Ek. pose proof Hi as [Hs Hn].
  assert (o_node o ∈ ix_elements t) as Hin by (apply Hn; eauto 10).
  pose proof (erase_ok _ _ Hin) as E.
  assert (∀ x, x ∈ ix_elements (ix_erase (o_node o) t) ↔
    ∃ q o' nm', delete p os !! q = Some o' ∧ o_kind o' = KNamed ix nm' ∧ x = o_node o') as Hn'.
  { intros x. rewrite E, list_elem_of_filter, Hn. split.
    - intros [Hne (q & o' & nm' & Hq & E' & ->)]. exists q, o', nm'. split_and!; [|done|done].
      rewrite lookup_delete_ne; [done|]. congruence.
    - intros (q & o' & nm' & [Hne Hq]%lookup_delete_Some & E' & ->). split; [|eauto 10].
      intros E2. apply Hne. destruct (ob_obj _ _ _ _ Ho p o Hp) as (-> & _).
      destruct (ob_obj _ _ _ _ Ho q o' Hq) as (-> & _). unfold o_value, o_hdr. by rewrite Ek, E', E2. }
  split; [|exact Hn']. eapply iset_ext; [|by eapply iset_filter].
  intros x Hx. apply Hn' in Hx as (q & o' & nm' & Hq & E' & ->).
  destruct (ob_obj _ _ _ _ Ho' q o' Hq) as (_ & _ & Hc' & _). apply lookup_delete_Some in Hq as [_ Hq].
  destruct (ob_obj _ _ _ _ Ho q o' Hq) as (_ & _ & Hc & _).
  by rewrite (o_key CharT o' ix nm' m), (o_key CharT o' ix nm' m').
Qed.

Lemma index_remove_other m m' h h' t ix os p o :
  objs_ok CharT m h os → objs_ok CharT m' h' (delete p os) → index_ok CharT m t ix os →
  os !! p = Some o → (∀ nm, o_kind o ≠ KNamed ix nm) →
  index_ok CharT m' t ix (delete p os).
Proof.
  intros Ho Ho' [Hs Hn] Hp Ek.
  assert (∀ x, x ∈ ix_elements t ↔
    ∃ q o' nm', delete p os !! q = Some o' ∧ o_kind o' = KNamed ix nm' ∧ x = o_node o') as Hn'.
  { intros x. rewrite Hn. split.
    - intros (q & o' & nm' & Hq & E' & ->). exists q, o', nm'. split_and!; [|done|done].
      rewrite lookup_delete_ne; [done|]. intros <-. assert (o' = o) as -> by congruence. by destruct (Ek nm').
    - intros (q & o' & nm' & [Hne Hq]%lookup_delete_Some & E' & ->). eauto 10. }
  split; [|exact Hn']. eapply iset_ext; [|exact Hs].
  intros x Hx. apply Hn' in Hx as (q & o' & nm' & Hq & E' & ->).
  destruct (ob_obj _ _ _ _ Ho' q o' Hq) as (_ & _ & Hc' & _). apply lookup_delete_Some in Hq as [_ Hq].
  destruct (ob_obj _ _ _ _ Ho q o' Hq) as (_ & _ & Hc & _).
  by rewrite (o_key CharT o' ix nm' m), (o_key CharT o' ix nm' m').
Qed.
End ops.
