(* ===== verification/SegMgrConstruct.v ===== *)
(** The segment manager: construction of objects.

    Every branch of the construction of anonymous, named and unique objects is
    proved here: success, a name that exists, no memory, and a constructor that
    throws after some elements have been constructed. *)

From stdpp Require Import sorting.
From S2P Require Import Prelude Blocks MathUtil MemAlgo MemAlgoSpec MemAlgoAlign.
From S2P Require Import SegMgrLayout SegMgr SegMgrInv SegMgrOps.

Local Open Scope u64_scope.

(** ** Running the operations of the memory algorithm *)

Lemma wp_lift {St T X} (m : M St X) (s : segmgr St T) Q :
  wp m (sm_algo s) (λ x a, Q x (SegMgr a (sm_cells s) (m_named_index s) (m_unique_index s))) → wp (lift m) s Q.
Proof. unfold wp, lift. by destruct (m (sm_algo s)) as [[x a]|]. Qed.

Lemma wp_aligned {St T} p al (s : segmgr St T) (Q : () → segmgr St T → Prop) :
  p mod al = 0 → Q () s → wp (assert_ptr_aligned p al) s Q.
Proof. intros H HQ. apply wp_assert; [|done]. unfold is_ptr_aligned. by rewrite H. Qed.

Lemma wp_ld_header {St T} a l hd (s : segmgr St T) (Q : block_header → segmgr St T → Prop) :
  sm_cells s !! a = Some (l, DHeader hd) → Q hd s → wp (ld_header a) s Q.
Proof. intros H HQ. unfold wp, ld_header. by rewrite H. Qed.

(** ** Arrays of objects *)

Section arrays.
Context {St T : Type}.
Notation mgr := (segmgr St T).
Implicit Types s : mgr.

Lemma destroy_loop_ok t n a s :
  0 < t_size t → Forall (holds (sm_cells s)) (obj_cells (t_size t) n a) →
  wp (destroy_loop t n a) s (λ _ s', s' = set_cells (forget_objs (t_size t) n a) s).
Proof.
  intros Ht. revert a s. induction n as [|n IH]; intros a s Hc; cbn [destroy_loop].
  - wp_step. by destruct s.
  - apply Forall_cons in Hc as [Hx Hc]. unfold holds in Hx. cbn [fst snd] in Hx.
    wp_step. wp_step. rewrite Hx. wp_step. unfold forget_cell. wp_step.
    eapply wp_mono; [apply IH|by intros [] s' ->].
    rewrite Forall_forall in Hc |- *. intros x Hin. pose proof (obj_cells_range _ _ _ _ Ht Hin) as (H1 & H2 & H3).
    cbn [set_cells sm_cells]. unfold holds. rewrite lookup_delete_ne by lia. by apply Hc.
Qed.

Lemma construct_loop_ok t throws n a i s :
  wp (construct_loop t throws n a i) s (λ r s',
    match r with
    | None => (∀ j, i <= j < i + Z.of_nat n → throws j = false) ∧ s' = set_cells (write_objs (t_size t) n a) s
    | Some j => ∃ k, (k < n)%nat ∧ j = i + Z.of_nat k ∧ throws j = true ∧
        s' = set_cells (write_objs (t_size t) k a) s
    end).
Proof.
  revert a i s. induction n as [|n IH]; intros a i s; cbn [construct_loop].
  - wp_step. split; [lia|by destruct s].
  - destruct (throws i) eqn:Et.
    + wp_step. exists 0%nat. split_and!; [lia|lia|done|by destruct s].
    + wp_step. unfold st_cell. wp_step. eapply wp_mono; [apply IH|].
      intros [j|] s'.
      * intros (k & Hk & -> & Hj & ->). exists (S k). split_and!; [lia|lia| |done].
        replace (i + Z.of_nat (S k)) with (i + 1 + Z.of_nat k) by lia. done.
      * intros [Hj ->]. split; [|done]. intros j Hr. destruct (decide (j = i)) as [->|]; [done|]. apply Hj. lia.
Qed.

(** All the elements are constructed, or none is left. *)
Lemma construct_n_ok t throws a num s :
  0 < t_size t → 0 <= num →
  wp (construct_n t throws a num) s (λ (ok : bool) s',
    if ok then (∀ i, 0 <= i < num → throws i = false) ∧
      s' = set_cells (write_objs (t_size t) (Z.to_nat num) a) s
    else (∃ i, 0 <= i < num ∧ throws i = true) ∧ ∃ m', s' = set_cells (λ _, m') s ∧
      keeps a (a + t_size t * num) (sm_cells s) m').
Proof.
  intros Ht Hn. unfold construct_n. wp_step. eapply wp_mono; [apply construct_loop_ok|].
  intros [j|] s'.
  - intros (k & Hk & -> & Hj & ->). wp_step. unfold priv_destroy_n.
    replace (Z.to_nat (0 + Z.of_nat k)) with k by lia.
    eapply wp_mono; [apply destroy_loop_ok; [done|]; by apply write_objs_holds|].
    intros [] s' ->. wp_step. split; [exists (Z.of_nat k); split; [lia|done]|]. eexists. split; [reflexivity|].
    cbn [set_cells sm_cells]. eapply keeps_weaken; [reflexivity| |etrans; [by apply write_objs_keeps|by apply forget_objs_keeps]].
    nia.
  - intros [Hj ->]. wp_step. split; [|done]. intros i Hi. apply Hj. lia.
Qed.
End arrays.

Section construct.
Context {St T C : Type} {A : BlockAlgo St} {Ok : BlockAlgoOk St} {IX : Iset T C} {IXOk : IsetOk T C}.
Context {L : SmLayout} {LOk : SmLayoutOk} (CharT : char_type) (Hchr : char_ok CharT).

Notation mgr := (segmgr St T).
Notation chr := (char_of CharT).
Notation cells_of := (o_cells CharT).
Notation total_of := (o_total CharT).
Notation inv := (sm_inv CharT).
Implicit Types (s : mgr) (os : gmap Z sobj).

(** ** The state *)

Lemma algo_set_index ix (t : T) s : sm_algo (set_index ix t s) = sm_algo s.
Proof. by destruct ix. Qed.
Lemma cells_set_index ix (t : T) s : sm_cells (set_index ix t s) = sm_cells s.
Proof. by destruct ix. Qed.
Lemma index_set_same ix (t : T) s : index_of ix (set_index ix t s) = t.
Proof. by destruct ix. Qed.
Lemma index_set_other ix ix' (t : T) s : ix' ≠ ix → index_of ix' (set_index ix t s) = index_of ix' s.
Proof. by destruct ix, ix'. Qed.
Lemma index_set_cells ix f s : index_of ix (set_cells f s) = index_of ix s.
Proof. by destruct ix. Qed.

(** ** The header, the name and the values of an object *)

Lemma block_info_val o :
  obj_ok o → make_block_header (t_size (o_type o) *! o_num o) (o_code o) = o_info o.
Proof.
  intros Hok. pose proof (o_bytes_range o Hok) as Hb. unfold make_block_header, o_info, o_bytes in *.
  rewrite (u64_small (_ * _)) by (unfold in_u64; lia). f_equal.
  - unfold o_code, anonymous_type, type_code, named_type, unique_type. by destruct (o_kind o) as [|[] nm].
  - change (u64_max / 4) with (Z.ones 62). rewrite Z.land_ones by done. apply Z.mod_small. lia.
Qed.

Definition head_writes (ix : index_id) (nm : name) (o : sobj) (m : cells) : cells :=
  let chars := c_align (chr ix) in
  let m1 := write (o_hdr o) 8 (DHeader (o_info o)) m in
  let m2 := write (o_hdr o + name_length_offset (o_info o)) 2 (DNameLength (Z.of_nat (length nm))) m1 in
  let m3 := write (o_hdr o + name_offset chars (o_info o))
                  ((Z.of_nat (length nm) + 1) * c_size (chr ix)) (DName nm) m2 in
  write (o_node o) sizeof_index_data DNode m3.

Lemma head_writes_ok o ix nm m :
  obj_ok o → o_kind o = KNamed ix nm →
  Forall (holds (head_writes ix nm o m)) (o_head CharT o) ∧
  keeps (o_buf o) (o_buf o + total_of o) m (head_writes ix nm o m).
Proof.
  intros Hok Ek. pose proof (o_bytes_range o Hok) as Hb. pose proof (o_named_parts CharT Hchr o ix nm Hok Ek) as Hp.
  split.
  - unfold o_head, name_cells. rewrite Ek. unfold head_writes.
    repeat apply Forall_cons_2; [| | | |constructor];
      repeat first [apply write_here | apply holds_write; [|cbn [fst snd]; lia..]].
  - unfold head_writes. do 3 (etrans; [|apply write_keeps; lia]). apply write_keeps; lia.
Qed.

(** The values come after the headers and before the name. *)
Lemma values_ok o m :
  obj_ok o → Forall (holds m) (o_head CharT o) →
  Forall (holds (write_objs (t_size (o_type o)) (Z.to_nat (o_num o)) (o_value o) m)) (cells_of o) ∧
  keeps (o_buf o) (o_buf o + total_of o) m
        (write_objs (t_size (o_type o)) (Z.to_nat (o_num o)) (o_value o) m).
Proof.
  intros Hok Hh. pose proof Hok as ((Ht & _) & Hn & _). pose proof (o_bytes_range o Hok) as Hb.
  pose proof (value_range CharT Hchr o Hok) as Hv.
  assert (Z.of_nat (Z.to_nat (o_num o)) * t_size (o_type o) = o_bytes o) as Eb by (unfold o_bytes; lia).
  pose proof (write_objs_keeps (t_size (o_type o)) (Z.to_nat (o_num o)) (o_value o) m Ht) as Hk. rewrite Eb in Hk.
  split; [|eapply keeps_weaken; [..|exact Hk]; lia].
  apply o_cells_split. split; [|by apply write_objs_holds].
  rewrite Forall_forall in Hh |- *. intros x Hx. eapply holds_keep; [exact Hk| | |by apply Hh].
  - eapply (o_cells_range CharT Hchr o); [done|]. apply elem_of_app. by left.
  - unfold o_head, name_cells in Hx. apply elem_of_cons in Hx as [->|Hx].
    + destruct (o_kind o) eqn:Ek; [pose proof (o_anonymous_parts CharT o Hok Ek)|
        pose proof (o_named_parts CharT Hchr o _ _ Hok Ek)]; cbn; lia.
    + destruct (o_kind o) as [|ix nm] eqn:Ek; [by apply not_elem_of_nil in Hx|].
      pose proof (o_named_parts CharT Hchr o _ _ Hok Ek).
      repeat (apply elem_of_cons in Hx as [->|Hx]; [cbn; lia|]). by apply not_elem_of_nil in Hx.
Qed.

(** ** Named objects *)

(** The object is in the table: the memory and the index hold it. *)
Lemma inv_add_named s s' h os o ix nm c cap :
  obj_ok o → o_kind o = KNamed ix nm → h !! o_buf o = None → total_of o <= cap →
  implements (sm_algo s') (<[o_buf o := cap]> h) → objs_ok CharT (sm_cells s) h os →
  (∀ ix, index_ok CharT (sm_cells s) (index_of ix s) ix os) →
  ix_insert_check (key CharT ix s) nm (index_of ix s) = (None, c) →
  keeps (o_buf o) (o_buf o + cap) (sm_cells s) (sm_cells s') → Forall (holds (sm_cells s')) (cells_of o) →
  index_of ix s' = ix_insert_commit (o_node o) c (index_of ix s) →
  (∀ ix', ix' ≠ ix → index_of ix' s' = index_of ix' s) →
  inv s' (<[o_buf o := cap]> h) (<[o_value o := o]> os).
Proof.
  intros Hok Ek Hb Ht Hi Ho Hix Hchk Hk Hc E1 E2.
  destruct (objs_add CharT Hchr (sm_algo s') (sm_cells s) (sm_cells s') h os o cap) as (Ha & Ho' & Hnew); try done.
  split_and!; [done|done|]. intros ix'. destruct (decide (ix' = ix)) as [->|Hne].
  - rewrite E1. eapply index_add; [exact Ho|exact Ho'|by apply Hix|done..].
  - rewrite (E2 ix' Hne). apply index_add_other; [|congruence|done].
    eapply index_keep; [exact Ho|exact Ho'|by apply Hix].
Qed.

(** The buffer is given back and the node erased: the table is as it was. *)
Lemma inv_undo_named s s' m1 h os o ix nm c :
  o_kind o = KNamed ix nm → os !! o_value o = None → Forall (holds m1) (o_head CharT o) →
  implements (sm_algo s') h → objs_ok CharT (sm_cells s) h os →
  objs_ok CharT m1 h os → objs_ok CharT (sm_cells s') h os →
  (∀ ix, index_ok CharT (sm_cells s) (index_of ix s) ix os) →
  ix_insert_check (key CharT ix s) nm (index_of ix s) = (None, c) →
  index_of ix s' = ix_erase (o_node o) (ix_insert_commit (o_node o) c (index_of ix s)) →
  (∀ ix', ix' ≠ ix → index_of ix' s' = index_of ix' s) →
  inv s' h os.
Proof.
  intros Ek Hnew Hh Hi Ho Ho1 Ho2 Hix Hchk E1 E2. split_and!; [done|done|].
  intros ix'. destruct (decide (ix' = ix)) as [->|Hne].
  - rewrite E1. eapply index_keep; [exact Ho1|exact Ho2|].
    eapply index_undo; [exact Ho|exact Ho1|by apply Hix|done|done| |done]. by apply o_head_key.
  - rewrite (E2 ix' Hne). eapply index_keep; [exact Ho|exact Ho2|by apply Hix].
Qed.

Lemma base_deallocate_ok s h p c (Q : () → mgr → Prop) :
  implements (sm_algo s) h → h !! p = Some c →
  (∀ a, implements a (delete p h) → Q () (SegMgr a (sm_cells s) (m_named_index s) (m_unique_index s))) →
  wp (base_deallocate p) s Q.
Proof.
  intros Hi Hp HQ. unfold base_deallocate. pose proof (heap_nonnull _ _ _ _ Hi Hp).
  destruct (Z.eqb_spec p 0); [done|]. apply wp_lift.
  eapply wp_mono; [by eapply implements_dealloc|]. intros [] a [Ha _]. by apply HQ.
Qed.

Lemma named_construct_in_ok s h os o ix nm c cap throws :
  obj_ok o → o_kind o = KNamed ix nm → h !! o_buf o = None → total_of o <= cap →
  implements (sm_algo s) (<[o_buf o := cap]> h) → objs_ok CharT (sm_cells s) h os →
  (∀ ix, index_ok CharT (sm_cells s) (index_of ix s) ix os) →
  ix_insert_check (key CharT ix s) nm (index_of ix s) = (None, c) →
  wp (named_construct_in CharT (o_type o) throws ix nm (o_num o) (o_info o) c (o_buf o)) s (λ r s',
    (r = Val (o_value o) ∧ (∀ i, 0 <= i < o_num o → throws i = false) ∧
     inv s' (<[o_buf o := cap]> h) (<[o_value o := o]> os)) ∨
    (r = Exc UserException ∧ (∃ i, 0 <= i < o_num o ∧ throws i = true) ∧ inv s' h os)).
Proof.
  intros Hok Ek Hb Ht Hi Ho Hix Hchk.
  pose proof Hok as ((Hts & _) & Hnum & _ & _ & _ & Hnm). rewrite Ek in Hnm.
  pose proof (o_named_parts CharT Hchr o ix nm Hok Ek) as Hp. pose proof (o_bytes_range o Hok) as Hby.
  assert (from_header (o_node o) = o_hdr o) as Eh by (unfold o_hdr; by rewrite Ek).
  assert (in_u64 (Z.of_nat (length nm) + 1)) by (unfold in_u64; lia).
  unfold named_construct_in, from_first_header. cbv zeta. fold (o_node o).
  rewrite Eh, (u64_small (_ + 1)), (u64_small (_ * _)), Z.mod_small by (done || unfold in_u64; lia).
  wp_step. wp_step. apply wp_aligned; [tauto|]. wp_step. apply wp_aligned; [tauto|]. wp_step. wp_step.
  apply wp_aligned; [tauto|]. unfold st_cell. do 8 wp_step. wp_step.
  apply wp_aligned; [tauto|]. wp_step. wp_step.
  pose (s1 := set_index ix (ix_insert_commit (o_node o) c (index_of ix s)) (set_cells (head_writes ix nm o) s)).
  match goal with |- wp _ ?x _ => replace x with s1 by (by destruct ix) end.
  destruct (head_writes_ok o ix nm (sm_cells s) Hok Ek) as [Hh Hk1].
  assert (sm_cells s1 = head_writes ix nm o (sm_cells s)) as Ec by (by destruct ix). rewrite <- Ec in Hh, Hk1.
  assert (keeps (o_buf o) (o_buf o + cap) (sm_cells s) (sm_cells s1)) as Hk1'
    by (eapply keeps_weaken; [..|exact Hk1]; lia).
  wp_step. eapply wp_mono; [by apply construct_n_ok|]. intros [] s2; cbn [negb].
  - intros [Hthr ->]. destruct (values_ok o (sm_cells s1) Hok Hh) as [Hc Hk2].
    wp_step. apply wp_aligned; [apply Hp|]. wp_step. left. split_and!; [done|done|].
    eapply (inv_add_named s); try done.
    + by destruct ix.
    + cbn [set_cells sm_cells]. etrans; [exact Hk1'|]. eapply keeps_weaken; [..|exact Hk2]; lia.
    + by destruct ix.
    + intros ix' Hne. by destruct ix, ix'.
  - intros (Hthr & m2 & -> & Hk2). wp_step. wp_step. wp_step.
    destruct (fresh_apart CharT Hchr (sm_algo s) (sm_cells s) h os o cap) as [Hap Hnew]; try done.
    assert (keeps (o_buf o) (o_buf o + cap) (sm_cells s) m2) as Hk3.
    { etrans; [exact Hk1'|]. fold (o_value o) in Hk2. eapply keeps_weaken; [..|exact Hk2]; unfold o_bytes in *; lia. }
    eapply base_deallocate_ok; [by destruct ix|apply lookup_insert_eq|]. rewrite delete_insert_id by done.
    intros a Ha. wp_step. right. split_and!; [done|done|].
    eapply (inv_undo_named s _ (sm_cells s1)); try done.
    + eapply (objs_keep CharT Hchr); [exact Ho|exact Hk1'|done|done].
    + rewrite cells_set_index. eapply (objs_keep CharT Hchr); [exact Ho|exact Hk3|done|done].
    + by destruct ix.
    + intros ix' Hne. by destruct ix, ix'.
Qed.
(** ** The outcomes of a construction *)

Section outcomes.
Context (alloc : allocate_fn St) {AOk : AllocateOk alloc}.

Definition absent (k : okind) os : Prop :=
  match k with KAnonymous => True | KNamed ix nm => ∀ p o, os !! p = Some o → o_kind o ≠ KNamed ix nm end.

(** The memory algorithm has no buffer for the object. *)
Definition no_memory (t : obj_type) (num : Z) (k : okind) s : Prop :=
  allocate_aligned alloc (total_of (SObj t num k 0)) (t_align t) (sm_algo s) = Ret (0, sm_algo s).

(** What [construct] and its variants may return for the table [os], and the
    state they leave. *)
Inductive constructed (t : obj_type) (throws : Z → bool) (k : okind) (num : Z) (find dothrow : bool)
    s (h : gmap Z Z) os : res Z → mgr → Prop :=
  | c_found p o ix nm : k = KNamed ix nm → os !! p = Some o → o_kind o = k → find = true →
      constructed t throws k num find dothrow s h os (Val p) s
  | c_exists p o ix nm : k = KNamed ix nm → os !! p = Some o → o_kind o = k → find = false →
      constructed t throws k num find dothrow s h os (if dothrow then Exc AlreadyExists else Val 0) s
  | c_no_memory : absent k os → no_memory t num k s →
      constructed t throws k num find dothrow s h os (if dothrow then Exc BadAlloc else Val 0) s
  | c_throws i s' : absent k os → 0 <= i < num → throws i = true → inv s' h os →
      constructed t throws k num find dothrow s h os (Exc UserException) s'
  | c_new buf cap s' : absent k os → (∀ i, 0 <= i < num → throws i = false) →
      h !! buf = None → buf mod t_align t = 0 →
      let o := SObj t num k buf in
      total_of o <= cap → os !! o_value o = None → inv s' (<[buf := cap]> h) (<[o_value o := o]> os) →
      constructed t throws k num find dothrow s h os (Val (o_value o)) s'.

(** What the operations ask of their arguments. *)
Definition request_ok (t : obj_type) (num : Z) (k : okind) : Prop :=
  type_ok t ∧ 0 <= num ∧ t_size t * num <= 2 ^ 61 ∧
  match k with KAnonymous => True | KNamed _ nm => Z.of_nat (length nm) < 65536 end.

Lemma request_obj t num k buf :
  request_ok t num k → buf mod 16 = 0 → buf mod t_align t = 0 → obj_ok (SObj t num k buf).
Proof. intros (H1 & H2 & H3 & H4) H5 H6. done. Qed.

Lemma total_range o : obj_ok o → 0 <= total_of o <= 2 ^ 62.
Proof.
  intros Hok. pose proof (value_range CharT Hchr o Hok). pose proof (o_bytes_range o Hok).
  destruct (o_kind o) eqn:Ek; [pose proof (o_anonymous_parts CharT o Hok Ek)|
    pose proof (o_named_parts CharT Hchr o _ _ Hok Ek)]; lia.
Qed.

(** The buffer of a new object. *)
Lemma object_buffer t num k s h (Q : Z → mgr → Prop) :
  implements (sm_algo s) h → request_ok t num k →
  (no_memory t num k s → Q 0 s) →
  (∀ buf cap a, let o := SObj t num k buf in obj_ok o → buf ≠ 0 → h !! buf = None → total_of o <= cap →
     implements a (<[buf := cap]> h) → Q buf (SegMgr a (sm_cells s) (m_named_index s) (m_unique_index s))) →
  wp (base_allocate_aligned_nothrow alloc (total_of (SObj t num k 0)) (t_align t)) s Q.
Proof.
  intros Hi Hr H0 H1. pose proof Hr as ((Hts & j & Hj & Ea) & _).
  assert (obj_ok (SObj t num k 0)) as Hok by (apply request_obj; [done|done|by apply Z.mod_0_l; rewrite Ea; lia]).
  assert (wp (allocate_aligned alloc (total_of (SObj t num k 0)) (t_align t)) (sm_algo s) (λ p a,
    (p = 0 ∧ a = sm_algo s) ∨ (h !! p = None ∧ p mod t_align t = 0 ∧ p ≠ 0 ∧ frame (sm_algo s) a ∧
     ∃ c, total_of (SObj t num k 0) <= c ∧ implements a (<[p := c]> h)))) as Hwp.
  { rewrite Ea. apply (allocate_aligned_ok alloc); [exact Hi|by apply total_range|lia]. }
  apply wp_run in Hwp as (p & a & Erun & Hpost). unfold base_allocate_aligned_nothrow, wp, lift. rewrite Erun.
  destruct Hpost as [[-> ->]|(Hp & Hal & Hnz & _ & c & Hc & Hi')].
  - replace (SegMgr _ _ _ _) with s by (by destruct s). by apply H0.
  - destruct (implements_pointer _ _ _ _ Hi' (lookup_insert_eq _ _ _)) as [H16 _].
    eapply H1; try done. by apply request_obj.
Qed.

Lemma named_construct_ok t throws ix nm num find dothrow s h os :
  inv s h os → request_ok t num (KNamed ix nm) →
  wp (priv_generic_named_construct alloc CharT t throws (type_code ix) ix nm num find dothrow) s
     (constructed t throws (KNamed ix nm) num find dothrow s h os).
Proof.
  intros (Hi & Ho & Hix) Hr. unfold priv_generic_named_construct. cbv zeta. wp_step. wp_step.
  pose proof (insert_check_ok (key CharT ix s) nm (index_of ix s) (proj1 (Hix ix))) as Hchk.
  apply (index_lookup CharT (sm_cells s) h os) in Hchk; [|done|by apply Hix].
  destruct (ix_insert_check _ _ _) as [[it|] c] eqn:Ec; cbn [fst] in Hchk.
  - destruct Hchk as (p & o & Hp & Ek & ->). destruct find.
    + destruct (ob_obj _ _ _ _ Ho p o Hp) as (Ep & Hok & _ & _).
      pose proof (o_named_parts CharT Hchr o ix nm Hok Ek) as Hpt.
      assert (from_header (o_node o) = o_hdr o) as Eh by (unfold o_hdr; by rewrite Ek).
      unfold from_first_header. cbv zeta. rewrite Eh. wp_step. wp_step. apply wp_aligned; [apply Hpt|].
      wp_step. apply wp_aligned; [apply Hpt|]. wp_step. wp_step. fold (o_value o). rewrite <- Ep. by eapply c_found.
    + apply wp_ret. by eapply c_exists.
  - assert (make_block_header (t_size t *! num) (type_code ix) = o_info (SObj t num (KNamed ix nm) 0)) as ->.
    { apply (block_info_val (SObj t num (KNamed ix nm) 0)), request_obj; [done|done|].
      destruct Hr as ((_ & j & Hj & ->) & _). apply Z.mod_0_l. lia. }
    wp_step. apply (object_buffer t num (KNamed ix nm) s h); [done|done|..].
    + intros Hno. apply wp_ret. by apply c_no_memory.
    + intros buf cap a o Hok Hnz Hb Ht Ha. destruct (Z.eqb_spec buf 0); [done|].
      destruct (fresh_apart CharT Hchr a (sm_cells s) h os o cap) as [_ Hnew]; try done.
      eapply wp_mono; [apply (named_construct_in_ok _ h os o ix nm c cap); try done|].
      intros r s' [(-> & Hth & Hinv)|(-> & (i & Hn & Hth) & Hinv)]; [|by eapply c_throws].
      eapply (c_new t throws (KNamed ix nm) num find dothrow s h os buf cap); try done. apply Hok.
Qed.

(** ** Anonymous objects *)

Lemma inv_add_anonymous s a m' h os o cap :
  obj_ok o → o_kind o = KAnonymous → h !! o_buf o = None → total_of o <= cap →
  implements a (<[o_buf o := cap]> h) → objs_ok CharT (sm_cells s) h os →
  (∀ ix, index_ok CharT (sm_cells s) (index_of ix s) ix os) →
  keeps (o_buf o) (o_buf o + cap) (sm_cells s) m' → Forall (holds m') (cells_of o) →
  inv (SegMgr a m' (m_named_index s) (m_unique_index s)) (<[o_buf o := cap]> h) (<[o_value o := o]> os).
Proof.
  intros Hok Ek Hb Ht Hi Ho Hix Hk Hc.
  destruct (objs_add CharT Hchr a (sm_cells s) m' h os o cap) as (Ha & Ho' & Hnew); try done.
  split_and!; [done|done|]. intros ix.
  replace (index_of ix _) with (index_of ix s) by (by destruct ix).
  apply index_add_other; [|congruence|done].
  eapply index_keep; [exact Ho|exact Ho'|by apply Hix].
Qed.

Lemma anonymous_construct_ok t throws num find dothrow s h os :
  inv s h os → request_ok t num KAnonymous →
  wp (priv_anonymous_construct alloc t throws num dothrow) s
     (constructed t throws KAnonymous num find dothrow s h os).
Proof.
  intros (Hi & Ho & Hix) Hr. unfold priv_anonymous_construct. cbv zeta.
  assert (make_block_header (t_size t *! num) anonymous_type = o_info (SObj t num KAnonymous 0)) as ->.
  { apply (block_info_val (SObj t num KAnonymous 0)), request_obj; [done|done|].
    destruct Hr as ((_ & j & Hj & ->) & _). apply Z.mod_0_l. lia. }
  wp_step. apply (object_buffer t num KAnonymous s h); [done|done|..].
  { intros Hno. apply wp_ret. by apply c_no_memory. }
  intros buf cap a o Hok Hnz Hb Ht Ha. destruct (Z.eqb_spec buf 0); [done|].
  pose proof Hok as ((Hts & _) & Hnum & _). cbn [o_type o_num o] in Hts, Hnum.
  pose proof (o_anonymous_parts CharT o Hok eq_refl) as Hp. pose proof (o_bytes_range o Hok) as Hby.
  destruct (fresh_apart CharT Hchr a (sm_cells s) h os o cap) as [Hap Hnew]; try done.
  change (buf + front_space_without_header (t_align t)) with (o_hdr o). fold (o_value o).
  unfold st_cell. do 2 wp_step. wp_step. apply wp_aligned; [apply Hp|]. cbn [set_cells sm_cells m_named_index m_unique_index sm_algo].
  change (o_info (SObj t num KAnonymous 0)) with (o_info o).
  set (m1 := write (o_hdr o) 8 (DHeader (o_info o)) (sm_cells s)).
  assert (keeps buf (buf + cap) (sm_cells s) m1) as Hk1
    by (apply write_keeps; cbn [o_buf o] in Hp; lia).
  wp_step. eapply wp_mono; [by apply construct_n_ok|]. intros [] s2.
  - intros [Hth ->]. destruct (values_ok o m1 Hok) as [Hc Hk2]; [constructor; [apply write_here|constructor]|].
    wp_step. apply wp_aligned; [apply Hp|]. wp_step.
    eapply (c_new t throws KAnonymous num find dothrow s h os buf cap); try done; [apply Hok|].
    apply (inv_add_anonymous s a _ h os o cap); try done.
    etrans; [exact Hk1|]. eapply keeps_weaken; [..|exact Hk2]; cbn [o_buf o]; lia.
  - intros ((i & Hn & Hth) & m2 & -> & Hk2). wp_step.
    eapply base_deallocate_ok; [exact Ha|apply lookup_insert_eq|]. rewrite delete_insert_id by done.
    intros a2 Ha2. wp_step. eapply c_throws; [done|exact Hn|done|]. cbn [set_cells sm_cells m_named_index m_unique_index] in *.
    assert (objs_ok CharT m2 h os) as Ho2.
    { eapply (objs_keep CharT Hchr); [exact Ho| |exact Hap|done]. etrans; [exact Hk1|].
      eapply keeps_weaken; [..|exact Hk2]; change (t_size t * num) with (o_bytes o); cbn [o_buf o] in *; lia. }
    split_and!; [done|done|]. intros ix. specialize (Hix ix). destruct ix; exact (index_keep CharT _ _ h h os _ _ Ho Ho2 Hix).
Qed.

Definition kind_of (t : obj_type) (nm : char_ptr_holder) : okind :=
  match nm with
  | AnonymousInstance => KAnonymous
  | UniqueInstance => KNamed UniqueIndex (t_name t)
  | Name n => KNamed NamedIndex n
  end.

Lemma generic_construct_ok t throws nm num find dothrow s h os :
  inv s h os → request_ok t num (kind_of t nm) →
  wp (generic_construct alloc CharT t throws nm num find dothrow) s
     (constructed t throws (kind_of t nm) num find dothrow s h os).
Proof.
  intros Hinv Hr. unfold generic_construct. pose proof Hr as ((Hts & _) & Hn & Hb & _).
  destruct (Z.ltb_spec (u64_max / t_size t) num) as [Hlt|_].
  { pose proof (Z.mul_succ_div_gt u64_max (t_size t) Hts). unfold u64_max in *. nia. }
  destruct nm; cbn [kind_of] in *; [by apply anonymous_construct_ok|by apply named_construct_ok..].
Qed.

(** A number of elements whose size does not fit in a machine word. *)
Lemma generic_construct_overflow t throws nm num find dothrow s :
  0 < t_size t → 2 ^ 64 <= t_size t * num →
  generic_construct alloc CharT t throws nm num find dothrow s =
  Ret (if dothrow then Exc BadAlloc else Val 0, s).
Proof.
  intros Ht Hov. unfold generic_construct.
  destruct (Z.ltb_spec (u64_max / t_size t) num) as [_|Hge]; [done|].
  pose proof (Z.mul_div_le u64_max (t_size t) Ht). unfold u64_max in *. nia.
Qed.
End outcomes.
End construct.
