(* ===== verification/SegMgrDestroy.v ===== *)
(** The segment manager: search, destruction and the queries about an object. *)

From stdpp Require Import sorting.
From S2P Require Import Prelude Blocks MathUtil MemAlgo MemAlgoSpec MemAlgoAlign.
From S2P Require Import SegMgrLayout SegMgr SegMgrInv SegMgrOps SegMgrConstruct.

Local Open Scope u64_scope.

Section destroy.
Context {St T C : Type} {A : BlockAlgo St} {Ok : BlockAlgoOk St} {IX : Iset T C} {IXOk : IsetOk T C}.
Context {L : SmLayout} {LOk : SmLayoutOk} (CharT : char_type) (Hchr : char_ok CharT).

Notation mgr := (segmgr St T).
Notation chr := (char_of CharT).
Notation cells_of := (o_cells CharT).
Notation total_of := (o_total CharT).
Notation inv := (sm_inv CharT).
Implicit Types (s : mgr) (os : gmap Z sobj).

(** ** The header of an object of the table *)

Lemma bytes_num o : obj_ok o → o_bytes o mod t_size (o_type o) = 0 ∧ o_bytes o / t_size (o_type o) = o_num o.
Proof.
  intros ((Ht & _) & _). unfold o_bytes. rewrite Z.mul_comm. split; [apply Z.mod_mul; lia|apply Z.div_mul; lia].
Qed.

Lemma value_aligned o : obj_ok o → o_value o mod t_align (o_type o) = 0.
Proof.
  intros Hok. destruct (o_kind o) eqn:Ek; [apply (o_anonymous_parts CharT o Hok Ek)|
    apply (o_named_parts CharT Hchr o _ _ Hok Ek)].
Qed.

Lemma from_value_hdr o : from_value (o_value o) = o_hdr o.
Proof. unfold from_value, o_value, hdr_value. lia. Qed.

Lemma wp_from_value s h os p o (Q : Z → mgr → Prop) :
  objs_ok CharT (sm_cells s) h os → os !! p = Some o → Q (o_hdr o) s →
  wp (block_header_from_value (o_type o) p) s Q.
Proof.
  intros Ho Hp HQ. destruct (ob_obj _ _ _ _ Ho p o Hp) as (-> & Hok & Hc & _).
  unfold block_header_from_value. cbv zeta. rewrite from_value_hdr. wp_step.
  apply wp_aligned; [by apply value_aligned|]. wp_step.
  eapply wp_ld_header; [by apply (o_cells_header CharT)|]. wp_step.
  apply wp_assert; [|by wp_step]. cbn [m_value_bytes o_info]. by rewrite (proj1 (bytes_num o Hok)).
Qed.

Lemma wp_from_node s o ix nm (Q : Z → mgr → Prop) :
  obj_ok o → o_kind o = KNamed ix nm → Q (o_hdr o) s → wp (from_first_header (o_node o)) s Q.
Proof.
  intros Hok Ek HQ. pose proof (o_named_parts CharT Hchr o ix nm Hok Ek) as Hp.
  unfold from_first_header. cbv zeta.
  assert (from_header (o_node o) = o_hdr o) as -> by (unfold o_hdr; by rewrite Ek).
  wp_step. apply wp_aligned; [apply Hp|]. wp_step. apply wp_aligned; [apply Hp|]. by wp_step.
Qed.

(** ** Search *)

(** Every object with this name has the type it is asked for with. *)
Definition typed_as (t : obj_type) (k : okind) os : Prop :=
  ∀ p o, os !! p = Some o → o_kind o = k → o_type o = t.

Lemma find_in_index s h os ix nm :
  inv s h os →
  match ix_find (key CharT ix s) nm (index_of ix s) with
  | Some x => ∃ p o, os !! p = Some o ∧ o_kind o = KNamed ix nm ∧ x = o_node o
  | None => absent (KNamed ix nm) os
  end.
Proof.
  intros (_ & Ho & Hix). pose proof (find_ok (key CharT ix s) nm (index_of ix s) (proj1 (Hix ix))) as H.
  by apply (index_lookup CharT (sm_cells s) h os) in H; [|done|apply Hix].
Qed.

Lemma generic_find_ok s h os t ix nm :
  inv s h os → typed_as t (KNamed ix nm) os →
  wp (priv_generic_find CharT t ix nm) s (λ r s', s' = s ∧
    ((absent (KNamed ix nm) os ∧ r = (0, 0)) ∨
     ∃ p o, os !! p = Some o ∧ o_kind o = KNamed ix nm ∧ r = (p, o_num o))).
Proof.
  intros Hinv Ht. pose proof (find_in_index s h os ix nm Hinv) as Hf. pose proof Hinv as (_ & Ho & _).
  unfold priv_generic_find. wp_step. wp_step. destruct (ix_find _ _ _) as [x|]; [|wp_step; by auto].
  destruct Hf as (p & o & Hp & Ek & ->). destruct (ob_obj _ _ _ _ Ho p o Hp) as (Ep & Hok & Hc & _).
  rewrite <- (Ht p o Hp Ek). destruct (bytes_num o Hok) as [E1 E2].
  wp_step. eapply wp_from_node; [done|done|]. wp_step. eapply wp_ld_header; [by apply (o_cells_header CharT)|].
  cbn [m_value_bytes o_info]. rewrite E1, E2. wp_step. apply wp_assert; [done|]. wp_step.
  split; [done|]. right. exists p, o. split_and!; [done|done|by rewrite Ep].
Qed.

(** ** Destruction *)

(** Destroyed objects leave nothing but the rest of the header. *)
Lemma values_destroyed s o m :
  obj_ok o → Forall (holds m) (obj_cells (t_size (o_type o)) (Z.to_nat (o_num o)) (o_value o)) →
  sm_cells s = m →
  wp (priv_destroy_n (o_type o) (o_value o) (o_num o)) s (λ _ s', ∃ m', s' = set_cells (λ _, m') s ∧
    keeps (o_buf o) (o_buf o + total_of o) m m').
Proof.
  intros Hok Hc <-. pose proof Hok as ((Ht & _) & Hn & _). pose proof (value_range CharT Hchr o Hok).
  unfold priv_destroy_n. eapply wp_mono; [by apply destroy_loop_ok|]. intros [] s' ->.
  eexists. split; [reflexivity|]. eapply keeps_weaken; [..|by apply forget_objs_keeps]; [lia|].
  unfold o_bytes in *. lia.
Qed.

Lemma inv_remove s s' h os p o :
  inv s h os → os !! p = Some o → implements (sm_algo s') (delete (o_buf o) h) →
  keeps (o_buf o) (o_buf o + total_of o) (sm_cells s) (sm_cells s') →
  (∀ ix, index_of ix s' = match o_kind o with
     | KNamed ix' _ => if decide (ix' = ix) then ix_erase (o_node o) (index_of ix s) else index_of ix s
     | KAnonymous => index_of ix s end) →
  inv s' (delete (o_buf o) h) (delete p os).
Proof.
  intros (Hi & Ho & Hix) Hp Hi' Hk Hx.
  pose proof (objs_remove CharT Hchr (sm_algo s) (sm_cells s) (sm_cells s') h os p o Hi Ho Hp Hk) as Ho'.
  split_and!; [done|done|]. intros ix. rewrite Hx. destruct (o_kind o) as [|ix' nm] eqn:Ek.
  - eapply index_remove_other; [exact Ho|exact Ho'|done|done|congruence].
  - case_decide as E; [subst ix'; by eapply index_remove|].
    eapply index_remove_other; [exact Ho|exact Ho'|done|done|congruence].
Qed.

Lemma named_destroy_impl_ok s h os p o ix nm :
  inv s h os → os !! p = Some o → o_kind o = KNamed ix nm →
  wp (priv_generic_named_destroy_impl (o_type o) ix (o_node o)) s (λ r s',
    r = true ∧ inv s' (delete (o_buf o) h) (delete p os)).
Proof.
  intros Hinv Hp Ek. pose proof Hinv as (Hi & Ho & _).
  destruct (ob_obj _ _ _ _ Ho p o Hp) as (Ep & Hok & Hc & c & Hb & _). destruct (bytes_num o Hok) as [E1 E2].
  pose proof (o_named_parts CharT Hchr o ix nm Hok Ek) as Hpt. pose proof (o_bytes_range o Hok) as Hby.
  assert (o_hdr o = o_node o + sm_between_headers) as Eh by (unfold o_hdr; by rewrite Ek).
  unfold priv_generic_named_destroy_impl. wp_step. eapply wp_from_node; [done|done|].
  wp_step. eapply wp_ld_header; [by apply (o_cells_header CharT)|]. cbn [m_value_bytes o_info]. rewrite E1, E2.
  wp_step. apply wp_assert; [done|]. wp_step. wp_step. unfold to_first_header. cbv zeta.
  assert (to_header (o_hdr o) = o_node o) as -> by (unfold to_header; lia).
  wp_step. wp_step. apply wp_aligned; [apply Hpt|]. wp_step. apply wp_aligned; [apply Hpt|]. wp_step.
  assert (o_node o - front_space_with_header (t_align (o_type o)) = o_buf o) as -> by (unfold o_node; lia).
  unfold forget_cell. wp_step. wp_step. fold (o_value o). wp_step.
  eapply wp_mono; [apply (values_destroyed _ o (delete (o_node o) (sm_cells s))); [done| |by destruct ix]|].
  - apply o_cells_split in Hc as [_ Hc]. rewrite Forall_forall in Hc |- *. intros x Hx.
    pose proof Hok as ((Ht & _) & _). pose proof (obj_cells_range _ _ _ _ Ht Hx).
    unfold holds. rewrite lookup_delete_ne by lia. by apply Hc.
  - intros [] s1 (m' & -> & Hk). wp_step. wp_step. wp_step.
    eapply base_deallocate_ok; [by destruct ix|exact Hb|]. intros a Ha. wp_step. split; [done|].
    eapply (inv_remove s); try done.
    + cbn [sm_cells set_cells]. etrans; [apply (delete_keeps _ _ (o_node o)); lia|]. etrans; [exact Hk|].
      apply delete_keeps. lia.
    + rewrite Ek. by intros []; destruct ix.
Qed.

Lemma named_destroy_ok s h os t ix nm :
  inv s h os → typed_as t (KNamed ix nm) os →
  wp (priv_generic_named_destroy CharT t ix nm) s (λ r s',
    (absent (KNamed ix nm) os ∧ r = false ∧ s' = s) ∨
    ∃ p o, os !! p = Some o ∧ o_kind o = KNamed ix nm ∧ r = true ∧
      inv s' (delete (o_buf o) h) (delete p os)).
Proof.
  intros Hinv Ht. pose proof (find_in_index s h os ix nm Hinv) as Hf.
  unfold priv_generic_named_destroy. wp_step. wp_step. destruct (ix_find _ _ _) as [x|]; [|wp_step; by auto].
  destruct Hf as (p & o & Hp & Ek & ->). rewrite <- (Ht p o Hp Ek).
  eapply wp_mono; [by eapply named_destroy_impl_ok|]. intros r s' [-> Hr]. right. by exists p, o.
Qed.

Lemma anonymous_destroy_ok s h os p o :
  inv s h os → os !! p = Some o → o_kind o = KAnonymous →
  wp (priv_anonymous_destroy (o_type o) p) s (λ _ s', inv s' (delete (o_buf o) h) (delete p os)).
Proof.
  intros Hinv Hp Ek. pose proof Hinv as (Hi & Ho & _).
  destruct (ob_obj _ _ _ _ Ho p o Hp) as (Ep & Hok & Hc & c & Hb & _). destruct (bytes_num o Hok) as [E1 E2].
  unfold priv_anonymous_destroy. wp_step. apply wp_aligned; [subst p; by apply value_aligned|].
  wp_step. eapply wp_from_value; [exact Ho|exact Hp|]. wp_step. eapply wp_ld_header; [by apply (o_cells_header CharT)|].
  wp_step. apply wp_assert; [unfold o_info, o_code; by rewrite Ek|]. cbn [m_value_bytes o_info]. rewrite E2.
  wp_step. subst p. apply o_cells_split in Hc as [_ Hc].
  eapply wp_mono; [by apply (values_destroyed s o (sm_cells s))|]. intros [] s1 (m' & -> & Hk).
  assert (o_hdr o - front_space_without_header (t_align (o_type o)) = o_buf o) as ->
    by (unfold o_hdr; rewrite Ek; lia).
  eapply base_deallocate_ok; [exact Hi|exact Hb|]. intros a Ha.
  eapply (inv_remove s); try done. rewrite Ek. by intros [].
Qed.

(** Any object of the table, by its address. *)
Lemma destroy_ptr_ok s h os p o :
  inv s h os → os !! p = Some o →
  wp (destroy_ptr CharT (o_type o) p) s (λ _ s', inv s' (delete (o_buf o) h) (delete p os)).
Proof.
  intros Hinv Hp. pose proof Hinv as (Hi & Ho & Hix).
  destruct (ob_obj _ _ _ _ Ho p o Hp) as (Ep & Hok & Hc & _).
  unfold destroy_ptr, priv_destroy_ptr. wp_step. apply wp_aligned; [subst p; by apply value_aligned|].
  wp_step. eapply wp_from_value; [exact Ho|exact Hp|]. wp_step. eapply wp_ld_header; [by apply (o_cells_header CharT)|].
  cbn [m_alloc_type o_info].
  destruct (o_kind o) as [|ix nm] eqn:Ek.
  { unfold o_code. rewrite Ek. by apply anonymous_destroy_ok. }
  assert (wp (priv_generic_named_destroy_header CharT (o_type o) ix (o_hdr o)) s
    (λ _ s', inv s' (delete (o_buf o) h) (delete p os))) as Hd.
  { unfold priv_generic_named_destroy_header. wp_step. wp_step. apply o_cells_split in Hc as [Hc _].
    rewrite (proj1 (o_head_name CharT o _ ix nm Hc Ek)).
    assert (typed_as (o_type o) (KNamed ix nm) os) as Ht.
    { intros q o' Hq Ek'. assert (p = q) as <-; [|congruence].
      by eapply (name_unique CharT (sm_cells s) h os (index_of ix s)). }
    eapply wp_mono; [by apply named_destroy_ok|]. intros r s' [[Hab _]|(q & o' & Hq & Ek' & _ & Hr)].
    - by destruct (Hab p o Hp).
    - assert (p = q) as <- by (eapply (name_unique CharT (sm_cells s) h os (index_of ix s)); done).
      assert (o = o') as <- by congruence. done. }
  unfold o_code. rewrite Ek. destruct ix; (apply wp_bind; eapply wp_mono; [exact Hd|]); by intros.
Qed.

(** ** Queries *)

Lemma instance_length_ok s h os p o :
  inv s h os → os !! p = Some o → get_instance_length (o_type o) p s = Ret (o_num o, s).
Proof.
  intros (_ & Ho & _) Hp. enough (wp (get_instance_length (o_type o) p) s (λ r s', r = o_num o ∧ s' = s)) as H
    by (by apply wp_run in H as (? & ? & ? & -> & ->)).
  destruct (ob_obj _ _ _ _ Ho p o Hp) as (_ & Hok & Hc & _). destruct (bytes_num o Hok) as [E1 E2].
  unfold get_instance_length. wp_step. eapply wp_from_value; [exact Ho|exact Hp|].
  wp_step. eapply wp_ld_header; [by apply (o_cells_header CharT)|]. cbn [m_value_bytes o_info]. rewrite E1, E2.
  wp_step. apply wp_assert; [done|]. by wp_step.
Qed.

Lemma instance_type_ok s h os p o :
  inv s h os → os !! p = Some o → get_instance_type (o_type o) p s = Ret (o_code o, s).
Proof.
  intros (_ & Ho & _) Hp. enough (wp (get_instance_type (o_type o) p) s (λ r s', r = o_code o ∧ s' = s)) as H
    by (by apply wp_run in H as (? & ? & ? & -> & ->)).
  destruct (ob_obj _ _ _ _ Ho p o Hp) as (_ & Hok & Hc & _).
  unfold get_instance_type. wp_step. eapply wp_from_value; [exact Ho|exact Hp|].
  wp_step. eapply wp_ld_header; [by apply (o_cells_header CharT)|]. cbn [m_alloc_type o_info].
  wp_step. apply wp_assert; [unfold o_code; by destruct (o_kind o) as [|[] ?]|]. by wp_step.
Qed.

(** The name of an anonymous object and of one with a name: an empty name fails
    the assertion, and another one is read back where the characters of the
    manager are those the name was stored with. *)
Lemma instance_name_ok s h os p o :
  inv s h os → os !! p = Some o →
  match o_kind o with
  | KAnonymous => get_instance_name CharT (o_type o) p s = Ret (None, s)
  | KNamed ix [] => get_instance_name CharT (o_type o) p s = Fault AssertFailed
  | KNamed ix nm => chr ix = CharT → get_instance_name CharT (o_type o) p s = Ret (Some nm, s)
  end.
Proof.
  intros (_ & Ho & _) Hp. destruct (ob_obj _ _ _ _ Ho p o Hp) as (_ & Hok & Hc & _).
  pose proof (o_cells_header CharT o _ Hc) as Hh. apply o_cells_split in Hc as [Hc _].
  assert (get_instance_name CharT (o_type o) p s =
    match name_length_at (sm_cells s) (o_hdr o) with
    | None => throw BadAccess
    | Some n =>
        if m_alloc_type (o_info o) =? anonymous_type then boost_assert (n =? 0);; mret None else
        boost_assert (negb (n =? 0));;
        match name_at CharT (sm_cells s) (o_hdr o) with
        | None => throw BadAccess
        | Some nm => boost_assert (n =? Z.of_nat (length nm));; mret (Some nm)
        end
    end s) as ->.
  { assert (wp (block_header_from_value (o_type o) p) s (λ r s', r = o_hdr o ∧ s' = s)) as H
      by (eapply wp_from_value; [exact Ho|exact Hp|done]).
    apply wp_run in H as (? & ? & E & -> & ->). unfold get_instance_name, mbind, M_bind.
    rewrite E. unfold ld_header. rewrite Hh. reflexivity. }
  destruct (o_kind o) as [|ix nm] eqn:Ek.
  - unfold name_length_at. rewrite Hh. unfold o_info, o_code. by rewrite Ek.
  - destruct (o_head_name CharT o _ _ nm Hc Ek) as [E1 E2]. rewrite E2.
    assert (m_alloc_type (o_info o) =? anonymous_type = false) as ->
      by (unfold o_info, o_code; rewrite Ek; by destruct ix).
    destruct nm as [|x nm]; [done|]. intros Ex. rewrite Ex in E1. rewrite E1.
    assert (Z.of_nat (length (x :: nm)) =? 0 = false) as -> by (apply Z.eqb_neq; rewrite length_cons; lia).
    unfold mbind, M_bind. cbn. by rewrite Z.eqb_refl.
Qed.

(** The number of named or unique objects. *)
Definition in_index (ix : index_id) (o : sobj) : bool :=
  match o_kind o with KNamed ix' _ => bool_decide (ix' = ix) | KAnonymous => false end.

Lemma in_index_spec ix o : in_index ix o = true ↔ ∃ nm, o_kind o = KNamed ix nm.
Proof.
  unfold in_index. destruct (o_kind o) as [|ix' nm]; [naive_solver|].
  rewrite bool_decide_eq_true. naive_solver.
Qed.

Lemma index_size s h os ix :
  inv s h os → length (ix_elements (index_of ix s)) = size (filter (λ po, in_index ix po.2 = true) os).
Proof.
  intros (_ & Ho & Hix). destruct (Hix ix) as [Hs Hn].
  transitivity (length ((λ po : Z * sobj, o_node po.2) <$> map_to_list (filter (λ po, in_index ix po.2 = true) os)));
    [|by rewrite length_fmap, length_map_to_list].
  apply Permutation_length, NoDup_Permutation; [by eapply iset_nodup|apply NoDup_fmap_2_strong|].
  - intros [p o] [q o'] H1 H2. cbn [snd]. intros E.
    apply elem_of_map_to_list, map_lookup_filter_Some in H1 as [H1 [nm1 K1]%in_index_spec].
    apply elem_of_map_to_list, map_lookup_filter_Some in H2 as [H2 [nm2 K2]%in_index_spec].
    cbn [snd] in *. destruct (ob_obj _ _ _ _ Ho p o H1) as (-> & _), (ob_obj _ _ _ _ Ho q o' H2) as (-> & _).
    assert (o_value o = o_value o') as E' by (unfold o_value, o_hdr; by rewrite K1, K2, E).
    rewrite E' in *. congruence.
  - apply NoDup_map_to_list.
  - intros x. rewrite Hn, list_elem_of_fmap. split.
    + intros (p & o & nm & Hp & Ek & ->). exists (p, o). split; [done|].
      apply elem_of_map_to_list, map_lookup_filter_Some. split; [done|]. apply in_index_spec. eauto.
    + intros ([p o] & -> & [Hp [nm Ek]%in_index_spec]%elem_of_map_to_list%map_lookup_filter_Some). eauto 10.
Qed.
End destroy.
