(* ===== verification/SegMgrProps.v ===== *)
(** The segment manager: its theorems.

    They hold for every memory algorithm with the promises of [BlockAlgoOk] and
    [AllocateOk] and every index with those of [IsetOk].  The witnesses run the
    manager over the best-fit algorithm with a sorted list as index. *)

From stdpp Require Import sorting.
From S2P Require Import Prelude Blocks MathUtil MemAlgo MemAlgoSpec MemAlgoAlign.
From S2P Require Import SegMgrLayout SegMgr SegMgrInv SegMgrOps SegMgrConstruct SegMgrDestroy.
From S2P Require Import RbTree RbTreeInv RbTreeHeap RbTreeProps.

Local Open Scope u64_scope.

(** ** Names are ordered *)

Lemma compare_trans a b c :
  length a = length b → length b = length c →
  traits_compare a b < 0 → traits_compare b c < 0 → traits_compare a c < 0.
Proof.
  revert b c. induction a as [|x a IH]; intros [|y b] [|z c]; cbn; try (done || lia). intros E1 E2.
  destruct (Z.ltb_spec x y), (Z.ltb_spec y z), (Z.ltb_spec x z); try lia;
    destruct (Z.ltb_spec y x), (Z.ltb_spec z y), (Z.ltb_spec z x); try lia.
  apply IH; lia.
Qed.

Lemma name_less_spec a b :
  name_less a b = true ↔ (length a < length b)%nat ∨ (length a = length b ∧ traits_compare a b < 0).
Proof. unfold name_less. rewrite orb_true_iff, andb_true_iff, !Z.ltb_lt, Z.eqb_eq. lia. Qed.

Lemma name_less_trans a b c : name_less a b = true → name_less b c = true → name_less a c = true.
Proof.
  rewrite !name_less_spec. intros [?|[??]] [?|[??]]; [left; lia..|]. right.
  split; [lia|]. eapply compare_trans; [| |done|done]; lia.
Qed.

Lemma name_less_total a b : name_less a b = false → a ≠ b → name_less b a = true.
Proof.
  intros H1 Hne. destruct (name_less b a) eqn:H2; [done|]. destruct Hne. by apply equivalent_eq.
Qed.

(** ** A sorted list as index *)

Section list_index.
Implicit Types (key : Z → name) (l : list Z).

Fixpoint lower_bound key (k : name) l : nat :=
  match l with
  | [] => O
  | x :: l => if name_less (key x) k then S (lower_bound key k l) else O
  end.
Definition list_find key (k : name) l : option Z :=
  match l !! lower_bound key k l with
  | Some x => if name_less k (key x) then None else Some x
  | None => None
  end.

#[export] Instance list_iset : Iset (list Z) nat := {
  ix_elements l := l;
  ix_empty := [];
  ix_find := list_find;
  ix_insert_check key k l :=
    match list_find key k l with Some x => (Some x, O) | None => (None, lower_bound key k l) end;
  ix_insert_commit x c l := take c l ++ x :: drop c l;
  ix_erase x l := filter (.≠ x) l
}.

Lemma list_find_ok key k l :
  StronglySorted (λ x y, name_less (key x) (key y) = true) l →
  match list_find key k l with
  | Some x => x ∈ l ∧ equivalent (key x) k
  | None => ∀ x, x ∈ l → ¬ equivalent (key x) k
  end.
Proof.
  intros Hs. induction Hs as [|y l Hs IH Hy]; [by intros x ?%not_elem_of_nil|].
  unfold list_find in *. cbn [lower_bound]. rewrite Forall_forall in Hy.
  destruct (name_less (key y) k) eqn:E1; cbn [lookup list_lookup].
  - destruct (l !! lower_bound key k l) as [x|]; [destruct (name_less k (key x))|].
    2: { split; [right|]; apply IH. }
    all: intros x' [->|Hx]%elem_of_cons; [|by apply IH]; rewrite equivalent_eq; intros E;
      by rewrite E, name_less_irrefl in E1.
  - destruct (name_less k (key y)) eqn:E2; [|by split; [left|]].
    intros x [->|Hx]%elem_of_cons; rewrite equivalent_eq; intros E.
    + by rewrite E, name_less_irrefl in E2.
    + apply Hy in Hx. rewrite E in Hx. congruence.
Qed.

Lemma list_commit_ok key k x l :
  StronglySorted (λ x y, name_less (key x) (key y) = true) l → key x = k → (∀ y, y ∈ l → key y ≠ k) →
  StronglySorted (λ x y, name_less (key x) (key y) = true)
    (take (lower_bound key k l) l ++ x :: drop (lower_bound key k l) l).
Proof.
  intros Hs Ex Hne. induction Hs as [|y l Hs IH Hy]; [by repeat constructor|]. cbn [lower_bound].
  destruct (name_less (key y) k) eqn:E1; cbn [take drop app].
  - constructor; [apply IH; intros z Hz; apply Hne; by right|].
    rewrite Forall_forall in Hy. apply Forall_forall. intros z Hz.
    rewrite elem_of_app, elem_of_cons in Hz. destruct Hz as [Hz|[->|Hz]]; [|by rewrite Ex|];
      apply Hy; rewrite <- (take_drop (lower_bound key k l) l), elem_of_app; auto.
  - assert (name_less k (key y) = true) as E2 by (apply name_less_total; [done|]; apply Hne; by left).
    constructor; [by constructor|]. rewrite Ex. constructor; [done|].
    rewrite Forall_forall in Hy |- *. intros z Hz. by eapply name_less_trans, Hy.
Qed.
End list_index.

Lemma lower_bound_ext key key' k l :
  (∀ y, y ∈ l → key' y = key y) → lower_bound key' k l = lower_bound key k l.
Proof.
  intros Hk. induction l as [|y l IH]; cbn; [done|]. rewrite (Hk y) by (by left).
  rewrite IH; [done|]. intros z Hz. apply Hk. by right.
Qed.

#[export] Instance list_iset_ok : IsetOk (list Z) nat.
Proof.
  split.
  - done.
  - intros key k l Hs. by apply list_find_ok.
  - intros key k l Hs. cbn. pose proof (list_find_ok key k l Hs). by destruct (list_find key k l).
  - intros key key' k x c l Hs Hc Hk Hx Hn. cbn in *. pose proof (list_find_ok key k l Hs) as Hf.
    destruct (list_find key k l) as [y|]; [done|]. injection Hc as <-. split.
    + etrans; [symmetry; apply Permutation_middle|]. by rewrite take_drop.
    + rewrite <- (lower_bound_ext key key' k l Hk). apply list_commit_ok.
      * exact (iset_ext (T := list Z) key key' l Hk Hs).
      * by apply equivalent_eq.
      * intros y Hy E. rewrite (Hk y Hy) in E. by apply (Hf y Hy), equivalent_eq.
  - done.
Qed.

(** ** A manager over the best-fit algorithm *)

#[export] Instance sm_demo_layout : SmLayout := {| sizeof_index_data := 24; alignof_index_data := 8 |}.
#[export] Instance sm_demo_layout_ok : SmLayoutOk.
Proof. split; cbn; [by left|]. split; [lia|by exists 3]. Qed.

Definition demo_char : char_type := CharType 1 1.
Lemma demo_char_ok : char_ok demo_char.
Proof. split; [by exists 0|cbn; lia]. Qed.

Notation demo_mgr := (segmgr (rbseg (list Z)) (list Z)).
Definition sm_demo0 : demo_mgr := SegMgr rb_blank ∅ [] [].
Definition sm_demo : demo_mgr := state_of (segment_manager_ctor rbtree_best_fit 1024 0) sm_demo0.

(** Names and types of the examples. *)
Definition demo_name : name := [102; 111; 111].
Definition demo_type : obj_type := ObjType 12 4 [105].
Definition sm_construct t throws nm num find : M demo_mgr (res Z) :=
  generic_construct rb_priv_allocate demo_char t throws nm num find true.

(** ** The theorems *)

Section theorems.
Context {St T C : Type} {A : BlockAlgo St} {Ok : BlockAlgoOk St} {IX : Iset T C} {IXOk : IsetOk T C}.
Context {L : SmLayout} {LOk : SmLayoutOk} (CharT : char_type) (alloc : allocate_fn St) {AOk : AllocateOk alloc}.
Implicit Types (s : segmgr St T) (h : gmap Z Z) (os : gmap Z sobj).

(** C6: [construct], [find_or_construct] and their [nothrow] variants for
    anonymous, unique and named objects implement insertion into the table of
    objects on every branch: the object of that name is returned or reported;
    the memory algorithm has no buffer and nothing changes; a constructor throws
    and buffer, node and the elements already constructed are gone; or a new
    object with all its elements is in the table; for objects of at most [2^61]
    bytes and names of fewer than 65536 characters.  A number of elements whose
    size is [2^64] bytes or more is refused. *)
Theorem sm_construct_refines s h os t throws nm num find dothrow :
  char_ok CharT → sm_inv CharT s h os →
  (request_ok t num (kind_of t nm) →
   ∃ r s', generic_construct alloc CharT t throws nm num find dothrow s = Ret (r, s') ∧
     constructed CharT alloc t throws (kind_of t nm) num find dothrow s h os r s') ∧
  (0 < t_size t → 2 ^ 64 <= t_size t * num →
   generic_construct alloc CharT t throws nm num find dothrow s =
   Ret (if dothrow then Exc BadAlloc else Val 0, s)).
Proof.
  intros Hchr Hinv. split; [|by apply generic_construct_overflow].
  intros Hr. apply wp_run. by apply generic_construct_ok.
Qed.

Lemma find_destroy_named s h os t nm :
  char_ok CharT → sm_inv CharT s h os → nm ≠ AnonymousInstance → typed_as t (kind_of t nm) os →
  (absent (kind_of t nm) os → find CharT t nm s = Ret ((0, 0), s) ∧ destroy CharT t nm s = Ret (false, s)) ∧
  (∀ p o, os !! p = Some o → o_kind o = kind_of t nm →
     find CharT t nm s = Ret ((p, o_num o), s) ∧
     ∃ s', destroy CharT t nm s = Ret (true, s') ∧ sm_inv CharT s' (delete (o_buf o) h) (delete p os)).
Proof.
  intros Hchr Hinv Hnm Ht.
  assert (∃ ix n, kind_of t nm = KNamed ix n ∧ find CharT t nm s = priv_generic_find CharT t ix n s ∧
    destroy CharT t nm s = priv_generic_named_destroy CharT t ix n s) as (ix & n & Ek & -> & ->).
  { destruct nm as [| |n]; [done|by exists UniqueIndex, (t_name t)|by exists NamedIndex, n]. }
  rewrite Ek in *. pose proof Hinv as (_ & Ho & Hix).
  destruct (proj1 (wp_run _ _ _) (generic_find_ok CharT Hchr s h os t ix n Hinv Ht)) as (r & s1 & -> & -> & Hf).
  destruct (proj1 (wp_run _ _ _) (named_destroy_ok CharT Hchr s h os t ix n Hinv Ht)) as (b & s2 & -> & Hd).
  split.
  + intros Hab. destruct Hf as [[_ ->]|(p & o & Hp & Ek' & _)]; [|by destruct (Hab p o)].
    destruct Hd as [(_ & -> & ->)|(p & o & Hp & Ek' & _)]; [done|by destruct (Hab p o)].
  + intros p o Hp Ek'. destruct Hf as [[Hab _]|(q & o' & Hq & Eq & ->)]; [by destruct (Hab p o)|].
    destruct Hd as [(Hab & _)|(q2 & o2 & Hq2 & Eq2 & -> & Hinv')]; [by destruct (Hab p o)|].
    assert (p = q) as <- by (eapply (name_unique CharT (sm_cells s) h os (index_of ix s)); done).
    assert (p = q2) as <- by (eapply (name_unique CharT (sm_cells s) h os (index_of ix s)); done).
    simplify_eq. split; [done|]. by exists s2.
Qed.

(** C7: [find] and [destroy] by name, [destroy_ptr] and the queries read and
    change the table of objects as they promise: they act on the object of that
    name or address alone, and a name without object is reported; the type asked
    for has to be the one the object of that name was constructed with.
    [get_instance_name] returns the name of a named object and, where the
    manager's characters are [char]s, of a unique one, null for an anonymous
    object, and fails its assertion for an empty name. *)
Theorem sm_find_destroy_refines s h os :
  char_ok CharT → sm_inv CharT s h os →
  (∀ t nm, nm ≠ AnonymousInstance → typed_as t (kind_of t nm) os →
     (absent (kind_of t nm) os →
        find CharT t nm s = Ret ((0, 0), s) ∧ destroy CharT t nm s = Ret (false, s)) ∧
     (∀ p o, os !! p = Some o → o_kind o = kind_of t nm →
        find CharT t nm s = Ret ((p, o_num o), s) ∧
        ∃ s', destroy CharT t nm s = Ret (true, s') ∧ sm_inv CharT s' (delete (o_buf o) h) (delete p os))) ∧
  (∀ p o, os !! p = Some o →
     (∃ s', destroy_ptr CharT (o_type o) p s = Ret ((), s') ∧
        sm_inv CharT s' (delete (o_buf o) h) (delete p os)) ∧
     get_instance_length (o_type o) p s = Ret (o_num o, s) ∧
     get_instance_type (o_type o) p s = Ret (o_code o, s) ∧
     match o_kind o with
     | KAnonymous => get_instance_name CharT (o_type o) p s = Ret (None, s)
     | KNamed ix [] => get_instance_name CharT (o_type o) p s = Fault AssertFailed
     | KNamed ix n => char_of CharT ix = CharT → get_instance_name CharT (o_type o) p s = Ret (Some n, s)
     end) ∧
  get_num_named_objects s = Ret (Z.of_nat (size (filter (λ po, in_index NamedIndex po.2 = true) os)), s) ∧
  get_num_unique_objects s = Ret (Z.of_nat (size (filter (λ po, in_index UniqueIndex po.2 = true) os)), s).
Proof.
  intros Hchr Hinv. split_and!.
  - intros t nm Hnm Ht. by apply find_destroy_named.
  - intros p o Hp. split_and!.
    + destruct (proj1 (wp_run _ _ _) (destroy_ptr_ok CharT Hchr s h os p o Hinv Hp)) as ([] & s' & E & H). by exists s'.
    + by eapply instance_length_ok.
    + by eapply instance_type_ok.
    + by eapply instance_name_ok.
  - unfold get_num_named_objects, gets. by rewrite <- (index_size CharT s h os NamedIndex Hinv).
  - unfold get_num_unique_objects, gets. by rewrite <- (index_size CharT s h os UniqueIndex Hinv).
Qed.

(** C9: the objects of a manager are where they should be.  Each has the
    alignment of its type and lies, with its headers and its name, in a buffer
    of the memory algorithm; the buffers of two objects do not overlap; and two
    objects of one index have different names. *)
Theorem sm_objects_safe s h os :
  char_ok CharT → sm_inv CharT s h os →
  (∀ p o, os !! p = Some o → p mod t_align (o_type o) = 0 ∧
     ∃ c, h !! o_buf o = Some c ∧ o_buf o + 8 <= p ∧ p + o_bytes o <= o_buf o + o_total CharT o ∧
       o_total CharT o <= c ∧
       ∀ x, x ∈ o_cells CharT o → o_buf o <= x.1.1 ∧ x.1.1 + x.1.2 <= o_buf o + o_total CharT o) ∧
  (∀ p q o o', os !! p = Some o → os !! q = Some o' → p ≠ q →
     (o_buf o + o_total CharT o <= o_buf o' ∨ o_buf o' + o_total CharT o' <= o_buf o) ∧
     (∀ ix n, o_kind o = KNamed ix n → o_kind o' ≠ KNamed ix n)).
Proof.
  intros Hchr (Hi & Ho & Hix). split.
  - intros p o Hp. destruct (ob_obj _ _ _ _ Ho p o Hp) as (-> & Hok & _ & c & Hc & Ht).
    pose proof (value_range CharT Hchr o Hok). split; [by apply (value_aligned CharT Hchr)|].
    exists c. split_and!; try done; try lia. intros x Hx. by apply (o_cells_range CharT Hchr o x Hok) in Hx as (? & ? & _).
  - intros p q o o' Hp Hq Hne. split.
    + destruct (ob_obj _ _ _ _ Ho p o Hp) as (_ & _ & _ & c & Hc & Ht).
      destruct (ob_obj _ _ _ _ Ho q o' Hq) as (_ & _ & _ & c' & Hc' & Ht').
      assert (o_buf o ≠ o_buf o') as Hb by (intros E; apply Hne; by eapply (ob_inj _ _ _ _ Ho)).
      pose proof ok_consts as (_ & _ & _ & _ & HU).
      pose proof (implements_disjoint _ _ Hi _ _ _ _ Hc Hc' Hb). lia.
    + intros ix n E1 E2. apply Hne. by eapply (name_unique CharT (sm_cells s) h os (index_of ix s)).
Qed.

(** The result of a construction that throws on failure and does not search. *)
Lemma constructed_new s h os t throws k num p s' :
  constructed CharT alloc t throws k num false true s h os (Val p) s' →
  absent k os ∧ ∃ buf cap, let o := SObj t num k buf in
    h !! buf = None ∧ p = o_value o ∧ os !! p = None ∧ sm_inv CharT s' (<[buf := cap]> h) (<[p := o]> os).
Proof. intros H. inversion H; subst; try done. split; [done|]. by exists buf, cap. Qed.

Lemma sm_inv_init (a : St) m h : implements a h → sm_inv CharT (SegMgr a m ix_empty ix_empty) h ∅.
Proof.
  intros Ha. split_and!; [done| |].
  - split; intros ? ? *; by rewrite lookup_empty.
  - intros ix. replace (index_of ix _) with (ix_empty (T := T)) by (by destruct ix). split.
    + unfold iset_ok. rewrite elements_empty_ix. constructor.
    + intros x. rewrite elements_empty_ix, elem_of_nil. split; [done|].
      intros (p & o & nm & Hp & _). by rewrite lookup_empty in Hp.
Qed.

(** C8: the life of an object.  The constructor of the manager makes an empty
    table.  An object just constructed is found, with its number of elements;
    destroying it by name or by address gives a manager with exactly the objects
    and the buffers there were before, in which the name is not found; for
    objects of at most [2^61] bytes and names of fewer than 65536 characters. *)
Theorem sm_lifecycle s h os :
  char_ok CharT →
  (∀ algo_ctor size reserved a, algo_ctor size reserved (sm_algo s) = Ret ((), a) → implements a h →
     ∃ s', segment_manager_ctor algo_ctor size reserved s = Ret ((), s') ∧ sm_inv CharT s' h ∅) ∧
  (∀ t throws nm num p s1, sm_inv CharT s h os → request_ok t num (kind_of t nm) →
     generic_construct alloc CharT t throws nm num false true s = Ret (Val p, s1) →
     (nm ≠ AnonymousInstance →
        find CharT t nm s1 = Ret ((p, num), s1) ∧
        ∃ s2, destroy CharT t nm s1 = Ret (true, s2) ∧ sm_inv CharT s2 h os ∧
          find CharT t nm s2 = Ret ((0, 0), s2)) ∧
     ∃ s2, destroy_ptr CharT t p s1 = Ret ((), s2) ∧ sm_inv CharT s2 h os).
Proof.
  intros Hchr. split.
  - intros algo_ctor size reserved a Ea Ha. unfold segment_manager_ctor, lift, mbind, M_bind, modify. rewrite Ea.
    eexists. split; [reflexivity|]. by apply sm_inv_init.
  - intros t throws nm num p s1 Hinv Hr E.
    pose proof (generic_construct_ok CharT Hchr alloc t throws nm num false true s h os Hinv Hr) as Hc.
    unfold wp in Hc. rewrite E in Hc. apply constructed_new in Hc as (Hab & buf & cap & Hb & Ep & Hnew & Hinv1).
    set (o := SObj t num (kind_of t nm) buf) in *.
    assert (delete (o_buf o) (<[buf := cap]> h) = h) as Eh by (by apply delete_insert_id).
    assert (delete p (<[p := o]> os) = os) as Eo by (by apply delete_insert_id). split.
    + intros Hnm. assert (absent_named : ∀ q o', os !! q = Some o' → o_kind o' ≠ kind_of t nm) by (by destruct nm).
      assert (typed_as t (kind_of t nm) (<[p := o]> os)) as Ht.
      { intros q o' [[_ <-]|[_ Hq]]%lookup_insert_Some Ek; [done|]. by destruct (absent_named q o'). }
      destruct (find_destroy_named s1 _ _ t nm Hchr Hinv1 Hnm Ht) as [_ H].
      destruct (H p o (lookup_insert_eq _ _ _) eq_refl) as (Hf & s2 & Hd & Hinv2). rewrite Eh, Eo in Hinv2.
      split; [exact Hf|]. exists s2. split_and!; [done|done|].
      apply (find_destroy_named s2 h os t nm Hchr Hinv2 Hnm); [|done].
      intros q o' Hq Ek. by destruct (absent_named q o').
    + destruct (proj1 (wp_run _ _ _) (destroy_ptr_ok CharT Hchr s1 _ _ p o Hinv1 (lookup_insert_eq _ _ _)))
        as ([] & s2 & Hd & Hinv2). rewrite Eh, Eo in Hinv2. by exists s2.
Qed.
End theorems.

(** ** Witnesses *)

Lemma rb_demo_run : rbtree_best_fit 1024 0 rb_blank = Ret ((), rb_demo).
Proof. vm_compute. reflexivity. Qed.

Lemma sm_demo_inv : sm_inv demo_char sm_demo ∅ ∅.
Proof.
  replace sm_demo with (SegMgr rb_demo ∅ (ix_empty (T := list Z)) ix_empty) by (vm_compute; reflexivity).
  apply sm_inv_init, implements_rb. exists [Blk 55 true]. split; [exact rb_demo_inv|reflexivity].
Qed.

Definition never (_ : Z) : bool := false.
Definition demo_object : sobj := SObj demo_type 3 (KNamed NamedIndex demo_name) 65680.
Definition sm_demo1 : demo_mgr := state_of (sm_construct demo_type never (Name demo_name) 3 false) sm_demo.

Lemma demo_request nm num :
  0 <= num <= 100 → nm = AnonymousInstance ∨ nm = UniqueInstance ∨ nm = Name demo_name →
  request_ok demo_type num (kind_of demo_type nm).
Proof.
  intros Hn Hnm. split; [split; [done|by exists 2]|].
  split_and!; [lia|cbn; lia|]. by destruct Hnm as [->|[->| ->]].
Qed.

Lemma sm_demo1_run : sm_construct demo_type never (Name demo_name) 3 false sm_demo = Ret (Val 65712, sm_demo1).
Proof. vm_compute. reflexivity. Qed.

(** The manager with one named object of three elements. *)
Lemma sm_demo1_inv : ∃ cap, sm_inv demo_char sm_demo1 {[ 65680 := cap ]} {[ 65712 := demo_object ]}.
Proof.
  pose proof (generic_construct_ok demo_char demo_char_ok rb_priv_allocate (AOk := rb_allocate_ok _ _) demo_type never
    (Name demo_name) 3 false true sm_demo ∅ ∅ sm_demo_inv (demo_request (Name demo_name) 3 ltac:(lia) ltac:(auto))) as H.
  unfold wp in H. fold (sm_construct demo_type never (Name demo_name) 3 false) in H. rewrite sm_demo1_run in H.
  apply constructed_new in H as (_ & buf & cap & _ & Ev & _ & Hinv).
  assert (65712 = buf + 0 + 24 + 8) as Ev' by (etrans; [exact Ev|reflexivity]).
  assert (buf = 65680) as -> by lia. by exists cap.
Qed.

Lemma sm_construct_refines_witness :
  (∃ r s', sm_construct demo_type (λ i, i =? 1) AnonymousInstance 2 false sm_demo1 = Ret (r, s') ∧
     ∃ h os, constructed demo_char rb_priv_allocate demo_type (λ i, i =? 1) KAnonymous 2 false true sm_demo1 h os r s') ∧
  sm_construct demo_type never UniqueInstance (2 ^ 63) false sm_demo1 = Ret (Exc BadAlloc, sm_demo1).
Proof.
  destruct sm_demo1_inv as [cap Hinv]. split.
  - destruct (sm_construct_refines demo_char rb_priv_allocate (AOk := rb_allocate_ok _ _) sm_demo1 _ _ demo_type
      (λ i, i =? 1) AnonymousInstance 2 false true demo_char_ok Hinv) as [H _].
    destruct (H (demo_request AnonymousInstance 2 ltac:(lia) ltac:(auto))) as (r & s' & E & Hc).
    exists r, s'. split; [exact E|]. by eexists _, _.
  - apply (sm_construct_refines demo_char rb_priv_allocate (AOk := rb_allocate_ok _ _) sm_demo1 _ _ demo_type
      never UniqueInstance (2 ^ 63) false true demo_char_ok Hinv); cbn; lia.
Defined.

Lemma sm_find_destroy_refines_witness :
  find demo_char demo_type (Name demo_name) sm_demo1 = Ret ((65712, 3), sm_demo1) ∧
  find demo_char demo_type UniqueInstance sm_demo1 = Ret ((0, 0), sm_demo1) ∧
  (∃ s', destroy_ptr demo_char demo_type 65712 sm_demo1 = Ret ((), s') ∧ ∃ h, sm_inv demo_char s' h ∅) ∧
  get_instance_name demo_char demo_type 65712 sm_demo1 = Ret (Some demo_name, sm_demo1) ∧
  get_num_named_objects sm_demo1 = Ret (1, sm_demo1).
Proof.
  destruct sm_demo1_inv as [cap Hinv].
  destruct (sm_find_destroy_refines demo_char sm_demo1 _ _ demo_char_ok Hinv) as (H1 & H2 & H3 & _).
  destruct (H2 65712 demo_object (lookup_singleton_eq _ _)) as (Hd & _ & _ & Hn). split_and!.
  - apply (H1 demo_type (Name demo_name)) with (o := demo_object); [done| |apply lookup_singleton_eq|done].
    by intros p o [<- <-]%lookup_singleton_Some.
  - apply (H1 demo_type UniqueInstance); [done|..]; by intros p o [<- <-]%lookup_singleton_Some.
  - destruct Hd as (s' & E & Hs). exists s'. split; [exact E|]. eexists. by rewrite delete_singleton_eq in Hs.
  - by apply Hn.
  - rewrite H3. reflexivity.
Defined.

Lemma sm_objects_safe_witness :
  (∃ cap, sm_inv demo_char sm_demo1 {[ 65680 := cap ]} {[ 65712 := demo_object ]}) ∧
  65712 mod 4 = 0 ∧ 65712 + 36 <= 65680 + 74.
Proof.
  destruct sm_demo1_inv as [cap Hinv]. split; [by exists cap|].
  destruct (sm_objects_safe demo_char sm_demo1 _ _ demo_char_ok Hinv) as [H _].
  destruct (H 65712 demo_object (lookup_singleton_eq _ _)) as (H1 & c & _ & _ & H2 & _). split; [exact H1|].
  exact H2.
Defined.

Lemma sm_lifecycle_witness :
  (∃ s', segment_manager_ctor rbtree_best_fit 1024 0 sm_demo0 = Ret ((), s') ∧ ∃ h, sm_inv demo_char s' h ∅) ∧
  find demo_char demo_type (Name demo_name) sm_demo1 = Ret ((65712, 3), sm_demo1) ∧
  (∃ s2, destroy_ptr demo_char demo_type 65712 sm_demo1 = Ret ((), s2) ∧ sm_inv demo_char s2 ∅ ∅).
Proof.
  split.
  - assert (implements rb_demo (heap 8 (rb_first rb_demo) [Blk 55 true])) as Hi
      by (apply implements_rb; exists [Blk 55 true]; split; [exact rb_demo_inv|reflexivity]).
    destruct (sm_lifecycle demo_char rb_priv_allocate (AOk := rb_allocate_ok _ _) sm_demo0 (heap 8 (rb_first rb_demo) [Blk 55 true]) ∅
      demo_char_ok) as [H _].
    destruct (H rbtree_best_fit 1024 0 rb_demo rb_demo_run Hi) as (s' & E & Hs). exists s'. split; [exact E|]. by eexists.
  - destruct (sm_lifecycle demo_char rb_priv_allocate (AOk := rb_allocate_ok _ _) sm_demo ∅ ∅ demo_char_ok) as [_ H].
    destruct (H demo_type never (Name demo_name) 3 65712 sm_demo1 sm_demo_inv
      (demo_request (Name demo_name) 3 ltac:(lia) ltac:(auto)) sm_demo1_run) as [H1 H2].
    split; [apply H1; discriminate|exact H2].
Defined.
