(* ===== verification/Monitor.v ===== *)
(** Monitors: an object whose operations run under one internal mutex and wait
    on condition variables.

    [interprocess_sharable_mutex] and [interprocess_upgradable_mutex] keep a
    control word, a mutex [m_mut] and two conditions [m_first_gate] and
    [m_second_gate].  Every operation holds [m_mut] for its whole body except
    while it waits on a gate, so an execution is an interleaving of the code
    between two waits.  This file has what both classes share: the effect of a
    stretch of code, the loops around [wait] and [timed_wait], the threads,
    and the step relation.  The mutex and the conditions are used by their
    contract: mutual exclusion, a wait that releases the mutex atomically,
    notifications that wake one or all sleepers, and spurious wake-ups.  The
    wait of a timed operation can end by time-out; every wait can throw. *)

From S2P Require Import Prelude.

(** ** Code between two waits *)

Inductive gate := First | Second.
Inductive signal := NotifyAll (g : gate) | NotifyOne (g : gate).
Inductive result := Returned (r : bool) | Thrown | Blocked (g : gate).
Inductive wake := Notified | TimedOut | WaitThrew.
Inductive mode := Exclusive | Sharable | Upgradable.

Definition mode_eqb (m m' : mode) : bool :=
  match m, m' with
  | Exclusive, Exclusive | Sharable, Sharable | Upgradable, Upgradable => true
  | _, _ => false
  end.

#[export] Instance gate_eq_dec : EqDecision gate.
Proof. solve_decision. Defined.
#[export] Instance mode_eq_dec : EqDecision mode.
Proof. solve_decision. Defined.
#[export] Instance signal_eq_dec : EqDecision signal.
Proof. solve_decision. Defined.

Section bodies.
Context {C : Type}.

(** A stretch of code maps the control word to the new one, the
    notifications it issues, in order, and how it ends. *)
Definition body : Type := C → C * list signal * result.

Definition returns (r : bool) : body := λ c, (c, [], Returned r).
Definition throws : body := λ c, (c, [], Thrown).
Definition assign (f : C → C) (k : body) : body := λ c, k (f c).
Definition notify (s : signal) (k : body) : body := λ c,
  let '(c', sg, r) := k c in (c', s :: sg, r).
Definition guard (b : C → bool) (k1 k2 : body) : body := λ c, if b c then k1 c else k2 c.

(** [while(cond) gate.wait(lck); k]: arriving at the loop, or woken in it. *)
Definition wait_while (cond : C → bool) (g : gate) (k : body) : body :=
  guard cond (λ c, (c, [], Blocked g)) k.

(** [while(cond) if(!gate.timed_wait(lck, abs_time)){ if(cond) fail; break; } k]:
    [timed_out] tells that the last [timed_wait] returned false. *)
Definition timed_wait_while (cond : C → bool) (g : gate) (timed_out : bool) (fail k : body) : body :=
  if timed_out then guard cond fail k else wait_while cond g k.
End bodies.
Arguments body : clear implicits.

(** ** Threads *)

(** The interface of a monitor: its calls, what ownership a call requires and
    what it gives when it returns true (it keeps the former one otherwise),
    whether its waits have a deadline, the code from the start of the call
    ([owns] tells whether a try or timed acquisition of [m_mut] succeeded)
    and the code after a wait at a gate ended. *)
Class Monitor (C Call : Type) := {
  before : Call → option mode;
  granted : Call → option mode;
  timed : Call → bool;
  run : Call → bool → body C;
  resume : Call → gate → wake → body C
}.

Section threads.
Context {C Call : Type} `{Monitor C Call}.

(** A thread runs outside the monitor with some ownership, or it waits in a
    call, [woken] once it was notified. *)
Inductive tstate := Own (m : option mode) | Wait (call : Call) (g : gate) (woken : bool).

Definition next (call : Call) (r : result) : tstate :=
  match r with
  | Returned true => Own (granted call)
  | Returned false | Thrown => Own (before call)
  | Blocked g => Wait call g false
  end.

Definition wake_at (g : gate) (th : tstate) : tstate :=
  match th with
  | Wait call g' _ => if decide (g = g') then Wait call g' true else th
  | Own _ => th
  end.

Definition asleep_at (g : gate) (th : tstate) : Prop :=
  match th with Wait _ g' false => g' = g | _ => False end.

(** The effect of a notification: [notify_one] wakes any one sleeper. *)
Inductive signalled : signal → list tstate → list tstate → Prop :=
| sig_all g ts : signalled (NotifyAll g) ts (wake_at g <$> ts)
| sig_one g ts t th :
    ts !! t = Some th → asleep_at g th →
    signalled (NotifyOne g) ts (<[t := wake_at g th]> ts)
| sig_none g ts :
    Forall (λ th, ¬ asleep_at g th) ts → signalled (NotifyOne g) ts ts.

Inductive signals : list signal → list tstate → list tstate → Prop :=
| signals_nil ts : signals [] ts ts
| signals_cons s sg ts1 ts2 ts3 :
    signalled s ts1 ts2 → signals sg ts2 ts3 → signals (s :: sg) ts1 ts3.

Record sys := Sys { s_ctrl : C; s_threads : list tstate }.

Inductive step : sys → sys → Prop :=
| step_call c ts t call owns c' sg r ts' :
    ts !! t = Some (Own (before call)) →
    run call owns c = (c', sg, r) →
    signals sg (<[t := next call r]> ts) ts' →
    step (Sys c ts) (Sys c' ts')
| step_wake c ts t call g b w c' sg r ts' :
    ts !! t = Some (Wait call g b) →
    (w = TimedOut → timed call = true) →
    resume call g w c = (c', sg, r) →
    signals sg (<[t := next call r]> ts) ts' →
    step (Sys c ts) (Sys c' ts').

Inductive reachable (P : sys → sys → Prop) (st0 : sys) : sys → Prop :=
| reach_refl : reachable P st0 st0
| reach_step st st' : reachable P st0 st → P st st' → reachable P st0 st'.

Lemma reachable_ind_inv (P : sys → sys → Prop) (I : sys → Prop) st0 st :
  (∀ st st', I st → P st st' → I st') → I st0 → reachable P st0 st → I st.
Proof. intros Hs H0. induction 1; eauto. Qed.

(** Notifications only change the [woken] flags. *)
Definition same_shape (f : tstate → bool) : Prop :=
  ∀ call g b b', f (Wait call g b) = f (Wait call g b').

Lemma wake_at_shape f g th : same_shape f → f (wake_at g th) = f th.
Proof. intros Hf. destruct th as [m|call g' b]; simpl; [done|]. case_decide; auto. Qed.

Lemma signals_tcount f sg ts ts' : same_shape f → signals sg ts ts' → tcount f ts' = tcount f ts.
Proof.
  intros Hf. induction 1 as [|s sg ts1 ts2 ts3 Hs _ IH]; [done|]. rewrite IH. clear IH.
  destruct Hs as [g ts|g ts t th Ht Ha|]; [|..|done].
  - induction ts as [|th ts IH]; [done|]. rewrite fmap_cons. cbn [tcount]. by rewrite IH, wake_at_shape.
  - destruct (tcount_split f ts t th (wake_at g th) Ht) as (r & _ & -> & ->).
    by rewrite wake_at_shape.
Qed.

(** A thread asleep after notifications was so before. *)
Lemma signals_asleep sg ts ts' t call g :
  signals sg ts ts' → ts' !! t = Some (Wait call g false) → ts !! t = Some (Wait call g false).
Proof.
  induction 1 as [|s sg ts1 ts2 ts3 Hs _ IH]; [done|]. intros Ht%IH. clear IH.
  destruct Hs as [g' ts|g' ts t' th Ht' Ha|]; [|..|done].
  - rewrite list_lookup_fmap in Ht. destruct (ts !! t) as [[m|call' g0 b]|]; simpl in *; [done| |done].
    case_decide; simplify_eq. done.
  - destruct (decide (t = t')) as [->|Hne]; [|by rewrite list_lookup_insert_ne in Ht].
    rewrite list_lookup_insert_eq in Ht by (by eapply lookup_lt_Some).
    destruct th as [m|call' g0 []]; simpl in *; try done. subst. case_decide; simplify_eq.
Qed.

Lemma signals_all sg ts ts' t call g :
  signals sg ts ts' → NotifyAll g ∈ sg → ts' !! t ≠ Some (Wait call g false).
Proof.
  induction 1 as [|s sg ts1 ts2 ts3 Hs Hss IH]; [by intros ?%not_elem_of_nil|].
  intros [<-|Hin]%elem_of_cons; [|by apply IH]. intros Ht. eapply signals_asleep in Ht; [|done].
  inversion Hs; subst. rewrite list_lookup_fmap in Ht.
  destruct (ts1 !! t) as [[m|call' g0 b]|]; simpl in *; [done| |done]. case_decide; by simplify_eq.
Qed.

(** [notify_one] leaves no sleeper if there was at most one. *)
Lemma signals_one sg ts ts' t call g :
  signals sg ts ts' → NotifyOne g ∈ sg →
  tcount (λ th, match th with Wait _ g' _ => bool_decide (g' = g) | _ => false end) ts <= 1 →
  ts' !! t ≠ Some (Wait call g false).
Proof.
  set (f := λ th, _). assert (same_shape f) as Hf by done.
  induction 1 as [|s sg ts1 ts2 ts3 Hs Hss IH]; [by intros ?%not_elem_of_nil|]. intros Hin Hc Ht.
  assert (tcount f ts2 <= 1) as Hc2.
  { rewrite (signals_tcount f [s] ts1 ts2); [done|done|]. econstructor; [done|constructor]. }
  apply elem_of_cons in Hin as [<-|Hin]; [|by apply IH].
  pose proof (signals_asleep _ _ _ _ _ _ Hss Ht) as Ht2.
  assert (ts1 !! t = Some (Wait call g false)) as Ht1.
  { eapply (signals_asleep [NotifyOne g]); [econstructor; [done|constructor]|done]. }
  inversion Hs as [|g' ts t' th Ht' Ha|g' ts Hno]; subst.
  - destruct (decide (t = t')) as [->|Hne].
    + rewrite list_lookup_insert_eq in Ht2 by (by eapply lookup_lt_Some).
      rewrite Ht1 in Ht'. simplify_eq. simpl in Ht2. case_decide; simplify_eq.
    + assert (2 <= tcount f ts1); [|lia]. eapply (tcount_two f ts1 t t'); try done.
      * simpl. by apply bool_decide_eq_true.
      * destruct th as [|? ? []]; simpl in *; try done. by apply bool_decide_eq_true.
  - rewrite Forall_lookup in Hno. by eapply (Hno t).
Qed.
End threads.
Arguments tstate : clear implicits.
Arguments sys : clear implicits.

(** ** Tactics *)

(** Decide every test of a stretch of code that was run. *)
Ltac decide_tests :=
  repeat match goal with
  | H : context [if ?b then _ else _] |- _ =>
      match b with
      | context [if _ then _ else _] => fail 1
      | _ => let E := fresh "T" in destruct b eqn:E; cbn [negb orb andb] in *
      end
  end.

(** The step of a call by thread [t]. *)
Ltac do_call t call := eapply (step_call _ _ t call true); [reflexivity|reflexivity|repeat econstructor].
