(* ===== verification/UpgradableMutex.v ===== *)
(** [interprocess_upgradable_mutex] (sync/interprocess_upgradable_mutex.hpp).

    The control word with its bit fields, every operation cut at its waits,
    and the monitor they form.  [upgr_inv] ties the word to the threads: it
    gives mutual exclusion, exact reader counts without overflow, and, for the
    sleepers, that no wake-up is lost except by the roll-back of a failed
    upgrade. *)

From S2P Require Import Prelude Monitor.

(** ** The control word *)

Record upgr_ctrl := UCtrl { exclusive_in : Z; upgradable_in : Z; num_upr_shar : Z }.

(** Stores truncate to the width of the field: 1, 1 and 30 bits. *)
Definition set_exclusive_in (v : Z) (c : upgr_ctrl) : upgr_ctrl :=
  UCtrl (v mod 2) (upgradable_in c) (num_upr_shar c).
Definition set_upgradable_in (v : Z) (c : upgr_ctrl) : upgr_ctrl :=
  UCtrl (exclusive_in c) (v mod 2) (num_upr_shar c).
Definition set_num (f : Z → Z) (c : upgr_ctrl) : upgr_ctrl :=
  UCtrl (exclusive_in c) (upgradable_in c) (f (num_upr_shar c) mod 1073741824).

(** [~(unsigned(3) << 30)] *)
Definition upgr_max_readers : Z := Z.lxor 4294967295 (Z.shiftl 3 30 mod 4294967296).

Definition upgr_init : upgr_ctrl := UCtrl 0 0 0.

(** The conditions of the loops and guards. *)
Definition excl_or_upgr (c : upgr_ctrl) : bool := nz (exclusive_in c) || nz (upgradable_in c).
Definition any_reader (c : upgr_ctrl) : bool := nz (num_upr_shar c).
Definition excl_or_full (c : upgr_ctrl) : bool :=
  nz (exclusive_in c) || (num_upr_shar c =? upgr_max_readers).
Definition excl_upgr_or_full (c : upgr_ctrl) : bool :=
  nz (exclusive_in c) || nz (upgradable_in c) || (num_upr_shar c =? upgr_max_readers).

(** ** The operations *)

(** [~exclusive_rollback] *)
Definition exclusive_rollback (k : body upgr_ctrl) : body upgr_ctrl :=
  assign (set_exclusive_in 0) (notify (NotifyAll First) k).

(** [~upgradable_to_exclusive_rollback] *)
Definition upgradable_to_exclusive_rollback (k : body upgr_ctrl) : body upgr_ctrl :=
  assign (set_upgradable_in 1) (assign (set_num (λ n, n + 1)) (assign (set_exclusive_in 0) k)).

Definition upgr_lock_second : body upgr_ctrl := wait_while any_reader Second (returns true).

Definition upgr_lock : body upgr_ctrl :=
  wait_while excl_or_upgr First (assign (set_exclusive_in 1) upgr_lock_second).

Definition upgr_try_lock (owns : bool) : body upgr_ctrl :=
  guard (λ c, negb owns || nz (exclusive_in c) || any_reader c)
    (returns false)
    (assign (set_exclusive_in 1) (returns true)).

Definition upgr_timed_lock_second (timed_out : bool) : body upgr_ctrl :=
  timed_wait_while any_reader Second timed_out
    (exclusive_rollback (returns false))
    (returns true).

Definition upgr_timed_lock_first (timed_out : bool) : body upgr_ctrl :=
  timed_wait_while excl_or_upgr First timed_out
    (returns false)
    (assign (set_exclusive_in 1) (upgr_timed_lock_second false)).

Definition upgr_timed_lock (owns : bool) : body upgr_ctrl :=
  if negb owns then returns false else upgr_timed_lock_first false.

Definition upgr_unlock : body upgr_ctrl :=
  assign (set_exclusive_in 0) (notify (NotifyAll First) (returns true)).

Definition mark_upgradable (k : body upgr_ctrl) : body upgr_ctrl :=
  assign (set_upgradable_in 1) (assign (set_num (λ n, n + 1)) k).

Definition upgr_lock_upgradable : body upgr_ctrl :=
  wait_while excl_upgr_or_full First (mark_upgradable (returns true)).

Definition upgr_try_lock_upgradable (owns : bool) : body upgr_ctrl :=
  guard (λ c, negb owns || excl_upgr_or_full c)
    (returns false)
    (mark_upgradable (returns true)).

Definition upgr_timed_lock_upgradable_loop (timed_out : bool) : body upgr_ctrl :=
  timed_wait_while excl_upgr_or_full First timed_out
    (returns false)
    (mark_upgradable (returns true)).

Definition upgr_timed_lock_upgradable (owns : bool) : body upgr_ctrl :=
  if negb owns then returns false else upgr_timed_lock_upgradable_loop false.

Definition upgr_unlock_upgradable : body upgr_ctrl :=
  assign (set_upgradable_in 0) (assign (set_num (λ n, n - 1))
    (notify (NotifyAll First) (returns true))).

Definition upgr_lock_sharable : body upgr_ctrl :=
  wait_while excl_or_full First (assign (set_num (λ n, n + 1)) (returns true)).

Definition upgr_try_lock_sharable (owns : bool) : body upgr_ctrl :=
  guard (λ c, negb owns || excl_or_full c)
    (returns false)
    (assign (set_num (λ n, n + 1)) (returns true)).

Definition upgr_timed_lock_sharable_loop (timed_out : bool) : body upgr_ctrl :=
  timed_wait_while excl_or_full First timed_out
    (returns false)
    (assign (set_num (λ n, n + 1)) (returns true)).

Definition upgr_timed_lock_sharable (owns : bool) : body upgr_ctrl :=
  if negb owns then returns false else upgr_timed_lock_sharable_loop false.

Definition upgr_unlock_sharable : body upgr_ctrl :=
  assign (set_num (λ n, n - 1))
    (guard (λ c, num_upr_shar c =? 0)
       (notify (NotifyOne Second) (returns true))
       (guard (λ c, num_upr_shar c =? upgr_max_readers - 1)
          (notify (NotifyAll First) (returns true))
          (returns true))).

Definition upgr_unlock_and_lock_upgradable : body upgr_ctrl :=
  assign (set_exclusive_in 0) (assign (set_upgradable_in 1) (assign (set_num (λ _, 1))
    (notify (NotifyAll First) (returns true)))).

Definition upgr_unlock_and_lock_sharable : body upgr_ctrl :=
  assign (set_exclusive_in 0) (assign (set_num (λ _, 1))
    (notify (NotifyAll First) (returns true))).

Definition upgr_unlock_upgradable_and_lock_sharable : body upgr_ctrl :=
  assign (set_upgradable_in 0) (notify (NotifyAll First) (returns true)).

(** The first half of the promotions: give up the upgradable mark and count,
    take the exclusive mark. *)
Definition upgrade_marks (k : body upgr_ctrl) : body upgr_ctrl :=
  assign (set_upgradable_in 0) (assign (set_num (λ n, n - 1)) (assign (set_exclusive_in 1) k)).

Definition upgrade_loop : body upgr_ctrl := wait_while any_reader Second (returns true).

Definition upgr_unlock_upgradable_and_lock : body upgr_ctrl := upgrade_marks upgrade_loop.

Definition upgr_try_unlock_upgradable_and_lock (owns : bool) : body upgr_ctrl :=
  guard (λ c, negb owns || negb (num_upr_shar c =? 1))
    (returns false)
    (upgrade_marks (returns true)).

Definition timed_upgrade_loop (timed_out : bool) : body upgr_ctrl :=
  timed_wait_while any_reader Second timed_out
    (upgradable_to_exclusive_rollback (returns false))
    (returns true).

Definition upgr_timed_unlock_upgradable_and_lock (owns : bool) : body upgr_ctrl :=
  if negb owns then returns false else upgrade_marks (timed_upgrade_loop false).

Definition upgr_try_unlock_sharable_and_lock (owns : bool) : body upgr_ctrl :=
  guard (λ c, negb owns || nz (exclusive_in c) || nz (upgradable_in c) || negb (num_upr_shar c =? 1))
    (returns false)
    (assign (set_exclusive_in 1) (assign (set_num (λ _, 0)) (returns true))).

Definition upgr_try_unlock_sharable_and_lock_upgradable (owns : bool) : body upgr_ctrl :=
  guard (λ c, negb owns || nz (exclusive_in c) || nz (upgradable_in c))
    (returns false)
    (assign (set_upgradable_in 1) (returns true)).

(** ** The monitor *)

Inductive upgr_call :=
| ULock | UTryLock | UTimedLock | UUnlock
| ULockUpgradable | UTryLockUpgradable | UTimedLockUpgradable | UUnlockUpgradable
| ULockSharable | UTryLockSharable | UTimedLockSharable | UUnlockSharable
| UUnlockAndLockUpgradable | UUnlockAndLockSharable | UUnlockUpgradableAndLockSharable
| UUnlockUpgradableAndLock | UTryUnlockUpgradableAndLock | UTimedUnlockUpgradableAndLock
| UTryUnlockSharableAndLock | UTryUnlockSharableAndLockUpgradable.

#[export] Instance upgr_call_eq_dec : EqDecision upgr_call.
Proof. solve_decision. Defined.

Definition upgr_before (call : upgr_call) : option mode :=
  match call with
  | ULock | UTryLock | UTimedLock | ULockUpgradable | UTryLockUpgradable | UTimedLockUpgradable
  | ULockSharable | UTryLockSharable | UTimedLockSharable => None
  | UUnlock | UUnlockAndLockUpgradable | UUnlockAndLockSharable => Some Exclusive
  | UUnlockUpgradable | UUnlockUpgradableAndLockSharable | UUnlockUpgradableAndLock
  | UTryUnlockUpgradableAndLock | UTimedUnlockUpgradableAndLock => Some Upgradable
  | UUnlockSharable | UTryUnlockSharableAndLock | UTryUnlockSharableAndLockUpgradable => Some Sharable
  end.

Definition upgr_granted (call : upgr_call) : option mode :=
  match call with
  | ULock | UTryLock | UTimedLock | UUnlockUpgradableAndLock | UTryUnlockUpgradableAndLock
  | UTimedUnlockUpgradableAndLock | UTryUnlockSharableAndLock => Some Exclusive
  | UUnlock | UUnlockUpgradable | UUnlockSharable => None
  | ULockUpgradable | UTryLockUpgradable | UTimedLockUpgradable | UUnlockAndLockUpgradable
  | UTryUnlockSharableAndLockUpgradable => Some Upgradable
  | ULockSharable | UTryLockSharable | UTimedLockSharable | UUnlockAndLockSharable
  | UUnlockUpgradableAndLockSharable => Some Sharable
  end.

Definition upgr_timed (call : upgr_call) : bool :=
  match call with
  | UTimedLock | UTimedLockUpgradable | UTimedLockSharable | UTimedUnlockUpgradableAndLock => true
  | _ => false
  end.

Definition upgr_run (call : upgr_call) (owns : bool) : body upgr_ctrl :=
  match call with
  | ULock => upgr_lock
  | UTryLock => upgr_try_lock owns
  | UTimedLock => upgr_timed_lock owns
  | UUnlock => upgr_unlock
  | ULockUpgradable => upgr_lock_upgradable
  | UTryLockUpgradable => upgr_try_lock_upgradable owns
  | UTimedLockUpgradable => upgr_timed_lock_upgradable owns
  | UUnlockUpgradable => upgr_unlock_upgradable
  | ULockSharable => upgr_lock_sharable
  | UTryLockSharable => upgr_try_lock_sharable owns
  | UTimedLockSharable => upgr_timed_lock_sharable owns
  | UUnlockSharable => upgr_unlock_sharable
  | UUnlockAndLockUpgradable => upgr_unlock_and_lock_upgradable
  | UUnlockAndLockSharable => upgr_unlock_and_lock_sharable
  | UUnlockUpgradableAndLockSharable => upgr_unlock_upgradable_and_lock_sharable
  | UUnlockUpgradableAndLock => upgr_unlock_upgradable_and_lock
  | UTryUnlockUpgradableAndLock => upgr_try_unlock_upgradable_and_lock owns
  | UTimedUnlockUpgradableAndLock => upgr_timed_unlock_upgradable_and_lock owns
  | UTryUnlockSharableAndLock => upgr_try_unlock_sharable_and_lock owns
  | UTryUnlockSharableAndLockUpgradable => upgr_try_unlock_sharable_and_lock_upgradable owns
  end.

Definition timed_out (w : wake) : bool := match w with TimedOut => true | _ => false end.

(** The code after a wait.  An exception of a wait leaves the function through
    the destructors of the roll-back objects alive there. *)
Definition upgr_resume (call : upgr_call) (g : gate) (w : wake) : body upgr_ctrl :=
  match call, g, w with
  | ULock, Second, WaitThrew | UTimedLock, Second, WaitThrew => exclusive_rollback throws
  | UUnlockUpgradableAndLock, Second, WaitThrew
  | UTimedUnlockUpgradableAndLock, Second, WaitThrew => upgradable_to_exclusive_rollback throws
  | _, _, WaitThrew => throws
  | ULock, First, _ => upgr_lock
  | ULock, Second, _ => upgr_lock_second
  | UTimedLock, First, _ => upgr_timed_lock_first (timed_out w)
  | UTimedLock, Second, _ => upgr_timed_lock_second (timed_out w)
  | ULockUpgradable, First, _ => upgr_lock_upgradable
  | UTimedLockUpgradable, First, _ => upgr_timed_lock_upgradable_loop (timed_out w)
  | ULockSharable, First, _ => upgr_lock_sharable
  | UTimedLockSharable, First, _ => upgr_timed_lock_sharable_loop (timed_out w)
  | UUnlockUpgradableAndLock, Second, _ => upgrade_loop
  | UTimedUnlockUpgradableAndLock, Second, _ => timed_upgrade_loop (timed_out w)
  | _, _, _ => throws
  end.

#[export] Instance upgr_monitor : Monitor upgr_ctrl upgr_call := {
  before := upgr_before; granted := upgr_granted; timed := upgr_timed;
  run := upgr_run; resume := upgr_resume
}.

(** ** The invariant *)

Notation uthread := (tstate upgr_call).

Definition owns_mode (m : mode) (th : uthread) : bool :=
  match th with Own (Some m') => mode_eqb m m' | _ => false end.

(** Threads that hold the exclusive mark and wait for the readers to leave, and
    among them those that hold it in exchange for upgradable ownership. *)
Definition draining (th : uthread) : bool :=
  match th with Wait _ Second _ => true | _ => false end.
Definition upgrading (th : uthread) : bool :=
  match th with
  | Wait (UUnlockUpgradableAndLock | UTimedUnlockUpgradableAndLock) Second _ => true
  | _ => false
  end.

(** The gates a call can wait at. *)
Definition wait_ok (th : uthread) : bool :=
  match th with
  | Own _ => true
  | Wait (ULock | UTimedLock) _ _ => true
  | Wait (ULockUpgradable | UTimedLockUpgradable | ULockSharable | UTimedLockSharable) First _ => true
  | Wait (UUnlockUpgradableAndLock | UTimedUnlockUpgradableAndLock) Second _ => true
  | _ => false
  end.

(** The word in terms of the numbers of exclusive owners, draining threads,
    sharable and upgradable owners and upgrading threads. *)
Record upgr_rel (c : upgr_ctrl) (x d s u up : Z) : Prop := {
  ur_excl : exclusive_in c = x + d;
  ur_upgr : upgradable_in c = u;
  ur_num : num_upr_shar c = s + u;
  ur_excl1 : x + d <= 1;
  ur_upgr1 : u <= 1;
  ur_excl_upgr : 0 < x + d → u = 0;
  ur_excl_shar : 0 < x → s = 0;
  ur_max : s + u + up <= 1073741823;
  ur_up : up <= d
}.

Definition upgr_inv (st : sys upgr_ctrl upgr_call) : Prop :=
  let n f := tcount f (s_threads st) in
  upgr_rel (s_ctrl st) (n (owns_mode Exclusive)) (n draining) (n (owns_mode Sharable))
           (n (owns_mode Upgradable)) (n upgrading) ∧
  tcount (λ th, negb (wait_ok th)) (s_threads st) = 0.

Lemma upgr_max_readers_val : upgr_max_readers = 1073741823.
Proof. reflexivity. Qed.

(** One thread's step against the counts of the other threads. *)
Definition thread_step_ok (th : uthread) (c : upgr_ctrl) (th' : uthread) (c' : upgr_ctrl) : Prop :=
  ∀ x d s u up, 0 <= x → 0 <= d → 0 <= s → 0 <= u → 0 <= up <= d →
  upgr_rel c (b2z (owns_mode Exclusive th) + x) (b2z (draining th) + d)
    (b2z (owns_mode Sharable th) + s) (b2z (owns_mode Upgradable th) + u) (b2z (upgrading th) + up) →
  upgr_rel c' (b2z (owns_mode Exclusive th') + x) (b2z (draining th') + d)
    (b2z (owns_mode Sharable th') + s) (b2z (owns_mode Upgradable th') + u) (b2z (upgrading th') + up) ∧
  wait_ok th' = true.

Ltac upgr_bodies :=
  unfold upgr_run, upgr_resume, upgr_lock, upgr_lock_second, upgr_try_lock, upgr_timed_lock,
    upgr_timed_lock_first, upgr_timed_lock_second, upgr_unlock, upgr_lock_upgradable,
    upgr_try_lock_upgradable, upgr_timed_lock_upgradable, upgr_timed_lock_upgradable_loop,
    upgr_unlock_upgradable, upgr_lock_sharable, upgr_try_lock_sharable, upgr_timed_lock_sharable,
    upgr_timed_lock_sharable_loop, upgr_unlock_sharable, upgr_unlock_and_lock_upgradable,
    upgr_unlock_and_lock_sharable, upgr_unlock_upgradable_and_lock_sharable,
    upgr_unlock_upgradable_and_lock, upgr_try_unlock_upgradable_and_lock,
    upgr_timed_unlock_upgradable_and_lock, upgr_try_unlock_sharable_and_lock,
    upgr_try_unlock_sharable_and_lock_upgradable, upgrade_marks, upgrade_loop, timed_upgrade_loop,
    mark_upgradable, exclusive_rollback, upgradable_to_exclusive_rollback, timed_out,
    timed_wait_while, wait_while, guard, assign, notify, returns, throws,
    excl_or_upgr, any_reader, excl_or_full, excl_upgr_or_full,
    set_exclusive_in, set_upgradable_in, set_num, nz in *;
  rewrite ?upgr_max_readers_val in *;
  cbn [exclusive_in upgradable_in num_upr_shar negb orb andb] in *.

Ltac rel_solve :=
  intros x d s u up Hx Hd Hs Hu Hup [R1 R2 R3 R4 R5 R6 R7 R8 R9];
  split; [|reflexivity];
  split; cbn [exclusive_in upgradable_in num_upr_shar b2z owns_mode draining upgrading next
              before granted upgr_monitor upgr_before upgr_granted mode_eqb] in *;
  dlia.

Lemma upgr_run_ok call owns c c' sg r :
  upgr_run call owns c = (c', sg, r) →
  thread_step_ok (Own (upgr_before call)) c (next call r) c'.
Proof.
  intros E. destruct c as [ex ug nm].
  destruct call; upgr_bodies; decide_tests; simplify_eq; rel_solve.
Qed.

Lemma upgr_resume_ok call g b w c c' sg r :
  wait_ok (Wait call g b) = true → upgr_resume call g w c = (c', sg, r) →
  thread_step_ok (Wait call g b) c (next call r) c'.
Proof.
  intros Hw E. destruct c as [ex ug nm].
  destruct call, g; try discriminate Hw; destruct w; upgr_bodies; decide_tests; simplify_eq; rel_solve.
Qed.

Lemma upgr_step_counts ts t th th' c c' sg ts' :
  ts !! t = Some th → thread_step_ok th c th' c' → signals sg (<[t := th']> ts) ts' →
  upgr_inv (Sys c ts) → upgr_inv (Sys c' ts').
Proof.
  intros Ht Hok Hsig [Hrel Hw]. unfold upgr_inv in *. cbn [s_ctrl s_threads] in *.
  assert (∀ f, same_shape f → tcount f ts' = tcount f (<[t := th']> ts)) as Hsh
    by (intros; by eapply signals_tcount).
  rewrite !Hsh by done.
  set (os := <[t := Own None]> ts).
  assert (∀ f, f (Own None) = false → tcount f ts = b2z (f th) + tcount f os ∧
    tcount f (<[t := th']> ts) = b2z (f th') + tcount f os) as Hs by (intros; by apply (tcount_others (Own None))).
  destruct (Hs (owns_mode Exclusive) eq_refl) as [Ex1 Ex2], (Hs draining eq_refl) as [Ed1 Ed2],
    (Hs (owns_mode Sharable) eq_refl) as [Es1 Es2], (Hs (owns_mode Upgradable) eq_refl) as [Eu1 Eu2],
    (Hs upgrading eq_refl) as [Ep1 Ep2], (Hs (λ th, negb (wait_ok th)) eq_refl) as [Ew1 Ew2].
  rewrite Ex1, Ed1, Es1, Eu1, Ep1 in Hrel. apply Hok in Hrel as [Hrel Hw'].
  - rewrite Ex2, Ed2, Es2, Eu2, Ep2, Ew2. split; [done|]. rewrite Hw'. cbn.
    pose proof (tcount_nonneg (λ th, negb (wait_ok th)) os).
    rewrite Ew1 in Hw. destruct (negb (wait_ok th)); cbn in *; lia.
  - apply tcount_nonneg.
  - apply tcount_nonneg.
  - apply tcount_nonneg.
  - apply tcount_nonneg.
  - split; [apply tcount_nonneg|]. apply tcount_le. intros [|[] [] ?]; done.
Qed.

Lemma upgr_waiting ts t call g b :
  tcount (λ th, negb (wait_ok th)) ts = 0 → ts !! t = Some (Wait call g b) → wait_ok (Wait call g b) = true.
Proof.
  intros Hw Ht. destruct (wait_ok _) eqn:E; [done|].
  pose proof (tcount_pos (λ th, negb (wait_ok th)) ts t _ Ht) as Hp. cbv beta in Hp.
  rewrite E in Hp. specialize (Hp eq_refl). lia.
Qed.

Lemma upgr_step_inv st st' : upgr_inv st → step st st' → upgr_inv st'.
Proof.
  intros Hinv Hst. revert Hinv.
  destruct Hst as [c ts t call owns c' sg r ts' Ht Hrun Hsig
    |c ts t call g b w c' sg r ts' Ht Htm Hrun Hsig]; intros Hinv.
  - eapply (upgr_step_counts ts t _ (next call r) c c' sg ts'); [exact Ht| |done|done]. by eapply upgr_run_ok.
  - eapply (upgr_step_counts ts t _ (next call r) c c' sg ts'); [exact Ht| |done|done]. eapply upgr_resume_ok; [|done].
    eapply upgr_waiting; [apply Hinv|done].
Qed.

(** Any number of threads that own nothing, and the constructed mutex. *)
Definition upgr_start (n : nat) : sys upgr_ctrl upgr_call := Sys upgr_init (replicate n (Own None)).

Lemma upgr_start_inv n : upgr_inv (upgr_start n).
Proof.
  assert (∀ f : uthread → bool, f (Own None) = false → tcount f (replicate n (Own None)) = 0) as H0.
  { intros f Hf. induction n as [|n IH]; simpl; [done|]. rewrite Hf. simpl. lia. }
  unfold upgr_inv. cbn [s_ctrl s_threads upgr_start]. rewrite !H0 by done.
  split; [|done]. split; cbn; lia.
Qed.

Lemma upgr_reachable_inv n st : reachable step (upgr_start n) st → upgr_inv st.
Proof. eapply (reachable_ind_inv _ upgr_inv); [apply upgr_step_inv|apply upgr_start_inv]. Qed.

(** ** Sleeping threads *)

(** The condition of the loop a waiting thread is in. *)
Definition wait_cond (call : upgr_call) (g : gate) : upgr_ctrl → bool :=
  match g, call with
  | Second, _ => any_reader
  | First, (ULockUpgradable | UTimedLockUpgradable) => excl_upgr_or_full
  | First, (ULockSharable | UTimedLockSharable) => excl_or_full
  | First, _ => excl_or_upgr
  end.

(** No thread sleeps that could go on. *)
Definition sleepers_blocked (st : sys upgr_ctrl upgr_call) : Prop :=
  ∀ t call g, s_threads st !! t = Some (Wait call g false) → wait_cond call g (s_ctrl st) = true.

(** What a stretch of code does to the other sleepers: what it does not wake
    stays blocked. *)
Definition sleep_step_ok (th : uthread) (call : upgr_call) (c c' : upgr_ctrl)
    (sg : list signal) (r : result) : Prop :=
  ∀ x d s u up, 0 <= x → 0 <= d → 0 <= s → 0 <= u → 0 <= up <= d →
  upgr_rel c (b2z (owns_mode Exclusive th) + x) (b2z (draining th) + d)
    (b2z (owns_mode Sharable th) + s) (b2z (owns_mode Upgradable th) + u) (b2z (upgrading th) + up) →
  (NotifyAll First ∈ sg ∨ ∀ k, wait_cond k First c = true → wait_cond k First c' = true) ∧
  (NotifyOne Second ∈ sg ∨ d = 0 ∨ (any_reader c = true → any_reader c' = true)) ∧
  (∀ g, r = Blocked g → wait_cond call g c' = true).

Ltac sleep_solve :=
  let R := fresh in
  intros x d s u up Hx Hd Hs Hu Hup R;
  destruct R as [R1 R2 R3 R4 R5 R6 R7 R8 R9];
  cbn [exclusive_in upgradable_in num_upr_shar b2z owns_mode draining upgrading next
       before granted upgr_monitor upgr_before upgr_granted mode_eqb] in *;
  split_and!;
  [ first [ left; by constructor
          | right; intros []; unfold wait_cond; upgr_bodies; dlia ]
  | first [ left; by constructor | right; left; lia | right; right; upgr_bodies; dlia ]
  | intros ? [=]; subst; unfold wait_cond; upgr_bodies; dlia ].

Lemma upgr_run_sleep call owns c c' sg r :
  upgr_run call owns c = (c', sg, r) → sleep_step_ok (Own (upgr_before call)) call c c' sg r.
Proof.
  intros E. destruct c as [ex ug nm].
  destruct call; upgr_bodies; decide_tests; simplify_eq; sleep_solve.
Qed.

Lemma upgr_resume_sleep call g b w c c' sg r :
  wait_ok (Wait call g b) = true → upgr_resume call g w c = (c', sg, r) →
  (upgrading (Wait call g b) = true → next call r ≠ Own (Some Upgradable)) →
  sleep_step_ok (Wait call g b) call c c' sg r.
Proof.
  intros Hw E Hno. destruct c as [ex ug nm].
  destruct call, g; try discriminate Hw; destruct w; upgr_bodies; decide_tests; simplify_eq;
    try (by destruct Hno); sleep_solve.
Qed.

Lemma upgr_step_sleepers ts t th call r c c' sg ts' :
  ts !! t = Some th → sleep_step_ok th call c c' sg r →
  signals sg (<[t := next call r]> ts) ts' →
  upgr_inv (Sys c ts) → upgr_inv (Sys c' ts') →
  sleepers_blocked (Sys c ts) → sleepers_blocked (Sys c' ts').
Proof.
  intros Ht Hok Hsig [Hrel _] [Hrel' _] Hsl t' call' g Ht'. cbn [s_ctrl s_threads] in *.
  set (os := <[t := Own None]> ts).
  assert (∀ f, f (Own None) = false → tcount f ts = b2z (f th) + tcount f os) as Hs
    by (intros f Hf; by destruct (tcount_others (Own None) f ts t th (Own None) Ht Hf)).
  rewrite !Hs in Hrel by done.
  apply Hok in Hrel as (H1 & H2 & H3); try apply tcount_nonneg;
    [|split; [apply tcount_nonneg|apply tcount_le; by intros [|[] [] ?]]].
  pose proof (signals_asleep _ _ _ _ _ _ Hsig Ht') as Hb.
  destruct (decide (t = t')) as [<-|Hne].
  { rewrite list_lookup_insert_eq in Hb by (by eapply lookup_lt_Some).
    destruct r as [[]| |g']; simpl in Hb; simplify_eq. by apply H3. }
  rewrite list_lookup_insert_ne in Hb by done. apply Hsl in Hb as Hc. cbn [s_ctrl] in Hc. destruct g.
  - destruct H1 as [H1|H1]; [|by apply H1]. by destruct (signals_all _ _ _ _ _ _ Hsig H1 Ht').
  - destruct H2 as [H2|[H2|H2]]; [|exfalso|by apply H2].
    + exfalso. eapply (signals_one _ _ _ t' call' Second Hsig H2); [|done].
      destruct Hrel' as [_ _ _ Hle _ _ _ _ _]. rewrite (signals_tcount draining _ _ _ ltac:(done) Hsig) in Hle.
      pose proof (tcount_nonneg (owns_mode Exclusive) ts').
      etrans; [apply (tcount_le _ draining)|lia]. intros [|? [] ?]; done.
    + assert (os !! t' = Some (Wait call' Second false)) as Ho by (unfold os; by rewrite list_lookup_insert_ne).
      pose proof (tcount_pos draining os t' _ Ho eq_refl). lia.
Qed.

(** A step in which no upgrade is rolled back: no thread that waits with the
    exclusive mark goes back to upgradable ownership. *)
Definition quiet_step (st st' : sys upgr_ctrl upgr_call) : Prop :=
  step st st' ∧
  ∀ t call b, s_threads st !! t = Some (Wait call Second b) → upgrading (Wait call Second b) = true →
    s_threads st' !! t ≠ Some (Own (Some Upgradable)).

Lemma signals_own sg (ts ts' : list uthread) t m :
  signals sg ts ts' → ts !! t = Some (Own m) → ts' !! t = Some (Own m).
Proof.
  induction 1 as [|s sg ts1 ts2 ts3 Hs _ IH]; [done|]. intros Ht. apply IH. clear IH.
  destruct Hs as [g ts|g ts t' th Ht' Ha|]; [|..|done].
  - by rewrite list_lookup_fmap, Ht.
  - destruct (decide (t = t')) as [->|]; [|by rewrite list_lookup_insert_ne].
    rewrite Ht in Ht'. by simplify_eq.
Qed.

Lemma quiet_step_sleepers st st' :
  upgr_inv st → sleepers_blocked st → quiet_step st st' → sleepers_blocked st'.
Proof.
  intros Hinv Hsl [Hst Hq]. pose proof (upgr_step_inv _ _ Hinv Hst) as Hinv'. revert Hinv Hsl Hq Hinv'.
  destruct Hst as [c ts t call owns c' sg r ts' Ht Hrun Hsig
    |c ts t call g b w c' sg r ts' Ht Htm Hrun Hsig]; intros Hinv Hsl Hq Hinv'.
  - eapply (upgr_step_sleepers ts t _ call r c c' sg ts'); [exact Ht| |done..]. by eapply upgr_run_sleep.
  - eapply (upgr_step_sleepers ts t _ call r c c' sg ts'); [exact Ht| |done..].
    eapply upgr_resume_sleep; [|done|]; [eapply upgr_waiting; [apply Hinv|done]|].
    intros Hup E. rewrite E in Hsig.
    destruct g; [by destruct call|]. eapply (Hq t call b); [done|done|].
    eapply signals_own; [done|]. apply list_lookup_insert_eq. by eapply lookup_lt_Some.
Qed.

Lemma quiet_reachable n st :
  reachable quiet_step (upgr_start n) st → upgr_inv st ∧ sleepers_blocked st.
Proof.
  eapply (reachable_ind_inv _ (λ st, upgr_inv st ∧ sleepers_blocked st)).
  - intros st1 st2 [H1 H2] Hq. split; [eapply upgr_step_inv; [done|apply Hq]|by eapply quiet_step_sleepers].
  - split; [apply upgr_start_inv|]. intros t call g Ht. cbn in Ht.
    by apply lookup_replicate in Ht as [[=] _].
Qed.

(** ** The theorems *)

(** Only compatible ownership is held together. *)
Lemma upgr_compatible (n : nat) st t t' m m' :
  reachable step (upgr_start n) st → t ≠ t' →
  s_threads st !! t = Some (Own (Some m)) → s_threads st !! t' = Some (Own (Some m')) →
  (m = Sharable ∧ m' ≠ Exclusive) ∨ (m ≠ Exclusive ∧ m' = Sharable).
Proof.
  intros [Hrel _]%upgr_reachable_inv Hne Ht Ht'. destruct Hrel as [_ _ _ R4 R5 R6 R7 _ _].
  pose proof (λ f, tcount_two f (s_threads st) t t' _ _ Hne Ht Ht') as H2.
  pose proof (tcount_nonneg draining (s_threads st)).
  assert (∀ t m, s_threads st !! t = Some (Own (Some m)) → 1 <= tcount (owns_mode m) (s_threads st)) as H1.
  { intros t0 m0 Ht0. eapply tcount_pos; [done|]. by destruct m0. }
  pose proof (H1 _ _ Ht). pose proof (H1 _ _ Ht').
  destruct m, m'; try (by left); try (by right); exfalso;
    try (specialize (H2 (owns_mode Exclusive) eq_refl eq_refl); lia);
    try (specialize (H2 (owns_mode Upgradable) eq_refl eq_refl); lia); lia.
Qed.

(** The control word is exact in every reachable state: the exclusive bit
    tells that a thread owns the mutex exclusively or drains the readers, the
    upgradable bit that there is an upgradable owner, and the 30-bit count is
    the number of sharable and upgradable owners, which never overflows. *)
Lemma upgr_control_word (n : nat) st :
  reachable step (upgr_start n) st →
  let c := s_ctrl st in
  let count f := tcount f (s_threads st) in
  exclusive_in c = count (owns_mode Exclusive) + count draining ∧ exclusive_in c <= 1 ∧
  upgradable_in c = count (owns_mode Upgradable) ∧ upgradable_in c <= 1 ∧
  num_upr_shar c = count (owns_mode Sharable) + count (owns_mode Upgradable) ∧
  num_upr_shar c <= upgr_max_readers.
Proof.
  intros [Hrel _]%upgr_reachable_inv. destruct Hrel as [R1 R2 R3 R4 R5 R6 R7 R8 R9]. cbv zeta.
  rewrite upgr_max_readers_val. pose proof (tcount_nonneg upgrading (s_threads st)).
  split_and!; lia.
Qed.

(** C3: [interprocess_upgradable_mutex] excludes: in every interleaving of
    calls, waits, time-outs, spurious wake-ups and exceptions by any number of
    threads, no two threads hold ownership together unless both are sharable
    or one is sharable and the other upgradable.  The control word is exact:
    the exclusive bit tells that a thread owns the mutex exclusively or drains
    the readers, the upgradable bit that there is an upgradable owner, and the
    30-bit count is the number of sharable and upgradable owners, which never
    overflows. *)
Theorem upgr_exclusion (n : nat) st :
  reachable step (upgr_start n) st →
  (∀ t t' m m', t ≠ t' →
     s_threads st !! t = Some (Own (Some m)) → s_threads st !! t' = Some (Own (Some m')) →
     (m = Sharable ∧ m' ≠ Exclusive) ∨ (m ≠ Exclusive ∧ m' = Sharable)) ∧
  let c := s_ctrl st in
  let count f := tcount f (s_threads st) in
  exclusive_in c = count (owns_mode Exclusive) + count draining ∧ exclusive_in c <= 1 ∧
  upgradable_in c = count (owns_mode Upgradable) ∧ upgradable_in c <= 1 ∧
  num_upr_shar c = count (owns_mode Sharable) + count (owns_mode Upgradable) ∧
  num_upr_shar c <= upgr_max_readers.
Proof.
  intros Hr. split; [|by eapply upgr_control_word]. intros t t' m m' Hne Ht Ht'. by eapply upgr_compatible.
Qed.

(** C24: as long as no upgrade is rolled back, no wake-up is lost: a thread
    that was not notified since it went to sleep still has to wait; and the
    mutex does not deadlock: if some thread waits, then a thread has ownership
    (and can release it) or a waiting thread is awake. *)
Theorem upgr_no_lost_wakeup (n : nat) st :
  reachable quiet_step (upgr_start n) st →
  sleepers_blocked st ∧
  ((∃ t call g b, s_threads st !! t = Some (Wait call g b)) →
   (∃ t m, s_threads st !! t = Some (Own (Some m))) ∨
   (∃ t call g, s_threads st !! t = Some (Wait call g true))).
Proof.
  intros [[Hrel Hw] Hsl]%quiet_reachable. split; [done|].
  destruct Hrel as [R1 R2 R3 R4 R5 R6 R7 R8 R9].
  assert (∀ m, 0 < tcount (owns_mode m) (s_threads st) → ∃ t m, s_threads st !! t = Some (Own (Some m))) as Hown.
  { intros m (t & [[m'|]|] & Ht & Hm)%tcount_exists; [by exists t, m'|done..]. }
  assert (0 < num_upr_shar (s_ctrl st) → ∃ t m, s_threads st !! t = Some (Own (Some m))) as Hnum.
  { intros Hn. destruct (decide (0 < tcount (owns_mode Sharable) (s_threads st))) as [|]; [by eapply Hown|].
    apply (Hown Upgradable). lia. }
  assert (∀ t call g b, s_threads st !! t = Some (Wait call g b) → g = Second →
    (∃ t m, s_threads st !! t = Some (Own (Some m))) ∨
    (∃ t call g, s_threads st !! t = Some (Wait call g true))) as Hsecond.
  { intros t call g [] Ht ->; [right; by eauto|]. left. apply Hnum.
    apply Hsl in Ht. cbn in Ht. unfold any_reader, nz in Ht.
    pose proof (tcount_nonneg (owns_mode Sharable) (s_threads st)).
    pose proof (tcount_nonneg (owns_mode Upgradable) (s_threads st)). lia. }
  intros (t & call & g & b & Ht). destruct b; [right; by eauto|].
  destruct g; [|by eapply Hsecond]. apply Hsl in Ht.
  assert (0 < num_upr_shar (s_ctrl st) ∨ exclusive_in (s_ctrl st) ≠ 0 ∨ upgradable_in (s_ctrl st) ≠ 0) as Hc.
  { unfold wait_cond in Ht. destruct call; upgr_bodies; lia. }
  destruct Hc as [Hc|[Hc|Hc]]; [left; by apply Hnum| |].
  - destruct (decide (0 < tcount (owns_mode Exclusive) (s_threads st))); [left; by eapply Hown|].
    assert (0 < tcount draining (s_threads st)) as (t' & th & Ht' & Hd)%tcount_exists.
    { pose proof (tcount_nonneg draining (s_threads st)).
      pose proof (tcount_nonneg (owns_mode Exclusive) (s_threads st)). lia. }
    destruct th as [|call' [] b']; try done. by eapply Hsecond.
  - left. apply (Hown Upgradable). pose proof (tcount_nonneg (owns_mode Upgradable) (s_threads st)). lia.
Qed.

(** The try functions succeed exactly when the ownership they ask for is
    available, given that the internal mutex was free: they fail while a
    thread drains the readers, they need the absence of incompatible owners,
    and promotions need that no other thread is a reader. *)
Lemma upgr_try_exact (n : nat) st :
  reachable step (upgr_start n) st →
  let count f := tcount f (s_threads st) in
  let succeeds call := ∃ c', run call true (s_ctrl st) = (c', [], Returned true) in
  let readers := count (owns_mode Sharable) + count (owns_mode Upgradable) in
  let marked := count (owns_mode Exclusive) + count draining in
  (succeeds UTryLock ↔ marked = 0 ∧ readers = 0) ∧
  (succeeds UTryLockSharable ↔ marked = 0 ∧ readers < upgr_max_readers) ∧
  (succeeds UTryLockUpgradable ↔
     marked = 0 ∧ count (owns_mode Upgradable) = 0 ∧ readers < upgr_max_readers) ∧
  (succeeds UTryUnlockUpgradableAndLock ↔ readers = 1) ∧
  (succeeds UTryUnlockSharableAndLock ↔
     marked = 0 ∧ count (owns_mode Upgradable) = 0 ∧ readers = 1) ∧
  (succeeds UTryUnlockSharableAndLockUpgradable ↔ marked = 0 ∧ count (owns_mode Upgradable) = 0).
Proof.
  intros [Hrel _]%upgr_reachable_inv. destruct Hrel as [R1 R2 R3 R4 R5 R6 R7 R8 R9]. cbv zeta.
  pose proof (λ f, tcount_nonneg f (s_threads st)) as Hnn.
  pose proof (Hnn (owns_mode Exclusive)). pose proof (Hnn draining).
  pose proof (Hnn (owns_mode Sharable)). pose proof (Hnn (owns_mode Upgradable)).
  pose proof (Hnn upgrading). destruct (s_ctrl st) as [ex ug nm].
  cbn [run upgr_monitor exclusive_in upgradable_in num_upr_shar] in *.
  assert (∀ (b : bool) c1 c2 (P : Prop), (b = false ↔ P) →
    (∃ c', (if b then (c1, [], Returned false) else (c2, [], Returned true)) =
           (c', @nil signal, Returned true) :> upgr_ctrl * list signal * result) ↔ P) as Hif.
  { intros [] c1 c2 P HP; rewrite <- HP; split; [by intros (? & [=])|done|done|by eexists]. }
  split_and!; upgr_bodies; apply Hif; lia.
Qed.

(** ** Runs *)

(** One reader and one upgradable owner. *)
Definition demo_shared : sys upgr_ctrl upgr_call :=
  Sys (UCtrl 0 1 2) [Own (Some Sharable); Own (Some Upgradable); Own None].

(** The upgradable owner tries to upgrade with a deadline, a second reader
    arrives, the deadline passes. *)
Definition demo_stuck : sys upgr_ctrl upgr_call :=
  Sys (UCtrl 0 1 2) [Own (Some Sharable); Own (Some Upgradable); Wait ULockSharable First false].

Lemma demo_shared_reachable : reachable step (upgr_start 3) demo_shared.
Proof.
  eapply reach_step; [eapply reach_step; [apply reach_refl|]|].
  - do_call 0%nat ULockSharable.
  - do_call 1%nat ULockUpgradable.
Qed.

Lemma demo_shared_quiet : reachable quiet_step (upgr_start 3) demo_shared.
Proof.
  eapply reach_step; [eapply reach_step; [apply reach_refl|]|].
  - split; [do_call 0%nat ULockSharable|].
    intros t call b Ht. cbn in Ht. by apply (lookup_replicate 3) in Ht as [[=] _].
  - split; [do_call 1%nat ULockUpgradable|].
    intros [|[|[|]]] call b; cbn; intros [=].
Qed.

Lemma upgr_exclusion_witness :
  ((Sharable = Sharable ∧ Upgradable ≠ Exclusive) ∨ (Sharable ≠ Exclusive ∧ Upgradable = Sharable)) ∧
  num_upr_shar (s_ctrl demo_shared) = 2 ∧ num_upr_shar (s_ctrl demo_shared) <= upgr_max_readers.
Proof.
  destruct (upgr_exclusion 3 demo_shared demo_shared_reachable) as (H & _ & _ & _ & _ & E1 & E2).
  split; [|split; [exact E1|exact E2]]. apply (H 0%nat 1%nat); [lia|reflexivity|reflexivity].
Defined.

(** The third thread asks for exclusive ownership and sleeps; and another run, in
    which the exclusive owner has just released the mutex and woken the other. *)
Definition demo_waiting : sys upgr_ctrl upgr_call :=
  Sys (UCtrl 0 1 2) [Own (Some Sharable); Own (Some Upgradable); Wait ULock First false].
Definition demo_woken : sys upgr_ctrl upgr_call := Sys (UCtrl 0 0 0) [Own None; Wait ULock First true].

Lemma demo_waiting_quiet : reachable quiet_step (upgr_start 3) demo_waiting.
Proof.
  eapply reach_step; [apply demo_shared_quiet|]. split; [do_call 2%nat ULock|].
  intros [|[|[|]]] call b; cbn; intros [=].
Qed.

Lemma demo_woken_quiet : reachable quiet_step (upgr_start 2) demo_woken.
Proof.
  eapply reach_step; [eapply reach_step; [eapply reach_step; [apply reach_refl|]|]|].
  - split; [do_call 0%nat ULock|]. intros [|[|]] call b; cbn; intros [=].
  - split; [do_call 1%nat ULock|]. intros [|[|]] call b; cbn; intros [=].
  - split; [do_call 0%nat UUnlock|]. intros [|[|]] call b; cbn; intros [=].
Qed.

Lemma upgr_no_lost_wakeup_witness :
  s_threads demo_waiting !! 2%nat = Some (Wait ULock First false) ∧ excl_or_upgr (s_ctrl demo_waiting) = true ∧
  ((∃ t m, s_threads demo_waiting !! t = Some (Own (Some m))) ∨
   (∃ t call g, s_threads demo_waiting !! t = Some (Wait call g true))) ∧
  ((∃ t m, s_threads demo_woken !! t = Some (Own (Some m))) ∨
   (∃ t call g, s_threads demo_woken !! t = Some (Wait call g true))).
Proof.
  destruct (upgr_no_lost_wakeup 3 demo_waiting demo_waiting_quiet) as [H1 H2].
  destruct (upgr_no_lost_wakeup 2 demo_woken demo_woken_quiet) as [_ H3].
  split; [reflexivity|]. split; [exact (H1 2%nat ULock First eq_refl)|]. split.
  - apply H2. exists 2%nat, ULock, First, false. reflexivity.
  - apply H3. exists 1%nat, ULock, First, true. reflexivity.
Defined.

Lemma upgr_try_exact_demo :
  ¬ ∃ c', run UTryLock true (s_ctrl demo_shared) = (c', [], Returned true).
Proof.
  destruct (upgr_try_exact 3 demo_shared demo_shared_reachable) as [H _].
  intros [_ H']%H. vm_compute in H'. discriminate H'.
Defined.

(** A timed upgrade that times out loses a wake-up: its roll-back clears
    the exclusive mark without notifying the first gate, so that a reader that
    arrived meanwhile sleeps on although nothing excludes it and a new
    [lock_sharable] would succeed at once. *)
Lemma upgr_rollback_loses_wakeup :
  reachable step (upgr_start 3) demo_stuck ∧
  s_threads demo_stuck !! 2%nat = Some (Wait ULockSharable First false) ∧
  wait_cond ULockSharable First (s_ctrl demo_stuck) = false ∧
  run ULockSharable true (s_ctrl demo_stuck) = (UCtrl 0 1 3, [], Returned true).
Proof.
  split_and!; [|reflexivity..].
  eapply reach_step; [eapply reach_step; [eapply reach_step; [apply demo_shared_reachable|]|]|].
  - do_call 1%nat UTimedUnlockUpgradableAndLock.
  - do_call 2%nat ULockSharable.
  - eapply (step_wake _ _ 1%nat UTimedUnlockUpgradableAndLock Second false TimedOut);
      [reflexivity|reflexivity|reflexivity|repeat econstructor].
Qed.
