(* ===== verification/SharableMutex.v ===== *)
(** [interprocess_sharable_mutex] (sync/interprocess_sharable_mutex.hpp): the
    two-mode sibling of the upgradable mutex, as a monitor of its own.  Its
    roll-back notifies, so no wake-up is lost in any run. *)

From S2P Require Import Prelude Monitor.

(** ** The control word: 1 and 31 bits *)

Record shar_ctrl := SCtrl { sexclusive_in : Z; num_shared : Z }.

Definition set_sexclusive_in (v : Z) (c : shar_ctrl) : shar_ctrl := SCtrl (v mod 2) (num_shared c).
Definition set_num_shared (f : Z → Z) (c : shar_ctrl) : shar_ctrl :=
  SCtrl (sexclusive_in c) (f (num_shared c) mod 2147483648).

(** [~(unsigned(1) << 31)] *)
Definition shar_max_readers : Z := Z.lxor 4294967295 (Z.shiftl 1 31 mod 4294967296).

Definition shar_init : shar_ctrl := SCtrl 0 0.

Definition sexcl (c : shar_ctrl) : bool := nz (sexclusive_in c).
Definition sreaders (c : shar_ctrl) : bool := nz (num_shared c).
Definition sexcl_or_full (c : shar_ctrl) : bool :=
  nz (sexclusive_in c) || (num_shared c =? shar_max_readers).

(** ** The operations *)

Definition shar_exclusive_rollback (k : body shar_ctrl) : body shar_ctrl :=
  assign (set_sexclusive_in 0) (notify (NotifyAll First) k).

Definition shar_lock_second : body shar_ctrl := wait_while sreaders Second (returns true).

Definition shar_lock : body shar_ctrl :=
  wait_while sexcl First (assign (set_sexclusive_in 1) shar_lock_second).

Definition shar_try_lock (owns : bool) : body shar_ctrl :=
  guard (λ c, negb owns || sexcl c || sreaders c)
    (returns false)
    (assign (set_sexclusive_in 1) (returns true)).

Definition shar_timed_lock_second (timed_out : bool) : body shar_ctrl :=
  timed_wait_while sreaders Second timed_out
    (shar_exclusive_rollback (returns false))
    (returns true).

Definition shar_timed_lock_first (timed_out : bool) : body shar_ctrl :=
  timed_wait_while sexcl First timed_out
    (returns false)
    (assign (set_sexclusive_in 1) (shar_timed_lock_second false)).

Definition shar_timed_lock (owns : bool) : body shar_ctrl :=
  if negb owns then returns false else shar_timed_lock_first false.

Definition shar_unlock : body shar_ctrl :=
  assign (set_sexclusive_in 0) (notify (NotifyAll First) (returns true)).

Definition shar_lock_sharable : body shar_ctrl :=
  wait_while sexcl_or_full First (assign (set_num_shared (λ n, n + 1)) (returns true)).

Definition shar_try_lock_sharable (owns : bool) : body shar_ctrl :=
  guard (λ c, negb owns || sexcl_or_full c)
    (returns false)
    (assign (set_num_shared (λ n, n + 1)) (returns true)).

Definition shar_timed_lock_sharable_loop (timed_out : bool) : body shar_ctrl :=
  timed_wait_while sexcl_or_full First timed_out
    (returns false)
    (assign (set_num_shared (λ n, n + 1)) (returns true)).

Definition shar_timed_lock_sharable (owns : bool) : body shar_ctrl :=
  if negb owns then returns false else shar_timed_lock_sharable_loop false.

Definition shar_unlock_sharable : body shar_ctrl :=
  assign (set_num_shared (λ n, n - 1))
    (guard (λ c, num_shared c =? 0)
       (notify (NotifyOne Second) (returns true))
       (guard (λ c, num_shared c =? shar_max_readers - 1)
          (notify (NotifyAll First) (returns true))
          (returns true))).

(** ** The monitor *)

Inductive shar_call :=
| SLock | STryLock | STimedLock | SUnlock
| SLockSharable | STryLockSharable | STimedLockSharable | SUnlockSharable.

Definition shar_before (call : shar_call) : option mode :=
  match call with
  | SUnlock => Some Exclusive
  | SUnlockSharable => Some Sharable
  | _ => None
  end.

Definition shar_granted (call : shar_call) : option mode :=
  match call with
  | SLock | STryLock | STimedLock => Some Exclusive
  | SLockSharable | STryLockSharable | STimedLockSharable => Some Sharable
  | SUnlock | SUnlockSharable => None
  end.

Definition shar_run (call : shar_call) (owns : bool) : body shar_ctrl :=
  match call with
  | SLock => shar_lock
  | STryLock => shar_try_lock owns
  | STimedLock => shar_timed_lock owns
  | SUnlock => shar_unlock
  | SLockSharable => shar_lock_sharable
  | STryLockSharable => shar_try_lock_sharable owns
  | STimedLockSharable => shar_timed_lock_sharable owns
  | SUnlockSharable => shar_unlock_sharable
  end.

Definition is_timed_out (w : wake) : bool := match w with TimedOut => true | _ => false end.

Definition shar_resume (call : shar_call) (g : gate) (w : wake) : body shar_ctrl :=
  match call, g, w with
  | SLock, Second, WaitThrew | STimedLock, Second, WaitThrew => shar_exclusive_rollback throws
  | _, _, WaitThrew => throws
  | SLock, First, _ => shar_lock
  | SLock, Second, _ => shar_lock_second
  | STimedLock, First, _ => shar_timed_lock_first (is_timed_out w)
  | STimedLock, Second, _ => shar_timed_lock_second (is_timed_out w)
  | SLockSharable, First, _ => shar_lock_sharable
  | STimedLockSharable, First, _ => shar_timed_lock_sharable_loop (is_timed_out w)
  | _, _, _ => throws
  end.

#[export] Instance shar_monitor : Monitor shar_ctrl shar_call := {
  before := shar_before; granted := shar_granted;
  timed := λ call, match call with STimedLock | STimedLockSharable => true | _ => false end;
  run := shar_run; resume := shar_resume
}.

(** ** The invariant *)

Notation sthread := (tstate shar_call).

Definition sowns (m : mode) (th : sthread) : bool :=
  match th with Own (Some m') => mode_eqb m m' | _ => false end.
Definition sdraining (th : sthread) : bool :=
  match th with Wait _ Second _ => true | _ => false end.
Definition sthread_ok (th : sthread) : bool :=
  match th with
  | Own (Some Upgradable) => false
  | Own _ => true
  | Wait (SLock | STimedLock) _ _ => true
  | Wait (SLockSharable | STimedLockSharable) First _ => true
  | _ => false
  end.

Record shar_rel (c : shar_ctrl) (x d s : Z) : Prop := {
  sr_excl : sexclusive_in c = x + d;
  sr_num : num_shared c = s;
  sr_excl1 : x + d <= 1;
  sr_shar : 0 < x → s = 0;
  sr_max : s <= 2147483647
}.

Definition shar_inv (st : sys shar_ctrl shar_call) : Prop :=
  let n f := tcount f (s_threads st) in
  shar_rel (s_ctrl st) (n (sowns Exclusive)) (n sdraining) (n (sowns Sharable)) ∧
  tcount (λ th, negb (sthread_ok th)) (s_threads st) = 0.

Lemma shar_max_readers_val : shar_max_readers = 2147483647.
Proof. reflexivity. Qed.

Definition swait_cond (call : shar_call) (g : gate) : shar_ctrl → bool :=
  match g, call with
  | Second, _ => sreaders
  | First, (SLockSharable | STimedLockSharable) => sexcl_or_full
  | First, _ => sexcl
  end.

Definition ssleepers_blocked (st : sys shar_ctrl shar_call) : Prop :=
  ∀ t call g, s_threads st !! t = Some (Wait call g false) → swait_cond call g (s_ctrl st) = true.

(** One thread's step: its effect on the counts and on the other sleepers. *)
Definition shar_step_ok (th : sthread) (call : shar_call) (c c' : shar_ctrl)
    (sg : list signal) (r : result) : Prop :=
  ∀ x d s, 0 <= x → 0 <= d → 0 <= s →
  shar_rel c (b2z (sowns Exclusive th) + x) (b2z (sdraining th) + d) (b2z (sowns Sharable th) + s) →
  let th' := next call r in
  shar_rel c' (b2z (sowns Exclusive th') + x) (b2z (sdraining th') + d) (b2z (sowns Sharable th') + s) ∧
  sthread_ok th' = true ∧
  (NotifyAll First ∈ sg ∨ ∀ k, swait_cond k First c = true → swait_cond k First c' = true) ∧
  (NotifyOne Second ∈ sg ∨ d = 0 ∨ (sreaders c = true → sreaders c' = true)) ∧
  (∀ g, r = Blocked g → swait_cond call g c' = true).

Ltac shar_bodies :=
  unfold shar_run, shar_resume, shar_lock, shar_lock_second, shar_try_lock, shar_timed_lock,
    shar_timed_lock_first, shar_timed_lock_second, shar_unlock, shar_lock_sharable,
    shar_try_lock_sharable, shar_timed_lock_sharable, shar_timed_lock_sharable_loop,
    shar_unlock_sharable, shar_exclusive_rollback, is_timed_out,
    timed_wait_while, wait_while, guard, assign, notify, returns, throws,
    sexcl, sreaders, sexcl_or_full, set_sexclusive_in, set_num_shared, nz in *;
  rewrite ?shar_max_readers_val in *;
  cbn [sexclusive_in num_shared negb orb andb] in *.

Ltac shar_solve :=
  let R := fresh in
  intros x d s Hx Hd Hs R; destruct R as [R1 R2 R3 R4 R5];
  cbn [sexclusive_in num_shared b2z sowns sdraining next
       before granted shar_monitor shar_before shar_granted mode_eqb] in *; cbv zeta;
  split_and!;
  [ split; cbn [sexclusive_in num_shared]; dlia
  | reflexivity
  | first [ left; by constructor | right; intros []; unfold swait_cond; shar_bodies; dlia ]
  | first [ left; by constructor | right; left; lia | right; right; shar_bodies; dlia ]
  | intros ? [=]; subst; unfold swait_cond; shar_bodies; dlia ].

Lemma shar_run_ok call owns c c' sg r :
  shar_run call owns c = (c', sg, r) → shar_step_ok (Own (shar_before call)) call c c' sg r.
Proof.
  intros E. destruct c as [ex nm].
  destruct call; shar_bodies; decide_tests; simplify_eq; shar_solve.
Qed.

Lemma shar_resume_ok call g b w c c' sg r :
  sthread_ok (Wait call g b) = true → shar_resume call g w c = (c', sg, r) →
  shar_step_ok (Wait call g b) call c c' sg r.
Proof.
  intros Hw E. destruct c as [ex nm].
  destruct call, g; try discriminate Hw; destruct w; shar_bodies; decide_tests; simplify_eq; shar_solve.
Qed.

(** The counts of the other threads, for the thread [t] of a step. *)
Lemma shar_step_facts ts t th call r c c' sg :
  ts !! t = Some th → shar_step_ok th call c c' sg r → shar_inv (Sys c ts) →
  let ts1 := <[t := next call r]> ts in
  shar_inv (Sys c' ts1) ∧
  (NotifyAll First ∈ sg ∨ ∀ k, swait_cond k First c = true → swait_cond k First c' = true) ∧
  (NotifyOne Second ∈ sg ∨ tcount sdraining (<[t := Own None]> ts) = 0 ∨
     (sreaders c = true → sreaders c' = true)) ∧
  (∀ g, r = Blocked g → swait_cond call g c' = true).
Proof.
  intros Ht Hok [Hrel Hw]. unfold shar_inv in *. cbn [s_ctrl s_threads] in *. cbv zeta.
  set (os := <[t := Own None]> ts).
  assert (∀ f, f (Own None) = false → tcount f ts = b2z (f th) + tcount f os ∧
    tcount f (<[t := next call r]> ts) = b2z (f (next call r)) + tcount f os) as Hs
    by (intros; by apply (tcount_others (Own None))).
  destruct (Hs (sowns Exclusive) eq_refl) as [Ex1 Ex2], (Hs sdraining eq_refl) as [Ed1 Ed2],
    (Hs (sowns Sharable) eq_refl) as [Es1 Es2], (Hs (λ th, negb (sthread_ok th)) eq_refl) as [Ew1 Ew2].
  rewrite Ex1, Ed1, Es1 in Hrel. apply Hok in Hrel as (Hrel & Hw' & Hrest); try apply tcount_nonneg.
  split; [|exact Hrest]. rewrite Ex2, Ed2, Es2, Ew2. split; [done|]. rewrite Hw'. cbn.
  pose proof (tcount_nonneg (λ th, negb (sthread_ok th)) os).
  rewrite Ew1 in Hw. destruct (negb (sthread_ok th)); cbn in *; lia.
Qed.

Lemma shar_inv_signals c ts sg ts' : signals sg ts ts' → shar_inv (Sys c ts) → shar_inv (Sys c ts').
Proof.
  intros Hsig. unfold shar_inv. cbn [s_ctrl s_threads].
  assert (∀ f, same_shape f → tcount f ts' = tcount f ts) as Hsh by (intros; by eapply signals_tcount).
  by rewrite !Hsh by done.
Qed.

Lemma shar_thread_step ts t th call r c c' sg ts' :
  ts !! t = Some th → shar_step_ok th call c c' sg r →
  signals sg (<[t := next call r]> ts) ts' →
  shar_inv (Sys c ts) → ssleepers_blocked (Sys c ts) →
  shar_inv (Sys c' ts') ∧ ssleepers_blocked (Sys c' ts').
Proof.
  intros Ht Hok Hsig Hinv Hsl.
  destruct (shar_step_facts _ _ _ _ _ _ _ _ Ht Hok Hinv) as (Hinv1 & H1 & H2 & H3).
  split; [by eapply shar_inv_signals|]. intros t' call' g Ht'. cbn [s_ctrl s_threads] in *.
  pose proof (signals_asleep _ _ _ _ _ _ Hsig Ht') as Hb.
  destruct (decide (t = t')) as [<-|Hne].
  { rewrite list_lookup_insert_eq in Hb by (by eapply lookup_lt_Some).
    destruct r as [[]| |g']; simpl in Hb; simplify_eq. by apply H3. }
  rewrite list_lookup_insert_ne in Hb by done. apply Hsl in Hb as Hc. cbn [s_ctrl] in Hc. destruct g.
  - destruct H1 as [H1|H1]; [|by apply H1]. by destruct (signals_all _ _ _ _ _ _ Hsig H1 Ht').
  - destruct H2 as [H2|[H2|H2]]; [exfalso|exfalso|by apply H2].
    + eapply (signals_one _ _ _ t' call' Second Hsig H2); [|done].
      destruct Hinv1 as [[_ _ Hle _ _] _]. cbn [s_threads] in Hle.
      pose proof (tcount_nonneg (sowns Exclusive) (<[t := next call r]> ts)).
      etrans; [apply (tcount_le _ sdraining)|lia]. intros [|? [] ?]; done.
    + pose proof (tcount_pos sdraining (<[t := Own None]> ts) t' (Wait call' Second false)) as Hp.
      rewrite list_lookup_insert_ne in Hp by done. specialize (Hp Hb eq_refl). lia.
Qed.

Definition shar_start (n : nat) : sys shar_ctrl shar_call := Sys shar_init (replicate n (Own None)).

Lemma shar_reachable n st :
  reachable step (shar_start n) st → shar_inv st ∧ ssleepers_blocked st.
Proof.
  eapply (reachable_ind_inv _ (λ st, shar_inv st ∧ ssleepers_blocked st)).
  - intros st1 st2 Hi Hst. revert Hi.
    destruct Hst as [c ts t call owns c' sg r ts' Ht Hrun Hsig
      |c ts t call g b w c' sg r ts' Ht Htm Hrun Hsig]; intros [Hinv Hsl].
    + eapply (shar_thread_step ts t _ call r c c' sg ts'); [exact Ht| |done..]. by eapply shar_run_ok.
    + eapply (shar_thread_step ts t _ call r c c' sg ts'); [exact Ht| |done..].
      eapply shar_resume_ok; [|done]. destruct Hinv as [_ Hw]. cbn in Hw.
      destruct (sthread_ok (Wait call g b)) eqn:E; [done|].
      pose proof (tcount_pos (λ th, negb (sthread_ok th)) ts t _ Ht) as Hp. cbv beta in Hp.
      rewrite E in Hp. specialize (Hp eq_refl). lia.
  - assert (∀ f : sthread → bool, f (Own None) = false → tcount f (replicate n (Own None)) = 0) as H0.
    { intros f Hf. induction n as [|n IH]; simpl; [done|]. rewrite Hf. simpl. lia. }
    split.
    + unfold shar_inv. cbn [s_ctrl s_threads shar_start]. rewrite !H0 by done.
      split; [|done]. split; cbn; lia.
    + intros t call g Ht. cbn in Ht. by apply lookup_replicate in Ht as [[=] _].
Qed.

(** ** The theorems *)

(** [interprocess_sharable_mutex] excludes: in every interleaving, if a
    thread has exclusive ownership no other thread has any; the exclusive bit
    and the 31-bit count are exact and the count does not overflow. *)
Lemma shar_excludes (n : nat) st :
  reachable step (shar_start n) st →
  let c := s_ctrl st in
  let count f := tcount f (s_threads st) in
  (∀ t t' m, t ≠ t' → s_threads st !! t = Some (Own (Some Exclusive)) →
     s_threads st !! t' ≠ Some (Own (Some m))) ∧
  sexclusive_in c = count (sowns Exclusive) + count sdraining ∧ sexclusive_in c <= 1 ∧
  num_shared c = count (sowns Sharable) ∧ num_shared c <= shar_max_readers.
Proof.
  intros [[Hrel Hw] _]%shar_reachable. destruct Hrel as [R1 R2 R3 R4 R5]. cbv zeta.
  rewrite shar_max_readers_val. split_and!; try lia.
  intros t t' m Hne Ht. pose proof (tcount_pos (sowns Exclusive) _ t _ Ht eq_refl).
  pose proof (tcount_nonneg sdraining (s_threads st)).
  destruct m; intros Ht'.
  - pose proof (tcount_two (sowns Exclusive) _ t t' _ _ Hne Ht Ht' eq_refl eq_refl). lia.
  - pose proof (tcount_pos (sowns Sharable) _ t' _ Ht' eq_refl). lia.
  - pose proof (tcount_pos (λ th, negb (sthread_ok th)) _ t' _ Ht' eq_refl). lia.
Qed.

(** [interprocess_sharable_mutex] loses no wake-up in any interleaving
    (time-outs, exceptions and their roll-backs included), and does not
    deadlock: if some thread waits, then a thread has ownership or a waiting
    thread is awake. *)
Lemma shar_wakes (n : nat) st :
  reachable step (shar_start n) st →
  ssleepers_blocked st ∧
  ((∃ t call g b, s_threads st !! t = Some (Wait call g b)) →
   (∃ t m, s_threads st !! t = Some (Own (Some m))) ∨
   (∃ t call g, s_threads st !! t = Some (Wait call g true))).
Proof.
  intros [[Hrel _] Hsl]%shar_reachable. split; [done|]. destruct Hrel as [R1 R2 R3 R4 R5].
  assert (∀ m, 0 < tcount (sowns m) (s_threads st) →
    ∃ t m, s_threads st !! t = Some (Own (Some m))) as Hown.
  { intros m (t & [[m'|]|] & Ht & Hm)%tcount_exists; [by exists t, m'|done..]. }
  pose proof (λ f, tcount_nonneg f (s_threads st)) as Hnn.
  pose proof (Hnn (sowns Exclusive)). pose proof (Hnn sdraining). pose proof (Hnn (sowns Sharable)).
  assert (∀ t call g b, s_threads st !! t = Some (Wait call g b) → g = Second →
    (∃ t m, s_threads st !! t = Some (Own (Some m))) ∨
    (∃ t call g, s_threads st !! t = Some (Wait call g true))) as Hsecond.
  { intros t call g [] Ht ->; [right; by eauto|]. left. apply (Hown Sharable).
    apply Hsl in Ht. cbn in Ht. unfold sreaders, nz in Ht. lia. }
  intros (t & call & g & b & Ht). destruct b; [right; by eauto|].
  destruct g; [|by eapply Hsecond]. apply Hsl in Ht.
  assert (0 < num_shared (s_ctrl st) ∨ sexclusive_in (s_ctrl st) ≠ 0) as Hc.
  { unfold swait_cond in Ht. destruct call; shar_bodies; lia. }
  destruct Hc as [Hc|Hc]; [left; apply (Hown Sharable); lia|].
  destruct (decide (0 < tcount (sowns Exclusive) (s_threads st))); [left; by eapply Hown|].
  assert (0 < tcount sdraining (s_threads st)) as (t' & th & Ht' & Hd)%tcount_exists by lia.
  destruct th as [|call' [] b']; try done. by eapply Hsecond.
Qed.

(** C25: [interprocess_sharable_mutex] in every interleaving of its operations with
    time-outs, exceptions and their roll-backs: if a thread has exclusive ownership no
    other thread has any; the exclusive bit and the 31-bit count are exact and the
    count does not overflow; no wake-up is lost; and if some thread waits, then a
    thread has ownership or a waiting thread is awake. *)
Theorem shar_mutex_correct (n : nat) st :
  reachable step (shar_start n) st →
  ((∀ t t' m, t ≠ t' → s_threads st !! t = Some (Own (Some Exclusive)) → s_threads st !! t' ≠ Some (Own (Some m))) ∧
   sexclusive_in (s_ctrl st) = tcount (sowns Exclusive) (s_threads st) + tcount sdraining (s_threads st) ∧
   sexclusive_in (s_ctrl st) <= 1 ∧
   num_shared (s_ctrl st) = tcount (sowns Sharable) (s_threads st) ∧ num_shared (s_ctrl st) <= shar_max_readers) ∧
  ssleepers_blocked st ∧
  ((∃ t call g b, s_threads st !! t = Some (Wait call g b)) →
   (∃ t m, s_threads st !! t = Some (Own (Some m))) ∨
   (∃ t call g, s_threads st !! t = Some (Wait call g true))).
Proof. intros Hr. split; [by apply (shar_excludes n)|by apply (shar_wakes n)]. Qed.

(** A reader is inside, a writer drains, a second reader sleeps. *)
Definition sdemo : sys shar_ctrl shar_call :=
  Sys (SCtrl 1 1) [Own (Some Sharable); Wait SLock Second false; Wait SLockSharable First false].

Lemma sdemo_reachable : reachable step (shar_start 3) sdemo.
Proof.
  eapply reach_step; [eapply reach_step; [eapply reach_step; [apply reach_refl|]|]|].
  - do_call 0%nat SLockSharable.
  - do_call 1%nat SLock.
  - do_call 2%nat SLockSharable.
Qed.

Lemma shar_mutex_correct_witness :
  (sexclusive_in (s_ctrl sdemo) = 1 ∧ num_shared (s_ctrl sdemo) = 1) ∧
  ((∃ t m, s_threads sdemo !! t = Some (Own (Some m))) ∨
   (∃ t call g, s_threads sdemo !! t = Some (Wait call g true))).
Proof.
  destruct (shar_mutex_correct 3 sdemo sdemo_reachable) as ((_ & H1 & _ & H2 & _) & _ & H3).
  split; [split; [exact H1|exact H2]|]. apply H3. exists 1%nat, SLock, Second, false. reflexivity.
Defined.
