(* ===== verification/MsgQueue.v ===== *)
(** The message queue (ipc/message_queue.hpp).

    The header [mq_hdr_t] with its circular index of message pointers, the
    preallocated messages, and the code of [send] and [receive] up to and after
    their waits.  A position of the index is the offset of an [iterator] from
    [&mp_index[0]]; a message is named by its address. *)

From S2P Require Import Prelude MathUtil.

Local Open Scope u64_scope.

(** ** State *)

(** [msg_hdr_t] and the bytes behind it. *)
Record msg := Msg { len : Z; priority : Z; data : list Z }.

Record mq := MQ {
  mp_index : list Z;
  m_max_num_msg : Z;
  m_max_msg_size : Z;
  m_cur_num_msg : Z;
  m_cur_first_msg : Z;
  m_blocked_senders : Z;
  m_blocked_receivers : Z;
  messages : gmap Z msg
}.

Definition set_index (f : list Z → list Z) (q : mq) : mq :=
  MQ (f (mp_index q)) (m_max_num_msg q) (m_max_msg_size q) (m_cur_num_msg q) (m_cur_first_msg q)
     (m_blocked_senders q) (m_blocked_receivers q) (messages q).
Definition set_cur_num (f : Z → Z) (q : mq) : mq :=
  MQ (mp_index q) (m_max_num_msg q) (m_max_msg_size q) (f (m_cur_num_msg q)) (m_cur_first_msg q)
     (m_blocked_senders q) (m_blocked_receivers q) (messages q).
Definition set_cur_first (f : Z → Z) (q : mq) : mq :=
  MQ (mp_index q) (m_max_num_msg q) (m_max_msg_size q) (m_cur_num_msg q) (f (m_cur_first_msg q))
     (m_blocked_senders q) (m_blocked_receivers q) (messages q).
Definition set_blocked_senders (f : Z → Z) (q : mq) : mq :=
  MQ (mp_index q) (m_max_num_msg q) (m_max_msg_size q) (m_cur_num_msg q) (m_cur_first_msg q)
     (f (m_blocked_senders q)) (m_blocked_receivers q) (messages q).
Definition set_blocked_receivers (f : Z → Z) (q : mq) : mq :=
  MQ (mp_index q) (m_max_num_msg q) (m_max_msg_size q) (m_cur_num_msg q) (m_cur_first_msg q)
     (m_blocked_senders q) (f (m_blocked_receivers q)) (messages q).
Definition set_messages (f : gmap Z msg → gmap Z msg) (q : mq) : mq :=
  MQ (mp_index q) (m_max_num_msg q) (m_max_msg_size q) (m_cur_num_msg q) (m_cur_first_msg q)
     (m_blocked_senders q) (m_blocked_receivers q) (f (messages q)).

(** [mp_index[i]]: only the [m_max_num_msg] slots can be dereferenced. *)
Definition rd_index (i : Z) : M mq Z := λ q,
  if (0 <=? i) then
    match mp_index q !! Z.to_nat i with Some a => Ret (a, q) | None => Fault BadAccess end
  else Fault BadAccess.
Definition wr_index (i a : Z) : M mq () := λ q,
  if (0 <=? i) && (i <? Z.of_nat (length (mp_index q)))
  then Ret ((), set_index <[Z.to_nat i := a]> q) else Fault BadAccess.

Definition rd_msg (a : Z) : M mq msg := λ q,
  match messages q !! a with Some m => Ret (m, q) | None => Fault BadAccess end.
Definition wr_msg (a : Z) (m : msg) : M mq () := λ q,
  match messages q !! a with Some _ => Ret ((), set_messages <[a := m]> q) | None => Fault BadAccess end.

(** ** The standard algorithms used on the index *)

(** [std::copy] of [n] elements. *)
Fixpoint std_copy (n : nat) (src dst : Z) : M mq () :=
  match n with
  | O => mret ()
  | S n => a ← rd_index src; wr_index dst a;; std_copy n (src + 1) (dst + 1)
  end.

(** [std::copy_backward] of [n] elements, given the two ends. *)
Fixpoint std_copy_backward (n : nat) (src_end dst_end : Z) : M mq () :=
  match n with
  | O => mret ()
  | S n => a ← rd_index (src_end - 1); wr_index (dst_end - 1) a;;
           std_copy_backward n (src_end - 1) (dst_end - 1)
  end.

(** [std::lower_bound] with [priority_functor] on the [count] elements from
    [first], by halving. *)
Fixpoint std_lower_bound (fuel : nat) (first count value : Z) : M mq Z :=
  if count <=? 0 then mret first else
  match fuel with
  | O => throw OutOfFuel
  | S fuel =>
      let half := count / 2 in
      a ← rd_index (first + half);
      m ← rd_msg a;
      if priority m <? value
      then std_lower_bound fuel (first + half + 1) (count - half - 1) value
      else std_lower_bound fuel first half value
  end.

(** ** [mq_hdr_t] *)

Definition is_full (q : mq) : bool := m_cur_num_msg q =? m_max_num_msg q.
Definition is_empty (q : mq) : bool := negb (nz (m_cur_num_msg q)).

Definition free_top_msg : M mq () := modify (set_cur_num (λ n, n -! 1)).

Definition end_pos (q : mq) : Z :=
  let space_until_bufend := m_max_num_msg q -! m_cur_first_msg q in
  if m_cur_num_msg q <? space_until_bufend
  then m_cur_first_msg q +! m_cur_num_msg q
  else m_cur_num_msg q -! space_until_bufend.

(** The address of the message [top_msg()] refers to. *)
Definition top_msg : M mq Z :=
  q ← get;
  let pos := end_pos q in
  rd_index (if nz pos then pos -! 1 else m_max_num_msg q -! 1).

Definition bottom_msg : M mq Z := q ← get; rd_index (m_cur_first_msg q).

Definition inserted_ptr_begin (q : mq) : Z := m_cur_first_msg q.
Definition inserted_ptr_end (q : mq) : Z := end_pos q.

Definition lower_bound (value : Z) : M mq Z :=
  q ← get;
  let b := inserted_ptr_begin q in
  let e := inserted_ptr_end q in
  let fuel := S (length (mp_index q)) in
  if e <? b then
    let idx_end := m_max_num_msg q in
    ret ← std_lower_bound fuel b (idx_end - b) value;
    if idx_end =? ret then
      ret ← std_lower_bound fuel 0 e value;
      boost_assert (negb (ret =? e));;
      boost_assert (negb (ret =? b));;
      mret ret
    else mret ret
  else std_lower_bound fuel b (e - b) value.

Definition dec_first (q : mq) : mq :=
  set_cur_first (λ first, (if nz first then first else m_max_num_msg q) -! 1) q.

(** The branch of [insert_at] that moves the messages before [where]. *)
Definition insert_front (pos whr : Z) : M mq Z :=
  q ← get;
  let first := m_cur_first_msg q in
  let max := m_max_num_msg q in
  let '(pos, whr) := if negb (nz pos) then (max, max -! 1) else (pos, whr - 1) in
  let unique_segment := nz first && (first <=? pos) in
  let first_segment_beg := if unique_segment then first else 1 in
  let first_segment_end := pos in
  let second_segment_beg := if unique_segment || negb (nz first) then max else first in
  let second_segment_end := max in
  backup ← rd_index ((if unique_segment then first_segment_beg else second_segment_beg) - 1);
  (if negb unique_segment then
     std_copy (Z.to_nat (second_segment_end - second_segment_beg)) second_segment_beg
       (second_segment_beg - 1);;
     a ← rd_index 0;
     wr_index (max -! 1) a
   else mret ());;
  std_copy (Z.to_nat (first_segment_end - first_segment_beg)) first_segment_beg
    (first_segment_beg - 1);;
  wr_index whr backup;;
  modify dec_first;;
  modify (set_cur_num (λ n, n +! 1));;
  rd_index whr.

(** The branch that moves the messages from [where] on. *)
Definition insert_back (pos whr it_inserted_ptr_end : Z) : M mq Z :=
  q ← get;
  let max := m_max_num_msg q in
  let pos_end := end_pos q in
  let unique_segment := pos <? pos_end in
  let first_segment_beg := pos in
  let first_segment_end := if unique_segment then pos_end else max -! 1 in
  let second_segment_beg := 0 in
  let second_segment_end := if unique_segment then 0 else pos_end in
  backup ← rd_index it_inserted_ptr_end;
  (if negb unique_segment then
     std_copy_backward (Z.to_nat (second_segment_end - second_segment_beg)) second_segment_end
       (second_segment_end + 1);;
     a ← rd_index (max -! 1);
     wr_index 0 a
   else mret ());;
  std_copy_backward (Z.to_nat (first_segment_end - first_segment_beg)) first_segment_end
    (first_segment_end + 1);;
  wr_index whr backup;;
  modify (set_cur_num (λ n, n +! 1));;
  rd_index whr.

(** The address of the message [insert_at(where)] returns. *)
Definition insert_at (whr : Z) : M mq Z :=
  q ← get;
  let it_inserted_ptr_end := inserted_ptr_end q in
  let it_inserted_ptr_beg := inserted_ptr_begin q in
  if whr =? it_inserted_ptr_beg then
    modify dec_first;;
    modify (set_cur_num (λ n, n +! 1));;
    first ← gets m_cur_first_msg;
    rd_index first
  else if whr =? it_inserted_ptr_end then
    modify (set_cur_num (λ n, n +! 1));;
    rd_index it_inserted_ptr_end
  else
    let pos := whr in
    let circ_pos := if m_cur_first_msg q <=? pos then pos -! m_cur_first_msg q
                    else pos +! (m_max_num_msg q -! m_cur_first_msg q) in
    if circ_pos <? m_cur_num_msg q / 2 then insert_front pos whr
    else insert_back pos whr it_inserted_ptr_end.

Definition queue_free_msg (prio : Z) : M mq Z :=
  q ← get;
  let it := inserted_ptr_begin q in
  let it_end := inserted_ptr_end q in
  it ← (if nz (m_cur_num_msg q) then
          b ← bottom_msg; mb ← rd_msg b;
          if priority mb <? prio then
            t ← top_msg; mt ← rd_msg t;
            if priority mt <? prio then mret it_end else lower_bound prio
          else mret it
        else mret it);
  insert_at it.

(** ** Memory layout *)

(** [sizeof(mq_hdr_t)], which depends on the platform's mutex and condition,
    the sizes and alignments of a message header and of a pointer in the
    index, and [ManagedOpenOrCreateUserOffset]. *)
Class MqLayout := {
  sizeof_mq_hdr : Z;
  sizeof_msg_header : Z;
  align_msg_header : Z;
  sizeof_msg_hdr_ptr : Z;
  align_msg_hdr_ptr : Z;
  user_offset : Z
}.

Section layout.
Context `{MqLayout}.

Definition r_hdr_size : Z := default 0 (ct_rounded_size sizeof_mq_hdr align_msg_hdr_ptr).
Definition r_index_size (max_num_msg : Z) : Z :=
  get_rounded_size (max_num_msg *! sizeof_msg_hdr_ptr) align_msg_header.
Definition r_max_msg_size (max_msg_size : Z) : Z :=
  get_rounded_size max_msg_size align_msg_header +! sizeof_msg_header.

Definition get_mem_size (max_msg_size max_num_msg : Z) : Z :=
  r_hdr_size +! r_index_size max_num_msg +! (max_num_msg *! r_max_msg_size max_msg_size)
    +! user_offset.

(** The loop of [initialize_memory]: the addresses stored in the index. *)
Fixpoint index_loop (n : nat) (msg_hdr step : Z) : list Z :=
  match n with
  | O => []
  | S n => msg_hdr :: index_loop n (msg_hdr + step) step
  end.

Definition initialize_memory (this max_num_msg max_msg_size : Z) : list Z :=
  index_loop (Z.to_nat max_num_msg) (this + r_hdr_size + r_index_size max_num_msg)
    (r_max_msg_size max_msg_size).

(** The constructor, on the messages [mem] the memory holds. *)
Definition mq_hdr_ctor (this max_num_msg max_msg_size : Z) (mem : gmap Z msg) : mq :=
  MQ (initialize_memory this max_num_msg max_msg_size) max_num_msg max_msg_size 0 0 0 0 mem.
End layout.

(** ** [message_queue_t] *)

Inductive mqblock_types := blocking | timed | non_blocking.

(** How a stretch of [do_send] or [do_receive] under the lock ends: the call
    returns true, after it notified the other side if [notify]; it returns
    false; it throws; or it waits on its condition. *)
Inductive io (A : Type) := IoDone (a : A) (notify : bool) | IoFalse | IoThrow | IoWait.
Arguments IoDone {A} _ _.
Arguments IoFalse {A}.
Arguments IoThrow {A}.
Arguments IoWait {A}.

(** Why [do_cond_wait] came back. *)
Inductive cond_result := CondTrue | CondFalse | CondThrew.

(** [do_send] from the assignment of [notify_blocked_receivers] on. *)
Definition send_message (buffer : list Z) (prio : Z) : M mq (io ()) :=
  notify_blocked_receivers ← gets (λ q, nz (m_blocked_receivers q));
  free_msg ← queue_free_msg prio;
  h ← rd_msg free_msg;
  boost_assert (priority h =? 0);;
  boost_assert (len h =? 0);;
  wr_msg free_msg (Msg (Z.of_nat (length buffer)) prio
                       (buffer ++ drop (length buffer) (data h)));;
  mret (IoDone () notify_blocked_receivers).

Definition do_send (block : mqblock_types) (buffer : list Z) (prio : Z) : M mq (io ()) :=
  q ← get;
  if m_max_msg_size q <? Z.of_nat (length buffer) then mret IoThrow else
  if is_full q then
    modify (set_blocked_senders (λ n, n +! 1));;
    match block with
    | non_blocking => modify (set_blocked_senders (λ n, n -! 1));; mret IoFalse
    | blocking | timed => mret IoWait
    end
  else send_message buffer prio.

(** [do_send] after a wait. *)
Definition do_send_woken (r : cond_result) (buffer : list Z) (prio : Z) : M mq (io ()) :=
  full ← gets is_full;
  match r, full with
  | CondTrue, true => mret IoWait
  | CondFalse, true => modify (set_blocked_senders (λ n, n -! 1));; mret IoFalse
  | CondThrew, _ => modify (set_blocked_senders (λ n, n -! 1));; mret IoThrow
  | _, false => modify (set_blocked_senders (λ n, n -! 1));; send_message buffer prio
  end.

(** [do_receive] from the assignment of [notify_blocked_senders] on; the bytes
    and the priority handed to the caller. *)
Definition receive_message : M mq (io (list Z * Z)) :=
  notify_blocked_senders ← gets (λ q, nz (m_blocked_senders q));
  top ← top_msg;
  h ← rd_msg top;
  let recvd_size := len h in
  let prio := priority h in
  wr_msg top (Msg 0 0 (data h));;
  let buffer := take (Z.to_nat recvd_size) (data h) in
  free_top_msg;;
  mret (IoDone (buffer, prio) notify_blocked_senders).

Definition do_receive (block : mqblock_types) (buffer_size : Z) : M mq (io (list Z * Z)) :=
  q ← get;
  if buffer_size <? m_max_msg_size q then mret IoThrow else
  if is_empty q then
    modify (set_blocked_receivers (λ n, n +! 1));;
    match block with
    | non_blocking => modify (set_blocked_receivers (λ n, n -! 1));; mret IoFalse
    | blocking | timed => mret IoWait
    end
  else receive_message.

Definition do_receive_woken (r : cond_result) : M mq (io (list Z * Z)) :=
  empty ← gets is_empty;
  match r, empty with
  | CondTrue, true => mret IoWait
  | CondFalse, true => modify (set_blocked_receivers (λ n, n -! 1));; mret IoFalse
  | CondThrew, _ => modify (set_blocked_receivers (λ n, n -! 1));; mret IoThrow
  | _, false => modify (set_blocked_receivers (λ n, n -! 1));; receive_message
  end.

(** The public functions; [infinite] tells that [abs_time] is [pos_infinity]. *)
Definition send := do_send blocking.
Definition try_send := do_send non_blocking.
Definition timed_send (infinite : bool) := do_send (if infinite then blocking else timed).
Definition receive := do_receive blocking.
Definition try_receive := do_receive non_blocking.
Definition timed_receive (infinite : bool) := do_receive (if infinite then blocking else timed).

(** [None] is the null [p_hdr] of a queue object without a mapping. *)
Definition get_max_msg (p_hdr : option mq) : Z := from_option m_max_num_msg 0 p_hdr.
Definition get_max_msg_size (p_hdr : option mq) : Z := from_option m_max_msg_size 0 p_hdr.
Definition get_num_msg (p_hdr : option mq) : Z := from_option m_cur_num_msg 0 p_hdr.
