(* ===== verification/MsgQueueIndex.v ===== *)
(** The circular index of the message queue.

    [circ first idx] lists the index from position [first] on, around the end.
    [insert_at_ok] is the heart of the queue: whichever half of the messages
    [insert_at] moves, and wherever the ends of the circular buffer lie, it
    puts one free slot at the requested place and keeps the order of all other
    slots. *)

From S2P Require Import Prelude MathUtil MsgQueue.

Local Open Scope u64_scope.

(** ** Lists by integer positions *)

Definition at_pos (l : list Z) (i : Z) : option Z := if 0 <=? i then l !! Z.to_nat i else None.

Lemma at_pos_insert l i j a :
  0 <= i < Z.of_nat (length l) → at_pos (<[Z.to_nat i := a]> l) j = if i =? j then Some a else at_pos l j.
Proof.
  intros Hi. unfold at_pos. destruct (Z.eqb_spec i j) as [->|Hne].
  - destruct (Z.leb_spec 0 j); [|lia]. apply list_lookup_insert_eq. lia.
  - destruct (Z.leb_spec 0 j); [|done]. apply list_lookup_insert_ne. lia.
Qed.

Lemma at_pos_some l i : 0 <= i < Z.of_nat (length l) → ∃ a, at_pos l i = Some a.
Proof.
  intros Hi. unfold at_pos. destruct (Z.leb_spec 0 i); [|lia]. apply lookup_lt_is_Some. lia.
Qed.

Lemma at_pos_none l i : i < 0 ∨ Z.of_nat (length l) <= i → at_pos l i = None.
Proof.
  intros Hi. unfold at_pos. destruct (Z.leb_spec 0 i); [|done]. apply lookup_ge_None. lia.
Qed.

(** Two lists are equal if they agree at every position of the first. *)
Lemma at_pos_ext (l l' : list Z) :
  length l = length l' →
  (∀ i, 0 <= i < Z.of_nat (length l) → at_pos l i = at_pos l' i) → l = l'.
Proof.
  intros Hlen Heq. apply list_eq. intros i.
  destruct (decide (i < length l)%nat) as [Hi|Hi].
  - specialize (Heq (Z.of_nat i) ltac:(lia)). unfold at_pos in Heq.
    destruct (Z.leb_spec 0 (Z.of_nat i)); [|lia]. by rewrite Nat2Z.id in Heq.
  - rewrite !lookup_ge_None_2 by lia. done.
Qed.

Lemma at_pos_app l1 l2 i :
  at_pos (l1 ++ l2) i =
  if i <? Z.of_nat (length l1) then at_pos l1 i else at_pos l2 (i - Z.of_nat (length l1)).
Proof.
  unfold at_pos. ztest i (Z.of_nat (length l1)); destruct (Z.leb_spec 0 i); try done.
  - apply lookup_app_l. lia.
  - rewrite lookup_app_r by lia. destruct (Z.leb_spec 0 (i - Z.of_nat (length l1))); [|lia].
    f_equal. lia.
  - destruct (Z.leb_spec 0 (i - Z.of_nat (length l1))); [lia|done].
Qed.

Lemma at_pos_cons a l i : at_pos (a :: l) i = if i =? 0 then Some a else at_pos l (i - 1).
Proof.
  change (a :: l) with ([a] ++ l). rewrite at_pos_app. cbn [length].
  destruct (Z.eqb_spec i 0) as [->|]; [done|]. ztest i (Z.of_nat 1); [|f_equal; lia].
  by rewrite !at_pos_none by (cbn [length]; lia).
Qed.

Lemma at_pos_take n l i : 0 <= n → at_pos (take (Z.to_nat n) l) i = if i <? n then at_pos l i else None.
Proof.
  intros Hn. unfold at_pos. ztest i n; destruct (Z.leb_spec 0 i); try done.
  - apply lookup_take_lt. lia.
  - apply lookup_take_ge. lia.
Qed.

Lemma at_pos_drop n l i : 0 <= n → at_pos (drop (Z.to_nat n) l) i = if 0 <=? i then at_pos l (n + i) else None.
Proof.
  intros Hn. unfold at_pos. destruct (Z.leb_spec 0 i); [|done].
  destruct (Z.leb_spec 0 (n + i)); [|lia]. rewrite lookup_drop. f_equal. lia.
Qed.

(** ** Reading and writing the index *)

Lemma wp_rd_index i a q Q : at_pos (mp_index q) i = Some a → Q a q → wp (rd_index i) q Q.
Proof.
  unfold wp, rd_index, at_pos. destruct (0 <=? i); [|done]. by intros ->.
Qed.

Lemma wp_wr_index i a q (Q : () → mq → Prop) :
  0 <= i < Z.of_nat (length (mp_index q)) → Q () (set_index <[Z.to_nat i := a]> q) → wp (wr_index i a) q Q.
Proof.
  intros Hi HQ. unfold wp, wr_index. destruct (Z.leb_spec 0 i); [|lia].
  ztest i (Z.of_nat (length (mp_index q))); [done|lia].
Qed.

(** [q'] differs from [q] in the index only. *)
Definition with_index (q : mq) (idx : list Z) : mq := set_index (λ _, idx) q.

Lemma with_index_id q : with_index q (mp_index q) = q.
Proof. by destruct q. Qed.

Lemma std_copy_ok n : ∀ src dst q,
  0 <= dst <= src → src + Z.of_nat n <= Z.of_nat (length (mp_index q)) →
  wp (std_copy n src dst) q (λ _ q', ∃ idx, q' = with_index q idx ∧
    length idx = length (mp_index q) ∧
    ∀ j, at_pos idx j = if (dst <=? j) && (j <? dst + Z.of_nat n)
                        then at_pos (mp_index q) (j - dst + src) else at_pos (mp_index q) j).
Proof.
  induction n as [|n IH]; intros src dst q Hd Hs; cbn [std_copy].
  - wp_step. exists (mp_index q). rewrite with_index_id. split_and!; [done|done|]. intros j.
    destruct (Z.leb_spec dst j); [|done]. ztest j (dst + Z.of_nat 0); [lia|done].
  - destruct (at_pos_some (mp_index q) src) as [a Ha]; [lia|].
    wp_step. eapply wp_rd_index; [done|]. wp_step. apply wp_wr_index; [lia|].
    eapply wp_mono; [apply IH; [lia|]|].
    { cbn. rewrite length_insert. lia. }
    intros _ q' (idx & -> & Hlen & Hj). cbn in Hlen, Hj. rewrite length_insert in Hlen.
    exists idx. split_and!; [done|done|]. intros j. rewrite Hj, !at_pos_insert by lia.
    destruct (Z.leb_spec (dst + 1) j), (Z.leb_spec dst j), (Z.ltb_spec j (dst + 1 + Z.of_nat n)),
      (Z.ltb_spec j (dst + Z.of_nat (S n))); cbn [andb]; try lia;
      repeat match goal with |- context [?x =? ?y] => destruct (Z.eqb_spec x y) end; try lia; try done.
    + f_equal. lia.
    + rewrite <- Ha. f_equal. lia.
Qed.

Lemma std_copy_backward_ok n : ∀ src dst q,
  src <= dst <= Z.of_nat (length (mp_index q)) → 0 <= src - Z.of_nat n →
  wp (std_copy_backward n src dst) q (λ _ q', ∃ idx, q' = with_index q idx ∧
    length idx = length (mp_index q) ∧
    ∀ j, at_pos idx j = if (dst - Z.of_nat n <=? j) && (j <? dst)
                        then at_pos (mp_index q) (j - dst + src) else at_pos (mp_index q) j).
Proof.
  induction n as [|n IH]; intros src dst q Hd Hs; cbn [std_copy_backward].
  - wp_step. exists (mp_index q). rewrite with_index_id. split_and!; [done|done|]. intros j.
    destruct (Z.leb_spec (dst - Z.of_nat 0) j); [|done]. ztest j dst; [lia|done].
  - destruct (at_pos_some (mp_index q) (src - 1)) as [a Ha]; [lia|].
    wp_step. eapply wp_rd_index; [done|]. wp_step. apply wp_wr_index; [lia|].
    eapply wp_mono; [apply IH; [|lia]|].
    { cbn. rewrite length_insert. lia. }
    intros _ q' (idx & -> & Hlen & Hj). cbn in Hlen, Hj. rewrite length_insert in Hlen.
    exists idx. split_and!; [done|done|]. intros j. rewrite Hj, !at_pos_insert by lia.
    destruct (Z.leb_spec (dst - 1 - Z.of_nat n) j), (Z.leb_spec (dst - Z.of_nat (S n)) j),
      (Z.ltb_spec j (dst - 1)), (Z.ltb_spec j dst); cbn [andb]; try lia;
      repeat match goal with |- context [?x =? ?y] => destruct (Z.eqb_spec x y) end; try lia; try done.
    + f_equal. lia.
    + rewrite <- Ha. f_equal. lia.
Qed.

(** ** The circular view *)

Definition circ (first : Z) (idx : list Z) : list Z :=
  drop (Z.to_nat first) idx ++ take (Z.to_nat first) idx.

Lemma length_circ first idx : length (circ first idx) = length idx.
Proof. unfold circ. rewrite length_app, length_drop, length_take. lia. Qed.

(** The position in the index of the [i]-th slot from [first] on. *)
Definition wrap (n first i : Z) : Z := if first + i <? n then first + i else first + i - n.

Lemma circ_at n first idx i :
  Z.of_nat (length idx) = n → 0 <= first < n → 0 <= i < n →
  at_pos (circ first idx) i = at_pos idx (wrap n first i).
Proof.
  intros Hn Hf Hi. unfold circ, wrap. rewrite at_pos_app, length_drop.
  ztest i (Z.of_nat (length idx - Z.to_nat first)); ztest (first + i) n; try lia.
  - rewrite at_pos_drop by lia. destruct (Z.leb_spec 0 i); [done|lia].
  - rewrite at_pos_take by lia. ztest (i - Z.of_nat (length idx - Z.to_nat first)) first; [f_equal; lia|lia].
Qed.

(** ** Insertion *)

(** The index has its length, the counters their ranges, and there is a free
    slot. *)
Record has_room (q : mq) : Prop := {
  hr_len : Z.of_nat (length (mp_index q)) = m_max_num_msg q;
  hr_max : m_max_num_msg q < 18446744073709551616;
  hr_first : 0 <= m_cur_first_msg q < m_max_num_msg q;
  hr_num : 0 <= m_cur_num_msg q < m_max_num_msg q
}.

Lemma end_pos_val q :
  Z.of_nat (length (mp_index q)) = m_max_num_msg q → m_max_num_msg q < 18446744073709551616 →
  0 <= m_cur_first_msg q < m_max_num_msg q → 0 <= m_cur_num_msg q <= m_max_num_msg q →
  end_pos q = wrap (m_max_num_msg q) (m_cur_first_msg q) (m_cur_num_msg q).
Proof.
  intros Hl Hm Hf Hn. unfold end_pos, wrap. u64_simpl.
  ztest (m_cur_num_msg q) (m_max_num_msg q - m_cur_first_msg q);
    ztest (m_cur_first_msg q + m_cur_num_msg q) (m_max_num_msg q); try lia; u64_simpl; lia.
Qed.

(** Where the slot now at circular position [i] was before: the new one is the
    first free slot, or the last one. *)
Definition from_back (k num i : Z) : Z :=
  if i <? k then i else if i =? k then num else if i <=? num then i - 1 else i.
Definition from_front (k n i : Z) : Z :=
  if i <? k then i else if i =? k then n - 1 else i - 1.

(** [q'] is [q] with slot [a] inserted at circular position [k]. *)
Definition slot_inserted (q : mq) (k a : Z) (q' : mq) : Prop :=
  ∃ idx first num, q' = set_cur_first (λ _, first) (set_cur_num (λ _, num) (with_index q idx)) ∧
    num = m_cur_num_msg q + 1 ∧ 0 <= first < m_max_num_msg q ∧
    length idx = length (mp_index q) ∧ at_pos (circ first idx) k = Some a ∧
    ((∀ i, 0 <= i < m_max_num_msg q →
        at_pos (circ first idx) i = at_pos (circ (m_cur_first_msg q) (mp_index q)) (from_back k (m_cur_num_msg q) i)) ∨
     (∀ i, 0 <= i < m_max_num_msg q →
        at_pos (circ first idx) i = at_pos (circ (m_cur_first_msg q) (mp_index q)) (from_front k (m_max_num_msg q) i))).

(** Decide the tests one by one, innermost first, dropping the impossible cases
    on the way. *)
Ltac no_test x := lazymatch x with context [if _ then _ else _] => fail | _ => idtac end.
Ltac split_pos :=
  repeat (match goal with
  | |- context [Z.leb ?x ?y] => no_test x; no_test y; destruct (Z.leb_spec x y)
  | |- context [Z.ltb ?x ?y] => no_test x; no_test y; destruct (Z.ltb_spec x y)
  | |- context [Z.eqb ?x ?y] => no_test x; no_test y; destruct (Z.eqb_spec x y)
  end; cbn [andb orb negb]; try (exfalso; lia)); try lia.

(** Where [insert_back] takes the pointer at index position [j] from: [p] is the
    position of the insertion and [e] the old end. *)
Definition back_source (n p e j : Z) : Z :=
  if j =? p then e
  else if p <? e then (if (p <? j) && (j <=? e) then j - 1 else j)
  else if p <? j then j - 1
  else if (1 <=? j) && (j <=? e) then j - 1 else if j =? 0 then n - 1 else j.

Lemma back_done q k a idx :
  has_room q → 0 < k < m_cur_num_msg q →
  let n := m_max_num_msg q in
  let p := wrap n (m_cur_first_msg q) k in
  let e := wrap n (m_cur_first_msg q) (m_cur_num_msg q) in
  at_pos (mp_index q) e = Some a → length idx = length (mp_index q) →
  (∀ j, 0 <= j < n → at_pos idx j = at_pos (mp_index q) (back_source n p e j)) →
  slot_inserted q k a (set_cur_num (λ n, n +! 1) (with_index q idx)).
Proof.
  intros [Hl Hm Hf Hn] Hk n p e Ha Hlen Hj. unfold back_source in Hj.
  set (f := m_cur_first_msg q) in *. set (c := m_cur_num_msg q) in *.
  assert (0 <= p < n) by (unfold p, n, wrap; split_pos).
  exists idx, f, (c + 1). split_and!; [|done|lia|lia|done| |left].
  - unfold set_cur_num, set_cur_first, with_index, set_index. cbn. fold c f. by rewrite u64_small by u64_side.
  - rewrite (circ_at n) by lia. fold p. rewrite Hj by lia. by rewrite Z.eqb_refl.
  - intros i Hi. assert (0 <= from_back k c i < n) by (unfold from_back, n; split_pos).
    fold c f n. rewrite !(circ_at n) by lia. rewrite Hj by (unfold wrap, n; split_pos). f_equal.
    unfold from_back, p, e, wrap. split_pos.
Qed.

Lemma insert_back_ok q k :
  has_room q → 0 < k < m_cur_num_msg q →
  let pos := wrap (m_max_num_msg q) (m_cur_first_msg q) k in
  wp (insert_back pos pos (end_pos q)) q (slot_inserted q k).
Proof.
  intros [Hl Hm Hf Hn] Hk pos. subst pos. unfold insert_back. wp_step. wp_step.
  rewrite end_pos_val by lia.
  set (n := m_max_num_msg q) in *. set (f := m_cur_first_msg q) in *. set (c := m_cur_num_msg q) in *.
  set (p := wrap n f k) in *. set (e := wrap n f c) in *. cbv zeta. u64_simpl.
  assert (0 <= p < n ∧ 0 <= e < n ∧ p ≠ e) as (Hp & He & Hpe)
    by (unfold p, e, wrap; split_pos).
  destruct (at_pos_some (mp_index q) e) as [a Ha]; [lia|].
  wp_step. eapply wp_rd_index; [done|]. wp_step.
  pose proof (back_done q k a) as Hfin. cbv zeta in Hfin. unfold back_source in Hfin.
  fold n f c p e in Hfin. specialize (λ idx, Hfin idx (Build_has_room q Hl Hm Hf Hn) Hk Ha).
  destruct (Z.ltb_spec p e) as [Hu|Hu]; cbn [negb].
  - wp_step. wp_step. eapply wp_mono; [apply std_copy_backward_ok; lia|].
    intros _ q1 (idx1 & -> & Hl1 & Hj1). wp_step. apply wp_wr_index; [cbn; lia|].
    wp_step. wp_step. eapply (wp_rd_index _ a).
    { cbn. rewrite at_pos_insert, Z.eqb_refl; [done|lia]. }
    apply Hfin; [by rewrite length_insert|]. cbn. intros j Hjr. rewrite at_pos_insert, Hj1 by lia.
    destruct (Z.eqb_spec p j) as [->|Hne]; [by rewrite Z.eqb_refl|].
    split_pos; f_equal; lia.
  - wp_step. eapply wp_mono; [apply std_copy_backward_ok; lia|].
    intros _ q1 (idx1 & -> & Hl1 & Hj1).
    assert (at_pos idx1 (n - 1) = at_pos (mp_index q) (n - 1)) as Hlast
      by (rewrite Hj1; split_pos; f_equal; lia).
    destruct (at_pos_some (mp_index q) (n - 1)) as [b Hb]; [lia|].
    wp_step. eapply wp_rd_index; [cbn; by rewrite Hlast|]. apply wp_wr_index; [cbn; lia|].
    wp_step. eapply wp_mono; [apply std_copy_backward_ok; cbn; rewrite ?length_insert; lia|].
    cbn. rewrite length_insert. intros _ q2 (idx2 & -> & Hl2 & Hj2).
    wp_step. apply wp_wr_index; [cbn; lia|]. wp_step. wp_step. eapply (wp_rd_index _ a).
    { cbn. rewrite at_pos_insert, Z.eqb_refl; [done|lia]. }
    apply (Hfin (<[Z.to_nat p := a]> idx2)); [rewrite length_insert; lia|]. intros j Hjr.
    rewrite at_pos_insert, Hj2, !at_pos_insert, !Hj1 by lia.
    destruct (Z.eqb_spec p j) as [->|Hne]; [by rewrite Z.eqb_refl|].
    split_pos; try (f_equal; lia); rewrite <- Hb; f_equal; lia.
Qed.

(** The same for [insert_front]: [p] is one behind the position of the
    insertion, [f'] the new first position and [uniq] tells that the moved
    range does not wrap. *)
Definition front_source (n p f' : Z) (uniq : bool) (j : Z) : Z :=
  if j =? p - 1 then f'
  else if uniq then (if (f' <=? j) && (j <? p - 1) then j + 1 else j)
  else if j <? p - 1 then j + 1
  else if j =? n - 1 then 0
  else if f' <=? j then j + 1 else j.

Lemma front_done q k a idx :
  has_room q → 0 < k < m_cur_num_msg q →
  let n := m_max_num_msg q in
  let f := m_cur_first_msg q in
  let p0 := wrap n f k in
  let p := if p0 =? 0 then n else p0 in
  let f' := (if f =? 0 then n else f) - 1 in
  at_pos (mp_index q) f' = Some a → length idx = length (mp_index q) →
  (∀ j, 0 <= j < n →
     at_pos idx j = at_pos (mp_index q) (front_source n p f' (negb (f =? 0) && (f <=? p)) j)) →
  slot_inserted q k a (set_cur_num (λ n, n +! 1) (dec_first (with_index q idx))).
Proof.
  intros [Hl Hm Hf Hn] Hk n f p0 p f' Ha Hlen Hj. unfold front_source in Hj.
  set (c := m_cur_num_msg q) in *. fold n f in Hl, Hm, Hf, Hn.
  assert (0 <= f' < n) by (unfold f'; split_pos).
  exists idx, f', (c + 1). split_and!; [|done|lia|lia|done| |right].
  - unfold dec_first, set_cur_num, set_cur_first, with_index, set_index, nz. cbn. fold c f n.
    rewrite !u64_small by (unfold in_u64; split_pos). f_equal. unfold f'. by destruct (f =? 0).
  - rewrite (circ_at n) by lia. rewrite Hj by (unfold wrap; split_pos). rewrite <- Ha. f_equal.
    unfold p, f', p0, wrap. split_pos.
  - intros i Hi. assert (0 <= from_front k n i < n) by (unfold from_front; split_pos).
    fold f n. rewrite !(circ_at n) by lia. rewrite Hj by (unfold wrap; split_pos). f_equal.
    unfold from_front, p, f', p0, wrap. split_pos.
Qed.

Lemma insert_front_ok q k :
  has_room q → 0 < k < m_cur_num_msg q →
  let pos := wrap (m_max_num_msg q) (m_cur_first_msg q) k in
  wp (insert_front pos pos) q (slot_inserted q k).
Proof.
  intros [Hl Hm Hf Hn] Hk pos. subst pos. unfold insert_front. wp_step. wp_step.
  set (n := m_max_num_msg q) in *. set (f := m_cur_first_msg q) in *. set (c := m_cur_num_msg q) in *.
  set (p0 := wrap n f k) in *. cbv zeta. u64_simpl.
  assert (0 <= p0 < n) as Hp0 by (unfold p0, wrap; split_pos).
  set (p := if p0 =? 0 then n else p0). set (f' := (if f =? 0 then n else f) - 1).
  replace (if negb (nz p0) then (n, n - 1) else (p0, p0 - 1)) with (p, p - 1)
    by (unfold p, nz; by destruct (p0 =? 0)).
  assert (0 < p <= n ∧ 0 <= f' < n ∧ p - 1 ≠ f') as (Hp & Hf' & Hpf)
    by (unfold p, f', p0, wrap; split_pos).
  unfold nz. rewrite !negb_involutive.
  set (uniq := negb (f =? 0) && (f <=? p)).
  replace ((if uniq then if uniq then f else 1 else if uniq || (f =? 0) then n else f) - 1) with f'
    by (unfold f', uniq; split_pos).
  destruct (at_pos_some (mp_index q) f') as [a Ha]; [lia|].
  wp_step. eapply wp_rd_index; [done|]. wp_step.
  pose proof (front_done q k a) as Hfin. cbv zeta in Hfin. unfold front_source in Hfin.
  fold n f c p0 p f' uniq in Hfin. specialize (λ idx, Hfin idx (Build_has_room q Hl Hm Hf Hn) Hk Ha).
  destruct uniq eqn:Eu; cbn [negb orb].
  - apply andb_true_iff in Eu as [Eu1 Eu2]. apply Z.leb_le in Eu2.
    assert (f ≠ 0) by (destruct (Z.eqb_spec f 0); [done|lia]).
    assert (f' = f - 1) as Ef by (unfold f'; split_pos).
    wp_step. wp_step. eapply wp_mono; [apply std_copy_ok; lia|].
    intros _ q1 (idx1 & -> & Hl1 & Hj1). wp_step. apply wp_wr_index; [cbn; lia|].
    wp_step. wp_step. wp_step. wp_step. eapply (wp_rd_index _ a).
    { cbn. rewrite at_pos_insert, Z.eqb_refl; [done|lia]. }
    apply (Hfin (<[Z.to_nat (p - 1) := a]> idx1)); [by rewrite length_insert|].
    intros j Hjr. rewrite at_pos_insert, Hj1 by lia.
    split_pos; first [done|f_equal; lia].
  - set (sb := if f =? 0 then n else f).
    assert (0 < sb <= n ∧ f' = sb - 1) as [Hsb Ef] by (unfold sb, f'; split_pos).
    assert (f = 0 ∨ p < f) as Hnu.
    { apply andb_false_iff in Eu as [Eu|Eu]; [left|right].
      - by apply negb_false_iff, Z.eqb_eq in Eu.
      - by apply Z.leb_gt in Eu. }
    assert (p < sb) as Hpsb.
    { unfold sb. destruct (Z.eqb_spec f 0) as [Ef0|]; [|lia].
      unfold p, p0, wrap. rewrite Ef0. split_pos. }
    wp_step. eapply wp_mono; [apply std_copy_ok; lia|].
    intros _ q1 (idx1 & -> & Hl1 & Hj1).
    assert (at_pos idx1 0 = at_pos (mp_index q) 0) as H0.
    { rewrite Hj1. split_pos. done. }
    destruct (at_pos_some (mp_index q) 0) as [b Hb]; [lia|].
    wp_step. eapply wp_rd_index; [etrans; [exact H0|exact Hb]|]. apply wp_wr_index; [cbn; lia|].
    wp_step. eapply wp_mono; [apply std_copy_ok; cbn; rewrite ?length_insert; lia|].
    cbn. rewrite length_insert. intros _ q2 (idx2 & -> & Hl2 & Hj2).
    wp_step. apply wp_wr_index; [cbn; lia|]. wp_step. wp_step. wp_step. wp_step. eapply (wp_rd_index _ a).
    { cbn. rewrite at_pos_insert, Z.eqb_refl; [done|lia]. }
    apply (Hfin (<[Z.to_nat (p - 1) := a]> idx2)); [rewrite length_insert; lia|]. intros j Hjr.
    rewrite at_pos_insert, Hj2, !at_pos_insert, !Hj1 by lia.
    split_pos; first [done|f_equal; lia|rewrite <- Hb; f_equal; lia].
Qed.

Lemma wrap_inj n f i j :
  0 <= f < n → 0 <= i < n → 0 <= j < n → wrap n f i = wrap n f j → i = j.
Proof. intros Hf Hi Hj. unfold wrap. split_pos. Qed.

(** [insert_at] with an iterator to circular position [k]. *)
Lemma insert_at_ok q k :
  has_room q → 0 <= k <= m_cur_num_msg q →
  wp (insert_at (wrap (m_max_num_msg q) (m_cur_first_msg q) k)) q (slot_inserted q k).
Proof.
  intros Hroom Hk. pose proof Hroom as [Hl Hm Hf Hn]. unfold insert_at. wp_step. wp_step.
  unfold inserted_ptr_begin, inserted_ptr_end. rewrite end_pos_val by lia. cbv zeta.
  set (n := m_max_num_msg q) in *. set (f := m_cur_first_msg q) in *. set (c := m_cur_num_msg q) in *.
  destruct (Z.eqb_spec (wrap n f k) f) as [E0|E0].
  { assert (k = 0) as -> by (apply (wrap_inj n f); [lia..|]; unfold wrap in *; split_pos).
    set (f' := (if f =? 0 then n else f) - 1).
    assert (0 <= f' < n) by (unfold f'; split_pos).
    destruct (at_pos_some (mp_index q) f') as [a Ha]; [lia|].
    assert (dec_first q = set_cur_first (λ _, f') q) as Hdec.
    { unfold dec_first, set_cur_first, nz. fold n f. f_equal. unfold f'.
      destruct (f =? 0); cbn [negb]; rewrite u64_small by u64_side; done. }
    wp_step. wp_step. rewrite Hdec. wp_step. wp_step. wp_step. wp_step. eapply wp_rd_index; [exact Ha|].
    exists (mp_index q), f', (c + 1). split_and!; [|done|lia|lia|done| |right].
    - unfold set_cur_num, set_cur_first, with_index, set_index. cbn. fold c. by rewrite u64_small by u64_side.
    - rewrite (circ_at n) by lia. rewrite <- Ha. f_equal. unfold wrap. split_pos.
    - intros i Hi. fold n f. assert (0 <= from_front 0 n i < n) by (unfold from_front; split_pos).
      rewrite !(circ_at n) by lia. f_equal. unfold from_front, f', wrap. split_pos. }
  assert (k ≠ 0) by (intros ->; destruct E0; unfold wrap; split_pos).
  destruct (Z.eqb_spec (wrap n f k) (wrap n f c)) as [E1|E1].
  { assert (k = c) as -> by (apply (wrap_inj n f); [lia..|done]).
    destruct (at_pos_some (mp_index q) (wrap n f c)) as [a Ha]; [unfold wrap; split_pos|].
    wp_step. wp_step. eapply wp_rd_index; [exact Ha|].
    exists (mp_index q), f, (c + 1). split_and!; [|done|lia|lia|done| |left].
    - unfold set_cur_num, set_cur_first, with_index, set_index. cbn. fold c. by rewrite u64_small by u64_side.
    - by rewrite (circ_at n) by lia.
    - intros i Hi. fold f c. f_equal. unfold from_back. split_pos. }
  assert (0 < k < c) as Hk' by (split; [lia|]; destruct (decide (k = c)) as [->|]; [done|lia]).
  replace (wrap n f c) with (end_pos q) by (apply end_pos_val; lia).
  destruct (_ <? c / 2); [by apply insert_front_ok|by apply insert_back_ok].
Qed.

Lemma length_take_to {A} n (l : list A) : 0 <= n <= Z.of_nat (length l) → Z.of_nat (length (take (Z.to_nat n) l)) = n.
Proof. intros Hn. rewrite length_take. lia. Qed.

(** The same as lists: the new slot stands at place [k] of the inserted ones and
    comes from an end of the free ones. *)
Lemma slot_inserted_list q k a q' :
  has_room q → 0 <= k <= m_cur_num_msg q → slot_inserted q k a q' →
  let slots := circ (m_cur_first_msg q) (mp_index q) in
  let ins := take (Z.to_nat (m_cur_num_msg q)) slots in
  let free := drop (Z.to_nat (m_cur_num_msg q)) slots in
  ∃ free', (free = a :: free' ∨ free = free' ++ [a]) ∧
    circ (m_cur_first_msg q') (mp_index q') =
      take (Z.to_nat k) ins ++ a :: drop (Z.to_nat k) ins ++ free'.
Proof.
  intros [Hl Hm Hf Hn] Hk (idx & first & num & -> & _ & Hfirst & Hlen & Hka & Hcase). cbn in *.
  set (n := m_max_num_msg q) in *. set (c := m_cur_num_msg q) in *.
  set (S := circ (m_cur_first_msg q) (mp_index q)) in *.
  assert (Z.of_nat (length S) = n) as HS by (unfold S; rewrite length_circ; lia).
  assert (Z.of_nat (length (circ first idx)) = n) as HS' by (rewrite length_circ; lia).
  set (T := circ first idx) in *.
  destruct Hcase as [Hc|Hc].
  - exists (drop (Z.to_nat (c + 1)) S).
    assert (at_pos S c = Some a) as Hca.
    { rewrite <- Hka, Hc by lia. f_equal. unfold from_back. split_pos. }
    split; [left|].
    + apply at_pos_ext; [cbn [length]; rewrite !length_drop; lia|]. rewrite length_drop. intros i Hi.
      rewrite at_pos_cons, !at_pos_drop by lia. split_pos; first [by rewrite <- Hca; f_equal; lia|f_equal; lia].
    + apply at_pos_ext.
      { rewrite !length_app. cbn [length]. rewrite length_app, !length_drop, !length_take. lia. }
      intros i Hi. rewrite Hc by lia.
      rewrite at_pos_app, at_pos_cons, at_pos_app, length_drop, !length_take, !at_pos_take, !at_pos_drop, !at_pos_take by lia.
      unfold from_back. split_pos; first [done|by rewrite <- Hca; f_equal; lia|f_equal; lia].
  - exists (take (Z.to_nat (n - 1 - c)) (drop (Z.to_nat c) S)).
    assert (at_pos S (n - 1) = Some a) as Hca.
    { rewrite <- Hka, Hc by lia. f_equal. unfold from_front. split_pos. }
    split; [right|].
    + apply at_pos_ext; [rewrite length_app, length_take, !length_drop; cbn [length]; lia|].
      rewrite length_drop. intros i Hi.
      rewrite at_pos_app, at_pos_cons, length_take, length_drop, at_pos_take, !at_pos_drop by lia.
      split_pos; first [done|by rewrite <- Hca; f_equal; lia|f_equal; lia].
    + apply at_pos_ext.
      { rewrite !length_app. cbn [length].
        rewrite length_app, !length_drop, !length_take, length_drop. lia. }
      intros i Hi. rewrite Hc by lia.
      rewrite at_pos_app, at_pos_cons, at_pos_app, length_drop, !length_take, !at_pos_take, !at_pos_drop, !at_pos_take by lia.
      unfold from_front. split_pos; first [done|by rewrite <- Hca; f_equal; lia|f_equal; lia].
Qed.
