(* ===== verification/MsgQueueInv.v ===== *)
(** The message queue: its invariant and the refinement of [send] and
    [receive] to a bounded priority queue.

    [contents] reads the stored messages off the index, lowest priority first;
    [pq_insert] is what sending means for it. *)

From S2P Require Import Prelude MathUtil MsgQueue MsgQueueIndex.

Local Open Scope u64_scope.

(** ** The abstract queue *)

(** A stored message: its priority and its bytes. *)
Notation item := (Z * list Z)%type.

(** A new message goes before all of the same or of higher priority. *)
Fixpoint pq_insert (x : item) (l : list item) : list item :=
  match l with
  | [] => [x]
  | y :: l' => if fst y <? fst x then y :: pq_insert x l' else x :: l
  end.

Fixpoint sorted_prio (l : list item) : Prop :=
  match l with
  | [] => True
  | x :: l' => Forall (λ y, fst x <= fst y) l' ∧ sorted_prio l'
  end.

Lemma pq_insert_split x l1 l2 :
  Forall (λ y, fst y < fst x) l1 → Forall (λ y, fst x <= fst y) l2 →
  pq_insert x (l1 ++ l2) = l1 ++ x :: l2.
Proof.
  intros H1 H2. induction H1 as [|y l1 Hy H1 IH]; cbn.
  - destruct H2 as [|y l2 Hy H2]; cbn; [done|]. ztest (fst y) (fst x); [lia|done].
  - ztest (fst y) (fst x); [by rewrite IH|lia].
Qed.

Lemma sorted_prio_app l1 l2 :
  sorted_prio (l1 ++ l2) ↔
  sorted_prio l1 ∧ sorted_prio l2 ∧ Forall (λ x, Forall (λ y, fst x <= fst y) l2) l1.
Proof.
  induction l1 as [|x l1 IH]; cbn; [naive_solver|]. rewrite IH, Forall_app, Forall_cons. tauto.
Qed.

Lemma pq_insert_sorted x l : sorted_prio l → sorted_prio (pq_insert x l).
Proof.
  induction l as [|y l IH]; cbn; [by repeat constructor|]. intros [Hy Hs].
  ztest (fst y) (fst x); cbn.
  - split; [|by apply IH]. clear IH Hs. induction Hy as [|z l Hz Hy IH]; cbn.
    + constructor; [lia|constructor].
    + ztest (fst z) (fst x); repeat constructor; try done; lia.
  - split; [|done]. constructor; [lia|]. eapply Forall_impl; [exact Hy|]. cbn. lia.
Qed.

Lemma pq_insert_length x l : length (pq_insert x l) = S (length l).
Proof. induction l as [|y l IH]; cbn; [done|]. destruct (_ <? _); cbn; congruence. Qed.

(** ** The concrete queue *)

Definition slots (q : mq) : list Z := circ (m_cur_first_msg q) (mp_index q).
Definition inserted (q : mq) : list Z := take (Z.to_nat (m_cur_num_msg q)) (slots q).
Definition free (q : mq) : list Z := drop (Z.to_nat (m_cur_num_msg q)) (slots q).

Definition item_of (ms : gmap Z msg) (a : Z) : item :=
  match ms !! a with
  | Some m => (priority m, take (Z.to_nat (len m)) (data m))
  | None => (0, [])
  end.

Definition contents (q : mq) : list item := item_of (messages q) <$> inserted q.

Record mq_inv (q : mq) : Prop := {
  mi_len : Z.of_nat (length (mp_index q)) = m_max_num_msg q;
  mi_max : m_max_num_msg q < 18446744073709551616;
  mi_first : 0 <= m_cur_first_msg q ∧ (0 < m_max_num_msg q → m_cur_first_msg q < m_max_num_msg q);
  mi_num : 0 <= m_cur_num_msg q <= m_max_num_msg q;
  mi_nodup : NoDup (slots q);
  mi_slots : Forall (λ a, ∃ m, messages q !! a = Some m ∧
               m_max_msg_size q <= Z.of_nat (length (data m))) (slots q);
  mi_free : Forall (λ a, ∀ m, messages q !! a = Some m → len m = 0 ∧ priority m = 0) (free q);
  mi_sorted : sorted_prio (contents q)
}.

Lemma inv_room q : mq_inv q → m_cur_num_msg q < m_max_num_msg q → has_room q.
Proof. intros [? ? ? ? ? ? ? ?] Hn. constructor; lia. Qed.

Lemma length_slots q : length (slots q) = length (mp_index q).
Proof. apply length_circ. Qed.

Lemma length_inserted q : mq_inv q → Z.of_nat (length (inserted q)) = m_cur_num_msg q.
Proof.
  intros [? ? ? ? ? ? ? ?]. unfold inserted. apply length_take_to. rewrite length_slots. lia.
Qed.

Lemma length_contents q : mq_inv q → Z.of_nat (length (contents q)) = m_cur_num_msg q.
Proof. intros Hi. unfold contents. rewrite length_fmap. by apply length_inserted. Qed.

Lemma wp_rd_msg a m q Q : messages q !! a = Some m → Q m q → wp (rd_msg a) q Q.
Proof. unfold wp, rd_msg. by intros ->. Qed.

Lemma wp_wr_msg a m m' q (Q : () → mq → Prop) :
  messages q !! a = Some m → Q () (set_messages <[a := m']> q) → wp (wr_msg a m') q Q.
Proof. unfold wp, wr_msg. by intros ->. Qed.

(** The slot, its message and its priority at circular position [i]. *)
Lemma slot_lookup q i :
  mq_inv q → 0 <= i < m_cur_num_msg q →
  ∃ a m x, at_pos (mp_index q) (wrap (m_max_num_msg q) (m_cur_first_msg q) i) = Some a ∧
    messages q !! a = Some m ∧ contents q !! Z.to_nat i = Some x ∧ fst x = priority m ∧
    x = item_of (messages q) a ∧ inserted q !! Z.to_nat i = Some a.
Proof.
  intros [Hl Hm Hf Hn Hnd Hsl _ _] Hi.
  destruct (at_pos_some (slots q) i) as [a Ha]; [rewrite length_slots; lia|].
  unfold slots in Ha. rewrite (circ_at (m_max_num_msg q)) in Ha by lia.
  assert (slots q !! Z.to_nat i = Some a) as Hs.
  { rewrite <- Ha. unfold slots. rewrite <- (circ_at (m_max_num_msg q)) by lia.
    unfold at_pos. destruct (Z.leb_spec 0 i); [done|lia]. }
  rewrite Forall_lookup in Hsl. destruct (Hsl _ _ Hs) as (m & Em & _).
  assert (inserted q !! Z.to_nat i = Some a) as Hins.
  { unfold inserted. rewrite lookup_take_lt; [done|lia]. }
  exists a, m, (item_of (messages q) a). split_and!; try done.
  - unfold contents. rewrite list_lookup_fmap, Hins. done.
  - unfold item_of. by rewrite Em.
Qed.

(** ** [std::lower_bound] and [lower_bound] *)

Definition prio_at (q : mq) (j : Z) : Z :=
  match at_pos (mp_index q) j with
  | Some a => match messages q !! a with Some m => priority m | None => 0 end
  | None => 0
  end.

Lemma std_lower_bound_ok q value fuel : ∀ first count,
  0 <= first → 0 <= count → first + count <= Z.of_nat (length (mp_index q)) →
  (Z.to_nat count < fuel)%nat →
  (∀ j, first <= j < first + count →
     ∃ a m, at_pos (mp_index q) j = Some a ∧ messages q !! a = Some m) →
  (∀ i j, first <= i <= j → j < first + count → prio_at q i <= prio_at q j) →
  wp (std_lower_bound fuel first count value) q (λ r q', q' = q ∧
    first <= r <= first + count ∧ (∀ j, first <= j < r → prio_at q j < value) ∧
    (∀ j, r <= j < first + count → value <= prio_at q j)).
Proof.
  induction fuel as [|fuel IH]; intros first count H0 Hc Hlen Hfuel Hm Hs; [lia|].
  cbn [std_lower_bound]. destruct (Z.leb_spec count 0).
  { wp_step. split_and!; try done; lia. }
  cbv zeta. assert (0 <= count / 2 < count) as Hh by dlia. set (h := count / 2) in *.
  destruct (Hm (first + h)) as (a & m & Ha & Em); [lia|].
  assert (prio_at q (first + h) = priority m) as Hp by (unfold prio_at; by rewrite Ha, Em).
  wp_step. eapply wp_rd_index; [done|]. wp_step. eapply wp_rd_msg; [done|].
  ztest (priority m) value.
  - eapply wp_mono; [apply IH; try lia|].
    + intros j Hj. apply Hm. lia.
    + intros i j ? ?. apply Hs; lia.
    + intros r q' (-> & Hr & Hlo & Hhi). split_and!; [done|lia|lia| |].
      * intros j Hj. destruct (decide (first + h + 1 <= j)); [apply Hlo; lia|].
        pose proof (Hs j (first + h)). lia.
      * intros j Hj. apply Hhi. lia.
  - eapply wp_mono; [apply IH; try lia|].
    + intros j Hj. apply Hm. lia.
    + intros i j ? ?. apply Hs; lia.
    + intros r q' (-> & Hr & Hlo & Hhi). split_and!; [done|lia|lia|done|].
      intros j Hj. destruct (decide (j < first + h)); [apply Hhi; lia|].
      pose proof (Hs (first + h) j). lia.
Qed.

(** The priority at circular position [i]. *)
Definition cprio (q : mq) (i : Z) : Z :=
  prio_at q (wrap (m_max_num_msg q) (m_cur_first_msg q) i).

Lemma cprio_contents q i :
  mq_inv q → 0 <= i < m_cur_num_msg q →
  ∃ x, contents q !! Z.to_nat i = Some x ∧ fst x = cprio q i.
Proof.
  intros Hinv Hi. destruct (slot_lookup q i Hinv Hi) as (a & m & x & Ha & Em & Hx & Hp & _).
  exists x. split; [done|]. unfold cprio, prio_at. by rewrite Ha, Em.
Qed.

Lemma sorted_lookup l i j x y :
  sorted_prio l → (i <= j)%nat → l !! i = Some x → l !! j = Some y → fst x <= fst y.
Proof.
  revert i j. induction l as [|z l IH]; intros i j Hs Hij; [done|]. destruct Hs as [Hz Hs].
  destruct i as [|i], j as [|j]; cbn; try lia.
  - intros [= ->] [= ->]. lia.
  - intros [= ->] Hy. rewrite Forall_lookup in Hz. by eapply Hz.
  - intros Hx Hy. eapply (IH i j); [done|lia|done|done].
Qed.

Lemma cprio_sorted q i j :
  mq_inv q → 0 <= i <= j → j < m_cur_num_msg q → cprio q i <= cprio q j.
Proof.
  intros Hinv Hij Hj. destruct (cprio_contents q i Hinv) as (x & Hx & <-); [lia|].
  destruct (cprio_contents q j Hinv) as (y & Hy & <-); [lia|].
  eapply (sorted_lookup (contents q)); [apply Hinv| |done|done]. lia.
Qed.

(** [k] is the place for a message of priority [value]. *)
Definition place (q : mq) (value k : Z) : Prop :=
  0 <= k <= m_cur_num_msg q ∧
  (∀ i, 0 <= i < k → cprio q i < value) ∧
  (∀ i, k <= i < m_cur_num_msg q → value <= cprio q i).

Lemma lower_bound_ok q value :
  mq_inv q → 0 < m_cur_num_msg q < m_max_num_msg q → value <= cprio q (m_cur_num_msg q - 1) →
  wp (lower_bound value) q (λ r q', q' = q ∧ ∃ k,
    r = wrap (m_max_num_msg q) (m_cur_first_msg q) k ∧ place q value k).
Proof.
  intros Hinv Hn Htop. pose proof Hinv as [Hl Hm Hf Hnn _ _ _ _].
  assert (∀ i, 0 <= i < m_cur_num_msg q → ∃ a m,
    at_pos (mp_index q) (wrap (m_max_num_msg q) (m_cur_first_msg q) i) = Some a ∧
    messages q !! a = Some m) as Hslot.
  { intros i Hi. destruct (slot_lookup q i Hinv Hi) as (a & m & x & Ha & Em & _). eauto. }
  assert (∀ i j, 0 <= i <= j → j < m_cur_num_msg q → cprio q i <= cprio q j) as Hsort
    by (intros; by apply cprio_sorted).
  unfold lower_bound, inserted_ptr_begin, inserted_ptr_end. wp_step. wp_step.
  rewrite end_pos_val by lia. unfold cprio in *. cbv zeta. unfold place, cprio.
  set (n := m_max_num_msg q) in *. set (f := m_cur_first_msg q) in *. set (c := m_cur_num_msg q) in *.
  (* circular positions as positions of the index *)
  assert (∀ i, 0 <= i → f + i < n → wrap n f i = f + i) as Hw1 by (intros; unfold wrap; split_pos).
  assert (∀ i, n <= f + i → wrap n f i = f + i - n) as Hw2 by (intros; unfold wrap; split_pos).
  destruct (Z.ltb_spec (wrap n f c) f) as [Hwr|Hwr].
  - assert (n <= f + c) as Hnc by (unfold wrap in Hwr; revert Hwr; split_pos).
    wp_step. eapply wp_mono.
    { apply std_lower_bound_ok; try lia.
      - intros j Hj.
        replace j with (wrap n f (j - f)) by (rewrite Hw1; lia). apply Hslot. lia.
      - intros i j Hij Hj. replace i with (wrap n f (i - f)) by (rewrite Hw1; lia).
        replace j with (wrap n f (j - f)) by (rewrite Hw1; lia). apply Hsort; lia. }
    intros r q' (-> & Hr & Hlo & Hhi). destruct (Z.eqb_spec n r) as [<-|Hne].
    + rewrite (Hw2 c) by lia. wp_step. eapply wp_mono.
      { apply std_lower_bound_ok; try lia.
        - intros j Hj. replace j with (wrap n f (j + n - f)) by (rewrite Hw2; lia). apply Hslot. lia.
        - intros i j Hij Hj. replace i with (wrap n f (i + n - f)) by (rewrite Hw2; lia).
          replace j with (wrap n f (j + n - f)) by (rewrite Hw2; lia). apply Hsort; lia. }
      intros r q' (-> & Hr2 & Hlo2 & Hhi2).
      assert (r ≠ f + c - n) as Hre.
      { intros ->. destruct (decide (f + c = n)) as [E|E].
        - rewrite Hw1 in Htop by lia. pose proof (Hlo (f + (c - 1))). lia.
        - rewrite Hw2 in Htop by lia. pose proof (Hlo2 (f + (c - 1) - n)). lia. }
      wp_step. apply wp_assert; [by apply negb_true_iff, Z.eqb_neq|].
      wp_step. apply wp_assert; [apply negb_true_iff, Z.eqb_neq; lia|]. wp_step.
      split; [done|]. exists (r + n - f). split_and!; [rewrite Hw2; lia|lia|lia| |].
      * intros i Hi. destruct (decide (f + i < n)); [rewrite Hw1 by lia; apply Hlo; lia|].
        rewrite Hw2 by lia. apply Hlo2. lia.
      * intros i Hi. rewrite Hw2 by lia. apply Hhi2. lia.
    + wp_step. split; [done|]. exists (r - f). split_and!; [rewrite Hw1; lia|lia|lia| |].
      * intros i Hi. rewrite Hw1 by lia. apply Hlo. lia.
      * intros i Hi. transitivity (prio_at q (wrap n f (r - f))); [rewrite Hw1 by lia; apply Hhi; lia|].
        apply Hsort; lia.
  - assert (f + c < n) as Hnc by (unfold wrap in Hwr; revert Hwr; split_pos).
    rewrite (Hw1 c) by lia. eapply wp_mono.
    { apply std_lower_bound_ok; try lia.
      - intros j Hj. replace j with (wrap n f (j - f)) by (rewrite Hw1; lia). apply Hslot. lia.
      - intros i j Hij Hj. replace i with (wrap n f (i - f)) by (rewrite Hw1; lia).
        replace j with (wrap n f (j - f)) by (rewrite Hw1; lia). apply Hsort; lia. }
    intros r q' (-> & Hr & Hlo & Hhi). split; [done|]. exists (r - f).
    split_and!; [rewrite Hw1; try lia|lia|lia| |].
    + intros i Hi. rewrite Hw1 by lia. apply Hlo. lia.
    + intros i Hi. rewrite Hw1 by lia. apply Hhi. lia.
Qed.

(** ** [queue_free_msg] *)

Lemma top_msg_ok q a :
  mq_inv q → 0 < m_cur_num_msg q →
  at_pos (mp_index q) (wrap (m_max_num_msg q) (m_cur_first_msg q) (m_cur_num_msg q - 1)) = Some a →
  wp top_msg q (λ r q', r = a ∧ q' = q).
Proof.
  intros [Hl Hm Hf Hn _ _ _ _] Hpos Ha. unfold top_msg. wp_step. wp_step.
  rewrite end_pos_val by lia. eapply wp_rd_index; [|done]. rewrite <- Ha. f_equal.
  unfold nz, wrap. split_pos; rewrite u64_small by u64_side; lia.
Qed.

Lemma queue_free_msg_ok q prio :
  mq_inv q → m_cur_num_msg q < m_max_num_msg q →
  wp (queue_free_msg prio) q (λ a q', ∃ k, place q prio k ∧ slot_inserted q k a q').
Proof.
  intros Hinv Hn. pose proof (inv_room q Hinv Hn) as Hroom. pose proof Hroom as [Hl Hm Hf Hnn].
  assert (∀ k, place q prio k → wp (insert_at (wrap (m_max_num_msg q) (m_cur_first_msg q) k)) q
    (λ a q', ∃ k, place q prio k ∧ slot_inserted q k a q')) as Hins.
  { intros k Hk. eapply wp_mono; [apply insert_at_ok; [done|apply Hk]|]. eauto. }
  assert (wrap (m_max_num_msg q) (m_cur_first_msg q) 0 = m_cur_first_msg q) as Hw0
    by (unfold wrap; split_pos).
  unfold queue_free_msg, inserted_ptr_begin, inserted_ptr_end. wp_step. wp_step. cbv zeta.
  rewrite end_pos_val by lia. wp_step. unfold nz.
  destruct (Z.eqb_spec (m_cur_num_msg q) 0) as [E0|E0]; cbn [negb].
  { wp_step. rewrite <- Hw0. apply Hins. split_and!; lia. }
  destruct (slot_lookup q 0 Hinv) as (a0 & m0 & x0 & Ha0 & Em0 & _); [lia|].
  destruct (slot_lookup q (m_cur_num_msg q - 1) Hinv) as (a1 & m1 & x1 & Ha1 & Em1 & _); [lia|].
  assert (cprio q 0 = priority m0) as Hp0 by (unfold cprio, prio_at; by rewrite Ha0, Em0).
  assert (cprio q (m_cur_num_msg q - 1) = priority m1) as Hp1 by (unfold cprio, prio_at; by rewrite Ha1, Em1).
  rewrite Hw0 in Ha0. wp_step. unfold bottom_msg. wp_step. wp_step. eapply wp_rd_index; [done|].
  wp_step. eapply wp_rd_msg; [done|]. ztest (priority m0) prio.
  - wp_step. eapply wp_mono; [by apply (top_msg_ok q a1); [done|lia|]|]. intros ? ? [-> ->].
    wp_step. eapply wp_rd_msg; [done|]. ztest (priority m1) prio.
    + wp_step. apply Hins. split_and!; try lia.
      intros i Hi. pose proof (cprio_sorted q i (m_cur_num_msg q - 1) Hinv). lia.
    + eapply wp_mono; [apply lower_bound_ok; [done|lia|lia]|].
      intros r q' (-> & k & -> & Hk). by apply Hins.
  - wp_step. rewrite <- Hw0. apply Hins. split_and!; try lia.
    intros i Hi. pose proof (cprio_sorted q 0 i Hinv). lia.
Qed.

(** [place] in terms of the contents. *)
Lemma place_contents q prio k :
  mq_inv q → place q prio k →
  Forall (λ x, fst x < prio) (take (Z.to_nat k) (contents q)) ∧
  Forall (λ x, prio <= fst x) (drop (Z.to_nat k) (contents q)).
Proof.
  intros Hinv (Hk & Hlo & Hhi). pose proof (length_contents q Hinv) as Hlen.
  rewrite !Forall_lookup. split.
  - intros i x Hx. apply lookup_take_Some in Hx as [Hx Hi].
    destruct (cprio_contents q (Z.of_nat i) Hinv) as (y & Hy & Ey); [lia|].
    rewrite Nat2Z.id in Hy. assert (x = y) as -> by congruence. rewrite Ey. apply Hlo. lia.
  - intros i x Hx. rewrite lookup_drop in Hx. apply lookup_lt_Some in Hx as Hi.
    destruct (cprio_contents q (Z.of_nat (Z.to_nat k + i)) Hinv) as (y & Hy & Ey); [lia|].
    rewrite Nat2Z.id in Hy. assert (x = y) as -> by congruence. rewrite Ey. apply Hhi. lia.
Qed.

Lemma item_of_other ms a m (l : list Z) : a ∉ l → item_of (<[a := m]> ms) <$> l = item_of ms <$> l.
Proof.
  intros Ha. apply list_fmap_ext. intros i b Hb. unfold item_of.
  rewrite lookup_insert_ne; [done|]. intros ->. apply Ha. by eapply list_elem_of_lookup_2.
Qed.

(** ** [send] and [receive] under the lock *)

(** What a completed [send] did. *)
Definition sent (q : mq) (prio : Z) (buffer : list Z) (q' : mq) : Prop :=
  mq_inv q' ∧ contents q' = pq_insert (prio, buffer) (contents q) ∧
  m_cur_num_msg q' = m_cur_num_msg q + 1 ∧
  m_max_num_msg q' = m_max_num_msg q ∧ m_max_msg_size q' = m_max_msg_size q ∧
  m_blocked_senders q' = m_blocked_senders q ∧ m_blocked_receivers q' = m_blocked_receivers q.

(** The slots before and after a slot [a] was taken from the free ones. *)
Definition slot_split (q : mq) (a k : Z) (l1 l2 free' : list Z) : Prop :=
  slots q ≡ₚ l1 ++ a :: l2 ++ free' ∧ a ∈ free q ∧
  l1 = take (Z.to_nat k) (inserted q) ∧ l2 = drop (Z.to_nat k) (inserted q) ∧
  (∀ b, b ∈ free' → b ∈ free q) ∧ a ∉ l1 ∧ a ∉ l2 ∧ a ∉ free'.

Lemma slot_split_ok q a k free' :
  mq_inv q → (free q = a :: free' ∨ free q = free' ++ [a]) →
  slot_split q a k (take (Z.to_nat k) (inserted q)) (drop (Z.to_nat k) (inserted q)) free'.
Proof.
  intros Hinv Hfree. pose proof (mi_nodup _ Hinv) as Hnd.
  assert (slots q = inserted q ++ free q) as Hsl by (unfold inserted, free; by rewrite take_drop).
  set (l1 := take (Z.to_nat k) (inserted q)). set (l2 := drop (Z.to_nat k) (inserted q)).
  assert (inserted q = l1 ++ l2) as Hl12 by (unfold l1, l2; by rewrite take_drop).
  assert (slots q ≡ₚ l1 ++ a :: l2 ++ free') as Hperm.
  { rewrite Hsl, Hl12, <- Permutation_middle, <- app_assoc.
    destruct Hfree as [-> | ->]; [by rewrite !Permutation_middle|].
    rewrite (Permutation_app_comm free' [a]). by rewrite !Permutation_middle. }
  rewrite Hperm in Hnd. apply NoDup_app in Hnd as (_ & Hd & Hnd'). apply NoDup_cons in Hnd' as [Hna _].
  rewrite not_elem_of_app in Hna.
  split_and!; try done; try tauto; try (destruct Hfree as [-> | ->]; set_solver).
  intros Hin. eapply Hd; [done|]. left.
Qed.

(** A message written to a slot that was taken for it. *)
Lemma fill_slot q a k l1 l2 free' idx first num m prio buffer :
  mq_inv q → slot_split q a k l1 l2 free' →
  0 <= first < m_max_num_msg q → length idx = length (mp_index q) →
  num = m_cur_num_msg q + 1 → num <= m_max_num_msg q → 0 <= k <= m_cur_num_msg q →
  circ first idx = l1 ++ a :: l2 ++ free' →
  messages q !! a = Some m → Z.of_nat (length buffer) <= m_max_msg_size q →
  Forall (λ x, fst x < prio) (take (Z.to_nat k) (contents q)) →
  Forall (λ x, prio <= fst x) (drop (Z.to_nat k) (contents q)) →
  sent q prio buffer
    (set_messages <[a := Msg (Z.of_nat (length buffer)) prio (buffer ++ drop (length buffer) (data m))]>
      (set_cur_first (λ _, first) (set_cur_num (λ _, num) (with_index q idx)))).
Proof.
  intros Hinv (Hperm & Haf & -> & -> & Hf' & Ha1 & Ha2 & Ha3) Hfirst Hlen Hnum Hnm Hk Hcirc Em Hbuf Hlo Hhi.
  pose proof (length_inserted q Hinv) as Hli. pose proof Hinv as [Il Im If In Ind Isl Ifr Iso].
  set (l1 := take (Z.to_nat k) (inserted q)) in *. set (l2 := drop (Z.to_nat k) (inserted q)) in *.
  set (m' := Msg _ _ _). set (q' := set_messages _ _).
  assert (slots q' = l1 ++ a :: l2 ++ free') as Hs' by exact Hcirc.
  assert (inserted q' = l1 ++ a :: l2) as Hi'.
  { unfold inserted. rewrite Hs'. change (m_cur_num_msg q') with num.
    replace (l1 ++ a :: l2 ++ free') with ((l1 ++ a :: l2) ++ free') by (by rewrite <- app_assoc).
    apply take_app_length'. rewrite length_app. cbn [length]. unfold l1, l2.
    rewrite length_take, length_drop. lia. }
  assert (free q' = free') as Hfr'.
  { apply (app_inv_head (inserted q')). transitivity (slots q').
    - unfold inserted, free. apply take_drop.
    - rewrite Hs', Hi', <- app_assoc. done. }
  assert (contents q' = pq_insert (prio, buffer) (contents q)) as Hc'.
  { rewrite <- (take_drop (Z.to_nat k) (contents q)), pq_insert_split by done.
    unfold contents at 1. rewrite Hi', fmap_app, fmap_cons. cbn [messages q' set_messages].
    rewrite !item_of_other by done. unfold contents. rewrite <- fmap_take, <- fmap_drop. f_equal. f_equal.
    unfold item_of. rewrite lookup_insert_eq. cbn. by rewrite Nat2Z.id, take_app_length. }
  split_and!; try done. constructor; try done; cbn; try lia.
  - by rewrite Hs', <- Hperm.
  - rewrite Hs', <- Hperm. eapply Forall_impl; [exact Isl|]. intros b (mb & Eb & Hcap). cbn.
    destruct (decide (b = a)) as [->|Hne]; [|exists mb; by rewrite lookup_insert_ne].
    exists m'. rewrite lookup_insert_eq. split; [done|]. cbn. simplify_eq.
    rewrite length_app, length_drop. lia.
  - rewrite Hfr'. apply Forall_forall. intros b Hb mb. rewrite lookup_insert_ne by (by intros ->).
    rewrite Forall_forall in Ifr. by apply Ifr, Hf'.
  - rewrite Hc'. by apply pq_insert_sorted.
Qed.

Lemma send_message_ok q buffer prio :
  mq_inv q → m_cur_num_msg q < m_max_num_msg q → Z.of_nat (length buffer) <= m_max_msg_size q →
  wp (send_message buffer prio) q (λ r q',
    r = IoDone () (nz (m_blocked_receivers q)) ∧ sent q prio buffer q').
Proof.
  intros Hinv Hn Hbuf. pose proof (inv_room q Hinv Hn) as Hroom.
  unfold send_message. wp_step. wp_step. wp_step.
  eapply wp_mono; [by apply queue_free_msg_ok|]. intros a q1 (k & Hplace & Hsi).
  pose proof (place_contents _ _ _ Hinv Hplace) as [Hlo Hhi].
  destruct (slot_inserted_list q k a q1 Hroom) as (free' & Hfree & Hcirc); [apply Hplace|done|].
  destruct Hsi as (idx & first & num & -> & Hnum & Hfirst & Hlen & _ & _). cbn in Hcirc.
  fold (slots q) in Hfree, Hcirc. fold (inserted q) (free q) in Hfree, Hcirc.
  pose proof (slot_split_ok q a k free' Hinv Hfree) as Hsplit.
  pose proof Hsplit as (_ & Haf & _).
  assert (a ∈ slots q) as Has.
  { unfold free in Haf. rewrite <- (take_drop (Z.to_nat (m_cur_num_msg q)) (slots q)). set_solver. }
  pose proof (proj1 (Forall_forall _ _) (mi_slots _ Hinv) a Has) as (m & Em & Hcap).
  pose proof (proj1 (Forall_forall _ _) (mi_free _ Hinv) a Haf m Em) as [Hlen0 Hpr0].
  wp_step. eapply wp_rd_msg; [exact Em|]. wp_step. apply wp_assert; [by apply Z.eqb_eq|].
  wp_step. apply wp_assert; [by apply Z.eqb_eq|]. wp_step. eapply wp_wr_msg; [exact Em|]. wp_step.
  split; [done|]. destruct Hplace as [Hk _]. eapply fill_slot; try done. lia.
Qed.

(** What a completed [receive] did. *)
Definition received (q : mq) (x : item) (q' : mq) : Prop :=
  mq_inv q' ∧ contents q = contents q' ++ [x] ∧
  m_cur_num_msg q' = m_cur_num_msg q - 1 ∧
  m_max_num_msg q' = m_max_num_msg q ∧ m_max_msg_size q' = m_max_msg_size q ∧
  m_blocked_senders q' = m_blocked_senders q ∧ m_blocked_receivers q' = m_blocked_receivers q.

Lemma receive_message_ok q :
  mq_inv q → 0 < m_cur_num_msg q →
  wp receive_message q (λ r q', ∃ x,
    r = IoDone (snd x, fst x) (nz (m_blocked_senders q)) ∧ received q x q').
Proof.
  intros Hinv Hn. pose proof Hinv as [Il Im If In Ind Isl Ifr Iso].
  destruct (slot_lookup q (m_cur_num_msg q - 1) Hinv) as (a & m & x & Ha & Em & Hx & Hpx & Ex & Hia); [lia|].
  unfold receive_message. wp_step. wp_step. wp_step.
  eapply wp_mono; [by apply (top_msg_ok q a)|]. intros ? ? [-> ->].
  wp_step. eapply wp_rd_msg; [exact Em|]. cbv zeta. wp_step. eapply wp_wr_msg; [exact Em|].
  wp_step. unfold free_top_msg. wp_step. wp_step.
  exists x. split; [rewrite Ex; unfold item_of; by rewrite Em|].
  set (q' := set_cur_num _ _). set (c := m_cur_num_msg q) in *.
  assert (m_cur_num_msg q' = c - 1) as Ec by (cbn; apply u64_small; u64_side).
  assert (inserted q = inserted q' ++ [a]) as Hins.
  { unfold inserted. rewrite Ec. fold c. change (slots q') with (slots q).
    replace (Z.to_nat c) with (S (Z.to_nat (c - 1))) by lia. apply take_S_r.
    unfold inserted in Hia. fold c in Hia. by rewrite lookup_take_lt in Hia by lia. }
  assert (free q' = a :: free q) as Hfr.
  { apply (app_inv_head (inserted q')). transitivity (slots q).
    - unfold inserted, free. apply take_drop.
    - change (a :: free q) with ([a] ++ free q). rewrite app_assoc, <- Hins.
      unfold inserted, free. by rewrite take_drop. }
  assert (a ∉ inserted q' ∧ a ∉ free q) as [Hna Hnf].
  { rewrite <- (take_drop (Z.to_nat c) (slots q)) in Ind. fold c (inserted q) (free q) in Ind.
    change (NoDup (inserted q ++ free q)) in Ind.
    rewrite Hins, <- app_assoc in Ind. apply NoDup_app in Ind as (_ & Hd & Hnd).
    apply NoDup_cons in Hnd as [? _]. split; [|done]. intros Hin. eapply Hd; [done|]. left. }
  assert (contents q = contents q' ++ [x]) as Hc.
  { unfold contents. rewrite Hins, fmap_app. cbn [messages q' set_cur_num set_messages].
    rewrite item_of_other by done. by rewrite Ex. }
  split_and!; try done. constructor; try done; try (cbn; lia).
  - rewrite Ec. cbn. lia.
  - eapply Forall_impl; [exact Isl|]. intros b (mb & Eb & Hcap). cbn.
    destruct (decide (b = a)) as [->|Hne]; [|exists mb; by rewrite lookup_insert_ne].
    eexists. rewrite lookup_insert_eq. split; [done|]. cbn. by simplify_eq.
  - rewrite Hfr. apply Forall_cons. cbn. split.
    + intros mb. rewrite lookup_insert_eq. by intros [= <-].
    + apply Forall_forall. intros b Hb mb. rewrite lookup_insert_ne by (by intros ->).
      rewrite Forall_forall in Ifr. by apply Ifr.
  - rewrite Hc in Iso. by apply sorted_prio_app in Iso as [? _].
Qed.
