(* ===== verification/MsgQueueProps.v ===== *)
(** The message queue: its correctness theorems. *)

From S2P Require Import Prelude MathUtil MsgQueue MsgQueueIndex MsgQueueInv.

Local Open Scope u64_scope.

(** ** A concrete queue

    Four messages of at most 8 bytes, the first at circular position 3. *)

Definition cell : msg := Msg 0 0 (replicate 8 0).
Definition demo_mq : mq :=
  MQ [1000; 1024; 1048; 1072] 4 8 0 3 0 0
     (<[1000 := cell]> (<[1024 := cell]> (<[1048 := cell]> {[ 1072 := cell ]}))).

Lemma demo_mq_inv : mq_inv demo_mq.
Proof.
  constructor; try (vm_compute; intuition congruence); try done.
  - apply (bool_decide_unpack _). by vm_compute.
  - change (slots demo_mq) with [1072; 1000; 1024; 1048].
    repeat (apply Forall_cons_2; [eexists; (split; [reflexivity|vm_compute; congruence])|]).
    apply Forall_nil_2.
  - change (free demo_mq) with [1072; 1000; 1024; 1048].
    repeat (apply Forall_cons_2; [intros m [= <-]; done|]). apply Forall_nil_2.
Qed.

(** The two calls as equations. *)
Lemma do_send_eq block buffer prio q :
  do_send block buffer prio q =
    if m_max_msg_size q <? Z.of_nat (length buffer) then Ret (IoThrow, q)
    else if is_full q then
      match block with
      | non_blocking => Ret (IoFalse, set_blocked_senders (λ n, n -! 1) (set_blocked_senders (λ n, n +! 1) q))
      | _ => Ret (IoWait, set_blocked_senders (λ n, n +! 1) q)
      end
    else send_message buffer prio q.
Proof.
  unfold do_send, mbind, M_bind, get, mret, M_ret, modify.
  destruct (_ <? _); [done|]. destruct (is_full q); by destruct block.
Qed.

Lemma do_receive_eq block buffer_size q :
  do_receive block buffer_size q =
    if buffer_size <? m_max_msg_size q then Ret (IoThrow, q)
    else if is_empty q then
      match block with
      | non_blocking => Ret (IoFalse, set_blocked_receivers (λ n, n -! 1) (set_blocked_receivers (λ n, n +! 1) q))
      | _ => Ret (IoWait, set_blocked_receivers (λ n, n +! 1) q)
      end
    else receive_message q.
Proof.
  unfold do_receive, mbind, M_bind, get, mret, M_ret, modify.
  destruct (_ <? _); [done|]. destruct (is_empty q); by destruct block.
Qed.

Lemma blocked_back_senders q :
  0 <= m_blocked_senders q < u64_max →
  set_blocked_senders (λ n, n +! 1) q = set_blocked_senders (λ n, n + 1) q ∧
  set_blocked_senders (λ n, n -! 1) (set_blocked_senders (λ n, n +! 1) q) = q.
Proof.
  intros Hb. unfold u64_max in Hb. unfold set_blocked_senders.
  destruct q as [idx mx ms cn cf bs br mm]. cbn [m_blocked_senders m_blocked_receivers mp_index m_max_num_msg
    m_max_msg_size m_cur_num_msg m_cur_first_msg messages] in *. u64_simpl.
  split; [done|]. f_equal. lia.
Qed.

Lemma blocked_back_receivers q :
  0 <= m_blocked_receivers q < u64_max →
  set_blocked_receivers (λ n, n +! 1) q = set_blocked_receivers (λ n, n + 1) q ∧
  set_blocked_receivers (λ n, n -! 1) (set_blocked_receivers (λ n, n +! 1) q) = q.
Proof.
  intros Hb. unfold u64_max in Hb. unfold set_blocked_receivers.
  destruct q as [idx mx ms cn cf bs br mm]. cbn [m_blocked_senders m_blocked_receivers mp_index m_max_num_msg
    m_max_msg_size m_cur_num_msg m_cur_first_msg messages] in *. u64_simpl.
  split; [done|]. f_equal. lia.
Qed.

(** ** The theorems *)

(** C4: [send] refines the bounded priority queue: a buffer over the maximum
    size is refused with an exception; if there is room, every kind of send
    completes without fault (its assertions hold), the contents become
    [pq_insert] of the old ones, and a receiver is notified exactly if one is
    registered as blocked; if the queue is full, [try_send] returns false and
    changes nothing, the other sends register as blocked and wait. *)
Theorem mq_send_refines (q : mq) (block : mqblock_types) (buffer : list Z) (prio : Z) :
  mq_inv q → 0 <= m_blocked_senders q < u64_max →
  (m_max_msg_size q < Z.of_nat (length buffer) → do_send block buffer prio q = Ret (IoThrow, q)) ∧
  (Z.of_nat (length buffer) <= m_max_msg_size q → is_full q = false →
   ∃ q', do_send block buffer prio q = Ret (IoDone () (nz (m_blocked_receivers q)), q') ∧
     mq_inv q' ∧ contents q' = pq_insert (prio, buffer) (contents q)) ∧
  (Z.of_nat (length buffer) <= m_max_msg_size q → is_full q = true →
   do_send block buffer prio q =
     match block with
     | non_blocking => Ret (IoFalse, q)
     | _ => Ret (IoWait, set_blocked_senders (λ n, n + 1) q)
     end).
Proof.
  intros Hinv Hb. rewrite do_send_eq. destruct (blocked_back_senders q Hb) as [E1 E2]. rewrite E2, E1.
  destruct (Z.ltb_spec (m_max_msg_size q) (Z.of_nat (length buffer))); split_and!; try lia; try done.
  - intros Hsz Hfull. rewrite Hfull.
    assert (m_cur_num_msg q < m_max_num_msg q) as Hn
      by (unfold is_full in Hfull; pose proof (mi_num _ Hinv); lia).
    pose proof (send_message_ok q buffer prio Hinv Hn Hsz) as Hwp.
    apply wp_run in Hwp as (r & q' & E & -> & (Hinv' & Hc & _)). eauto 10.
  - intros Hsz ->. by destruct block.
Qed.

Lemma mq_send_refines_witness :
  ∃ q', do_send non_blocking [7; 8; 9] 5 demo_mq = Ret (IoDone () false, q') ∧
    mq_inv q' ∧ contents q' = [(5, [7; 8; 9])].
Proof.
  destruct (mq_send_refines demo_mq non_blocking [7; 8; 9] 5 demo_mq_inv) as (_ & H & _);
    [vm_compute; intuition congruence|].
  apply H; [vm_compute; congruence|reflexivity].
Defined.

(** C5: [receive] refines the bounded priority queue: a buffer that could not
    hold the largest message is refused with an exception; if there is a
    message, the call returns the bytes and the priority of the last one in
    the contents, which has the highest priority of all, removes it, and
    notifies a sender exactly if one is registered as blocked; if the queue is
    empty, [try_receive] returns false and changes nothing, the other receives
    register as blocked and wait. *)
Theorem mq_receive_refines (q : mq) (block : mqblock_types) (buffer_size : Z) :
  mq_inv q → 0 <= m_blocked_receivers q < u64_max →
  (buffer_size < m_max_msg_size q → do_receive block buffer_size q = Ret (IoThrow, q)) ∧
  (m_max_msg_size q <= buffer_size → is_empty q = false →
   ∃ prio bytes q', do_receive block buffer_size q = Ret (IoDone (bytes, prio) (nz (m_blocked_senders q)), q') ∧
     mq_inv q' ∧ contents q = contents q' ++ [(prio, bytes)] ∧
     Forall (λ x, fst x <= prio) (contents q)) ∧
  (m_max_msg_size q <= buffer_size → is_empty q = true →
   do_receive block buffer_size q =
     match block with
     | non_blocking => Ret (IoFalse, q)
     | _ => Ret (IoWait, set_blocked_receivers (λ n, n + 1) q)
     end).
Proof.
  intros Hinv Hb. rewrite do_receive_eq. destruct (blocked_back_receivers q Hb) as [E1 E2]. rewrite E2, E1.
  destruct (Z.ltb_spec buffer_size (m_max_msg_size q)); split_and!; try lia; try done.
  - intros Hsz He. rewrite He.
    assert (0 < m_cur_num_msg q) as Hn
      by (unfold is_empty, nz in He; pose proof (mi_num _ Hinv); lia).
    pose proof (receive_message_ok q Hinv Hn) as Hwp.
    apply wp_run in Hwp as (r & q' & E & [prio bytes] & -> & (Hinv' & Hc & _)).
    exists prio, bytes, q'. split_and!; try done.
    pose proof (mi_sorted _ Hinv) as Hs. rewrite Hc in *. apply sorted_prio_app in Hs as (_ & _ & Hs).
    apply Forall_app. split; [|repeat constructor; cbn; lia].
    eapply Forall_impl; [exact Hs|]. intros x Hx. cbn in *. by apply Forall_cons in Hx as [? _].
  - intros Hsz ->. by destruct block.
Qed.

Lemma mq_receive_refines_witness :
  do_receive non_blocking 8 demo_mq = Ret (IoFalse, demo_mq) ∧
  do_receive non_blocking 7 demo_mq = Ret (IoThrow, demo_mq).
Proof.
  destruct (mq_receive_refines demo_mq non_blocking 8 demo_mq_inv) as (_ & _ & H);
    [vm_compute; intuition congruence|].
  destruct (mq_receive_refines demo_mq non_blocking 7 demo_mq_inv) as (H' & _ & _);
    [vm_compute; intuition congruence|].
  split; [apply H; [vm_compute; congruence|reflexivity]|apply H'; reflexivity].
Defined.

(** *** Sequences of operations *)

Inductive op := OSend (prio : Z) (bytes : list Z) | OReceive.

(** Run [try_send] and [try_receive]; what was sent and what was received. *)
Fixpoint run_ops (ops : list op) : M mq (list item * list item) :=
  match ops with
  | [] => mret ([], [])
  | OSend prio bytes :: ops =>
      r ← try_send bytes prio;
      '(sent, recvd) ← run_ops ops;
      mret (match r with IoDone _ _ => (prio, bytes) :: sent | _ => sent end, recvd)
  | OReceive :: ops =>
      max ← gets m_max_msg_size;
      r ← try_receive max;
      '(sent, recvd) ← run_ops ops;
      mret (sent, match r with IoDone (bytes, prio) _ => (prio, bytes) :: recvd | _ => recvd end)
  end.

(** The messages of priority [p], in order. *)
Definition of_prio (p : Z) (l : list item) : list item := filter (λ x, fst x = p) l.

Lemma of_prio_rev_insert p x l :
  sorted_prio l → of_prio p (rev (pq_insert x l)) = of_prio p (rev l) ++ of_prio p [x].
Proof.
  unfold of_prio. induction l as [|y l IH]; [done|]. intros [Hy Hs]. cbn [pq_insert].
  ztest (fst y) (fst x).
  - cbn [rev]. rewrite !filter_app, IH, <- !app_assoc by done. f_equal.
    rewrite !filter_cons, !filter_nil. repeat case_decide; try done; lia.
  - change (rev (x :: y :: l)) with (rev (y :: l) ++ [x]). by rewrite filter_app.
Qed.

(** The counters of blocked threads are in range. *)
Definition blocked_ok (q : mq) : Prop :=
  0 <= m_blocked_senders q < u64_max ∧ 0 <= m_blocked_receivers q < u64_max.

Lemma try_send_cases q bytes prio :
  mq_inv q → blocked_ok q →
  ∃ r q', try_send bytes prio q = Ret (r, q') ∧ mq_inv q' ∧ blocked_ok q' ∧
    ((∃ b, r = IoDone () b ∧ contents q' = pq_insert (prio, bytes) (contents q)) ∨
     ((r = IoFalse ∨ r = IoThrow) ∧ q' = q)).
Proof.
  intros Hinv Hb. pose proof Hb as [Hb1 Hb2]. unfold try_send. rewrite do_send_eq.
  destruct (blocked_back_senders q Hb1) as [_ E2]. rewrite E2.
  destruct (Z.ltb_spec (m_max_msg_size q) (Z.of_nat (length bytes))); [naive_solver|].
  destruct (is_full q) eqn:Ef; [naive_solver|].
  assert (m_cur_num_msg q < m_max_num_msg q) as Hn
    by (unfold is_full in Ef; pose proof (mi_num _ Hinv); lia).
  pose proof (send_message_ok q bytes prio Hinv Hn ltac:(lia)) as Hwp.
  apply wp_run in Hwp as (r & q' & E & -> & (Hinv' & Hc & _ & _ & _ & B1 & B2)).
  eexists _, q'. split_and!; [done|done| |left; eauto]. unfold blocked_ok. by rewrite B1, B2.
Qed.

Lemma try_receive_cases q :
  mq_inv q → blocked_ok q →
  ∃ r q', try_receive (m_max_msg_size q) q = Ret (r, q') ∧ mq_inv q' ∧ blocked_ok q' ∧
    ((∃ b prio bytes, r = IoDone (bytes, prio) b ∧ contents q = contents q' ++ [(prio, bytes)]) ∨
     (r = IoFalse ∧ q' = q)).
Proof.
  intros Hinv Hb. pose proof Hb as [Hb1 Hb2]. unfold try_receive. rewrite do_receive_eq.
  destruct (blocked_back_receivers q Hb2) as [_ E2]. rewrite E2, Z.ltb_irrefl.
  destruct (is_empty q) eqn:Ef; [naive_solver|].
  assert (0 < m_cur_num_msg q) as Hn by (unfold is_empty, nz in Ef; pose proof (mi_num _ Hinv); lia).
  pose proof (receive_message_ok q Hinv Hn) as Hwp.
  apply wp_run in Hwp as (r & q' & E & [prio bytes] & -> & (Hinv' & Hc & _ & _ & _ & B1 & B2)).
  eexists _, q'. split_and!; [done|done| |left; eauto 10]. unfold blocked_ok. by rewrite B1, B2.
Qed.

Lemma run_ops_fifo ops : ∀ q,
  mq_inv q → blocked_ok q →
  wp (run_ops ops) q (λ '(sent, recvd) q', mq_inv q' ∧ ∀ p,
    of_prio p (rev (contents q)) ++ of_prio p sent = of_prio p recvd ++ of_prio p (rev (contents q'))).
Proof.
  induction ops as [|[prio bytes|] ops IH]; intros q Hinv Hb; cbn [run_ops].
  - wp_step. split; [done|]. intros p. by rewrite app_nil_r.
  - wp_step. apply wp_run.
    destruct (try_send_cases q bytes prio Hinv Hb) as (r & q1 & E & Hinv1 & Hb1 & Hcase).
    exists r, q1. split; [done|]. wp_step. eapply wp_mono; [by apply IH|].
    intros [s rc] q' [Hinv' Hp]. wp_step. split; [done|]. intros p. specialize (Hp p).
    destruct Hcase as [(b & -> & Hc)|[[-> | ->] ->]]; [|done..].
    rewrite Hc, of_prio_rev_insert in Hp by apply Hinv.
    unfold of_prio in *. rewrite <- Hp, <- app_assoc. f_equal. rewrite <- filter_app. done.
  - wp_step. wp_step. wp_step. apply wp_run.
    destruct (try_receive_cases q Hinv Hb) as (r & q1 & E & Hinv1 & Hb1 & Hcase).
    exists r, q1. split; [done|]. wp_step. eapply wp_mono; [by apply IH|].
    intros [s rc] q' [Hinv' Hp]. wp_step. split; [done|]. intros p. specialize (Hp p).
    destruct Hcase as [(b & prio & bytes & -> & Hc)|[-> ->]]; [|done].
    rewrite Hc, rev_app_distr. cbn [rev app]. unfold of_prio in *.
    rewrite !filter_cons. case_decide; cbn; [f_equal; exact Hp|exact Hp].
Qed.

(** Messages of the same priority are delivered first in, first out: for
    every sequence of sends and receives on an empty queue and every priority,
    the messages sent are those received, in the same order, followed by those
    still stored. *)
Lemma mq_fifo (q : mq) (ops : list op) :
  mq_inv q → blocked_ok q → contents q = [] →
  ∃ sent recvd q', run_ops ops q = Ret ((sent, recvd), q') ∧ mq_inv q' ∧
    ∀ p, of_prio p sent = of_prio p recvd ++ of_prio p (rev (contents q')).
Proof.
  intros Hinv Hb Hc. pose proof (run_ops_fifo ops q Hinv Hb) as Hwp.
  apply wp_run in Hwp as ([s r] & q' & E & Hinv' & Hp). rewrite Hc in Hp. exists s, r, q'. done.
Qed.

Definition demo_ops : list op :=
  [OSend 1 [10]; OSend 2 [20]; OSend 1 [11]; OReceive; OSend 2 [21]; OSend 1 [12]; OSend 9 [90];
   OReceive; OReceive; OReceive].

Lemma mq_fifo_demo :
  ∃ sent recvd q', run_ops demo_ops demo_mq = Ret ((sent, recvd), q') ∧ mq_inv q' ∧
    ∀ p, of_prio p sent = of_prio p recvd ++ of_prio p (rev (contents q')).
Proof.
  apply (mq_fifo demo_mq demo_ops demo_mq_inv); [vm_compute; intuition congruence|reflexivity].
Defined.

(** The run itself: the fifth message does not fit. *)
Example demo_ops_run :
  match run_ops demo_ops demo_mq with
  | Ret (_, recvd, _) => recvd = [(2, [20]); (2, [21]); (1, [10]); (1, [11])]
  | Fault _ => False
  end.
Proof. by vm_compute. Qed.

(** ** Construction *)

(** What the compiler guarantees of sizes and alignments. *)
Class MqLayoutOk `{MqLayout} : Prop := {
  lo_hdr : 0 < sizeof_mq_hdr < 4294967296;
  lo_msg : 0 < sizeof_msg_header < 4294967296;
  lo_ptr : 0 < sizeof_msg_hdr_ptr < 4294967296;
  lo_align_msg : 0 < align_msg_header < 4294967296 ∧ (align_msg_header | 18446744073709551616);
  lo_align_ptr : 0 < align_msg_hdr_ptr < 4294967296;
  lo_user : 0 <= user_offset
}.

Section construction.
Context `{LO : MqLayoutOk}.

(** The sizes without wrap-around. *)
Definition hdr_bytes : Z := round_up sizeof_mq_hdr align_msg_hdr_ptr.
Definition index_bytes (max_num_msg : Z) : Z :=
  round_up (max_num_msg * sizeof_msg_hdr_ptr) align_msg_header.
Definition msg_bytes (max_msg_size : Z) : Z := round_up max_msg_size align_msg_header + sizeof_msg_header.
Definition mem_bytes (max_msg_size max_num_msg : Z) : Z :=
  hdr_bytes + index_bytes max_num_msg + max_num_msg * msg_bytes max_msg_size + user_offset.

Lemma rounded_any x :
  0 <= x → round_up x align_msg_header < 18446744073709551616 →
  get_rounded_size x align_msg_header = round_up x align_msg_header.
Proof.
  intros Hx Hr. destruct LO as [_ _ _ [Ha Hd] _ _]. pose proof (round_up_spec x align_msg_header) as Hs.
  destruct (decide (x = 0)) as [->|]; [|apply rounded_size_val; unfold in_u64; lia].
  rewrite rounded_size_zero by (done || lia). unfold round_up. rewrite Z.div_small; lia.
Qed.

Lemma r_hdr_size_val : r_hdr_size = hdr_bytes.
Proof.
  destruct LO as [Hh _ _ _ Ha _]. unfold r_hdr_size, hdr_bytes, ct_rounded_size.
  destruct (Z.eqb_spec align_msg_hdr_ptr 0); [lia|]. cbv zeta.
  destruct (round_up_spec sizeof_mq_hdr align_msg_hdr_ptr) as [Hr _]; [lia|]. unfold round_up in *.
  rewrite (u64_small (_ - 1)) by u64_side. rewrite <- rounded_pred_div in * by lia.
  set (d := (sizeof_mq_hdr - 1) / align_msg_hdr_ptr + 1) in *.
  assert (0 <= (sizeof_mq_hdr - 1) / align_msg_hdr_ptr) by (apply Z.div_pos; lia).
  assert (d <= d * align_msg_hdr_ptr) by nia. rewrite (u64_small d) by u64_side.
  assert (d <= u64_max / align_msg_hdr_ptr) as Hle.
  { apply Z.div_le_lower_bound; [lia|]. unfold u64_max. lia. }
  apply Z.leb_le in Hle. rewrite Hle. cbn. apply u64_small. u64_side.
Qed.

Lemma layout_values max_msg_size max_num_msg :
  0 <= max_msg_size → 0 < max_num_msg → mem_bytes max_msg_size max_num_msg < 18446744073709551616 →
  r_index_size max_num_msg = index_bytes max_num_msg ∧
  r_max_msg_size max_msg_size = msg_bytes max_msg_size ∧
  get_mem_size max_msg_size max_num_msg = mem_bytes max_msg_size max_num_msg ∧
  0 <= hdr_bytes ∧ max_num_msg * sizeof_msg_hdr_ptr <= index_bytes max_num_msg ∧
  max_msg_size + sizeof_msg_header <= msg_bytes max_msg_size.
Proof.
  intros Hs Hn Hfit. pose proof LO as [Hh Hm Hp [Ha Hd] Hap Hu].
  destruct (round_up_spec sizeof_mq_hdr align_msg_hdr_ptr) as [R1 _]; [lia|].
  destruct (round_up_spec (max_num_msg * sizeof_msg_hdr_ptr) align_msg_header) as [R2 _]; [lia|].
  destruct (round_up_spec max_msg_size align_msg_header) as [R3 _]; [lia|].
  unfold mem_bytes in *. fold hdr_bytes in R1. fold (index_bytes max_num_msg) in R2.
  assert (0 <= max_num_msg * sizeof_msg_hdr_ptr) by nia.
  assert (max_msg_size + sizeof_msg_header <= msg_bytes max_msg_size) by (unfold msg_bytes; lia).
  assert (msg_bytes max_msg_size <= max_num_msg * msg_bytes max_msg_size) by nia.
  assert (r_index_size max_num_msg = index_bytes max_num_msg) as E1.
  { unfold r_index_size. rewrite u64_small by u64_side. apply rounded_any; [lia|]. unfold index_bytes in *. lia. }
  assert (r_max_msg_size max_msg_size = msg_bytes max_msg_size) as E2.
  { unfold r_max_msg_size, msg_bytes in *. rewrite rounded_any by lia. apply u64_small. u64_side. }
  split_and!; try done; try lia. unfold get_mem_size. rewrite r_hdr_size_val, E1, E2. u64_simpl. done.
Qed.

Lemma index_loop_lookup n : ∀ a step i, (i < n)%nat → index_loop n a step !! i = Some (a + Z.of_nat i * step).
Proof.
  induction n as [|n IH]; intros a step [|i] Hi; cbn [index_loop lookup list_lookup]; try lia.
  - f_equal. lia.
  - rewrite IH by lia. f_equal. lia.
Qed.

Lemma length_index_loop n : ∀ a step, length (index_loop n a step) = n.
Proof. induction n as [|n IH]; intros; cbn; [done|]. by rewrite IH. Qed.

Lemma index_loop_NoDup n a step : 0 < step → NoDup (index_loop n a step).
Proof.
  intros Hs. apply NoDup_alt. intros i j x Hi Hj.
  pose proof (lookup_lt_Some _ _ _ Hi) as Li. pose proof (lookup_lt_Some _ _ _ Hj) as Lj.
  rewrite length_index_loop in Li, Lj. rewrite index_loop_lookup in Hi, Hj by done. simplify_eq. nia.
Qed.
End construction.

(** Construction.  If the needed bytes do not overflow the size type, then
    [get_mem_size] is exact, the preallocated messages (header and data) lie
    behind the index, one after the other without overlap, inside the memory,
    and on zero-filled messages the constructor establishes the invariant with
    an empty queue. *)
Lemma mq_construct_ok `{LO : MqLayoutOk} (this max_num_msg max_msg_size : Z) (mem : gmap Z msg) :
  0 <= max_msg_size → 0 < max_num_msg → mem_bytes max_msg_size max_num_msg < 18446744073709551616 →
  let q := mq_hdr_ctor this max_num_msg max_msg_size mem in
  Forall (λ a, ∃ m, mem !! a = Some m ∧ len m = 0 ∧ priority m = 0 ∧
                    max_msg_size <= Z.of_nat (length (data m))) (mp_index q) →
  get_mem_size max_msg_size max_num_msg = mem_bytes max_msg_size max_num_msg ∧
  (∀ i a, mp_index q !! i = Some a →
     this + r_hdr_size + max_num_msg * sizeof_msg_hdr_ptr <= a ∧
     a + sizeof_msg_header + max_msg_size <= this + get_mem_size max_msg_size max_num_msg - user_offset) ∧
  (∀ i j a b, mp_index q !! i = Some a → mp_index q !! j = Some b → (i < j)%nat →
     a + sizeof_msg_header + max_msg_size <= b) ∧
  mq_inv q ∧ contents q = [].
Proof.
  intros Hs Hn Hfit q Hmem.
  destruct (layout_values max_msg_size max_num_msg Hs Hn Hfit) as (E1 & E2 & E3 & H1 & H2 & H3).
  assert (mp_index q = index_loop (Z.to_nat max_num_msg)
    (this + hdr_bytes + index_bytes max_num_msg) (msg_bytes max_msg_size)) as Eidx.
  { cbn. unfold initialize_memory. by rewrite r_hdr_size_val, E1, E2. }
  assert (∀ i a, mp_index q !! i = Some a → Z.of_nat i < max_num_msg ∧
    a = this + hdr_bytes + index_bytes max_num_msg + Z.of_nat i * msg_bytes max_msg_size) as Hat.
  { intros i a Hi. rewrite Eidx in Hi. pose proof (lookup_lt_Some _ _ _ Hi) as Li.
    rewrite length_index_loop in Li. rewrite index_loop_lookup in Hi by done. simplify_eq. lia. }
  pose proof LO as [Hh Hm Hp _ _ Hu].
  rewrite r_hdr_size_val, E3. unfold mem_bytes in *. split_and!; [done| | | |].
  - intros i a [Hi ->]%Hat. split; nia.
  - intros i j a b [Hi ->]%Hat [Hj ->]%Hat Hij. nia.
  - assert (slots q = mp_index q) as Esl.
    { unfold slots, circ. cbn. by rewrite app_nil_r. }
    constructor; rewrite ?Esl; try done.
    + rewrite Eidx, length_index_loop. cbn. lia.
    + cbn. nia.
    + cbn. lia.
    + rewrite Eidx. apply index_loop_NoDup. lia.
    + eapply Forall_impl; [exact Hmem|]. intros a (m & Em & _ & _ & Hc). eauto.
    + unfold free. rewrite Esl. cbn [m_cur_num_msg q mq_hdr_ctor]. change (Z.to_nat 0) with 0%nat.
      rewrite drop_0. eapply Forall_impl; [exact Hmem|]. cbn.
      intros a (m & Em & Hl & Hpr & _) m' Em'. by simplify_eq.
  - done.
Qed.

(** Sizes of the 64-bit Linux build. *)
Definition demo_mq_layout : MqLayout := {|
  sizeof_mq_hdr := 192; sizeof_msg_header := 16; align_msg_header := 8;
  sizeof_msg_hdr_ptr := 8; align_msg_hdr_ptr := 8; user_offset := 16 |}.

Lemma demo_mq_layout_ok : @MqLayoutOk demo_mq_layout.
Proof. constructor; cbn; try lia. split; [lia|]. exists 2305843009213693952. reflexivity. Qed.

Definition demo_mem : gmap Z msg :=
  <[66224 := Msg 0 0 (replicate 104 0)]> {[ 66344 := Msg 0 0 (replicate 104 0) ]}.

Lemma mq_construct_ok_demo :
  @get_mem_size demo_mq_layout 100 2 = 464 ∧
  contents (@mq_hdr_ctor demo_mq_layout 66016 2 100 demo_mem) = [].
Proof.
  destruct (@mq_construct_ok demo_mq_layout demo_mq_layout_ok 66016 2 100 demo_mem)
    as (E & _ & _ & _ & H); [lia|lia|reflexivity| |split; [exact E|exact H]].
  change (mp_index _) with [66224; 66344].
  repeat (apply Forall_cons_2; [eexists; (split; [reflexivity|vm_compute; intuition congruence])|]).
  apply Forall_nil_2.
Defined.

(** [get_mem_size] does not check its products: for [2^61] messages of 8 bytes
    every term but the header wraps to zero, so that the memory created for
    them holds only the header. *)
Theorem get_mem_size_wraps :
  @get_mem_size demo_mq_layout 8 2305843009213693952 =
  @r_hdr_size demo_mq_layout + @user_offset demo_mq_layout.
Proof. by vm_compute. Qed.
