(* ===== verification/MsgQueueSys.v ===== *)
(** The message queue under concurrent use.

    Threads call [send] and [receive] in all their variants.  Each call holds
    [m_mutex] up to its wait or its end and issues its notification after it
    released the mutex, so a notification is a step of its own that other
    threads can precede.  The invariant ties [m_blocked_senders] and
    [m_blocked_receivers] to the waiting threads and bounds the messages by the
    wake-ups under way. *)

From S2P Require Import Prelude MathUtil MsgQueue MsgQueueIndex MsgQueueInv MsgQueueProps.

Local Open Scope u64_scope.

(** ** Threads *)

Inductive mthread :=
| MIdle
| MSending (buffer : list Z) (prio : Z) (deadline woken : bool)
| MReceiving (deadline woken : bool)
| MNotifyRecv
| MNotifySend.

Record msys := MSys { q_hdr : mq; q_threads : list mthread }.

Definition has_deadline (block : mqblock_types) : bool :=
  match block with timed => true | _ => false end.

(** Where a thread is after a stretch of [do_send] or [do_receive]. *)
Definition after_send {A} (buffer : list Z) (prio : Z) (deadline : bool) (r : io A) : mthread :=
  match r with
  | IoDone _ true => MNotifyRecv
  | IoWait => MSending buffer prio deadline false
  | _ => MIdle
  end.
Definition after_receive {A} (deadline : bool) (r : io A) : mthread :=
  match r with
  | IoDone _ true => MNotifySend
  | IoWait => MReceiving deadline false
  | _ => MIdle
  end.

(** A wait can end by time-out if there is a deadline, and by an exception
    unless it was notified. *)
Definition wait_ends (deadline woken : bool) (r : cond_result) : Prop :=
  match r with
  | CondTrue => True
  | CondFalse => deadline = true
  | CondThrew => woken = false
  end.

(** [notify_one] on one of the conditions. *)
Inductive notified (is_sleeping : mthread → bool) (wake : mthread → mthread) :
    list mthread → list mthread → Prop :=
| notified_one ts t th :
    ts !! t = Some th → is_sleeping th = true → notified is_sleeping wake ts (<[t := wake th]> ts)
| notified_none ts :
    tcount is_sleeping ts = 0 → notified is_sleeping wake ts ts.

Definition recv_in (w : bool) (th : mthread) : bool :=
  match th with MReceiving _ w' => Bool.eqb w w' | _ => false end.
Definition send_in (w : bool) (th : mthread) : bool :=
  match th with MSending _ _ _ w' => Bool.eqb w w' | _ => false end.
Definition notifies_recv (th : mthread) : bool := match th with MNotifyRecv => true | _ => false end.
Definition notifies_send (th : mthread) : bool := match th with MNotifySend => true | _ => false end.

Definition wake_up (th : mthread) : mthread :=
  match th with
  | MSending b p d _ => MSending b p d true
  | MReceiving d _ => MReceiving d true
  | _ => th
  end.

Inductive mstep : msys → msys → Prop :=
| ms_send q ts t block buffer prio r q' :
    ts !! t = Some MIdle → do_send block buffer prio q = Ret (r, q') →
    mstep (MSys q ts) (MSys q' (<[t := after_send buffer prio (has_deadline block) r]> ts))
| ms_send_woken q ts t buffer prio deadline woken w r q' :
    ts !! t = Some (MSending buffer prio deadline woken) → wait_ends deadline woken w →
    do_send_woken w buffer prio q = Ret (r, q') →
    mstep (MSys q ts) (MSys q' (<[t := after_send buffer prio deadline r]> ts))
| ms_receive q ts t block buffer_size r q' :
    ts !! t = Some MIdle → do_receive block buffer_size q = Ret (r, q') →
    mstep (MSys q ts) (MSys q' (<[t := after_receive (has_deadline block) r]> ts))
| ms_receive_woken q ts t deadline woken w r q' :
    ts !! t = Some (MReceiving deadline woken) → wait_ends deadline woken w →
    do_receive_woken w q = Ret (r, q') →
    mstep (MSys q ts) (MSys q' (<[t := after_receive deadline r]> ts))
| ms_notify_recv q ts t ts' :
    ts !! t = Some MNotifyRecv → notified (recv_in false) wake_up (<[t := MIdle]> ts) ts' →
    mstep (MSys q ts) (MSys q ts')
| ms_notify_send q ts t ts' :
    ts !! t = Some MNotifySend → notified (send_in false) wake_up (<[t := MIdle]> ts) ts' →
    mstep (MSys q ts) (MSys q ts').

Inductive mreachable (st0 : msys) : msys → Prop :=
| mreach_refl : mreachable st0 st0
| mreach_step st st' : mreachable st0 st → mstep st st' → mreachable st0 st'.

(** ** The invariant *)

(** In terms of the numbers of sleeping and woken receivers and senders and of
    pending notifications. *)
Record mrel (q : mq) (sr wr ss ws nr ns : Z) : Prop := {
  mr_inv : mq_inv q;
  mr_recv : m_blocked_receivers q = sr + wr;
  mr_send : m_blocked_senders q = ss + ws;
  mr_wake_recv : 0 < sr → m_cur_num_msg q <= wr + nr;
  mr_wake_send : 0 < ss → m_max_num_msg q - m_cur_num_msg q <= ws + ns
}.

(** The waiting senders' buffers passed the size check. *)
Definition fits (max : Z) (th : mthread) : bool :=
  match th with MSending buffer _ _ _ => Z.of_nat (length buffer) <=? max | _ => true end.

Definition msys_inv (st : msys) : Prop :=
  let n f := tcount f (q_threads st) in
  mrel (q_hdr st) (n (recv_in false)) (n (recv_in true)) (n (send_in false)) (n (send_in true))
       (n notifies_recv) (n notifies_send) ∧
  tcount (λ th, negb (fits (m_max_msg_size (q_hdr st)) th)) (q_threads st) = 0 ∧
  Z.of_nat (length (q_threads st)) < u64_max.

Lemma mq_inv_blocked q q' :
  mp_index q' = mp_index q → m_max_num_msg q' = m_max_num_msg q → m_max_msg_size q' = m_max_msg_size q →
  m_cur_num_msg q' = m_cur_num_msg q → m_cur_first_msg q' = m_cur_first_msg q → messages q' = messages q →
  mq_inv q → mq_inv q'.
Proof.
  intros E1 E2 E3 E4 E5 E6 [H1 H2 H3 H4 H5 H6 H7 H8].
  assert (slots q' = slots q) as Es by (unfold slots; by rewrite E1, E5).
  assert (contents q' = contents q) as Ec by (unfold contents, inserted; by rewrite Es, E4, E6).
  constructor; rewrite ?Es, ?Ec, ?E1, ?E2, ?E3, ?E4, ?E5, ?E6; try done.
  unfold free. by rewrite Es, E4.
Qed.

(** The result of a stretch of [do_send]: nothing happened, it waits on a full
    queue, or it sent; [d] is the change of [m_blocked_senders]. *)
Definition send_outcome (q : mq) (r : io ()) (q' : mq) (d : Z) : Prop :=
  mq_inv q' ∧ m_max_num_msg q' = m_max_num_msg q ∧ m_max_msg_size q' = m_max_msg_size q ∧
  m_blocked_receivers q' = m_blocked_receivers q ∧
  m_blocked_senders q' = m_blocked_senders q + d ∧
  match r with
  | IoDone _ b => b = nz (m_blocked_receivers q) ∧ m_cur_num_msg q' = m_cur_num_msg q + 1
  | IoThrow => m_cur_num_msg q' = m_cur_num_msg q
  | IoFalse | IoWait => m_cur_num_msg q' = m_cur_num_msg q ∧ m_cur_num_msg q = m_max_num_msg q
  end.

Definition receive_outcome (q : mq) (r : io (list Z * Z)) (q' : mq) (d : Z) : Prop :=
  mq_inv q' ∧ m_max_num_msg q' = m_max_num_msg q ∧ m_max_msg_size q' = m_max_msg_size q ∧
  m_blocked_senders q' = m_blocked_senders q ∧
  m_blocked_receivers q' = m_blocked_receivers q + d ∧
  match r with
  | IoDone _ b => b = nz (m_blocked_senders q) ∧ m_cur_num_msg q' = m_cur_num_msg q - 1
  | IoThrow => m_cur_num_msg q' = m_cur_num_msg q
  | IoFalse | IoWait => m_cur_num_msg q' = m_cur_num_msg q ∧ m_cur_num_msg q = 0
  end.

Definition waits {A} (r : io A) : Z := match r with IoWait => 1 | _ => 0 end.

Ltac mq_fields :=
  cbn [m_blocked_senders m_blocked_receivers mp_index m_max_num_msg m_max_msg_size m_cur_num_msg
       m_cur_first_msg messages set_blocked_senders set_blocked_receivers] in *.

Lemma do_send_outcome block buffer prio q :
  mq_inv q → 0 <= m_blocked_senders q < u64_max →
  wp (do_send block buffer prio) q (λ r q', send_outcome q r q' (waits r) ∧
    (waits r = 1 → Z.of_nat (length buffer) <= m_max_msg_size q)).
Proof.
  intros Hinv Hb. unfold u64_max in Hb. unfold do_send. wp_step. wp_step.
  ztest (m_max_msg_size q) (Z.of_nat (length buffer)).
  { wp_step. split; [|done]. unfold send_outcome. cbn. split_and!; try done. lia. }
  destruct (is_full q) eqn:Ef; unfold is_full in Ef.
  - apply Z.eqb_eq in Ef. wp_step. wp_step.
    destruct block; [wp_step|wp_step|wp_step; wp_step; wp_step];
      (split; [|done]); unfold send_outcome; cbn [waits]; mq_fields; u64_simpl;
      (split_and!; try done; try lia; by eapply (mq_inv_blocked q)).
  - apply Z.eqb_neq in Ef. pose proof (mi_num _ Hinv). eapply wp_mono; [apply send_message_ok; [done|lia|lia]|].
    intros r q' (-> & Hinv' & _ & E1 & E2 & E3 & E4 & E5). split; [|done].
    unfold send_outcome. cbn. split_and!; try done. lia.
Qed.

Lemma do_send_woken_outcome w buffer prio q :
  mq_inv q → 0 < m_blocked_senders q <= u64_max → Z.of_nat (length buffer) <= m_max_msg_size q →
  wp (do_send_woken w buffer prio) q (λ r q', send_outcome q r q' (waits r - 1) ∧
    (r = IoThrow → w = CondThrew)).
Proof.
  intros Hinv Hb Hsz. unfold u64_max in Hb. unfold do_send_woken. wp_step. wp_step.
  set (q1 := set_blocked_senders (λ n, n -! 1) q).
  assert (mq_inv q1) as Hinv1 by (by eapply (mq_inv_blocked q)).
  assert (m_blocked_senders q1 = m_blocked_senders q - 1) as Eb by (apply u64_small; u64_side).
  pose proof (mi_num _ Hinv).
  assert (is_full q = false → wp (send_message buffer prio) q1 (λ r q',
    send_outcome q r q' (waits r - 1) ∧ (r = IoThrow → w = CondThrew))) as Hsend.
  { intros Ef. unfold is_full in Ef. apply Z.eqb_neq in Ef.
    eapply wp_mono; [apply send_message_ok; [done|cbn; lia|done]|].
    intros r q' (-> & Hinv' & _ & E1 & E2 & E3 & E4 & E5). split; [|done].
    unfold send_outcome. cbn [waits]. split_and!; try done. lia. }
  destruct (is_full q) eqn:Ef; unfold is_full in Ef.
  - apply Z.eqb_eq in Ef.
    destruct w; [wp_step|wp_step; wp_step; wp_step|wp_step; wp_step; wp_step];
      (split; [|done]); unfold send_outcome; cbn [waits]; rewrite ?Eb; split_and!; try done; lia.
  - destruct w; wp_step; wp_step; [by apply Hsend|by apply Hsend|wp_step].
    split; [|done]. unfold send_outcome. cbn [waits]. split_and!; done.
Qed.

Lemma do_receive_outcome block buffer_size q :
  mq_inv q → 0 <= m_blocked_receivers q < u64_max →
  wp (do_receive block buffer_size) q (λ r q', receive_outcome q r q' (waits r)).
Proof.
  intros Hinv Hb. unfold u64_max in Hb. unfold do_receive. wp_step. wp_step.
  ztest buffer_size (m_max_msg_size q).
  { wp_step. unfold receive_outcome. cbn. split_and!; try done. lia. }
  destruct (is_empty q) eqn:Ef; unfold is_empty, nz in Ef; rewrite negb_involutive in Ef.
  - apply Z.eqb_eq in Ef. wp_step. wp_step.
    destruct block; [wp_step|wp_step|wp_step; wp_step; wp_step];
      unfold receive_outcome; cbn [waits]; mq_fields; u64_simpl;
      (split_and!; try done; try lia; by eapply (mq_inv_blocked q)).
  - apply Z.eqb_neq in Ef. pose proof (mi_num _ Hinv). eapply wp_mono; [apply receive_message_ok; [done|lia]|].
    intros r q' (x & -> & Hinv' & _ & E1 & E2 & E3 & E4 & E5).
    unfold receive_outcome. cbn. split_and!; try done. lia.
Qed.

Lemma do_receive_woken_outcome w q :
  mq_inv q → 0 < m_blocked_receivers q <= u64_max →
  wp (do_receive_woken w) q (λ r q', receive_outcome q r q' (waits r - 1) ∧
    (r = IoThrow → w = CondThrew)).
Proof.
  intros Hinv Hb. unfold u64_max in Hb. unfold do_receive_woken. wp_step. wp_step.
  set (q1 := set_blocked_receivers (λ n, n -! 1) q).
  assert (mq_inv q1) as Hinv1 by (by eapply (mq_inv_blocked q)).
  assert (m_blocked_receivers q1 = m_blocked_receivers q - 1) as Eb by (apply u64_small; u64_side).
  pose proof (mi_num _ Hinv).
  assert (is_empty q = false → wp receive_message q1 (λ r q',
    receive_outcome q r q' (waits r - 1) ∧ (r = IoThrow → w = CondThrew))) as Hrecv.
  { intros Ef. unfold is_empty, nz in Ef. rewrite negb_involutive in Ef. apply Z.eqb_neq in Ef.
    eapply wp_mono; [apply receive_message_ok; [done|cbn; lia]|].
    intros r q' (x & -> & Hinv' & _ & E1 & E2 & E3 & E4 & E5). split; [|done].
    unfold receive_outcome. cbn [waits]. split_and!; try done. lia. }
  destruct (is_empty q) eqn:Ef; unfold is_empty, nz in Ef; rewrite negb_involutive in Ef.
  - apply Z.eqb_eq in Ef.
    destruct w; [wp_step|wp_step; wp_step; wp_step|wp_step; wp_step; wp_step];
      (split; [|done]); unfold receive_outcome; cbn [waits]; rewrite ?Eb; split_and!; try done; lia.
  - destruct w; wp_step; wp_step; [by apply Hrecv|by apply Hrecv|wp_step].
    split; [|done]. unfold receive_outcome. cbn [waits]. split_and!; done.
Qed.

(** ** Preservation *)

Lemma waiting_le ts :
  tcount (recv_in false) ts + tcount (recv_in true) ts + tcount (send_in false) ts + tcount (send_in true) ts
  <= Z.of_nat (length ts).
Proof.
  induction ts as [|th ts IH]; [cbn; lia|]. cbn [tcount length].
  destruct th as [|? ? ? []|? []| |]; cbn [recv_in send_in b2z Bool.eqb]; lia.
Qed.

(** One thread's step against the counts of the other threads. *)
Definition mthread_ok (th : mthread) (q : mq) (th' : mthread) (q' : mq) : Prop :=
  m_max_msg_size q' = m_max_msg_size q ∧ fits (m_max_msg_size q) th' = true ∧
  ∀ sr wr ss ws nr ns, 0 <= sr → 0 <= wr → 0 <= ss → 0 <= ws → 0 <= nr → 0 <= ns →
  mrel q (b2z (recv_in false th) + sr) (b2z (recv_in true th) + wr)
         (b2z (send_in false th) + ss) (b2z (send_in true th) + ws)
         (b2z (notifies_recv th) + nr) (b2z (notifies_send th) + ns) →
  mrel q' (b2z (recv_in false th') + sr) (b2z (recv_in true th') + wr)
          (b2z (send_in false th') + ss) (b2z (send_in true th') + ws)
          (b2z (notifies_recv th') + nr) (b2z (notifies_send th') + ns).

Lemma mthread_step q ts t th th' q' :
  msys_inv (MSys q ts) → ts !! t = Some th → mthread_ok th q th' q' →
  msys_inv (MSys q' (<[t := th']> ts)).
Proof.
  intros (Hrel & Hfit & Hlen) Ht (Emax & Hfit' & Hok). unfold msys_inv in *. cbn [q_hdr q_threads] in *.
  set (os := <[t := MIdle]> ts).
  assert (∀ f, f MIdle = false → tcount f ts = b2z (f th) + tcount f os ∧
    tcount f (<[t := th']> ts) = b2z (f th') + tcount f os) as Hs by (intros; by apply (tcount_others MIdle)).
  assert (∀ f, 0 <= tcount f os) as Hnn by (intros; apply tcount_nonneg).
  rewrite Emax, length_insert. split_and!; [|..|done].
  - rewrite !(λ f H, proj2 (Hs f H)) by done. rewrite !(λ f H, proj1 (Hs f H)) in Hrel by done. auto.
  - destruct (Hs (λ th, negb (fits (m_max_msg_size q) th)) eq_refl) as [H1 H2]. rewrite H2, Hfit'.
    specialize (Hnn (λ th, negb (fits (m_max_msg_size q) th))). rewrite H1 in Hfit. cbn.
    destruct (negb (fits _ th)); cbn in *; lia.
Qed.

Ltac mrel_solve :=
  let R := fresh in
  intros sr wr ss ws nr ns ? ? ? ? ? ? R; destruct R as [R1 R2 R3 R4 R5];
  pose proof (mi_num _ R1);
  cbn [recv_in send_in notifies_recv notifies_send b2z Bool.eqb waits] in *;
  constructor; [done|unfold nz in *; lia..].

Lemma send_thread_ok q r q' buffer prio deadline :
  send_outcome q r q' (waits r) → (waits r = 1 → Z.of_nat (length buffer) <= m_max_msg_size q) →
  mthread_ok MIdle q (after_send buffer prio deadline r) q'.
Proof.
  intros (Hinv & E1 & E2 & E3 & E4 & Hr) Hw. split; [done|]. split.
  { destruct r as [? []| | |]; cbn; try done. apply Z.leb_le, Hw. done. }
  destruct r as [? b| | |]; [destruct Hr as [-> Hr]; destruct (nz _) eqn:Eb|..]; cbn [after_send]; mrel_solve.
Qed.

Lemma send_woken_thread_ok q r q' buffer prio deadline woken w :
  send_outcome q r q' (waits r - 1) → Z.of_nat (length buffer) <= m_max_msg_size q →
  wait_ends deadline woken w → (r = IoThrow → w = CondThrew) →
  mthread_ok (MSending buffer prio deadline woken) q (after_send buffer prio deadline r) q'.
Proof.
  intros (Hinv & E1 & E2 & E3 & E4 & Hr) Hsz Hw Ht. split; [done|]. split.
  { destruct r as [? []| | |]; cbn; try done. by apply Z.leb_le. }
  destruct r as [? b| | |]; [destruct Hr as [-> Hr]; destruct (nz _) eqn:Eb|..];
    [..|specialize (Ht eq_refl); subst w; cbn in Hw; subst woken|]; cbn [after_send];
    try destruct woken; mrel_solve.
Qed.

Lemma receive_thread_ok q r q' deadline :
  receive_outcome q r q' (waits r) → mthread_ok MIdle q (after_receive deadline r) q'.
Proof.
  intros (Hinv & E1 & E2 & E3 & E4 & Hr). split; [done|]. split; [by destruct r as [? []| | |]|].
  destruct r as [? b| | |]; [destruct Hr as [-> Hr]; destruct (nz _) eqn:Eb|..]; cbn [after_receive]; mrel_solve.
Qed.

Lemma receive_woken_thread_ok q r q' deadline woken w :
  receive_outcome q r q' (waits r - 1) → wait_ends deadline woken w → (r = IoThrow → w = CondThrew) →
  mthread_ok (MReceiving deadline woken) q (after_receive deadline r) q'.
Proof.
  intros (Hinv & E1 & E2 & E3 & E4 & Hr) Hw Ht. split; [done|]. split; [by destruct r as [? []| | |]|].
  destruct r as [? b| | |]; [destruct Hr as [-> Hr]; destruct (nz _) eqn:Eb|..];
    [..|specialize (Ht eq_refl); subst w; cbn in Hw; subst woken|]; cbn [after_receive];
    try destruct woken; mrel_solve.
Qed.

(** Both kinds of notification; [nf] marks the notifying threads. *)
Lemma notify_step q ts t th ts' (recv : bool) :
  msys_inv (MSys q ts) → ts !! t = Some th → th = (if recv then MNotifyRecv else MNotifySend) →
  notified (if recv then recv_in false else send_in false) wake_up (<[t := MIdle]> ts) ts' →
  msys_inv (MSys q ts').
Proof.
  intros (Hrel & Hfit & Hlen) Ht Eth Hn. unfold msys_inv in *. cbn [q_hdr q_threads] in *.
  set (ts1 := <[t := MIdle]> ts) in *. set (mx := m_max_msg_size q) in *.
  assert (∀ f, f MIdle = false → tcount f ts = b2z (f th) + tcount f ts1) as H1
    by (intros f Hf; destruct (tcount_others MIdle f ts t th MIdle Ht Hf); done).
  rewrite !H1 in Hrel by done. rewrite (H1 (λ th, negb (fits mx th))) in Hfit by done.
  destruct Hrel as [R1 R2 R3 R4 R5].
  pose proof (λ f, tcount_nonneg f ts1) as Hnn.
  assert (length ts1 = length ts) as El by apply length_insert.
  destruct Hn as [ts1 t2 th2 Ht2 Hsl|ts1 Hsl].
  - assert (∀ f, f MIdle = false → ∃ rest, tcount f ts1 = b2z (f th2) + rest ∧
      tcount f (<[t2 := wake_up th2]> ts1) = b2z (f (wake_up th2)) + rest) as H2.
    { intros f _. destruct (tcount_split f ts1 t2 th2 (wake_up th2) Ht2) as (r & _ & ? & ?). eauto. }
    destruct (H2 (recv_in false) eq_refl) as (r1 & A1 & B1), (H2 (recv_in true) eq_refl) as (r2 & A2 & B2),
      (H2 (send_in false) eq_refl) as (r3 & A3 & B3), (H2 (send_in true) eq_refl) as (r4 & A4 & B4),
      (H2 notifies_recv eq_refl) as (r5 & A5 & B5), (H2 notifies_send eq_refl) as (r6 & A6 & B6),
      (H2 (λ th, negb (fits mx th)) eq_refl) as (r7 & A7 & B7).
    rewrite B1, B2, B3, B4, B5, B6, B7. rewrite A1, A2, A3, A4, A5, A6 in *.
    subst th. destruct recv, th2 as [|? ? ? []|? []| |]; try discriminate Hsl;
      cbn [recv_in send_in notifies_recv notifies_send b2z Bool.eqb wake_up fits negb] in *;
      (split_and!; [constructor; [done|lia..]|cbn in *; lia|rewrite length_insert; lia]).
  - subst th. destruct recv; cbn [recv_in send_in notifies_recv notifies_send b2z Bool.eqb fits negb] in *;
      (split_and!; [constructor; [done|lia..]|cbn in *; lia|lia]).
Qed.

Lemma msys_step st st' : msys_inv st → mstep st st' → msys_inv st'.
Proof.
  intros Hinv Hst. revert Hinv.
  destruct Hst as [q ts t block buffer prio r q' Ht E|q ts t buffer prio dl wk w r q' Ht Hw E
    |q ts t block bsz r q' Ht E|q ts t dl wk w r q' Ht Hw E|q ts t ts' Ht Hn|q ts t ts' Ht Hn];
    intros Hinv; pose proof Hinv as (Hrel & Hfit & Hlen); cbn [q_hdr q_threads] in *.
  1-4: destruct Hrel as [R1 R2 R3 R4 R5]; pose proof (waiting_le ts); pose proof (λ f, tcount_nonneg f ts) as Hnn;
    pose proof (Hnn (recv_in false)); pose proof (Hnn (recv_in true));
    pose proof (Hnn (send_in false)); pose proof (Hnn (send_in true)).
  - eapply mthread_step; [done|exact Ht|].
    pose proof (do_send_outcome block buffer prio q R1 ltac:(lia)) as Hwp. unfold wp in Hwp. rewrite E in Hwp.
    destruct Hwp. by apply send_thread_ok.
  - eapply mthread_step; [done|exact Ht|].
    assert (Z.of_nat (length buffer) <= m_max_msg_size q) as Hsz.
    { pose proof (tcount_pos (λ th, negb (fits (m_max_msg_size q) th)) ts t _ Ht) as Hp. cbn in Hp.
      destruct (Z.leb_spec (Z.of_nat (length buffer)) (m_max_msg_size q)); [done|]. specialize (Hp eq_refl). lia. }
    assert (0 < tcount (send_in wk) ts) as Hp
      by (apply Z.lt_le_trans with 1; [lia|]; eapply tcount_pos; [exact Ht|]; by destruct wk).
    pose proof (do_send_woken_outcome w buffer prio q R1 ltac:(destruct wk; lia) Hsz) as Hwp.
    unfold wp in Hwp. rewrite E in Hwp. destruct Hwp. by eapply send_woken_thread_ok.
  - eapply mthread_step; [done|exact Ht|].
    pose proof (do_receive_outcome block bsz q R1 ltac:(lia)) as Hwp. unfold wp in Hwp. rewrite E in Hwp.
    by apply receive_thread_ok.
  - eapply mthread_step; [done|exact Ht|].
    assert (0 < tcount (recv_in wk) ts) as Hp
      by (apply Z.lt_le_trans with 1; [lia|]; eapply tcount_pos; [exact Ht|]; by destruct wk).
    pose proof (do_receive_woken_outcome w q R1 ltac:(destruct wk; lia)) as Hwp.
    unfold wp in Hwp. rewrite E in Hwp. destruct Hwp. by eapply receive_woken_thread_ok.
  - by eapply (notify_step q ts t _ ts' true).
  - by eapply (notify_step q ts t _ ts' false).
Qed.

(** [n] idle threads and a queue nobody waits for. *)
Definition mstart (q : mq) (n : nat) : msys := MSys q (replicate n MIdle).

Lemma mstart_inv q n :
  mq_inv q → m_blocked_senders q = 0 → m_blocked_receivers q = 0 → Z.of_nat n < u64_max →
  msys_inv (mstart q n).
Proof.
  intros Hq H1 H2 Hn.
  assert (∀ f, f MIdle = false → tcount f (replicate n MIdle) = 0) as H0.
  { intros f Hf. clear Hn. induction n as [|n IH]; cbn; [done|]. rewrite Hf, IH. done. }
  unfold msys_inv, mstart. cbn [q_hdr q_threads]. rewrite length_replicate, !H0 by done.
  split_and!; [|done|done]. constructor; try done; lia.
Qed.

Lemma mreachable_inv q n st :
  mq_inv q → m_blocked_senders q = 0 → m_blocked_receivers q = 0 → Z.of_nat n < u64_max →
  mreachable (mstart q n) st → msys_inv st.
Proof.
  intros Hq H1 H2 Hn. induction 1 as [|st st' _ IH Hst]; [by apply mstart_inv|by eapply msys_step].
Qed.

(** ** The theorem *)

Definition asleep_receiver (st : msys) : Prop := ∃ t d, q_threads st !! t = Some (MReceiving d false).
Definition asleep_sender (st : msys) : Prop := ∃ t b p d, q_threads st !! t = Some (MSending b p d false).

(** C26: under concurrent use, with notifications issued after the mutex is
    released, time-outs and spurious wake-ups, the queue stays well formed, the
    counters of blocked threads are exact, and no wake-up is lost: if a
    receiver sleeps, there are at most as many messages as awake receivers and
    pending notifications together (so none, once these are done); if a sender
    sleeps, the same holds of the free slots. *)
Theorem mq_no_lost_wakeup (q : mq) (n : nat) (st : msys) :
  mq_inv q → m_blocked_senders q = 0 → m_blocked_receivers q = 0 → Z.of_nat n < u64_max →
  mreachable (mstart q n) st →
  let count f := tcount f (q_threads st) in
  mq_inv (q_hdr st) ∧
  m_blocked_receivers (q_hdr st) = count (recv_in false) + count (recv_in true) ∧
  m_blocked_senders (q_hdr st) = count (send_in false) + count (send_in true) ∧
  (asleep_receiver st →
     get_num_msg (Some (q_hdr st)) <= count (recv_in true) + count notifies_recv) ∧
  (asleep_sender st →
     get_max_msg (Some (q_hdr st)) - get_num_msg (Some (q_hdr st)) <= count (send_in true) + count notifies_send).
Proof.
  intros Hq H1 H2 Hn Hr. apply mreachable_inv in Hr as (Hrel & _ & _); try done. cbv zeta.
  destruct Hrel as [R1 R2 R3 R4 R5]. split_and!; try done.
  - intros (t & d & Ht). apply R4. pose proof (tcount_pos (recv_in false) _ t _ Ht eq_refl). lia.
  - intros (t & b & p & d & Ht). apply R5. pose proof (tcount_pos (send_in false) _ t _ Ht eq_refl). lia.
Qed.

(** A receiver on the empty queue. *)
Definition demo_wait : msys :=
  MSys (set_blocked_receivers (λ n, n +! 1) demo_mq) [MReceiving false false; MIdle].

Lemma demo_wait_reachable : mreachable (mstart demo_mq 2) demo_wait.
Proof.
  eapply mreach_step; [apply mreach_refl|].
  exact (ms_receive demo_mq [MIdle; MIdle] 0%nat blocking 8 IoWait _ eq_refl eq_refl).
Qed.

Lemma mq_no_lost_wakeup_witness :
  asleep_receiver demo_wait ∧ get_num_msg (Some (q_hdr demo_wait)) <= 0.
Proof.
  assert (asleep_receiver demo_wait) as Hs by (exists 0%nat, false; reflexivity).
  split; [exact Hs|].
  destruct (mq_no_lost_wakeup demo_mq 2 demo_wait demo_mq_inv eq_refl eq_refl) as (_ & _ & _ & H & _);
    [reflexivity|exact demo_wait_reachable|exact (H Hs)].
Defined.
