(* ===== verification/OffsetPtr.v ===== *)
(** [offset_ptr] (offset_ptr.hpp).

    An [offset_ptr] is an object at some address that stores the distance to
    its pointee; the offset 1 is the null pointer.  Addresses and offsets are
    64-bit words.  The objects live in a store, so that copies, assignments
    and [swap] between objects, also of an object with itself, are modelled as
    the code performs them. *)

From S2P Require Import Prelude MathUtil.

Local Open Scope u64_scope.

(** ** Offsets *)

Definition b2o (b : bool) : Z := if b then 1 else 0.

(** [BOOST_INTERPROCESS_OFFSET_PTR_BRANCHLESS_TO_PTR] *)
Definition offset_ptr_to_raw_pointer (this offset : Z) : Z :=
  let mask := b2o (offset =? 1) in
  let mask := mask -! 1 in
  let target_offset := this +! offset in
  Z.land target_offset mask.

Definition offset_ptr_to_raw_pointer_branch (this offset : Z) : Z :=
  if offset =? 1 then 0 else this +! offset.

(** [BOOST_INTERPROCESS_OFFSET_PTR_BRANCHLESS_TO_OFF] *)
Definition offset_ptr_to_offset (ptr this : Z) : Z :=
  let offset := ptr -! this in
  let offset := offset -! 1 in
  let mask := b2o (ptr =? 0) in
  let mask := mask -! 1 in
  let offset := Z.land offset mask in
  offset +! 1.

(** The branching version; [None] when its assertion fails. *)
Definition offset_ptr_to_offset_branch (ptr this : Z) : option Z :=
  if ptr =? 0 then Some 1
  else let offset := ptr -! this in if offset =? 1 then None else Some offset.

(** [BOOST_INTERPROCESS_OFFSET_PTR_BRANCHLESS_TO_OFF_FROM_OTHER] *)
Definition offset_ptr_to_offset_from_other (this other other_offset : Z) : Z :=
  let mask := b2o (other_offset =? 1) in
  let mask := mask -! 1 in
  let offset := other -! this in
  let offset := Z.land offset mask in
  offset +! other_offset.

Definition offset_ptr_to_offset_from_other_branch (this other other_offset : Z) : option Z :=
  if other_offset =? 1 then Some 1
  else let offset := other -! this +! other_offset in if offset =? 1 then None else Some offset.

(** ** The class *)

(** The [m_offset] of the objects, by their addresses. *)
Notation ostore := (gmap Z Z).

Definition get_offset (this : Z) : M ostore Z := λ s,
  match s !! this with Some o => Ret (o, s) | None => Fault BadAccess end.
Definition set_offset (this o : Z) : M ostore () := modify <[this := o]>.

Definition ptr_get (this : Z) : M ostore Z :=
  o ← get_offset this; mret (offset_ptr_to_raw_pointer this o).

(** Constructors. *)
Definition ctor_null (this : Z) : M ostore () := set_offset this 1.
Definition ctor_raw (this ptr : Z) : M ostore () := set_offset this (offset_ptr_to_offset ptr this).
Definition ctor_copy (this other : Z) : M ostore () :=
  o ← get_offset other; set_offset this (offset_ptr_to_offset_from_other this other o).

(** The casting constructors; [cast] is what the C++ cast does to the address. *)
Definition ctor_cast (cast : Z → Z) (this other : Z) : M ostore () :=
  p ← ptr_get other; set_offset this (offset_ptr_to_offset (cast p) this).

(** Assignments. *)
Definition assign_raw (this ptr : Z) : M ostore () := set_offset this (offset_ptr_to_offset ptr this).
Definition assign_copy (this other : Z) : M ostore () :=
  o ← get_offset other; set_offset this (offset_ptr_to_offset_from_other this other o).
Definition assign_null (this : Z) : M ostore () := set_offset this 1.

(** [operator=] from a related pointer: [maintains_address] is
    [offset_ptr_maintains_address]. *)
Definition assign_related (maintains_address : bool) (cast : Z → Z) (this other : Z) : M ostore () :=
  if maintains_address then assign_copy this other
  else p ← ptr_get other; set_offset this (offset_ptr_to_offset (cast p) this).

(** Arithmetic; [difference_type] is a signed word, [OffsetType(bytes)] its
    conversion to an unsigned one. *)
Definition inc_offset (this bytes : Z) : M ostore () :=
  o ← get_offset this; set_offset this (o +! u64 bytes).
Definition dec_offset (this bytes : Z) : M ostore () :=
  o ← get_offset this; set_offset this (o -! u64 bytes).

Definition plus_assign (sizeof this n : Z) : M ostore () := inc_offset this (n * sizeof).
Definition minus_assign (sizeof this n : Z) : M ostore () := dec_offset this (n * sizeof).
Definition pre_increment (sizeof this : Z) : M ostore () := inc_offset this sizeof.
Definition pre_decrement (sizeof this : Z) : M ostore () := dec_offset this sizeof.

(** [p++] and [p--]; [tmp] is the address of the returned copy. *)
Definition post_increment (sizeof this tmp : Z) : M ostore () :=
  ctor_copy tmp this;; inc_offset this sizeof.
Definition post_decrement (sizeof this tmp : Z) : M ostore () :=
  ctor_copy tmp this;; dec_offset this sizeof.

Definition to_bool (this : Z) : M ostore bool := o ← get_offset this; mret (negb (o =? 1)).
Definition op_not (this : Z) : M ostore bool := o ← get_offset this; mret (o =? 1).

(** A word as a signed one. *)
Definition i64 (x : Z) : Z := (x + 2 ^ 63) mod 2 ^ 64 - 2 ^ 63.

(** [pt - pt2]: the distance in elements, a [difference_type]. *)
Definition difference (sizeof pt pt2 : Z) : M ostore Z :=
  a ← ptr_get pt; b ← ptr_get pt2; mret (Z.quot (i64 (a - b)) sizeof).

Definition op_eq (pt1 pt2 : Z) : M ostore bool := a ← ptr_get pt1; b ← ptr_get pt2; mret (a =? b).
Definition op_ne (pt1 pt2 : Z) : M ostore bool := a ← ptr_get pt1; b ← ptr_get pt2; mret (negb (a =? b)).
Definition op_lt (pt1 pt2 : Z) : M ostore bool := a ← ptr_get pt1; b ← ptr_get pt2; mret (a <? b).
Definition op_le (pt1 pt2 : Z) : M ostore bool := a ← ptr_get pt1; b ← ptr_get pt2; mret (a <=? b).
Definition op_gt (pt1 pt2 : Z) : M ostore bool := a ← ptr_get pt1; b ← ptr_get pt2; mret (b <? a).
Definition op_ge (pt1 pt2 : Z) : M ostore bool := a ← ptr_get pt1; b ← ptr_get pt2; mret (b <=? a).

Definition swap (left right : Z) : M ostore () :=
  ptr ← ptr_get right;
  assign_copy right left;;
  assign_raw left ptr.

(** ** [pointer_plus_bits]: bits in the low end of the offset *)

Definition Mask (NumBits : Z) : Z := Z.shiftl (Z.shiftl 1 NumBits -! 1) 1 mod 18446744073709551616.

(** [p] is the address of the returned pointer. *)
Definition get_pointer (NumBits p n : Z) : M ostore () :=
  o ← get_offset n;
  let tmp_off := Z.land o (bnot64 (Mask NumBits)) in
  set_offset p (offset_ptr_to_offset_from_other p n tmp_off).

Definition get_bits (NumBits n : Z) : M ostore Z :=
  o ← get_offset n; mret (Z.shiftr (Z.land o (Mask NumBits)) 1).

Definition set_pointer (NumBits n p : Z) : M ostore () :=
  b ← get_bits NumBits p;
  boost_assert (b =? 0);;
  o ← get_offset n;
  let stored_bits := Z.land o (Mask NumBits) in
  assign_copy n p;;
  o ← get_offset n;
  set_offset n (Z.lor o stored_bits).

Definition set_bits (NumBits n b : Z) : M ostore () :=
  boost_assert (b <? Z.shiftl 1 NumBits);;
  o ← get_offset n;
  let tmp := Z.land o (bnot64 (Mask NumBits)) in
  set_offset n (Z.lor tmp (Z.shiftl b 1 mod 18446744073709551616)).

(** ** Masks and offsets *)

Lemma u64_add_l x y : u64 (u64 x + y) = u64 (x + y).
Proof. unfold u64. by rewrite Zplus_mod_idemp_l. Qed.
Lemma u64_add_r x y : u64 (x + u64 y) = u64 (x + y).
Proof. unfold u64. by rewrite Zplus_mod_idemp_r. Qed.
Lemma u64_sub_l x y : u64 (u64 x - y) = u64 (x - y).
Proof. unfold u64. by rewrite Zminus_mod_idemp_l. Qed.
Lemma u64_sub_r x y : u64 (x - u64 y) = u64 (x - y).
Proof. unfold u64. by rewrite Zminus_mod_idemp_r. Qed.
Lemma u64_u64 x : u64 (u64 x) = u64 x.
Proof. apply u64_small, u64_range. Qed.

(** Push the wrap-around to the outside. *)
Ltac u64_norm := repeat (rewrite u64_sub_l || rewrite u64_sub_r || rewrite u64_add_l || rewrite u64_add_r || rewrite u64_u64).

Lemma land_mask_word x b : in_u64 x → Z.land x (b2o b -! 1) = if b then 0 else x.
Proof.
  intros Hx. destruct b; cbn [b2o].
  - by rewrite u64_small, Z.land_0_r.
  - change (0 -! 1) with (Z.ones 64). rewrite Z.land_ones by lia. apply Z.mod_small. unfold in_u64 in Hx. lia.
Qed.

Lemma to_raw_val this o :
  offset_ptr_to_raw_pointer this o = if o =? 1 then 0 else this +! o.
Proof. unfold offset_ptr_to_raw_pointer. apply land_mask_word, u64_range. Qed.

Lemma to_offset_val ptr this : offset_ptr_to_offset ptr this = if ptr =? 0 then 1 else ptr -! this.
Proof.
  unfold offset_ptr_to_offset. cbv zeta. rewrite land_mask_word by apply u64_range.
  destruct (ptr =? 0); [done|]. u64_norm. f_equal. lia.
Qed.

Lemma from_other_val this other o :
  in_u64 o → offset_ptr_to_offset_from_other this other o = if o =? 1 then 1 else other -! this +! o.
Proof.
  intros Ho. unfold offset_ptr_to_offset_from_other. cbv zeta. rewrite land_mask_word by apply u64_range.
  by destruct (Z.eqb_spec o 1) as [->|].
Qed.

Lemma u64_eq_iff x y : u64 x = u64 y ↔ ∃ k, x = y + k * 18446744073709551616.
Proof.
  unfold u64. split.
  - intros E. exists (x / 18446744073709551616 - y / 18446744073709551616). dlia.
  - intros (k & ->). by rewrite Z.mod_add.
Qed.

(** The pointee survives the way through an offset unless it is the byte after
    the pointer object. *)
Lemma raw_of_offset this ptr :
  in_u64 this → in_u64 ptr → ptr = 0 ∨ ptr ≠ this +! 1 →
  offset_ptr_to_raw_pointer this (offset_ptr_to_offset ptr this) = ptr.
Proof.
  intros Ht Hp Hne. rewrite to_raw_val, to_offset_val.
  destruct (Z.eqb_spec ptr 0) as [->|Hp0]; [done|].
  destruct (Z.eqb_spec (ptr -! this) 1) as [E|E].
  - destruct Hne as [|[]]; [done|]. rewrite <- (u64_small ptr) by done.
    rewrite <- (u64_small 1) in E by done. apply u64_eq_iff in E as (k & E). apply u64_eq_iff. exists k. lia.
  - u64_norm. replace (this + (ptr - this)) with ptr by lia. by apply u64_small.
Qed.

Lemma raw_of_copy this other o :
  in_u64 this → in_u64 o →
  offset_ptr_to_raw_pointer other o = 0 ∨ offset_ptr_to_raw_pointer other o ≠ this +! 1 →
  offset_ptr_to_raw_pointer this (offset_ptr_to_offset_from_other this other o) =
  offset_ptr_to_raw_pointer other o.
Proof.
  intros Ht Ho. rewrite from_other_val, !to_raw_val by done.
  destruct (Z.eqb_spec o 1) as [->|Ho1]; [done|]. intros Hne.
  u64_norm. destruct (Z.eqb_spec (u64 (other - this + o)) 1) as [E|E].
  - rewrite <- (u64_small 1) in E by done. apply u64_eq_iff in E as (k & E).
    assert (other +! o = this +! 1) as E' by (apply u64_eq_iff; exists k; lia).
    destruct Hne as [Hne|[]]; [by rewrite Hne|done].
  - f_equal. lia.
Qed.

(** ** Running the operations *)

Lemma get_offset_run this s o : s !! this = Some o → get_offset this s = Ret (o, s).
Proof. unfold get_offset. by intros ->. Qed.

Lemma ptr_get_run this s o :
  s !! this = Some o → ptr_get this s = Ret (offset_ptr_to_raw_pointer this o, s).
Proof. intros E. unfold ptr_get, mbind, M_bind. by rewrite (get_offset_run _ _ _ E). Qed.

Lemma bind_run {S A B} (m : M S A) (f : A → M S B) s a s' :
  m s = Ret (a, s') → (m ≫= f) s = f a s'.
Proof. unfold mbind, M_bind. by intros ->. Qed.

(** All offsets in the store are words. *)
Definition store_ok (s : ostore) : Prop := ∀ a o, s !! a = Some o → in_u64 o.

Lemma to_offset_range ptr this : in_u64 (offset_ptr_to_offset ptr this).
Proof. rewrite to_offset_val. destruct (ptr =? 0); [done|apply u64_range]. Qed.

Lemma from_other_range this other o : in_u64 o → in_u64 (offset_ptr_to_offset_from_other this other o).
Proof. intros. rewrite from_other_val by done. destruct (o =? 1); [done|apply u64_range]. Qed.

Lemma to_raw_range this o : in_u64 (offset_ptr_to_raw_pointer this o).
Proof. rewrite to_raw_val. destruct (o =? 1); [done|apply u64_range]. Qed.

(** ** The theorems *)

(** C37: the branchless conversions compute what the branching ones do, for all
    words; where the branching ones would fail their assertion (the pointee is
    the byte after the pointer) the branchless ones yield the null offset. *)
Theorem offset_branchless_equiv (this other ptr o : Z) :
  in_u64 o →
  offset_ptr_to_raw_pointer this o = offset_ptr_to_raw_pointer_branch this o ∧
  offset_ptr_to_offset ptr this = default 1 (offset_ptr_to_offset_branch ptr this) ∧
  offset_ptr_to_offset_from_other this other o =
    default 1 (offset_ptr_to_offset_from_other_branch this other o).
Proof.
  intros Ho. rewrite to_raw_val, to_offset_val, from_other_val by done.
  unfold offset_ptr_to_raw_pointer_branch, offset_ptr_to_offset_branch, offset_ptr_to_offset_from_other_branch.
  cbv zeta. split_and!; [done|..].
  - destruct (ptr =? 0); [done|]. by destruct (Z.eqb_spec (ptr -! this) 1).
  - destruct (o =? 1); [done|]. by destruct (Z.eqb_spec (other -! this +! o) 1).
Qed.

Lemma offset_branchless_equiv_witness :
  offset_ptr_to_raw_pointer 4096 100 = offset_ptr_to_raw_pointer_branch 4096 100 ∧
  offset_ptr_to_offset 4000 4096 = default 1 (offset_ptr_to_offset_branch 4000 4096) ∧
  offset_ptr_to_offset_from_other 4096 5000 100 =
    default 1 (offset_ptr_to_offset_from_other_branch 4096 5000 100).
Proof. apply (offset_branchless_equiv 4096 5000 4000 100). split; [lia|reflexivity]. Defined.

(** Pointers survive storing and copying.  Constructing or assigning from a
    raw pointer and reading it back gives the same pointer exactly unless it is
    the non-null byte after the pointer object; copying between objects at
    different addresses preserves the pointee under the same condition; other
    objects are not touched. *)
Lemma offset_roundtrip_raw (s : ostore) (this other ptr o : Z) :
  in_u64 this → in_u64 ptr → store_ok s → s !! other = Some o →
  let s1 := <[this := offset_ptr_to_offset ptr this]> s in
  let s2 := <[this := offset_ptr_to_offset_from_other this other o]> s in
  let pointee := offset_ptr_to_raw_pointer other o in
  assign_raw this ptr s = Ret (tt, s1) ∧
  (ptr_get this s1 = Ret (ptr, s1) ↔ ptr = 0 ∨ ptr ≠ this +! 1) ∧
  assign_copy this other s = Ret (tt, s2) ∧
  (pointee = 0 ∨ pointee ≠ this +! 1 → ptr_get this s2 = Ret (pointee, s2)) ∧
  (∀ a, a ≠ this → s1 !! a = s !! a ∧ s2 !! a = s !! a).
Proof.
  intros Ht Hp Hs Ho s1 s2 pointee. pose proof (Hs _ _ Ho) as Hor. split_and!.
  - done.
  - rewrite (ptr_get_run this s1 (offset_ptr_to_offset ptr this)) by apply lookup_insert_eq. split.
    + intros [= E]. destruct (decide (ptr = 0)) as [|Hp0]; [by left|right]. intros E'.
      rewrite to_raw_val, to_offset_val in E. destruct (Z.eqb_spec ptr 0); [done|].
      assert (ptr -! this = 1) as E1.
      { rewrite E'. u64_norm. replace (this + 1 - this) with 1 by lia. done. }
      rewrite E1 in E. cbn in E. by subst ptr.
    + intros Hne. by rewrite raw_of_offset.
  - unfold assign_copy. by rewrite (bind_run _ _ _ _ _ (get_offset_run _ _ _ Ho)).
  - intros Hne. rewrite (ptr_get_run this s2 (offset_ptr_to_offset_from_other this other o)) by apply lookup_insert_eq.
    by rewrite raw_of_copy.
  - intros a Ha. unfold s1, s2. by rewrite !lookup_insert_ne.
Qed.

Definition demo_store : ostore := <[4096 := 104]> {[ 5000 := 1 ]}.

Lemma demo_store_ok : store_ok demo_store.
Proof.
  intros a o. unfold demo_store. rewrite lookup_insert. case_decide; [intros [= <-]; by split|].
  rewrite lookup_singleton. case_decide; [intros [= <-]; by split|done].
Qed.

(** When a segment with its pointers and pointees is mapped at
    another address, every pointer in it still points to its pointee: null
    stays null and every other pointer moves with the segment. *)
Lemma offset_ptr_relocatable (s : ostore) (this o d : Z) :
  s !! this = Some o →
  let moved : ostore := kmap (λ a, a + d) s in
  ptr_get this s = Ret (if o =? 1 then 0 else this +! o, s) ∧
  ptr_get (this + d) moved = Ret (if o =? 1 then 0 else (this +! o) +! d, moved).
Proof.
  intros Ho moved. split.
  - by rewrite (ptr_get_run _ _ _ Ho), to_raw_val.
  - rewrite (ptr_get_run (this + d) moved o), to_raw_val.
    + destruct (o =? 1); [done|]. do 2 f_equal. u64_norm. f_equal. lia.
    + assert (Inj (=) (=) (λ a, a + d)) by (intros a b; lia).
      unfold moved. by rewrite (lookup_kmap (λ a, a + d) s this).
Qed.

Lemma i64_small x : -2 ^ 63 <= x < 2 ^ 63 → i64 x = x.
Proof. intros Hx. unfold i64. rewrite Z.mod_small by lia. lia. Qed.

(** Arithmetic.  Adding [n] elements and subtracting them again restores the
    pointer bit by bit; for a non-null pointer the sum points [n] elements
    further, unless it hits the null encoding; and the difference of the two
    pointers is [n], if the distance in bytes fits a signed word. *)
Lemma offset_ptr_arithmetic (s : ostore) (this o sizeof n : Z) :
  in_u64 this → store_ok s → s !! this = Some o →
  (plus_assign sizeof this n;; minus_assign sizeof this n) s = Ret (tt, s) ∧
  (o ≠ 1 → o +! n * sizeof ≠ 1 →
   let s' := <[this := o +! n * sizeof]> s in
   plus_assign sizeof this n s = Ret (tt, s') ∧
   ptr_get this s' = Ret ((this +! o) +! n * sizeof, s') ∧
   (0 < sizeof → 0 <= (this +! o) + n * sizeof < 18446744073709551616 →
    ∀ other, other ≠ this → s !! other = Some (offset_ptr_to_offset (this +! o) other) →
      in_u64 other → this +! o = 0 ∨ this +! o ≠ other +! 1 →
      difference sizeof this other s' = Ret (Z.quot (i64 (n * sizeof)) sizeof, s') ∧
      (-2 ^ 63 <= n * sizeof < 2 ^ 63 → difference sizeof this other s' = Ret (n, s')))).
Proof.
  intros Ht Hs Ho. pose proof (Hs _ _ Ho) as Hor.
  assert (∀ bytes, inc_offset this bytes s = Ret (tt, <[this := o +! bytes]> s)) as Hinc.
  { intros bytes. unfold inc_offset. rewrite (bind_run _ _ _ _ _ (get_offset_run _ _ _ Ho)).
    unfold set_offset, modify. by u64_norm. }
  split.
  - unfold plus_assign, minus_assign. rewrite (bind_run _ _ _ _ _ (Hinc _)).
    unfold dec_offset. erewrite bind_run by (apply get_offset_run, lookup_insert_eq).
    unfold set_offset, modify. rewrite insert_insert_eq. u64_norm.
    replace (o + n * sizeof - n * sizeof) with o by lia. by rewrite (u64_small o), insert_id.
  - intros Ho1 Hn1 s'. split; [apply Hinc|].
    assert (ptr_get this s' = Ret ((this +! o) +! n * sizeof, s')) as Hget.
    { rewrite (ptr_get_run this s' (o +! n * sizeof)) by apply lookup_insert_eq. rewrite to_raw_val.
      destruct (Z.eqb_spec (o +! n * sizeof) 1); [done|]. do 2 f_equal. u64_norm. f_equal. lia. }
    split; [done|]. intros Hsz Hfit other Hne Hother Hou Hok.
    assert (difference sizeof this other s' = Ret (Z.quot (i64 (n * sizeof)) sizeof, s')) as E.
    { unfold difference. rewrite (bind_run _ _ _ _ _ Hget).
      erewrite bind_run; [|apply ptr_get_run; unfold s'; by rewrite lookup_insert_ne].
      rewrite raw_of_offset by (done || apply u64_range).
      rewrite (u64_small (_ + n * sizeof)) by done. unfold mret, M_ret. do 4 f_equal. lia. }
    split; [done|]. intros Hd. rewrite E, i64_small by done. do 2 f_equal. apply Z.quot_mul. lia.
Qed.

(** [swap] exchanges the pointees of two pointers, wherever they lie and
    also if they are the same object, provided neither pointee is the byte
    after the object that receives it; no other pointer changes. *)
Lemma offset_ptr_swap (s : ostore) (left right lo ro : Z) :
  in_u64 left → in_u64 right → store_ok s → s !! left = Some lo → s !! right = Some ro →
  let lp := offset_ptr_to_raw_pointer left lo in
  let rp := offset_ptr_to_raw_pointer right ro in
  lp = 0 ∨ lp ≠ right +! 1 → rp = 0 ∨ rp ≠ left +! 1 →
  ∃ s', swap left right s = Ret (tt, s') ∧
    ptr_get left s' = Ret (rp, s') ∧ ptr_get right s' = Ret (lp, s') ∧
    (∀ a, a ≠ left → a ≠ right → s' !! a = s !! a).
Proof.
  intros Hl Hr Hs El Er lp rp Hlp Hrp. pose proof (Hs _ _ El) as Hlo.
  set (s1 := <[right := offset_ptr_to_offset_from_other right left lo]> s).
  exists (<[left := offset_ptr_to_offset rp left]> s1). split_and!.
  - unfold swap. rewrite (bind_run _ _ _ _ _ (ptr_get_run _ _ _ Er)).
    assert (assign_copy right left s = Ret (tt, s1)) as E1.
    { unfold assign_copy. by rewrite (bind_run _ _ _ _ _ (get_offset_run _ _ _ El)). }
    by rewrite (bind_run _ _ _ _ _ E1).
  - erewrite ptr_get_run by apply lookup_insert_eq. rewrite raw_of_offset; try done. apply to_raw_range.
  - destruct (decide (left = right)) as [->|Hne].
    + assert (lo = ro) as -> by congruence. erewrite ptr_get_run by apply lookup_insert_eq.
      rewrite raw_of_offset; try done. apply to_raw_range.
    + erewrite ptr_get_run; [|rewrite lookup_insert_ne by done; apply lookup_insert_eq].
      by rewrite raw_of_copy.
  - intros a H1 H2. unfold s1. by rewrite !lookup_insert_ne by done.
Qed.

(** C38: relocation, arithmetic and [swap].  When a segment with its pointers
    and pointees is mapped at another address, every pointer in it still points
    to its pointee: null stays null and every other pointer moves with the
    segment.  Adding [n] elements and subtracting them again
    restores the pointer bit by bit; for a non-null pointer the sum points [n]
    elements further, unless it hits the null encoding, and the difference of
    the two pointers is [n] (the distance in bytes taken as a signed word is the
    one divided, so that [n] is returned if that fits).  [swap] exchanges the pointees of two pointers,
    wherever they lie and also if they are the same object, provided neither
    pointee is the byte after the object that receives it; no other pointer
    changes. *)
Theorem offset_ptr_operations (s : ostore) (this o : Z) :
  store_ok s → in_u64 this → s !! this = Some o →
  (∀ d, let moved : ostore := kmap (λ a, a + d) s in
     ptr_get this s = Ret (if o =? 1 then 0 else this +! o, s) ∧
     ptr_get (this + d) moved = Ret (if o =? 1 then 0 else (this +! o) +! d, moved)) ∧
  (∀ sizeof n,
     (plus_assign sizeof this n;; minus_assign sizeof this n) s = Ret (tt, s) ∧
     (o ≠ 1 → o +! n * sizeof ≠ 1 →
      let s' := <[this := o +! n * sizeof]> s in
      plus_assign sizeof this n s = Ret (tt, s') ∧
      ptr_get this s' = Ret ((this +! o) +! n * sizeof, s') ∧
      (0 < sizeof → 0 <= (this +! o) + n * sizeof < 18446744073709551616 →
       ∀ other, other ≠ this → s !! other = Some (offset_ptr_to_offset (this +! o) other) →
         in_u64 other → this +! o = 0 ∨ this +! o ≠ other +! 1 →
         difference sizeof this other s' = Ret (Z.quot (i64 (n * sizeof)) sizeof, s') ∧
         (-2 ^ 63 <= n * sizeof < 2 ^ 63 → difference sizeof this other s' = Ret (n, s'))))) ∧
  (∀ right ro, in_u64 right → s !! right = Some ro →
     let lp := offset_ptr_to_raw_pointer this o in
     let rp := offset_ptr_to_raw_pointer right ro in
     lp = 0 ∨ lp ≠ right +! 1 → rp = 0 ∨ rp ≠ this +! 1 →
     ∃ s', swap this right s = Ret (tt, s') ∧
       ptr_get this s' = Ret (rp, s') ∧ ptr_get right s' = Ret (lp, s') ∧
       (∀ a, a ≠ this → a ≠ right → s' !! a = s !! a)).
Proof.
  intros Hs Ht Ho. split_and!.
  - intros d. by apply offset_ptr_relocatable.
  - intros sizeof n. by apply offset_ptr_arithmetic.
  - intros right ro Hr Hro lp rp. by apply offset_ptr_swap.
Qed.

Lemma offset_ptr_operations_witness :
  ptr_get 69632 (kmap (λ a, a + 65536) demo_store) = Ret (69736, kmap (λ a, a + 65536) demo_store) ∧
  (plus_assign 8 4096 3;; minus_assign 8 4096 3) demo_store = Ret (tt, demo_store) ∧
  ptr_get 4096 (<[4096 := 128]> demo_store) = Ret (4224, <[4096 := 128]> demo_store) ∧
  ∃ s', swap 4096 5000 demo_store = Ret (tt, s') ∧
    ptr_get 4096 s' = Ret (0, s') ∧ ptr_get 5000 s' = Ret (4200, s') ∧
    (∀ a, a ≠ 4096 → a ≠ 5000 → s' !! a = demo_store !! a).
Proof.
  destruct (offset_ptr_operations demo_store 4096 104) as (H0 & H1 & H2);
    [exact demo_store_ok|by split|reflexivity|].
  split; [exact (proj2 (H0 65536))|].
  destruct (H1 8 3) as [E1 E2]. split; [exact E1|]. split.
  - destruct E2 as (_ & E & _); [lia|vm_compute; congruence|exact E].
  - apply (H2 5000 1); [by split|reflexivity|right; vm_compute; congruence|by left].
Defined.

(** ** Bits in the offset *)

Lemma mask_testbit k i : 0 <= k < 63 → 0 <= i → Z.testbit (Mask k) i = (1 <=? i) && (i <=? k).
Proof.
  intros Hk Hi. assert (Z.shiftl 1 k -! 1 = Z.ones k) as E.
  { rewrite Z.shiftl_1_l, Z.ones_equiv. pose proof (Z.pow_le_mono_r 2 k 62). pose proof (Z.pow_pos_nonneg 2 k).
    rewrite u64_small; [lia|]. unfold in_u64. lia. }
  unfold Mask. rewrite E. change 18446744073709551616 with (2 ^ 64).
  rewrite <- Z.land_ones, Z.land_spec, Z.shiftl_spec by lia.
  destruct (Z.leb_spec 1 i); [|by rewrite (Z.testbit_neg_r _ (i - 1)) by lia].
  destruct (Z.leb_spec i k); cbn [andb].
  - rewrite !Z.ones_spec_low by lia. done.
  - by rewrite Z.ones_spec_high by lia.
Qed.

Lemma bnot64_testbit x i : 0 <= i → Z.testbit (bnot64 x) i = (i <? 64) && negb (Z.testbit x i).
Proof.
  intros Hi. unfold bnot64, u64. change 18446744073709551616 with (2 ^ 64).
  rewrite <- Z.land_ones, Z.land_spec, Z.lnot_spec by lia. ztest i 64.
  - rewrite Z.ones_spec_low by lia. by rewrite andb_true_r.
  - by rewrite Z.ones_spec_high, andb_false_r by lia.
Qed.

Lemma u64_high x i : in_u64 x → 64 <= i → Z.testbit x i = false.
Proof.
  intros Hx Hi. unfold in_u64 in Hx. destruct (decide (x = 0)) as [->|]; [apply Z.bits_0|].
  apply Z.bits_above_log2; [lia|]. apply Z.log2_lt_pow2; [lia|].
  assert (2 ^ 64 <= 2 ^ i) by (apply Z.pow_le_mono_r; lia).
  change (2 ^ 64) with 18446744073709551616 in *. lia.
Qed.

(** The pointer part and the bits of an offset with [k] bits, and their union. *)
Definition ptr_part (k o : Z) : Z := Z.land o (bnot64 (Mask k)).
Definition bit_part (k o : Z) : Z := Z.land o (Mask k).

Lemma small_high b k i : 0 <= b < 2 ^ k → 0 <= k <= i → Z.testbit b i = false.
Proof.
  intros Hb Hk. destruct (decide (b = 0)) as [->|]; [apply Z.bits_0|].
  apply Z.bits_above_log2; [lia|]. apply Z.log2_lt_pow2; [lia|].
  assert (2 ^ k <= 2 ^ i) by (apply Z.pow_le_mono_r; lia). lia.
Qed.

Lemma shl1_word k b : 0 <= k < 63 → 0 <= b < 2 ^ k → Z.shiftl b 1 mod 18446744073709551616 = Z.shiftl b 1.
Proof.
  intros Hk Hb. rewrite Z.shiftl_mul_pow2 by lia. apply Z.mod_small.
  pose proof (Z.pow_le_mono_r 2 k 62). lia.
Qed.

Ltac bit_cases i :=
  apply Z.bits_inj'; intros i Hi;
  repeat (rewrite Z.land_spec || rewrite Z.lor_spec);
  rewrite ?bnot64_testbit, ?mask_testbit by lia.

(** Storing bits [b] beside a pointer part. *)
Lemma parts_of_union k o b :
  0 <= k < 63 → in_u64 o → 0 <= b < 2 ^ k →
  ptr_part k (Z.lor (ptr_part k o) (Z.shiftl b 1)) = ptr_part k o ∧
  bit_part k (Z.lor (ptr_part k o) (Z.shiftl b 1)) = Z.shiftl b 1.
Proof.
  intros Hk Ho Hb. unfold ptr_part, bit_part. split.
  - bit_cases i. rewrite Z.shiftl_spec by lia. ztest i 64; cbn [andb].
    + destruct (Z.leb_spec 1 i), (Z.leb_spec i k); cbn [andb negb];
        rewrite ?andb_false_r, ?andb_true_r; try done.
      * rewrite (small_high b k) by lia. apply orb_false_r.
      * rewrite (Z.testbit_neg_r b) by lia. apply orb_false_r.
      * rewrite (Z.testbit_neg_r b) by lia. apply orb_false_r.
    + by rewrite !andb_false_r.
  - bit_cases i. rewrite Z.shiftl_spec by lia.
    destruct (Z.leb_spec 1 i), (Z.leb_spec i k); cbn [andb negb];
      rewrite ?andb_false_r, ?andb_true_r, ?orb_false_l; try done.
    + by rewrite (small_high b k) by lia.
    + by rewrite (Z.testbit_neg_r b) by lia.
    + by rewrite (Z.testbit_neg_r b) by lia.
Qed.

(** An offset without bits: null, or a multiple of [2^(k+1)]. *)
Lemma plain_offset k o :
  0 <= k < 63 → in_u64 o → o = 1 ∨ (2 ^ (k + 1) | o) → ptr_part k o = o ∧ bit_part k o = 0.
Proof.
  intros Hk Ho Hp.
  assert (∀ i, 1 <= i <= k → Z.testbit o i = false) as Hz.
  { intros i Hi. destruct Hp as [->|[h ->]].
    - apply Z.bits_above_log2; [lia|]. cbn. lia.
    - apply Z.mul_pow2_bits_low; lia. }
  unfold ptr_part, bit_part. split.
  - bit_cases i. ztest i 64; [|by rewrite u64_high by (done || lia)].
    destruct (Z.leb_spec 1 i), (Z.leb_spec i k); cbn [andb negb]; rewrite ?andb_true_r; try done.
    rewrite Hz by lia. done.
  - bit_cases i. rewrite Z.bits_0.
    destruct (Z.leb_spec 1 i), (Z.leb_spec i k); cbn [andb negb]; rewrite ?andb_false_r; try done.
    by rewrite Hz by lia.
Qed.

Lemma shr_shl b : Z.shiftr (Z.shiftl b 1) 1 = b.
Proof. rewrite Z.shiftr_shiftl_l by lia. apply Z.shiftl_0_r. Qed.

(** Bits embedded in a pointer ([pointer_plus_bits], used by the containers
    for colours).  For pointers that are null or aligned to [2^(NumBits+1)]:
    bits that were stored are read back, storing them does not change what
    [get_pointer] yields, and [set_pointer] replaces the pointer and keeps the
    bits. *)
Lemma offset_roundtrip_bits (s : ostore) (k n p o po b : Z) :
  0 <= k < 63 → 0 <= b < 2 ^ k → store_ok s → in_u64 n → n ≠ p →
  s !! n = Some o → o = 1 ∨ (2 ^ (k + 1) | o) →
  s !! p = Some po → po = 1 ∨ (2 ^ (k + 1) | po) →
  (let np := offset_ptr_to_offset_from_other n p po in np = 1 ∨ (2 ^ (k + 1) | np)) →
  let ob := Z.lor o (Z.shiftl b 1) in
  let s1 := <[n := ob]> s in
  set_bits k n b s = Ret (tt, s1) ∧
  get_bits k n s1 = Ret (b, s1) ∧
  (∀ dst, get_pointer k dst n s1 = Ret (tt, <[dst := offset_ptr_to_offset_from_other dst n o]> s1)) ∧
  (let np := offset_ptr_to_offset_from_other n p po in
   let s2 := <[n := Z.lor np (Z.shiftl b 1)]> s1 in
   set_pointer k n p s1 = Ret (tt, s2) ∧ get_bits k n s2 = Ret (b, s2) ∧
   ∀ dst, get_pointer k dst n s2 = Ret (tt, <[dst := offset_ptr_to_offset_from_other dst n np]> s2)).
Proof.
  intros Hk Hb Hs Hn Hne En Ho Ep Hpo Hnp ob s1. pose proof (Hs _ _ En) as Hor. pose proof (Hs _ _ Ep) as Hpr.
  assert (∀ o, in_u64 o → o = 1 ∨ (2 ^ (k + 1) | o) →
    ptr_part k (Z.lor o (Z.shiftl b 1)) = o ∧ bit_part k (Z.lor o (Z.shiftl b 1)) = Z.shiftl b 1) as Hparts.
  { intros x Hx Hpl. destruct (plain_offset k x Hk Hx Hpl) as [E _].
    pose proof (parts_of_union k x b Hk Hx Hb) as [H1 H2]. by rewrite E in H1, H2. }
  assert (∀ x (st : ostore), in_u64 x → x = 1 ∨ (2 ^ (k + 1) | x) → st !! n = Some (Z.lor x (Z.shiftl b 1)) →
    get_bits k n st = Ret (b, st) ∧
    ∀ dst, get_pointer k dst n st = Ret (tt, <[dst := offset_ptr_to_offset_from_other dst n x]> st)) as Hread.
  { intros x st Hx Hpl Est. destruct (Hparts x Hx Hpl) as [H1 H2]. split.
    - unfold get_bits. rewrite (bind_run _ _ _ _ _ (get_offset_run _ _ _ Est)).
      fold (bit_part k (Z.lor x (Z.shiftl b 1))). by rewrite H2, shr_shl.
    - intros dst. unfold get_pointer. rewrite (bind_run _ _ _ _ _ (get_offset_run _ _ _ Est)).
      cbv zeta. fold (ptr_part k (Z.lor x (Z.shiftl b 1))). by rewrite H1. }
  set (np := offset_ptr_to_offset_from_other n p po) in *.
  assert (in_u64 np) as Hnpr by (by apply from_other_range).
  assert (s1 !! n = Some ob) as En1 by apply lookup_insert_eq.
  split_and!; [|by apply (Hread o)|by apply (Hread o)|].
  - unfold set_bits. rewrite Z.shiftl_1_l. ztest b (2 ^ k); [|lia]. cbn [boost_assert].
    erewrite bind_run by done. rewrite (bind_run _ _ _ _ _ (get_offset_run _ _ _ En)). cbv zeta.
    rewrite (shl1_word k) by done. destruct (plain_offset k o Hk Hor Ho) as [E _].
    unfold ptr_part in E. by rewrite E.
  - cbv zeta. split; [|by apply (Hread np); [..|apply lookup_insert_eq]].
    assert (s1 !! p = Some po) as Ep1 by (unfold s1; by rewrite lookup_insert_ne).
    unfold set_pointer, get_bits at 1. rewrite (bind_run _ _ s1 0 s1); cycle 1.
    { rewrite (bind_run _ _ _ _ _ (get_offset_run _ _ _ Ep1)).
      destruct (plain_offset k po Hk Hpr Hpo) as [_ E]. unfold bit_part in E. by rewrite E. }
    cbn [boost_assert Z.eqb]. erewrite bind_run by done.
    rewrite (bind_run _ _ _ _ _ (get_offset_run _ _ _ En1)). cbv zeta.
    assert (assign_copy n p s1 = Ret (tt, <[n := np]> s1)) as Ea.
    { unfold assign_copy. by rewrite (bind_run _ _ _ _ _ (get_offset_run _ _ _ Ep1)). }
    rewrite (bind_run _ _ _ _ _ Ea).
    erewrite bind_run by (apply get_offset_run, lookup_insert_eq).
    unfold set_offset, modify. rewrite insert_insert_eq.
    destruct (Hparts o Hor Ho) as [_ E]. unfold bit_part in E. fold ob in E. by rewrite E.
Qed.

(** Two aligned pointers, one of them null. *)
Definition demo_bits : ostore := <[4096 := 64]> {[ 8192 := 1 ]}.

Lemma demo_bits_ok : store_ok demo_bits.
Proof.
  intros a o. unfold demo_bits. rewrite lookup_insert. case_decide; [intros [= <-]; by split|].
  rewrite lookup_singleton. case_decide; [intros [= <-]; by split|done].
Qed.

(** C36: pointers survive storing and copying, and so do bits embedded in them.
    Constructing or assigning from a raw pointer and reading it back gives the
    same pointer exactly unless it is the non-null byte after the pointer
    object; copying between objects preserves the pointee under the same
    condition.  For pointers that are null or aligned to [2^(NumBits+1)], bits
    that were stored are read back, do not change what [get_pointer] yields, and
    are kept by [set_pointer]. *)
Theorem offset_ptr_roundtrip (s : ostore) :
  store_ok s →
  (∀ this other ptr o, in_u64 this → in_u64 ptr → s !! other = Some o →
     let s1 := <[this := offset_ptr_to_offset ptr this]> s in
     let s2 := <[this := offset_ptr_to_offset_from_other this other o]> s in
     let pointee := offset_ptr_to_raw_pointer other o in
     assign_raw this ptr s = Ret (tt, s1) ∧
     (ptr_get this s1 = Ret (ptr, s1) ↔ ptr = 0 ∨ ptr ≠ this +! 1) ∧
     assign_copy this other s = Ret (tt, s2) ∧
     (pointee = 0 ∨ pointee ≠ this +! 1 → ptr_get this s2 = Ret (pointee, s2)) ∧
     (∀ a, a ≠ this → s1 !! a = s !! a ∧ s2 !! a = s !! a)) ∧
  (∀ k n p o po b, 0 <= k < 63 → 0 <= b < 2 ^ k → in_u64 n → n ≠ p →
     s !! n = Some o → o = 1 ∨ (2 ^ (k + 1) | o) →
     s !! p = Some po → po = 1 ∨ (2 ^ (k + 1) | po) →
     let np := offset_ptr_to_offset_from_other n p po in np = 1 ∨ (2 ^ (k + 1) | np) →
     let s1 := <[n := Z.lor o (Z.shiftl b 1)]> s in
     let s2 := <[n := Z.lor np (Z.shiftl b 1)]> s1 in
     set_bits k n b s = Ret (tt, s1) ∧ get_bits k n s1 = Ret (b, s1) ∧
     (∀ dst, get_pointer k dst n s1 = Ret (tt, <[dst := offset_ptr_to_offset_from_other dst n o]> s1)) ∧
     set_pointer k n p s1 = Ret (tt, s2) ∧ get_bits k n s2 = Ret (b, s2) ∧
     ∀ dst, get_pointer k dst n s2 = Ret (tt, <[dst := offset_ptr_to_offset_from_other dst n np]> s2)).
Proof.
  intros Hs. split.
  - intros this other ptr o Ht Hp Ho. by apply offset_roundtrip_raw.
  - intros k n p o po b Hk Hb Hn Hne En Ho Ep Hpo np Hnp s1 s2.
    destruct (offset_roundtrip_bits s k n p o po b) as (H1 & H2 & H3 & H4 & H5 & H6);
      [done..|]. by split_and!.
Qed.

Lemma offset_ptr_roundtrip_witness :
  ptr_get 6000 (<[6000 := offset_ptr_to_offset 4200 6000]> demo_store) =
    Ret (4200, <[6000 := offset_ptr_to_offset 4200 6000]> demo_store) ∧
  set_bits 2 8192 3 demo_bits = Ret (tt, <[8192 := 7]> demo_bits) ∧
  get_bits 2 8192 (<[8192 := 7]> demo_bits) = Ret (3, <[8192 := 7]> demo_bits).
Proof.
  split.
  - destruct (offset_ptr_roundtrip demo_store demo_store_ok) as [H _].
    destruct (H 6000 4096 4200 104) as (_ & H' & _); [by split|by split|reflexivity|].
    apply H'. right. vm_compute. congruence.
  - destruct (offset_ptr_roundtrip demo_bits demo_bits_ok) as [_ H].
    destruct (H 2 8192 4096 1 64 3) as (H1 & H2 & _);
      [lia|lia|by split|lia|reflexivity|by left|reflexivity| | |split; [exact H1|exact H2]].
    + right. exists 8. reflexivity.
    + right. exists 2305843009213693448. vm_compute. reflexivity.
Defined.
