(* ===== verification/Locks.v ===== *)
(** The lock classes [scoped_lock], [sharable_lock] and [upgradable_lock]
    (sync/scoped_lock.hpp, sync/sharable_lock.hpp, sync/upgradable_lock.hpp) of
    one thread.

    A lock object holds a mutex pointer and a flag.  Its operations call the
    mutex through the [Monitor] interface of [interprocess_upgradable_mutex]:
    a call requires the ownership [before] it and changes it to [granted] if it
    succeeds.  The answer of the mutex (success, failure of a try or timed
    call, exception) is a parameter, so the theorems hold for every behaviour
    of the other threads.  The three classes differ in the calls they make;
    the common code is written once over the [mode] of the class. *)

From S2P Require Import Prelude Monitor UpgradableMutex.

(** ** Objects and effects *)

(** A lock object: its class, [mp_mutex] (0 is null) and [m_locked]. *)
Record lock := Lock { l_mode : mode; mp_mutex : Z; m_locked : bool }.

(** The lock objects by address, and what the thread owns of each mutex. *)
Record lstate := LS { objs : gmap Z lock; held : gmap Z mode }.

(** The result of an operation: a value, a [lock_exception], an exception of
    the mutex, or a mutex call whose precondition the thread violates. *)
Inductive lres (A : Type) := LOk (a : A) | LThrow | LMutexThrew | LMisuse.
Arguments LOk {A} _.
Arguments LThrow {A}.
Arguments LMutexThrew {A}.
Arguments LMisuse {A}.

Inductive answer := AnsTrue | AnsFalse | AnsThrow.

Definition L (A : Type) : Type := lstate → lres A * lstate.

#[export] Instance L_ret : MRet L := λ A a s, (LOk a, s).
#[export] Instance L_bind : MBind L := λ A B f m s,
  match m s with
  | (LOk a, s') => f a s'
  | (LThrow, s') => (LThrow, s')
  | (LMutexThrew, s') => (LMutexThrew, s')
  | (LMisuse, s') => (LMisuse, s')
  end.

Definition throw_lock_exception {A} : L A := λ s, (LThrow, s).

Definition ld_lock (id : Z) : L lock := λ s,
  match objs s !! id with Some l => (LOk l, s) | None => (LMisuse, s) end.
Definition st_lock (id : Z) (l : lock) : L () := λ s, (LOk tt, LS (<[id := l]> (objs s)) (held s)).
Definition rm_lock (id : Z) : L () := λ s, (LOk tt, LS (delete id (objs s)) (held s)).

Definition set_owner (m : Z) (o : option mode) (h : gmap Z mode) : gmap Z mode :=
  match o with Some mo => <[m := mo]> h | None => delete m h end.

(** A call of the mutex at address [m]. *)
Definition mutex_call (m : Z) (call : upgr_call) (ans : answer) : L bool := λ s,
  if decide (held s !! m = before call) then
    match ans with
    | AnsTrue => (LOk true, LS (objs s) (set_owner m (granted call) (held s)))
    | AnsFalse => (LOk false, s)
    | AnsThrow => (LMutexThrew, s)
    end
  else (LMisuse, s).

(** Calls that return [void] either succeed or throw. *)
Definition mutex_call_void (m : Z) (call : upgr_call) (ans : answer) : L () :=
  mutex_call m call (match ans with AnsFalse => AnsTrue | a => a end);; mret ().

(** The calls of the three classes. *)
Definition lock_of (mo : mode) : upgr_call :=
  match mo with Exclusive => ULock | Sharable => ULockSharable | Upgradable => ULockUpgradable end.
Definition try_lock_of (mo : mode) : upgr_call :=
  match mo with Exclusive => UTryLock | Sharable => UTryLockSharable | Upgradable => UTryLockUpgradable end.
Definition timed_lock_of (mo : mode) : upgr_call :=
  match mo with Exclusive => UTimedLock | Sharable => UTimedLockSharable | Upgradable => UTimedLockUpgradable end.
Definition unlock_of (mo : mode) : upgr_call :=
  match mo with Exclusive => UUnlock | Sharable => UUnlockSharable | Upgradable => UUnlockUpgradable end.

(** ** The members common to the classes *)

Definition owns (l : lock) : bool := m_locked l && nz (mp_mutex l).

Definition default_ctor (mo : mode) (id : Z) : L () := st_lock id (Lock mo 0 false).

(** The members exist only once the body has completed: an exception of the
    mutex leaves no object. *)
Definition lock_ctor (mo : mode) (id m : Z) (ans : answer) : L () :=
  mutex_call_void m (lock_of mo) ans;;
  st_lock id (Lock mo m true).

Definition defer_ctor (mo : mode) (id m : Z) : L () := st_lock id (Lock mo m false).
Definition accept_ctor (mo : mode) (id m : Z) : L () := st_lock id (Lock mo m true).

Definition try_ctor (mo : mode) (id m : Z) (ans : answer) : L () :=
  b ← mutex_call m (try_lock_of mo) ans; st_lock id (Lock mo m b).
Definition timed_ctor (mo : mode) (id m : Z) (ans : answer) : L () :=
  b ← mutex_call m (timed_lock_of mo) ans; st_lock id (Lock mo m b).

Definition release (id : Z) : L Z :=
  l ← ld_lock id;
  st_lock id (Lock (l_mode l) 0 false);;
  mret (mp_mutex l).

Definition move_ctor (mo : mode) (id src : Z) : L () :=
  l ← ld_lock src;
  let locked := owns l in
  m ← release src;
  st_lock id (Lock mo m locked).

Definition lock_dtor (id : Z) : L () :=
  l ← ld_lock id;
  (if m_locked l && nz (mp_mutex l)
   then mutex_call_void (mp_mutex l) (unlock_of (l_mode l)) AnsTrue else mret ());;
  rm_lock id.

Definition lock_unlock (id : Z) : L () :=
  l ← ld_lock id;
  if negb (nz (mp_mutex l)) || negb (m_locked l) then throw_lock_exception else
  mutex_call_void (mp_mutex l) (unlock_of (l_mode l)) AnsTrue;;
  st_lock id (Lock (l_mode l) (mp_mutex l) false).

Definition move_assign (id src : Z) : L () :=
  l ← ld_lock id;
  (if owns l then lock_unlock id else mret ());;
  r ← ld_lock src;
  l ← ld_lock id;
  st_lock id (Lock (l_mode l) (mp_mutex l) (owns r));;
  m ← release src;
  l ← ld_lock id;
  st_lock id (Lock (l_mode l) m (m_locked l)).

Definition lock_lock (id : Z) (ans : answer) : L () :=
  l ← ld_lock id;
  if negb (nz (mp_mutex l)) || m_locked l then throw_lock_exception else
  mutex_call_void (mp_mutex l) (lock_of (l_mode l)) ans;;
  st_lock id (Lock (l_mode l) (mp_mutex l) true).

Definition lock_try_lock (id : Z) (ans : answer) : L bool :=
  l ← ld_lock id;
  if negb (nz (mp_mutex l)) || m_locked l then throw_lock_exception else
  b ← mutex_call (mp_mutex l) (try_lock_of (l_mode l)) ans;
  st_lock id (Lock (l_mode l) (mp_mutex l) b);;
  mret b.

(** [timed_lock], [try_lock_until] and [try_lock_for] make the same timed call. *)
Definition lock_timed_lock (id : Z) (ans : answer) : L bool :=
  l ← ld_lock id;
  if negb (nz (mp_mutex l)) || m_locked l then throw_lock_exception else
  b ← mutex_call (mp_mutex l) (timed_lock_of (l_mode l)) ans;
  st_lock id (Lock (l_mode l) (mp_mutex l) b);;
  mret b.

(** [simple_swap] of the members. *)
Definition lock_swap (id id2 : Z) : L () :=
  l ← ld_lock id; l2 ← ld_lock id2;
  st_lock id (Lock (l_mode l) (mp_mutex l2) (m_locked l));;
  r ← ld_lock id2;
  st_lock id2 (Lock (l_mode r) (mp_mutex l) (m_locked r));;
  a ← ld_lock id; b ← ld_lock id2;
  st_lock id (Lock (l_mode a) (mp_mutex a) (m_locked b));;
  b' ← ld_lock id2;
  st_lock id2 (Lock (l_mode b') (mp_mutex b') (m_locked a)).

(** ** Conversions between the classes *)

(** From an owner of another class by a call that cannot fail:
    [upgradable_lock] to [scoped_lock] and to [sharable_lock], [scoped_lock] to
    [sharable_lock] and to [upgradable_lock]. *)
Definition convert_ctor (mo : mode) (call : upgr_call) (id src : Z) (ans : answer) : L () :=
  l ← ld_lock src;
  (if owns l then mutex_call_void (mp_mutex l) call ans else mret ());;
  m ← release src;
  st_lock id (Lock mo m (owns l)).

(** By a call that can fail: the mutex is taken over only on success; a source
    that owns nothing is released and its mutex is forgotten. *)
Definition try_convert_ctor (mo : mode) (call : upgr_call) (id src : Z) (ans : answer) : L () :=
  l ← ld_lock src;
  if owns l then
    b ← mutex_call (mp_mutex l) call ans;
    if (b : bool) then m ← release src; st_lock id (Lock mo m true)
    else st_lock id (Lock mo 0 false)
  else
    release src;;
    st_lock id (Lock mo 0 false).

(** ** The three classes *)

Definition scoped_lock_default := default_ctor Exclusive.
Definition scoped_lock_ctor := lock_ctor Exclusive.
Definition scoped_lock_defer := defer_ctor Exclusive.
Definition scoped_lock_accept := accept_ctor Exclusive.
Definition scoped_lock_try := try_ctor Exclusive.
Definition scoped_lock_timed := timed_ctor Exclusive.
Definition scoped_lock_move := move_ctor Exclusive.
Definition scoped_lock_from_upgradable := convert_ctor Exclusive UUnlockUpgradableAndLock.
Definition scoped_lock_try_from_upgradable := try_convert_ctor Exclusive UTryUnlockUpgradableAndLock.
Definition scoped_lock_timed_from_upgradable := try_convert_ctor Exclusive UTimedUnlockUpgradableAndLock.
Definition scoped_lock_try_from_sharable := try_convert_ctor Exclusive UTryUnlockSharableAndLock.

Definition sharable_lock_default := default_ctor Sharable.
Definition sharable_lock_ctor := lock_ctor Sharable.
Definition sharable_lock_defer := defer_ctor Sharable.
Definition sharable_lock_accept := accept_ctor Sharable.
Definition sharable_lock_try := try_ctor Sharable.
Definition sharable_lock_timed := timed_ctor Sharable.
Definition sharable_lock_move := move_ctor Sharable.
Definition sharable_lock_from_upgradable := convert_ctor Sharable UUnlockUpgradableAndLockSharable.
Definition sharable_lock_from_scoped := convert_ctor Sharable UUnlockAndLockSharable.

Definition upgradable_lock_default := default_ctor Upgradable.
Definition upgradable_lock_ctor := lock_ctor Upgradable.
Definition upgradable_lock_defer := defer_ctor Upgradable.
Definition upgradable_lock_accept := accept_ctor Upgradable.
Definition upgradable_lock_try := try_ctor Upgradable.
Definition upgradable_lock_timed := timed_ctor Upgradable.
Definition upgradable_lock_move := move_ctor Upgradable.
Definition upgradable_lock_from_scoped := convert_ctor Upgradable UUnlockAndLockUpgradable.
Definition upgradable_lock_try_from_sharable := try_convert_ctor Upgradable UTryUnlockSharableAndLockUpgradable.

(** ** Ownership *)

(** [ow] tells for every mutex the thread owns which object is responsible for
    it; [None] is the user, after [release()]. *)
Record consistent (ow : gmap Z (option Z)) (s : lstate) : Prop := {
  co_dom : ∀ m, is_Some (ow !! m) ↔ is_Some (held s !! m);
  co_obj : ∀ id l, objs s !! id = Some l → owns l = true →
             ow !! mp_mutex l = Some (Some id) ∧ held s !! mp_mutex l = Some (l_mode l);
  co_own : ∀ m id, ow !! m = Some (Some id) →
             ∃ l, objs s !! id = Some l ∧ owns l = true ∧ mp_mutex l = m
}.

(** The object at [id], if there is one, owns nothing. *)
Definition idle_at (s : lstate) (id : Z) : Prop := ∀ l, objs s !! id = Some l → owns l = false.

Ltac ow_cases :=
  repeat match goal with
  | H : context [<[_ := _]> _ !! _] |- _ => rewrite lookup_insert in H; case_decide; simplify_eq
  | H : context [delete _ _ !! _] |- _ => rewrite lookup_delete in H; case_decide; simplify_eq
  | |- context [<[_ := _]> _ !! _] => rewrite lookup_insert; case_decide; simplify_eq
  | |- context [delete _ _ !! _] => rewrite lookup_delete; case_decide; simplify_eq
  end.

Ltac ow_hyps :=
  repeat match goal with
  | H : context [<[_ := _]> _ !! _] |- _ => rewrite lookup_insert in H; case_decide; simplify_eq
  | H : context [delete _ _ !! _] |- _ => rewrite lookup_delete in H; case_decide; simplify_eq
  end.

Section blocks.
Variables (ow : gmap Z (option Z)) (s : lstate).
Hypothesis Hc : consistent ow s.

(** Objects that own nothing come, change and go freely. *)
Lemma put_idle id l' :
  idle_at s id → owns l' = false → consistent ow (LS (<[id := l']> (objs s)) (held s)).
Proof.
  destruct Hc as [H1 H2 H3]. intros Hid Hl'. constructor; cbn; [done|..].
  - intros i l Hl Ho. ow_cases; [congruence|by eapply H2].
  - intros m i Hi. destruct (H3 _ _ Hi) as (l & Hl & Ho & Em). exists l.
    rewrite lookup_insert_ne; [done|]. intros ->. specialize (Hid _ Hl). congruence.
Qed.

Lemma drop_idle id : idle_at s id → consistent ow (LS (delete id (objs s)) (held s)).
Proof.
  destruct Hc as [H1 H2 H3]. intros Hid. constructor; cbn; [done|..].
  - intros i l Hl Ho. ow_cases. by eapply H2.
  - intros m i Hi. destruct (H3 _ _ Hi) as (l & Hl & Ho & Em). exists l.
    rewrite lookup_delete_ne; [done|]. intros ->. specialize (Hid _ Hl). congruence.
Qed.

(** An idle object acquires a mutex. *)
Lemma acquire id l' :
  idle_at s id → owns l' = true → held s !! mp_mutex l' = None →
  consistent (<[mp_mutex l' := Some id]> ow)
    (LS (<[id := l']> (objs s)) (<[mp_mutex l' := l_mode l']> (held s))).
Proof.
  destruct Hc as [H1 H2 H3]. intros Hid Hl' Hh. constructor; cbn.
  - intros m. specialize (H1 m). ow_cases; [by split; eauto|done].
  - intros i l Hl Ho. destruct (decide (id = i)) as [<-|Hne].
    { rewrite lookup_insert_eq in Hl. simplify_eq. by rewrite !lookup_insert_eq. }
    rewrite lookup_insert_ne in Hl by done. destruct (H2 _ _ Hl Ho) as [E3 E4].
    rewrite !lookup_insert_ne; [done|..]; intros E; rewrite E in *; congruence.
  - intros m i Hi. ow_hyps.
    + exists l'. by rewrite lookup_insert_eq.
    + destruct (H3 _ _ Hi) as (l & Hl & Ho & Em). exists l.
      rewrite lookup_insert_ne; [done|]. intros ->. specialize (Hid _ Hl). congruence.
Qed.

(** An owner gives its mutex up. *)
Lemma lose id l l' :
  objs s !! id = Some l → owns l = true → owns l' = false →
  consistent (delete (mp_mutex l) ow) (LS (<[id := l']> (objs s)) (delete (mp_mutex l) (held s))).
Proof.
  destruct Hc as [H1 H2 H3]. intros Hl Ho Hl'. destruct (H2 _ _ Hl Ho) as [E1 E2]. constructor; cbn.
  - intros m. specialize (H1 m). ow_cases; [by split; intros []|done].
  - intros i k Hk Hok. destruct (decide (id = i)) as [<-|Hne].
    { rewrite lookup_insert_eq in Hk. congruence. }
    rewrite lookup_insert_ne in Hk by done. destruct (H2 _ _ Hk Hok) as [E3 E4].
    rewrite !lookup_delete_ne; [done|..]; intros E; rewrite E in *; congruence.
  - intros m i Hi. ow_hyps. destruct (H3 _ _ Hi) as (k & Hk & Hok & Em). exists k.
    rewrite lookup_insert_ne; [done|]. intros ->. congruence.
Qed.

(** The mutex of [src] passes to [id], possibly in another mode. *)
Lemma transfer id src l l1 l2 :
  id ≠ src → idle_at s id → objs s !! src = Some l → owns l = true → owns l1 = false →
  owns l2 = true → mp_mutex l2 = mp_mutex l →
  consistent (<[mp_mutex l := Some id]> ow)
    (LS (<[id := l2]> (<[src := l1]> (objs s))) (<[mp_mutex l := l_mode l2]> (held s))).
Proof.
  destruct Hc as [H1 H2 H3]. intros Hne Hid Hl Ho Hl1 Hl2 Em. destruct (H2 _ _ Hl Ho) as [E1 E2].
  constructor; cbn.
  - intros m. specialize (H1 m). ow_cases; [by split; eauto|done].
  - intros i k Hk Hok. destruct (decide (id = i)) as [<-|Hi1].
    { rewrite lookup_insert_eq in Hk. simplify_eq. rewrite Em, !lookup_insert_eq. done. }
    rewrite lookup_insert_ne in Hk by done. destruct (decide (src = i)) as [<-|Hi2].
    { rewrite lookup_insert_eq in Hk. congruence. }
    rewrite lookup_insert_ne in Hk by done. destruct (H2 _ _ Hk Hok) as [E3 E4].
    rewrite !lookup_insert_ne; [done|..]; intros E; rewrite E in *; congruence.
  - intros m i Hi. ow_hyps.
    + exists l2. by rewrite lookup_insert_eq.
    + destruct (H3 _ _ Hi) as (k & Hk & Hok & Em'). exists k.
      rewrite !lookup_insert_ne; [done|..]; intros ->; [congruence|].
      specialize (Hid _ Hk). congruence.
Qed.

(** [release()] hands the mutex to the user, [accept_ownership] takes it back. *)
Lemma to_user id l l' :
  objs s !! id = Some l → owns l = true → owns l' = false →
  consistent (<[mp_mutex l := None]> ow) (LS (<[id := l']> (objs s)) (held s)).
Proof.
  destruct Hc as [H1 H2 H3]. intros Hl Ho Hl'. destruct (H2 _ _ Hl Ho) as [E1 E2]. constructor; cbn.
  - intros m. specialize (H1 m). ow_cases; [rewrite E2; by split; eauto|done].
  - intros i k Hk Hok. destruct (decide (id = i)) as [<-|Hne].
    { rewrite lookup_insert_eq in Hk. congruence. }
    rewrite lookup_insert_ne in Hk by done. destruct (H2 _ _ Hk Hok) as [E3 E4].
    rewrite !lookup_insert_ne; [done|]. intros E. rewrite E in *. congruence.
  - intros m i Hi. ow_hyps. destruct (H3 _ _ Hi) as (k & Hk & Hok & Em). exists k.
    rewrite lookup_insert_ne; [done|]. intros ->. congruence.
Qed.

Lemma from_user id l' :
  idle_at s id → owns l' = true → ow !! mp_mutex l' = Some None →
  held s !! mp_mutex l' = Some (l_mode l') →
  consistent (<[mp_mutex l' := Some id]> ow) (LS (<[id := l']> (objs s)) (held s)).
Proof.
  destruct Hc as [H1 H2 H3]. intros Hid Hl' Hu Hh. constructor; cbn.
  - intros m. specialize (H1 m). ow_cases; [rewrite Hh; by split; eauto|done].
  - intros i l Hl Ho. destruct (decide (id = i)) as [<-|Hne].
    { rewrite lookup_insert_eq in Hl. simplify_eq. by rewrite !lookup_insert_eq. }
    rewrite lookup_insert_ne in Hl by done. destruct (H2 _ _ Hl Ho) as [E3 E4].
    rewrite !lookup_insert_ne; [done|..]; intros E; rewrite E in *; congruence.
  - intros m i Hi. ow_hyps.
    + exists l'. by rewrite lookup_insert_eq.
    + destruct (H3 _ _ Hi) as (l & Hl & Ho & Em). exists l.
      rewrite lookup_insert_ne; [done|]. intros ->. specialize (Hid _ Hl). congruence.
Qed.

(** The user locks and unlocks a mutex without a lock object. *)
Lemma user_locks m mo :
  held s !! m = None → consistent (<[m := None]> ow) (LS (objs s) (<[m := mo]> (held s))).
Proof.
  destruct Hc as [H1 H2 H3]. intros Hh. constructor; cbn.
  - intros i. specialize (H1 i). ow_cases; [by split; eauto|done].
  - intros i l Hl Ho. destruct (H2 _ _ Hl Ho) as [E3 E4].
    rewrite !lookup_insert_ne; [done|..]; intros E; rewrite E in *; congruence.
  - intros i id Hi. ow_hyps. by apply H3.
Qed.

Lemma user_unlocks m :
  ow !! m = Some None → consistent (delete m ow) (LS (objs s) (delete m (held s))).
Proof.
  destruct Hc as [H1 H2 H3]. intros Hm. constructor; cbn.
  - intros i. specialize (H1 i). ow_cases; [by split; intros []|done].
  - intros i l Hl Ho. destruct (H2 _ _ Hl Ho) as [E3 E4].
    rewrite !lookup_delete_ne; [done|..]; intros E; rewrite E in *; congruence.
  - intros i id Hi. ow_hyps. by apply H3.
Qed.
End blocks.

(** ** Runs of single operations *)

Lemma ld_run {B} id l (f : lock → L B) s : objs s !! id = Some l → (ld_lock id ≫= f) s = f l s.
Proof. intros E. unfold mbind, L_bind, ld_lock. by rewrite E. Qed.

Lemma ret_run {A B} (a : A) (f : A → L B) s : ((mret a : L A) ≫= f) s = f a s.
Proof. done. Qed.

Lemma bind_same {A B} (m m' : L A) (f : A → L B) s : m s = m' s → (m ≫= f) s = (m' ≫= f) s.
Proof. unfold mbind, L_bind. by intros ->. Qed.

Lemma st_run {B} id l (f : () → L B) s :
  (st_lock id l ≫= f) s = f tt (LS (<[id := l]> (objs s)) (held s)).
Proof. done. Qed.

Lemma call_run {B} m call ans (f : bool → L B) s :
  held s !! m = before call →
  (mutex_call m call ans ≫= f) s =
    match ans with
    | AnsTrue => f true (LS (objs s) (set_owner m (granted call) (held s)))
    | AnsFalse => f false s
    | AnsThrow => (LMutexThrew, s)
    end.
Proof. intros E. unfold mbind, L_bind, mutex_call. rewrite decide_True by done. by destruct ans. Qed.

Lemma call_void_run {B} m call ans (f : () → L B) s :
  held s !! m = before call →
  (mutex_call_void m call ans ≫= f) s =
    match ans with
    | AnsThrow => (LMutexThrew, s)
    | _ => f tt (LS (objs s) (set_owner m (granted call) (held s)))
    end.
Proof.
  intros E. unfold mbind, L_bind, mutex_call_void, mbind, L_bind, mutex_call.
  rewrite decide_True by done. by destruct ans.
Qed.

Lemma release_run {B} id l (f : Z → L B) s :
  objs s !! id = Some l →
  (release id ≫= f) s = f (mp_mutex l) (LS (<[id := Lock (l_mode l) 0 false]> (objs s)) (held s)).
Proof. intros E. unfold release, mbind, L_bind, ld_lock. by rewrite E. Qed.

Lemma idle_none s id : objs s !! id = None → idle_at s id.
Proof. intros E l. by rewrite E. Qed.

Lemma idle_unlocked s id l : objs s !! id = Some l → owns l = false → idle_at s id.
Proof. intros E Hl l'. rewrite E. by intros [= <-]. Qed.

Lemma owns_val mo m b : m ≠ 0 → owns (Lock mo m b) = b.
Proof. intros Hm. unfold owns, nz. cbn. destruct (Z.eqb_spec m 0); [done|]. apply andb_true_r. Qed.

(** ** Operations and their documented preconditions *)

Inductive lock_op :=
| LDefault (mo : mode) (id : Z)
| LCtor (mo : mode) (id m : Z) (ans : answer)
| LDefer (mo : mode) (id m : Z)
| LTry (mo : mode) (id m : Z) (ans : answer)
| LTimed (mo : mode) (id m : Z) (ans : answer)
| LMove (mo : mode) (id src : Z)
| LConvert (mo : mode) (call : upgr_call) (id src : Z) (ans : answer)
| LTryConvert (mo : mode) (call : upgr_call) (id src : Z) (ans : answer)
| LDtor (id : Z)
| LAssign (id src : Z)
| LLock (id : Z) (ans : answer)
| LTryLock (id : Z) (ans : answer)
| LTimedLock (id : Z) (ans : answer)
| LUnlock (id : Z)
| LSwap (id id2 : Z).

Definition exec (op : lock_op) : L () :=
  match op with
  | LDefault mo id => default_ctor mo id
  | LCtor mo id m ans => lock_ctor mo id m ans
  | LDefer mo id m => defer_ctor mo id m
  | LTry mo id m ans => try_ctor mo id m ans
  | LTimed mo id m ans => timed_ctor mo id m ans
  | LMove mo id src => move_ctor mo id src
  | LConvert mo call id src ans => convert_ctor mo call id src ans
  | LTryConvert mo call id src ans => try_convert_ctor mo call id src ans
  | LDtor id => lock_dtor id
  | LAssign id src => move_assign id src
  | LLock id ans => lock_lock id ans
  | LTryLock id ans => lock_try_lock id ans;; mret ()
  | LTimedLock id ans => lock_timed_lock id ans;; mret ()
  | LUnlock id => lock_unlock id
  | LSwap id id2 => lock_swap id id2
  end.

(** The conversions that exist. *)
Definition conversions : list (mode * upgr_call) :=
  [(Exclusive, UUnlockUpgradableAndLock); (Sharable, UUnlockUpgradableAndLockSharable);
   (Sharable, UUnlockAndLockSharable); (Upgradable, UUnlockAndLockUpgradable)].
Definition try_conversions : list (mode * upgr_call) :=
  [(Exclusive, UTryUnlockUpgradableAndLock); (Exclusive, UTimedUnlockUpgradableAndLock);
   (Exclusive, UTryUnlockSharableAndLock); (Upgradable, UTryUnlockSharableAndLockUpgradable)].

(** Constructors build on free storage; a blocking or trying acquisition
    requires that the thread does not own the mutex yet. *)
Definition op_pre (op : lock_op) (s : lstate) : Prop :=
  match op with
  | LDefault _ id | LDefer _ id _ => objs s !! id = None
  | LCtor _ id m _ | LTry _ id m _ | LTimed _ id m _ => objs s !! id = None ∧ m ≠ 0 ∧ held s !! m = None
  | LMove mo id src => objs s !! id = None ∧ ∃ l, objs s !! src = Some l ∧ l_mode l = mo
  | LConvert mo call id src _ =>
      (mo, call) ∈ conversions ∧ objs s !! id = None ∧ ∃ l, objs s !! src = Some l ∧ Some (l_mode l) = before call
  | LTryConvert mo call id src _ =>
      (mo, call) ∈ try_conversions ∧ objs s !! id = None ∧ ∃ l, objs s !! src = Some l ∧ Some (l_mode l) = before call
  | LDtor id | LUnlock id => is_Some (objs s !! id)
  | LAssign id src | LSwap id src =>
      ∃ l r, objs s !! id = Some l ∧ objs s !! src = Some r ∧ l_mode l = l_mode r
  | LLock id _ | LTryLock id _ | LTimedLock id _ =>
      ∃ l, objs s !! id = Some l ∧
           (mp_mutex l ≠ 0 → m_locked l = false → held s !! mp_mutex l = None)
  end.

(** A good outcome: no misuse of a mutex, responsibilities still consistent, and
    nothing left to the user. *)
Definition good (ow : gmap Z (option Z)) (out : lres () * lstate) : Prop :=
  fst out ≠ LMisuse ∧ ∃ ow', consistent ow' (snd out) ∧ ∀ m, ow' !! m = Some None ↔ ow !! m = Some None.

Lemma good_same ow r s : r ≠ LMisuse → consistent ow s → good ow (r, s).
Proof. intros Hr Hs. split; [done|]. by exists ow. Qed.

(** The user's mutexes do not change when an object takes or gives one up. *)
Lemma good_ow ow ow' r s :
  r ≠ LMisuse → consistent ow' s → (∀ m, ow' !! m = Some None ↔ ow !! m = Some None) → good ow (r, s).
Proof. intros. split; [done|]. by exists ow'. Qed.

Lemma user_insert (ow : gmap Z (option Z)) (m id i : Z) :
  ow !! m ≠ Some None → (<[m := Some id]> ow !! i = Some None ↔ ow !! i = Some None).
Proof. intros Hm. rewrite lookup_insert. case_decide; [subst; by split|done]. Qed.

Lemma user_delete (ow : gmap Z (option Z)) (m i : Z) :
  ow !! m ≠ Some None → (delete m ow !! i = Some None ↔ ow !! i = Some None).
Proof. intros Hm. rewrite lookup_delete. case_decide; [subst; by split|done]. Qed.

Lemma not_held_user ow s m : consistent ow s → held s !! m = None → ow !! m ≠ Some None.
Proof.
  intros [H1 _ _] Hh E. destruct (proj1 (H1 m)) as [? E']; [by rewrite E|]. by rewrite Hh in E'.
Qed.

Lemma owner_user ow s id l : consistent ow s → objs s !! id = Some l → owns l = true → ow !! mp_mutex l ≠ Some None.
Proof. intros [_ H2 _] Hl Ho. destruct (H2 _ _ Hl Ho) as [-> _]. done. Qed.

(** *** Each operation *)

Section ops.
Context (ow : gmap Z (option Z)) (s : lstate) (Hc : consistent ow s).

(** A constructor or locking member that got the mutex. *)
Lemma good_acquire r mo id m h' :
  r ≠ LMisuse → idle_at s id → m ≠ 0 → held s !! m = None → h' = <[m := mo]> (held s) →
  good ow (r, LS (<[id := Lock mo m true]> (objs s)) h').
Proof.
  intros Hr Hid Hm Hh ->.
  pose proof (acquire ow s Hc id (Lock mo m true) Hid (owns_val mo m true Hm) Hh) as Ha.
  eapply good_ow; [done|exact Ha|].
  intros i. apply user_insert. by eapply not_held_user.
Qed.

Lemma good_idle r id l' :
  r ≠ LMisuse → idle_at s id → owns l' = false → good ow (r, LS (<[id := l']> (objs s)) (held s)).
Proof. intros. apply good_same; [done|]. by apply put_idle. Qed.

Lemma lock_ctor_good mo id m ans :
  op_pre (LCtor mo id m ans) s → good ow (exec (LCtor mo id m ans) s).
Proof.
  intros (Hid & Hm & Hh). cbn. unfold lock_ctor. rewrite call_void_run by (rewrite Hh; by destruct mo).
  apply idle_none in Hid. destruct ans; [| |by apply good_same];
    (apply good_acquire; [done|done|done|done|by destruct mo]).
Qed.

Lemma try_ctor_good mo id m ans call :
  before call = None → granted call = Some mo →
  objs s !! id = None → m ≠ 0 → held s !! m = None →
  good ow ((b ← mutex_call m call ans; st_lock id (Lock mo m b)) s).
Proof.
  intros Hb Hg Hid Hm Hh. rewrite call_run by (by rewrite Hh). apply idle_none in Hid.
  destruct ans; [|by apply good_idle; [..|apply owns_val]|by apply good_same].
  rewrite Hg. by apply good_acquire.
Qed.

(** Lock objects after a move: the source is empty, the target has the mutex. *)
Lemma good_transfer r id src l mo l2 h' :
  r ≠ LMisuse → id ≠ src → idle_at s id → objs s !! src = Some l → owns l = true →
  l2 = Lock mo (mp_mutex l) true → h' = <[mp_mutex l := mo]> (held s) →
  good ow (r, LS (<[id := l2]> (<[src := Lock (l_mode l) 0 false]> (objs s))) h').
Proof.
  intros Hr Hne Hid Hl Ho -> ->.
  assert (mp_mutex l ≠ 0) as Hm.
  { unfold owns, nz in Ho. destruct (Z.eqb_spec (mp_mutex l) 0); [|done]. by rewrite andb_false_r in Ho. }
  eapply good_ow; [done| |].
  - apply (transfer ow s Hc id src l (Lock (l_mode l) 0 false) (Lock mo (mp_mutex l) true)); try done.
    by apply owns_val.
  - intros i. apply user_insert. by eapply owner_user.
Qed.

Lemma held_same id l : objs s !! id = Some l → owns l = true → held s = <[mp_mutex l := l_mode l]> (held s).
Proof. intros Hl Ho. destruct (co_obj _ _ Hc _ _ Hl Ho) as [_ E]. by rewrite insert_id. Qed.

(** Emptying an idle source and storing an idle target. *)
Lemma good_idle2 r id src l l2 :
  r ≠ LMisuse → idle_at s id → objs s !! src = Some l → owns l = false → owns l2 = false →
  good ow (r, LS (<[id := l2]> (<[src := Lock (l_mode l) 0 false]> (objs s))) (held s)).
Proof.
  intros Hr Hid Hl Ho Hl2. apply good_same; [done|].
  pose proof (put_idle ow s Hc src (Lock (l_mode l) 0 false) (idle_unlocked _ _ _ Hl Ho) eq_refl) as Hc1.
  apply (put_idle _ _ Hc1 id l2); [|done]. intros k Hk. cbn in Hk. ow_hyps; [done|]. by apply Hid.
Qed.

Lemma move_ctor_good mo id src :
  op_pre (LMove mo id src) s → good ow (exec (LMove mo id src) s).
Proof.
  intros (Hid & l & Hl & <-). cbn. unfold move_ctor. rewrite (ld_run _ _ _ _ Hl). cbv zeta.
  rewrite (release_run _ _ _ _ Hl). unfold st_lock. cbn.
  assert (id ≠ src) by congruence. apply idle_none in Hid. destruct (owns l) eqn:Ho.
  - eapply good_transfer; try done. by eapply held_same.
  - by apply good_idle2; [..|unfold owns].
Qed.

Lemma convert_ctor_good mo call id src ans :
  op_pre (LConvert mo call id src ans) s → good ow (exec (LConvert mo call id src ans) s).
Proof.
  intros (Hin & Hid & l & Hl & Hb). cbn. unfold convert_ctor. rewrite (ld_run _ _ _ _ Hl).
  assert (granted call = Some mo) as Hg.
  { unfold conversions in Hin. repeat (apply elem_of_cons in Hin as [[= -> ->]|Hin]; [done|]).
    by apply elem_of_nil in Hin. }
  assert (id ≠ src) by congruence. apply idle_none in Hid. destruct (owns l) eqn:Ho.
  - destruct (co_obj _ _ Hc _ _ Hl Ho) as [_ Eh].
    rewrite call_void_run by (by rewrite Eh). rewrite Hg. cbn [set_owner].
    destruct ans; [| |by apply good_same].
    + rewrite (release_run src l) by done. by eapply good_transfer.
    + rewrite (release_run src l) by done. by eapply good_transfer.
  - rewrite ret_run, (release_run _ _ _ _ Hl).
    by apply good_idle2; [..|unfold owns].
Qed.

Lemma try_convert_ctor_good mo call id src ans :
  op_pre (LTryConvert mo call id src ans) s → good ow (exec (LTryConvert mo call id src ans) s).
Proof.
  intros (Hin & Hid & l & Hl & Hb). cbn. unfold try_convert_ctor. rewrite (ld_run _ _ _ _ Hl).
  assert (granted call = Some mo) as Hg.
  { unfold try_conversions in Hin. repeat (apply elem_of_cons in Hin as [[= -> ->]|Hin]; [done|]).
    by apply elem_of_nil in Hin. }
  assert (id ≠ src) by congruence. apply idle_none in Hid. destruct (owns l) eqn:Ho.
  - destruct (co_obj _ _ Hc _ _ Hl Ho) as [_ Eh]. rewrite call_run by (by rewrite Eh).
    destruct ans; [|by apply good_idle|by apply good_same].
    rewrite Hg. cbn [set_owner]. rewrite (release_run src l) by done. by eapply good_transfer.
  - rewrite (release_run _ _ _ _ Hl). by apply good_idle2.
Qed.

Lemma lock_lock_good id ans :
  op_pre (LLock id ans) s → good ow (exec (LLock id ans) s).
Proof.
  intros (l & Hl & Hh). cbn. unfold lock_lock. rewrite (ld_run _ _ _ _ Hl). unfold nz.
  destruct (Z.eqb_spec (mp_mutex l) 0); cbn [negb orb]; [by apply good_same|].
  destruct (m_locked l) eqn:El; [by apply good_same|]. specialize (Hh n eq_refl).
  assert (idle_at s id) by (eapply idle_unlocked; [done|]; unfold owns; by rewrite El).
  rewrite call_void_run by (rewrite Hh; by destruct (l_mode l)).
  destruct ans; [| |by apply good_same];
    (apply good_acquire; [done|done|done|done|by destruct (l_mode l)]).
Qed.

(** [try_lock] and the timed variants. *)
Lemma lock_try_good id l call ans :
  objs s !! id = Some l → (mp_mutex l ≠ 0 → m_locked l = false → held s !! mp_mutex l = None) →
  before call = None → granted call = Some (l_mode l) →
  good ow (((l ← ld_lock id;
     if negb (nz (mp_mutex l)) || m_locked l then throw_lock_exception else
     b ← mutex_call (mp_mutex l) call ans;
     st_lock id (Lock (l_mode l) (mp_mutex l) b);; mret b);; mret ()) s).
Proof.
  intros Hl Hh Hb Hg.
  assert (∀ (m : L bool), good ow ((m;; mret ()) s) ↔
    good ow (match m s with (LOk _, s') => (LOk tt, s') | (LThrow, s') => (LThrow, s')
             | (LMutexThrew, s') => (LMutexThrew, s') | (LMisuse, s') => (LMisuse, s') end)) as Hbind.
  { intros m. unfold mbind, L_bind. by destruct (m s) as [[] ?]. }
  apply Hbind. rewrite (ld_run _ _ _ _ Hl). unfold nz.
  destruct (Z.eqb_spec (mp_mutex l) 0); cbn [negb orb]; [by apply good_same|].
  destruct (m_locked l) eqn:El; [by apply good_same|]. specialize (Hh n eq_refl).
  assert (idle_at s id) by (eapply idle_unlocked; [done|]; unfold owns; by rewrite El).
  rewrite call_run by (by rewrite Hh).
  destruct ans; [|by apply good_idle; [..|apply owns_val]|by apply good_same].
  rewrite Hg. by apply good_acquire.
Qed.

(** An owner unlocks; the object stays or goes. *)
Lemma good_lose r id l l' h' :
  r ≠ LMisuse → objs s !! id = Some l → owns l = true → owns l' = false → h' = delete (mp_mutex l) (held s) →
  good ow (r, LS (<[id := l']> (objs s)) h').
Proof.
  intros Hr Hl Ho Hl' ->. eapply good_ow; [done|by eapply lose|].
  intros i. apply user_delete. by eapply owner_user.
Qed.

Lemma lock_unlock_run id l :
  objs s !! id = Some l →
  lock_unlock id s =
    if owns l then (LOk tt, LS (<[id := Lock (l_mode l) (mp_mutex l) false]> (objs s)) (delete (mp_mutex l) (held s)))
    else (LThrow, s).
Proof.
  intros Hl. unfold lock_unlock. rewrite (ld_run _ _ _ _ Hl). destruct (owns l) eqn:Ho.
  - destruct (co_obj _ _ Hc _ _ Hl Ho) as [_ Eh]. unfold owns in Ho. apply andb_true_iff in Ho as [-> ->].
    cbn [negb orb]. rewrite call_void_run by (rewrite Eh; by destruct (l_mode l)).
    by destruct (l_mode l).
  - unfold owns in Ho. by destruct (m_locked l), (nz (mp_mutex l)).
Qed.

Lemma lock_unlock_good id : op_pre (LUnlock id) s → good ow (exec (LUnlock id) s).
Proof.
  intros [l Hl]. cbn. rewrite (lock_unlock_run id l Hl). destruct (owns l) eqn:Ho; [|by apply good_same].
  by eapply good_lose.
Qed.

Lemma lock_dtor_good id : op_pre (LDtor id) s → good ow (exec (LDtor id) s).
Proof.
  intros [l Hl]. cbn. unfold lock_dtor. rewrite (ld_run _ _ _ _ Hl). fold (owns l).
  destruct (owns l) eqn:Ho.
  - destruct (co_obj _ _ Hc _ _ Hl Ho) as [_ Eh].
    rewrite call_void_run by (rewrite Eh; by destruct (l_mode l)).
    pose proof (lose ow s Hc id l (Lock (l_mode l) 0 false) Hl Ho eq_refl) as Hc1.
    unfold rm_lock. cbn [objs held].
    eapply good_ow; [done| |intros i; apply user_delete; by eapply owner_user].
    pose proof (drop_idle _ _ Hc1 id) as Hd. cbn in Hd. rewrite delete_insert_eq in Hd.
    replace (set_owner (mp_mutex l) (granted (unlock_of (l_mode l))) (held s)) with
      (delete (mp_mutex l) (held s)) by (by destruct (l_mode l)).
    apply Hd. intros k Hk. cbn in Hk. rewrite lookup_insert_eq in Hk. by simplify_eq.
  - rewrite ret_run. apply good_same; [done|]. apply drop_idle; [done|]. by eapply idle_unlocked.
Qed.
End ops.

Lemma good_trans (ow ow1 : gmap Z (option Z)) out :
  (∀ m, ow1 !! m = Some None ↔ ow !! m = Some None) → good ow1 out → good ow out.
Proof.
  intros H1 [Hm (ow' & Hc & H2)]. split; [done|]. exists ow'. split; [done|]. intros m. by rewrite H2.
Qed.

(** The assignment once the target has let go of its mutex. *)
Lemma assign_tail_good (ow : gmap Z (option Z)) s id src l r :
  consistent ow s → objs s !! id = Some l → owns l = false → objs s !! src = Some r → l_mode l = l_mode r →
  good ow ((r ← ld_lock src;
            l ← ld_lock id;
            st_lock id (Lock (l_mode l) (mp_mutex l) (owns r));;
            m ← release src;
            l ← ld_lock id;
            st_lock id (Lock (l_mode l) m (m_locked l))) s).
Proof.
  intros Hc Hl Ho Hr Hmode. rewrite (ld_run _ _ _ _ Hr), (ld_run _ _ _ _ Hl), st_run.
  set (l1 := Lock (l_mode l) (mp_mutex l) (owns r)).
  pose proof (idle_unlocked _ _ _ Hl Ho) as Hid. destruct (decide (id = src)) as [<-|Hne].
  - assert (r = l) as -> by congruence. rewrite (release_run id l1) by apply lookup_insert_eq.
    rewrite (ld_run id (Lock (l_mode l1) 0 false)) by apply lookup_insert_eq. unfold st_lock. cbn [objs held].
    rewrite !insert_insert_eq. by apply good_idle.
  - rewrite (release_run src r) by (cbn; by rewrite lookup_insert_ne). cbn [objs held].
    rewrite (ld_run id l1) by (cbn; rewrite lookup_insert_ne by done; apply lookup_insert_eq).
    unfold st_lock. cbn [objs held l1 l_mode m_locked].
    rewrite (insert_insert_ne _ src id) by done. rewrite insert_insert_eq.
    destruct (owns r) eqn:Hor.
    + eapply good_transfer; try done. rewrite Hmode. by eapply held_same.
    + by apply good_idle2; [..|unfold owns].
Qed.

Lemma move_assign_good (ow : gmap Z (option Z)) s id src :
  consistent ow s → op_pre (LAssign id src) s → good ow (exec (LAssign id src) s).
Proof.
  intros Hc (l & r & Hl & Hr & Hmode). cbn. unfold move_assign. rewrite (ld_run _ _ _ _ Hl).
  destruct (owns l) eqn:Ho; [|rewrite ret_run; by eapply assign_tail_good].
  pose proof (lose ow s Hc id l (Lock (l_mode l) (mp_mutex l) false) Hl Ho eq_refl) as Hc1.
  eapply (good_trans ow (delete (mp_mutex l) ow)); [intros i; apply user_delete; by eapply owner_user|].
  set (l1 := Lock (l_mode l) (mp_mutex l) false) in *.
  set (s1 := LS (<[id := l1]> (objs s)) (delete (mp_mutex l) (held s))) in *.
  assert (lock_unlock id s = (LOk tt, s1)) as Eu by (rewrite (lock_unlock_run ow s Hc id l Hl), Ho; done).
  assert (∀ f : () → L (), (lock_unlock id ≫= f) s = f tt s1) as Ebind
    by (intros f; unfold mbind at 1, L_bind; by rewrite Eu).
  rewrite Ebind. destruct (decide (id = src)) as [<-|Hne].
  - eapply (assign_tail_good _ s1 id id l1 l1); [done|by apply lookup_insert_eq|done|by apply lookup_insert_eq|done].
  - eapply (assign_tail_good _ s1 id src l1 r); [done|by apply lookup_insert_eq|done| |done].
    cbn. by rewrite lookup_insert_ne.
Qed.

Lemma lock_swap_run s id id2 l l2 :
  objs s !! id = Some l → objs s !! id2 = Some l2 →
  lock_swap id id2 s = (LOk tt, LS (<[id2 := Lock (l_mode l2) (mp_mutex l) (m_locked l)]>
    (<[id := Lock (l_mode l) (mp_mutex l2) (m_locked l2)]> (objs s))) (held s)).
Proof.
  intros Hl Hl2. unfold lock_swap. rewrite (ld_run _ _ _ _ Hl), (ld_run _ _ _ _ Hl2), st_run.
  destruct (decide (id = id2)) as [<-|Hne].
  - assert (l2 = l) as -> by congruence.
    do 2 (erewrite ld_run; [|apply lookup_insert_eq]; rewrite ?st_run; cbn [objs held]).
    do 2 (erewrite ld_run; [|apply lookup_insert_eq]; rewrite ?st_run; cbn [objs held]).
    unfold st_lock. cbn. by rewrite !insert_insert_eq.
  - assert (∀ (o : gmap Z lock) (a b : lock), <[id2 := a]> (<[id := b]> o) !! id = Some b) as E1
      by (intros; rewrite lookup_insert_ne by done; apply lookup_insert_eq).
    rewrite (ld_run id2 l2) by (cbn; by rewrite lookup_insert_ne). rewrite st_run. cbn [objs held].
    erewrite ld_run; [|apply E1]. erewrite ld_run; [|apply lookup_insert_eq]. rewrite st_run. cbn [objs held].
    erewrite ld_run; [|cbn; rewrite lookup_insert_ne by done; apply lookup_insert_eq].
    unfold st_lock. cbn [objs held l_mode mp_mutex m_locked].
    rewrite (insert_insert_ne _ id id2) by done. by rewrite !insert_insert_eq.
Qed.

(** [swap] exchanges the responsibilities of the two objects. *)
Lemma lock_swap_good (ow : gmap Z (option Z)) s id id2 :
  consistent ow s → op_pre (LSwap id id2) s → good ow (exec (LSwap id id2) s).
Proof.
  intros Hc (l & l2 & Hl & Hl2 & Hmode). cbn. rewrite (lock_swap_run s id id2 l l2) by done.
  set (n2 := Lock (l_mode l2) (mp_mutex l) (m_locked l)). set (n1 := Lock (l_mode l) (mp_mutex l2) (m_locked l2)).
  assert (owns n2 = owns l) as O2 by done. assert (owns n1 = owns l2) as O1 by done.
  pose proof Hc as [H1 H2 H3].
  set (sw := λ i, if decide (i = id) then id2 else if decide (i = id2) then id else i).
  assert (∀ i, sw (sw i) = i) as Hsw by (intros i; unfold sw; repeat case_decide; congruence).
  eapply (good_ow ow ((λ o : option Z, sw <$> o) <$> ow)); [done| |].
  - assert (∀ i k, <[id2 := n2]> (<[id := n1]> (objs s)) !! i = Some k →
      ∃ k', objs s !! sw i = Some k' ∧ owns k = owns k' ∧ mp_mutex k = mp_mutex k' ∧ l_mode k = l_mode k') as Hnew.
    { intros i k Hk. unfold sw. ow_hyps.
      - exists l. destruct (decide (_ = id)) as [->|]; [|rewrite decide_True by done]; by rewrite Hmode.
      - exists l2. rewrite decide_True by done. done.
      - exists k. by rewrite !decide_False by done. }
    constructor; cbn [objs held].
    + intros m. rewrite lookup_fmap. rewrite <- (H1 m). destruct (ow !! m); cbn; split; intros []; eauto; done.
    + intros i k Hk Hok. destruct (Hnew _ _ Hk) as (k' & Hk' & Eo & Em & Emo). rewrite Hok in Eo.
      destruct (H2 _ _ Hk' (eq_sym Eo)) as [E1 E2]. rewrite lookup_fmap, Em, E1, Emo. cbn. by rewrite Hsw.
    + intros m i Hi. rewrite lookup_fmap in Hi. destruct (ow !! m) as [[j|]|] eqn:Ej; cbn in Hi; try done.
      injection Hi as Hi. destruct (H3 _ _ Ej) as (k & Hk & Hok & Em).
      assert (i = sw j) as -> by done. unfold sw. rewrite !lookup_insert.
      destruct (decide (j = id)) as [->|Hj1]; [rewrite decide_True by done; exists n2; split_and!; try done; cbn; congruence|].
      destruct (decide (j = id2)) as [->|Hj2].
      * rewrite decide_False by done. rewrite decide_True by done. exists n1. split_and!; cbn; congruence.
      * rewrite !decide_False by done. by exists k.
  - intros m. rewrite lookup_fmap. by destruct (ow !! m) as [[|]|].
Qed.

Lemma exec_good (ow : gmap Z (option Z)) s op : consistent ow s → op_pre op s → good ow (exec op s).
Proof.
  intros Hc Hpre. destruct op as [mo id|mo id m ans|mo id m|mo id m ans|mo id m ans|mo id src|mo call id src ans
    |mo call id src ans|id|id src|id ans|id ans|id ans|id|id id2].
  - apply good_idle; [done|done|by apply idle_none|done].
  - by apply lock_ctor_good.
  - apply good_idle; [done|done|by apply idle_none|done].
  - destruct Hpre as (? & ? & ?). apply try_ctor_good; try done; by destruct mo.
  - destruct Hpre as (? & ? & ?). apply try_ctor_good; try done; by destruct mo.
  - by apply move_ctor_good.
  - by apply convert_ctor_good.
  - by apply try_convert_ctor_good.
  - by apply lock_dtor_good.
  - by apply move_assign_good.
  - by apply lock_lock_good.
  - destruct Hpre as (l & Hl & Hh). cbn [exec]. unfold lock_try_lock.
    assert (∀ call, (call = try_lock_of (l_mode l)) → before call = None ∧ granted call = Some (l_mode l)) as Hcall
      by (intros ? ->; by destruct (l_mode l)).
    destruct (Hcall _ eq_refl) as [Hb Hg]. pose proof (lock_try_good ow s Hc id l _ ans Hl Hh Hb Hg) as H.
    erewrite bind_same; [exact H|]. by rewrite !(ld_run _ _ _ _ Hl).
  - destruct Hpre as (l & Hl & Hh). cbn [exec]. unfold lock_timed_lock.
    assert (∀ call, (call = timed_lock_of (l_mode l)) → before call = None ∧ granted call = Some (l_mode l)) as Hcall
      by (intros ? ->; by destruct (l_mode l)).
    destruct (Hcall _ eq_refl) as [Hb Hg]. pose proof (lock_try_good ow s Hc id l _ ans Hl Hh Hb Hg) as H.
    erewrite bind_same; [exact H|]. by rewrite !(ld_run _ _ _ _ Hl).
  - by apply lock_unlock_good.
  - by apply lock_swap_good.
Qed.

(** What a thread can do with locks: any sequence of operations, each called
    within its precondition, whatever the mutexes answer; and besides, the user
    can take a mutex out of a lock object with [release], lock and unlock one
    directly, and hand one to a new lock object with [accept_ownership].  The set
    holds the mutexes the user is responsible for. *)
Inductive lock_run : lstate → gset Z → Prop :=
| run_start : lock_run (LS ∅ ∅) ∅
| run_op s U op r s' : lock_run s U → op_pre op s → exec op s = (r, s') → lock_run s' U
| run_release s U id l m s' :
    lock_run s U → objs s !! id = Some l → release id s = (LOk m, s') →
    lock_run s' (if owns l then {[m]} ∪ U else U)
| run_accept s U mo id m r s' :
    lock_run s U → objs s !! id = None → m ≠ 0 → m ∈ U → held s !! m = Some mo →
    accept_ctor mo id m s = (r, s') → lock_run s' (U ∖ {[m]})
| run_user_lock s U mo m s' :
    lock_run s U → held s !! m = None → mutex_call_void m (lock_of mo) AnsTrue s = (LOk tt, s') →
    lock_run s' ({[m]} ∪ U)
| run_user_unlock s U mo m s' :
    lock_run s U → m ∈ U → held s !! m = Some mo → mutex_call_void m (unlock_of mo) AnsTrue s = (LOk tt, s') →
    lock_run s' (U ∖ {[m]}).

Lemma call_void_same m call ans s :
  mutex_call_void m call ans s = (mutex_call_void m call ans ≫= λ x, mret x) s.
Proof. unfold mbind, L_bind. by destruct (mutex_call_void m call ans s) as [[] ?]. Qed.

Lemma lock_run_consistent s U :
  lock_run s U → ∃ ow, consistent ow s ∧ ∀ m, ow !! m = Some None ↔ m ∈ U.
Proof.
  induction 1 as [|s U op r s' _ (ow & Hc & Hu) Hpre E|s U id l m s' _ (ow & Hc & Hu) Hl E
    |s U mo id m r s' _ (ow & Hc & Hu) Hid Hm Hin Hh E|s U mo m s' _ (ow & Hc & Hu) Hh E
    |s U mo m s' _ (ow & Hc & Hu) Hin Hh E].
  - exists ∅. split; [constructor|intros m; rewrite lookup_empty; set_solver]; cbn.
    + intros m. rewrite !lookup_empty. split; intros [? [=]].
    + intros id l. by rewrite lookup_empty.
    + intros m id. by rewrite lookup_empty.
  - destruct (exec_good ow s op Hc Hpre) as [_ (ow' & Hc' & Hu')]. rewrite E in Hc'. exists ow'.
    split; [done|]. intros m. by rewrite Hu'.
  - unfold release in E. rewrite (ld_run _ _ _ _ Hl), st_run in E. injection E as <- <-.
    destruct (owns l) eqn:Ho.
    + exists (<[mp_mutex l := None]> ow). split; [by apply to_user|].
      intros i. rewrite lookup_insert. case_decide; subst; set_solver.
    + exists ow. split; [|done]. apply put_idle; [done| |done]. by eapply idle_unlocked.
  - injection E as <- <-. exists (<[m := Some id]> ow). split.
    + apply (from_user ow s Hc id (Lock mo m true)); [by apply idle_none|by apply owns_val|by apply Hu|done].
    + intros i. rewrite lookup_insert. case_decide; subst; set_solver.
  - rewrite call_void_same, call_void_run in E by (rewrite Hh; by destruct mo). injection E as <-.
    exists (<[m := None]> ow). assert (upgr_granted (lock_of mo) = Some mo) as -> by (by destruct mo).
    split; [by apply user_locks|]. intros i. rewrite lookup_insert. case_decide; subst; set_solver.
  - rewrite call_void_same, call_void_run in E by (rewrite Hh; by destruct mo). injection E as <-.
    exists (delete m ow). assert (upgr_granted (unlock_of mo) = None) as -> by (by destruct mo).
    split; [by apply user_unlocks, Hu|]. intros i. rewrite lookup_delete. case_decide; subst; set_solver.
Qed.

(** ** The theorems *)

(** The states in which [lock_exception] is thrown. *)
Lemma lock_exceptions (ow : gmap Z (option Z)) (s : lstate) (id : Z) (l : lock) (ans : answer) :
  consistent ow s → objs s !! id = Some l →
  (mp_mutex l ≠ 0 → m_locked l = false → held s !! mp_mutex l = None) →
  let bad := negb (nz (mp_mutex l)) || m_locked l in
  (fst (lock_lock id ans s) = LThrow ↔ bad = true) ∧
  (fst (lock_try_lock id ans s) = LThrow ↔ bad = true) ∧
  (fst (lock_timed_lock id ans s) = LThrow ↔ bad = true) ∧
  (fst (lock_unlock id s) = LThrow ↔ owns l = false) ∧
  (bad = true → snd (lock_lock id ans s) = s ∧ snd (lock_try_lock id ans s) = s ∧
                snd (lock_timed_lock id ans s) = s) ∧
  (owns l = false → snd (lock_unlock id s) = s).
Proof.
  intros Hc Hl Hh bad.
  assert (bad = false → held s !! mp_mutex l = None) as Hfree.
  { unfold bad, nz. destruct (Z.eqb_spec (mp_mutex l) 0), (m_locked l); cbn; try done. auto. }
  unfold lock_lock, lock_try_lock, lock_timed_lock. rewrite !(ld_run _ _ _ _ Hl), (lock_unlock_run ow s Hc id l Hl).
  fold bad. destruct bad.
  - split_and!; try done; by destruct (owns l).
  - specialize (Hfree eq_refl).
    rewrite call_void_run, !call_run by (rewrite Hfree; by destruct (l_mode l)).
    split_and!; try done; try (by destruct ans); by destruct (owns l).
Qed.

(** C39: RAII.  In every run of lock operations (constructors, conversions,
    moves, swaps, locking and unlocking members, destructors) in which the thread
    acquires no mutex it already owns, and in which the user may also take
    mutexes out of lock objects with [release], lock and unlock mutexes directly
    and hand those to lock objects with [accept_ownership]: no operation of a
    lock object violates a precondition of the mutex; every mutex the thread owns
    is either the user's own responsibility or is owned through exactly one lock
    object, in the mode of its class; and when all lock objects are gone, the
    thread owns exactly the mutexes the user took the responsibility for, nothing
    if there are none.  [lock_exception] is thrown exactly as documented and
    without effect: by the locking members when the object has no mutex or is
    already locked, by [unlock] when it does not own its mutex. *)
Theorem lock_raii (s : lstate) (U : gset Z) :
  lock_run s U →
  (∀ op, op_pre op s → fst (exec op s) ≠ LMisuse) ∧
  (∀ m mo, m ∉ U → (held s !! m = Some mo ↔
     ∃ id l, objs s !! id = Some l ∧ owns l = true ∧ mp_mutex l = m ∧ l_mode l = mo)) ∧
  (∀ m, m ∈ U → is_Some (held s !! m) ∧
     ∀ id l, objs s !! id = Some l → owns l = true → mp_mutex l ≠ m) ∧
  (∀ id id' l l', objs s !! id = Some l → objs s !! id' = Some l' → owns l = true → owns l' = true →
     mp_mutex l = mp_mutex l' → id = id') ∧
  (objs s = ∅ → dom (held s) = U) ∧
  (∀ id l ans, objs s !! id = Some l →
     (mp_mutex l ≠ 0 → m_locked l = false → held s !! mp_mutex l = None) →
     let bad := negb (nz (mp_mutex l)) || m_locked l in
     (fst (lock_lock id ans s) = LThrow ↔ bad = true) ∧
     (fst (lock_try_lock id ans s) = LThrow ↔ bad = true) ∧
     (fst (lock_timed_lock id ans s) = LThrow ↔ bad = true) ∧
     (fst (lock_unlock id s) = LThrow ↔ owns l = false) ∧
     (bad = true → snd (lock_lock id ans s) = s ∧ snd (lock_try_lock id ans s) = s ∧
                   snd (lock_timed_lock id ans s) = s) ∧
     (owns l = false → snd (lock_unlock id s) = s)).
Proof.
  intros (ow & Hc & Hu)%lock_run_consistent. pose proof Hc as [H1 H2 H3].
  assert (∀ m mo, held s !! m = Some mo → m ∉ U →
     ∃ id l, objs s !! id = Some l ∧ owns l = true ∧ mp_mutex l = m ∧ l_mode l = mo) as Hown.
  { intros m mo Hm HU. destruct (proj2 (H1 m)) as [[id|] E]; [by rewrite Hm| |by apply Hu in E].
    destruct (H3 _ _ E) as (l & Hl & Ho & <-). destruct (H2 _ _ Hl Ho) as [_ E2].
    exists id, l. split_and!; try done. congruence. }
  split_and!.
  - intros op Hpre. by destruct (exec_good ow s op Hc Hpre).
  - intros m mo HU. split; [by intros; apply Hown|]. intros (id & l & Hl & Ho & <- & <-). by destruct (H2 _ _ Hl Ho).
  - intros m Hm%Hu. split; [apply H1; by rewrite Hm|]. intros id l Hl Ho <-. destruct (H2 _ _ Hl Ho). congruence.
  - intros id id' l l' Hl Hl' Ho Ho' Em. destruct (H2 _ _ Hl Ho) as [E _].
    destruct (H2 _ _ Hl' Ho') as [E' _]. rewrite Em in E. congruence.
  - intros He. apply set_eq. intros m. rewrite elem_of_dom. split.
    + intros [mo E]. destruct (decide (m ∈ U)) as [|HU]; [done|].
      apply Hown in E as (id & l & Hl & _); [|done]. by rewrite He, lookup_empty in Hl.
    + intros Hm%Hu. apply H1. by rewrite Hm.
  - intros id l ans. by apply lock_exceptions with (ow := ow).
Qed.

(** One lock object has a sharable mutex, one nothing, and the user has taken a
    third mutex out of a lock object. *)
Definition demo_locks1 : lstate := snd (exec (LCtor Sharable 1 4096 AnsTrue) (LS ∅ ∅)).
Definition demo_locks2 : lstate := snd (exec (LDefault Upgradable 2) demo_locks1).
Definition demo_locks3 : lstate := snd (exec (LTry Exclusive 3 8192 AnsTrue) demo_locks2).
Definition demo_locks : lstate := snd (release 3 demo_locks3).

Lemma run_exec s U op : lock_run s U → op_pre op s → lock_run (snd (exec op s)) U.
Proof. intros Hs Hp. eapply run_op; [exact Hs|exact Hp|apply surjective_pairing]. Qed.

Lemma demo_locks_run : lock_run demo_locks {[8192]}.
Proof.
  assert (lock_run demo_locks3 ∅) as Hr.
  { apply run_exec; [apply run_exec; [apply run_exec; [apply run_start|]|]|]; by repeat split. }
  assert ({[8192]} = (if owns (Lock Exclusive 8192 true) then {[8192]} ∪ ∅ else ∅ : gset Z)) as ->
    by (cbn; by rewrite union_empty_r_L).
  by apply (run_release demo_locks3 ∅ 3 (Lock Exclusive 8192 true) 8192).
Qed.

Lemma lock_raii_witness :
  held demo_locks !! 4096 = Some Sharable ∧
  (∃ id l, objs demo_locks !! id = Some l ∧ owns l = true ∧ mp_mutex l = 4096 ∧ l_mode l = Sharable) ∧
  is_Some (held demo_locks !! 8192) ∧
  fst (exec (LTry Sharable 4 12288 AnsTrue) demo_locks) ≠ LMisuse ∧ fst (exec (LDtor 1) demo_locks) ≠ LMisuse ∧
  fst (lock_lock 1 AnsTrue demo_locks) = LThrow ∧ fst (lock_lock 2 AnsTrue demo_locks) = LThrow.
Proof.
  destruct (lock_raii demo_locks {[8192]} demo_locks_run) as (H1 & H2 & H3 & _ & _ & H5).
  split; [reflexivity|]. split; [by apply H2|]. split; [by apply H3, elem_of_singleton|].
  split; [apply H1; split_and!; done|]. split; [apply H1; by eexists|]. split.
  - by apply (H5 1 (Lock Sharable 4096 true) AnsTrue).
  - by apply (H5 2 (Lock Upgradable 0 false) AnsTrue).
Defined.

(** The conversions by a try or timed call discard the mutex of a source that
    owns nothing, where the documentation promises that the new lock refers to
    it. *)
Theorem try_conversion_forgets_mutex :
  let s := snd (upgradable_lock_defer 1 4096 (LS ∅ ∅)) in
  let s' := snd (scoped_lock_try_from_upgradable 2 1 AnsTrue s) in
  objs s !! 1 = Some (Lock Upgradable 4096 false) ∧
  objs s' !! 1 = Some (Lock Upgradable 0 false) ∧ objs s' !! 2 = Some (Lock Exclusive 0 false).
Proof. by vm_compute. Qed.
