(* ===== verification/Atomic.v ===== *)
(** Atomic words and threads that interleave between atomic accesses.

    The spin primitives (sync/spin) synchronise through 32-bit words accessed
    with the functions of detail/atomic.hpp.  A thread is a program counter
    with its local variables; a component gives, for every program counter,
    what the next access does.  Whatever is not determined by the code (the
    call a thread makes next, whether the clock has passed a deadline) is a
    [choice] of the schedule, so that a schedule determines the run and runs
    can be evaluated. *)

From S2P Require Import Prelude.

(** ** detail/atomic.hpp

    Each function gives the value it returns and the new value of the word. *)

Definition u32 (x : Z) : Z := x mod 4294967296.
Definition in_u32 (x : Z) : Prop := 0 <= x < 4294967296.

Definition atomic_inc32 (mem : Z) : Z * Z := (mem, u32 (mem + 1)).
Definition atomic_dec32 (mem : Z) : Z * Z := (mem, u32 (mem - 1)).
Definition atomic_cas32 (with_ cmp mem : Z) : Z * Z := (mem, if mem =? cmp then with_ else mem).
Definition atomic_write32 (val mem : Z) : Z := val.
Definition atomic_read32 (mem : Z) : Z := mem.

Lemma u32_small x : in_u32 x → u32 x = x.
Proof. unfold u32, in_u32. intros H. apply Z.mod_small. lia. Qed.

Lemma u32_range x : in_u32 (u32 x).
Proof. unfold u32, in_u32. apply Z.mod_pos_bound. lia. Qed.

(** ** Schedules *)

Section interleaving.
Context {Sh Loc Choice Ev : Type}.
(** [next t ch l sh] is the access of thread [t] at [l]; [None] if the choice
    does not fit the place or the thread cannot move. *)
Context (next : nat → Choice → Loc → Sh → option (Loc * Sh * list Ev)).

Record asys := ASys { a_shared : Sh; a_threads : list Loc }.

Definition astep (t : nat) (ch : Choice) (st : asys) : option (asys * list Ev) :=
  l ← a_threads st !! t;
  '(l', sh', ev) ← next t ch l (a_shared st);
  Some (ASys sh' (<[t := l']> (a_threads st)), ev).

(** The state after a schedule and the events on the way. *)
Fixpoint arun (sched : list (nat * Choice)) (st : asys) : option (asys * list Ev) :=
  match sched with
  | [] => Some (st, [])
  | (t, ch) :: sched =>
      '(st1, ev1) ← astep t ch st;
      '(st2, ev2) ← arun sched st1;
      Some (st2, ev1 ++ ev2)
  end.

Lemma astep_inv t ch sh ts st' ev :
  astep t ch (ASys sh ts) = Some (st', ev) →
  ∃ l l' sh', ts !! t = Some l ∧ next t ch l sh = Some (l', sh', ev) ∧ st' = ASys sh' (<[t := l']> ts).
Proof.
  unfold astep. cbn. destruct (ts !! t) as [l|] eqn:Hl; [cbn|done].
  destruct (next t ch l sh) as [[[l' sh'] ev']|] eqn:Hn; [cbn|done].
  intros [= <- <-]. by exists l, l', sh'.
Qed.

(** Induction over the run, the events included; [P] holds of the choices. *)
Lemma arun_ind_on (P : Choice → Prop) (I : asys → list Ev → Prop) :
  (∀ st es t ch st' ev, P ch → I st es → astep t ch st = Some (st', ev) → I st' (es ++ ev)) →
  ∀ sched st0 st ev, Forall (λ tc, P tc.2) sched → I st0 [] → arun sched st0 = Some (st, ev) → I st ev.
Proof.
  intros Hstep sched st0 st ev HP H0 Hrun.
  enough (∀ sched es st0 st ev, Forall (λ tc, P tc.2) sched → I st0 es → arun sched st0 = Some (st, ev) → I st (es ++ ev)) as H
    by exact (H sched [] st0 st ev HP H0 Hrun).
  clear - Hstep. induction sched as [|[t ch] sched IH]; intros es st0 st ev HP H0 Hrun; cbn in Hrun.
  - injection Hrun as <- <-. by rewrite app_nil_r.
  - apply Forall_cons in HP as [Hch HP].
    destruct (astep t ch st0) as [[st1 ev1]|] eqn:E1; [cbn in Hrun|done].
    destruct (arun sched st1) as [[st2 ev2]|] eqn:E2; [cbn in Hrun|done].
    injection Hrun as <- <-. rewrite app_assoc. eapply IH; [done| |done]. by eapply Hstep.
Qed.

Lemma arun_ind (I : asys → list Ev → Prop) :
  (∀ st es t ch st' ev, I st es → astep t ch st = Some (st', ev) → I st' (es ++ ev)) →
  ∀ sched st0 st ev, I st0 [] → arun sched st0 = Some (st, ev) → I st ev.
Proof.
  intros Hstep sched st0 st ev. apply (arun_ind_on (λ _, True)); [|by apply Forall_true].
  intros ?????? _. apply Hstep.
Qed.
End interleaving.
Arguments asys : clear implicits.
Arguments ASys {Sh Loc} _ _.

(** [n] threads that do nothing count for nothing. *)
Lemma tcount_replicate {A} (f : A → bool) n x : f x = false → tcount f (replicate n x) = 0.
Proof. intros Hf. induction n as [|n IH]; simpl; [done|]. rewrite Hf. simpl. lia. Qed.

Lemma tcount_app {A} (f : A → bool) l1 l2 : tcount f (l1 ++ l2) = tcount f l1 + tcount f l2.
Proof. induction l1 as [|x l1 IH]; simpl; [done|]. rewrite IH. lia. Qed.

(** ** Sums over threads *)

Fixpoint tsum {A} (f : A → Z) (l : list A) : Z :=
  match l with [] => 0 | x :: l => f x + tsum f l end.

Lemma tsum_nonneg {A} (f : A → Z) l : (∀ x, 0 <= f x) → 0 <= tsum f l.
Proof. intros Hf. induction l as [|x l IH]; simpl; [lia|]. pose proof (Hf x). lia. Qed.

Lemma tsum_split {A} (f : A → Z) (l : list A) t x y :
  (∀ x, 0 <= f x) → l !! t = Some x →
  ∃ r, 0 <= r ∧ tsum f l = r + f x ∧ tsum f (<[t := y]> l) = r + f y.
Proof.
  intros Hf. revert t. induction l as [|z l IH]; intros [|t] Ht; simpl in *; try done.
  - injection Ht as ->. exists (tsum f l). pose proof (tsum_nonneg f l Hf). lia.
  - destruct (IH t Ht) as (r & Hr & E1 & E2). exists (f z + r). pose proof (Hf z). lia.
Qed.

Lemma tsum_app {A} (f : A → Z) l1 l2 : tsum f (l1 ++ l2) = tsum f l1 + tsum f l2.
Proof. induction l1 as [|x l1 IH]; simpl; [done|]. rewrite IH. lia. Qed.

Lemma tcount_length {A} (f : A → bool) l : tcount f l <= Z.of_nat (length l).
Proof. induction l as [|x l IH]; simpl; [lia|]. destruct (f x); cbn; lia. Qed.

Lemma tcount_none {A} (f : A → bool) ts : (∀ t x, ts !! t = Some x → f x = false) → tcount f ts = 0.
Proof.
  intros H. destruct (Z.eq_dec (tcount f ts) 0) as [|Hne]; [done|]. pose proof (tcount_nonneg f ts).
  destruct (tcount_exists f ts) as (t & x & Ht & Hf); [lia|]. by rewrite (H t x Ht) in Hf.
Qed.

Lemma tsum_none {A} (f : A → Z) ts : (∀ t x, ts !! t = Some x → f x = 0) → tsum f ts = 0.
Proof.
  induction ts as [|x ts IH]; intros H; [done|]. cbn. rewrite (H 0%nat x) by done. rewrite IH; [done|]. intros t y Hy. by apply (H (S t)).
Qed.

Lemma tcount_ext {A} (f g : A → bool) ts : (∀ t x, ts !! t = Some x → f x = g x) → tcount f ts = tcount g ts.
Proof.
  induction ts as [|x ts IH]; intros H; [done|]. cbn. rewrite (H 0%nat x) by done. rewrite IH; [done|]. intros t y Hy. by apply (H (S t)).
Qed.
