(* ===== verification/SpinSync.v ===== *)
(** sync/spin/mutex.hpp, sync/spin/recursive_mutex.hpp and
    sync/spin/semaphore.hpp, with the loops of sync/detail/common_algorithms.hpp,
    at the granularity of single atomic accesses. *)

From S2P Require Import Prelude Atomic.

(** ** [spin_mutex] *)

(** The entry points: [try_lock], [lock] (through [try_based_lock]) and
    [timed_lock] (through [try_based_timed_lock]). *)
Inductive how := CTry | CLock | CTimed.

(** [try_based_timed_lock] with an infinite deadline calls [lock]. *)
Definition spin_timed_lock (infinite : bool) : how := if infinite then CLock else CTimed.

Inductive spin_loc :=
| SIdle                               (** not in the mutex and not its owner *)
| STry (h : how)                      (** before the compare-and-swap of [try_lock] *)
| STryRead (h : how) (prev_s : Z)     (** before the read of [m_s] in its [return] *)
| SHeld                               (** owner *)
| SUnlock.                            (** before the compare-and-swap of [unlock] *)

(** What a thread does next: an idle one makes a call, one whose [try_lock]
    failed looks at the clock, an owner releases the mutex. *)
Inductive spin_choice := SCall (h : how) | SClock (late : bool) | SRelease | SGo.

(** [try_lock]: its compare-and-swap, and the value it returns. *)
Definition spin_try_lock_cas (m_s : Z) : Z * Z := atomic_cas32 1 0 m_s.
Definition spin_try_lock_result (prev_s m_s : Z) : bool := (m_s =? 1) && (prev_s =? 0).

(** [unlock] *)
Definition spin_unlock (m_s : Z) : Z := snd (atomic_cas32 0 1 m_s).

(** After a [try_lock] that returned false: [try_based_lock] tries again,
    [try_based_timed_lock] does so unless the deadline has passed. *)
Definition try_based_retry (h : how) (late : bool) : spin_loc :=
  match h with
  | CTry => SIdle
  | CLock => STry CLock
  | CTimed => if late then SIdle else STry CTimed
  end.

Definition spin_next (_ : nat) (ch : spin_choice) (l : spin_loc) (m_s : Z)
  : option (spin_loc * Z * list Empty_set) :=
  match l, ch with
  | SIdle, SCall h => Some (STry h, m_s, [])
  | STry h, SGo =>
      let '(prev_s, m_s) := spin_try_lock_cas m_s in Some (STryRead h prev_s, m_s, [])
  | STryRead h prev_s, SClock late =>
      Some (if spin_try_lock_result prev_s m_s then SHeld else try_based_retry h late, m_s, [])
  | SHeld, SRelease => Some (SUnlock, m_s, [])
  | SUnlock, SGo => Some (SIdle, spin_unlock m_s, [])
  | _, _ => None
  end.

Definition spin_start (n : nat) : asys Z spin_loc := ASys 0 (replicate n SIdle).

(** The threads between a compare-and-swap that set the word and the one that
    clears it. *)
Definition spin_owner (l : spin_loc) : bool :=
  match l with
  | SHeld | SUnlock => true
  | STryRead _ prev_s => prev_s =? 0
  | _ => false
  end.

Definition spin_inv (st : asys Z spin_loc) (_ : list Empty_set) : Prop :=
  a_shared st = tcount spin_owner (a_threads st) ∧ a_shared st <= 1.

Lemma spin_step_inv st es t ch st' ev :
  spin_inv st es → astep spin_next t ch st = Some (st', ev) → spin_inv st' (es ++ ev).
Proof.
  destruct st as [m ts]. intros [H1 H2] (l & l' & m' & Ht & Hn & ->)%astep_inv. cbn in H1, H2.
  unfold spin_inv. cbn [a_shared a_threads].
  destruct (tcount_split spin_owner ts t l l' Ht) as (r & Hr & E & ->). rewrite E in H1.
  destruct l as [|h|h prev| |], ch as [h'|late| |]; try discriminate Hn;
    cbn in Hn; injection Hn as <- <- _; cbn in *.
  - lia.
  - destruct (Z.eqb_spec m 0); cbn; lia.
  - unfold spin_try_lock_result.
    destruct (Z.eqb_spec prev 0); cbn in *; [|rewrite andb_false_r; destruct h, late; cbn; lia].
    destruct (Z.eqb_spec m 1); cbn; [lia|]. lia.
  - lia.
  - unfold spin_unlock. cbn. destruct (Z.eqb_spec m 1); lia.
Qed.

Lemma spin_run_inv n sched st ev : arun spin_next sched (spin_start n) = Some (st, ev) → spin_inv st ev.
Proof.
  apply arun_ind; [apply spin_step_inv|]. split; cbn; [|lia]. by rewrite tcount_replicate.
Qed.

(** [spin_mutex] under any interleaving of its atomic accesses: at most one
    thread owns it, the word is 1 exactly while a thread owns it or is about to
    return from a successful [try_lock], the second read of the word never
    turns a success into a failure, and a thread that tries to lock a free
    mutex owns it after its two accesses. *)
Lemma spin_mutex_exclusion (n : nat) (sched : list (nat * spin_choice)) st ev :
  arun spin_next sched (spin_start n) = Some (st, ev) →
  (∀ t t', a_threads st !! t = Some SHeld → a_threads st !! t' = Some SHeld → t = t') ∧
  (a_shared st = 1 ↔ ∃ t l, a_threads st !! t = Some l ∧ spin_owner l = true) ∧
  (∀ t h prev_s, a_threads st !! t = Some (STryRead h prev_s) →
     spin_try_lock_result prev_s (a_shared st) = (prev_s =? 0)) ∧
  (∀ t h late, a_shared st = 0 → a_threads st !! t = Some (STry h) →
     ∃ st', arun spin_next [(t, SGo); (t, SClock late)] st = Some (st', []) ∧
            a_threads st' !! t = Some SHeld).
Proof.
  intros [H1 H2]%spin_run_inv. destruct st as [m ts]. cbn in *. split_and!.
  - intros t t' Ht Ht'. destruct (decide (t = t')) as [|Hne]; [done|exfalso].
    pose proof (tcount_two spin_owner ts t t' _ _ Hne Ht Ht' eq_refl eq_refl). lia.
  - split.
    + intros Hm. destruct (tcount_exists spin_owner ts) as (t & l & Ht & Hl); [lia|by exists t, l].
    + intros (t & l & Ht & Hl). pose proof (tcount_pos _ _ _ _ Ht Hl). lia.
  - intros t h prev Ht. unfold spin_try_lock_result. destruct (Z.eqb_spec prev 0) as [->|]; [|by rewrite andb_false_r].
    pose proof (tcount_pos spin_owner ts t _ Ht eq_refl). destruct (Z.eqb_spec m 1); [done|lia].
  - intros t h late -> Ht. pose proof (lookup_lt_Some _ _ _ Ht) as Hlt.
    eexists. unfold astep. cbn. rewrite Ht. cbn. rewrite list_lookup_insert_eq by done. cbn.
    split; [done|]. cbn. rewrite list_lookup_insert_eq; [done|by rewrite length_insert].
Qed.

Definition spin_demo : list (nat * spin_choice) :=
  [(0%nat, SCall CLock); (1%nat, SCall CTimed); (0%nat, SGo); (1%nat, SGo); (1%nat, SClock false);
   (0%nat, SClock false)].

Lemma spin_mutex_exclusion_demo :
  arun spin_next spin_demo (spin_start 2) = Some (ASys 1 [SHeld; STry CTimed], []) ∧
  ∃ t l, [SHeld; STry CTimed] !! t = Some l ∧ spin_owner l = true.
Proof.
  split; [vm_compute; reflexivity|].
  destruct (spin_mutex_exclusion 2 spin_demo (ASys 1 [SHeld; STry CTimed]) []) as (_ & H & _);
    [vm_compute; reflexivity|].
  apply H. reflexivity.
Defined.

(** ** [spin_semaphore] *)

Inductive sem_loc :=
| PIdle
| PRead (h : how)              (** before the read of [atomic_add_unless32] *)
| PCas (h : how) (c : Z)       (** before its compare-and-swap, with [c] read *)
| PPost.                       (** before the increment of [post] *)

Inductive sem_choice := PWait (h : how) | PCallPost | PClock (late : bool).
Inductive sem_event := Posted | Acquired | Failed.

(** [atomic_add_unless32(&m_count, -1, 0)] inside of [try_wait]: after the word
    was seen as [c], either the swap is tried or [false] is returned, in which
    case [wait] and [timed_wait] may try again. *)
Definition sem_seen (h : how) (c : Z) (late : bool) : sem_loc * list sem_event :=
  if c =? 0 then
    match h with
    | CTry => (PIdle, [Failed])
    | CLock => (PRead CLock, [])
    | CTimed => if late then (PIdle, [Failed]) else (PRead CTimed, [])
    end
  else (PCas h c, []).

Definition spin_semaphore_post (m_count : Z) : Z := snd (atomic_inc32 m_count).

Definition sem_next (_ : nat) (ch : sem_choice) (l : sem_loc) (m_count : Z)
  : option (sem_loc * Z * list sem_event) :=
  match l, ch with
  | PIdle, PWait h => Some (PRead h, m_count, [])
  | PIdle, PCallPost => Some (PPost, m_count, [])
  | PRead h, PClock late =>
      let '(l, ev) := sem_seen h (atomic_read32 m_count) late in Some (l, m_count, ev)
  | PCas h c, PClock late =>
      let '(old, m_count) := atomic_cas32 (u32 (c + u32 (-1))) c m_count in
      if old =? c then Some (PIdle, m_count, [Acquired])
      else let '(l, ev) := sem_seen h old late in Some (l, m_count, ev)
  | PPost, _ => Some (PIdle, spin_semaphore_post m_count, [Posted])
  | _, _ => None
  end.

Definition sem_start (initialCount : Z) (n : nat) : asys Z sem_loc :=
  ASys (atomic_write32 (u32 initialCount) 0) (replicate n PIdle).

Definition posted (e : sem_event) : bool := match e with Posted => true | _ => false end.
Definition acquired (e : sem_event) : bool := match e with Acquired => true | _ => false end.

(** What thread-local code knows: the value it read is not zero. *)
Definition sem_local_ok (l : sem_loc) : bool :=
  match l with PCas _ c => (0 <? c) && (c <? 4294967296) | _ => true end.

Definition sem_inv (initial : Z) (st : asys Z sem_loc) (es : list sem_event) : Prop :=
  in_u32 (a_shared st) ∧ tcount (λ l, negb (sem_local_ok l)) (a_threads st) = 0 ∧
  (initial + tcount posted es < 4294967296 →
   a_shared st = initial + tcount posted es - tcount acquired es).

Lemma sem_step_inv initial st es t ch st' ev :
  sem_inv initial st es → astep sem_next t ch st = Some (st', ev) → sem_inv initial st' (es ++ ev).
Proof.
  destruct st as [m ts]. intros (H1 & H2 & H3) (l & l' & m' & Ht & Hn & ->)%astep_inv. cbn in H1, H2, H3.
  unfold sem_inv. cbn [a_shared a_threads]. rewrite !tcount_app. pose proof (tcount_nonneg posted ev).
  destruct (tcount_split (λ l, negb (sem_local_ok l)) ts t l l' Ht) as (r & Hr & E & ->). rewrite E in H2.
  assert (sem_local_ok l = true) as Hl by (destruct (sem_local_ok l); [done|cbn in H2; lia]).
  assert (r = 0) as -> by (rewrite Hl in H2; cbn in H2; lia). clear E H2.
  assert (∀ h c late l ev, in_u32 c → sem_seen h c late = (l, ev) →
    sem_local_ok l = true ∧ tcount posted ev = 0 ∧ tcount acquired ev = 0) as Hseen.
  { intros h c late l0 ev0 Hc. unfold sem_seen. destruct (Z.eqb_spec c 0).
    - destruct h; [|..|destruct late]; by intros [= <- <-].
    - intros [= <- <-]. split; [|done]. cbn. unfold in_u32 in Hc. apply andb_true_iff. lia. }
  assert (Some (PIdle, spin_semaphore_post m, [Posted]) = Some (l', m', ev) →
    in_u32 m' ∧ b2z (negb (sem_local_ok l')) + 0 = 0 ∧
    (initial + (tcount posted es + tcount posted ev) < 4294967296 →
     m' = initial + (tcount posted es + tcount posted ev) - (tcount acquired es + tcount acquired ev))) as Hpost.
  { intros [= <- <- <-]. unfold spin_semaphore_post. cbn. split_and!; [apply u32_range|done|].
    intros Hb. rewrite u32_small; [lia|]. unfold in_u32 in *. pose proof (tcount_nonneg acquired es). lia. }
  destruct l as [|h|h c|], ch as [h'| |late]; try discriminate Hn; cbn in Hn; unfold atomic_read32 in Hn.
  1-2: injection Hn as <- <- <-; cbn; split_and!; [done|lia|intros; lia].
  - destruct (sem_seen h m late) as [l0 ev0] eqn:Es. injection Hn as <- <- <-.
    apply Hseen in Es as (-> & Ep & Ea); [|done]. rewrite Ep, Ea in *. split_and!; [done|done|intros; lia].
  - cbn in Hl. apply andb_true_iff in Hl as [Hc1 Hc2]. apply Z.ltb_lt in Hc1, Hc2.
    destruct (Z.eqb_spec m c) as [->|Hne].
    + injection Hn as <- <- <-. change (u32 (-1)) with 4294967295.
      assert (u32 (c + 4294967295) = c - 1) as ->
        by (unfold u32; symmetry; apply (Z.mod_unique _ _ 1); lia).
      cbn. split_and!; [unfold in_u32; lia|done|intros; lia].
    + destruct (sem_seen h m late) as [l0 ev0] eqn:Es. injection Hn as <- <- <-.
      apply Hseen in Es as (-> & Ep & Ea); [|done]. rewrite Ep, Ea in *. split_and!; [done|done|intros; lia].
  - by apply Hpost.
  - by apply Hpost.
  - by apply Hpost.
Qed.

(** [spin_semaphore] under any interleaving of its atomic accesses: as long
    as the posts do not overflow 32 bits, the word is the initial count plus
    the posts minus the successful waits, which therefore never exceed what was
    posted; a wait that returns false does so at an access that sees zero; and a
    wait that starts with a positive count, undisturbed, succeeds. *)
Lemma spin_semaphore_counts (initial : Z) (n : nat) (sched : list (nat * sem_choice)) st ev :
  0 <= initial → arun sem_next sched (sem_start initial n) = Some (st, ev) →
  initial + tcount posted ev < 4294967296 →
  a_shared st = initial + tcount posted ev - tcount acquired ev ∧
  tcount acquired ev <= initial + tcount posted ev ∧
  (∀ t ch st' ev', astep sem_next t ch st = Some (st', ev') → Failed ∈ ev' → a_shared st = 0) ∧
  (∀ t h late, a_shared st ≠ 0 → a_threads st !! t = Some (PRead h) →
     ∃ st', arun sem_next [(t, PClock late); (t, PClock late)] st = Some (st', [Acquired]) ∧
            a_threads st' !! t = Some PIdle).
Proof.
  intros Hi Hrun Hb.
  assert (sem_inv initial st ev) as (H1 & H2 & H3).
  { revert Hrun. apply arun_ind; [apply sem_step_inv|]. pose proof (tcount_nonneg posted ev).
    unfold sem_inv, sem_start, atomic_write32. cbn.
    split_and!; [apply u32_range|by rewrite tcount_replicate|].
    intros _. rewrite u32_small; [lia|]. unfold in_u32. lia. }
  specialize (H3 Hb). unfold in_u32 in H1. split_and!; [done|lia| |].
  - destruct st as [m ts]. intros t ch st' ev' (l & l' & m' & Ht & Hn & ->)%astep_inv Hin. cbn.
    assert (∀ h c late l0 ev0, sem_seen h c late = (l0, ev0) → Failed ∈ ev0 → c = 0) as Hseen.
    { intros h c late l0 ev0. unfold sem_seen. destruct (Z.eqb_spec c 0); [done|].
      intros [= <- <-]. by intros ?%not_elem_of_nil. }
    destruct l as [|h|h c|], ch as [h'| |late]; try discriminate Hn; cbn in Hn; unfold atomic_read32 in Hn.
    1-2: injection Hn as <- <- <-; by apply not_elem_of_nil in Hin.
    + destruct (sem_seen h m late) as [l0 ev0] eqn:Es. injection Hn as <- <- <-. by eapply Hseen.
    + destruct (Z.eqb_spec m c).
      * injection Hn as <- <- <-. apply list_elem_of_singleton in Hin. done.
      * destruct (sem_seen h m late) as [l0 ev0] eqn:Es. injection Hn as <- <- <-. by eapply Hseen.
    + injection Hn as <- <- <-. apply list_elem_of_singleton in Hin. done.
    + injection Hn as <- <- <-. apply list_elem_of_singleton in Hin. done.
    + injection Hn as <- <- <-. apply list_elem_of_singleton in Hin. done.
  - destruct st as [m ts]. cbn in *. intros t h late Hm Ht. pose proof (lookup_lt_Some _ _ _ Ht).
    unfold astep. cbn. rewrite Ht. cbn. unfold sem_seen, atomic_read32.
    destruct (Z.eqb_spec m 0); [done|]. cbn. rewrite list_lookup_insert_eq by done. cbn.
    rewrite Z.eqb_refl. cbn. eexists. split; [done|]. cbn.
    rewrite list_lookup_insert_eq; [done|by rewrite length_insert].
Qed.

Definition sem_demo : list (nat * sem_choice) :=
  [(0%nat, PWait CLock); (0%nat, PClock false); (1%nat, PCallPost); (1%nat, PCallPost);
   (0%nat, PClock false); (0%nat, PClock false)].

Lemma spin_semaphore_counts_demo :
  arun sem_next sem_demo (sem_start 0 2) = Some (ASys 0 [PIdle; PIdle], [Posted; Acquired]) ∧
  tcount acquired [Posted; Acquired] <= 0 + tcount posted [Posted; Acquired].
Proof.
  split; [vm_compute; reflexivity|].
  destruct (spin_semaphore_counts 0 2 sem_demo (ASys 0 [PIdle; PIdle]) [Posted; Acquired])
    as (_ & H & _); [lia|vm_compute; reflexivity|vm_compute; reflexivity|exact H].
Defined.

(** ** [spin_recursive_mutex] *)

(** [m_nOwner] is a thread or the invalid id; it is read and written in one
    access each. *)
Record rec_mutex := RMutex { r_mutex : Z; m_nLockCount : Z; m_nOwner : option nat }.

Definition rec_init : rec_mutex := RMutex 0 0 None.

(** [d] is how often the thread has locked the mutex; the code does not know it. *)
Inductive rec_loc :=
| RIdle (d : Z)                              (** in user code *)
| RCall (h : how) (d : Z)                    (** before the read of [m_nOwner] *)
| RAgain (d : Z)                             (** found itself to be the owner *)
| RSpin (h : how) (d : Z) (s : spin_loc)     (** inside of [m_mutex] *)
| RSetOwner (d : Z)                          (** got [m_mutex] *)
| RSetCount (d : Z)
| RDec (d : Z)                               (** [unlock], after its assertion *)
| RClear (d : Z)                             (** the count has reached zero *)
| RFree (d : Z).                             (** before [m_mutex.unlock()] *)

Inductive rec_choice := RLockCall (h : how) | RUnlockCall | RGo (late : bool).
Inductive rec_event := RLocked | RFailed | RThrown | RUnlocked | RAssertFailed.

(** The branch of [lock], [try_lock] and [timed_lock] for the owner: an
    exception if the count would overflow. *)
Definition rec_again (d : Z) (m : rec_mutex) : rec_loc * rec_mutex * list rec_event :=
  if u32 (m_nLockCount m + 1) =? 0 then (RIdle d, m, [RThrown])
  else (RIdle (d + 1), RMutex (r_mutex m) (u32 (m_nLockCount m + 1)) (m_nOwner m), [RLocked]).

(** One access inside of [m_mutex.lock()], [try_lock()] or [timed_lock()]. *)
Definition rec_spin (t : nat) (h : how) (d : Z) (s : spin_loc) (late : bool) (m : rec_mutex)
  : option (rec_loc * rec_mutex * list rec_event) :=
  let ch := match s with STryRead _ _ => SClock late | _ => SGo end in
  '(s', w, _) ← spin_next t ch s (r_mutex m);
  let m' := RMutex w (m_nLockCount m) (m_nOwner m) in
  Some match s' with
       | SHeld => (RSetOwner d, m', [])
       | SIdle => (RIdle d, m', [RFailed])
       | s' => (RSpin h d s', m', [])
       end.

Definition rec_unlock_dec (d : Z) (m : rec_mutex) : rec_loc * rec_mutex * list rec_event :=
  let c := u32 (m_nLockCount m - 1) in
  let m' := RMutex (r_mutex m) c (m_nOwner m) in
  if c =? 0 then (RClear d, m', []) else (RIdle (d - 1), m', [RUnlocked]).

Definition rec_next (t : nat) (ch : rec_choice) (l : rec_loc) (m : rec_mutex)
  : option (rec_loc * rec_mutex * list rec_event) :=
  match l, ch with
  | RIdle d, RLockCall h => Some (RCall h d, m, [])
  | RIdle d, RUnlockCall =>
      if decide (m_nOwner m = Some t) then Some (RDec d, m, []) else Some (RIdle d, m, [RAssertFailed])
  | RCall h d, RGo _ =>
      Some (if decide (m_nOwner m = Some t) then RAgain d else RSpin h d (STry h), m, [])
  | RAgain d, RGo _ => Some (rec_again d m)
  | RSpin h d s, RGo late => rec_spin t h d s late m
  | RSetOwner d, RGo _ => Some (RSetCount d, RMutex (r_mutex m) (m_nLockCount m) (Some t), [])
  | RSetCount d, RGo _ => Some (RIdle (d + 1), RMutex (r_mutex m) 1 (m_nOwner m), [RLocked])
  | RDec d, RGo _ => Some (rec_unlock_dec d m)
  | RClear d, RGo _ => Some (RFree d, RMutex (r_mutex m) (m_nLockCount m) None, [])
  | RFree d, RGo _ =>
      Some (RIdle (d - 1), RMutex (spin_unlock (r_mutex m)) (m_nLockCount m) (m_nOwner m), [RUnlocked])
  | _, _ => None
  end.

Definition rec_start (n : nat) : asys rec_mutex rec_loc := ASys rec_init (replicate n (RIdle 0)).

(** The threads that have [m_mutex]. *)
Definition rec_owner (l : rec_loc) : bool :=
  match l with
  | RIdle d | RCall _ d => 0 <? d
  | RSpin _ _ s => spin_owner s
  | _ => true
  end.

(** The thread [m_nOwner] names, and the ones whose depth is [m_nLockCount]. *)
Definition rec_named (l : rec_loc) : bool :=
  match l with
  | RIdle d | RCall _ d => 0 <? d
  | RAgain _ | RSetCount _ | RDec _ | RClear _ => true
  | _ => false
  end.
Definition rec_depth (l : rec_loc) : option Z :=
  match l with
  | RIdle d | RCall _ d => if 0 <? d then Some d else None
  | RAgain d | RDec d => Some d
  | _ => None
  end.

Definition rec_local_ok (l : rec_loc) : Prop :=
  match l with
  | RIdle d | RCall _ d => 0 <= d
  | RAgain d | RDec d => 0 < d
  | RSpin _ d s => d = 0 ∧ (∃ h, s = STry h ∨ ∃ p, s = STryRead h p)
  | RSetOwner d | RSetCount d => d = 0
  | RClear d | RFree d => d = 1
  end.

Definition rec_thread_ok (m : rec_mutex) (t : nat) (l : rec_loc) : Prop :=
  rec_local_ok l ∧ (m_nOwner m = Some t ↔ rec_named l = true) ∧
  (∀ d, rec_depth l = Some d → m_nLockCount m = d).

Definition rec_inv (st : asys rec_mutex rec_loc) (_ : list rec_event) : Prop :=
  let m := a_shared st in
  r_mutex m = tcount rec_owner (a_threads st) ∧ r_mutex m <= 1 ∧ in_u32 (m_nLockCount m) ∧
  ∀ t l, a_threads st !! t = Some l → rec_thread_ok m t l.

(** Only the owner writes the owner and the count, so the other threads do not
    notice. *)
Lemma rec_others m m' ts t l t' l' :
  tcount rec_owner ts <= 1 → ts !! t = Some l → rec_owner l = true → t' ≠ t → ts !! t' = Some l' →
  m_nOwner m' = Some t ∨ m_nOwner m' = None → rec_thread_ok m t' l' → rec_thread_ok m' t' l'.
Proof.
  intros Hle Ht Hl Hne Ht' Ho (H1 & H2 & H3).
  assert (rec_owner l' = false) as Hn.
  { destruct (rec_owner l') eqn:E; [|done]. 
    pose proof (tcount_two rec_owner ts t t' l l' (not_eq_sym Hne) Ht Ht' Hl E). lia. }
  assert (rec_named l' = false ∧ rec_depth l' = None) as [E1 E2].
  { destruct l'; cbn in *; try done; by rewrite ?Hn. }
  split_and!; [done| |by rewrite E2]. rewrite E1. destruct Ho as [-> | ->]; naive_solver.
Qed.

Ltac blia := cbn in *; cbn [b2z] in *; lia.

(** What a thread's move from [l] to [l'] has to do to the mutex. *)
Definition rec_move_ok (t : nat) (m : rec_mutex) (l : rec_loc) (m' : rec_mutex) (l' : rec_loc) : Prop :=
  r_mutex m' = r_mutex m - b2z (rec_owner l) + b2z (rec_owner l') ∧ r_mutex m' <= 1 ∧
  in_u32 (m_nLockCount m') ∧ rec_thread_ok m' t l' ∧
  ((m_nLockCount m' = m_nLockCount m ∧ m_nOwner m' = m_nOwner m) ∨
   (rec_owner l = true ∧ (m_nOwner m' = Some t ∨ m_nOwner m' = None))).

Lemma rec_spin_ok t m h d s late l' m' ev :
  rec_thread_ok m t (RSpin h d s) → r_mutex m <= 1 → in_u32 (m_nLockCount m) →
  (rec_owner (RSpin h d s) = true → r_mutex m = 1) →
  rec_spin t h d s late m = Some (l', m', ev) → rec_move_ok t m (RSpin h d s) m' l'.
Proof.
  intros (Hl & Ho & Hd) H2 H3 Hone. unfold rec_move_ok.
  unfold rec_spin. intros Hn. destruct Hl as (-> & h0 & [-> | [p ->]]); cbn in Hn, Ho, Hone |- *.
  - injection Hn as <- <- <-. cbn. destruct (Z.eqb_spec (r_mutex m) 0); cbn;
      (split_and!; [blia|lia|done| |by left]; split_and!; [cbn; eauto|done|done]).
  - assert (spin_try_lock_result p (r_mutex m) = (p =? 0)) as E.
    { unfold spin_try_lock_result. destruct (Z.eqb_spec p 0); [|by rewrite andb_false_r].
      by rewrite Hone. }
    rewrite E in Hn. destruct (Z.eqb_spec p 0).
    + injection Hn as <- <- <-. cbn. by split_and!; [blia|done|done| |left].
    + assert (rec_thread_ok (RMutex (r_mutex m) (m_nLockCount m) (m_nOwner m)) t (RIdle 0)) as Hi by done.
      destruct h0, late; injection Hn as <- <- <-; cbn;
        (split_and!; [blia|done|done| |by left]); try done; split_and!; cbn; eauto; done.
Qed.

Lemma rec_next_ok t ch m l l' m' ev :
  rec_thread_ok m t l → r_mutex m <= 1 → in_u32 (m_nLockCount m) →
  (rec_owner l = true → r_mutex m = 1) →
  rec_next t ch l m = Some (l', m', ev) → rec_move_ok t m l m' l'.
Proof.
  intros Hok H2 H3 Hone Hn. pose proof Hok as (Hl & Ho & Hd). unfold rec_move_ok.
  destruct l as [d|h d|d|h d s|d|d|d|d|d], ch as [h'| |late]; try discriminate Hn; cbn [rec_next] in Hn.
  - injection Hn as <- <- <-. cbn in *. split_and!; [blia|done|done|done|by left].
  - destruct (decide _) as [E|E]; injection Hn as <- <- <-; cbn in *.
    + apply Ho in E as E'. rewrite E' in *. apply Z.ltb_lt in E' as E2. specialize (Hd d eq_refl). cbn [b2z].
      split_and!; [blia|done|done| |by left]. split_and!; [done|done|]. by intros ? [= <-].
    + split_and!; [blia|done|done|done|by left].
  - destruct (decide _) as [E|E]; injection Hn as <- <- <-; cbn in *.
    + apply Ho in E as E'. rewrite E' in *. apply Z.ltb_lt in E' as E2. specialize (Hd d eq_refl). cbn [b2z].
      split_and!; [blia|done|done| |by left]. split_and!; [done|done|]. by intros ? [= <-].
    + destruct (Z.ltb_spec 0 d); [naive_solver|]. split_and!; [blia|done|done| |by left].
      split_and!; [|cbn; naive_solver|done]. cbn. split; [lia|]. eauto.
  - unfold rec_again in Hn. specialize (Hd d eq_refl).
    assert (m_nOwner m = Some t) as E by (by apply Ho). cbn in *.
    destruct (Z.eqb_spec (u32 (m_nLockCount m + 1)) 0) as [Ez|Ez]; injection Hn as <- <- <-; cbn.
    + destruct (Z.ltb_spec 0 d); [|lia]. split_and!; [blia|done|done| |by left].
      split_and!; cbn; [lia| |]; destruct (Z.ltb_spec 0 d); try lia; [done|]. by intros ? [= <-].
    + destruct (Z.ltb_spec 0 (d + 1)); [|lia]. split_and!; [blia|done|apply u32_range| |right; auto].
      assert (u32 (m_nLockCount m + 1) = d + 1) as E2.
      { unfold u32, in_u32 in *. destruct (decide (d + 1 = 4294967296)) as [E2|E2].
        - rewrite Hd, E2 in Ez. done.
        - rewrite Hd, Z.mod_small; lia. }
      split_and!; cbn; [lia| |]; destruct (Z.ltb_spec 0 (d + 1)); try lia; [done|]. by intros ? [= <-].
  - by eapply rec_spin_ok.
  - injection Hn as <- <- <-. cbn in *. split_and!; [blia|done|done| |right; auto].
    split_and!; [done|done|done].
  - injection Hn as <- <- <-. assert (m_nOwner m = Some t) as E by (by apply Ho). cbn in *. subst d.
    change (0 <? 0 + 1) with true. split_and!; [blia|done|done| |right; auto]. split_and!; [done|done|]. by intros ? [= <-].
  - unfold rec_unlock_dec in Hn. specialize (Hd d eq_refl).
    assert (m_nOwner m = Some t) as E by (by apply Ho). cbn in *. unfold in_u32 in H3.
    rewrite (u32_small (m_nLockCount m - 1)) in Hn by (unfold in_u32; lia).
    destruct (Z.eqb_spec (m_nLockCount m - 1) 0) as [Ez|Ez]; injection Hn as <- <- <-; cbn.
    + split_and!; [blia|done|unfold in_u32; lia| |right; auto].
      assert (d = 1) as -> by lia. by split_and!.
    + destruct (Z.ltb_spec 0 (d - 1)); [|lia].
      split_and!; [blia|done|unfold in_u32; lia| |right; auto].
      split_and!; cbn; [lia| |]; destruct (Z.ltb_spec 0 (d - 1)); try lia; [done|].
      intros ? [= <-]. lia.
  - injection Hn as <- <- <-. cbn in *. subst d. split_and!; [blia|done|done| |right; auto].
    by split_and!.
  - injection Hn as <- <- <-. cbn in *. subst d. unfold spin_unlock. cbn.
    rewrite (Hone eq_refl). split_and!; [done|done|done| |by left]. by split_and!.
Qed.

Lemma rec_step_inv st es t ch st' ev :
  rec_inv st es → astep rec_next t ch st = Some (st', ev) → rec_inv st' (es ++ ev).
Proof.
  destruct st as [m ts]. intros (H1 & H2 & H3 & H4) (l & l' & m' & Ht & Hn & ->)%astep_inv.
  cbn [a_shared a_threads] in *.
  apply rec_next_ok in Hn as (G1 & G2 & G3 & G4 & G5); [|by apply H4|done|done|].
  2: { intros E. pose proof (tcount_pos rec_owner ts t l Ht E). lia. }
  destruct (tcount_split rec_owner ts t l l' Ht) as (r & Hr & E & E').
  unfold rec_inv. cbn [a_shared a_threads]. rewrite E'. split_and!; [lia|done|done|].
  intros t' l0 Ht'. destruct (decide (t' = t)) as [->|Hne].
  - rewrite list_lookup_insert_eq in Ht' by (by eapply lookup_lt_Some). by injection Ht' as <-.
  - rewrite list_lookup_insert_ne in Ht' by done. destruct G5 as [[G6 G7]|[G6 G7]].
    + specialize (H4 t' l0 Ht'). unfold rec_thread_ok in *. by rewrite G6, G7.
    + apply (rec_others m m' ts t l t' l0); try done; [lia|by apply H4].
Qed.

Lemma rec_run_inv n sched st ev : arun rec_next sched (rec_start n) = Some (st, ev) → rec_inv st ev.
Proof.
  apply arun_ind; [apply rec_step_inv|]. unfold rec_inv, rec_start, rec_init. cbn.
  split_and!; [by rewrite tcount_replicate|done|done|].
  intros t l [-> _]%lookup_replicate. by split_and!.
Qed.

(** C33: [spin_recursive_mutex] under any interleaving of its accesses, its
    unprotected reads of the owner included: two threads never hold it
    together; the holder is the thread [m_nOwner] names and [m_nLockCount] is
    how often it has locked; [unlock]'s assertion holds exactly for holders;
    and a recursive lock throws exactly when the 32-bit count is exhausted,
    without effect. *)
Theorem spin_recursive_exact (n : nat) (sched : list (nat * rec_choice)) st ev :
  arun rec_next sched (rec_start n) = Some (st, ev) →
  let m := a_shared st in
  (∀ t t' d d', a_threads st !! t = Some (RIdle d) → a_threads st !! t' = Some (RIdle d') →
     0 < d → 0 < d' → t = t') ∧
  (∀ t d, a_threads st !! t = Some (RIdle d) → 0 < d → m_nOwner m = Some t ∧ m_nLockCount m = d) ∧
  (∀ t d, a_threads st !! t = Some (RIdle d) →
     rec_next t RUnlockCall (RIdle d) m =
       Some (if 0 <? d then (RDec d, m, []) else (RIdle d, m, [RAssertFailed]))) ∧
  (∀ t d, a_threads st !! t = Some (RAgain d) →
     rec_again d m = if d =? 4294967295 then (RIdle d, m, [RThrown])
                     else (RIdle (d + 1), RMutex (r_mutex m) (d + 1) (Some t), [RLocked])).
Proof.
  intros (H1 & H2 & H3 & H4)%rec_run_inv. destruct st as [m ts]. cbn [a_shared a_threads] in *. cbv zeta.
  assert (∀ t d, ts !! t = Some (RIdle d) → 0 < d → m_nOwner m = Some t ∧ m_nLockCount m = d) as Hown.
  { intros t d Ht Hd. destruct (H4 _ _ Ht) as (_ & Ho & Hc). cbn in Ho, Hc.
    destruct (Z.ltb_spec 0 d); [|lia]. split; [by apply Ho|by apply Hc]. }
  split_and!; [|done| |].
  - intros t t' d d' Ht Ht' Hd Hd'. destruct (Hown t d Ht Hd), (Hown t' d' Ht' Hd'). congruence.
  - intros t d Ht. destruct (H4 _ _ Ht) as (_ & Ho & _). cbn in Ho |- *.
    destruct (Z.ltb_spec 0 d), (decide _); naive_solver.
  - intros t d Ht. destruct (H4 _ _ Ht) as (Hl & Ho & Hc). specialize (Hc d eq_refl). cbn in Hl.
    assert (m_nOwner m = Some t) as E by (by apply Ho). unfold rec_again. rewrite E, Hc.
    unfold in_u32 in H3. destruct (Z.eqb_spec d 4294967295) as [->|Hne]; [done|].
    rewrite u32_small by (unfold in_u32; lia). destruct (Z.eqb_spec (d + 1) 0); [lia|done].
Qed.

Definition rec_demo : list (nat * rec_choice) :=
  [(0%nat, RLockCall CLock); (1%nat, RLockCall CTry); (0%nat, RGo false); (0%nat, RGo false);
   (0%nat, RGo false); (1%nat, RGo false); (1%nat, RGo false); (1%nat, RGo false);
   (0%nat, RGo false); (0%nat, RGo false); (0%nat, RLockCall CTry); (0%nat, RGo false);
   (0%nat, RGo false)].

Lemma spin_recursive_exact_witness :
  arun rec_next rec_demo (rec_start 2) =
    Some (ASys (RMutex 1 2 (Some 0%nat)) [RIdle 2; RIdle 0], [RFailed; RLocked; RLocked]) ∧
  rec_next 0 RUnlockCall (RIdle 2) (RMutex 1 2 (Some 0%nat)) =
    Some (RDec 2, RMutex 1 2 (Some 0%nat), []).
Proof.
  split; [vm_compute; reflexivity|].
  destruct (spin_recursive_exact 2 rec_demo (ASys (RMutex 1 2 (Some 0%nat)) [RIdle 2; RIdle 0])
    [RFailed; RLocked; RLocked]) as (_ & _ & H & _); [vm_compute; reflexivity|].
  exact (H 0%nat 2 eq_refl).
Defined.
