(* ===== verification/SpinCondition.v ===== *)
(** sync/spin/condition.hpp: the condition variable [spin_condition], at the
    granularity of single atomic accesses.

    A notifier locks [m_enter_mut] and writes a command; the mutex stays locked
    until the threads concerned have obeyed, and the last of them unlocks it.
    [m_enter_mut] is a [spin_mutex]; its [lock] and [try_lock] succeed or fail
    at their compare-and-swap (file SpinSync), which is the step here. *)

From S2P Require Import Prelude Atomic SpinSync.

Definition SLEEP : Z := 0.
Definition NOTIFY_ONE : Z := 1.
Definition NOTIFY_ALL : Z := 2.

(** The members, and whether the user's mutex is locked. *)
Record scond := SCond { m_enter_mut : Z; m_command : Z; m_num_waiters : Z; ext_mut : bool }.

Definition scond_init : scond := SCond 0 SLEEP 0 false.

Definition set_enter (v : Z) (c : scond) : scond := SCond v (m_command c) (m_num_waiters c) (ext_mut c).
Definition set_command (v : Z) (c : scond) : scond := SCond (m_enter_mut c) v (m_num_waiters c) (ext_mut c).
Definition set_waiters (v : Z) (c : scond) : scond := SCond (m_enter_mut c) (m_command c) v (ext_mut c).
Definition set_ext (v : bool) (c : scond) : scond := SCond (m_enter_mut c) (m_command c) (m_num_waiters c) v.

(** [timed] is [TimeoutEnabled]; [b] tells that the thread has the user's mutex. *)
Inductive cond_loc :=
| COut | CIn                           (** in user code, without and with the user's mutex *)
| WEnter (timed : bool)                (** [do_timed_wait_impl], before [get_lock] *)
| WInc (timed : bool)                  (** before the increment of [m_num_waiters] *)
| WExt (timed : bool)                  (** before [mut.unlock()] *)
| WLeave (timed : bool)                (** before the end of the first scope *)
| WPoll (timed : bool)                 (** before the read of [m_command] *)
| WLate                                (** deadline passed, before [m_enter_mut.try_lock()] *)
| WTimeDec                             (** timed out, before the decrement *)
| WCas (timed : bool)                  (** a command was seen, before the compare-and-swap *)
| WDecOne                              (** took [NOTIFY_ONE], before the decrement *)
| WDecAll                              (** saw [NOTIFY_ALL], before the decrement *)
| WCasAll                              (** last one, before [m_command] is reset *)
| WUnl (ok : bool)                     (** before [m_enter_mut.unlock()] *)
| WRelock (ok : bool)                  (** before [mut.lock()] *)
| NEnter (command : Z) (b : bool)      (** [notify], before [m_enter_mut.lock()] *)
| NRead (command : Z) (b : bool)       (** before the read of [m_num_waiters] *)
| NUnl (b : bool)                      (** no waiters, before [m_enter_mut.unlock()] *)
| NCas (command : Z) (b : bool).       (** before the compare-and-swap of [m_command] *)

Inductive cond_choice := CLockExt | CUnlockExt | CWait (timed : bool) | CNotify (all : bool) | CGo (late : bool).

(** [Issued k]: a command for [k] threads was written; [Woken]: a thread took
    it; [WaitFalse]: a timed wait gave up; [LockException]: [wait] was called
    without the lock. *)
Inductive cond_event := Issued (k : Z) | Woken | WaitFalse | LockException.

Definition user (b : bool) : cond_loc := if b then CIn else COut.

(** The accesses of [do_timed_wait_impl] up to the loop. *)
Definition wait_enter (l : cond_loc) (late : bool) (c : scond)
  : option (cond_loc * scond * list cond_event) :=
  match l with
  | WEnter timed =>
      let '(prev, w) := spin_try_lock_cas (m_enter_mut c) in
      if prev =? 0 then Some (WInc timed, set_enter w c, [])
      else Some (if timed && late then (CIn, c, [WaitFalse]) else (WEnter timed, c, []))
  | WInc timed => Some (WExt timed, set_waiters (snd (atomic_inc32 (m_num_waiters c))) c, [])
  | WExt timed => Some (WLeave timed, set_ext false c, [])
  | WLeave timed => Some (WPoll timed, set_enter (spin_unlock (m_enter_mut c)) c, [])
  | _ => None
  end.

(** The loop. *)
Definition wait_loop (l : cond_loc) (late : bool) (c : scond)
  : option (cond_loc * scond * list cond_event) :=
  match l with
  | WPoll timed =>
      if atomic_read32 (m_command c) =? SLEEP
      then Some (if timed && late then WLate else WPoll timed, c, [])
      else Some (WCas timed, c, [])
  | WLate =>
      let '(prev, w) := spin_try_lock_cas (m_enter_mut c) in
      if prev =? 0 then Some (WTimeDec, set_enter w c, []) else Some (WPoll true, c, [])
  | WTimeDec => Some (WUnl false, set_waiters (snd (atomic_dec32 (m_num_waiters c))) c, [])
  | WCas timed =>
      let '(result, w) := atomic_cas32 SLEEP NOTIFY_ONE (m_command c) in
      if result =? SLEEP then Some (WPoll timed, set_command w c, [])
      else if result =? NOTIFY_ONE then Some (WDecOne, set_command w c, [])
      else Some (WDecAll, set_command w c, [])
  | WDecOne => Some (WUnl true, set_waiters (snd (atomic_dec32 (m_num_waiters c))) c, [Woken])
  | WDecAll =>
      let '(old, w) := atomic_dec32 (m_num_waiters c) in
      Some (if old =? 1 then WCasAll else WRelock true, set_waiters w c, [Woken])
  | WCasAll => Some (WUnl true, set_command (snd (atomic_cas32 SLEEP NOTIFY_ALL (m_command c))) c, [])
  | _ => None
  end.

(** Behind the loop. *)
Definition wait_exit (l : cond_loc) (c : scond) : option (cond_loc * scond * list cond_event) :=
  match l with
  | WUnl ok => Some (WRelock ok, set_enter (spin_unlock (m_enter_mut c)) c, [])
  | WRelock ok =>
      if ext_mut c then Some (WRelock ok, c, [])
      else Some (CIn, set_ext true c, if ok then [] else [WaitFalse])
  | _ => None
  end.

Definition cond_notify (l : cond_loc) (c : scond) : option (cond_loc * scond * list cond_event) :=
  match l with
  | NEnter command b =>
      let '(prev, w) := spin_try_lock_cas (m_enter_mut c) in
      if prev =? 0 then Some (NRead command b, set_enter w c, []) else Some (NEnter command b, c, [])
  | NRead command b =>
      Some (if atomic_read32 (m_num_waiters c) =? 0 then NUnl b else NCas command b, c, [])
  | NUnl b => Some (user b, set_enter (spin_unlock (m_enter_mut c)) c, [])
  | NCas command b =>
      let '(prev, w) := atomic_cas32 command SLEEP (m_command c) in
      if prev =? SLEEP
      then Some (user b, set_command w c,
                 [Issued (if command =? NOTIFY_ONE then 1 else m_num_waiters c)])
      else Some (NCas command b, c, [])
  | _ => None
  end.

(** User code: locking and unlocking the mutex, [wait] and [timed_wait] with
    their check of the lock, [notify_one] and [notify_all]. *)
Definition user_call (ch : cond_choice) (b : bool) (c : scond)
  : option (cond_loc * scond * list cond_event) :=
  match ch, b with
  | CLockExt, false => if ext_mut c then None else Some (CIn, set_ext true c, [])
  | CUnlockExt, true => Some (COut, set_ext false c, [])
  | CWait timed, true => Some (WEnter timed, c, [])
  | CWait _, false => Some (COut, c, [LockException])
  | CNotify all, b => Some (NEnter (if all then NOTIFY_ALL else NOTIFY_ONE) b, c, [])
  | _, _ => None
  end.

Definition cond_next (_ : nat) (ch : cond_choice) (l : cond_loc) (c : scond)
  : option (cond_loc * scond * list cond_event) :=
  match l with
  | COut => user_call ch false c
  | CIn => user_call ch true c
  | _ =>
      match ch with
      | CGo late =>
          match l with
          | WEnter _ | WInc _ | WExt _ | WLeave _ => wait_enter l late c
          | WUnl _ | WRelock _ => wait_exit l c
          | NEnter _ _ | NRead _ _ | NUnl _ | NCas _ _ => cond_notify l c
          | _ => wait_loop l late c
          end
      | _ => None
      end
  end.

Definition cond_start (n : nat) : asys scond cond_loc := ASys scond_init (replicate n COut).

(** ** Invariant *)

(** The threads [m_num_waiters] counts. *)
Definition counted (l : cond_loc) : bool :=
  match l with
  | WExt _ | WLeave _ | WPoll _ | WLate | WTimeDec | WCas _ | WDecOne | WDecAll => true
  | _ => false
  end.
(** The threads that have [m_enter_mut] or are about to unlock it. *)
Definition enters (l : cond_loc) : bool :=
  match l with
  | WInc _ | WExt _ | WLeave _ | WTimeDec | WDecOne | WUnl _ | NRead _ _ | NUnl _ | NCas _ _ => true
  | _ => false
  end.
(** The threads that have the user's mutex. *)
Definition has_ext (l : cond_loc) : bool :=
  match l with
  | CIn | WEnter _ | WInc _ | WExt _ => true
  | NEnter _ b | NRead _ b | NUnl b | NCas _ b => b
  | _ => false
  end.
Definition at_dec_one (l : cond_loc) : bool := match l with WDecOne => true | _ => false end.
Definition at_dec_all (l : cond_loc) : bool := match l with WDecAll => true | _ => false end.
Definition at_cas_all (l : cond_loc) : bool := match l with WCasAll => true | _ => false end.
Definition at_notify (l : cond_loc) : bool := match l with NCas _ _ => true | _ => false end.
Definition bad_command (l : cond_loc) : bool :=
  match l with
  | NEnter v _ | NRead v _ | NCas v _ => negb ((v =? NOTIFY_ONE) || (v =? NOTIFY_ALL))
  | _ => false
  end.

(** The threads the written commands were for, and the threads woken. *)
Fixpoint issued (es : list cond_event) : Z :=
  match es with [] => 0 | Issued k :: es => k + issued es | _ :: es => issued es end.
Definition woken (e : cond_event) : bool := match e with Woken => true | _ => false end.

(** What holds of the members, the counts of threads at these places, the
    number [i] of threads commands were issued for and the number [w] woken. *)
Record cond_rel (c : scond) (nw ne nx n1 na nl nn i w : Z) : Prop := {
  rel_enter : m_enter_mut c = ne + b2z (negb (m_command c =? 0)) ∧ m_enter_mut c <= 1;
  rel_num : m_num_waiters c = nw;
  rel_cmd : 0 <= m_command c <= 2;
  rel_all : 0 < na → m_command c = 2;
  rel_last : nl <= 1 ∧ (0 < nl → m_command c = 2 ∧ nw = 0) ∧ (m_command c = 2 → nw = 0 → nl = 1);
  rel_one : m_command c = 1 → 1 <= nw;
  rel_notify : 0 < nn → 1 <= nw;
  rel_ext : b2z (ext_mut c) = nx;
  rel_issued : i = w + b2z (m_command c =? 1) + n1 + (if m_command c =? 2 then nw else 0)
}.

Definition cond_inv (st : asys scond cond_loc) (es : list cond_event) : Prop :=
  let count f := tcount f (a_threads st) in
  cond_rel (a_shared st) (count counted) (count enters) (count has_ext) (count at_dec_one)
    (count at_dec_all) (count at_cas_all) (count at_notify) (issued es) (tcount woken es) ∧
  count bad_command = 0 ∧ Z.of_nat (length (a_threads st)) < 4294967296.

Lemma issued_app es es' : issued (es ++ es') = issued es + issued es'.
Proof. induction es as [|[] es IH]; cbn; rewrite ?IH; lia. Qed.

Lemma u32_dec x : 0 < x < 4294967296 → u32 (x - 1) = x - 1.
Proof. intros Hx. apply u32_small. unfold in_u32. lia. Qed.

(** Decide the tests of an access, and read off the new state. *)
Ltac access_cases Hn :=
  repeat (match type of Hn with
    | context [if ?b && ?b' then _ else _] => destruct b, b'
    | context [if ?x =? ?y then _ else _] => destruct (Z.eqb_spec x y)
    | context [if ?b then _ else _] => destruct b
    end; cbn in *; try discriminate Hn; try (exfalso; lia)).
Ltac access_done Hn :=
  injection Hn as <- <- <-; cbn;
  rewrite ?u32_small by (unfold in_u32; lia);
  repeat match goal with b : bool |- _ => destruct b end;
  (split; [split; cbn in *; try (repeat split; intros; lia)|done]).

(** One access of a thread at [l], where the [r] are the counts of the others. *)
Lemma cond_access_ok t ch l c l' c' ev rw re rx r1 ra rl rn i w :
  cond_next t ch l c = Some (l', c', ev) → bad_command l = false →
  0 <= r1 <= re → 0 <= rn <= re → 0 <= ra <= rw → 0 <= rl → 0 <= rx → rw + 1 < 4294967296 →
  cond_rel c (b2z (counted l) + rw) (b2z (enters l) + re) (b2z (has_ext l) + rx)
    (b2z (at_dec_one l) + r1) (b2z (at_dec_all l) + ra) (b2z (at_cas_all l) + rl)
    (b2z (at_notify l) + rn) i w →
  cond_rel c' (b2z (counted l') + rw) (b2z (enters l') + re) (b2z (has_ext l') + rx)
    (b2z (at_dec_one l') + r1) (b2z (at_dec_all l') + ra) (b2z (at_cas_all l') + rl)
    (b2z (at_notify l') + rn) (i + issued ev) (w + tcount woken ev) ∧ bad_command l' = false.
Proof.
  intros Hn Hbad H1 Hrn Hra Hrl Hrx Hrw [E1 E2 E3 E4 E5 E6 E7 E8 E9].
  destruct c as [e k num []]; cbn in *.
  all: unfold SLEEP, NOTIFY_ONE, NOTIFY_ALL, user in *.
  all: assert (k = 0 ∨ k = 1 ∨ k = 2) as Hk by lia; clear E3.
  all: destruct l as [| |timed|timed|timed|timed|timed| | |timed| | | |ok|ok|v b|v b|b|v b];
    destruct ch as [| |tm|all|late]; try discriminate Hn; cbn in *; unfold spin_unlock, SLEEP, NOTIFY_ONE, NOTIFY_ALL, user in *; cbn in *.
  all: try (assert (v = 1 ∨ v = 2) as [-> | ->]
    by (destruct (Z.eqb_spec v 1); [by left|]; destruct (Z.eqb_spec v 2); [by right|done]); cbn in * ).
  all: destruct Hk as [-> | [-> | ->]]; cbn in *.
  all: access_cases Hn.
  all: access_done Hn.
Qed.

Lemma tcount_le_length {A} (f : A → bool) ts : tcount f ts <= Z.of_nat (length ts).
Proof. induction ts as [|x ts IH]; cbn; [done|]. destruct (f x); cbn; lia. Qed.

Lemma cond_step_inv st es t ch st' ev :
  cond_inv st es → astep cond_next t ch st = Some (st', ev) → cond_inv st' (es ++ ev).
Proof.
  destruct st as [c ts]. intros (Hrel & Hbad & Hlen) (l & l' & c' & Ht & Hn & ->)%astep_inv.
  unfold cond_inv in *. cbn [a_shared a_threads] in *.
  set (os := <[t := COut]> ts).
  assert (∀ f, f COut = false → tcount f ts = b2z (f l) + tcount f os ∧
            tcount f (<[t := l']> ts) = b2z (f l') + tcount f os) as Hc
    by (intros f Hf; by apply tcount_others).
  assert (tcount counted os + 1 < 4294967296) as Hw.
  { pose proof (tcount_le_length counted (<[t := WLate]> ts)) as Hl. rewrite length_insert in Hl.
    destruct (tcount_others COut counted ts t l WLate Ht eq_refl) as [_ E]. fold os in E. cbn in E. lia. }
  destruct (Hc bad_command eq_refl) as [Eb Eb']. rewrite Eb in Hbad.
  pose proof (tcount_nonneg bad_command os).
  assert (bad_command l = false) as Hbl by (destruct (bad_command l); [cbn in Hbad; lia|done]).
  destruct (Hc counted eq_refl) as [E1 E1'], (Hc enters eq_refl) as [E2 E2'],
    (Hc has_ext eq_refl) as [E3 E3'], (Hc at_dec_one eq_refl) as [E4 E4'],
    (Hc at_dec_all eq_refl) as [E5 E5'], (Hc at_cas_all eq_refl) as [E6 E6'],
    (Hc at_notify eq_refl) as [E7 E7'].
  rewrite E1, E2, E3, E4, E5, E6, E7 in Hrel.
  rewrite E1', E2', E3', E4', E5', E6', E7', length_insert, issued_app, tcount_app, Eb'.
  assert (tcount at_dec_one os <= tcount enters os) by (apply tcount_le; by intros []).
  assert (tcount at_notify os <= tcount enters os) by (apply tcount_le; by intros []).
  assert (tcount at_dec_all os <= tcount counted os) by (apply tcount_le; by intros []).
  pose proof (tcount_nonneg at_dec_one os). pose proof (tcount_nonneg at_notify os).
  pose proof (tcount_nonneg at_dec_all os). pose proof (tcount_nonneg at_cas_all os).
  pose proof (tcount_nonneg has_ext os).
  eapply cond_access_ok in Hrel as [Hrel' Hb']; [|done|done|lia..].
  split; [exact Hrel'|]. rewrite Hb', Hbl in *. cbn in *. lia.
Qed.

Lemma cond_run_inv n sched st ev :
  Z.of_nat n < 4294967296 → arun cond_next sched (cond_start n) = Some (st, ev) → cond_inv st ev.
Proof.
  intros Hn. apply arun_ind; [apply cond_step_inv|]. unfold cond_inv, cond_start, scond_init, SLEEP. cbn.
  rewrite !tcount_replicate by done. rewrite length_replicate. split; [|lia].
  split; unfold SLEEP; cbn; repeat split; intros; lia.
Qed.

(** ** Properties *)

(** A thread that can obey the command written to [m_command]. *)
Definition obeys (l : cond_loc) : bool :=
  match l with WPoll _ | WLate | WCas _ | WDecAll | WCasAll => true | _ => false end.

(** C32: [spin_condition] under any interleaving of its atomic accesses, time-outs
    included: [m_num_waiters] counts the waiting threads; no thread is woken
    without a command; whenever no notification is in progress, every command
    was obeyed by exactly the threads it was for ([notify_one]: one,
    [notify_all]: all that waited); a notification that finds waiters writes its
    command at the first attempt, and while a command stands, a thread that can
    obey it is in the loop; and a locked [m_enter_mut] always has a thread that
    will go on. *)
Theorem spin_condition_exact (n : nat) (sched : list (nat * cond_choice)) st ev :
  Z.of_nat n < 4294967296 → arun cond_next sched (cond_start n) = Some (st, ev) →
  let c := a_shared st in
  m_num_waiters c = tcount counted (a_threads st) ∧
  tcount woken ev <= issued ev ∧
  (m_enter_mut c = 0 → m_command c = SLEEP ∧ tcount woken ev = issued ev) ∧
  (∀ t command b, a_threads st !! t = Some (NCas command b) →
     m_command c = SLEEP ∧ 1 <= m_num_waiters c) ∧
  (m_command c ≠ SLEEP → ∃ t l, a_threads st !! t = Some l ∧ obeys l = true) ∧
  (m_enter_mut c ≠ 0 → ∃ t l, a_threads st !! t = Some l ∧ (obeys l = true ∨ enters l = true)).
Proof.
  intros Hn Hrun. apply cond_run_inv in Hrun as ([[E1 E1'] E2 E3 E4 E5 E6 E7 E8 E9] & _ & _); [|done].
  destruct st as [[e k num x] ts]. cbn in *. unfold SLEEP.
  pose proof (tcount_nonneg counted ts). pose proof (tcount_nonneg at_dec_one ts).
  pose proof (tcount_nonneg enters ts).
  assert (tcount at_dec_one ts <= tcount enters ts) by (apply tcount_le; by intros []).
  assert (k ≠ 0 → ∃ t l, ts !! t = Some l ∧ obeys l = true) as Hobey.
  { intros Hk. destruct (Z.eqb_spec k 0); [done|]. cbn in E1.
    destruct (decide (tcount counted ts = 0)) as [Hz|Hz].
    - destruct (tcount_exists at_cas_all ts) as (t & l & Ht & Hl); [lia|].
      exists t, l. split; [done|]. by destruct l.
    - destruct (tcount_exists counted ts) as (t & l & Ht & Hl); [lia|]. exists t, l. split; [done|].
      destruct (enters l) eqn:Ee; [pose proof (tcount_pos enters ts t l Ht Ee); lia|]. by destruct l. }
  split_and!; [done| | | |done|].
  - destruct (k =? 1), (k =? 2); cbn in *; lia.
  - intros ->. destruct (Z.eqb_spec k 0) as [->|]; cbn in *; [|lia]. lia.
  - intros t command b Ht. pose proof (tcount_pos enters ts t _ Ht eq_refl).
    pose proof (tcount_pos at_notify ts t _ Ht eq_refl).
    destruct (Z.eqb_spec k 0); cbn in *; lia.
  - intros He. destruct (decide (k = 0)) as [->|Hk]; [|naive_solver].
    destruct (tcount_exists enters ts) as (t & l & Ht & Hl); [cbn in *; lia|]. exists t, l. auto.
Qed.

(** Two threads wait, a third notifies all; one of the two has left. *)
Definition cond_demo : list (nat * cond_choice) :=
  let go t := (t, CGo false) in
  [(0%nat, CLockExt); (0%nat, CWait false); go 0%nat; go 0%nat; go 0%nat; go 0%nat;
   (1%nat, CLockExt); (1%nat, CWait true); go 1%nat; go 1%nat; go 1%nat; go 1%nat;
   (2%nat, CNotify true); go 2%nat; go 2%nat; go 2%nat; go 0%nat; go 0%nat; go 0%nat].

Lemma spin_condition_exact_witness :
  arun cond_next cond_demo (cond_start 3) =
    Some (ASys (SCond 1 2 1 false) [WRelock true; WPoll true; COut], [Issued 2; Woken]) ∧
  ∃ t l, [WRelock true; WPoll true; COut] !! t = Some l ∧ obeys l = true.
Proof.
  split; [vm_compute; reflexivity|].
  destruct (spin_condition_exact 3 cond_demo
    (ASys (SCond 1 2 1 false) [WRelock true; WPoll true; COut]) [Issued 2; Woken])
    as (_ & _ & _ & _ & H & _); [lia|vm_compute; reflexivity|].
  apply H. cbn. unfold SLEEP. lia.
Defined.
