(* ===== verification/SmartCount.v ===== *)
(** The reference counts of [shared_ptr] and [weak_ptr] under concurrency.

    Models [sp_counted_base] of smart_ptr/detail/sp_counted_base_atomic.hpp,
    [release] and [weak_release] of [sp_counted_impl_pd]
    (smart_ptr/detail/sp_counted_impl.hpp) and [lock] of
    smart_ptr/weak_ptr.hpp for one counted object, at the granularity of single
    atomic accesses.  A thread has any number of [shared_ptr] and [weak_ptr]
    objects that share it; pointers that threads hand over to each other (moved
    or swapped under the user's synchronisation) pass through a pool. *)

From S2P Require Import Prelude Atomic.

(** ** The counted object *)

Record counted := Counted {
  use_count : Z;     (** #shared *)
  weak_count : Z;    (** #weak + (#shared != 0) *)
  c_freed : bool;    (** the memory of the counts has been deallocated *)
  pool_shared : nat; (** pointers that are being handed over *)
  pool_weak : nat
}.

Inductive sp_pc :=
| SPIdle
| SPAddRef             (** before the increment of [add_ref_copy] *)
| SPRelease            (** before the decrement of [ref_release] *)
| SPDispose            (** [release] after the last [ref_release] *)
| SPWeakAdd            (** before the increment of [weak_add_ref] *)
| SPWeakRelease (last : bool)
                       (** before the decrement of [weak_release]; [last] in [release] after [dispose] *)
| SPDestroy            (** [weak_release] after the last decrement *)
| SPExpired            (** before the read of [expired] in [lock] *)
| SPLockRead           (** before the read of [add_ref_lock] *)
| SPLockCas (tmp : Z). (** before its compare-and-swap, with [tmp] read *)

(** A thread: its [shared_ptr]s, its [weak_ptr]s and what it is doing. *)
Record sp_thread := SpThread { n_shared : nat; n_weak : nat; sp_at : sp_pc }.

Inductive sp_choice :=
| CCopy | CDrop            (** copy or destroy a [shared_ptr] *)
| CWeak | CWeakDrop        (** make a [weak_ptr] of a pointer, destroy one *)
| CLock                    (** [weak_ptr::lock] *)
| CGive | CTake | CGiveWeak | CTakeWeak
| CGo.

(** What happens on the way: increments, the call of the deleter, the
    deallocation of the counts, results of [lock], and accesses to counts that
    have been deallocated. *)
Inductive sp_event := EAddRef | EDispose | EDestroy | ELocked | ELockFailed | EBadAccess.

#[export] Instance sp_event_eq : EqDecision sp_event.
Proof. solve_decision. Defined.

Definition set_use (u : Z) (c : counted) : counted :=
  Counted u (weak_count c) (c_freed c) (pool_shared c) (pool_weak c).
Definition set_weak (w : Z) (c : counted) : counted :=
  Counted (use_count c) w (c_freed c) (pool_shared c) (pool_weak c).
Definition set_pools (s w : nat) (c : counted) : counted :=
  Counted (use_count c) (weak_count c) (c_freed c) s w.

(** *** The functions of [sp_counted_base] *)

Definition add_ref_copy (c : counted) : counted := set_use (snd (atomic_inc32 (use_count c))) c.
Definition ref_release (c : counted) : bool * counted :=
  let '(prev, u) := atomic_dec32 (use_count c) in (prev =? 1, set_use u c).
Definition weak_add_ref (c : counted) : counted := set_weak (snd (atomic_inc32 (weak_count c))) c.
Definition weak_release (c : counted) : bool * counted :=
  let '(prev, w) := atomic_dec32 (weak_count c) in (prev =? 1, set_weak w c).

(** The compare-and-swap of [add_ref_lock]: whether it took a reference. *)
Definition add_ref_lock_cas (tmp : Z) (c : counted) : bool * counted :=
  let '(prev, u) := atomic_cas32 (u32 (tmp + 1)) tmp (use_count c) in (prev =? tmp, set_use u c).

(** [destroy] deallocates the counts. *)
Definition destroy (c : counted) : counted :=
  Counted (use_count c) (weak_count c) true (pool_shared c) (pool_weak c).

(** *** A thread's next access *)

Definition sp_call (ch : sp_choice) (th : sp_thread) (c : counted) : option (sp_thread * counted) :=
  let 'SpThread s w _ := th in
  match ch, s, w with
  | CCopy, S _, _ => Some (SpThread s w SPAddRef, c)
  | CDrop, S s', _ => Some (SpThread s' w SPRelease, c)
  | CWeak, S _, _ | CWeak, _, S _ => Some (SpThread s w SPWeakAdd, c)
  | CWeakDrop, _, S w' => Some (SpThread s w' (SPWeakRelease false), c)
  | CLock, _, S _ => Some (SpThread s w SPExpired, c)
  | CGive, S s', _ => Some (SpThread s' w SPIdle, set_pools (S (pool_shared c)) (pool_weak c) c)
  | CTake, _, _ =>
      match pool_shared c with
      | S n => Some (SpThread (S s) w SPIdle, set_pools n (pool_weak c) c)
      | O => None
      end
  | CGiveWeak, _, S w' => Some (SpThread s w' SPIdle, set_pools (pool_shared c) (S (pool_weak c)) c)
  | CTakeWeak, _, _ =>
      match pool_weak c with
      | S n => Some (SpThread s (S w) SPIdle, set_pools (pool_shared c) n c)
      | O => None
      end
  | _, _, _ => None
  end.

Definition sp_go (s w : nat) (pc : sp_pc) (c : counted) : sp_thread * counted * list sp_event :=
  match pc with
  | SPIdle => (SpThread s w SPIdle, c, [])
  | SPAddRef => (SpThread (S s) w SPIdle, add_ref_copy c, [EAddRef])
  | SPRelease =>
      let '(last, c) := ref_release c in (SpThread s w (if last then SPDispose else SPIdle), c, [])
  | SPDispose => (SpThread s w (SPWeakRelease true), c, [EDispose])
  | SPWeakAdd => (SpThread s (S w) SPIdle, weak_add_ref c, [EAddRef])
  | SPWeakRelease _ =>
      let '(last, c) := weak_release c in (SpThread s w (if last then SPDestroy else SPIdle), c, [])
  | SPDestroy => (SpThread s w SPIdle, destroy c, [EDestroy])
  | SPExpired =>
      if use_count c =? 0 then (SpThread s w SPIdle, c, [ELockFailed]) else (SpThread s w SPLockRead, c, [])
  | SPLockRead =>
      let tmp := use_count c in
      if tmp =? 0 then (SpThread s w SPIdle, c, [ELockFailed]) else (SpThread s w (SPLockCas tmp), c, [])
  | SPLockCas tmp =>
      let '(got, c) := add_ref_lock_cas tmp c in
      if got : bool then (SpThread (S s) w SPIdle, c, [ELocked; EAddRef]) else (SpThread s w SPLockRead, c, [])
  end.

Definition sp_next (_ : nat) (ch : sp_choice) (th : sp_thread) (c : counted)
  : option (sp_thread * counted * list sp_event) :=
  match sp_at th, ch with
  | SPIdle, CGo => None
  | SPIdle, _ => '(th, c) ← sp_call ch th c; Some (th, c, [])
  | pc, CGo =>
      let '(th', c', ev) := sp_go (n_shared th) (n_weak th) pc c in
      Some (th', c', if c_freed c then EBadAccess :: ev else ev)
  | _, _ => None
  end.

(** The first thread has the [shared_ptr] that was constructed from the pointer. *)
Definition sp_start (n : nat) : asys counted sp_thread :=
  ASys (Counted 1 1 false 0 0) (SpThread 1 0 SPIdle :: replicate n (SpThread 0 0 SPIdle)).

(** ** The invariant *)

Definition shared_refs (th : sp_thread) : Z :=
  Z.of_nat (n_shared th) + match sp_at th with SPRelease => 1 | _ => 0 end.
Definition weak_refs (th : sp_thread) : Z :=
  Z.of_nat (n_weak th) + match sp_at th with SPWeakRelease false => 1 | _ => 0 end.
Definition at_dispose (th : sp_thread) : bool := match sp_at th with SPDispose => true | _ => false end.
Definition at_last (th : sp_thread) : bool := match sp_at th with SPWeakRelease true => true | _ => false end.
Definition at_destroy (th : sp_thread) : bool := match sp_at th with SPDestroy => true | _ => false end.

(** A thread in the middle of a call has the pointer it made the call with. *)
Definition local_ok (th : sp_thread) : Prop :=
  match sp_at th with
  | SPAddRef => (0 < n_shared th)%nat
  | SPWeakAdd => (0 < n_shared th + n_weak th)%nat
  | SPExpired | SPLockRead => (0 < n_weak th)%nat
  | SPLockCas tmp => (0 < n_weak th)%nat ∧ 0 < tmp
  | _ => True
  end.

Definition times (e : sp_event) (es : list sp_event) : Z := Z.of_nat (length (filter (.= e) es)).

(** As many pointers at a time as a word can count. *)
Definition few (c : counted) (ts : list sp_thread) : bool :=
  (tsum shared_refs ts + Z.of_nat (pool_shared c) <? 4294967296) && (tsum weak_refs ts + Z.of_nat (pool_weak c) <? 4294967295).

(** There are never more during the run. *)
Fixpoint always_few (sched : list (nat * sp_choice)) (st : asys counted sp_thread) : bool :=
  few (a_shared st) (a_threads st) &&
  match sched with
  | [] => true
  | (t, ch) :: sched => match astep sp_next t ch st with Some (st', _) => always_few sched st' | None => true end
  end.

Record sp_inv (c : counted) (ts : list sp_thread) (es : list sp_event) : Prop := {
  si_use : use_count c = tsum shared_refs ts + Z.of_nat (pool_shared c);
  si_weak : weak_count c = tsum weak_refs ts + Z.of_nat (pool_weak c) + b2z (negb (use_count c =? 0)) +
    tcount at_dispose ts + tcount at_last ts;
  si_dispose : if use_count c =? 0 then tcount at_dispose ts + times EDispose es = 1 ∧
      tcount at_last ts <= times EDispose es
    else tcount at_dispose ts = 0 ∧ tcount at_last ts = 0 ∧ times EDispose es = 0;
  si_destroy : if weak_count c =? 0 then tcount at_destroy ts + times EDestroy es = 1
    else tcount at_destroy ts = 0 ∧ times EDestroy es = 0;
  si_freed : b2z (c_freed c) = times EDestroy es;
  si_local : Forall local_ok ts;
  si_access : EBadAccess ∉ es
}.

Lemma times_app e es es' : times e (es ++ es') = times e es + times e es'.
Proof. unfold times. rewrite filter_app, length_app. lia. Qed.

Lemma times_nonneg e es : 0 <= times e es.
Proof. unfold times. lia. Qed.

Lemma shared_refs_nonneg th : 0 <= shared_refs th.
Proof. unfold shared_refs. destruct (sp_at th); lia. Qed.
Lemma weak_refs_nonneg th : 0 <= weak_refs th.
Proof. unfold weak_refs. destruct (sp_at th) as [| | | | |[]| | | |]; lia. Qed.

(** A thread that accesses the counts does so before they are deallocated. *)
Lemma not_freed c ts es t th :
  sp_inv c ts es → ts !! t = Some th → sp_at th ≠ SPIdle → c_freed c = false.
Proof.
  intros H Ht Hpc. destruct (c_freed c) eqn:Ef; [exfalso|done].
  pose proof (si_freed _ _ _ H) as Hf. rewrite Ef in Hf. cbn in Hf.
  pose proof (si_destroy _ _ _ H) as Hd. pose proof (si_weak _ _ _ H) as Hw. pose proof (si_use _ _ _ H) as Hu.
  pose proof (proj1 (Forall_lookup _ _) (si_local _ _ _ H) _ _ Ht) as Hl.
  destruct (tsum_split shared_refs ts t th th shared_refs_nonneg Ht) as (r1 & ? & E1 & _).
  destruct (tsum_split weak_refs ts t th th weak_refs_nonneg Ht) as (r2 & ? & E2 & _).
  destruct (tcount_split at_dispose ts t th th Ht) as (r3 & ? & E3 & _).
  destruct (tcount_split at_last ts t th th Ht) as (r4 & ? & E4 & _).
  destruct (tcount_split at_destroy ts t th th Ht) as (r5 & ? & E5 & _).
  rewrite E1 in *. rewrite E2, E3, E4, E5 in *. destruct th as [s w pc].
  unfold shared_refs, weak_refs, at_dispose, at_last, at_destroy, local_ok in *. cbn [n_shared n_weak sp_at] in *.
  destruct (Z.eqb_spec (weak_count c) 0); [|lia].
  destruct (Z.eqb_spec (use_count c) 0); destruct pc as [| | | | |[]| | | |]; cbn in *; lia || done.
Qed.

(** The count of an event in a concrete list. *)
Ltac sp_times := repeat match goal with
  | |- context [times ?e []] => change (times e []) with 0
  | |- context [times ?e (?x :: ?l)] =>
      let v := eval vm_compute in (times e (x :: l)) in change (times e (x :: l)) with v
  end.
Ltac sp_eqb := repeat match goal with
  | |- context [Z.eqb ?x ?y] => destruct (Z.eqb_spec x y); cbn [b2z negb]; try lia
  end.
Ltac sp_finish :=
  split; cbn [use_count weak_count c_freed pool_shared pool_weak set_use set_weak set_pools length];
    repeat match goal with E : tsum _ (<[_ := _]> _) = _ |- _ => rewrite E; clear E end;
    repeat match goal with E : tcount _ (<[_ := _]> _) = _ |- _ => rewrite E; clear E end;
    rewrite ?times_app, ?length_app, ?app_nil_r; sp_times;
    [| | | | |apply Forall_insert; [assumption|]|rewrite ?elem_of_app, ?elem_of_cons, ?elem_of_nil; naive_solver];
    unfold shared_refs, weak_refs, at_dispose, at_last, at_destroy, local_ok; cbn;
    try lia; sp_eqb.

Lemma sp_step_inv c ts es t ch c' ts' ev :
  sp_inv c ts es → astep sp_next t ch (ASys c ts) = Some (ASys c' ts', ev) →
  few c' ts' = true → sp_inv c' ts' (es ++ ev).
Proof.
  intros H (th & th' & c1 & Ht & Hn & [= -> ->])%astep_inv [Hfew1%Z.ltb_lt Hfew2%Z.ltb_lt]%andb_true_iff.
  destruct (tsum_split shared_refs ts t th th' shared_refs_nonneg Ht) as (r1 & ? & E1 & E1').
  destruct (tsum_split weak_refs ts t th th' weak_refs_nonneg Ht) as (r2 & ? & E2 & E2').
  destruct (tcount_split at_dispose ts t th th' Ht) as (r3 & ? & E3 & E3').
  destruct (tcount_split at_last ts t th th' Ht) as (r4 & ? & E4 & E4').
  destruct (tcount_split at_destroy ts t th th' Ht) as (r5 & ? & E5 & E5').
  pose proof (proj1 (Forall_lookup _ _) (si_local _ _ _ H) _ _ Ht) as Hl.
  assert (sp_at th ≠ SPIdle → c_freed c = false) as Hfr by (by eapply not_freed).
  destruct H as [Hu Hw Hd Hx Hf Hloc Hacc]. rewrite E1 in Hu. rewrite E2, E3, E4 in Hw. rewrite E3, E4 in Hd.
  rewrite E5 in Hx. rewrite E1' in Hfew1. rewrite E2' in Hfew2.
  destruct c as [use weak freed ps pw], th as [s w pc].
  cbn [use_count weak_count c_freed pool_shared pool_weak n_shared n_weak sp_at] in *.
  pose proof (times_nonneg EDispose es). pose proof (times_nonneg EDestroy es).
  assert (0 <= use) as Hu0 by (pose proof (shared_refs_nonneg (SpThread s w pc)); lia).
  assert (0 <= weak) as Hw0 by (pose proof (weak_refs_nonneg (SpThread s w pc)); destruct (use =? 0); cbn in Hw; destruct (at_dispose _), (at_last _); cbn in Hw; lia).
  clear E1 E2 E3 E4 E5.
  unfold shared_refs, weak_refs, at_dispose, at_last, at_destroy, local_ok in Hu, Hw, Hd, Hx, Hl; cbn in Hu, Hw, Hd, Hx, Hl.
  destruct (Z.eqb_spec use 0), (Z.eqb_spec weak 0); cbn in Hw.
  all: destruct pc as [| | | | |last| | | |tmp].
  all: unfold sp_next, sp_call in Hn; cbn in Hn; try rewrite Hfr in Hn by done; repeat case_match; simplify_eq/=.
  all: unfold shared_refs, weak_refs in Hfew1, Hfew2; cbn in Hfew1, Hfew2.
  all: unfold add_ref_copy, weak_add_ref; cbn [atomic_inc32 snd use_count weak_count].
  all: repeat match goal with
    | H : context [Z.eqb ?x ?y] |- _ => destruct (Z.eqb_spec x y); try lia; simplify_eq/=
    | |- context [Z.eqb ?x ?y] => destruct (Z.eqb_spec x y); try lia; simplify_eq/=
    | |- context [u32 ?x] => rewrite (u32_small x) by (unfold in_u32; lia)
    end.
  all: sp_finish.
Qed.

Lemma sp_run_inv sched : ∀ c ts es st ev,
  sp_inv c ts es → arun sp_next sched (ASys c ts) = Some (st, ev) → always_few sched (ASys c ts) = true →
  sp_inv (a_shared st) (a_threads st) (es ++ ev).
Proof.
  induction sched as [|[t ch] sched IH]; intros c ts es st ev H Hrun [_ Hf]%andb_true_iff; cbn in Hrun.
  - injection Hrun as <- <-. by rewrite app_nil_r.
  - destruct (astep sp_next t ch (ASys c ts)) as [[[c1 ts1] ev1]|] eqn:E1; [cbn in Hrun|done].
    destruct (arun sp_next sched (ASys c1 ts1)) as [[st2 ev2]|] eqn:E2; [cbn in Hrun|done].
    injection Hrun as <- <-. rewrite app_assoc. apply (IH c1 ts1); [|done|done]. apply (sp_step_inv c ts es t ch c1 ts1 ev1 H E1).
    destruct sched as [|[t2 ch2] sched]; cbn in Hf; by apply andb_true_iff in Hf as [? _].
Qed.

Lemma sp_start_inv n : sp_inv (a_shared (sp_start n)) (a_threads (sp_start n)) [].
Proof.
  cbn. assert (∀ f : sp_thread → bool, f (SpThread 0 0 SPIdle) = false →
    tcount f (replicate n (SpThread 0 0 SPIdle)) = 0) as Hc by (intros; by apply tcount_replicate).
  assert (∀ f : sp_thread → Z, f (SpThread 0 0 SPIdle) = 0 →
    tsum f (replicate n (SpThread 0 0 SPIdle)) = 0) as Hs
    by (intros f Hf; induction n as [|n IH]; cbn; [done|]; rewrite Hf, IH; [done|]; intros; by apply tcount_replicate).
  split; cbn; rewrite ?Hc, ?Hs by done; try done.
  - constructor; [done|]. by apply Forall_replicate.
  - by apply not_elem_of_nil.
Qed.

(** ** The theorem *)

(** C11: [shared_ptr] and [weak_ptr] under any interleaving of the accesses to
    their counts, in runs of any length during which there are never more pointers
    at a time than the 32-bit counts can count.  The counts are never
    accessed after their deallocation; [use_count] is the number of shared
    pointers; the deleter runs at most once, and has run or is about to run
    exactly if there is no shared pointer left, so that no thread with a shared
    pointer (and no successful [lock]) sees a deleted object; the counts are
    deallocated exactly once, after the deleter, when the last pointer of
    either kind is gone. *)
Theorem sp_counts_exact (n : nat) (sched : list (nat * sp_choice)) st ev :
  arun sp_next sched (sp_start n) = Some (st, ev) → always_few sched (sp_start n) = true →
  EBadAccess ∉ ev ∧
  use_count (a_shared st) = tsum shared_refs (a_threads st) + Z.of_nat (pool_shared (a_shared st)) ∧
  times EDispose ev + tcount at_dispose (a_threads st) = b2z (use_count (a_shared st) =? 0) ∧
  (∀ t th, a_threads st !! t = Some th → (0 < n_shared th)%nat → times EDispose ev = 0) ∧
  times EDestroy ev + tcount at_destroy (a_threads st) = b2z (weak_count (a_shared st) =? 0) ∧
  (times EDestroy ev = 1 → times EDispose ev = 1 ∧
     ∀ t th, a_threads st !! t = Some th → th = SpThread 0 0 SPIdle) ∧
  weak_count (a_shared st) = tsum weak_refs (a_threads st) + Z.of_nat (pool_weak (a_shared st)) +
    b2z (negb (use_count (a_shared st) =? 0)) + tcount at_dispose (a_threads st) + tcount at_last (a_threads st).
Proof.
  intros Hrun Hf. pose proof (sp_run_inv sched _ _ _ st ev (sp_start_inv n) Hrun Hf) as H. rewrite app_nil_l in H. destruct st as [c ts]. cbn [a_shared a_threads] in *.
  pose proof (λ t th, not_freed c ts ev t th H) as Hnf. destruct H as [Hu Hw Hd Hx Hfr Hloc Hacc].
  pose proof (times_nonneg EDispose ev). pose proof (tcount_nonneg at_last ts).
  assert (times EDispose ev + tcount at_dispose ts = b2z (use_count c =? 0)) as Hdisp
    by (destruct (use_count c =? 0); cbn; lia).
  split_and!; try done.
  - intros t th Ht Hs. destruct (tsum_split shared_refs ts t th th shared_refs_nonneg Ht) as (r & ? & E & _).
    rewrite E in Hu. unfold shared_refs in Hu. pose proof (tcount_nonneg at_dispose ts).
    destruct (Z.eqb_spec (use_count c) 0); [destruct (sp_at th); lia|cbn in *; lia].
  - destruct (weak_count c =? 0); cbn; lia.
  - intros Hdes. destruct (Z.eqb_spec (weak_count c) 0) as [Ew|]; [|lia].
    pose proof (tsum_nonneg weak_refs ts weak_refs_nonneg). pose proof (tcount_nonneg at_dispose ts).
    destruct (Z.eqb_spec (use_count c) 0) as [Eu|]; cbn in Hw, Hdisp; [|lia]. split; [lia|].
    intros t [s w pc] Ht.
    destruct (tsum_split shared_refs ts t _ (SpThread s w pc) shared_refs_nonneg Ht) as (r1 & ? & E1 & _).
    destruct (tsum_split weak_refs ts t _ (SpThread s w pc) weak_refs_nonneg Ht) as (r2 & ? & E2 & _).
    rewrite E1 in Hu. rewrite E2 in Hw. unfold shared_refs, weak_refs in *. cbn [n_shared n_weak sp_at] in *.
    assert (pc = SPIdle) as ->.
    { destruct (decide (c_freed c = false)) as [Ef|Hc]; [rewrite Ef in Hfr; cbn in Hfr; lia|].
      specialize (Hnf t _ Ht). cbn in Hnf. destruct pc; try done; by destruct Hc; apply Hnf. }
    f_equal; lia.
Qed.

Definition sp_demo : list (nat * sp_choice) :=
  [(0%nat, CWeak); (0%nat, CGo); (0%nat, CGiveWeak); (1%nat, CTakeWeak); (1%nat, CLock); (1%nat, CGo);
   (1%nat, CGo); (0%nat, CDrop); (0%nat, CGo); (1%nat, CGo); (1%nat, CGo); (0%nat, CGo); (0%nat, CGo);
   (1%nat, CWeakDrop); (1%nat, CGo); (1%nat, CGo)].

Lemma sp_counts_exact_witness :
  ∃ st, arun sp_next sp_demo (sp_start 1) = Some (st, [EAddRef; ELockFailed; EDispose; EDestroy]) ∧
    use_count (a_shared st) = 0 ∧ ∀ t th, a_threads st !! t = Some th → th = SpThread 0 0 SPIdle.
Proof.
  eexists. split; [vm_compute; reflexivity|].
  edestruct (sp_counts_exact 1 sp_demo) as (_ & _ & _ & _ & _ & H & _);
    [vm_compute; reflexivity|vm_compute; reflexivity|].
  split; [reflexivity|]. apply H. reflexivity.
Defined.
