(* ===== verification/SmartPtr.v ===== *)
(** [shared_ptr] and [weak_ptr]: ownership.

    Models [shared_count] and [weak_count] of
    smart_ptr/detail/shared_count.hpp, [sp_counted_impl_pd] of
    smart_ptr/detail/sp_counted_impl.hpp and the members of
    smart_ptr/shared_ptr.hpp and smart_ptr/weak_ptr.hpp.  Pointer objects are
    variables; each has the stored pointer [m_px] and the address [m_pi] of the
    counts it shares, or null.  Temporaries are variables named by the caller.
    The deleter is code of the user; its calls are recorded. *)

From S2P Require Import Prelude Atomic.

(** ** State *)

(** [sp_counted_impl_pd]: the counts and the pointer for the deleter. *)
Record sblock := SBlock { b_use : Z; b_weak : Z; b_ptr : Z }.

(** [shared_count] and [weak_count]. *)
Record spobj := SpObj { m_px : Z; m_pi : Z }.

Record spst := SpSt {
  s_shared : gmap nat spobj;
  s_weak : gmap nat spobj;
  s_blocks : gmap Z sblock;
  s_deleted : list Z   (** arguments of the deleter, the last call first *)
}.

Definition set_shared (f : gmap nat spobj → gmap nat spobj) (s : spst) : spst :=
  SpSt (f (s_shared s)) (s_weak s) (s_blocks s) (s_deleted s).
Definition set_weaks (f : gmap nat spobj → gmap nat spobj) (s : spst) : spst :=
  SpSt (s_shared s) (f (s_weak s)) (s_blocks s) (s_deleted s).
Definition set_blocks (f : gmap Z sblock → gmap Z sblock) (s : spst) : spst :=
  SpSt (s_shared s) (s_weak s) (f (s_blocks s)) (s_deleted s).
Definition call_deleter (p : Z) : M spst () :=
  modify (λ s, SpSt (s_shared s) (s_weak s) (s_blocks s) (p :: s_deleted s)).

Definition ld_shared (v : nat) : M spst spobj := λ s,
  match s_shared s !! v with Some o => Ret (o, s) | None => Fault BadAccess end.
Definition st_shared (v : nat) (o : spobj) : M spst () := modify (set_shared <[v := o]>).
Definition ld_weak (w : nat) : M spst spobj := λ s,
  match s_weak s !! w with Some o => Ret (o, s) | None => Fault BadAccess end.
Definition st_weak (w : nat) (o : spobj) : M spst () := modify (set_weaks <[w := o]>).
Definition ld_block (a : Z) : M spst sblock := λ s,
  match s_blocks s !! a with Some b => Ret (b, s) | None => Fault BadAccess end.
Definition st_block (a : Z) (b : sblock) : M spst () := modify (set_blocks <[a := b]>).

(** ** [sp_counted_base] and [sp_counted_impl_pd] *)

Definition blk_add_ref_copy (a : Z) : M spst () :=
  b ← ld_block a; st_block a (SBlock (snd (atomic_inc32 (b_use b))) (b_weak b) (b_ptr b)).

(** Without concurrent accesses the loop of [add_ref_lock] ends at once. *)
Definition blk_add_ref_lock (a : Z) : M spst bool :=
  b ← ld_block a;
  let tmp := b_use b in
  if tmp =? 0 then mret false else
  let '(prev, u) := atomic_cas32 (u32 (tmp + 1)) tmp tmp in
  st_block a (SBlock u (b_weak b) (b_ptr b));;
  mret (prev =? tmp).

Definition blk_weak_add_ref (a : Z) : M spst () :=
  b ← ld_block a; st_block a (SBlock (b_use b) (snd (atomic_inc32 (b_weak b))) (b_ptr b)).

Definition blk_weak_release (a : Z) : M spst () :=
  b ← ld_block a;
  let '(prev, w) := atomic_dec32 (b_weak b) in
  st_block a (SBlock (b_use b) w (b_ptr b));;
  if prev =? 1 then modify (set_blocks (delete a)) (* destroy *) else mret ().

Definition blk_release (a : Z) : M spst () :=
  b ← ld_block a;
  let '(prev, u) := atomic_dec32 (b_use b) in
  st_block a (SBlock u (b_weak b) (b_ptr b));;
  if prev =? 1 then call_deleter (b_ptr b) (* dispose *);; blk_weak_release a else mret ().

Definition use_count_of (a : Z) : M spst Z :=
  if a =? 0 then mret 0 else b ← ld_block a; mret (b_use b).

(** ** [shared_count] *)

Definition sc_default (v : nat) : M spst () := st_shared v (SpObj 0 0).

(** The constructor from a pointer; [mem] is what the allocator returns for the
    counts, or [None] if it throws.  Whether the object was constructed. *)
Definition sc_ctor (v : nat) (p : Z) (mem : option Z) : M spst bool :=
  if p =? 0 then st_shared v (SpObj p 0);; mret true else
  match mem with
  | Some a => st_block a (SBlock 1 1 p);; st_shared v (SpObj p a);; mret true
  | None => call_deleter p;; mret false
  end.

Definition sc_dtor (v : nat) : M spst () :=
  o ← ld_shared v;
  (if m_pi o =? 0 then mret () else blk_release (m_pi o));;
  modify (set_shared (delete v)).

Definition sc_copy (v r : nat) : M spst () :=
  o ← ld_shared r;
  st_shared v o;;
  if m_pi o =? 0 then mret () else blk_add_ref_copy (m_pi o).

(** [shared_count(ptr, r)], used by the casts. *)
Definition sc_copy_with (v : nat) (ptr : Z) (r : nat) : M spst () :=
  o ← ld_shared r;
  st_shared v (SpObj ptr (m_pi o));;
  if m_pi o =? 0 then mret () else blk_add_ref_copy (m_pi o).

(** [shared_count(other, p)], used by the aliasing constructor. *)
Definition sc_alias (v r : nat) (p : Z) : M spst () :=
  o ← ld_shared r; st_shared v (SpObj p (m_pi o)).

(** From a [weak_count]; false if [bad_weak_ptr] is thrown. *)
Definition sc_from_weak (v w : nat) : M spst bool :=
  o ← ld_weak w;
  if m_pi o =? 0 then mret false else
  ok ← blk_add_ref_lock (m_pi o);
  if ok : bool then st_shared v o;; mret true else mret false.

Definition sc_assign (v r : nat) : M spst () :=
  o ← ld_shared v;
  ro ← ld_shared r;
  let tmp := m_pi ro in
  st_shared v (SpObj (m_px ro) (m_pi o));;
  if tmp =? m_pi o then mret () else
  (if tmp =? 0 then mret () else blk_add_ref_copy tmp);;
  (if m_pi o =? 0 then mret () else blk_release (m_pi o));;
  st_shared v (SpObj (m_px ro) tmp).

Definition sc_swap (v r : nat) : M spst () :=
  o ← ld_shared v; ro ← ld_shared r; st_shared v ro;; st_shared r o.

Definition sc_use_count (v : nat) : M spst Z := o ← ld_shared v; use_count_of (m_pi o).
Definition sc_unique (v : nat) : M spst bool := n ← sc_use_count v; mret (n =? 1).

(** ** [weak_count] *)

Definition wc_default (w : nat) : M spst () := st_weak w (SpObj 0 0).

Definition wc_store (w : nat) (o : spobj) : M spst () :=
  st_weak w o;; if m_pi o =? 0 then mret () else blk_weak_add_ref (m_pi o).
Definition wc_from_shared (w r : nat) : M spst () := o ← ld_shared r; wc_store w o.
Definition wc_copy (w r : nat) : M spst () := o ← ld_weak r; wc_store w o.

Definition wc_dtor (w : nat) : M spst () :=
  o ← ld_weak w;
  (if m_pi o =? 0 then mret () else blk_weak_release (m_pi o));;
  modify (set_weaks (delete w)).

(** The assignments: [px] is the stored pointer afterwards. *)
Definition wc_assign_to (w : nat) (px tmp : Z) : M spst () :=
  o ← ld_weak w;
  st_weak w (SpObj px (m_pi o));;
  (if tmp =? 0 then mret () else blk_weak_add_ref tmp);;
  (if m_pi o =? 0 then mret () else blk_weak_release (m_pi o));;
  st_weak w (SpObj px tmp).
Definition wc_assign_shared (w r : nat) : M spst () :=
  ro ← ld_shared r; wc_assign_to w (m_px ro) (m_pi ro).
Definition wc_assign (w r : nat) : M spst () :=
  ro ← ld_weak r; wc_assign_to w (m_px ro) (m_pi ro).
(** From a [weak_count] of another type: the pointer is set later. *)
Definition wc_assign_convert (w r : nat) : M spst () :=
  o ← ld_weak w; ro ← ld_weak r; wc_assign_to w (m_px o) (m_pi ro).
Definition wc_set_pointer (w : nat) (p : Z) : M spst () :=
  o ← ld_weak w; st_weak w (SpObj p (m_pi o)).
Definition wc_use_count (w : nat) : M spst Z := o ← ld_weak w; use_count_of (m_pi o).

(** ** [shared_ptr]

    The pointed type does not derive from [enable_shared_from_this]; the hook the
    constructor calls is then empty. *)

Definition shared_ptr_ctor (v : nat) (p : Z) (mem : option Z) : M spst bool := sc_ctor v p mem.
Definition shared_ptr_copy (v r : nat) : M spst () := sc_copy v r.
Definition shared_ptr_alias (v r : nat) (p : Z) : M spst () := sc_alias v r p.
Definition shared_ptr_from_weak (v w : nat) : M spst bool := sc_from_weak v w.
Definition shared_ptr_move (v r : nat) : M spst () := sc_default v;; sc_swap v r.

(** [static_pointer_cast] and [const_pointer_cast]: [cast] is [static_cast<T*>],
    which can move the pointer to another subobject, or [const_cast<T*>]. *)
Definition shared_ptr_cast (cast : Z → Z) (v r : nat) : M spst () :=
  o ← ld_shared r; sc_copy_with v (cast (m_px o)) r.

(** [dynamic_pointer_cast]: [cast] is [dynamic_cast<T*>]. *)
Definition shared_ptr_dynamic_cast (cast : Z → Z) (v r tmp : nat) : M spst () :=
  o ← ld_shared r;
  sc_copy_with v (cast (m_px o)) r;;
  if cast (m_px o) =? 0 then sc_default tmp;; sc_assign v tmp;; sc_dtor tmp else mret ().

Definition shared_ptr_assign (v r : nat) : M spst () := sc_assign v r.
Definition shared_ptr_move_assign (v r tmp : nat) : M spst () :=
  shared_ptr_copy tmp r;; sc_swap tmp v;; sc_dtor tmp.
Definition shared_ptr_reset (v tmp : nat) : M spst () :=
  sc_default tmp;; sc_swap tmp v;; sc_dtor tmp.
Definition shared_ptr_reset_to (v tmp : nat) (p : Z) (mem : option Z) : M spst bool :=
  ok ← shared_ptr_ctor tmp p mem;
  if ok : bool then sc_swap tmp v;; sc_dtor tmp;; mret true else mret false.
Definition shared_ptr_get (v : nat) : M spst Z := o ← ld_shared v; mret (m_px o).

(** ** [weak_ptr] *)

Definition weak_ptr_expired (w : nat) : M spst bool := n ← wc_use_count w; mret (n =? 0).

(** [lock]: its result is the variable [v]. *)
Definition weak_ptr_lock (v w : nat) : M spst () :=
  e ← weak_ptr_expired w;
  if e : bool then sc_default v else
  ok ← shared_ptr_from_weak v w;
  if ok : bool then mret () else sc_default v.

Definition weak_ptr_convert (w r tmp : nat) : M spst () :=
  wc_copy w r;;
  weak_ptr_lock tmp r;;
  p ← shared_ptr_get tmp;
  wc_set_pointer w p;;
  sc_dtor tmp.
Definition weak_ptr_assign_convert (w r tmp : nat) : M spst () :=
  weak_ptr_lock tmp r;;
  wc_assign_convert w r;;
  p ← shared_ptr_get tmp;
  wc_set_pointer w p;;
  sc_dtor tmp.
(** [swap]: [adl_move_swap] finds no [swap] for [weak_count] and takes that of the
    standard library, which copies. *)
Definition weak_ptr_swap (w r tmp : nat) : M spst () :=
  wc_copy tmp w;; wc_assign w r;; wc_assign r tmp;; wc_dtor tmp.
Definition weak_ptr_reset (w this tmp : nat) : M spst () :=
  wc_default this;; weak_ptr_swap this w tmp;; wc_dtor this.

(** ** Counting owners *)

(** The pointer objects that share the counts at [a]. *)
Definition owners (a : Z) (m : gmap nat spobj) : Z := Z.of_nat (size (filter (λ vo, m_pi vo.2 = a) m)).

Lemma owners_nonneg a m : 0 <= owners a m.
Proof. unfold owners. lia. Qed.

Lemma owners_new a m v o : m !! v = None → owners a (<[v := o]> m) = owners a m + b2z (m_pi o =? a).
Proof.
  intros Hv. unfold owners. destruct (Z.eqb_spec (m_pi o) a) as [E|E].
  - rewrite map_filter_insert_True by done. rewrite map_size_insert_None; [cbn; lia|].
    apply map_lookup_filter_None. by left.
  - rewrite map_filter_insert_not'; [cbn; lia|done|]. intros y Hy. congruence.
Qed.

Lemma owners_delete a m v o : m !! v = Some o → owners a (delete v m) = owners a m - b2z (m_pi o =? a).
Proof.
  intros Hv. rewrite <- (insert_id m v o Hv) at 2. rewrite <- insert_delete_eq, owners_new by apply lookup_delete_eq. lia.
Qed.

Lemma owners_set a m v o o' :
  m !! v = Some o → owners a (<[v := o']> m) = owners a m - b2z (m_pi o =? a) + b2z (m_pi o' =? a).
Proof. intros Hv. rewrite <- insert_delete_eq, owners_new, (owners_delete a m v o) by (done || apply lookup_delete_eq). lia. Qed.

Lemma owners_pos a m v o : m !! v = Some o → m_pi o = a → 1 <= owners a m.
Proof. intros Hv E. pose proof (owners_delete a m v o Hv). pose proof (owners_nonneg a (delete v m)). rewrite E, Z.eqb_refl in *. cbn in *. lia. Qed.

Lemma owners_size a m : owners a m <= Z.of_nat (size m).
Proof. unfold owners. apply inj_le. apply map_size_filter. Qed.
