(* ===== verification/SmartPtrInv.v ===== *)
(** [shared_ptr] and [weak_ptr]: the counts during an operation.

    While an operation runs, counts and pointer objects differ by the references
    in flight: [xs] and [xw] say by how many for every address. *)

From S2P Require Import Prelude Atomic SmartPtr.

Implicit Types (s : spst) (xs xw : Z → Z).

Definition use_net s xs (a : Z) : Z := owners a (s_shared s) + xs a.
Definition weak_net s xw (a : Z) : Z := owners a (s_weak s) + xw a.
Definition shift (a d : Z) (x : Z → Z) (b : Z) : Z := x b + (if b =? a then d else 0).

(** The pointer that the deleter of the counts at [a] gets. *)
Definition ptr_at s (a : Z) : Z := default 0 (b_ptr <$> s_blocks s !! a).

Record counts_ok s xs xw : Prop := {
  co_block a b : s_blocks s !! a = Some b →
    a ≠ 0 ∧ b_use b = use_net s xs a ∧ b_weak b = weak_net s xw a + b2z (negb (use_net s xs a =? 0)) ∧
    0 <= use_net s xs a ∧ 0 <= weak_net s xw a ∧ 0 < b_weak b;
  co_none a : a ≠ 0 → s_blocks s !! a = None → use_net s xs a = 0 ∧ weak_net s xw a = 0
}.

(** Every count is the number of pointer objects. *)
Definition none (_ : Z) : Z := 0.
Definition sp_ok s : Prop := counts_ok s none none.

(** An operation that started in [s0] has reached [s]; the deleter has been
    called for exactly the objects that have lost their last owner. *)
Record during s0 s xs xw (N : Z) : Prop := {
  du_counts : counts_ok s xs xw;
  du_bound a : a ≠ 0 → use_net s xs a <= N ∧ weak_net s xw a <= N;
  du_ptr a b b0 : s_blocks s !! a = Some b → s_blocks s0 !! a = Some b0 → b_ptr b = b_ptr b0;
  du_deleted : ∃ dropped, NoDup dropped ∧ s_deleted s = map (ptr_at s0) dropped ++ s_deleted s0 ∧
    ∀ a, a ∈ dropped ↔ a ≠ 0 ∧ 0 < owners a (s_shared s0) ∧ use_net s xs a = 0
}.

Definition bound : Z := 4294967270.

Lemma during_start s :
  sp_ok s → Z.of_nat (size (s_shared s)) < bound → Z.of_nat (size (s_weak s)) < bound →
  during s s none none bound.
Proof.
  intros Hok H1 H2. split; [done| | |].
  - intros a _. unfold use_net, weak_net, none. pose proof (owners_size a (s_shared s)).
    pose proof (owners_size a (s_weak s)). lia.
  - intros a b b0 E1 E2. congruence.
  - exists []. split_and!; [constructor|done|]. intros a. split; [by intros ?%not_elem_of_nil|].
    unfold use_net, none. lia.
Qed.

(** Only the net counts matter. *)
Lemma during_ext s0 s s' xs xw xs' xw' N N' :
  during s0 s xs xw N → N <= N' → s_blocks s' = s_blocks s → s_deleted s' = s_deleted s →
  (∀ a, a ≠ 0 → use_net s' xs' a = use_net s xs a) → (∀ a, a ≠ 0 → weak_net s' xw' a = weak_net s xw a) →
  during s0 s' xs' xw' N'.
Proof.
  intros [[H1 H2] H3 H4 (dr & H5 & H6 & H7)] HN Eb Ed Eu Ew. split.
  - split; intros a; rewrite Eb.
    + intros b Hb. destruct (H1 a b Hb) as (Ha & H). by rewrite Eu, Ew.
    + intros Ha Hb. rewrite Eu, Ew by done. by apply H2.
  - intros a Ha. rewrite Eu, Ew by done. pose proof (H3 a Ha). lia.
  - intros a b b0. rewrite Eb. apply H4.
  - exists dr. rewrite Ed. split_and!; [done|done|]. intros a. rewrite H7.
    split; intros (Ha & ? & ?); (split_and!; [done|done|]); by rewrite ?Eu in * by done.
Qed.

(** *** Changes of pointer objects *)

Lemma during_set_shared s0 s xs xw N v o :
  during s0 s xs xw N →
  during s0 (set_shared <[v := o]> s)
    (λ a, xs a + b2z (from_option (λ o', m_pi o' =? a) false (s_shared s !! v)) - b2z (m_pi o =? a)) xw N.
Proof.
  intros H. eapply during_ext; [exact H|lia|done|done| |done]. intros a _. unfold use_net. cbn.
  destruct (s_shared s !! v) as [o'|] eqn:E; cbn.
  - rewrite (owners_set _ _ _ o') by done. lia.
  - rewrite owners_new by done. lia.
Qed.

Lemma during_del_shared s0 s xs xw N v o :
  during s0 s xs xw N → s_shared s !! v = Some o →
  during s0 (set_shared (delete v) s) (λ a, xs a + b2z (m_pi o =? a)) xw N.
Proof.
  intros H E. eapply during_ext; [exact H|lia|done|done| |done]. intros a _. unfold use_net. cbn.
  rewrite (owners_delete _ _ _ o) by done. lia.
Qed.

Lemma during_set_weak s0 s xs xw N v o :
  during s0 s xs xw N →
  during s0 (set_weaks <[v := o]> s) xs
    (λ a, xw a + b2z (from_option (λ o', m_pi o' =? a) false (s_weak s !! v)) - b2z (m_pi o =? a)) N.
Proof.
  intros H. eapply during_ext; [exact H|lia|done|done|done|]. intros a _. unfold weak_net. cbn.
  destruct (s_weak s !! v) as [o'|] eqn:E; cbn.
  - rewrite (owners_set _ _ _ o') by done. lia.
  - rewrite owners_new by done. lia.
Qed.

Lemma during_del_weak s0 s xs xw N v o :
  during s0 s xs xw N → s_weak s !! v = Some o →
  during s0 (set_weaks (delete v) s) xs (λ a, xw a + b2z (m_pi o =? a)) N.
Proof.
  intros H E. eapply during_ext; [exact H|lia|done|done|done|]. intros a _. unfold weak_net. cbn.
  rewrite (owners_delete _ _ _ o) by done. lia.
Qed.

(** *** Changes of the counts *)

Lemma wp_ld_block a b s (Q : sblock → spst → Prop) : s_blocks s !! a = Some b → Q b s → wp (ld_block a) s Q.
Proof. intros E HQ. unfold wp, ld_block. by rewrite E. Qed.

(** The block of an address with a reference. *)
Lemma block_of_use s xs xw a :
  counts_ok s xs xw → a ≠ 0 → 0 < use_net s xs a → ∃ b, s_blocks s !! a = Some b.
Proof. intros H Ha Hu. destruct (s_blocks s !! a) as [b|] eqn:E; [eauto|]. destruct (co_none _ _ _ H a Ha E). lia. Qed.
Lemma block_of_weak s xs xw a :
  counts_ok s xs xw → a ≠ 0 → 0 < weak_net s xw a → ∃ b, s_blocks s !! a = Some b.
Proof. intros H Ha Hu. destruct (s_blocks s !! a) as [b|] eqn:E; [eauto|]. destruct (co_none _ _ _ H a Ha E). lia. Qed.

(** The counts at [a] change; those elsewhere do not. *)
Record change s xs xw xs' xw' (N' a : Z) (b : sblock) : Prop := {
  ch_addr : a ≠ 0;
  ch_old : ∃ b0, s_blocks s !! a = Some b0 ∧ b_ptr b = b_ptr b0;
  ch_use : b_use b = use_net s xs' a;
  ch_weak : b_weak b = weak_net s xw' a + b2z (negb (use_net s xs' a =? 0));
  ch_pos : 0 <= use_net s xs' a <= N' ∧ 0 <= weak_net s xw' a <= N' ∧ 0 < b_weak b;
  ch_other a' : a' ≠ a → xs' a' = xs a' ∧ xw' a' = xw a'
}.

Lemma change_counts s xs xw xs' xw' N' a b d :
  counts_ok s xs xw → change s xs xw xs' xw' N' a b →
  counts_ok (SpSt (s_shared s) (s_weak s) (<[a := b]> (s_blocks s)) d) xs' xw'.
Proof.
  intros H [Ha _ E1 E2 (H1 & H2 & H3) He]. unfold use_net, weak_net in *. split; unfold use_net, weak_net; cbn.
  - intros a' b' [[<- <-]|[Hne Hb]]%lookup_insert_Some; [split_and!; done || lia|].
    destruct (He a' ltac:(done)) as [-> ->]. by apply (co_block _ _ _ H).
  - intros a' Ha'. rewrite lookup_insert_None. intros [Hb Hne].
    destruct (He a' ltac:(done)) as [-> ->]. by apply (co_none _ _ _ H).
Qed.

Lemma change_rest s0 s xs xw xs' xw' N N' a b d :
  during s0 s xs xw N → N <= N' → change s xs xw xs' xw' N' a b →
  let s' := SpSt (s_shared s) (s_weak s) (<[a := b]> (s_blocks s)) d in
  (∀ a', a' ≠ 0 → use_net s' xs' a' <= N' ∧ weak_net s' xw' a' <= N') ∧
  (∀ a' b' b0, s_blocks s' !! a' = Some b' → s_blocks s0 !! a' = Some b0 → b_ptr b' = b_ptr b0).
Proof.
  intros H HN [Ha (b1 & Hb1 & Ep) E1 E2 (H1 & H2 & H3) He] s'. split.
  - intros a' Ha'. unfold use_net, weak_net in *. cbn. destruct (decide (a' = a)) as [->|Hne]; [lia|].
    destruct (He a' Hne) as [-> ->]. pose proof (du_bound _ _ _ _ _ H a' Ha'). unfold use_net, weak_net in *. lia.
  - intros a' b' b0. cbn. intros [[<- <-]|[_ Hb']]%lookup_insert_Some Hb0; [rewrite Ep|];
      by eapply (du_ptr _ _ _ _ _ H).
Qed.

Lemma during_change s0 s xs xw xs' xw' N N' a b :
  during s0 s xs xw N → N <= N' → change s xs xw xs' xw' N' a b →
  (use_net s xs' a = 0 ↔ use_net s xs a = 0) →
  during s0 (set_blocks <[a := b]> s) xs' xw' N'.
Proof.
  intros H HN Hc Hz. destruct (change_rest s0 s xs xw xs' xw' N N' a b (s_deleted s) H HN Hc) as [R1 R2]. split.
  - eapply change_counts; [apply H|exact Hc].
  - exact R1.
  - exact R2.
  - destruct (du_deleted _ _ _ _ _ H) as (dr & D1 & D2 & D3). exists dr. split_and!; [done|done|].
    intros a'. rewrite D3. destruct (decide (a' = a)) as [->|Hne].
    + change (use_net (set_blocks <[a:=b]> s) xs' a) with (use_net s xs' a). by rewrite Hz.
    + unfold use_net. cbn. destruct (ch_other _ _ _ _ _ _ _ _ Hc a' Hne) as [-> _]. done.
Qed.

(** The last owner is gone: the deleter runs. *)
Lemma during_drop s0 s xs xw xs' xw' N N' a b b0 :
  during s0 s xs xw N → N <= N' → change s xs xw xs' xw' N' a b → s_blocks s0 !! a = Some b0 →
  0 < owners a (s_shared s0) → 0 < use_net s xs a → use_net s xs' a = 0 →
  during s0 (SpSt (s_shared s) (s_weak s) (<[a := b]> (s_blocks s)) (b_ptr b :: s_deleted s)) xs' xw' N'.
Proof.
  intros H HN Hc Hb0 Ho Hu Hz.
  destruct (change_rest s0 s xs xw xs' xw' N N' a b (b_ptr b :: s_deleted s) H HN Hc) as [R1 R2]. split.
  - eapply change_counts; [apply H|exact Hc].
  - exact R1.
  - exact R2.
  - destruct (du_deleted _ _ _ _ _ H) as (dr & D1 & D2 & D3). exists (a :: dr). split_and!.
    + constructor; [|done]. rewrite D3. lia.
    + cbn. rewrite D2. f_equal. unfold ptr_at. rewrite Hb0. cbn.
      apply (R2 a b b0); [apply lookup_insert_eq|done].
    + intros a'. rewrite elem_of_cons, D3. pose proof (ch_addr _ _ _ _ _ _ _ _ Hc).
      unfold use_net in *. cbn. destruct (decide (a' = a)) as [->|Hne]; [naive_solver|].
      destruct (ch_other _ _ _ _ _ _ _ _ Hc a' Hne) as [-> _]. naive_solver.
Qed.

(** The counts are deallocated. *)
Lemma during_free s0 s xs xw xw' N a :
  during s0 s xs xw N → use_net s xs a = 0 → weak_net s xw' a = 0 →
  (∀ a', a' ≠ a → xw' a' = xw a') → 0 <= N →
  during s0 (set_blocks (delete a) s) xs xw' N.
Proof.
  intros H Hu Hw He HN. unfold use_net, weak_net in *. split.
  - split; unfold use_net, weak_net; cbn.
    + intros a' b [Hne Hb]%lookup_delete_Some. rewrite (He a' ltac:(done)). by apply (co_block _ _ _ (du_counts _ _ _ _ _ H)).
    + intros a' Ha'. rewrite lookup_delete_None. destruct (decide (a' = a)) as [->|Hne]; [lia|].
      intros [?|Hb]; [congruence|]. rewrite (He a' ltac:(done)). by apply (co_none _ _ _ (du_counts _ _ _ _ _ H)).
  - intros a' Ha'. unfold use_net, weak_net. cbn. pose proof (du_bound _ _ _ _ _ H a' Ha') as B. unfold use_net, weak_net in B.
    destruct (decide (a' = a)) as [->|Hne]; [lia|]. rewrite (He a' Hne). lia.
  - intros a' b b0. cbn. intros [_ Hb]%lookup_delete_Some. by eapply (du_ptr _ _ _ _ _ H).
  - exact (du_deleted _ _ _ _ _ H).
Qed.

Lemma shift_here a d x : shift a d x a = x a + d.
Proof. unfold shift. by rewrite Z.eqb_refl. Qed.
Lemma shift_other a d x b : b ≠ a → shift a d x b = x b.
Proof. intros H. unfold shift. destruct (Z.eqb_spec b a); [done|lia]. Qed.

Lemma use_shift s xs a d : use_net s (shift a d xs) a = use_net s xs a + d.
Proof. unfold use_net. rewrite shift_here. lia. Qed.
Lemma weak_shift s xw a d : weak_net s (shift a d xw) a = weak_net s xw a + d.
Proof. unfold weak_net. rewrite shift_here. lia. Qed.

(** The goal of a change by one. *)
Ltac change_tac Hb :=
  split; cbn [b_use b_weak b_ptr]; rewrite ?use_shift, ?weak_shift; try lia; try (by eexists; split; [exact Hb|]);
    try (intros ? ?; rewrite ?shift_other by done; done);
    repeat match goal with
    | |- context [Z.eqb ?x ?y] => destruct (Z.eqb_spec x y)
    | H : context [Z.eqb ?x ?y] |- _ => destruct (Z.eqb_spec x y)
    end; cbn in *; lia.

Section primitives.
Context (s0 : spst) (N : Z) (HN : 0 <= N < 4294967290).

(** What is known of the counts at an address with a reference. *)
Lemma block_facts s xs xw a b :
  during s0 s xs xw N → s_blocks s !! a = Some b →
  a ≠ 0 ∧ b_use b = use_net s xs a ∧ b_weak b = weak_net s xw a + b2z (negb (use_net s xs a =? 0)) ∧
  0 <= use_net s xs a <= N ∧ 0 <= weak_net s xw a <= N ∧ 0 < b_weak b.
Proof.
  intros H Hb. destruct (co_block _ _ _ (du_counts _ _ _ _ _ H) a b Hb) as (? & ? & ? & ? & ? & ?).
  pose proof (du_bound _ _ _ _ _ H a ltac:(done)). split_and!; done || lia.
Qed.

Lemma add_ref_ok s xs xw a (Q : () → spst → Prop) :
  during s0 s xs xw N → a ≠ 0 → 0 < use_net s xs a →
  (∀ s', during s0 s' (shift a 1 xs) xw (N + 1) → s_shared s' = s_shared s → s_weak s' = s_weak s → Q () s') →
  wp (blk_add_ref_copy a) s Q.
Proof.
  intros H Ha Hu HQ. destruct (block_of_use s xs xw a (du_counts _ _ _ _ _ H) Ha Hu) as [b Hb].
  destruct (block_facts s xs xw a b H Hb) as (_ & E1 & E2 & G1 & G2 & G3).
  unfold blk_add_ref_copy. wp_step. eapply wp_ld_block; [exact Hb|]. unfold st_block. wp_step. apply HQ; [|done|done].
  cbn [atomic_inc32 snd]. rewrite u32_small by (unfold in_u32; lia).
  eapply during_change; [exact H|lia|change_tac Hb|rewrite use_shift; lia].
Qed.

Lemma add_ref_lock_ok s xs xw a (Q : bool → spst → Prop) :
  during s0 s xs xw N → a ≠ 0 → 0 < weak_net s xw a →
  (use_net s xs a = 0 → Q false s) →
  (∀ s', 0 < use_net s xs a → during s0 s' (shift a 1 xs) xw (N + 1) → s_shared s' = s_shared s →
     s_weak s' = s_weak s → Q true s') →
  wp (blk_add_ref_lock a) s Q.
Proof.
  intros H Ha Hw HQ0 HQ1. destruct (block_of_weak s xs xw a (du_counts _ _ _ _ _ H) Ha Hw) as [b Hb].
  destruct (block_facts s xs xw a b H Hb) as (_ & E1 & E2 & G1 & G2 & G3).
  unfold blk_add_ref_lock. wp_step. eapply wp_ld_block; [exact Hb|]. cbv zeta.
  destruct (Z.eqb_spec (b_use b) 0) as [E|E]; [apply wp_ret, HQ0; lia|].
  cbn [atomic_cas32]. rewrite Z.eqb_refl, u32_small by (unfold in_u32; lia). unfold st_block. wp_step. wp_step. wp_step.
  apply HQ1; [lia| |done|done].
  eapply during_change; [exact H|lia|change_tac Hb|rewrite use_shift; lia].
Qed.

Lemma weak_add_ref_ok s xs xw a (Q : () → spst → Prop) :
  during s0 s xs xw N → a ≠ 0 → 0 < use_net s xs a ∨ 0 < weak_net s xw a →
  (∀ s', during s0 s' xs (shift a 1 xw) (N + 1) → s_shared s' = s_shared s → s_weak s' = s_weak s → Q () s') →
  wp (blk_weak_add_ref a) s Q.
Proof.
  intros H Ha Hu HQ. assert (∃ b, s_blocks s !! a = Some b) as [b Hb].
  { destruct Hu; [by eapply block_of_use; [apply H|..]|by eapply block_of_weak; [apply H|..]]. }
  destruct (block_facts s xs xw a b H Hb) as (_ & E1 & E2 & G1 & G2 & G3).
  unfold blk_weak_add_ref. wp_step. eapply wp_ld_block; [exact Hb|]. unfold st_block. wp_step. apply HQ; [|done|done].
  cbn [atomic_inc32 snd].
  assert (b_weak b <= N + 1) by (destruct (use_net s xs a =? 0); cbn in E2; lia).
  rewrite u32_small by (unfold in_u32; lia).
  eapply during_change; [exact H|lia|change_tac Hb|done].
Qed.

Lemma weak_release_ok s xs xw a (Q : () → spst → Prop) :
  during s0 s xs xw N → a ≠ 0 → 0 < weak_net s xw a →
  (∀ s', during s0 s' xs (shift a (-1) xw) N → s_shared s' = s_shared s → s_weak s' = s_weak s → Q () s') →
  wp (blk_weak_release a) s Q.
Proof.
  intros H Ha Hw HQ. destruct (block_of_weak s xs xw a (du_counts _ _ _ _ _ H) Ha Hw) as [b Hb].
  destruct (block_facts s xs xw a b H Hb) as (_ & E1 & E2 & G1 & G2 & G3).
  assert (b_weak b <= N + 1) by (destruct (use_net s xs a =? 0); cbn in E2; lia).
  unfold blk_weak_release. wp_step. eapply wp_ld_block; [exact Hb|]. cbn [atomic_dec32].
  rewrite u32_small by (unfold in_u32; lia). unfold st_block. wp_step. wp_step.
  destruct (Z.eqb_spec (b_weak b) 1) as [E|E].
  - assert (use_net s xs a = 0 ∧ weak_net s xw a = 1) as [Eu Ew]
      by (destruct (Z.eqb_spec (use_net s xs a) 0); cbn in E2; lia).
    wp_step. apply HQ; [|done|done].
    assert (∀ c, set_blocks (delete a) (set_blocks <[a := c]> s) = set_blocks (delete a) s) as ->.
    { intros c. unfold set_blocks. cbn. by rewrite delete_insert_eq. }
    eapply during_free; [exact H|done|rewrite weak_shift; lia| |lia]. intros a' Hne. by rewrite shift_other.
  - wp_step. apply HQ; [|done|done].
    eapply during_change; [exact H|lia|change_tac Hb|done].
Qed.
End primitives.

(** [release]; the object must have been owned when the operation started. *)
Lemma release_ok s0 N s xs xw a (Q : () → spst → Prop) :
  0 <= N < 4294967289 → during s0 s xs xw N → a ≠ 0 → 0 < use_net s xs a →
  (use_net s xs a = 1 → (∃ b0, s_blocks s0 !! a = Some b0) ∧ 0 < owners a (s_shared s0)) →
  (∀ s', during s0 s' (shift a (-1) xs) xw (N + 1) → s_shared s' = s_shared s → s_weak s' = s_weak s → Q () s') →
  wp (blk_release a) s Q.
Proof.
  intros HN H Ha Hu Hlast HQ. destruct (block_of_use s xs xw a (du_counts _ _ _ _ _ H) Ha Hu) as [b Hb].
  destruct (block_facts s0 N s xs xw a b H Hb) as (_ & E1 & E2 & G1 & G2 & G3).
  unfold blk_release. wp_step. eapply wp_ld_block; [exact Hb|]. cbn [atomic_dec32].
  rewrite u32_small by (unfold in_u32; lia). unfold st_block, call_deleter. wp_step. wp_step.
  destruct (Z.eqb_spec (b_use b) 1) as [E|E].
  - destruct (Hlast ltac:(lia)) as [[b0 Hb0] Ho]. wp_step. wp_step.
    assert (during s0 (SpSt (s_shared s) (s_weak s) (<[a := SBlock (b_use b - 1) (b_weak b) (b_ptr b)]> (s_blocks s))
      (b_ptr b :: s_deleted s)) (shift a (-1) xs) (shift a 1 xw) (N + 1)) as H1.
    { apply (during_drop s0 s xs xw _ _ N (N + 1) a (SBlock (b_use b - 1) (b_weak b) (b_ptr b)) b0);
        [exact H|lia|change_tac Hb|done|done|done|rewrite use_shift; lia]. }
    eapply (weak_release_ok s0 (N + 1)); [lia|exact H1|done| |].
    + change (weak_net _ (shift a 1 xw) a) with (weak_net s (shift a 1 xw) a). rewrite weak_shift. lia.
    + intros s' H' Es Ew. apply HQ; [|done|done]. eapply during_ext; [exact H'|lia|done|done|done|].
      intros a' _. unfold weak_net. f_equal. unfold shift. destruct (a' =? a); lia.
  - wp_step. apply HQ; [|done|done].
    eapply (during_change s0 s xs xw); [exact H|lia|change_tac Hb|rewrite use_shift; lia].
Qed.
