(* ===== verification/SmartPtrProps.v ===== *)
(** [shared_ptr] and [weak_ptr]: every operation keeps the counts exact. *)

From S2P Require Import Prelude Atomic SmartPtr SmartPtrInv.

Implicit Types (s : spst) (o : spobj).

(** ** The parts of the operations *)

Lemma wp_ld_shared v o s (Q : spobj → spst → Prop) : s_shared s !! v = Some o → Q o s → wp (ld_shared v) s Q.
Proof. intros E HQ. unfold wp, ld_shared. by rewrite E. Qed.
Lemma wp_ld_weak w o s (Q : spobj → spst → Prop) : s_weak s !! w = Some o → Q o s → wp (ld_weak w) s Q.
Proof. intros E HQ. unfold wp, ld_weak. by rewrite E. Qed.

Section parts.
Context (s0 : spst) (H0 : sp_ok s0).

(** Between the parts of an operation nothing is in flight. *)
Definition steady s (N : Z) : Prop := during s0 s none none N.
Definition room (N : Z) : Prop := 0 <= N < 4294967285.

Lemma steady_of s xs xw N N' :
  during s0 s xs xw N → N <= N' → (∀ a, a ≠ 0 → xs a = 0) → (∀ a, a ≠ 0 → xw a = 0) → steady s N'.
Proof.
  intros H HN Hs Hw. eapply during_ext; [exact H|done|done|done|..]; intros a Ha; unfold use_net, weak_net, none;
    rewrite ?Hs, ?Hw by done; done.
Qed.

Lemma owned_net s N v o :
  steady s N → s_shared s !! v = Some o → 0 < use_net s none (m_pi o).
Proof. intros _ Hv. unfold use_net, none. pose proof (owners_pos (m_pi o) (s_shared s) v o Hv eq_refl). lia. Qed.
Lemma watched_net s N w o :
  steady s N → s_weak s !! w = Some o → 0 < weak_net s none (m_pi o).
Proof. intros _ Hw. unfold weak_net, none. pose proof (owners_pos (m_pi o) (s_weak s) w o Hw eq_refl). lia. Qed.

(** Null pointers are owned by anyone: only addresses other than null count. *)
Lemma owned_block a : a ≠ 0 → 0 < owners a (s_shared s0) → ∃ b, s_blocks s0 !! a = Some b.
Proof. intros Ha Ho. eapply block_of_use; [exact H0|done|]. unfold use_net, none. lia. Qed.

(** Decides the equation of two in-flight functions. *)
Ltac flight := intros ? ?; unfold shift, none; cbn [from_option m_pi];
  repeat match goal with |- context [Z.eqb ?x ?y] => destruct (Z.eqb_spec x y) end; cbn [b2z]; lia || congruence.

(** References are counted unless the address is null. *)
Lemma null_flight s xs xw xs' xw' N :
  during s0 s xs xw N → (∀ a, a ≠ 0 → xs' a = xs a) → (∀ a, a ≠ 0 → xw' a = xw a) → during s0 s xs' xw' (N + 1).
Proof.
  intros H Hs Hw. eapply during_ext; [exact H|lia|done|done|..]; intros a Ha; unfold use_net, weak_net;
    rewrite ?Hs, ?Hw by done; done.
Qed.

Lemma opt_add_ok N s xs xw a (Q : () → spst → Prop) :
  room N → during s0 s xs xw N → 0 < use_net s xs a →
  (∀ s', during s0 s' (shift a 1 xs) xw (N + 1) → s_shared s' = s_shared s → s_weak s' = s_weak s → Q () s') →
  wp (if a =? 0 then mret () else blk_add_ref_copy a) s Q.
Proof.
  unfold room. intros HN H Hu HQ. destruct (Z.eqb_spec a 0) as [->|Ha].
  - apply wp_ret, HQ; [|done|done]. eapply null_flight; [exact H|by intros; apply shift_other|done].
  - by eapply add_ref_ok; [|exact H|..]; [lia|..].
Qed.

Lemma opt_release_ok N s xs xw a (Q : () → spst → Prop) :
  room N → during s0 s xs xw N → 0 < use_net s xs a → (a ≠ 0 → 0 < owners a (s_shared s0)) →
  (∀ s', during s0 s' (shift a (-1) xs) xw (N + 1) → s_shared s' = s_shared s → s_weak s' = s_weak s → Q () s') →
  wp (if a =? 0 then mret () else blk_release a) s Q.
Proof.
  unfold room. intros HN H Hu Ho HQ. destruct (Z.eqb_spec a 0) as [->|Ha].
  - apply wp_ret, HQ; [|done|done]. eapply null_flight; [exact H|by intros; apply shift_other|done].
  - eapply release_ok; [|exact H|done|done| |done]; [lia|]. intros _. split; [by apply owned_block; auto|by auto].
Qed.

Lemma opt_weak_add_ok N s xs xw a (Q : () → spst → Prop) :
  room N → during s0 s xs xw N → 0 < use_net s xs a ∨ 0 < weak_net s xw a →
  (∀ s', during s0 s' xs (shift a 1 xw) (N + 1) → s_shared s' = s_shared s → s_weak s' = s_weak s → Q () s') →
  wp (if a =? 0 then mret () else blk_weak_add_ref a) s Q.
Proof.
  unfold room. intros HN H Hu HQ. destruct (Z.eqb_spec a 0) as [->|Ha].
  - apply wp_ret, HQ; [|done|done]. eapply null_flight; [exact H|done|by intros; apply shift_other].
  - by eapply weak_add_ref_ok; [|exact H|..]; [lia|..].
Qed.

Lemma opt_weak_release_ok N s xs xw a (Q : () → spst → Prop) :
  room N → during s0 s xs xw N → 0 < weak_net s xw a →
  (∀ s', during s0 s' xs (shift a (-1) xw) (N + 1) → s_shared s' = s_shared s → s_weak s' = s_weak s → Q () s') →
  wp (if a =? 0 then mret () else blk_weak_release a) s Q.
Proof.
  unfold room. intros HN H Hu HQ. destruct (Z.eqb_spec a 0) as [->|Ha].
  - apply wp_ret, HQ; [|done|done]. eapply null_flight; [exact H|done|by intros; apply shift_other].
  - eapply weak_release_ok; [|exact H|done|done|]; [lia|]. intros s' H' E1 E2. apply HQ; [|done|done].
    by eapply null_flight.
Qed.

(** *** [shared_count] *)

Lemma sc_default_ok N s v (Q : () → spst → Prop) :
  steady s N → s_shared s !! v = None →
  (∀ s', steady s' N → s_shared s' = <[v := SpObj 0 0]> (s_shared s) → s_weak s' = s_weak s → Q () s') →
  wp (sc_default v) s Q.
Proof.
  intros H Hv HQ. unfold sc_default, st_shared. wp_step. apply HQ; [|done|done].
  eapply steady_of; [apply during_set_shared, H|lia|rewrite Hv; flight|done].
Qed.

Lemma sc_copy_with_ok N s v r o ptr (Q : () → spst → Prop) :
  room N → steady s N → s_shared s !! r = Some o → s_shared s !! v = None →
  (∀ s', steady s' (N + 1) → s_shared s' = <[v := SpObj ptr (m_pi o)]> (s_shared s) → s_weak s' = s_weak s → Q () s') →
  wp (sc_copy_with v ptr r) s Q.
Proof.
  intros HN H Hr Hv HQ. pose proof (owned_net s N r o H Hr) as Hu.
  unfold sc_copy_with. wp_step. eapply wp_ld_shared; [exact Hr|]. unfold st_shared. wp_step. wp_step.
  eapply opt_add_ok; [exact HN|apply during_set_shared, H| |].
  - unfold use_net, none in *. cbn [set_shared s_shared]. rewrite Hv, owners_new by done. cbn [from_option m_pi b2z]. lia.
  - intros s' H' E1 E2. apply HQ; [|done|done]. eapply steady_of; [exact H'|lia|rewrite Hv; flight|done].
Qed.

Lemma sc_copy_ok N s v r o (Q : () → spst → Prop) :
  room N → steady s N → s_shared s !! r = Some o → s_shared s !! v = None →
  (∀ s', steady s' (N + 1) → s_shared s' = <[v := o]> (s_shared s) → s_weak s' = s_weak s → Q () s') →
  wp (sc_copy v r) s Q.
Proof.
  intros HN H Hr Hv HQ. assert (wp (sc_copy_with v (m_px o) r) s Q) as Hw.
  { eapply sc_copy_with_ok; [done|done|done|done|]. by destruct o. }
  unfold wp, sc_copy, sc_copy_with, mbind, M_bind, ld_shared in *. rewrite Hr in *. by destruct o.
Qed.

Lemma sc_dtor_ok N s v o (Q : () → spst → Prop) :
  room N → steady s N → s_shared s !! v = Some o → (m_pi o ≠ 0 → 0 < owners (m_pi o) (s_shared s0)) →
  (∀ s', steady s' (N + 1) → s_shared s' = delete v (s_shared s) → s_weak s' = s_weak s → Q () s') →
  wp (sc_dtor v) s Q.
Proof.
  intros HN H Hv Ho HQ. unfold sc_dtor. wp_step. eapply wp_ld_shared; [exact Hv|]. wp_step.
  eapply opt_release_ok; [exact HN|exact H|by eapply owned_net|done|].
  intros s' H' E1 E2. wp_step. apply HQ; [|by cbn; rewrite E1|done].
  eapply steady_of; [eapply during_del_shared; [exact H'|by rewrite E1]|lia|flight|done].
Qed.

Lemma sc_swap_ok N s v r o ro (Q : () → spst → Prop) :
  steady s N → s_shared s !! v = Some o → s_shared s !! r = Some ro →
  (∀ s', steady s' N → s_shared s' = <[r := o]> (<[v := ro]> (s_shared s)) → s_weak s' = s_weak s → Q () s') →
  wp (sc_swap v r) s Q.
Proof.
  intros H Hv Hr HQ. unfold sc_swap. wp_step. eapply wp_ld_shared; [exact Hv|]. wp_step.
  eapply wp_ld_shared; [exact Hr|]. unfold st_shared. wp_step. wp_step. wp_step. apply HQ; [|done|done].
  eapply steady_of; [apply during_set_shared, during_set_shared, H|lia| |done].
  rewrite Hv. cbn. destruct (decide (v = r)) as [->|Hne].
  - rewrite lookup_insert_eq. assert (o = ro) as -> by congruence. flight.
  - rewrite lookup_insert_ne, Hr by done. flight.
Qed.

Lemma sc_assign_ok N s v r o ro (Q : () → spst → Prop) :
  room N → room (N + 1) → steady s N → s_shared s !! v = Some o → s_shared s !! r = Some ro →
  (m_pi o ≠ 0 → 0 < owners (m_pi o) (s_shared s0)) →
  (∀ s', steady s' (N + 2) → s_shared s' = <[v := ro]> (s_shared s) → s_weak s' = s_weak s → Q () s') →
  wp (sc_assign v r) s Q.
Proof.
  intros HN0 HN H Hv Hr Ho HQ. pose proof (owned_net s N v o H Hv) as Huv. pose proof (owned_net s N r ro H Hr) as Hur.
  unfold sc_assign. wp_step. eapply wp_ld_shared; [exact Hv|]. wp_step. eapply wp_ld_shared; [exact Hr|]. cbv zeta.
  unfold st_shared. wp_step. wp_step. set (s1 := set_shared <[v := SpObj (m_px ro) (m_pi o)]> s).
  assert (∀ a, use_net s1 none a = use_net s none a) as Es1.
  { intros a. unfold use_net, s1. cbn. rewrite (owners_set _ _ _ o) by done. cbn [m_pi]. lia. }
  assert (steady s1 N) as Hs1.
  { eapply steady_of; [apply during_set_shared, H|lia|rewrite Hv; flight|done]. }
  destruct (Z.eqb_spec (m_pi ro) (m_pi o)) as [E|E].
  { apply wp_ret, HQ; [|cbn; destruct ro; cbn in *; by subst|done]. eapply steady_of; [exact Hs1|lia|done|done]. }
  wp_step. eapply opt_add_ok; [exact HN0|exact Hs1|by rewrite Es1|].
  intros s2 H2 E2 E2'. wp_step. eapply opt_release_ok; [exact HN|exact H2| |done|].
  { unfold use_net. rewrite E2. fold (use_net s1 (shift (m_pi ro) 1 none) (m_pi o)).
    unfold use_net. rewrite shift_other by done. fold (use_net s1 none (m_pi o)). by rewrite Es1. }
  intros s3 H3 E3 E3'. rewrite E2 in E3. wp_step. apply HQ; [| |cbn; by rewrite E3', E2'].
  - eapply steady_of; [apply during_set_shared, H3|lia| |done]. rewrite E3. cbn [s1 set_shared s_shared].
    rewrite lookup_insert_eq. flight.
  - cbn. rewrite E3. cbn. rewrite insert_insert_eq. by destruct ro.
Qed.

(** *** [weak_count] *)

Lemma wc_store_ok N s w o (Q : () → spst → Prop) :
  room N → steady s N → s_weak s !! w = None →
  0 < use_net s none (m_pi o) ∨ 0 < weak_net s none (m_pi o) →
  (∀ s', steady s' (N + 1) → s_weak s' = <[w := o]> (s_weak s) → s_shared s' = s_shared s → Q () s') →
  wp (wc_store w o) s Q.
Proof.
  intros HN H Hw Hu HQ. unfold wc_store, st_weak. wp_step. wp_step.
  eapply opt_weak_add_ok; [exact HN|apply during_set_weak, H| |].
  - destruct Hu as [Hu|Hu]; [left; done|right]. unfold weak_net, none in *. cbn [set_weaks s_weak].
    rewrite Hw, owners_new by done. cbn [from_option b2z]. lia.
  - intros s' H' E1 E2. apply HQ; [|done|done]. eapply steady_of; [exact H'|lia|done|rewrite Hw; flight].
Qed.

Lemma wc_dtor_ok N s w o (Q : () → spst → Prop) :
  room N → steady s N → s_weak s !! w = Some o →
  (∀ s', steady s' (N + 1) → s_weak s' = delete w (s_weak s) → s_shared s' = s_shared s → Q () s') →
  wp (wc_dtor w) s Q.
Proof.
  intros HN H Hw HQ. unfold wc_dtor. wp_step. eapply wp_ld_weak; [exact Hw|]. wp_step.
  eapply opt_weak_release_ok; [exact HN|exact H|by eapply watched_net|].
  intros s' H' E1 E2. wp_step. apply HQ; [|by cbn; rewrite E2|done].
  eapply steady_of; [eapply during_del_weak; [exact H'|by rewrite E2]|lia|done|flight].
Qed.

Lemma wc_assign_to_ok N s w o px tmp (Q : () → spst → Prop) :
  room N → room (N + 1) → steady s N → s_weak s !! w = Some o →
  0 < use_net s none tmp ∨ 0 < weak_net s none tmp →
  (∀ s', steady s' (N + 2) → s_weak s' = <[w := SpObj px tmp]> (s_weak s) → s_shared s' = s_shared s → Q () s') →
  wp (wc_assign_to w px tmp) s Q.
Proof.
  intros HN0 HN H Hw Hu HQ. pose proof (watched_net s N w o H Hw) as Huw.
  unfold wc_assign_to. wp_step. eapply wp_ld_weak; [exact Hw|]. unfold st_weak. wp_step. wp_step.
  set (s1 := set_weaks <[w := SpObj px (m_pi o)]> s).
  assert (∀ a, weak_net s1 none a = weak_net s none a) as Es1.
  { intros a. unfold weak_net, s1. cbn. rewrite (owners_set _ _ _ o) by done. cbn [m_pi]. lia. }
  assert (steady s1 N) as Hs1.
  { eapply steady_of; [apply during_set_weak, H|lia|done|rewrite Hw; flight]. }
  wp_step. eapply opt_weak_add_ok; [exact HN0|exact Hs1|by rewrite Es1|].
  intros s2 H2 E2 E2'. wp_step. eapply opt_weak_release_ok; [exact HN|exact H2| |].
  { unfold weak_net in *. rewrite E2'. specialize (Es1 (m_pi o)). unfold shift, none in *. destruct (_ =? _); lia. }
  intros s3 H3 E3 E3'. rewrite E2' in E3'. wp_step. apply HQ; [| |cbn; by rewrite E3, E2].
  - eapply steady_of; [apply during_set_weak, H3|lia|done|]. rewrite E3'. cbn [s1 set_weaks s_weak].
    rewrite lookup_insert_eq. flight.
  - cbn. rewrite E3'. cbn. by rewrite insert_insert_eq.
Qed.
Lemma wc_default_ok N s w (Q : () → spst → Prop) :
  steady s N → s_weak s !! w = None →
  (∀ s', steady s' N → s_weak s' = <[w := SpObj 0 0]> (s_weak s) → s_shared s' = s_shared s → Q () s') →
  wp (wc_default w) s Q.
Proof.
  intros H Hw HQ. unfold wc_default, st_weak. wp_step. apply HQ; [|done|done].
  eapply steady_of; [apply during_set_weak, H|lia|done|rewrite Hw; flight].
Qed.

Lemma wc_set_pointer_ok N s w o p (Q : () → spst → Prop) :
  steady s N → s_weak s !! w = Some o →
  (∀ s', steady s' N → s_weak s' = <[w := SpObj p (m_pi o)]> (s_weak s) → s_shared s' = s_shared s → Q () s') →
  wp (wc_set_pointer w p) s Q.
Proof.
  intros H Hw HQ. unfold wc_set_pointer, st_weak. wp_step. eapply wp_ld_weak; [exact Hw|]. wp_step.
  apply HQ; [|done|done]. eapply steady_of; [apply during_set_weak, H|lia|done|rewrite Hw; flight].
Qed.

(** *** From weak to shared *)

(** The object of a weak pointer still has an owner. *)
Definition alive s o : bool := negb (m_pi o =? 0) && (0 <? owners (m_pi o) (s_shared s)).

Lemma use_count_ok N s a :
  steady s N → (a ≠ 0 → 0 < use_net s none a ∨ 0 < weak_net s none a) →
  use_count_of a s = Ret (if a =? 0 then 0 else owners a (s_shared s), s).
Proof.
  intros H Ha. unfold use_count_of. destruct (Z.eqb_spec a 0) as [|Hne]; [done|].
  assert (∃ b, s_blocks s !! a = Some b) as [b Hb].
  { destruct (Ha Hne); [by eapply block_of_use; [apply H|..]|by eapply block_of_weak; [apply H|..]]. }
  destruct (co_block _ _ _ (du_counts _ _ _ _ _ H) a b Hb) as (_ & E & _).
  unfold mbind, M_bind, ld_block. rewrite Hb. unfold mret, M_ret. rewrite E. unfold use_net, none. by rewrite Z.add_0_r.
Qed.

Lemma expired_ok N s w o :
  steady s N → s_weak s !! w = Some o → weak_ptr_expired w s = Ret (negb (alive s o), s).
Proof.
  intros H Hw. pose proof (watched_net s N w o H Hw) as Hn.
  unfold weak_ptr_expired, wc_use_count, mbind, M_bind, ld_weak. rewrite Hw.
  rewrite (use_count_ok N s (m_pi o) H) by auto. unfold mret, M_ret, alive. do 2 f_equal.
  destruct (m_pi o =? 0); [done|]. cbn. pose proof (owners_nonneg (m_pi o) (s_shared s)).
  destruct (Z.eqb_spec (owners (m_pi o) (s_shared s)) 0), (Z.ltb_spec 0 (owners (m_pi o) (s_shared s))); done || lia.
Qed.

Lemma sc_from_weak_ok N s v w o (Q : bool → spst → Prop) :
  room N → steady s N → s_weak s !! w = Some o → s_shared s !! v = None →
  (alive s o = false → Q false s) →
  (∀ s', alive s o = true → steady s' (N + 1) → s_shared s' = <[v := o]> (s_shared s) → s_weak s' = s_weak s → Q true s') →
  wp (sc_from_weak v w) s Q.
Proof.
  intros HN H Hw Hv HQ0 HQ1. pose proof (watched_net s N w o H Hw) as Hn. unfold alive in *.
  unfold sc_from_weak. wp_step. eapply wp_ld_weak; [exact Hw|].
  destruct (Z.eqb_spec (m_pi o) 0) as [E|E]; cbn [negb andb] in *; [apply wp_ret; by apply HQ0|].
  wp_step. unfold room in HN. eapply add_ref_lock_ok; [|exact H|done|done|..]; [lia| |]; unfold use_net, none in *.
  - intros Hz. apply wp_ret, HQ0. apply Z.ltb_ge. lia.
  - intros s' Hu H' E1 E2. unfold st_shared. wp_step. wp_step. wp_step. apply HQ1; [apply Z.ltb_lt; lia| |cbn; by rewrite E1|done].
    eapply steady_of; [apply during_set_shared, H'|lia| |done]. rewrite E1, Hv. flight.
Qed.

Lemma weak_ptr_lock_ok N s v w o (Q : () → spst → Prop) :
  room N → steady s N → s_weak s !! w = Some o → s_shared s !! v = None →
  (∀ s', steady s' (N + 1) → s_shared s' = <[v := if alive s o then o else SpObj 0 0]> (s_shared s) →
     s_weak s' = s_weak s → Q () s') →
  wp (weak_ptr_lock v w) s Q.
Proof.
  intros HN H Hw Hv HQ. unfold weak_ptr_lock. wp_step. unfold wp at 1. rewrite (expired_ok N s w o H Hw).
  destruct (alive s o) eqn:Ea; cbn [negb].
  - wp_step. eapply sc_from_weak_ok; [exact HN|exact H|exact Hw|exact Hv|congruence|].
    intros s' _ H' E1 E2. wp_step. by apply HQ.
  - eapply sc_default_ok; [exact H|done|]. intros s' H' E1 E2. apply HQ; [|done|done].
    eapply steady_of; [exact H'|lia|done|done].
Qed.
End parts.

(** ** The operations and what they promise *)

Inductive sp_op :=
| ODefault (v : nat) | OCtor (v : nat) (p : Z) (mem : option Z) | ODtor (v : nat)
| OCopy (v r : nat) | OCast (cast : Z → Z) (v r : nat) | ODynamicCast (cast : Z → Z) (v r tmp : nat)
| OFromWeak (v w : nat) | OMove (v r : nat) | OAssign (v r : nat) | OMoveAssign (v r tmp : nat)
| OReset (v tmp : nat) | OResetTo (v tmp : nat) (p : Z) (mem : option Z) | OSwap (v r : nat) | OLock (v w : nat)
| WDefault (w : nat) | WFromShared (w r : nat) | WCopy (w r : nat) | WConvert (w r tmp : nat) | WDtor (w : nat)
| WAssignShared (w r : nat) | WAssign (w r : nat) | WAssignConvert (w r tmp : nat)
| WSwap (w r tmp : nat) | WReset (w this tmp : nat).

Definition returns (m : M spst ()) : M spst bool := m;; mret true.

(** Runs an operation; false if it throws. *)
Definition sp_exec (op : sp_op) : M spst bool :=
  match op with
  | ODefault v => returns (sc_default v)
  | OCtor v p mem => shared_ptr_ctor v p mem
  | ODtor v => returns (sc_dtor v)
  | OCopy v r => returns (shared_ptr_copy v r)
  | OCast cast v r => returns (shared_ptr_cast cast v r)
  | ODynamicCast cast v r tmp => returns (shared_ptr_dynamic_cast cast v r tmp)
  | OFromWeak v w => shared_ptr_from_weak v w
  | OMove v r => returns (shared_ptr_move v r)
  | OAssign v r => returns (shared_ptr_assign v r)
  | OMoveAssign v r tmp => returns (shared_ptr_move_assign v r tmp)
  | OReset v tmp => returns (shared_ptr_reset v tmp)
  | OResetTo v tmp p mem => shared_ptr_reset_to v tmp p mem
  | OSwap v r => returns (sc_swap v r)
  | OLock v w => returns (weak_ptr_lock v w)
  | WDefault w => returns (wc_default w)
  | WFromShared w r => returns (wc_from_shared w r)
  | WCopy w r => returns (wc_copy w r)
  | WConvert w r tmp => returns (weak_ptr_convert w r tmp)
  | WDtor w => returns (wc_dtor w)
  | WAssignShared w r => returns (wc_assign_shared w r)
  | WAssign w r => returns (wc_assign w r)
  | WAssignConvert w r tmp => returns (weak_ptr_assign_convert w r tmp)
  | WSwap w r tmp => returns (weak_ptr_swap w r tmp)
  | WReset w this tmp => returns (weak_ptr_reset w this tmp)
  end.

Notation null := (SpObj 0 0).
Definition sget s (v : nat) : spobj := default null (s_shared s !! v).
Definition wget s (w : nat) : spobj := default null (s_weak s !! w).

(** The allocator's memory for the counts, if it is needed, is new. *)
Definition mem_ok s (p : Z) (mem : option Z) : Prop :=
  match mem with Some a => a ≠ 0 ∧ s_blocks s !! a = None | None => True end.

(** Sources exist, targets of constructors and temporaries do not. *)
Definition sp_pre (op : sp_op) s : Prop :=
  let old v := is_Some (s_shared s !! v) in let new v := s_shared s !! v = None in
  let oldw w := is_Some (s_weak s !! w) in let neww w := s_weak s !! w = None in
  match op with
  | ODefault v => new v
  | OCtor v p mem => new v ∧ mem_ok s p mem
  | ODtor v => old v
  | OCopy v r | OCast _ v r | OMove v r => new v ∧ old r
  | ODynamicCast _ v r tmp => new v ∧ old r ∧ new tmp ∧ v ≠ tmp
  | OFromWeak v w | OLock v w => new v ∧ oldw w
  | OAssign v r | OSwap v r => old v ∧ old r
  | OMoveAssign v r tmp => old v ∧ old r ∧ new tmp
  | OReset v tmp => old v ∧ new tmp
  | OResetTo v tmp p mem => old v ∧ new tmp ∧ mem_ok s p mem
  | WDefault w => neww w
  | WFromShared w r => neww w ∧ old r
  | WCopy w r => neww w ∧ oldw r
  | WConvert w r tmp => neww w ∧ oldw r ∧ new tmp
  | WDtor w => oldw w
  | WAssignShared w r => oldw w ∧ old r
  | WAssign w r => oldw w ∧ oldw r
  | WSwap w r tmp => oldw w ∧ oldw r ∧ neww tmp
  | WAssignConvert w r tmp => oldw w ∧ oldw r ∧ new tmp
  | WReset w this tmp => oldw w ∧ neww this ∧ neww tmp ∧ this ≠ tmp
  end.

(** Whether the operation returns. *)
Definition sp_returns (op : sp_op) s : bool :=
  match op with
  | OCtor _ p None | OResetTo _ _ p None => p =? 0
  | OFromWeak _ w => alive s (wget s w)
  | _ => true
  end.

Definition constructed (v : nat) (p : Z) (mem : option Z) (m : gmap nat spobj) : gmap nat spobj :=
  if p =? 0 then <[v := null]> m else match mem with Some a => <[v := SpObj p a]> m | None => m end.

(** The shared pointers afterwards. *)
Definition sp_shared (op : sp_op) s : gmap nat spobj :=
  let m := s_shared s in
  match op with
  | ODefault v | OReset v _ => <[v := null]> m
  | OCtor v p mem | OResetTo v _ p mem => constructed v p mem m
  | ODtor v => delete v m
  | OCopy v r | OAssign v r | OMoveAssign v r _ => <[v := sget s r]> m
  | OCast cast v r => <[v := SpObj (cast (m_px (sget s r))) (m_pi (sget s r))]> m
  | ODynamicCast cast v r _ =>
      let px := cast (m_px (sget s r)) in <[v := SpObj px (if px =? 0 then 0 else m_pi (sget s r))]> m
  | OFromWeak v w => if alive s (wget s w) then <[v := wget s w]> m else m
  | OLock v w => <[v := if alive s (wget s w) then wget s w else null]> m
  | OMove v r => <[r := null]> (<[v := sget s r]> m)
  | OSwap v r => <[r := sget s v]> (<[v := sget s r]> m)
  | _ => m
  end.

(** The weak pointers afterwards. *)
Definition sp_weak (op : sp_op) s : gmap nat spobj :=
  let m := s_weak s in
  match op with
  | WDefault w | WReset w _ _ => <[w := null]> m
  | WFromShared w r | WAssignShared w r => <[w := sget s r]> m
  | WCopy w r | WAssign w r => <[w := wget s r]> m
  | WConvert w r _ | WAssignConvert w r _ =>
      <[w := SpObj (if alive s (wget s r) then m_px (wget s r) else 0) (m_pi (wget s r))]> m
  | WDtor w => delete w m
  | WSwap w r _ => <[r := wget s w]> (<[w := wget s r]> m)
  | _ => m
  end.

(** What the deleter is called with because a constructor throws. *)
Definition sp_rejected (op : sp_op) : list Z :=
  match op with
  | OCtor _ p None | OResetTo _ _ p None => if p =? 0 then [] else [p]
  | _ => []
  end.

(** ** Proof of the operations *)

Lemma during_create s0 s N a p :
  sp_ok s0 → steady s0 s N → 1 <= N → a ≠ 0 → s_blocks s !! a = None → s_blocks s0 !! a = None →
  during s0 (set_blocks <[a := SBlock 1 1 p]> s) (shift a 1 none) none N.
Proof.
  intros H0 H HN Ha Hb Hb0. destruct (co_none _ _ _ (du_counts _ _ _ _ _ H) a Ha Hb) as [Eu Ew].
  destruct (co_none _ _ _ H0 a Ha Hb0) as [Eu0 _]. unfold use_net, weak_net, none in *. split.
  - split; unfold use_net, weak_net, none; cbn.
    + intros a' b [[<- <-]|[Hne Hb']]%lookup_insert_Some.
      * rewrite shift_here. cbn. unfold none. rewrite ?Z.add_0_r in *. rewrite Eu, Ew. cbn. split_and!; done || lia.
      * rewrite shift_other by done. by apply (co_block _ _ _ (du_counts _ _ _ _ _ H)).
    + intros a' Ha'. rewrite lookup_insert_None. intros [Hb' Hne]. rewrite shift_other by done.
      by apply (co_none _ _ _ (du_counts _ _ _ _ _ H)).
  - intros a' Ha'. pose proof (du_bound _ _ _ _ _ H a' Ha') as B. unfold use_net, weak_net, none in *. cbn.
    destruct (decide (a' = a)) as [->|Hne]; [rewrite shift_here|rewrite shift_other by done]; lia.
  - intros a' b b0. cbn. intros [[<- <-]|[_ Hb']]%lookup_insert_Some Hb0'; [congruence|].
    by eapply (du_ptr _ _ _ _ _ H).
  - destruct (du_deleted _ _ _ _ _ H) as (dr & D1 & D2 & D3). exists dr. split_and!; [done|done|].
    intros a'. rewrite D3. unfold use_net. cbn. destruct (decide (a' = a)) as [->|Hne].
    + split; intros (? & ? & ?); lia.
    + by rewrite shift_other.
Qed.

Lemma sc_ctor_ok s0 N s v p a (Q : bool → spst → Prop) :
  sp_ok s0 → room N → 1 <= N → steady s0 s N → s_shared s !! v = None → (p ≠ 0 → a ≠ 0) → s_blocks s !! a = None → s_blocks s0 !! a = None →
  (∀ s', steady s0 s' N → s_shared s' = constructed v p (Some a) (s_shared s) → s_weak s' = s_weak s → Q true s') →
  wp (sc_ctor v p (Some a)) s Q.
Proof.
  intros H0 HN HN1 H Hv Ha Hb Hb0 HQ. unfold sc_ctor, constructed in *. destruct (Z.eqb_spec p 0) as [->|Hp].
  - wp_step. eapply sc_default_ok; [exact H|done|]. intros s' H' E1 E2. wp_step. by apply HQ.
  - unfold st_block, st_shared. wp_step. wp_step. wp_step. wp_step. wp_step. apply HQ; [|done|done].
    eapply steady_of; [apply during_set_shared, during_create; try done; by auto|lia| |done]. cbn [set_blocks s_shared].
    rewrite Hv. intros a' Ha'. unfold shift, none. cbn [from_option m_pi b2z].
    destruct (Z.eqb_spec a' a), (Z.eqb_spec a a'); cbn; lia || congruence.
Qed.

(** The operations that do not reject a pointer. *)
Definition sp_done (op : sp_op) s (b : bool) s' : Prop :=
  b = sp_returns op s ∧ s_shared s' = sp_shared op s ∧ s_weak s' = sp_weak op s ∧ ∃ N, steady s s' N.

(** A temporary leaves no trace. *)
Lemma temp_swapped (m : gmap nat spobj) tmp v o1 o2 o3 :
  m !! tmp = None → tmp ≠ v → delete tmp (<[v := o1]> (<[tmp := o2]> (<[tmp := o3]> m))) = <[v := o1]> m.
Proof. intros Ht Hne. by rewrite insert_insert_eq, delete_insert_ne, delete_insert_id. Qed.
Lemma temp_unused (m : gmap nat spobj) tmp v o1 o2 o3 :
  m !! tmp = None → tmp ≠ v → delete tmp (<[v := o1]> (<[tmp := o2]> (<[v := o3]> m))) = <[v := o1]> m.
Proof.
  intros Ht Hne. rewrite (insert_insert_ne _ tmp v), insert_insert_eq, delete_insert_ne by done.
  by rewrite delete_insert_id.
Qed.

Definition is_weak_op (op : sp_op) : bool :=
  match op with
  | WDefault _ | WFromShared _ _ | WCopy _ _ | WConvert _ _ _ | WDtor _ | WAssignShared _ _ | WAssign _ _
  | WAssignConvert _ _ _ | WSwap _ _ _ | WReset _ _ _ => true
  | _ => false
  end.

Lemma wp_assoc {A} (m n : M spst ()) (f : () → M spst A) s Q :
  wp (m;; n) s (λ x s', wp (f x) s' Q) → wp (m;; (n ≫= f)) s Q.
Proof. unfold wp, mbind, M_bind. destruct (m s) as [[? s']|]; [|done]. by destruct (n s') as [[? ?]|]. Qed.

Section operations.
Context (s : spst) (H0 : sp_ok s).
Context (B1 : Z.of_nat (size (s_shared s)) < bound) (B2 : Z.of_nat (size (s_weak s)) < bound).

Lemma start_steady : steady s s bound.
Proof. by apply during_start. Qed.
Lemma room_start : room bound.
Proof. unfold room, bound. lia. Qed.
Lemma owned v o : s_shared s !! v = Some o → m_pi o ≠ 0 → 0 < owners (m_pi o) (s_shared s).
Proof. intros Hv _. pose proof (owners_pos (m_pi o) (s_shared s) v o Hv eq_refl). lia. Qed.
Lemma alive_owned o : m_pi (if alive s o then o else null) ≠ 0 →
  0 < owners (m_pi (if alive s o then o else null)) (s_shared s).
Proof. unfold alive. destruct (m_pi o =? 0), (Z.ltb_spec 0 (owners (m_pi o) (s_shared s))); by cbn. Qed.

Ltac room := unfold room, bound; lia.

(** The result of an operation that returns. *)
Ltac op_done := unfold sp_done; cbn [sp_returns sp_shared sp_weak]; unfold sget, wget;
  repeat match goal with H : ?m !! _ = Some _ |- context [?m !! _] => rewrite H end; cbn [default from_option id];
  split_and!; [done|try done|try done|by eexists].
Ltac op_ret := apply wp_ret; op_done.

(** The constructor from a pointer where it does not throw. *)
Lemma ctor_returns v p mem (Q : bool → spst → Prop) :
  s_shared s !! v = None → mem_ok s p mem → sp_rejected (OCtor v p mem) = [] →
  (∀ s', steady s s' bound → s_shared s' = constructed v p mem (s_shared s) → s_weak s' = s_weak s → Q true s') →
  wp (sc_ctor v p mem) s Q.
Proof.
  intros Hv Hmem Hrej HQ. pose proof start_steady as H. cbn in *. destruct mem as [a|].
  - destruct Hmem as [Ha Hb]. by eapply sc_ctor_ok; [done|exact room_start|done|exact H|..].
  - destruct (Z.eqb_spec p 0) as [->|]; [|done]. unfold sc_ctor. cbn. wp_step.
    eapply sc_default_ok; [exact H|done|]. intros s' H' E1 E2. apply wp_ret. by apply HQ.
Qed.

Lemma returns_ctor v p mem : sp_rejected (OCtor v p mem) = [] → sp_returns (OCtor v p mem) s = true.
Proof. cbn. destruct mem; [done|]. by destruct (p =? 0). Qed.

Lemma dynamic_cast_ok cast v r tmp :
  sp_pre (ODynamicCast cast v r tmp) s →
  wp (sp_exec (ODynamicCast cast v r tmp)) s (sp_done (ODynamicCast cast v r tmp) s).
Proof.
  intros (Hv & [o Hr] & Ht & Hne). pose proof start_steady as H. cbn [sp_exec]. unfold returns, shared_ptr_dynamic_cast.
  wp_step. wp_step. eapply wp_ld_shared; [exact Hr|]. wp_step.
  eapply sc_copy_with_ok; [exact room_start|exact H|exact Hr|exact Hv|]. intros s1 H1 E1 W1.
  destruct (Z.eqb_spec (cast (m_px o)) 0) as [E|E].
  - wp_step. eapply sc_default_ok; [exact H1|by rewrite E1, lookup_insert_ne|]. intros s2 H2 E2 W2. rewrite E1 in E2.
    wp_step. eapply (sc_assign_ok s H0 (bound + 1) s2 v tmp (SpObj (cast (m_px o)) (m_pi o)) null);
      [room|room|exact H2| | |exact (owned r o Hr)|].
    { by rewrite E2, lookup_insert_ne, lookup_insert_eq. } { by rewrite E2, lookup_insert_eq. }
    intros s3 H3 E3 W3. rewrite E2 in E3.
    eapply (sc_dtor_ok s H0 (bound + 1 + 2) s3 tmp null); [room|exact H3| |done|].
    { by rewrite E3, lookup_insert_ne, lookup_insert_eq. }
    intros s4 H4 E4 W4. rewrite E3, temp_unused in E4 by done. op_ret.
    + by rewrite E4, E.
    + by rewrite W4, W3, W2, W1.
  - wp_step. op_ret. rewrite E1. by destruct (Z.eqb_spec (cast (m_px o)) 0).
Qed.

(** The object [v] gets the content of a temporary and the temporary goes. *)
Lemma swap_out_ok N n s1 tmp v o1 o2 (Q : () → spst → Prop) :
  N = bound + n → 0 <= n <= 3 → steady s s1 N → s_shared s1 = <[tmp := o1]> (s_shared s) →
  s_shared s !! tmp = None → s_shared s !! v = Some o2 →
  (∀ s', steady s s' (N + 1) → s_shared s' = <[v := o1]> (s_shared s) → s_weak s' = s_weak s1 → Q () s') →
  wp (sc_swap tmp v;; sc_dtor tmp) s1 Q.
Proof.
  intros -> Hn H1 E1 Ht Hv HQ. assert (tmp ≠ v) by congruence. wp_step.
  eapply (sc_swap_ok s (bound + n) s1 tmp v o1 o2); [exact H1|by rewrite E1, lookup_insert_eq|by rewrite E1, lookup_insert_ne|].
  intros s2 H2 E2 W2. rewrite E1 in E2.
  eapply (sc_dtor_ok s H0 (bound + n) s2 tmp o2); [room|exact H2| |by eapply owned|].
  { by rewrite E2, lookup_insert_ne, lookup_insert_eq. }
  intros s3 H3 E3 W3. rewrite E2, temp_swapped in E3 by done. apply HQ; [done|done|congruence].
Qed.

Lemma move_ops_ok op :
  match op with OMove _ _ | OMoveAssign _ _ _ | OReset _ _ | OResetTo _ _ _ _ => True | _ => False end →
  sp_pre op s → sp_rejected op = [] → wp (sp_exec op) s (sp_done op s).
Proof.
  intros Hop Hpre Hrej. pose proof start_steady as H. pose proof room_start as HR.
  destruct op; try done; clear Hop; cbn [sp_exec sp_pre] in *; cbv zeta in Hpre; unfold returns.
  - (* move *) destruct Hpre as [Hv [o Hr]]. assert (v ≠ r) as Hne by congruence. unfold shared_ptr_move. wp_step. wp_step.
    eapply sc_default_ok; [exact H|done|]. intros s1 H1 E1 W1.
    eapply sc_swap_ok; [exact H1|by rewrite E1, lookup_insert_eq|by rewrite E1, lookup_insert_ne|].
    intros s2 H2 E2 W2. rewrite E1, insert_insert_eq in E2. op_ret. congruence.
  - (* move assignment *) destruct Hpre as ([o Hv] & [ro Hr] & Ht). unfold shared_ptr_move_assign. wp_step. wp_step.
    eapply sc_copy_ok; [exact HR|exact H|exact Hr|exact Ht|]. intros s1 H1 E1 W1.
    eapply (swap_out_ok (bound + 1) 1); [done|lia|exact H1|done|done|done|]. intros s2 H2 E2 W2. op_ret. congruence.
  - (* reset *) destruct Hpre as ([o Hv] & Ht). unfold shared_ptr_reset. wp_step. wp_step.
    eapply sc_default_ok; [exact H|exact Ht|]. intros s1 H1 E1 W1.
    eapply (swap_out_ok bound 0); [done|lia|exact H1|done|done|done|]. intros s2 H2 E2 W2. op_ret. congruence.
  - (* reset to a pointer *) destruct Hpre as ([o Hv] & Ht & Hmem). unfold shared_ptr_reset_to. wp_step.
    eapply ctor_returns; [done|done|done|]. intros s1 H1 E1 W1. pose proof (returns_ctor tmp p mem Hrej) as Hret.
    assert (s_shared s1 = <[tmp := default null (s_shared s1 !! tmp)]> (s_shared s)) as E1'.
    { rewrite E1. unfold constructed. cbn in Hret. destruct (p =? 0), mem; try discriminate; by rewrite lookup_insert_eq. }
    apply wp_assoc. eapply (swap_out_ok bound 0); [done|lia|exact H1|exact E1'|done|done|]. intros s2 H2 E2 W2.
    apply wp_ret. unfold sp_done. cbn [sp_returns sp_shared sp_weak] in *. split_and!; [done| |congruence|by eexists].
    rewrite E2, E1. unfold constructed. cbn in Hret. destruct (p =? 0), mem; try discriminate; by rewrite lookup_insert_eq.
Qed.

Lemma shared_op_ok op :
  is_weak_op op = false → sp_pre op s → sp_rejected op = [] → wp (sp_exec op) s (sp_done op s).
Proof.
  intros Hop Hpre Hrej. pose proof start_steady as H. pose proof room_start as HR.
  destruct op; cbn [is_weak_op] in Hop; try discriminate; clear Hop; try (by apply move_ops_ok); try (by apply dynamic_cast_ok);
    cbn [sp_exec sp_pre] in *; cbv zeta in Hpre; unfold returns.
  - (* default *) wp_step. eapply sc_default_ok; [exact H|done|]. intros s' H' E1 E2. op_ret.
  - (* constructor *) destruct Hpre as [Hv Hmem]. eapply ctor_returns; [done|done|done|]. intros s' H' E1 E2.
    unfold sp_done. rewrite returns_ctor by done. split_and!; [done|done|done|by eexists].
  - (* destructor *) destruct Hpre as [o Hv]. wp_step. eapply sc_dtor_ok; [done|exact HR|exact H|exact Hv|by eapply owned|].
    intros s' H' E1 E2. op_ret.
  - (* copy *) destruct Hpre as [Hv [o Hr]]. wp_step. eapply sc_copy_ok; [exact HR|exact H|exact Hr|exact Hv|].
    intros s' H' E1 E2. op_ret.
  - (* cast *) destruct Hpre as [Hv [o Hr]]. wp_step. unfold shared_ptr_cast. wp_step. eapply wp_ld_shared; [exact Hr|].
    eapply sc_copy_with_ok; [exact HR|exact H|exact Hr|exact Hv|]. intros s' H' E1 E2. op_ret.
  - (* from weak *) destruct Hpre as [Hv [o Hw]]. eapply sc_from_weak_ok; [exact HR|exact H|exact Hw|exact Hv| |].
    + intros Ea. unfold sp_done. cbn [sp_returns sp_shared sp_weak]. unfold wget. rewrite Hw. cbn. rewrite Ea.
      split_and!; [done|done|done|by eexists].
    + intros s' Ea H' E1 E2. unfold sp_done. cbn [sp_returns sp_shared sp_weak]. unfold wget. rewrite Hw. cbn. rewrite Ea.
      split_and!; [done|done|done|by eexists].
  - (* assignment *) destruct Hpre as [[o Hv] [ro Hr]]. wp_step.
    eapply sc_assign_ok; [done|exact HR|room|exact H|exact Hv|exact Hr|by eapply owned|]. intros s' H' E1 E2. op_ret.
  - (* swap *) destruct Hpre as [[o Hv] [ro Hr]]. wp_step. eapply sc_swap_ok; [exact H|exact Hv|exact Hr|].
    intros s' H' E1 E2. op_ret.
  - (* lock *) destruct Hpre as [Hv [o Hw]]. wp_step. eapply weak_ptr_lock_ok; [exact HR|exact H|exact Hw|exact Hv|].
    intros s' H' E1 E2. op_ret.
Qed.

Lemma watched w o : s_weak s !! w = Some o → 0 < use_net s none (m_pi o) ∨ 0 < weak_net s none (m_pi o).
Proof. intros Hw. right. by eapply watched_net; [exact start_steady|]. Qed.

(** The conversions read the pointer through a locked temporary. *)
Lemma convert_ok w r tmp :
  sp_pre (WConvert w r tmp) s → wp (sp_exec (WConvert w r tmp)) s (sp_done (WConvert w r tmp) s).
Proof.
  intros (Hw & [o Hr] & Ht). assert (r ≠ w) as Hne by congruence. pose proof start_steady as H.
  cbn [sp_exec]. unfold returns, weak_ptr_convert, wc_copy. wp_step. wp_step. wp_step. eapply wp_ld_weak; [exact Hr|].
  eapply wc_store_ok; [exact room_start|exact H|done|by eapply watched|]. intros s1 H1 E1 W1.
  assert (alive s1 o = alive s o) as Ea by (unfold alive; by rewrite W1).
  wp_step. eapply weak_ptr_lock_ok; [|exact H1|by rewrite E1, lookup_insert_ne|by rewrite W1|]; [room|].
  rewrite Ea, W1. intros s2 H2 E2 W2. rewrite E1 in W2. unfold shared_ptr_get. wp_step. wp_step.
  eapply wp_ld_shared; [by rewrite E2, lookup_insert_eq|]. wp_step. wp_step.
  eapply wc_set_pointer_ok; [exact H2|by rewrite W2, lookup_insert_eq|]. intros s3 H3 E3 W3.
  rewrite W2, insert_insert_eq in E3. rewrite E2 in W3.
  eapply sc_dtor_ok; [done| |exact H3|by rewrite W3, lookup_insert_eq|by apply alive_owned|]; [room|].
  intros s4 H4 E4 W4. rewrite W3, delete_insert_id in E4 by done. op_ret.
  rewrite W4, E3. by destruct (alive s o).
Qed.

Lemma assign_convert_ok w r tmp :
  sp_pre (WAssignConvert w r tmp) s → wp (sp_exec (WAssignConvert w r tmp)) s (sp_done (WAssignConvert w r tmp) s).
Proof.
  intros ([wo Hw] & [o Hr] & Ht). pose proof start_steady as H.
  cbn [sp_exec]. unfold returns, weak_ptr_assign_convert, wc_assign_convert. wp_step. wp_step.
  eapply weak_ptr_lock_ok; [exact room_start|exact H|exact Hr|exact Ht|]. intros s1 H1 E1 W1.
  wp_step. wp_step. eapply wp_ld_weak; [by rewrite W1|]. wp_step. eapply wp_ld_weak; [by rewrite W1|].
  eapply wc_assign_to_ok; [| |exact H1|by rewrite W1| |]; [room|room| |].
  { unfold weak_net. rewrite W1. right. exact (watched_net s s _ r o H Hr). }
  intros s2 H2 E2 W2. rewrite W1 in E2. rewrite E1 in W2. unfold shared_ptr_get. wp_step. wp_step.
  eapply wp_ld_shared; [by rewrite W2, lookup_insert_eq|]. wp_step. wp_step.
  eapply wc_set_pointer_ok; [exact H2|by rewrite E2, lookup_insert_eq|]. intros s3 H3 E3 W3.
  rewrite E2, insert_insert_eq in E3. rewrite W2 in W3.
  eapply sc_dtor_ok; [done| |exact H3|by rewrite W3, lookup_insert_eq|by apply alive_owned|]; [room|].
  intros s4 H4 E4 W4. rewrite W3, delete_insert_id in E4 by done. op_ret.
  rewrite W4, E3. by destruct (alive s o).
Qed.

(** [swap] by copies. *)
Lemma weak_swap_ok N n s1 w r tmp o ro (Q : () → spst → Prop) :
  N = bound + n → 0 <= n <= 1 → steady s s1 N → s_weak s1 !! w = Some o → s_weak s1 !! r = Some ro →
  s_weak s1 !! tmp = None →
  (∀ s', steady s s' (N + 6) → s_weak s' = <[r := o]> (<[w := ro]> (s_weak s1)) → s_shared s' = s_shared s1 → Q () s') →
  wp (weak_ptr_swap w r tmp) s1 Q.
Proof.
  intros -> Hn H Hw Hr Ht HQ. assert (tmp ≠ w ∧ tmp ≠ r) as [Hw' Hr'] by (split; congruence).
  unfold weak_ptr_swap, wc_copy, wc_assign. wp_step. wp_step. eapply wp_ld_weak; [exact Hw|].
  eapply wc_store_ok; [|exact H|exact Ht|right; by eapply watched_net|]; [room|]. intros s2 H2 E2 W2.
  wp_step. wp_step. eapply wp_ld_weak; [by rewrite E2, lookup_insert_ne|].
  eapply wc_assign_to_ok; [| |exact H2|by rewrite E2, lookup_insert_ne| |]; [room|room| |].
  { right. eapply (watched_net s s2 _ r); [exact H2|]. by rewrite E2, lookup_insert_ne. }
  intros s3 H3 E3 W3. rewrite E2 in E3. wp_step. wp_step.
  assert (s_weak s3 !! tmp = Some o) as Et by by rewrite E3, lookup_insert_ne, lookup_insert_eq.
  assert (is_Some (s_weak s3 !! r)) as [x Hx].
  { rewrite E3. destruct (decide (w = r)) as [->|]; [rewrite lookup_insert_eq; by eexists|].
    rewrite !lookup_insert_ne by done. by eexists. }
  eapply wp_ld_weak; [exact Et|].
  eapply wc_assign_to_ok; [| |exact H3|exact Hx|right; by eapply watched_net|]; [room|room|].
  intros s4 H4 E4 W4. eapply wc_dtor_ok; [|exact H4|by rewrite E4, lookup_insert_ne|]; [room|].
  intros s5 H5 E5 W5. apply HQ; [eapply steady_of; [exact H5|lia|done|done]| |by rewrite W5, W4, W3, W2].
  rewrite E5, E4, E3. destruct o as [p1 a1], ro as [p2 a2]; cbn [m_px m_pi]. rewrite delete_insert_ne, delete_insert_ne by done.
  by rewrite delete_insert_id.
Qed.

Lemma weak_op_ok op : is_weak_op op = true → sp_pre op s → wp (sp_exec op) s (sp_done op s).
Proof.
  intros Hop Hpre. pose proof start_steady as H. pose proof room_start as HR.
  destruct op; cbn [is_weak_op] in Hop; try discriminate; clear Hop; try (by apply convert_ok); try (by apply assign_convert_ok);
    cbn [sp_exec sp_pre] in *; cbv zeta in Hpre; unfold returns.
  - (* default *) wp_step. eapply wc_default_ok; [exact H|done|]. intros s' H' E1 E2. op_ret.
  - (* from shared *) destruct Hpre as [Hw [o Hr]]. unfold wc_from_shared. wp_step. wp_step. eapply wp_ld_shared; [exact Hr|].
    eapply wc_store_ok; [exact HR|exact H|done|left; by eapply owned_net|]. intros s' H' E1 E2. op_ret.
  - (* copy *) destruct Hpre as [Hw [o Hr]]. unfold wc_copy. wp_step. wp_step. eapply wp_ld_weak; [exact Hr|].
    eapply wc_store_ok; [exact HR|exact H|done|by eapply watched|]. intros s' H' E1 E2. op_ret.
  - (* destructor *) destruct Hpre as [o Hw]. wp_step. eapply wc_dtor_ok; [exact HR|exact H|exact Hw|].
    intros s' H' E1 E2. op_ret.
  - (* assignment from shared *) destruct Hpre as [[o Hw] [ro Hr]]. unfold wc_assign_shared. wp_step. wp_step.
    eapply wp_ld_shared; [exact Hr|].
    eapply wc_assign_to_ok; [exact HR| |exact H|exact Hw|left; by eapply owned_net|]; [room|].
    intros s' H' E1 E2. op_ret. rewrite E1. by destruct ro.
  - (* assignment *) destruct Hpre as [[o Hw] [ro Hr]]. unfold wc_assign. wp_step. wp_step. eapply wp_ld_weak; [exact Hr|].
    eapply wc_assign_to_ok; [exact HR| |exact H|exact Hw|by eapply watched|]; [room|].
    intros s' H' E1 E2. op_ret. rewrite E1. by destruct ro.
  - (* swap *) destruct Hpre as ([o Hw] & [ro Hr] & Ht). wp_step.
    eapply (weak_swap_ok bound 0); [done|lia|exact H|exact Hw|exact Hr|exact Ht|]. intros s' H' E1 E2. op_ret.
  - (* reset *) destruct Hpre as ([o Hw] & Ht & Htmp & Hne). assert (this ≠ w) as Hne' by congruence.
    unfold weak_ptr_reset. wp_step. wp_step. eapply wc_default_ok; [exact H|done|]. intros s1 H1 E1 W1. wp_step.
    eapply (weak_swap_ok bound 0); [done|lia|exact H1|by rewrite E1, lookup_insert_eq|by rewrite E1, lookup_insert_ne|
      by rewrite E1, lookup_insert_ne|].
    intros s2 H2 E2 W2. rewrite E1 in E2.
    eapply wc_dtor_ok; [|exact H2|by rewrite E2, lookup_insert_ne, lookup_insert_eq|]; [room|].
    intros s3 H3 E3 W3. rewrite E2, temp_swapped in E3 by done. op_ret. congruence.
Qed.

End operations.

(** A constructor that throws calls the deleter and leaves the rest. *)
Lemma rejected_ok op s p :
  sp_rejected op = [p] → sp_returns op s = false ∧ sp_shared op s = s_shared s ∧ sp_weak op s = s_weak s ∧
  sp_exec op s = Ret (false, SpSt (s_shared s) (s_weak s) (s_blocks s) (p :: s_deleted s)).
Proof.
  destruct op as [|v q mem| | | | | | | | | |v t q mem| | | | | | | | | | | |]; try discriminate; destruct mem; try discriminate; cbn; unfold constructed, shared_ptr_ctor, shared_ptr_reset_to, shared_ptr_ctor, sc_ctor;
    (destruct (q =? 0) eqn:E; [discriminate|]); intros [= ->]; split_and!; try done; cbv [mbind M_bind]; by rewrite E.
Qed.

Lemma rejected_cases op : sp_rejected op = [] ∨ ∃ p, sp_rejected op = [p].
Proof. destruct op as [|v q [|]| | | | | | | | | |v t q [|]| | | | | | | | | | | |]; cbn; try (by left); destruct (q =? 0); eauto. Qed.

(** What the observers return. *)
Definition sp_observed s : Prop :=
  (∀ v o, s_shared s !! v = Some o →
     sc_use_count v s = Ret (if m_pi o =? 0 then 0 else owners (m_pi o) (s_shared s), s) ∧
     sc_unique v s = Ret (negb (m_pi o =? 0) && (owners (m_pi o) (s_shared s) =? 1), s)) ∧
  (∀ w o, s_weak s !! w = Some o → weak_ptr_expired w s = Ret (negb (alive s o), s)).

Lemma observed_ok s0 s N : steady s0 s N → sp_observed s.
Proof.
  intros H. split; [|intros; by eapply expired_ok]. intros v o Hv.
  assert (sc_use_count v s = Ret (if m_pi o =? 0 then 0 else owners (m_pi o) (s_shared s), s)) as E.
  { unfold sc_use_count, mbind, M_bind, ld_shared. rewrite Hv. eapply use_count_ok; [exact H|].
    left. by eapply owned_net. }
  split; [done|]. unfold sc_unique, mbind, M_bind. rewrite E. unfold mret, M_ret. by destruct (m_pi o =? 0).
Qed.

(** C10: the operations of [shared_ptr] and [weak_ptr] keep ownership exact: if
    every count is the number of pointer objects that share it, each operation
    (constructors, copies, casts, conversions, moves, assignments, also to
    itself, [swap], [reset], [lock] and destructors) accesses only counts that
    are allocated, leaves the pointer objects that the specification says,
    throws exactly if a weak pointer has expired or the allocation fails, and
    every count is exact again.  The deleter is called, once each, for exactly
    the objects that lost their last owner, and for the pointer a throwing
    constructor was given; [use_count], [unique] and [expired] then tell the
    number of owners. *)
Theorem sp_ownership op s :
  sp_ok s → Z.of_nat (size (s_shared s)) < bound → Z.of_nat (size (s_weak s)) < bound → sp_pre op s →
  ∃ s', sp_exec op s = Ret (sp_returns op s, s') ∧ s_shared s' = sp_shared op s ∧ s_weak s' = sp_weak op s ∧
    sp_ok s' ∧ sp_observed s' ∧
    ∃ dropped, NoDup dropped ∧ s_deleted s' = sp_rejected op ++ map (ptr_at s) dropped ++ s_deleted s ∧
      ∀ a, a ∈ dropped ↔ a ≠ 0 ∧ 0 < owners a (s_shared s) ∧ owners a (s_shared s') = 0.
Proof.
  intros H0 B1 B2 Hpre. destruct (rejected_cases op) as [Hrej|[p Hrej]].
  - assert (wp (sp_exec op) s (sp_done op s)) as Hw
      by (destruct (is_weak_op op) eqn:E; [by apply weak_op_ok|by apply shared_op_ok]).
    apply wp_run in Hw as (b & s' & Ex & -> & E1 & E2 & N & HN). exists s'. split_and!; try done.
    + apply HN.
    + by eapply observed_ok.
    + rewrite Hrej. destruct (du_deleted _ _ _ _ _ HN) as (dr & D1 & D2 & D3). exists dr. split_and!; [done|done|].
      intros a. rewrite D3. unfold use_net, none. by rewrite Z.add_0_r.
  - destruct (rejected_ok op s p Hrej) as (-> & E1 & E2 & Ex).
    assert (sp_ok (SpSt (s_shared s) (s_weak s) (s_blocks s) (p :: s_deleted s))) as H by (destruct H0; by split).
    eexists. split_and!; [exact Ex|done|done|exact H| |].
    + eapply observed_ok. by apply during_start.
    + exists []. rewrite Hrej. split_and!; [constructor|done|]. intros a. cbn. split; [by intros ?%not_elem_of_nil|lia].
Qed.

(** Two owners and a weak pointer. *)
Definition sp_demo : spst :=
  SpSt {[1%nat := SpObj 70 100; 2%nat := SpObj 74 100]} {[5%nat := SpObj 70 100]} {[100 := SBlock 2 2 70]} [].
Lemma sp_demo_ok : sp_ok sp_demo.
Proof.
  assert (∀ a, owners a (s_shared sp_demo) = 2 * b2z (100 =? a) ∧ owners a (s_weak sp_demo) = b2z (100 =? a)) as Ho.
  { intros a. cbn [sp_demo s_shared s_weak]. rewrite <- insert_empty, <- (insert_empty (M := gmap nat)), !owners_new by done.
    assert (owners a ∅ = 0) as -> by (unfold owners; by rewrite map_filter_empty). cbn [m_pi]. lia. }
  split; intros a; unfold use_net, weak_net, none; destruct (Ho a) as [-> ->]; cbn [sp_demo s_blocks].
  - intros b [<- <-]%lookup_singleton_Some. by vm_compute.
  - intros Ha Hb%lookup_singleton_None. destruct (Z.eqb_spec 100 a); [done|]. cbn. lia.
Qed.

Lemma sp_ownership_witness :
  ∃ s', sp_exec (ODtor 1) sp_demo = Ret (true, s') ∧ sp_ok s' ∧ s_deleted s' = [] ∧ sp_observed s'.
Proof.
  destruct (sp_ownership (ODtor 1) sp_demo sp_demo_ok eq_refl eq_refl ltac:(by eexists)) as (s' & E & _ & _ & H & Ho & _).
  exists s'. split_and!; [exact E|exact H| |exact Ho]. vm_compute in E. by injection E as <-.
Defined.

(** The aliasing constructor makes an owner that is not counted: destroying it
    deletes an object that another pointer still owns. *)
Definition alias_demo : M spst (option spobj * list Z * option sblock) :=
  _ ← sp_exec (OCtor 1 70 (Some 100));
  shared_ptr_alias 2 1 74;;
  sc_dtor 2;;
  gets (λ s, (s_shared s !! 1%nat, s_deleted s, s_blocks s !! 100)).
Lemma alias_drops_owned :
  match alias_demo (SpSt ∅ ∅ ∅ []) with Ret (x, _) => x | Fault _ => (None, [], None) end =
  (Some (SpObj 70 100), [70], None).
Proof. vm_compute. reflexivity. Qed.
