(* ===== verification/ManagedOpen.v ===== *)
(** Opening and creating managed segments concurrently.

    Models [managed_open_or_create_impl] of
    detail/managed_open_or_create_impl.hpp: several processes create, open, or
    open or create the device of a name; the first word of the device tells the
    openers how far its creator is.  Devices are files of the operating system
    in the sense of POSIX: creating is exclusive, a file is empty (or has the
    size given, if the device is not file based) and zero when it is created,
    mapping an empty file fails, and removing a name leaves the file to those
    who opened it.  One step is one call of the operating system, one access to
    the word, or the beginning or end of [construct_func]; the time is read
    together with the access in front of it. *)

From S2P Require Import Prelude MathUtil Atomic.

Local Open Scope u64_scope.

Definition UninitializedSegment : Z := 0.
Definition InitializingSegment : Z := 1.
Definition InitializedSegment : Z := 2.
Definition CorruptedSegment : Z := 3.

Definition MaxCreateOrOpenTries : Z := 20.
Definition MaxInitializeTimeSec : Z := 300.

(** Durations are in microseconds. *)
Definition usduration_from_seconds (sec : Z) : Z := sec * 1000000.

(** ** The operating system *)

(** [f_creator] and [f_asked], the thread that created the file and the size it
    asked for, are not read by the code. *)
Record mfile := MFile { f_size : Z; f_word : Z; f_creator : nat; f_asked : Z }.
Record os := Os { os_name : option nat; os_files : list mfile; os_clock : Z }.

Definition set_files (fs : list mfile) (o : os) : os := Os (os_name o) fs (os_clock o).
Definition file (f : nat) (o : os) : mfile := default (MFile 0 0 0 0) (os_files o !! f).
Definition set_file (f : nat) (x : mfile) (o : os) : os := set_files (<[f := x]> (os_files o)) o.
Definition set_word (w : Z) (x : mfile) : mfile := MFile (f_size x) w (f_creator x) (f_asked x).

(** Truncation keeps the bytes below the new size; the word's first byte is its
    lowest. *)
Definition truncate (n : Z) (x : mfile) : mfile :=
  MFile n (if n <? 4 then f_word x mod 2 ^ (8 * n) else f_word x) (f_creator x) (f_asked x).

(** ** Calls *)

Inductive create_enum_t := DoCreate | DoOpen | DoOpenOrCreate.
Inductive mode_t := read_only | read_write | copy_on_write | read_private.

(** The constructors; no type for the one that maps anonymous memory. *)
Record request := Request { r_type : option create_enum_t; r_size : Z; r_mode : mode_t }.

Inductive mo_error := EAlreadyExists | ENotFound | ECorrupted | ESize | ESystem.

(** A [mapped_region] on the whole file. *)
Record region := Region { g_file : nat; g_size : Z; g_mode : mode_t }.

(** Where a call is.  [tries] is the counter of [do_create_else_open], which only
    [DoOpenOrCreate] runs. *)
Inductive mo_pc :=
| MIdle
| MCreate (r : request) (tries : option Z)
| MOpenDev (r : request) (tries : option Z)
(* do_map_after_create, priv_map_anonymous *)
| MAnonymous (r : request)
| MTruncate (r : request) (f : nat)
| MMapNew (r : request) (f : nat)
| MCas (r : request) (g : region)
| MConstruct (r : request) (g : region)
| MConstructing (r : request) (g : region)
| MWriteInit (r : request) (g : region)
| MWriteCorrupt (r : request) (g : region) (e : mo_error)
| MUndo (r : request) (f : nat) (e : mo_error)
(* do_map_after_open *)
| MStart (r : request) (f : nat)
| MSize (r : request) (f : nat) (start : Z)
| MMap (r : request) (f : nat)
| MRead (r : request) (g : region)
| MWait (r : request) (g : region) (start : Z)
| MRemap (r : request) (g : region)
| MAttach (r : request) (g : region)
(* the object is constructed, or its constructor has thrown *)
| MDone (r : request) (g : region)
| MThrown (r : request) (e : mo_error).

(** The schedule's choices: a call; its next step, with the result of what the
    code cannot predict (false if the operating system or [construct_func]
    fails); time that passes; removal of the name. *)
Inductive mo_choice := MCall (r : request) | MGo (ok : bool) | MTick (d : N) | MRemove.

(** Calls of [construct_func]: the first, its return, those of openers; and an
    exception in [do_map_after_create]. *)
Inductive mo_event :=
| EConstruct (f : nat) (sz : Z) | EBuilt (f : nat) (sz : Z) | EAttach (f : nat) (sz : Z) | EThrew (f : nat).

#[export] Instance mo_event_eq : EqDecision mo_event.
Proof. solve_decision. Defined.

Section protocol.
(** [DeviceAbstraction] is file based; the size [construct_func] needs; the
    alignment asked for. *)
Context (FileBased : bool) (min_size MemAlignment : Z).

Definition RequiredAlignment : Z := if nz MemAlignment then MemAlignment else 16.
Definition ManagedOpenOrCreateUserOffset : Z := default 0 (ct_rounded_size 4 RequiredAlignment).
Notation offset := ManagedOpenOrCreateUserOffset.

Definition get_user_size (g : region) : Z := g_size g -! offset.

(** Conversion to [offset_t]. *)
Definition to_offset_t (x : Z) : Z := u64 (x + 9223372036854775808) - 9223372036854775808.
Definition check_offset_t_size (size : Z) : bool :=
  if FileBased then u64 (to_offset_t size) =? size else true.

(** The checks of [priv_open_or_create]. *)
Definition size_checked (size : Z) : bool :=
  negb ((u64_max -! offset <? min_size) || (size <? min_size +! offset)) && check_offset_t_size size.

(** The mode an opener maps with. *)
Definition open_mode (r : request) : mode_t :=
  match r_type r with
  | Some DoOpen =>
      let ronly := match r_mode r with read_only => true | _ => false end in
      let cow := match r_mode r with copy_on_write => true | _ => false end in
      if ronly then read_only else if cow then copy_on_write else read_write
  | _ => read_write
  end.

Definition timed_out (start : Z) (o : os) : bool := usduration_from_seconds MaxInitializeTimeSec <? os_clock o - start.

(** Mapping the whole file; empty files cannot be mapped. *)
Definition map_file (m : mode_t) (f : nat) (ok : bool) (o : os) : option region :=
  if negb ok || (f_size (file f o) =? 0) then None else Some (Region f (f_size (file f o)) m).

Definition new_file (t : nat) (size asked : Z) (o : os) : os :=
  set_files (os_files o ++ [MFile size UninitializedSegment t asked]) o.

Definition mo_res : Type := mo_pc * os * list mo_event.

(** [priv_open_or_create] up to the creation of the device. *)
Definition mo_call (r : request) (o : os) : mo_res :=
  match r_type r with
  | None => (MAnonymous r, o, [])
  | Some DoOpen => (MOpenDev r None, o, [])
  | Some DoCreate => (if size_checked (r_size r) then MCreate r None else MThrown r ESize, o, [])
  | Some DoOpenOrCreate => (if size_checked (r_size r) then MCreate r (Some 0) else MThrown r ESize, o, [])
  end.

(** [create_device], on its own or in [do_create_else_open]. *)
Definition create_device (t : nat) (r : request) (tries : option Z) (ok : bool) (o : os) : mo_res :=
  if negb ok then (MThrown r ESystem, o, []) else
  match os_name o, tries with
  | None, _ =>
      let o' := new_file t (if FileBased then 0 else r_size r) (r_size r) o in
      (MTruncate r (length (os_files o)), Os (Some (length (os_files o))) (os_files o') (os_clock o), [])
  | Some _, None => (MThrown r EAlreadyExists, o, [])
  | Some _, Some n =>
      if n + 1 =? MaxCreateOrOpenTries then (MThrown r ECorrupted, o, []) else (MOpenDev r (Some (n + 1)), o, [])
  end.

(** Opening the device. *)
Definition open_device (r : request) (tries : option Z) (ok : bool) (o : os) : mo_res :=
  if negb ok then (MThrown r ESystem, o, []) else
  match os_name o, tries with
  | Some f, _ => (MStart r f, o, [])
  | None, None => (MThrown r ENotFound, o, [])
  | None, Some n => (MCreate r (Some n), o, [])
  end.

(** The mapping of [priv_map_anonymous]; what follows is the code of
    [do_map_after_create] without truncation. *)
Definition priv_map_anonymous (t : nat) (r : request) (ok : bool) (o : os) : mo_res :=
  if negb ok then (MThrown r ESystem, o, []) else
  (MCas r (Region (length (os_files o)) (r_size r) read_write), new_file t (r_size r) (r_size r) o, []).

Definition do_map_after_create (t : nat) (pc : mo_pc) (ok : bool) (o : os) : option mo_res :=
  match pc with
  | MAnonymous r => Some (priv_map_anonymous t r ok o)
  | MTruncate r f =>
      let size := to_offset_t (r_size r) in
      if negb FileBased then Some (MMapNew r f, o, [])
      else if negb ok || (size <? 0) then Some (MUndo r f ESystem, o, [EThrew f])
      else Some (MMapNew r f, set_file f (truncate size (file f o)) o, [])
  | MMapNew r f =>
      match map_file read_write f ok o with
      | Some g => Some (MCas r g, o, [])
      | None => Some (MUndo r f ESystem, o, [EThrew f])
      end
  | MCas r g =>
      let f := g_file g in
      let '(previous, w) := atomic_cas32 InitializingSegment UninitializedSegment (f_word (file f o)) in
      Some (if previous =? UninitializedSegment then MConstruct r g else MWriteCorrupt r g ECorrupted,
            set_file f (set_word w (file f o)) o, [])
  | MConstruct r g => Some (MConstructing r g, o, [EConstruct (g_file g) (r_size r -! offset)])
  | MConstructing r g =>
      if ok then Some (MWriteInit r g, o, [EBuilt (g_file g) (r_size r -! offset)])
      else Some (MWriteCorrupt r g ESystem, o, [EThrew (g_file g)])
  | MWriteInit r g =>
      let f := g_file g in
      Some (MDone r g, set_file f (set_word (atomic_write32 InitializedSegment (f_word (file f o))) (file f o)) o, [])
  | MWriteCorrupt r g e =>
      let f := g_file g in
      Some (if r_type r then MUndo r f e else MThrown r e,
            set_file f (set_word (atomic_write32 CorruptedSegment (f_word (file f o))) (file f o)) o, [])
  | MUndo r f e => Some (MThrown r e, if FileBased && ok then set_file f (truncate 1 (file f o)) o else o, [])
  | _ => None
  end.

Definition do_map_after_open (pc : mo_pc) (ok : bool) (o : os) : option mo_res :=
  match pc with
  | MStart r f => Some (if FileBased then MSize r f (os_clock o) else MMap r f, o, [])
  | MSize r f start =>
      let filesize := f_size (file f o) in
      Some (if negb ok then MThrown r ESystem
            else if nz filesize then if filesize =? 1 then MThrown r ECorrupted else MMap r f
            else if timed_out start o then MThrown r ECorrupted else MSize r f start, o, [])
  | MMap r f =>
      Some (match map_file (open_mode r) f ok o with Some g => MRead r g | None => MThrown r ESystem end, o, [])
  | MRead r g =>
      Some (if f_word (file (g_file g) o) =? InitializedSegment then MAttach r g else MWait r g (os_clock o), o, [])
  | MWait r g start =>
      let value := f_word (file (g_file g) o) in
      Some (if value =? InitializedSegment then MRemap r g
            else if value =? CorruptedSegment then MThrown r ECorrupted
            else if timed_out start o then MThrown r ECorrupted else MWait r g start, o, [])
  | MRemap r g =>
      Some (match map_file (open_mode r) (g_file g) ok o with Some g => MAttach r g | None => MThrown r ESystem end, o, [])
  | MAttach r g =>
      Some (if ok then MDone r g else MThrown r ESystem, o, [EAttach (g_file g) (get_user_size g)])
  | _ => None
  end.

Definition mo_go (t : nat) (pc : mo_pc) (ok : bool) (o : os) : option mo_res :=
  match pc with
  | MCreate r tries => Some (create_device t r tries ok o)
  | MOpenDev r tries => Some (open_device r tries ok o)
  | MIdle | MDone _ _ | MThrown _ _ => None
  | MStart _ _ | MSize _ _ _ | MMap _ _ | MRead _ _ | MWait _ _ _ | MRemap _ _ | MAttach _ _ => do_map_after_open pc ok o
  | _ => do_map_after_create t pc ok o
  end.

Definition mo_next (t : nat) (ch : mo_choice) (pc : mo_pc) (o : os) : option mo_res :=
  match ch, pc with
  | MCall r, MIdle => Some (mo_call r o)
  | MCall _, _ => None
  | MGo ok, _ => mo_go t pc ok o
  | MTick d, _ => Some (pc, Os (os_name o) (os_files o) (os_clock o + Z.of_N d), [])
  | MRemove, _ => Some (pc, Os None (os_files o) (os_clock o), [])
  end.

(** [n] objects to construct; the name does not exist. *)
Definition mo_start (n : nat) : asys os mo_pc := ASys (Os None [] 0) (replicate n MIdle).

End protocol.
