(* ===== verification/ManagedOpenProps.v ===== *)
(** Opening and creating managed segments: safety and progress. *)

From S2P Require Import Prelude MathUtil Atomic ManagedOpen.

Local Open Scope u64_scope.

Implicit Types (o : os) (es ev : list mo_event) (f t : nat).

(** ** Traces *)

(** What may happen after [seen]: one first construction per file, and openers
    only after it has returned, with the same size. *)
Definition ev_ok (seen : list mo_event) (e : mo_event) : Prop :=
  match e with
  | EConstruct f _ => ∀ sz, EConstruct f sz ∉ seen
  | EBuilt f sz => EConstruct f sz ∈ seen ∧ (∀ sz, EBuilt f sz ∉ seen) ∧ EThrew f ∉ seen
  | EAttach f sz => EBuilt f sz ∈ seen
  | EThrew f => EThrew f ∉ seen ∧ ∀ sz, EBuilt f sz ∉ seen
  end.
Definition trace_ok es : Prop := ∀ i e, es !! i = Some e → ev_ok (take i es) e.

Lemma trace_snoc es e : trace_ok es → ev_ok es e → trace_ok (es ++ [e]).
Proof.
  intros H He i e' Hi. destruct (decide (i < length es)%nat) as [Hlt|Hge].
  - rewrite lookup_app_l in Hi by done. rewrite take_app_le by lia. by apply H.
  - rewrite lookup_app_r in Hi by lia. apply list_lookup_singleton_Some in Hi as [E <-].
    assert (i = length es) as -> by lia. by rewrite take_app_length.
Qed.

Lemma trace_nil es : trace_ok es → trace_ok (es ++ []).
Proof. by rewrite app_nil_r. Qed.

Section proofs.
Context (FileBased : bool) (min_size MemAlignment : Z).
Notation offset := (ManagedOpenOrCreateUserOffset MemAlignment).
(** [construct_func] needs a size, and the alignment passes the static
    assertions of [ct_rounded_size]. *)
Context (Hmin : 0 <= min_size) (Halign : 0 < RequiredAlignment MemAlignment)
  (Hoff : ct_rounded_size 4 (RequiredAlignment MemAlignment) = Some offset).
Notation next := (mo_next FileBased min_size MemAlignment).

(** ** The invariant *)

(** Events that only the creator of [f] causes. *)
Definition own_event f (e : mo_event) : Prop :=
  match e with EConstruct f' _ | EBuilt f' _ | EThrew f' => f' = f | EAttach _ _ => False end.
Definition fresh f es : Prop := ∀ e, own_event f e → e ∉ es.
Definition running f es : Prop := EThrew f ∉ es ∧ ∀ sz, EBuilt f sz ∉ es.
Definition threw f es : Prop := EThrew f ∈ es ∧ ∀ sz, EBuilt f sz ∉ es.

(** The file [f] that [t] created for [r]; [P] holds of its size and word. *)
Definition mine t (r : request) f o (P : Z → Z → Prop) : Prop :=
  ∃ x, os_files o !! f = Some x ∧ f_creator x = t ∧ f_asked x = r_size r ∧ P (f_size x) (f_word x).

(** A region that is as large as the file's creator wanted, or the creator has
    given up. *)
Definition fits f (size : Z) o : Prop :=
  ∃ x, os_files o !! f = Some x ∧ 1 < f_asked x ∧ (size = f_asked x ∨ f_size x = 1).

(** A device that openers can find. *)
Definition findable f o : Prop := ∃ x, os_files o !! f = Some x ∧ 1 < f_asked x.

Definition ready f (P : Z → Prop) o : Prop :=
  ∃ x, os_files o !! f = Some x ∧ f_word x = InitializedSegment ∧ P (f_asked x).

Definition pc_ok t (pc : mo_pc) o es : Prop :=
  match pc with
  | MIdle | MThrown _ _ => True
  | MAnonymous r => r_type r = None
  | MCreate r tries =>
      r_type r ≠ Some DoOpen ∧ 1 < r_size r ∧ check_offset_t_size FileBased (r_size r) = true ∧
      from_option (λ n, 0 <= n < MaxCreateOrOpenTries) True tries
  | MOpenDev r tries =>
      (r_type r ≠ Some DoOpen → 1 < r_size r ∧ check_offset_t_size FileBased (r_size r) = true) ∧
      (r_type r = Some DoOpen → tries = None) ∧ from_option (λ n, 0 <= n < MaxCreateOrOpenTries) True tries
  | MTruncate r f =>
      mine t r f o (λ size w, w = UninitializedSegment ∧ size = if FileBased then 0 else r_size r) ∧ fresh f es ∧
      check_offset_t_size FileBased (r_size r) = true
  | MMapNew r f => mine t r f o (λ size w, w = UninitializedSegment ∧ size = r_size r) ∧ fresh f es
  | MCas r g =>
      mine t r (g_file g) o (λ size w, w = UninitializedSegment ∧ size = r_size r) ∧ g_size g = r_size r ∧ fresh (g_file g) es
  | MConstruct r g =>
      mine t r (g_file g) o (λ size w, w = InitializingSegment ∧ size = r_size r) ∧ g_size g = r_size r ∧ fresh (g_file g) es
  | MConstructing r g =>
      mine t r (g_file g) o (λ size w, w = InitializingSegment ∧ size = r_size r) ∧ g_size g = r_size r ∧
      EConstruct (g_file g) (r_size r -! offset) ∈ es ∧ running (g_file g) es
  | MWriteInit r g =>
      mine t r (g_file g) o (λ size w, w = InitializingSegment ∧ size = r_size r) ∧ g_size g = r_size r ∧
      EBuilt (g_file g) (r_size r -! offset) ∈ es
  | MWriteCorrupt r g e =>
      mine t r (g_file g) o (λ size w, w = InitializingSegment ∧ size = r_size r) ∧ e = ESystem ∧ threw (g_file g) es
  | MUndo r f e => mine t r f o (λ size w, w = UninitializedSegment ∨ w = CorruptedSegment) ∧ threw f es ∧ e = ESystem
  | MStart r f | MSize r f _ | MMap r f => findable f o
  | MRead r g | MWait r g _ => fits (g_file g) (g_size g) o
  | MRemap r g => ready (g_file g) (λ asked, 1 < asked) o
  | MAttach r g | MDone r g => ready (g_file g) (λ asked, g_size g = asked) o
  end.

Definition file_ok f (x : mfile) es : Prop :=
  (f_size x = 0 ∨ f_size x = 1 ∨ f_size x = f_asked x) ∧
  (f_word x = InitializedSegment → f_size x = f_asked x ∧ EBuilt f (f_asked x -! offset) ∈ es) ∧
  (f_word x = CorruptedSegment ∨ f_size x = 1 ∧ f_asked x ≠ 1 → EThrew f ∈ es).

(** What holds of the files and the trace. *)
Record globals o es : Prop := {
  gl_name f : os_name o = Some f → findable f o;
  gl_file f x : os_files o !! f = Some x → file_ok f x es;
  gl_new e f : e ∈ es → own_event f e → (f < length (os_files o))%nat;
  gl_trace : trace_ok es
}.

Definition mo_inv o (ts : list mo_pc) es : Prop :=
  globals o es ∧ ∀ t pc, ts !! t = Some pc → pc_ok t pc o es.

(** What a step of [t] does to a file and its events, as other threads see it. *)
Record kept t o es o' es' : Prop := {
  kp_file f x : os_files o !! f = Some x → ∃ x', os_files o' !! f = Some x' ∧
    f_creator x' = f_creator x ∧ f_asked x' = f_asked x ∧ (f_creator x ≠ t → x' = x) ∧
    (f_word x = InitializedSegment → x' = x) ∧ (f_size x = 1 → f_asked x ≠ 1 → f_size x' = 1);
  kp_sub e : e ∈ es → e ∈ es';
  kp_new e f x : os_files o !! f = Some x → f_creator x ≠ t → e ∈ es' → own_event f e → e ∈ es
}.

Lemma mine_kept t' t r f o es o' es' P : t' ≠ t → kept t o es o' es' → mine t' r f o P → mine t' r f o' P.
Proof.
  intros Hne H (x & Hx & <- & Ha & HP). destruct (kp_file _ _ _ _ _ H f x Hx) as (x' & Hx' & _ & _ & Hsame & _).
  rewrite (Hsame Hne) in Hx'. by exists x.
Qed.

Lemma events_kept t' t r f o es o' es' P :
  t' ≠ t → kept t o es o' es' → mine t' r f o P →
  (fresh f es → fresh f es') ∧ (running f es → running f es') ∧ (threw f es → threw f es').
Proof.
  intros Hne H (x & Hx & <- & Ha & HP). pose proof (kp_sub _ _ _ _ _ H) as Hsub.
  assert (∀ e, own_event f e → e ∉ es → e ∉ es') as Hno.
  { intros e He Hn Hin. apply Hn. by eapply (kp_new _ _ _ _ _ H). }
  unfold fresh, running, threw. split_and!.
  - intros Hf e He. by apply Hno, Hf.
  - intros [H1 H2]. split; [by apply Hno|]. intros sz. by apply Hno.
  - intros [H1 H2]. split; [by apply Hsub|]. intros sz. by apply Hno.
Qed.

Lemma fits_kept t f size o es o' es' : kept t o es o' es' → fits f size o → fits f size o'.
Proof.
  intros H (x & Hx & H1 & Hs). destruct (kp_file _ _ _ _ _ H f x Hx) as (x' & Hx' & _ & Ha & _ & _ & H2).
  exists x'. rewrite Ha. split_and!; [done|done|]. destruct Hs as [-> | E]; [by left|right; apply H2; [done|lia]].
Qed.

Lemma findable_kept t f o es o' es' : kept t o es o' es' → findable f o → findable f o'.
Proof.
  intros H (x & Hx & H1). destruct (kp_file _ _ _ _ _ H f x Hx) as (x' & Hx' & _ & Ha & _). exists x'. by rewrite Ha.
Qed.

Lemma ready_kept t f P o es o' es' : kept t o es o' es' → ready f P o → ready f P o'.
Proof.
  intros H (x & Hx & Hw & HP). destruct (kp_file _ _ _ _ _ H f x Hx) as (x' & Hx' & _ & _ & _ & H2 & _).
  rewrite (H2 Hw) in Hx'. by exists x.
Qed.

Lemma pc_ok_kept t' t pc o es o' es' : t' ≠ t → kept t o es o' es' → pc_ok t' pc o es → pc_ok t' pc o' es'.
Proof.
  intros Hne H Hpc. pose proof (kp_sub _ _ _ _ _ H) as Hsub.
  destruct pc; cbn in *; try done;
    try (eauto using findable_kept, fits_kept, ready_kept);
    destruct Hpc as [Hm Hr]; pose proof (mine_kept _ _ _ _ _ _ _ _ _ Hne H Hm);
    destruct (events_kept _ _ _ _ _ _ _ _ _ Hne H Hm) as (? & ? & ?); naive_solver.
Qed.

(** *** The kinds of steps *)

Lemma kept_same t o es o' es' : os_files o' = os_files o → es' = es → kept t o es o' es'.
Proof. intros E ->. split; [|done|done]. intros f x Hx. exists x. by rewrite E. Qed.

Lemma globals_same o es o' :
  globals o es → os_files o' = os_files o → os_name o' = os_name o ∨ os_name o' = None → globals o' es.
Proof.
  intros [H0 H1 H2 H3] E En. split; rewrite ?E; try done. intros f Hf. unfold findable. rewrite E. apply H0.
  destruct En as [En|En]; rewrite En in Hf; done.
Qed.

(** An event about a file of its own, or an opener's. *)
Definition about t o (e : mo_event) : Prop :=
  ∀ f, own_event f e → ∃ x, os_files o !! f = Some x ∧ f_creator x = t.

Lemma kept_event t o es e : about t o e → kept t o es o (es ++ [e]).
Proof.
  intros He. split; [intros f x Hx; by exists x|set_solver|].
  intros e' f x Hx Hc [H|H]%elem_of_app Ho; [done|]. apply list_elem_of_singleton in H as ->.
  destruct (He f Ho) as (x' & Hx' & E). congruence.
Qed.

Lemma globals_event t o es e : globals o es → about t o e → ev_ok es e → globals o (es ++ [e]).
Proof.
  intros [H0 H1 H2 H3] He Hok. split; [done| | |by apply trace_snoc].
  - intros f x Hx. destruct (H1 f x Hx) as (Hs & Hw & Ht). unfold file_ok. set_solver.
  - intros e' f [H|H]%elem_of_app Ho; [by eapply H2|]. apply list_elem_of_singleton in H as ->.
    destruct (He f Ho) as (x & Hx & _). by eapply lookup_lt_Some.
Qed.

(** A change of a file of its own that is not ready. *)
Lemma kept_own t o es f x x' :
  os_files o !! f = Some x → f_creator x = t → f_creator x' = t → f_asked x' = f_asked x →
  f_word x ≠ InitializedSegment → (f_size x = 1 → f_asked x ≠ 1 → f_size x' = 1) → kept t o es (set_file f x' o) es.
Proof.
  intros Hx Hc Hc' Ha Hw Hs. split; [|done|done]. intros f' y Hy. cbn.
  destruct (decide (f' = f)) as [->|Hne].
  - assert (y = x) as -> by congruence. exists x'. rewrite list_lookup_insert_eq by (by eapply lookup_lt_Some).
    split_and!; try done; congruence.
  - exists y. by rewrite list_lookup_insert_ne.
Qed.

Lemma globals_own o es f x x' :
  globals o es → os_files o !! f = Some x → f_asked x' = f_asked x → file_ok f x' es → globals (set_file f x' o) es.
Proof.
  intros [H0 H1 H2 H3] Hx Ha Hx'. split; [| | |done]; cbn.
  - intros f' Hf. destruct (H0 f' Hf) as (y & Hy & Hl). destruct (decide (f' = f)) as [->|Hne].
    + exists x'. cbn. rewrite list_lookup_insert_eq by (by eapply lookup_lt_Some). split; [done|].
      assert (y = x) as -> by congruence. by rewrite Ha.
    + exists y. cbn. by rewrite list_lookup_insert_ne.
  - intros f' y [[<- [<- _]]|[_ Hy]]%list_lookup_insert_Some; [done|by apply H1].
  - intros. rewrite length_insert. by eapply H2.
Qed.

Lemma kept_new t o es o' size asked :
  os_files o' = os_files (new_file t size asked o) → kept t o es o' es.
Proof. intros E. split; [|done|done]. intros f x Hx. exists x. split; [|done]. rewrite E. by apply lookup_app_l_Some. Qed.

Lemma globals_new t o es o' size asked :
  globals o es → os_files o' = os_files (new_file t size asked o) → size = 0 ∨ size = asked →
  os_name o' = os_name o ∨ os_name o' = Some (length (os_files o)) ∧ 1 < asked → globals o' es.
Proof.
  intros [H0 H1 H2 H3] E Hs En. split; [| | |done]; rewrite ?E; cbn.
  - intros f Hf. unfold findable. rewrite E. cbn. destruct En as [En|[En Hl]]; rewrite En in Hf.
    + destruct (H0 f Hf) as (x & Hx & ?). exists x. split; [by apply lookup_app_l_Some|done].
    + injection Hf as <-. eexists. by rewrite list_lookup_middle.
  - intros f x [Hx|[_ Hx]]%lookup_app_Some; [by apply H1|].
    apply list_lookup_singleton_Some in Hx as [_ <-]. split; [cbn; tauto|]. split; [done|]. cbn.
    intros [?|[? ?]]; [done|]. destruct Hs; lia.
  - intros e f He Heq. rewrite length_app. cbn. pose proof (H2 e f He Heq). lia.
Qed.

Lemma fresh_new o es : globals o es → fresh (length (os_files o)) es.
Proof. intros H e Ho He. pose proof (gl_new _ _ H _ _ He Ho). lia. Qed.

Lemma file_lookup f o x : os_files o !! f = Some x → file f o = x.
Proof. intros E. unfold file. by rewrite E. Qed.

Lemma checked_size size : check_offset_t_size FileBased size = true → FileBased = true →
  0 <= to_offset_t size → to_offset_t size = size.
Proof.
  unfold check_offset_t_size. intros H -> Hs%Z.leb_le. apply Z.eqb_eq in H. apply Z.leb_le in Hs.
  rewrite <- H at 2. symmetry. apply u64_small. unfold in_u64, to_offset_t, u64 in *.
  pose proof (Z.mod_pos_bound (size + 9223372036854775808) 18446744073709551616). lia.
Qed.

Lemma offset_pos : 1 < offset <= u64_max.
Proof.
  unfold ct_rounded_size in Hoff. set (a := RequiredAlignment MemAlignment) in *.
  destruct (Z.eqb_spec a 0); [done|]. change (4 -! 1) with 3 in Hoff.
  assert (0 <= 3 / a <= 3) as Hq by (split; [apply Z.div_pos; lia|apply Z.div_le_upper_bound; nia]).
  rewrite (u64_small (3 / a + 1)) in Hoff by (unfold in_u64; lia).
  destruct (Z.leb_spec (3 / a + 1) (u64_max / a)) as [Hle|]; [|done]. injection Hoff as <-.
  assert ((3 / a + 1) * a <= u64_max) as Hm.
  { pose proof (Z.mul_div_le u64_max a ltac:(lia)). nia. }
  pose proof (Z.mod_pos_bound 3 a ltac:(lia)). pose proof (Z.div_mod 3 a ltac:(lia)).
  rewrite u64_small; unfold in_u64, u64_max in *; nia.
Qed.

Lemma checked_large size : size_checked FileBased min_size MemAlignment size = true → 1 < size.
Proof.
  unfold size_checked. pose proof offset_pos as [H1 H2]. intros [H _]%andb_true_iff.
  apply negb_true_iff, orb_false_iff in H as [Ha%Z.ltb_ge Hb%Z.ltb_ge].
  rewrite u64_small in Ha by (unfold in_u64, u64_max in *; lia).
  rewrite u64_small in Hb by (unfold in_u64, u64_max in *; lia). lia.
Qed.

(** The result of a step. *)
Definition step_ok t o es (res : mo_res) : Prop :=
  let '(pc', o', ev) := res in
  kept t o es o' (es ++ ev) ∧ pc_ok t pc' o' (es ++ ev) ∧ globals o' (es ++ ev).

Lemma step_ok_event t o es pc e :
  globals o es → about t o e → ev_ok es e → pc_ok t pc o (es ++ [e]) → step_ok t o es (pc, o, [e]).
Proof. intros Hg He Hok Hpc. split_and!; [by apply kept_event|done|by eapply (globals_event t)]. Qed.

Lemma about_mine t r f o P e : mine t r f o P → (∀ f', own_event f' e → f' = f) → about t o e.
Proof. intros (x & Hx & Hc & _) He f' ->%He. by exists x. Qed.

(** The creator's code throws. *)
Lemma step_ok_threw t o es pc r f P :
  globals o es → mine t r f o P → running f es → (threw f (es ++ [EThrew f]) → pc_ok t pc o (es ++ [EThrew f])) →
  step_ok t o es (pc, o, [EThrew f]).
Proof.
  intros Hg Hm [H1 H2] Hpc. apply step_ok_event; [done| |done|].
  - eapply about_mine; [exact Hm|]. by intros f' ->.
  - apply Hpc. split; [set_solver|]. intros sz. specialize (H2 sz). set_solver.
Qed.

Lemma fresh_running f es : fresh f es → running f es.
Proof. intros H. split; [by apply H|]. intros sz. by apply H. Qed.

Lemma step_ok_pc t o es pc : globals o es → pc_ok t pc o es → step_ok t o es (pc, o, []).
Proof. intros Hg Hpc. cbn. rewrite app_nil_r. split_and!; [by apply kept_same|done|done]. Qed.

(** *** Every step *)

Lemma mo_call_ok t r o es : globals o es → step_ok t o es (mo_call FileBased min_size MemAlignment r o).
Proof.
  intros Hg. unfold mo_call. pose proof (checked_large (r_size r)) as Hl.
  assert (size_checked FileBased min_size MemAlignment (r_size r) = true → check_offset_t_size FileBased (r_size r) = true) as Hc
    by (intros [_ ?]%andb_true_iff; done).
  destruct (r_type r) as [[]|] eqn:E; [destruct (size_checked _ _ _ _)| |destruct (size_checked _ _ _ _)|];
    apply step_ok_pc; cbn; rewrite ?E; unfold MaxCreateOrOpenTries; try done; repeat split; auto; done.
Qed.

Lemma create_device_ok t r tries ok o es :
  globals o es → pc_ok t (MCreate r tries) o es → step_ok t o es (create_device FileBased t r tries ok o).
Proof.
  intros Hg (Hc & Hl & Hn & Hr). unfold create_device. destruct ok; cbn [negb]; [|by apply step_ok_pc].
  destruct (os_name o) as [f|].
  - destruct tries as [n|]; [|by apply step_ok_pc].
    destruct (Z.eqb_spec (n + 1) MaxCreateOrOpenTries); apply step_ok_pc; cbn in *; try done.
    split_and!; [done|congruence|lia|lia].
  - cbv zeta. unfold step_ok. rewrite app_nil_r. split_and!.
    + by eapply kept_new.
    + cbn. split_and!; [|by apply fresh_new|done]. unfold mine. cbn. eexists. by rewrite list_lookup_middle.
    + eapply globals_new; [exact Hg|done|destruct FileBased; auto|by right].
Qed.

Lemma open_device_ok t r tries ok o es :
  globals o es → pc_ok t (MOpenDev r tries) o es → step_ok t o es (open_device r tries ok o).
Proof.
  intros Hg (Hc & Hn & Hr). unfold open_device. destruct ok; cbn [negb]; [|by apply step_ok_pc].
  pose proof (gl_name _ _ Hg) as Hname.
  destruct (os_name o) as [f|], tries as [n|]; apply step_ok_pc; cbn; auto.
  assert (r_type r ≠ Some DoOpen) as Hd by (intros E; by specialize (Hn E)). destruct (Hc Hd). auto.
Qed.

Lemma map_fits m f ok o es g :
  globals o es → findable f o → map_file m f ok o = Some g → g_file g = f ∧ fits f (g_size g) o.
Proof.
  intros Hg (x & Hx & Hl). unfold map_file. rewrite (file_lookup _ _ _ Hx). destruct (negb ok), (Z.eqb_spec (f_size x) 0); try done.
  intros [= <-]. cbn. split; [done|]. exists x. split_and!; [done|done|].
  destruct (gl_file _ _ Hg f x Hx) as [[?|[?|?]] _]; [done|by right|by left].
Qed.

(** A region that fits a ready file has the creator's size. *)
Lemma fits_ready f size o es x :
  globals o es → fits f size o → os_files o !! f = Some x → f_word x = InitializedSegment → size = f_asked x.
Proof.
  intros Hg (y & Hy & Hl & Hs) Hx Hw. assert (y = x) as -> by congruence.
  destruct (gl_file _ _ Hg f x Hx) as (_ & H & _). destruct (H Hw) as [E _]. destruct Hs as [|?]; [done|lia].
Qed.

Lemma open_path_ok t pc ok o es res :
  globals o es → pc_ok t pc o es → do_map_after_open FileBased MemAlignment pc ok o = Some res → step_ok t o es res.
Proof.
  intros Hg Hpc H. destruct pc; try discriminate H; cbn in H; injection H as <-; cbn in Hpc.
  - (* start *) apply step_ok_pc; [done|]. by destruct FileBased.
  - (* size *) apply step_ok_pc; [done|]. repeat case_match; done.
  - (* map *) apply step_ok_pc; [done|]. destruct (map_file _ _ _ _) as [g|] eqn:E; [|done]. cbn.
    by destruct (map_fits _ _ _ _ _ _ Hg Hpc E) as [-> ?].
  - (* read *) apply step_ok_pc; [done|]. pose proof Hpc as (x & Hx & _). rewrite (file_lookup _ _ _ Hx).
    destruct (Z.eqb_spec (f_word x) InitializedSegment) as [Ew|]; [|done]. cbn. exists x. split_and!; [done|done|].
    by eapply fits_ready.
  - (* wait *) apply step_ok_pc; [done|]. pose proof Hpc as (x & Hx & Hl & _). rewrite (file_lookup _ _ _ Hx).
    destruct (Z.eqb_spec (f_word x) InitializedSegment) as [Ew|]; [by exists x|]. repeat case_match; done.
  - (* remap *) apply step_ok_pc; [done|]. destruct Hpc as (x & Hx & Hw & Hl).
    destruct (map_file _ _ _ _) as [g'|] eqn:E; [|done]. cbn.
    destruct (map_fits _ _ _ _ _ _ Hg (ex_intro _ x (conj Hx Hl)) E) as [E' Hf]. rewrite E'. exists x. split_and!; [done|done|].
    by eapply fits_ready.
  - (* attach *) destruct Hpc as (x & Hx & Hw & Es). destruct (gl_file _ _ Hg _ x Hx) as (_ & Hb & _). destruct (Hb Hw) as [_ Hb'].
    apply step_ok_event; [done|by intros ? ?| |].
    + cbn. unfold get_user_size. by rewrite Es.
    + destruct ok; [|done]. by exists x.
Qed.

(** The creator's changes of its file. *)
Lemma own_step t o es r f x x' pc' :
  globals o es → os_files o !! f = Some x → f_creator x = t → f_asked x = r_size r →
  f_creator x' = t → f_asked x' = f_asked x → f_word x ≠ InitializedSegment →
  (f_size x = 1 → f_asked x ≠ 1 → f_size x' = 1) → file_ok f x' es →
  (∀ P, P (f_size x') (f_word x') → mine t r f (set_file f x' o) P) ∧
  (pc_ok t pc' (set_file f x' o) es → step_ok t o es (pc', set_file f x' o, [])).
Proof.
  intros Hg Hx Hc Ha Hc' Ha' Hw Hs Hok. split.
  - intros P HP. exists x'. cbn. rewrite list_lookup_insert_eq by (by eapply lookup_lt_Some). split_and!; try done; congruence.
  - intros Hpc. unfold step_ok. rewrite app_nil_r. split_and!; [by eapply kept_own|done|by eapply globals_own].
Qed.

Lemma truncate_word n x : f_word x = UninitializedSegment ∨ f_word x = CorruptedSegment → 1 <= n →
  f_word (truncate n x) = f_word x.
Proof.
  intros Hw Hn. cbn. destruct (Z.ltb_spec n 4); [|done]. assert (n = 1 ∨ n = 2 ∨ n = 3) as Hn' by lia.
  destruct Hw as [-> | ->], Hn' as [-> | [-> | ->]]; done.
Qed.

Lemma truncate_ok t r f ok o es res :
  globals o es → pc_ok t (MTruncate r f) o es →
  do_map_after_create FileBased MemAlignment t (MTruncate r f) ok o = Some res → step_ok t o es res.
Proof.
  intros Hg ((x & Hx & Hc & Ha & Hw & Hs) & Hf & Hck) H. cbn in H. rewrite (file_lookup _ _ _ Hx) in H.
  destruct FileBased eqn:EF; cbn in H.
  - destruct (negb ok || (to_offset_t (r_size r) <? 0)) eqn:E; injection H as <-.
    { eapply (step_ok_threw _ _ _ _ r f (λ _ w, w = UninitializedSegment)); [done|by exists x|by apply fresh_running|].
      cbn. split; [exists x; eauto|done]. }
    apply orb_false_iff in E as [_ E%Z.ltb_ge]. pose proof (checked_size (r_size r)) as Et. rewrite EF in Et.
    rewrite (Et Hck eq_refl E) in *. set (x' := truncate (r_size r) x).
    assert (f_word x' = UninitializedSegment) as Ew.
    { cbn. rewrite Hw. destruct (r_size r <? 4); [apply Zmod_0_l|done]. }
    destruct (own_step t o es r f x x' (MMapNew r f)) as [Hm Hst]; try done; try lia.
    { by rewrite Hw. } { split; [right; right; by cbn|]. rewrite Ew. split; [done|]. cbn. intros [?|[? ?]]; [done|lia]. }
    apply Hst. cbn. split; [|done]. by apply Hm.
  - injection H as <-. apply step_ok_pc; [done|]. cbn. split; [by exists x|done].
Qed.

Lemma words_ok t o es r g x w pc' :
  globals o es → os_files o !! g_file g = Some x → f_creator x = t → f_asked x = r_size r → f_size x = r_size r →
  f_word x ≠ InitializedSegment → (w = InitializedSegment → EBuilt (g_file g) (r_size r -! offset) ∈ es) →
  (w = CorruptedSegment → EThrew (g_file g) ∈ es) →
  (mine t r (g_file g) (set_file (g_file g) (set_word w x) o) (λ size w', w' = w ∧ size = r_size r) →
   pc_ok t pc' (set_file (g_file g) (set_word w x) o) es) →
  step_ok t o es (pc', set_file (g_file g) (set_word w x) o, []).
Proof.
  intros Hg Hx Hc Ha Hs Hw Hb Ht Hpc.
  destruct (own_step t o es r (g_file g) x (set_word w x) pc') as [Hm Hst]; try done.
  - split; [right; right; cbn; congruence|]. cbn. rewrite Ha. split; [auto|]. intros [?|[? ?]]; [auto|congruence].
  - apply Hst, Hpc, Hm. done.
Qed.

Lemma undo_ok t r f e ok o es res :
  globals o es → pc_ok t (MUndo r f e) o es →
  do_map_after_create FileBased MemAlignment t (MUndo r f e) ok o = Some res → step_ok t o es res.
Proof.
  intros Hg ((x & Hx & Hc & Ha & Hw) & Hf & _) H. cbn in H. rewrite (file_lookup _ _ _ Hx) in H. injection H as <-.
  destruct (FileBased && ok); [|by apply step_ok_pc].
  destruct (own_step t o es r f x (truncate 1 x) (MThrown r e)) as [Hm Hst]; try done.
  - destruct Hw as [-> | ->]; done.
  - split; [right; left; done|]. rewrite truncate_word by done. split; [destruct Hw as [-> | ->]; done|]. intros _. apply Hf.
  - by apply Hst.
Qed.

Lemma create_path_ok t pc ok o es res :
  globals o es → pc_ok t pc o es → do_map_after_create FileBased MemAlignment t pc ok o = Some res → step_ok t o es res.
Proof.
  intros Hg Hpc H. destruct pc; try discriminate H; try (by eapply truncate_ok); try (by eapply undo_ok); cbn in H; cbn in Hpc.
  - (* anonymous *) unfold priv_map_anonymous in H. destruct ok; injection H as <-; [|by apply step_ok_pc]. cbn. rewrite app_nil_r. split_and!.
    + by eapply kept_new.
    + unfold mine. cbn. eexists. by rewrite list_lookup_middle.
    + done.
    + by apply fresh_new.
    + eapply globals_new; [exact Hg|done|by right|by left].
  - (* map *) destruct Hpc as [(x & Hx & Hc & Ha & Hw & Hs) Hf].
    destruct (map_file _ _ _ _) as [g|] eqn:E; injection H as <-.
    + apply step_ok_pc; [done|]. cbn. unfold map_file in E. rewrite (file_lookup _ _ _ Hx) in E. case_match; [done|]. injection E as <-. cbn.
      split_and!; [by exists x|done|done].
    + eapply (step_ok_threw _ _ _ _ r f (λ _ w, w = UninitializedSegment)); [done|by exists x|by apply fresh_running|].
      cbn. split; [exists x; eauto|done].
  - (* compare and swap *) destruct Hpc as ((x & Hx & Hc & Ha & Hw & Hs) & Eg & Hf).
    rewrite (file_lookup _ _ _ Hx), Hw in H. cbn in H. injection H as <-.
    eapply words_ok; try done. by rewrite Hw.
  - (* construct *) destruct Hpc as (Hm & Eg & Hf). injection H as <-.
    apply step_ok_event; [done|eapply about_mine; [exact Hm|by intros f' ->]|intros sz; by apply Hf|].
    cbn. split_and!; [done|done|set_solver|].
    split; [|intros sz]; intros [H|H%list_elem_of_singleton]%elem_of_app; try done; by eapply Hf; [|exact H].
  - (* constructing *) destruct Hpc as (Hm & Eg & He & Hr). destruct ok; injection H as <-.
    + apply step_ok_event; [done|eapply about_mine; [exact Hm|by intros f' ->]|by destruct Hr|].
      cbn. split_and!; [done|done|set_solver].
    + eapply step_ok_threw; [done|exact Hm|done|]. cbn. done.
  - (* initialized *) destruct Hpc as ((x & Hx & Hc & Ha & Hw & Hs) & Eg & Hb). injection H as <-.
    rewrite (file_lookup _ _ _ Hx). eapply words_ok; try done; [by rewrite Hw|].
    intros (x' & Hx' & ? & Ha' & Hw' & _). cbn. exists x'. split_and!; [done|done|congruence].
  - (* corrupted *) destruct Hpc as ((x & Hx & Hc & Ha & Hw & Hs) & Ee & Hf). injection H as <-.
    rewrite (file_lookup _ _ _ Hx). eapply words_ok; try done; [by rewrite Hw|intros _; apply Hf|].
    intros (x' & Hx' & ? & Ha' & Hw' & _). destruct (r_type r); [|done]. cbn. split; [|done]. exists x'. split_and!; try done. by right.
Qed.

Lemma mo_next_ok t ch pc o es res :
  globals o es → pc_ok t pc o es → next t ch pc o = Some res → step_ok t o es res.
Proof.
  intros Hg Hpc H. destruct ch as [r|ok|d|].
  - destruct pc; try discriminate H. cbn in H. injection H as <-. by apply mo_call_ok.
  - destruct pc; cbn [mo_next mo_go] in H; try discriminate H; try (by eapply open_path_ok); try (by eapply create_path_ok).
    + injection H as <-. by apply create_device_ok.
    + injection H as <-. by apply open_device_ok.
  - injection H as <-. cbn. rewrite app_nil_r. split_and!; [by apply kept_same|by destruct pc|].
    eapply globals_same; [done|done|by left].
  - injection H as <-. cbn. rewrite app_nil_r. split_and!; [by apply kept_same|by destruct pc|].
    eapply globals_same; [done|done|by right].
Qed.

Lemma mo_step_inv st es t ch st' ev :
  mo_inv (a_shared st) (a_threads st) es → astep next t ch st = Some (st', ev) →
  mo_inv (a_shared st') (a_threads st') (es ++ ev).
Proof.
  destruct st as [o ts]. intros [Hg Hpc] (pc & pc' & o' & Ht & Hn & ->)%astep_inv. cbn in *.
  destruct (mo_next_ok t ch pc o es _ Hg (Hpc t pc Ht) Hn) as (Hk & Hp & Hg'). split; [done|].
  intros t' pc''. intros [[<- [<- _]]|[Hne Ht']]%list_lookup_insert_Some; [done|]. eapply pc_ok_kept; [|exact Hk|by apply Hpc]. done.
Qed.

Lemma mo_start_inv n : mo_inv (a_shared (mo_start n)) (a_threads (mo_start n)) [].
Proof.
  cbn. split.
  - split; cbn; [done|by intros f x ?|by intros ?? ?%not_elem_of_nil|by intros ? ?].
  - intros t pc [-> _]%lookup_replicate. done.
Qed.

Lemma mo_run_inv n sched st ev :
  arun next sched (mo_start n) = Some (st, ev) → mo_inv (a_shared st) (a_threads st) ev.
Proof.
  apply (arun_ind next (λ st es, mo_inv (a_shared st) (a_threads st) es)); [|apply mo_start_inv].
  intros ??????. apply mo_step_inv.
Qed.

(** ** Agreement *)

(** The file a call by name works on. *)
Definition pc_named (pc : mo_pc) : option nat :=
  match pc with
  | MTruncate r f | MMapNew r f | MUndo r f _ | MStart r f | MSize r f _ | MMap r f =>
      if r_type r then Some f else None
  | MCas r g | MConstruct r g | MConstructing r g | MWriteInit r g | MWriteCorrupt r g _ | MRead r g | MWait r g _
  | MRemap r g | MAttach r g | MDone r g => if r_type r then Some (g_file g) else None
  | _ => None
  end.

Lemma map_file_file m f ok o g : map_file m f ok o = Some g → g_file g = f.
Proof. unfold map_file. case_match; [done|]. by intros [= <-]. Qed.

Lemma next_named t ch pc o pc' o' ev f :
  ch ≠ MRemove → (∀ r, pc = MAnonymous r → r_type r = None) → next t ch pc o = Some (pc', o', ev) →
  (os_name o' = os_name o ∨ os_name o = None) ∧
  (pc_named pc' = Some f → pc_named pc = Some f ∨ os_name o' = Some f).
Proof.
  intros Hch Ha H. destruct ch as [r|ok|d|]; [| | |done].
  - destruct pc; try discriminate H. cbn in H. unfold mo_call in H. repeat case_match; simplify_eq/=; auto.
  - destruct pc; try discriminate H; cbn [mo_next mo_go do_map_after_create do_map_after_open] in H;
      unfold create_device, open_device, priv_map_anonymous in H; try rewrite (Ha _ eq_refl); repeat case_match; simplify_eq/=;
      try match goal with E : map_file _ _ _ _ = Some _ |- _ => apply map_file_file in E as Ef; rewrite ?Ef end;
      try rewrite (Ha _ eq_refl); (split; [by auto|intros ?; repeat case_match; simplify_eq; auto]).
  - injection H as <- <- <-. cbn. auto.
Qed.

Lemma named_agree n sched st ev t pc f :
  Forall (λ tc, tc.2 ≠ MRemove) sched → arun next sched (mo_start n) = Some (st, ev) →
  a_threads st !! t = Some pc → pc_named pc = Some f → os_name (a_shared st) = Some f.
Proof.
  intros Hs Hrun. revert t pc f.
  apply (arun_ind_on next (λ ch, ch ≠ MRemove) (λ st es, mo_inv (a_shared st) (a_threads st) es ∧
    ∀ t pc f, a_threads st !! t = Some pc → pc_named pc = Some f → os_name (a_shared st) = Some f)) in Hrun as [_ H]; try done.
  - intros [o ts] es t ch st' ev' Hch [Hinv IH] Hst. split; [by eapply mo_step_inv|].
    apply astep_inv in Hst as (pc & pc' & o' & Ht & Hn & ->). intros t' pc'' f. cbn in *.
    destruct (next_named t ch pc o pc' o' ev' f Hch) as [Hname Hpc]; [|done|].
    { intros r ->. by apply Hinv in Ht. }
    intros [[<- [<- _]]|[Hne Ht']]%list_lookup_insert_Some Hf.
    + destruct (Hpc Hf) as [Hf'|]; [|done]. specialize (IH t pc f Ht Hf'). destruct Hname; congruence.
    + specialize (IH t' pc'' f Ht' Hf). destruct Hname; congruence.
  - split; [apply mo_start_inv|]. cbn. by intros t pc f [-> _]%lookup_replicate.
Qed.

(** ** Progress *)

(** The thread [t] at [pc] opens [f] in [k] steps of its own. *)
Definition opens_in (k : nat) t (pc : mo_pc) o (r : request) f : Prop :=
  ∀ ts, ts !! t = Some pc → ∃ g,
    arun next (replicate k (t, MGo true)) (ASys o ts) =
      Some (ASys o (<[t := MDone r g]> ts), [EAttach f (f_asked (file f o) -! offset)]) ∧ g_file g = f.

Lemma opens_step k t pc pc' o r f :
  mo_go FileBased MemAlignment t pc true o = Some (pc', o, []) → opens_in k t pc' o r f → opens_in (S k) t pc o r f.
Proof.
  intros Hgo H ts Ht. destruct (H (<[t := pc']> ts)) as (g & Hrun & Hg).
  { rewrite list_lookup_insert_eq; [done|]. by eapply lookup_lt_Some. }
  exists g. split; [|done]. cbn [replicate arun]. unfold astep at 1. cbn [a_threads a_shared]. rewrite Ht. cbn [mbind option_bind mo_next].
  rewrite Hgo. cbn [mbind option_bind]. rewrite Hrun. cbn. by rewrite list_insert_insert_eq.
Qed.

Section ready_file.
Context (o : os) (es : list mo_event) (f : nat) (x : mfile).
Context (Hg : globals o es) (Hx : os_files o !! f = Some x) (Hw : f_word x = InitializedSegment).

Lemma ready_size : f_size x = f_asked x.
Proof. destruct (gl_file _ _ Hg f x Hx) as (_ & H & _). by apply H. Qed.

Lemma ready_map m : 1 < f_asked x → map_file m f true o = Some (Region f (f_asked x) m).
Proof.
  intros Hl. unfold map_file. rewrite (file_lookup _ _ _ Hx), ready_size. destruct (Z.eqb_spec (f_asked x) 0); [lia|done].
Qed.

Lemma opens_attach t r g : g_file g = f → g_size g = f_asked x → opens_in 1 t (MAttach r g) o r f.
Proof.
  intros Hf Hs ts Ht. exists g. split; [|done]. cbn. unfold astep. cbn. rewrite Ht. cbn.
  unfold get_user_size. by rewrite Hf, Hs, (file_lookup _ _ _ Hx).
Qed.

Lemma opens_remap t r g : g_file g = f → 1 < f_asked x → opens_in 2 t (MRemap r g) o r f.
Proof.
  intros Hf Hl. eapply opens_step; [|by apply (opens_attach t r (Region f (f_asked x) (open_mode r)))].
  cbn. by rewrite Hf, ready_map.
Qed.

Lemma opens_wait t r g start : g_file g = f → 1 < f_asked x → opens_in 3 t (MWait r g start) o r f.
Proof.
  intros Hf Hl. eapply opens_step; [|by apply (opens_remap t r g)]. cbn. by rewrite Hf, (file_lookup _ _ _ Hx), Hw.
Qed.

Lemma opens_read t r g : g_file g = f → g_size g = f_asked x → opens_in 2 t (MRead r g) o r f.
Proof.
  intros Hf Hs. eapply opens_step; [|by apply (opens_attach t r g)]. cbn. by rewrite Hf, (file_lookup _ _ _ Hx), Hw.
Qed.

Lemma opens_map t r : 1 < f_asked x → opens_in 3 t (MMap r f) o r f.
Proof. intros Hl. eapply opens_step; [|by apply (opens_read t r (Region f (f_asked x) (open_mode r)))]. cbn. by rewrite ready_map. Qed.

Lemma opens_size t r start : 1 < f_asked x → opens_in 4 t (MSize r f start) o r f.
Proof.
  intros Hl. eapply opens_step; [|by apply opens_map]. cbn. rewrite (file_lookup _ _ _ Hx), ready_size. unfold nz.
  destruct (Z.eqb_spec (f_asked x) 0), (Z.eqb_spec (f_asked x) 1); try lia. done.
Qed.

Lemma opens_start t r : 1 < f_asked x → opens_in (if FileBased then 5 else 4) t (MStart r f) o r f.
Proof.
  intros Hl. destruct FileBased eqn:E.
  - eapply opens_step; [|by apply (opens_size t r (os_clock o))]. cbn. by rewrite E.
  - eapply opens_step; [|by apply opens_map]. cbn. by rewrite E.
Qed.
End ready_file.

(** The calls that have found the device, and the steps they still take. *)
Definition opening (pc : mo_pc) : option (request * nat * nat) :=
  match pc with
  | MStart r f => Some (r, f, if FileBased then 5%nat else 4%nat)
  | MSize r f _ => Some (r, f, 4%nat)
  | MMap r f => Some (r, f, 3%nat)
  | MRead r g => Some (r, g_file g, 2%nat)
  | MWait r g _ => Some (r, g_file g, 3%nat)
  | MRemap r g => Some (r, g_file g, 2%nat)
  | MAttach r g => Some (r, g_file g, 1%nat)
  | _ => None
  end.

Lemma opens_ready o es t pc r f k :
  globals o es → pc_ok t pc o es → opening pc = Some (r, f, k) → f_word (file f o) = InitializedSegment →
  opens_in k t pc o r f.
Proof.
  intros Hg Hpc Hop. assert (∀ x, os_files o !! f = Some x → file f o = x) as Hl by (intros; by apply file_lookup).
  destruct pc; try discriminate Hop; injection Hop as <- <- <-; cbn in Hpc.
  all: match type of Hpc with
    | ready _ _ _ => destruct Hpc as (x & Hx & ? & ?); intros _
    | findable _ _ => destruct Hpc as (x & Hx & ?); rewrite (Hl x Hx); intros Hw
    | fits _ _ _ => pose proof Hpc as (x & Hx & ? & _); rewrite (Hl x Hx); intros Hw
    end.
  - by eapply opens_start.
  - by eapply opens_size.
  - by eapply opens_map.
  - eapply opens_read; try done. by eapply fits_ready.
  - by eapply opens_wait.
  - by eapply opens_remap.
  - by eapply opens_attach.
Qed.

(** Why an opener gives up. *)
Definition corrupt_reason (pc : mo_pc) o ev : Prop :=
  match pc with
  | MCreate _ tries => tries = Some (MaxCreateOrOpenTries - 1)
  | MSize _ f start => EThrew f ∈ ev ∨ timed_out start o = true
  | MWait _ g start => EThrew (g_file g) ∈ ev ∨ timed_out start o = true
  | _ => False
  end.

Lemma corrupted_why t pc ok o es r o' ev :
  globals o es → pc_ok t pc o es → mo_go FileBased MemAlignment t pc ok o = Some (MThrown r ECorrupted, o', ev) →
  corrupt_reason pc o es.
Proof.
  intros Hg Hpc H.
  assert (∀ f x, os_files o !! f = Some x → f_word x = CorruptedSegment ∨ f_size x = 1 ∧ f_asked x ≠ 1 → EThrew f ∈ es) as Ht.
  { intros f x Hx. by apply (gl_file _ _ Hg f x Hx). }
  destruct pc; try discriminate H; cbn in H, Hpc |- *; unfold create_device, open_device, priv_map_anonymous in H;
    repeat (case_match; simplify_eq/=; try done); simplify_eq/=.
  all: try (destruct Hpc; naive_solver).
  - match goal with H : (_ =? MaxCreateOrOpenTries) = true |- _ => apply Z.eqb_eq in H end. f_equal. lia.
  - left. destruct Hpc as (x & Hx & Hl). rewrite (file_lookup _ _ _ Hx) in *. eapply Ht; [done|]. right.
    split; [by apply Z.eqb_eq|lia].
  - left. destruct Hpc as (x & Hx & Hl). rewrite (file_lookup _ _ _ Hx) in *. eapply Ht; [done|]. left. by apply Z.eqb_eq.
Qed.

(** C13: processes that concurrently create, open, or open or create a managed
    segment, with names removed, calls failing and time passing at any point.
    Memory is initialised by its creator, once; [construct_func] of every opener
    runs after that has returned, on the same number of bytes; and whoever has
    constructed its object has mapped the whole of an initialised segment.  The
    exclusion of the creators is never broken (the creator never finds the word
    changed).  Unless the name is removed, all calls by name share one file. *)
Theorem managed_open_safe (n : nat) (sched : list (nat * mo_choice)) st ev :
  arun next sched (mo_start n) = Some (st, ev) →
  trace_ok ev ∧
  (∀ t r g, a_threads st !! t = Some (MDone r g) →
     f_word (file (g_file g) (a_shared st)) = InitializedSegment ∧ g_size g = f_size (file (g_file g) (a_shared st)) ∧
     EBuilt (g_file g) (get_user_size MemAlignment g) ∈ ev) ∧
  (∀ t r g e, a_threads st !! t = Some (MWriteCorrupt r g e) → e ≠ ECorrupted) ∧
  (Forall (λ tc, tc.2 ≠ MRemove) sched → ∀ t t' r r' g g',
     a_threads st !! t = Some (MDone r g) → a_threads st !! t' = Some (MDone r' g') →
     is_Some (r_type r) → is_Some (r_type r') → g_file g = g_file g').
Proof.
  intros Hrun. destruct (mo_run_inv n sched st ev Hrun) as [Hg Hpc]. split_and!.
  - by apply Hg.
  - intros t r g Ht. destruct (Hpc t _ Ht) as (x & Hx & Hw & Hs). rewrite (file_lookup _ _ _ Hx).
    destruct (gl_file _ _ Hg _ x Hx) as (_ & Hb & _). destruct (Hb Hw) as [E Hb']. unfold get_user_size. rewrite Hs.
    split_and!; congruence || done.
  - intros t r g e Ht. destruct (Hpc t _ Ht) as (_ & -> & _). done.
  - intros Hs t t' r r' g g' Ht Ht' [c Hr] [c' Hr'].
    assert (os_name (a_shared st) = Some (g_file g)) as E by (eapply named_agree; [done|done|exact Ht|cbn; by rewrite Hr]).
    assert (os_name (a_shared st) = Some (g_file g')) as E' by (eapply named_agree; [done|done|exact Ht'|cbn; by rewrite Hr']).
    congruence.
Qed.

(** C14: nobody waits in vain for a managed segment.  In every reachable state,
    once a segment is initialised, whoever has found its device opens it in at most
    five steps of its own unless the operating system or [construct_func] fails.
    Both waits of an opener end: the one for the size of the file when the file has
    a size or the time is over, the one for the first word when it has the mark of a
    failed creation or the time is over; the next step then goes on or throws.  An
    opener reports corruption only if the creator threw, the time was over, or
    creating and opening had failed as often as allowed.  No call that is not
    finished is stuck. *)
Theorem managed_open_progress (n : nat) (sched : list (nat * mo_choice)) st ev :
  arun next sched (mo_start n) = Some (st, ev) →
  let o := a_shared st in
  ∀ t pc, a_threads st !! t = Some pc →
  (∀ r f k, opening pc = Some (r, f, k) → f_word (file f o) = InitializedSegment →
     ∃ g, arun next (replicate k (t, MGo true)) st =
            Some (ASys o (<[t := MDone r g]> (a_threads st)), [EAttach f (f_asked (file f o) -! offset)]) ∧ g_file g = f) ∧
  (∀ r f start ok, pc = MSize r f start → f_size (file f o) ≠ 0 ∨ timed_out start o = true →
     ∃ pc', mo_go FileBased MemAlignment t pc ok o = Some (pc', o, []) ∧
       (pc' = MMap r f ∨ pc' = MThrown r ECorrupted ∨ ok = false ∧ pc' = MThrown r ESystem)) ∧
  (∀ r g start ok, pc = MWait r g start → f_word (file (g_file g) o) = CorruptedSegment ∨ timed_out start o = true →
     ∃ pc', mo_go FileBased MemAlignment t pc ok o = Some (pc', o, []) ∧ (pc' = MRemap r g ∨ pc' = MThrown r ECorrupted)) ∧
  (∀ ok r o' ev', mo_go FileBased MemAlignment t pc ok o = Some (MThrown r ECorrupted, o', ev') → corrupt_reason pc o ev) ∧
  (match pc with MIdle | MDone _ _ | MThrown _ _ => True | _ => is_Some (mo_go FileBased MemAlignment t pc true o) end).
Proof.
  intros Hrun o t pc Ht. destruct (mo_run_inv n sched st ev Hrun) as [Hg Hpc]. specialize (Hpc t pc Ht). split_and!.
  - intros r f k Hop Hw. pose proof (opens_ready _ _ _ _ _ _ _ Hg Hpc Hop Hw (a_threads st) Ht) as H. by destruct st.
  - intros r f start ok -> Hend. cbn. destruct ok; cbn; [|by eexists; split; [|right; right]].
    destruct (nz (f_size (file f o))) eqn:En; [destruct (f_size (file f o) =? 1); eauto|].
    destruct Hend as [Hne|E]; [apply negb_false_iff, Z.eqb_eq in En; done|rewrite E; eauto].
  - intros r g start ok -> Hend. cbn. destruct (Z.eqb_spec (f_word (file (g_file g) o)) InitializedSegment); [eauto|].
    destruct (Z.eqb_spec (f_word (file (g_file g) o)) CorruptedSegment); [eauto|]. destruct Hend as [|E]; [done|]. rewrite E. eauto.
  - intros ok r o' ev'. by apply corrupted_why.
  - destruct pc; try done; cbn; repeat case_match; by eexists.
Qed.

End proofs.

(** Two processes open or create the same segment: the second waits for the first. *)
Definition mo_req : request := Request (Some DoOpenOrCreate) 1024 read_write.
Definition mo_demo : list (nat * mo_choice) :=
  [(0%nat, MCall mo_req); (0%nat, MGo true); (1%nat, MCall mo_req); (1%nat, MGo true); (1%nat, MGo true); (1%nat, MGo true);
   (1%nat, MGo true); (0%nat, MGo true); (1%nat, MGo true); (1%nat, MGo true); (1%nat, MGo true); (1%nat, MTick 10);
   (0%nat, MGo true); (0%nat, MGo true); (0%nat, MGo true); (1%nat, MGo true); (0%nat, MGo true); (0%nat, MGo true)].

Definition mo_demo_os : os := Os (Some 0%nat) [MFile 1024 InitializedSegment 0 1024] 10.
Definition mo_demo_ts : list mo_pc :=
  [MDone mo_req (Region 0 1024 read_write); MWait mo_req (Region 0 1024 read_write) 0].
Lemma mo_demo_run :
  arun (mo_next true 100 0) mo_demo (mo_start 2) =
  Some (ASys mo_demo_os mo_demo_ts, [EConstruct 0 1008; EBuilt 0 1008]).
Proof. vm_compute. reflexivity. Qed.

Lemma managed_open_safe_witness :
  f_word (file 0 mo_demo_os) = InitializedSegment ∧ trace_ok [EConstruct 0 1008; EBuilt 0 1008].
Proof.
  destruct (managed_open_safe true 100 0 ltac:(done) ltac:(done) eq_refl 2 mo_demo _ _ mo_demo_run) as (H1 & H2 & _).
  split; [|exact H1]. by destruct (H2 0%nat mo_req (Region 0 1024 read_write) eq_refl).
Defined.

(** A process opens the segment while its creator has not yet given the file a size,
    and the time runs out. *)
Definition mo_late : list (nat * mo_choice) :=
  [(0%nat, MCall mo_req); (0%nat, MGo true); (1%nat, MCall mo_req); (1%nat, MGo true); (1%nat, MGo true); (1%nat, MGo true);
   (1%nat, MTick 1000000000)].
Definition mo_late_os : os := Os (Some 0%nat) [MFile 0 UninitializedSegment 0 1024] 1000000000.
Definition mo_late_ts : list mo_pc := [MTruncate mo_req 0; MSize mo_req 0 0].
Lemma mo_late_run : arun (mo_next true 100 0) mo_late (mo_start 2) = Some (ASys mo_late_os mo_late_ts, []).
Proof. vm_compute. reflexivity. Qed.

Lemma managed_open_progress_witness :
  (∃ g, arun (mo_next true 100 0) (replicate 3 (1%nat, MGo true)) (ASys mo_demo_os mo_demo_ts) =
    Some (ASys mo_demo_os (<[1%nat := MDone mo_req g]> mo_demo_ts), [EAttach 0 1008]) ∧ g_file g = 0%nat) ∧
  (∃ pc', mo_go true 0 1 (MSize mo_req 0 0) true mo_late_os = Some (pc', mo_late_os, []) ∧
     (pc' = MMap mo_req 0 ∨ pc' = MThrown mo_req ECorrupted ∨ true = false ∧ pc' = MThrown mo_req ESystem)).
Proof.
  split.
  - destruct (managed_open_progress true 100 0 ltac:(done) ltac:(done) eq_refl 2 mo_demo _ _ mo_demo_run
      1 (MWait mo_req (Region 0 1024 read_write) 0) eq_refl) as (H & _).
    exact (H mo_req 0%nat 3%nat eq_refl eq_refl).
  - destruct (managed_open_progress true 100 0 ltac:(done) ltac:(done) eq_refl 2 mo_late _ _ mo_late_run
      1 (MSize mo_req 0 0) eq_refl) as (_ & H & _).
    apply (H mo_req 0%nat 0 true eq_refl). right. reflexivity.
Defined.
