(* ===== verification/Condition8a.v ===== *)
(** The condition variable of Terekhov and Thomas, algorithm 8a.

    Models [condition_algorithm_8a] and [condition_8a_wrapper] of
    sync/detail/condition_algorithm_8a.hpp over any number of threads.  The
    semaphores, the internal mutex and the external lock are their contracts: a
    wait takes from a positive count, a lock is taken if it is free.  A critical
    section under [mtx_unblock_lock] is one step up to where it blocks on
    [sem_block_lock]; [nwaiters_blocked] is incremented without that mutex, and
    the section reads it a second time only while the gate keeps others from
    incrementing it.  [integer_type] is unsigned with 32 bits, as in
    sync/windows/condition.hpp. *)

From S2P Require Import Prelude Atomic.

(** ** State *)

Record cond8 := Cond8 {
  nwaiters_blocked : Z;
  nwaiters_gone : Z;
  nwaiters_to_unblock : Z;
  sem_block_queue : Z;
  sem_block_lock : Z;
  mtx_unblock_lock : bool;
  external_lock : bool
}.

Definition integer_max : Z := 4294967295.

Definition set_counts (b g u : Z) (c : cond8) : cond8 :=
  Cond8 b g u (sem_block_queue c) (sem_block_lock c) (mtx_unblock_lock c) (external_lock c).
Definition set_queue (q : Z) (c : cond8) : cond8 :=
  Cond8 (nwaiters_blocked c) (nwaiters_gone c) (nwaiters_to_unblock c) q (sem_block_lock c) (mtx_unblock_lock c) (external_lock c).
Definition set_gate (l : Z) (c : cond8) : cond8 :=
  Cond8 (nwaiters_blocked c) (nwaiters_gone c) (nwaiters_to_unblock c) (sem_block_queue c) l (mtx_unblock_lock c) (external_lock c).
Definition set_mtx (m : bool) (c : cond8) : cond8 :=
  Cond8 (nwaiters_blocked c) (nwaiters_gone c) (nwaiters_to_unblock c) (sem_block_queue c) (sem_block_lock c) m (external_lock c).
Definition set_ext (x : bool) (c : cond8) : cond8 :=
  Cond8 (nwaiters_blocked c) (nwaiters_gone c) (nwaiters_to_unblock c) (sem_block_queue c) (sem_block_lock c) (mtx_unblock_lock c) x.

(** A wait of a semaphore whose count is [n], a lock of a mutex. *)
Definition sem_wait (n : Z) : option Z := if 0 <? n then Some (n - 1) else None.
Definition take (held : bool) : option () := if held then None else Some ().

(** Where a thread is: outside, without or with the external lock; in [wait],
    with [TimeoutEnabled] and later whether it timed out; in [signal], with
    whether it has the external lock and whether it broadcasts. *)
Inductive c8_pc :=
| CIdle | CHeld
| WGate (timed : bool) | WInc (timed : bool) | WPost (timed : bool) | WUnlock (timed : bool) | WQueue (timed : bool)
| WMtx (out : bool) | WGoneGate (out : bool) | WGoneFix (out : bool)
| WDrain (k : Z) (out : bool) | WOpen (out : bool) | WRelock (out : bool)
| SMtx (held broadcast : bool) | SGate (held broadcast : bool) | SAfter (held broadcast : bool) | SPost (held : bool) (n : Z).

Inductive c8_choice :=
| CLock | CUnlock                       (** the external lock *)
| CWait (timed : bool)                  (** [wait], [timed_wait] *)
| CNotify (broadcast : bool)            (** [notify_one], [notify_all] *)
| CGo                                   (** the next step *)
| CTimeout.                             (** the wait on the queue times out *)

(** A thread starts to wait; a signal wakes [n]; a waiter has left the section
    of [wait]; [wait] without the lock. *)
Inductive c8_event := EBlocked | ESignal (n : Z) | EPassed (out : bool) | ELockException.

#[export] Instance c8_event_eq : EqDecision c8_event.
Proof. solve_decision. Defined.

(** ** [wait] *)

(** The critical section after the wait on the queue. *)
Definition wait_section (out : bool) (c : cond8) : c8_pc * cond8 :=
  let nsignals_was_left := nwaiters_to_unblock c in
  if negb (nsignals_was_left =? 0) then
    let c :=
      if out then
        if negb (nwaiters_blocked c =? 0)
        then set_counts (u32 (nwaiters_blocked c - 1)) (nwaiters_gone c) (nwaiters_to_unblock c) c
        else set_counts (nwaiters_blocked c) (u32 (nwaiters_gone c + 1)) (nwaiters_to_unblock c) c
      else c in
    let c := set_counts (nwaiters_blocked c) (nwaiters_gone c) (u32 (nwaiters_to_unblock c - 1)) c in
    if nwaiters_to_unblock c =? 0 then
      if negb (nwaiters_blocked c =? 0) then
        (* open the gate; nsignals_was_left = 0 *)
        (WRelock out, set_gate (sem_block_lock c + 1) c)
      else
        let nwaiters_was_gone := nwaiters_gone c in
        let c := set_counts (nwaiters_blocked c) 0 (nwaiters_to_unblock c) c in
        if nsignals_was_left =? 1 then
          if negb (nwaiters_was_gone =? 0) then (WDrain nwaiters_was_gone out, c) else (WOpen out, c)
        else (WRelock out, c)
    else if nsignals_was_left =? 1 then (WOpen out, c) else (WRelock out, c)
  else
    let c := set_counts (nwaiters_blocked c) (u32 (nwaiters_gone c + 1)) (nwaiters_to_unblock c) c in
    if integer_max / 2 =? nwaiters_gone c then (WGoneGate out, set_mtx true c) else (WRelock out, c).

Definition wait_step (pc : c8_pc) (c : cond8) : option (c8_pc * cond8 * list c8_event) :=
  match pc with
  | WGate timed => l ← sem_wait (sem_block_lock c); Some (WInc timed, set_gate l c, [])
  | WInc timed =>
      Some (WPost timed, set_counts (u32 (nwaiters_blocked c + 1)) (nwaiters_gone c) (nwaiters_to_unblock c) c, [EBlocked])
  | WPost timed => Some (WUnlock timed, set_gate (sem_block_lock c + 1) c, [])
  | WUnlock timed => Some (WQueue timed, set_ext false c, [])
  | WQueue timed => q ← sem_wait (sem_block_queue c); Some (WMtx false, set_queue q c, [])
  | WMtx out => _ ← take (mtx_unblock_lock c); let '(pc, c) := wait_section out c in Some (pc, c, [EPassed out])
  | WGoneGate out => l ← sem_wait (sem_block_lock c); Some (WGoneFix out, set_gate l c, [])
  | WGoneFix out =>
      Some (WRelock out,
        set_mtx false (set_gate (sem_block_lock c + 1)
          (set_counts (u32 (nwaiters_blocked c - nwaiters_gone c)) 0 (nwaiters_to_unblock c) c)), [])
  | WDrain k out =>
      q ← sem_wait (sem_block_queue c);
      Some (if k - 1 =? 0 then WOpen out else WDrain (k - 1) out, set_queue q c, [])
  | WOpen out => Some (WRelock out, set_gate (sem_block_lock c + 1) c, [])
  | WRelock out => _ ← take (external_lock c); Some (CHeld, set_ext true c, [])
  | _ => None
  end.

(** ** [signal] *)

Definition outside (held : bool) : c8_pc := if held then CHeld else CIdle.

Definition signal_step (pc : c8_pc) (c : cond8) : option (c8_pc * cond8 * list c8_event) :=
  match pc with
  | SMtx held broadcast =>
      _ ← take (mtx_unblock_lock c);
      if negb (nwaiters_to_unblock c =? 0) then
        (* the gate is closed *)
        if nwaiters_blocked c =? 0 then Some (outside held, c, []) else
        if broadcast then
          let nsignals_to_issue := nwaiters_blocked c in
          Some (SPost held nsignals_to_issue,
                set_counts 0 (nwaiters_gone c) (u32 (nwaiters_to_unblock c + nsignals_to_issue)) c, [ESignal nsignals_to_issue])
        else
          Some (SPost held 1,
                set_counts (u32 (nwaiters_blocked c - 1)) (nwaiters_gone c) (u32 (nwaiters_to_unblock c + 1)) c, [ESignal 1])
      else if nwaiters_gone c <? nwaiters_blocked c then Some (SGate held broadcast, set_mtx true c, [])
      else Some (outside held, c, [])
  | SGate held broadcast => l ← sem_wait (sem_block_lock c); Some (SAfter held broadcast, set_gate l c, [])
  | SAfter held broadcast =>
      let c :=
        if negb (nwaiters_gone c =? 0)
        then set_counts (u32 (nwaiters_blocked c - nwaiters_gone c)) 0 (nwaiters_to_unblock c) c else c in
      if broadcast then
        Some (SPost held (nwaiters_blocked c), set_mtx false (set_counts 0 (nwaiters_gone c) (nwaiters_blocked c) c),
              [ESignal (nwaiters_blocked c)])
      else
        Some (SPost held 1, set_mtx false (set_counts (u32 (nwaiters_blocked c - 1)) (nwaiters_gone c) 1 c), [ESignal 1])
  | SPost held n => Some (outside held, set_queue (sem_block_queue c + n) c, [])
  | _ => None
  end.

(** ** Threads *)

Definition c8_next (_ : nat) (ch : c8_choice) (pc : c8_pc) (c : cond8) : option (c8_pc * cond8 * list c8_event) :=
  match ch, pc with
  | CLock, CIdle => _ ← take (external_lock c); Some (CHeld, set_ext true c, [])
  | CUnlock, CHeld => Some (CIdle, set_ext false c, [])
  | CWait timed, CHeld => Some (WGate timed, c, [])
  | CWait timed, CIdle => Some (CIdle, c, [ELockException])
  | CNotify broadcast, CIdle => Some (SMtx false broadcast, c, [])
  | CNotify broadcast, CHeld => Some (SMtx true broadcast, c, [])
  | CTimeout, WQueue true => Some (WMtx true, c, [])
  | CGo, (SMtx _ _ | SGate _ _ | SAfter _ _ | SPost _ _) => signal_step pc c
  | CGo, _ => wait_step pc c
  | _, _ => None
  end.

(** As the constructor leaves it. *)
Definition c8_start (n : nat) : asys cond8 c8_pc := ASys (Cond8 0 0 0 0 1 false false) (replicate n CIdle).
