(* ===== verification/Condition8aProps.v ===== *)
(** Algorithm 8a: the counts are exact as long as no wait times out. *)

From S2P Require Import Prelude Atomic Condition8a.

(** ** The invariant *)

Definition registered (pc : c8_pc) : bool := match pc with WPost _ | WUnlock _ | WQueue _ | WMtx _ => true | _ => false end.
Definition woken (pc : c8_pc) : bool := match pc with WMtx _ => true | _ => false end.
Definition posting (pc : c8_pc) : Z := match pc with SPost _ n => Z.max n 0 | _ => 0 end.
Definition at_gate (pc : c8_pc) : bool :=
  match pc with WInc _ | WPost _ | SAfter _ _ | WOpen _ => true | _ => false end.
Definition in_mtx (pc : c8_pc) : bool := match pc with SGate _ _ | SAfter _ _ => true | _ => false end.
Definition holds (pc : c8_pc) : bool :=
  match pc with
  | CHeld | WGate _ | WInc _ | WPost _ | WUnlock _ => true
  | SMtx held _ | SGate held _ | SAfter held _ | SPost held _ => held
  | _ => false
  end.

(** What cannot happen without time-outs. *)
Definition pc_plain (pc : c8_pc) : Prop :=
  match pc with
  | WGoneGate _ | WGoneFix _ | WDrain _ _ => False
  | WMtx out | WOpen out | WRelock out => out = false
  | SPost _ n => 1 <= n
  | _ => True
  end.

Definition blocked_of (e : c8_event) : Z := match e with EBlocked => 1 | _ => 0 end.
Definition signalled_of (e : c8_event) : Z := match e with ESignal n => n | _ => 0 end.
Definition passed_of (e : c8_event) : Z := match e with EPassed _ => 1 | _ => 0 end.

Record c8_inv (c : cond8) (ts : list c8_pc) (es : list c8_event) : Prop := {
  ci_wait : nwaiters_blocked c + nwaiters_to_unblock c = tcount registered ts;
  ci_token : sem_block_queue c + tsum posting ts + tcount woken ts = nwaiters_to_unblock c;
  ci_gate : sem_block_lock c + tcount at_gate ts + b2z (negb (nwaiters_to_unblock c =? 0)) = 1;
  ci_mtx : tcount in_mtx ts = b2z (mtx_unblock_lock c);
  ci_check : mtx_unblock_lock c = true → nwaiters_to_unblock c = 0 ∧ 0 < nwaiters_blocked c;
  ci_range : nwaiters_gone c = 0 ∧ 0 <= nwaiters_blocked c ∧ 0 <= sem_block_queue c ∧ 0 <= sem_block_lock c;
  ci_ext : tcount holds ts = b2z (external_lock c);
  ci_plain : Forall pc_plain ts;
  ci_blocked : nwaiters_blocked c = tsum blocked_of es - tsum signalled_of es;
  ci_unblock : nwaiters_to_unblock c = tsum signalled_of es - tsum passed_of es;
  ci_out : EPassed true ∉ es
}.

Lemma posting_nonneg pc : 0 <= posting pc.
Proof. destruct pc; cbn; lia. Qed.

(** Closes the arithmetic of a step. *)
Ltac c8_tests := repeat match goal with
  | H : context [u32 ?x] |- _ => rewrite (u32_small x) in H by (unfold in_u32; lia)
  | |- context [u32 ?x] => rewrite (u32_small x) by (unfold in_u32; lia)
  | H : context [Z.eqb ?x ?y] |- _ => destruct (Z.eqb_spec x y); cbn in *; try lia; simplify_eq/=
  | |- context [Z.eqb ?x ?y] => destruct (Z.eqb_spec x y); cbn in *; try lia
  | H : context [Z.ltb ?x ?y] |- _ => destruct (Z.ltb_spec x y); cbn in *; try lia; simplify_eq/=
  end.

(** The section of a waiter that was signalled. *)
Lemma wait_section_plain c :
  nwaiters_gone c = 0 → 0 < nwaiters_to_unblock c < 4294967296 →
  wait_section false c =
    let c' := set_counts (nwaiters_blocked c) 0 (nwaiters_to_unblock c - 1) c in
    if nwaiters_to_unblock c =? 1
    then if nwaiters_blocked c =? 0 then (WOpen false, c') else (WRelock false, set_gate (sem_block_lock c + 1) c')
    else (WRelock false, c').
Proof.
  destruct c as [b g u q l m x]. cbn. intros -> Hu. unfold wait_section. cbn. rewrite u32_small by (unfold in_u32; lia).
  destruct (Z.eqb_spec u 0), (Z.eqb_spec u 1), (Z.eqb_spec (u - 1) 0), (Z.eqb_spec b 0); cbn; try lia; done.
Qed.

Lemma c8_step_inv c ts es t ch st' ev :
  Z.of_nat (length ts) < 2147483647 → ch ≠ CTimeout → c8_inv c ts es → astep c8_next t ch (ASys c ts) = Some (st', ev) →
  length (a_threads st') = length ts ∧ c8_inv (a_shared st') (a_threads st') (es ++ ev).
Proof.
  intros Hlen Hch H (pc & pc' & c' & Ht & Hn & ->)%astep_inv. cbn [a_shared a_threads]. split; [by rewrite length_insert|].
  pose proof (tcount_length registered ts) as Hreg.
  destruct (tcount_split registered ts t pc pc' Ht) as (r1 & ? & E1 & E1').
  destruct (tcount_split woken ts t pc pc' Ht) as (r2 & ? & E2 & E2').
  destruct (tsum_split posting ts t pc pc' posting_nonneg Ht) as (r3 & ? & E3 & E3').
  destruct (tcount_split at_gate ts t pc pc' Ht) as (r4 & ? & E4 & E4').
  destruct (tcount_split in_mtx ts t pc pc' Ht) as (r5 & ? & E5 & E5').
  destruct (tcount_split holds ts t pc pc' Ht) as (r6 & ? & E6 & E6').
  destruct H as [Hw Htok Hgate Hmtx Hck (Hg & Hb & Hq & Hl) Hext Hpl Hbl Hun Hout].
  pose proof (proj1 (Forall_lookup _ _) Hpl _ _ Ht) as Hpc.
  rewrite E1 in Hw, Hreg. rewrite E2, E3 in Htok. rewrite E4 in Hgate. rewrite E5 in Hmtx. rewrite E6 in Hext.
  clear E1 E2 E3 E4 E5 E6. destruct c as [b g u q l m x]. cbn in Hw, Htok, Hgate, Hmtx, Hck, Hg, Hb, Hq, Hl, Hext, Hbl, Hun. subst g.
  destruct ch; try done; destruct pc; try discriminate Hn; cbn in Hn, Hpc; try done; subst;
    try (rewrite wait_section_plain in Hn by (cbn in *; lia)); unfold sem_wait, take in Hn; cbn in Hn; repeat (case_match; try discriminate Hn; simplify_eq/=).
  all: try (destruct (Hck eq_refl)).
  all: try c8_tests.
  all: split; rewrite ?E1', ?E2', ?E3', ?E4', ?E5', ?E6', ?tsum_app; cbn;
    try match goal with held : bool |- context [outside ?held] => destruct held end; cbn; try done; try lia.
  all: try (apply Forall_insert; [done|cbn; done || lia]).
  all: try (rewrite elem_of_app, ?list_elem_of_singleton, ?elem_of_nil; naive_solver).
  all: try destruct m; try destruct x; cbn in *; c8_tests; try lia.
  all: try (split_and!; lia); try (intros [=]); try (split; lia).
  all: try (apply Forall_insert; [done|cbn; lia]).
Qed.

Lemma c8_run_inv n sched st ev :
  Z.of_nat n < 2147483647 → Forall (λ tc, tc.2 ≠ CTimeout) sched → arun c8_next sched (c8_start n) = Some (st, ev) →
  c8_inv (a_shared st) (a_threads st) ev.
Proof.
  intros Hn Hs Hrun.
  apply (arun_ind_on c8_next (λ ch, ch ≠ CTimeout) (λ st es, length (a_threads st) = n ∧ c8_inv (a_shared st) (a_threads st) es))
    in Hrun as [_ H]; try done.
  - intros [c ts] es t ch st' ev' Hch [Hl Hinv] Hst. cbn in Hl, Hinv.
    destruct (c8_step_inv c ts es t ch st' ev') as [Hl' H']; [lia|done|done|done|]. split; [congruence|done].
  - cbn. split; [apply length_replicate|].
    assert (∀ f : c8_pc → bool, f CIdle = false → tcount f (replicate n CIdle) = 0) as Hc by (intros; by apply tcount_replicate).
    assert (tsum posting (replicate n CIdle) = 0) as Hp.
    { apply tsum_none. by intros t pc [-> _]%lookup_replicate. }
    split; cbn; rewrite ?Hc, ?Hp by done; try done.
    + by apply Forall_replicate.
    + by apply not_elem_of_nil.
Qed.

(** ** Who can move *)

Definition asleep (pc : c8_pc) : bool := match pc with WQueue _ => true | _ => false end.

(** When nobody can move, nobody who was signalled sleeps. *)
Lemma c8_quiescent c ts es :
  c8_inv c ts es → (∀ t pc, ts !! t = Some pc → c8_next t CGo pc c = None) →
  nwaiters_to_unblock c = 0 ∧ sem_block_queue c = 0 ∧ sem_block_lock c = 1 ∧ mtx_unblock_lock c = false ∧
  nwaiters_blocked c = tcount asleep ts.
Proof.
  intros [Hw Htok Hgate Hmtx Hck (Hg & Hb & Hq & Hl) Hext Hpl _ _ _] Hstuck. unfold sem_wait, take in *.
  assert (tcount at_gate ts = 0) as E1.
  { apply tcount_none. intros t pc Ht. specialize (Hstuck t pc Ht). cbn in Hstuck. destruct pc; cbn in *; try done; by repeat case_match. }
  assert (tsum posting ts = 0) as E2.
  { apply tsum_none. intros t pc Ht. specialize (Hstuck t pc Ht). by destruct pc. }
  assert (mtx_unblock_lock c = false) as Em.
  { destruct (mtx_unblock_lock c) eqn:E; [|done]. destruct (Hck eq_refl) as [Eu _]. rewrite Eu in Hgate. cbn in Hgate, Hmtx.
    destruct (tcount_exists in_mtx ts) as (t & pc & Ht & Hf); [lia|]. specialize (Hstuck t pc Ht).
    destruct pc; try discriminate Hf; cbn in Hstuck; [|by repeat case_match]. unfold sem_wait in Hstuck.
    destruct (Z.ltb_spec 0 (sem_block_lock c)); [done|lia]. }
  assert (tcount woken ts = 0) as E3.
  { apply tcount_none. intros t pc Ht. specialize (Hstuck t pc Ht). destruct pc; try done. cbn in Hstuck. unfold take in Hstuck.
    rewrite Em in Hstuck. cbn in Hstuck. by destruct (wait_section out c). }
  assert (tcount registered ts = tcount asleep ts) as E4.
  { apply tcount_ext. intros t pc Ht. destruct pc; try done; try (by specialize (Hstuck t _ Ht)). exfalso.
    pose proof (tcount_pos woken ts t (WMtx out) Ht eq_refl). lia. }
  assert (sem_block_queue c = 0) as Eq.
  { destruct (Z.eq_dec (sem_block_queue c) 0) as [|Hne]; [done|]. destruct (tcount_exists asleep ts) as (t & pc & Ht & Hf); [lia|].
    specialize (Hstuck t pc Ht). destruct pc; try discriminate Hf. cbn in Hstuck. unfold sem_wait in Hstuck.
    destruct (Z.ltb_spec 0 (sem_block_queue c)); [done|lia]. }
  assert (nwaiters_to_unblock c = 0) as Eu by lia. rewrite Eu in *. cbn in Hgate. split_and!; [done|done|lia|done|lia].
Qed.

(** A signal reaches a waiter unless all have been signalled already. *)
Lemma c8_signal_exact c ts es t held broadcast pc pc' c' ev :
  c8_inv c ts es → ts !! t = Some pc → pc = SMtx held broadcast ∨ pc = SAfter held broadcast →
  signal_step pc c = Some (pc', c', ev) →
  (pc' = outside held → nwaiters_blocked c = 0) ∧
  (∀ k, ev = [ESignal k] → k = (if broadcast then nwaiters_blocked c else 1) ∧ 1 <= k <= nwaiters_blocked c).
Proof.
  intros [Hw Htok Hgate Hmtx Hck (Hg & Hb & Hq & Hl) Hext Hpl _ _ _] Ht [-> | ->] H; cbn in H; unfold take in H.
  - rewrite Hg in H. repeat (case_match; simplify_eq/=; btests); (split; [try (by destruct held); lia|intros k ?; simplify_eq; lia]).
  - assert (1 <= tcount in_mtx ts) as Hin by (by eapply tcount_pos). rewrite Hmtx in Hin.
    destruct (mtx_unblock_lock c); [|cbn in Hin; lia]. destruct (Hck eq_refl) as [Eu Hpos]. rewrite Hg in H. cbn in H.
    destruct broadcast; simplify_eq/=; (split; [by destruct held|intros k ?; simplify_eq; lia]).
Qed.

(** ** The theorem *)

(** C31: [condition_algorithm_8a] under any interleaving of waits and signals in
    which no wait times out.  [nwaiters_blocked] is the number of threads that
    wait and have not been signalled, [nwaiters_to_unblock] the number of those
    signalled that have not come through, and nothing is ever counted as gone.
    A signal that returns without effect finds nobody left to signal; otherwise
    [notify_one] signals one waiter and [notify_all] all of them, and exactly as
    many wake-ups are on the way to sleepers.  When no thread can move, nobody
    who was signalled sleeps and the gate is open.  At most one thread has the
    external lock. *)
Theorem condition_8a_exact (n : nat) (sched : list (nat * c8_choice)) st ev :
  Z.of_nat n < 2147483647 → Forall (λ tc, tc.2 ≠ CTimeout) sched → arun c8_next sched (c8_start n) = Some (st, ev) →
  let c := a_shared st in let ts := a_threads st in
  nwaiters_blocked c = tsum blocked_of ev - tsum signalled_of ev ∧
  nwaiters_to_unblock c = tsum signalled_of ev - tsum passed_of ev ∧ nwaiters_gone c = 0 ∧
  tcount registered ts - tcount woken ts = nwaiters_blocked c + (sem_block_queue c + tsum posting ts) ∧
  (∀ t held broadcast pc pc' c' ev', ts !! t = Some pc → pc = SMtx held broadcast ∨ pc = SAfter held broadcast →
     c8_next t CGo pc c = Some (pc', c', ev') →
     (pc' = outside held → nwaiters_blocked c = 0) ∧
     (∀ k, ev' = [ESignal k] → k = (if broadcast then nwaiters_blocked c else 1) ∧ 1 <= k <= nwaiters_blocked c)) ∧
  ((∀ t pc, ts !! t = Some pc → c8_next t CGo pc c = None) →
     nwaiters_to_unblock c = 0 ∧ sem_block_lock c = 1 ∧ nwaiters_blocked c = tcount asleep ts) ∧
  tcount holds ts = b2z (external_lock c).
Proof.
  intros Hn Hs Hrun c ts. pose proof (c8_run_inv n sched st ev Hn Hs Hrun) as H. fold c ts in H. pose proof H as [Hw Htok _ _ _ (Hg & _) Hext _ Hbl Hun _].
  split_and!; try done; try lia.
  - intros t held broadcast pc pc' c' ev' Ht Hpc Hst. eapply (c8_signal_exact c ts ev t held broadcast pc); [done|done|done|].
    by destruct Hpc as [-> | ->].
  - intros Hq. destruct (c8_quiescent c ts ev H Hq) as (? & _ & ? & _ & ?). done.
Qed.

(** Two waiters; the first signal wakes one of them. *)
Definition c8_enter (t : nat) (timed : bool) : list (nat * c8_choice) :=
  [(t, CLock); (t, CWait timed); (t, CGo); (t, CGo); (t, CGo); (t, CGo)].
Definition c8_signal (t : nat) : list (nat * c8_choice) :=
  [(t, CNotify false); (t, CGo); (t, CGo); (t, CGo); (t, CGo)].
Definition c8_demo : list (nat * c8_choice) := c8_enter 0 false ++ c8_enter 1 false ++ c8_signal 2.

Lemma condition_8a_exact_witness :
  ∃ st ev, arun c8_next c8_demo (c8_start 3) = Some (st, ev) ∧
    tcount registered (a_threads st) - tcount woken (a_threads st) =
      nwaiters_blocked (a_shared st) + (sem_block_queue (a_shared st) + tsum posting (a_threads st)).
Proof.
  eexists _, _. split; [vm_compute; reflexivity|].
  apply (condition_8a_exact 3 c8_demo _ [EBlocked; EBlocked; ESignal 1]); [lia| |vm_compute; reflexivity].
  unfold c8_demo, c8_enter, c8_signal. cbn. repeat constructor; discriminate.
Defined.

(** With time-outs a wake-up can get lost.  A waiter times out, a signal for one
    waiter follows, the waiter finds itself signalled and takes one of the two
    others out of [nwaiters_blocked]; the waiter that got the token is then
    counted as gone although it is not counted as blocked any more.  The last
    waiter sleeps on, and [notify_all] does nothing. *)
Definition c8_lost : list (nat * c8_choice) :=
  c8_enter 0 true ++ c8_enter 1 false ++ c8_enter 2 false ++ [(0%nat, CTimeout)] ++ c8_signal 3 ++
  [(0%nat, CGo); (0%nat, CGo); (0%nat, CUnlock); (1%nat, CGo); (1%nat, CGo); (1%nat, CGo); (1%nat, CUnlock);
   (3%nat, CNotify true); (3%nat, CGo)].
Lemma c8_timeout_loses_wakeup :
  ∃ ev, arun c8_next c8_lost (c8_start 4) =
    Some (ASys (Cond8 1 1 0 0 1 false false) [CIdle; CIdle; WQueue false; CIdle], ev) ∧ tsum signalled_of ev = 1.
Proof. eexists. split; [vm_compute; reflexivity|]. reflexivity. Qed.
