(* ===== verification/VectorBuf.v ===== *)
(** The stream buffer over a vector.

    Models [basic_vectorbuf] of streams/vectorstream.hpp.  The get and the put
    area are offsets into the vector's storage, with a mark for null pointers.
    The vector is kept as large as its capacity while the stream writes;
    [mp_high_water] tells how much of it has been written.  The public functions
    [sputc], [sgetc], [sbumpc] and [sputbackc] of [std::basic_streambuf] are the
    standard's.  How much a vector grows when it is full is a parameter.  Only that
    the address of the storage is not null matters, so it is kept when the vector
    grows. *)

From S2P Require Import Prelude.

(** ** Data *)

Record openmode := Mode { m_in : bool; m_out : bool; m_app : bool; m_ate : bool }.

(** An area that begins where the storage begins: whether its pointers are null,
    the next position and the end. *)
Record area := Area { a_null : bool; a_cur : Z; a_end : Z }.
Definition null_area : area := Area true 0 0.

(** A vector of characters and its capacity; where its storage is. *)
Record vec := Vec { v_data : list Z; v_cap : Z; v_addr : Z }.
Definition v_size (v : vec) : Z := Z.of_nat (length (v_data v)).

Record vbuf := VBuf {
  m_mode : openmode;
  m_vect : vec;
  get_area : area;
  put_area : area;
  high_null : bool;      (** [mp_high_water] is null *)
  high_water : Z         (** its offset otherwise *)
}.

Definition set_get (a : area) (b : vbuf) : vbuf :=
  VBuf (m_mode b) (m_vect b) a (put_area b) (high_null b) (high_water b).
Definition set_put (a : area) (b : vbuf) : vbuf :=
  VBuf (m_mode b) (m_vect b) (get_area b) a (high_null b) (high_water b).
Definition set_high (hn : bool) (h : Z) (b : vbuf) : vbuf :=
  VBuf (m_mode b) (m_vect b) (get_area b) (put_area b) hn h.
Definition set_vect (v : vec) (b : vbuf) : vbuf :=
  VBuf (m_mode b) v (get_area b) (put_area b) (high_null b) (high_water b).

(** ** The vector *)

Class VecPolicy := {
  grown : Z → Z;       (** the capacity after a [push_back] at capacity [n] *)
  max_size : Z         (** larger vectors cannot be allocated *)
}.

Section vectorbuf.
Context `{VecPolicy}.

Definition chars (n : Z) : list Z := replicate (Z.to_nat n) 0.
Definition v_resize (n : Z) (v : vec) : vec :=
  Vec (if n <=? v_size v then take (Z.to_nat n) (v_data v) else v_data v ++ chars (n - v_size v))
      (Z.max (v_cap v) n) (v_addr v).
Definition v_push_back (c : Z) (v : vec) : vec :=
  Vec (v_data v ++ [c]) (if v_size v <? v_cap v then v_cap v else grown (v_cap v)) (v_addr v).
Definition v_reserve (n : Z) (v : vec) : vec := Vec (v_data v) (Z.max (v_cap v) n) (v_addr v).
Definition v_get (i : Z) (v : vec) : Z := default 0 (v_data v !! Z.to_nat i).
Definition v_set (i c : Z) (v : vec) : vec := Vec (<[Z.to_nat i := c]> (v_data v)) (v_cap v) (v_addr v).

(** ** Private functions *)

Definition INT_MAX : Z := 2147483647.

(** [pbump] with a [streamoff]; the function of the base class takes an [int]. *)
Definition pbump (delta : Z) (b : vbuf) : vbuf :=
  let a := put_area b in
  let '(cur, delta) :=
    if INT_MAX <? delta
    then (Nat.iter (Z.to_nat (delta / INT_MAX)) (λ p, p + INT_MAX) (a_cur a), delta mod INT_MAX) else (a_cur a, delta) in
  set_put (Area (a_null a) (cur + delta) (a_end a)) b.

Definition initialize_pointers (b : vbuf) : vbuf :=
  let size := v_size (m_vect b) in
  let b :=
    if negb (m_out (m_mode b)) then set_get (if size =? 0 then null_area else Area false 0 size) b else b in
  if m_out (m_mode b) then
    let real_size := v_size (m_vect b) in
    let b := set_vect (v_resize (v_cap (m_vect b)) (m_vect b)) b in
    let size := v_size (m_vect b) in
    let b := if size =? 0 then set_high true 0 b else set_high false real_size b in
    let b :=
      if size =? 0
      then let b := set_put null_area b in if m_in (m_mode b) then set_get null_area b else b
      else let b := set_put (Area false 0 size) b in if m_in (m_mode b) then set_get (Area false 0 real_size) b else b in
    if m_app (m_mode b) || m_ate (m_mode b) then pbump real_size b else b
  else b.

(** The written part may end behind the last mark. *)
Definition update_high (b : vbuf) : vbuf :=
  if high_water b <? a_cur (put_area b) then set_high (a_null (put_area b)) (a_cur (put_area b)) b else b.

(** The readable part may end behind the get area. *)
Definition update_get (b : vbuf) : vbuf :=
  let g := get_area b in
  if a_end g <? high_water b then set_get (Area (a_null g) (a_cur g) (high_water b)) b else b.

(** ** Public functions *)

Definition vectorbuf (mode : openmode) (v : vec) : vbuf :=
  initialize_pointers (VBuf mode v null_area null_area true 0).

(** The vector after the call, the content read off. *)
Definition vector (b : vbuf) : list Z * vbuf :=
  let b :=
    if m_out (m_mode b) then
      let b := update_high b in
      let high_pos := high_water b in
      if high_pos <? v_size (m_vect b) then
        let b := set_vect (v_resize high_pos (m_vect b)) b in
        let old_pos := a_cur (put_area b) in
        pbump old_pos (set_put (Area (a_null (put_area b)) 0 high_pos) b)
      else b
    else b in
  (v_data (m_vect b), b).

(** The vector given back, or [None] if the allocation throws. *)
Definition swap_vector (vect : vec) (b : vbuf) : option (vec * vbuf) :=
  let resized :=
    if m_out (m_mode b) then
      let b := update_high b in
      let high := if high_null b then 0 else v_addr (m_vect b) + high_water b in
      let n := high - (if negb (v_size (m_vect b) =? 0) then v_addr (m_vect b) else 0) in
      if max_size <? n then None else Some (set_vect (v_resize n (m_vect b)) b)
    else Some b in
  b ← resized; Some (m_vect b, initialize_pointers (set_vect vect b)).

Definition reserve (size : Z) (b : vbuf) : vbuf :=
  if m_out (m_mode b) && (v_size (m_vect b) <? size) then
    let write_pos := a_cur (put_area b) in
    let read_pos := a_cur (get_area b) in
    let b := initialize_pointers (set_vect (v_reserve size (m_vect b)) b) in
    let b := pbump write_pos b in
    if m_in (m_mode b) then set_get (Area (a_null (get_area b)) read_pos (a_end (get_area b))) b else b
  else b.

Definition clear (b : vbuf) : vbuf :=
  initialize_pointers (set_vect (v_resize 0 (m_vect b)) b).

(** ** The virtual functions; [None] is end of file *)

Definition underflow (b : vbuf) : option Z * vbuf :=
  if a_null (get_area b) then (None, b) else
  let b := if m_out (m_mode b) then update_get (update_high b) else b in
  let g := get_area b in
  (if a_cur g <? a_end g then Some (v_get (a_cur g) (m_vect b)) else None, b).

Definition gbump (d : Z) (b : vbuf) : vbuf :=
  set_get (Area (a_null (get_area b)) (a_cur (get_area b) + d) (a_end (get_area b))) b.

(** Whether a position was put back. *)
Definition pbackfail (c : option Z) (b : vbuf) : bool * vbuf :=
  let g := get_area b in
  if negb (a_cur g =? 0) then
    match c with
    | Some c =>
        if c =? v_get (a_cur g - 1) (m_vect b) then (true, gbump (-1) b)
        else if m_out (m_mode b) then (true, set_vect (v_set (a_cur g - 1) c (m_vect b)) (gbump (-1) b))
        else (false, b)
    | None => (true, gbump (-1) b)
    end
  else (false, b).

(** Whether the character was written; end of file is not. *)
Definition overflow (c : option Z) (b : vbuf) : bool * vbuf :=
  if m_out (m_mode b) then
    match c with
    | Some c =>
        let new_outpos := a_cur (put_area b) + 1 in
        let hipos := Z.max (high_water b) new_outpos in
        let v := v_push_back c (m_vect b) in
        let v := v_resize (v_cap v) v in
        let b := set_vect v b in
        let b := set_high false hipos (set_put (Area false 0 (v_size v)) b) in
        let b := if m_in (m_mode b) then set_get (Area false (a_cur (get_area b)) hipos) b else b in
        (true, pbump new_outpos b)
    | None => (true, b)
    end
  else (false, b).

Inductive seekdir := beg | cur | end_.

Definition seekoff (off : Z) (dir : seekdir) (sin sout : bool) (b : vbuf) : Z * vbuf :=
  let is_cur := match dir with cur => true | _ => false end in
  if negb sin && negb sout then (-1, b)
  else if (sin && sout) && is_cur then (-1, b)
  else if (sin && (negb (m_in (m_mode b)) || (negb (off =? 0) && a_null (get_area b)))) ||
          (sout && (negb (m_out (m_mode b)) || (negb (off =? 0) && a_null (put_area b)))) then (-1, b)
  else
    let b :=
      if m_out (m_mode b) then
        let b := update_high b in if m_in (m_mode b) then update_get b else b
      else b in
    let limit := if m_out (m_mode b) then high_water b else v_size (m_vect b) in
    let newoff :=
      match dir with
      | beg => 0
      | end_ => limit
      | cur => if sin then a_cur (get_area b) else a_cur (put_area b)
      end + off in
    if (newoff <? 0) || (limit <? newoff) then (-1, b)
    else if m_app (m_mode b) && sout && negb (newoff =? limit) then (-1, b)
    else
      let b := if sin then set_get (Area (a_null (get_area b)) newoff (a_end (get_area b))) b else b in
      let b := if sout then pbump newoff (set_put (Area (a_null (put_area b)) 0 (a_end (put_area b))) b) else b in
      (newoff, b).

Definition seekpos (pos : Z) (sin sout : bool) (b : vbuf) : Z * vbuf := seekoff pos beg sin sout b.

(** ** [std::basic_streambuf] *)

Definition sputc (c : Z) (b : vbuf) : bool * vbuf :=
  let a := put_area b in
  if a_cur a <? a_end a
  then (true, set_put (Area (a_null a) (a_cur a + 1) (a_end a)) (set_vect (v_set (a_cur a) c (m_vect b)) b))
  else overflow (Some c) b.

Definition sgetc (b : vbuf) : option Z * vbuf :=
  let g := get_area b in
  if a_cur g <? a_end g then (Some (v_get (a_cur g) (m_vect b)), b) else underflow b.

Definition sbumpc (b : vbuf) : option Z * vbuf :=
  let '(c, b) := sgetc b in (c, match c with Some _ => gbump 1 b | None => b end).

Definition sputbackc (c : Z) (b : vbuf) : bool * vbuf :=
  let g := get_area b in
  if (0 <? a_cur g) && (c =? v_get (a_cur g - 1) (m_vect b)) then (true, gbump (-1) b) else pbackfail (Some c) b.

Definition sungetc (b : vbuf) : bool * vbuf :=
  if 0 <? a_cur (get_area b) then (true, gbump (-1) b) else pbackfail None b.

End vectorbuf.
