(* ===== verification/VectorBufProps.v ===== *)
(** The stream buffer over a vector is a string with two positions. *)

From S2P Require Import Prelude VectorBuf.

(** ** Specification *)

(** The characters of the stream, where it reads and where it writes. *)
Record sbuf := SBuf { s_content : list Z; s_rpos : Z; s_wpos : Z }.

Definition s_len (s : sbuf) : Z := Z.of_nat (length (s_content s)).
Definition s_at (i : Z) (s : sbuf) : option Z := s_content s !! Z.to_nat i.

Inductive vop :=
| VPutc (c : Z) | VGetc | VBumpc | VPutback (c : Z) | VUnget | VSeek (off : Z) (dir : seekdir) (sin sout : bool)
| VVector | VClear.

Inductive vresult := RChar (c : option Z) | RBool (b : bool) | RPos (p : Z) | RContent (l : list Z) | RUnit.

Definition readable (m : openmode) : bool := m_in m || negb (m_out m).

(** A character is written over an old one or appended. *)
Definition spec_putc (c : Z) (s : sbuf) : sbuf :=
  let l := s_content s in
  SBuf (if s_wpos s <? s_len s then <[Z.to_nat (s_wpos s) := c]> l else l ++ [c]) (s_rpos s) (s_wpos s + 1).

Definition spec_getc (m : openmode) (s : sbuf) : option Z := if readable m then s_at (s_rpos s) s else None.

Definition spec_back (s : sbuf) : sbuf := SBuf (s_content s) (s_rpos s - 1) (s_wpos s).

Definition spec_seek (m : openmode) (off : Z) (dir : seekdir) (sin sout : bool) (s : sbuf) : Z * sbuf :=
  let valid := (sin || sout) && implb sin (m_in m) && implb sout (m_out m) &&
    match dir with cur => negb (sin && sout) | _ => true end in
  let newoff := match dir with beg => 0 | end_ => s_len s | cur => if sin then s_rpos s else s_wpos s end + off in
  if valid && (0 <=? newoff) && (newoff <=? s_len s) && negb (m_app m && sout && negb (newoff =? s_len s))
  then (newoff, SBuf (s_content s) (if sin then newoff else s_rpos s) (if sout then newoff else s_wpos s))
  else (-1, s).

Definition vspec (m : openmode) (op : vop) (s : sbuf) : vresult * sbuf :=
  match op with
  | VPutc c => if m_out m then (RBool true, spec_putc c s) else (RBool false, s)
  | VGetc => (RChar (spec_getc m s), s)
  | VBumpc =>
      (RChar (spec_getc m s), if spec_getc m s then SBuf (s_content s) (s_rpos s + 1) (s_wpos s) else s)
  | VPutback c =>
      if s_rpos s =? 0 then (RBool false, s)
      else if decide (s_at (s_rpos s - 1) s = Some c) then (RBool true, spec_back s)
      else if m_out m
      then (RBool true, SBuf (<[Z.to_nat (s_rpos s - 1) := c]> (s_content s)) (s_rpos s - 1) (s_wpos s))
      else (RBool false, s)
  | VUnget => if s_rpos s =? 0 then (RBool false, s) else (RBool true, spec_back s)
  | VSeek off dir sin sout => let '(p, s) := spec_seek m off dir sin sout s in (RPos p, s)
  | VVector => (RContent (s_content s), s)
  | VClear => (RUnit, SBuf [] 0 0)
  end.

(** Operations one after another, with their results. *)
Fixpoint run_all {O R S : Type} (f : O → S → R * S) (ops : list O) (s : S) : list R * S :=
  match ops with
  | [] => ([], s)
  | op :: ops => let '(r, s) := f op s in let '(rs, s) := run_all f ops s in (r :: rs, s)
  end.

(** Sequences refine a specification if single operations do. *)
Lemma run_all_sim {O R S T : Type} (f : O → S → R * S) (g : O → T → R * T) (inv : S → Prop) (pre : O → Prop) (abs : S → T) ops :
  (∀ op s, pre op → inv s → let '(r, s') := f op s in inv s' ∧ (r, abs s') = g op (abs s)) → Forall pre ops →
  ∀ s, inv s → let '(rs, s') := run_all f ops s in inv s' ∧ (rs, abs s') = run_all g ops (abs s).
Proof.
  intros Hstep. induction 1 as [|op ops Hop Hops IH]; intros s Hs; cbn; [done|].
  pose proof (Hstep op s Hop Hs) as Ho. destruct (f op s) as [r s1]. destruct Ho as (O1 & <-).
  pose proof (IH s1 O1) as Hr. destruct (run_all f ops s1) as [rs s2]. destruct Hr as (R1 & R2). by rewrite <- R2.
Qed.

Section refinement.
Context `{VecPolicy}.
Context (Hgrow : ∀ n, 0 <= n → n < grown n).

Definition vexec (op : vop) (b : vbuf) : vresult * vbuf :=
  match op with
  | VPutc c => let '(r, b) := sputc c b in (RBool r, b)
  | VGetc => let '(r, b) := sgetc b in (RChar r, b)
  | VBumpc => let '(r, b) := sbumpc b in (RChar r, b)
  | VPutback c => let '(r, b) := sputbackc c b in (RBool r, b)
  | VUnget => let '(r, b) := sungetc b in (RBool r, b)
  | VSeek off dir sin sout => let '(p, b) := seekoff off dir sin sout b in (RPos p, b)
  | VVector => let '(l, b) := vector b in (RContent l, b)
  | VClear => (RUnit, clear b)
  end.

(** ** Representation *)

(** How much of the vector is the stream's. *)
Definition used (b : vbuf) : Z :=
  if m_out (m_mode b) then Z.max (high_water b) (a_cur (put_area b)) else v_size (m_vect b).
Definition content (b : vbuf) : list Z := take (Z.to_nat (used b)) (v_data (m_vect b)).
Definition abs (b : vbuf) : sbuf := SBuf (content b) (a_cur (get_area b)) (a_cur (put_area b)).

Record vb_ok (b : vbuf) : Prop := {
  vo_cap : v_size (m_vect b) <= v_cap (m_vect b);
  vo_used : used b <= v_size (m_vect b);
  vo_out : m_out (m_mode b) = true →
    0 <= a_cur (put_area b) <= a_end (put_area b) ∧ a_end (put_area b) = v_size (m_vect b) ∧ 0 <= high_water b ∧
    (a_null (put_area b) = true → v_size (m_vect b) = 0) ∧ (high_null b = true → v_size (m_vect b) = 0);
  vo_ro : m_out (m_mode b) = false → put_area b = null_area;
  vo_get : if readable (m_mode b) then
      0 <= a_cur (get_area b) <= a_end (get_area b) ∧ a_end (get_area b) <= used b ∧
      (a_null (get_area b) = true → v_size (m_vect b) = 0) ∧ (m_out (m_mode b) = false → a_end (get_area b) = used b)
    else get_area b = null_area
}.

Lemma pbump_spec d b : 0 <= d → pbump d b = set_put (Area (a_null (put_area b)) (a_cur (put_area b) + d) (a_end (put_area b))) b.
Proof.
  intros Hd. unfold pbump. destruct (Z.ltb_spec INT_MAX d) as [Hlt|]; [|done]. do 2 f_equal.
  assert (∀ k p, Nat.iter k (λ p, p + INT_MAX) p = p + Z.of_nat k * INT_MAX) as Hit.
  { intros k p. induction k as [|k IH]; [cbn; lia|]. change (Nat.iter (S k) (λ p, p + INT_MAX) p) with (Nat.iter k (λ p, p + INT_MAX) p + INT_MAX).
    rewrite IH. lia. }
  rewrite Hit, Z2Nat.id by (apply Z.div_pos; unfold INT_MAX; lia). pose proof (Z.div_mod d INT_MAX ltac:(done)). lia.
Qed.

(** *** The vector *)

Lemma size_resize n v : 0 <= n → v_size (v_resize n v) = n.
Proof.
  intros Hn. unfold v_size, v_resize, chars. cbn. destruct (Z.leb_spec n (v_size v)) as [Hle|Hgt]; unfold v_size in *.
  - rewrite length_take. lia.
  - rewrite length_app, length_replicate. lia.
Qed.

Lemma take_resize k n v : 0 <= k <= n → k <= v_size v → take (Z.to_nat k) (v_data (v_resize n v)) = take (Z.to_nat k) (v_data v).
Proof.
  intros Hk Hs. unfold v_resize, v_size in *. cbn. destruct (n <=? _).
  - rewrite take_take. f_equal. lia.
  - rewrite take_app_le by lia. done.
Qed.

Lemma size_nonneg v : 0 <= v_size v.
Proof. unfold v_size. lia. Qed.

Lemma len_content b : vb_ok b → s_len (abs b) = used b.
Proof.
  intros Hb. pose proof (vo_used _ Hb) as H1. unfold s_len, abs, content, v_size in *. cbn. rewrite length_take.
  assert (0 <= used b); [|lia]. unfold used in *. destruct (m_out (m_mode b)) eqn:E; [|unfold v_size; lia].
  destruct (vo_out _ Hb E) as (? & ? & ? & _). lia.
Qed.

Lemma content_at b i : vb_ok b → 0 <= i < used b → s_at i (abs b) = Some (v_get i (m_vect b)).
Proof.
  intros Hb Hi. pose proof (vo_used _ Hb) as Hu. unfold s_at, abs, content, v_get, v_size in *. cbn.
  rewrite lookup_take_lt by lia. destruct (lookup_lt_is_Some_2 (v_data (m_vect b)) (Z.to_nat i) ltac:(lia)) as [x Hx]. by rewrite Hx.
Qed.

Lemma content_end b i : vb_ok b → used b <= i → s_at i (abs b) = None.
Proof.
  intros Hb Hi. pose proof (len_content b Hb) as Hl. unfold s_at, s_len in *. apply lookup_ge_None. lia.
Qed.

(** *** Updating the marks keeps the stream *)

Lemma update_high_ok b : vb_ok b → m_out (m_mode b) = true →
  vb_ok (update_high b) ∧ abs (update_high b) = abs b ∧ high_water (update_high b) = used b ∧ used (update_high b) = used b.
Proof.
  intros Hb Eo. destruct (vo_out _ Hb Eo) as (H1 & H2 & H3 & H4 & H5). unfold update_high.
  destruct (Z.ltb_spec (high_water b) (a_cur (put_area b))) as [Hlt|Hge].
  - assert (used (set_high (a_null (put_area b)) (a_cur (put_area b)) b) = used b) as Eu by (unfold used; cbn; rewrite Eo; lia).
    split_and!; [|unfold abs, content; by rewrite Eu|unfold used; rewrite Eo; cbn; lia|done].
    destruct Hb as [B1 B2 B3 B4 B5]. split; rewrite ?Eu; cbn; try done.
    intros _. split_and!; try done; lia.
  - split_and!; [done|done|unfold used; rewrite Eo; lia|done].
Qed.

Lemma update_get_ok b : vb_ok b → m_out (m_mode b) = true → m_in (m_mode b) = true → high_water b = used b →
  vb_ok (update_get b) ∧ abs (update_get b) = abs b ∧ a_end (get_area (update_get b)) = used b ∧ used (update_get b) = used b ∧
  high_water (update_get b) = used b.
Proof.
  intros Hb Eo Ei Eh. pose proof (vo_get _ Hb) as Hg. unfold readable in Hg. rewrite Ei in Hg. cbn in Hg.
  destruct Hg as (G1 & G2 & G3 & G4). unfold update_get. destruct (Z.ltb_spec (a_end (get_area b)) (high_water b)) as [Hlt|Hge].
  - split_and!; [|done|done|done|done]. destruct Hb as [B1 B2 B3 B4 B5].
    split; try done. unfold used in *; unfold readable; cbn; rewrite Eo, Ei in *; cbn. split_and!; try lia; try done.
  - split_and!; [done|done|lia|done|done].
Qed.

(** *** Reading *)

Lemma get_null b : vb_ok b → readable (m_mode b) = false → get_area b = null_area.
Proof. intros Hb E. pose proof (vo_get _ Hb) as Hg. by rewrite E in Hg. Qed.

(** The get area after an update reaches to the end of the stream. *)
Lemma refreshed_ok b : vb_ok b → readable (m_mode b) = true →
  let b' := if m_out (m_mode b) then update_get (update_high b) else b in
  vb_ok b' ∧ abs b' = abs b ∧ m_mode b' = m_mode b ∧ m_vect b' = m_vect b ∧ a_cur (get_area b') = a_cur (get_area b) ∧
  a_end (get_area b') = used b ∧ used b' = used b.
Proof.
  intros Hb Er. cbv zeta. destruct (m_out (m_mode b)) eqn:Eo.
  - assert (m_in (m_mode b) = true) as Ei by (unfold readable in Er; rewrite Eo in Er; by destruct (m_in (m_mode b))).
    destruct (update_high_ok b Hb Eo) as (H1 & H2 & H3 & H4).
    assert (m_mode (update_high b) = m_mode b ∧ m_vect (update_high b) = m_vect b ∧ get_area (update_high b) = get_area b) as (M1 & M2 & M3)
      by (unfold update_high; by case_match).
    destruct (update_get_ok (update_high b)) as (U1 & U2 & U3 & U4 & U5); [done|by rewrite M1|by rewrite M1|congruence|].
    assert (m_mode (update_get (update_high b)) = m_mode b ∧ m_vect (update_get (update_high b)) = m_vect b ∧
      a_cur (get_area (update_get (update_high b))) = a_cur (get_area b)) as (N1 & N2 & N3)
      by (rewrite <- M1, <- M2, <- M3; unfold update_get; by case_match).
    split_and!; congruence || done.
  - pose proof (vo_get _ Hb) as Hg. rewrite Er in Hg. destruct Hg as (_ & _ & _ & G). by rewrite G.
Qed.

Lemma sgetc_ok b : vb_ok b →
  let '(r, b') := sgetc b in
  vb_ok b' ∧ abs b' = abs b ∧ m_mode b' = m_mode b ∧ r = spec_getc (m_mode b) (abs b) ∧
  (is_Some r → a_cur (get_area b') < a_end (get_area b') ∧ readable (m_mode b) = true).
Proof.
  intros Hb. unfold sgetc, spec_getc. destruct (readable (m_mode b)) eqn:Er.
  - pose proof (vo_get _ Hb) as Hg. rewrite Er in Hg. destruct Hg as (G1 & G2 & G3 & G4).
    destruct (Z.ltb_spec (a_cur (get_area b)) (a_end (get_area b))) as [Hlt|Hge].
    { split_and!; try done. symmetry. apply content_at; [done|lia]. }
    unfold underflow. destruct (a_null (get_area b)) eqn:En.
    { split_and!; try done; try (by intros [? ?]). symmetry. apply content_end; [done|]. pose proof (vo_used _ Hb). cbn. specialize (G3 eq_refl). lia. }
    destruct (refreshed_ok b Hb Er) as (R1 & R2 & R3 & R4 & R5 & R6 & R7). cbv zeta in R1, R2, R3, R4, R5, R6, R7.
    set (b' := if m_out (m_mode b) then _ else b) in *. rewrite R4, R5, R6. split_and!; try done.
    + destruct (Z.ltb_spec (a_cur (get_area b)) (used b)); symmetry; [apply content_at|apply content_end]; done || (cbn; lia).
    + destruct (Z.ltb_spec (a_cur (get_area b)) (used b)); [done|by intros [? ?]].
  - rewrite (get_null b Hb Er). cbn. unfold underflow. rewrite (get_null b Hb Er). cbn.
    split_and!; try done; by intros [? ?].
Qed.

(** Moving the reading position. *)
Lemma move_get b x : vb_ok b → readable (m_mode b) = true → 0 <= x <= a_end (get_area b) →
  let b' := set_get (Area (a_null (get_area b)) x (a_end (get_area b))) b in
  vb_ok b' ∧ abs b' = SBuf (content b) x (a_cur (put_area b)).
Proof.
  intros Hb Er Hx. cbv zeta. split; [|done]. destruct Hb as [B1 B2 B3 B4 B5]. split; try done. rewrite Er in *. cbn in *. rewrite Er.
  destruct B5 as (G1 & G2 & G3 & G4). split_and!; done || lia.
Qed.

Lemma sbumpc_ok b : vb_ok b →
  let '(r, b') := sbumpc b in
  vb_ok b' ∧ m_mode b' = m_mode b ∧ (RChar r, abs b') = vspec (m_mode b) VBumpc (abs b).
Proof.
  intros Hb. unfold sbumpc. pose proof (sgetc_ok b Hb) as Hs. destruct (sgetc b) as [r b'].
  destruct Hs as (H1 & H2 & H3 & -> & H5). cbn. rewrite <- H2.
  destruct (spec_getc (m_mode b) (abs b')) as [c|] eqn:E; rewrite H2 in E; rewrite E in H5; [|by split_and!].
  destruct (H5 (ex_intro _ c eq_refl)) as [Hlt Er].
  assert (0 <= a_cur (get_area b')) as H0.
  { pose proof (vo_get _ H1) as Hg. rewrite H3, Er in Hg. lia. }
  destruct (move_get b' (a_cur (get_area b') + 1)) as [M1 M2]; [done|by rewrite H3|lia|].
  unfold gbump. split_and!; [done|done|]. rewrite M2. injection H2 as E1 E2 E3. by rewrite E1, E2, E3.
Qed.

(** *** Putting back *)

Lemma back_range b : vb_ok b → a_cur (get_area b) ≠ 0 →
  readable (m_mode b) = true ∧ 0 <= a_cur (get_area b) - 1 < used b ∧ a_cur (get_area b) <= a_end (get_area b).
Proof.
  intros Hb Hne. destruct (readable (m_mode b)) eqn:Er; [|by rewrite (get_null b Hb Er) in Hne].
  pose proof (vo_get _ Hb) as Hg. rewrite Er in Hg. destruct Hg as (G1 & G2 & G3 & G4). split_and!; done || lia.
Qed.

Lemma back_ok b : vb_ok b → a_cur (get_area b) ≠ 0 → vb_ok (gbump (-1) b) ∧ abs (gbump (-1) b) = spec_back (abs b).
Proof.
  intros Hb Hne. destruct (back_range b Hb Hne) as (Er & Hr & He). unfold gbump.
  destruct (move_get b (a_cur (get_area b) + -1)) as [M1 M2]; [done|done|lia|]. split; [done|]. rewrite M2. done.
Qed.

(** Overwriting a character of the stream. *)
Lemma overwrite_ok b i c : vb_ok b → 0 <= i < used b →
  vb_ok (set_vect (v_set i c (m_vect b)) b) ∧
  abs (set_vect (v_set i c (m_vect b)) b) = SBuf (<[Z.to_nat i := c]> (content b)) (a_cur (get_area b)) (a_cur (put_area b)).
Proof.
  intros Hb Hi. assert (v_size (v_set i c (m_vect b)) = v_size (m_vect b)) as Es by (unfold v_size, v_set; cbn; by rewrite length_insert).
  assert (used (set_vect (v_set i c (m_vect b)) b) = used b) as Eu by (unfold used; cbn; by rewrite Es).
  split.
  - destruct Hb as [B1 B2 B3 B4 B5]. split; rewrite ?Eu; cbn; rewrite ?Es; done.
  - unfold abs, content. rewrite Eu. cbn. f_equal. apply take_insert_lt. lia.
Qed.

Lemma sputbackc_ok b c : vb_ok b →
  let '(r, b') := sputbackc c b in
  vb_ok b' ∧ m_mode b' = m_mode b ∧ (RBool r, abs b') = vspec (m_mode b) (VPutback c) (abs b).
Proof.
  intros Hb. unfold sputbackc, pbackfail. cbn [vspec abs s_rpos].
  destruct (Z.eqb_spec (a_cur (get_area b)) 0) as [E|Hne].
  { rewrite E. cbn. by split_and!. }
  destruct (back_range b Hb Hne) as (Er & Hr & He). destruct (back_ok b Hb Hne) as [K1 K2].
  rewrite (content_at b) by done. destruct (Z.ltb_spec 0 (a_cur (get_area b))) as [|]; [|lia]. cbn.
  destruct (Z.eqb_spec c (v_get (a_cur (get_area b) - 1) (m_vect b))) as [Ec|Hc]; cbn.
  { rewrite decide_True by congruence. split_and!; [done|done|]. by rewrite K2. }
  rewrite decide_False by congruence. destruct (m_out (m_mode b)); [|by split_and!].
  destruct (overwrite_ok (gbump (-1) b) (a_cur (get_area b) - 1) c K1) as [O1 O2]; [done|].
  split_and!; [done|done|]. cbn in O2. rewrite O2. done.
Qed.

Lemma sungetc_ok b : vb_ok b →
  let '(r, b') := sungetc b in
  vb_ok b' ∧ m_mode b' = m_mode b ∧ (RBool r, abs b') = vspec (m_mode b) VUnget (abs b).
Proof.
  intros Hb. unfold sungetc, pbackfail. cbn [vspec abs s_rpos].
  destruct (Z.eqb_spec (a_cur (get_area b)) 0) as [E|Hne].
  { rewrite E. cbn. by split_and!. }
  destruct (back_range b Hb Hne) as (Er & Hr & He). destruct (back_ok b Hb Hne) as [K1 K2].
  destruct (Z.ltb_spec 0 (a_cur (get_area b))) as [|]; [|lia]. split_and!; [done|done|]. by rewrite K2.
Qed.

(** *** Writing *)

Lemma take_insert_end (l : list Z) k c : (k < length l)%nat → take (S k) (<[k := c]> l) = take k l ++ [c].
Proof.
  intros Hk. rewrite (take_S_r _ k c) by (by rewrite list_lookup_insert_eq). f_equal. by rewrite take_insert_ge.
Qed.

(** Writing into the put area. *)
Lemma put_ok b c : vb_ok b → m_out (m_mode b) = true → a_cur (put_area b) < a_end (put_area b) →
  let b' := set_put (Area (a_null (put_area b)) (a_cur (put_area b) + 1) (a_end (put_area b)))
    (set_vect (v_set (a_cur (put_area b)) c (m_vect b)) b) in
  vb_ok b' ∧ abs b' = spec_putc c (abs b).
Proof.
  intros Hb Eo Hlt. cbv zeta. pose proof (len_content b Hb) as Hlen. destruct (vo_out _ Hb Eo) as (P1 & P2 & P3 & P4 & P5).
  set (p := a_cur (put_area b)) in *. set (b' := set_put _ _).
  assert (v_size (m_vect b') = v_size (m_vect b)) as Es by (unfold v_size, b'; cbn; by rewrite length_insert).
  assert (used b = Z.max (high_water b) p ∧ used b' = Z.max (high_water b) (p + 1)) as [Eu Eu'] by (unfold used, b'; cbn; by rewrite Eo).
  split.
  - destruct Hb as [B1 B2 B3 B4 B5]. split; rewrite ?Es; cbn; rewrite ?Eo; try done; [lia| |].
    + intros _. split_and!; try done; lia.
    + destruct (readable (m_mode b)); [|done]. destruct B5 as (G1 & G2 & G3 & G4). split_and!; try done; try lia.
  - unfold spec_putc. rewrite Hlen. unfold abs, content. rewrite Eu', Eu. cbn. fold p. f_equal.
    destruct (Z.ltb_spec p (Z.max (high_water b) p)) as [Hin|Hend].
    + rewrite Z.max_l, Z.max_l by lia. apply take_insert_lt. lia.
    + rewrite Z.max_r, Z.max_r by lia. replace (Z.to_nat (p + 1)) with (S (Z.to_nat p)) by lia.
      apply take_insert_end. unfold v_size in *. lia.
Qed.

Lemma grown_vec b c : vb_ok b →
  let v := v_push_back c (m_vect b) in let v' := v_resize (v_cap v) v in
  v_size v' = v_cap v' ∧ v_size (m_vect b) < v_size v' ∧
  take (Z.to_nat (v_size (m_vect b) + 1)) (v_data v') = v_data (m_vect b) ++ [c].
Proof.
  intros Hb. pose proof (vo_cap _ Hb) as Hc. cbv zeta. pose proof (size_nonneg (m_vect b)).
  set (v := v_push_back c (m_vect b)).
  assert (v_size v = v_size (m_vect b) + 1) as Es by (unfold v_size, v; cbn; rewrite length_app; cbn; lia).
  assert (v_size (m_vect b) < v_cap v) as Hcap.
  { unfold v. cbn. destruct (Z.ltb_spec (v_size (m_vect b)) (v_cap (m_vect b))); [done|]. pose proof (Hgrow (v_cap (m_vect b))). lia. }
  rewrite size_resize by lia. split_and!; [cbn; lia|done|].
  rewrite take_resize by lia. apply take_ge. unfold v, v_size in *. cbn. rewrite length_app. cbn. lia.
Qed.

Lemma overflow_ok b c : vb_ok b → m_out (m_mode b) = true → a_cur (put_area b) = a_end (put_area b) →
  let '(r, b') := overflow (Some c) b in
  r = true ∧ vb_ok b' ∧ m_mode b' = m_mode b ∧ abs b' = spec_putc c (abs b).
Proof.
  intros Hb Eo Ee. pose proof (len_content b Hb) as Hlen. pose proof (vo_used _ Hb) as Hu. destruct (vo_out _ Hb Eo) as (P1 & P2 & P3 & P4 & P5).
  assert (used b = v_size (m_vect b)) as Eu by (unfold used in *; rewrite Eo in *; lia).
  assert (content b = v_data (m_vect b)) as Econt.
  { unfold content. rewrite Eu. apply take_ge. unfold v_size. lia. }
  assert (high_water b <= v_size (m_vect b)) as Hh by (unfold used in Eu; rewrite Eo in Eu; lia).
  destruct (grown_vec b c Hb) as (V1 & V2 & V3). unfold overflow. rewrite Eo. cbn zeta.
  set (v' := v_resize _ (v_push_back c (m_vect b))) in *. clearbody v'. rewrite Ee, P2 in *.
  rewrite (Z.max_r (high_water b)) by lia. rewrite pbump_spec by lia.
  set (b1 := if m_in (m_mode _) then _ else _). assert (m_mode b1 = m_mode b) as Em by (unfold b1; by case_match).
  assert (m_vect b1 = v' ∧ put_area b1 = Area false 0 (v_size v') ∧ high_water b1 = v_size (m_vect b) + 1 ∧ high_null b1 = false)
    as (Ev & Ep & Eh & En) by (unfold b1; by case_match).
  assert (if m_in (m_mode b) then get_area b1 = Area false (a_cur (get_area b)) (v_size (m_vect b) + 1) else get_area b1 = get_area b) as Eg
    by (unfold b1; cbn; by destruct (m_in (m_mode b))).
  assert (used (set_put (Area (a_null (put_area b1)) (a_cur (put_area b1) + (v_size (m_vect b) + 1)) (a_end (put_area b1))) b1) =
    v_size (m_vect b) + 1) as Eu' by (unfold used; cbn; rewrite Em, Eo, Ep, Eh; cbn; lia).
  split_and!; [done| |done|].
  - split; rewrite ?Eu'; cbn; rewrite ?Em, ?Ev, ?Ep, ?Eh, ?En, ?Eo; cbn; try done; try lia; try (intros _; split_and!; done || lia).
    pose proof (vo_get _ Hb) as Hg. unfold readable in *. rewrite Eo in *. rewrite orb_false_r in *.
    destruct (m_in (m_mode b)); rewrite Eg; [cbn|by rewrite Hg]. split_and!; done || lia.
  - unfold spec_putc. rewrite Hlen, Eu. unfold abs, content. rewrite Eu'. cbn. rewrite Ev, V3, Ep, Ee. cbn.
    destruct (Z.ltb_spec (v_size (m_vect b)) (v_size (m_vect b))); [lia|]. fold (content b). rewrite Econt. f_equal.
    destruct (m_in (m_mode b)); by rewrite Eg.
Qed.

Lemma sputc_ok b c : vb_ok b →
  let '(r, b') := sputc c b in
  vb_ok b' ∧ m_mode b' = m_mode b ∧ (RBool r, abs b') = vspec (m_mode b) (VPutc c) (abs b).
Proof.
  intros Hb. unfold sputc. cbn [vspec]. destruct (m_out (m_mode b)) eqn:Eo.
  - destruct (Z.ltb_spec (a_cur (put_area b)) (a_end (put_area b))) as [Hlt|Hge].
    + destruct (put_ok b c Hb Eo Hlt) as [K1 K2]. split_and!; [done|done|]. by rewrite K2.
    + destruct (vo_out _ Hb Eo) as (P1 & _). pose proof (overflow_ok b c Hb Eo ltac:(lia)) as Ho.
      destruct (overflow (Some c) b) as [r b']. destruct Ho as (-> & K1 & K2 & K3). split_and!; [done|done|]. by rewrite K3.
  - rewrite (vo_ro _ Hb Eo). cbn. unfold overflow. rewrite Eo. by split_and!.
Qed.

(** *** Seeking *)

(** Moving the writing position within the stream, once it is marked. *)
Lemma move_put b x : vb_ok b → m_out (m_mode b) = true → high_water b = used b → 0 <= x <= used b →
  let b' := set_put (Area (a_null (put_area b)) x (a_end (put_area b))) b in
  vb_ok b' ∧ abs b' = SBuf (content b) (a_cur (get_area b)) x ∧ used b' = used b.
Proof.
  intros Hb Eo Eh Hx. cbv zeta. pose proof (vo_used _ Hb) as Hu. destruct (vo_out _ Hb Eo) as (P1 & P2 & P3 & P4 & P5).
  assert (used (set_put (Area (a_null (put_area b)) x (a_end (put_area b))) b) = used b) as Eu
    by (unfold used in *; cbn; rewrite Eo in *; lia).
  split_and!; [|unfold abs, content; by rewrite Eu|done].
  destruct Hb as [B1 B2 B3 B4 B5]. split; rewrite ?Eu; cbn; rewrite ?Eo; try done; try lia.
  - intros _. split_and!; done || lia.
  - destruct (readable (m_mode b)); [|done]. rewrite Eo in B5. done.
Qed.

(** The stream before a seek: marks and areas are up to date. *)
Definition settled (b : vbuf) : vbuf :=
  if m_out (m_mode b) then let b := update_high b in if m_in (m_mode b) then update_get b else b else b.

Lemma settled_ok b : vb_ok b →
  vb_ok (settled b) ∧ abs (settled b) = abs b ∧ m_mode (settled b) = m_mode b ∧ used (settled b) = used b ∧
  (if m_out (m_mode b) then high_water (settled b) else v_size (m_vect (settled b))) = used b ∧
  (m_in (m_mode b) = true → a_end (get_area (settled b)) = used b).
Proof.
  intros Hb. unfold settled. destruct (m_out (m_mode b)) eqn:Eo.
  - destruct (update_high_ok b Hb Eo) as (H1 & H2 & H3 & H4).
    assert (m_mode (update_high b) = m_mode b) as M1 by (unfold update_high; by case_match).
    cbn zeta. rewrite M1. destruct (m_in (m_mode b)) eqn:Ei; [|split_and!; done || congruence].
    destruct (update_get_ok (update_high b)) as (U1 & U2 & U3 & U4 & U5); [done|by rewrite M1|by rewrite M1|congruence|].
    assert (m_mode (update_get (update_high b)) = m_mode b) as N1 by (rewrite <- M1; unfold update_get; by case_match).
    split_and!; congruence || done.
  - split_and!; try done; [unfold used; by rewrite Eo|]. intros Ei. pose proof (vo_get _ Hb) as Hg.
    unfold readable in Hg. rewrite Ei, Eo in Hg. cbn in Hg. by destruct Hg as (_ & _ & _ & G); apply G.
Qed.

(** The final move of a seek. *)
Lemma seek_move b x sin sout : vb_ok b → 0 <= x <= used b →
  implb sin (m_in (m_mode b)) = true → implb sout (m_out (m_mode b)) = true →
  (sin = true → a_end (get_area b) = used b) → (sout = true → high_water b = used b) →
  let b1 := if sin then set_get (Area (a_null (get_area b)) x (a_end (get_area b))) b else b in
  let b2 := if sout then pbump x (set_put (Area (a_null (put_area b1)) 0 (a_end (put_area b1))) b1) else b1 in
  vb_ok b2 ∧ m_mode b2 = m_mode b ∧
  abs b2 = SBuf (content b) (if sin then x else a_cur (get_area b)) (if sout then x else a_cur (put_area b)).
Proof.
  intros Hb Hx Hi Ho Hg Hh. cbv zeta. set (b1 := if sin then _ else b).
  assert (vb_ok b1 ∧ m_mode b1 = m_mode b ∧ used b1 = used b ∧ high_water b1 = high_water b ∧
    abs b1 = SBuf (content b) (if sin then x else a_cur (get_area b)) (a_cur (put_area b))) as (K1 & K2 & K3 & K4 & K5).
  { unfold b1. destruct sin; [|done]. cbn in Hi. destruct (move_get b x) as [M1 M2]; [done|unfold readable; by rewrite Hi|rewrite Hg by done; lia|].
    split_and!; done. }
  clearbody b1. destruct sout; [|done]. cbn in Ho. rewrite pbump_spec by lia.
  change (set_put ?a (set_put ?a' b1)) with (set_put a b1). cbn [set_put put_area a_null a_cur a_end]. rewrite Z.add_0_l.
  destruct (move_put b1 x) as (M1 & M2 & M3); [done|by rewrite K2|rewrite K4, K3; by apply Hh|lia|].
  split_and!; [done|done|]. rewrite M2. injection K5 as -> -> _. done.
Qed.

(** The seeks that the mode of the stream does not allow. *)
Definition seek_valid (m : openmode) (dir : seekdir) (sin sout : bool) : bool :=
  (sin || sout) && implb sin (m_in m) && implb sout (m_out m) && match dir with cur => negb (sin && sout) | _ => true end.

Lemma seek_invalid b off dir sin sout :
  seek_valid (m_mode b) dir sin sout = false → seekoff off dir sin sout b = (-1, b).
Proof.
  unfold seek_valid, seekoff. destruct (m_mode b) as [i o ? ?]. cbn.
  destruct sin, sout, dir, i, o; cbn; rewrite ?orb_true_r; done.
Qed.

(** The position a seek aims at. *)
Definition seek_target (dir : seekdir) (sin : bool) (len rpos wpos off : Z) : Z :=
  match dir with beg => 0 | end_ => len | cur => if sin then rpos else wpos end + off.

Lemma seek_valid_run b off dir sin sout :
  seek_valid (m_mode b) dir sin sout = true → vb_ok b →
  seekoff off dir sin sout b =
    let b' := settled b in
    let x := seek_target dir sin (used b) (a_cur (get_area b)) (a_cur (put_area b)) off in
    if (sin && (negb (off =? 0) && a_null (get_area b))) || (sout && (negb (off =? 0) && a_null (put_area b))) then (-1, b)
    else if (x <? 0) || (used b <? x) then (-1, b')
    else if m_app (m_mode b) && sout && negb (x =? used b) then (-1, b')
    else
      let b1 := if sin then set_get (Area (a_null (get_area b')) x (a_end (get_area b'))) b' else b' in
      (x, if sout then pbump x (set_put (Area (a_null (put_area b1)) 0 (a_end (put_area b1))) b1) else b1).
Proof.
  intros Hv Hb. destruct (settled_ok b Hb) as (S1 & S2 & S3 & S4 & S5 & S6). injection S2 as C1 C2 C3.
  unfold seekoff, seek_target. fold (settled b). cbv zeta. rewrite S3, S5, C2, C3.
  unfold seek_valid in Hv. destruct (m_mode b) as [i o ? ?]. cbn in *.
  destruct sin, sout, dir, i, o; try discriminate Hv; cbn; done.
Qed.

(** With null pointers there is nothing to seek in. *)
Lemma null_target b dir sin sout off : vb_ok b → seek_valid (m_mode b) dir sin sout = true → off ≠ 0 →
  (sin = true ∧ a_null (get_area b) = true) ∨ (sout = true ∧ a_null (put_area b) = true) →
  let x := seek_target dir sin (used b) (a_cur (get_area b)) (a_cur (put_area b)) off in x < 0 ∨ used b < x.
Proof.
  intros Hb Hv Hoff Hn. cbv zeta. unfold seek_target. pose proof (vo_used _ Hb) as Hu. pose proof (vo_get _ Hb) as Hg. unfold seek_valid, readable in *.
  destruct (m_out (m_mode b)) eqn:Eo, (m_in (m_mode b)) eqn:Ei; cbn in *;
    try (destruct (vo_out _ Hb Eo) as (P1 & P2 & P3 & P4 & P5)); unfold used in *; rewrite Eo in *.
  all: destruct sin, sout, dir; try discriminate Hv; cbn; destruct Hn as [[? Hn]|[? Hn]]; try done.
  all: try specialize (P4 Hn); try (destruct Hg as (G1 & G2 & G3 & G4); try specialize (G3 Hn)); pose proof (size_nonneg (m_vect b)); lia.
Qed.

Lemma seekoff_ok b off dir sin sout : vb_ok b →
  let '(p, b') := seekoff off dir sin sout b in
  vb_ok b' ∧ m_mode b' = m_mode b ∧ (RPos p, abs b') = vspec (m_mode b) (VSeek off dir sin sout) (abs b).
Proof.
  intros Hb. cbn [vspec]. unfold spec_seek. rewrite (len_content b Hb). fold (seek_valid (m_mode b) dir sin sout).
  destruct (seek_valid (m_mode b) dir sin sout) eqn:Hv; [|by rewrite (seek_invalid b off dir sin sout Hv)].
  rewrite (seek_valid_run b off dir sin sout Hv Hb). cbv zeta. cbn [abs s_rpos s_wpos s_content].
  fold (seek_target dir sin (used b) (a_cur (get_area b)) (a_cur (put_area b)) off).
  pose proof (null_target b dir sin sout off Hb Hv) as Hnull. cbv zeta in Hnull.
  set (x := seek_target _ _ _ _ _ _) in *. destruct (settled_ok b Hb) as (S1 & S2 & S3 & S4 & S5 & S6).
  assert (∀ P : bool, (x <? 0) || (used b <? x) = true → true && (0 <=? x) && (x <=? used b) && P = false) as Hout.
  { intros P Ho. destruct (Z.leb_spec 0 x), (Z.leb_spec x (used b)), P; cbn; try done.
    apply orb_true_iff in Ho as [?%Z.ltb_lt|?%Z.ltb_lt]; lia. }
  destruct (sin && (negb (off =? 0) && a_null (get_area b)) || sout && (negb (off =? 0) && a_null (put_area b))) eqn:En.
  { assert (x < 0 ∨ used b < x) as Hx.
    { destruct (Z.eqb_spec off 0); [by destruct sin, sout; cbn in En|]. apply Hnull; [done|].
      destruct sin, sout, (a_null (get_area b)), (a_null (put_area b)); try discriminate En; auto. }
    rewrite Hout by (apply orb_true_iff; rewrite !Z.ltb_lt; tauto). done. }
  clear Hnull En. destruct ((x <? 0) || (used b <? x)) eqn:Ex.
  { rewrite Hout by done. split_and!; [done|done|by rewrite S2]. }
  apply orb_false_iff in Ex as [E1%Z.ltb_ge E2%Z.ltb_ge].
  destruct (Z.leb_spec 0 x), (Z.leb_spec x (used b)); try lia. cbn [andb].
  destruct (m_app (m_mode b) && sout && negb (x =? used b)); cbn [negb].
  { split_and!; [done|done|by rewrite S2]. }
  unfold seek_valid in Hv. rewrite !andb_true_iff in Hv. destruct Hv as [[[_ Hi] Ho] _].
  destruct (seek_move (settled b) x sin sout) as (M1 & M2 & M3); try rewrite S3; try rewrite S4; try done.
  - intros ->. rewrite S6; [done|]. by destruct (m_in (m_mode b)).
  - intros ->. destruct (m_out (m_mode b)); [congruence|done].
  - split_and!; [done|congruence|]. rewrite M3. injection S2 as -> -> ->. done.
Qed.

(** *** Initialisation *)

(** A buffer whose unused area is null, as before [initialize_pointers]. *)
Definition idle_areas (b : vbuf) : Prop :=
  (m_out (m_mode b) = false → put_area b = null_area) ∧ (readable (m_mode b) = false → get_area b = null_area).

Lemma vb_idle b : vb_ok b → idle_areas b.
Proof. intros Hb. split; [by apply vo_ro|by apply get_null]. Qed.

Definition start_pos (m : openmode) (n : Z) : Z := if m_out m && (m_app m || m_ate m) then n else 0.

Lemma initialize_ok b : idle_areas b → v_size (m_vect b) <= v_cap (m_vect b) →
  vb_ok (initialize_pointers b) ∧ m_mode (initialize_pointers b) = m_mode b ∧
  abs (initialize_pointers b) = SBuf (v_data (m_vect b)) 0 (start_pos (m_mode b) (v_size (m_vect b))).
Proof.
  intros [Hput Hget] Hcap. destruct b as [[i o ap at_] v g p hn h]. unfold initialize_pointers, start_pos, readable in *. cbn in *.
  pose proof (size_nonneg v) as Hs0. destruct o; cbn [negb] in *.
  - pose proof (size_resize (v_cap v) v ltac:(lia)) as Es. cbn [m_vect set_vect].
    assert (take (Z.to_nat (v_size v)) (v_data (v_resize (v_cap v) v)) = v_data v) as Ht.
    { rewrite take_resize by lia. apply take_ge. unfold v_size. lia. }
    set (v' := v_resize (v_cap v) v) in *. assert (v_size v' <= v_cap v') as Hc' by (rewrite Es; unfold v'; cbn; lia). clearbody v'.
    rewrite Es in *.
    assert (i = false → g = null_area) as Hg by (intros ->; by apply Hget).
    destruct (Z.eqb_spec (v_cap v) 0) as [E0|Hne]; destruct i, (ap || at_) eqn:Ea; cbn; rewrite ?Ea;
      rewrite ?pbump_spec by done; try specialize (Hg eq_refl); subst; cbn.
    all: split_and!; [split; unfold used, readable; cbn; rewrite ?Es; try done; try lia; try (intros _); try (split_and!; done || lia)|done|].
    all: unfold abs, content, used; cbn; f_equal; rewrite ?Ht; try done; try lia.
    all: rewrite <- Ht; do 2 f_equal; lia.
  - rewrite orb_true_r in Hget. specialize (Hput eq_refl). subst p.
    destruct (Z.eqb_spec (v_size v) 0) as [E0|Hne]; cbn.
    all: split_and!; [split; unfold used, readable; cbn; rewrite ?orb_true_r; try done; try lia; try (split_and!; done || lia)|done|].
    all: unfold abs, content, used; cbn; f_equal; apply take_ge; unfold v_size; lia.
Qed.

#[local] Arguments v_resize : simpl never.

Lemma used_nonneg b : vb_ok b → 0 <= used b.
Proof. intros Hb. rewrite <- (len_content b Hb). unfold s_len. lia. Qed.

(** The vector cut to what the stream uses. *)
Lemma cut_content b : vb_ok b → v_data (v_resize (used b) (m_vect b)) = content b.
Proof.
  intros Hb. pose proof (vo_used _ Hb). pose proof (used_nonneg b Hb). unfold v_resize, content. cbn.
  destruct (Z.leb_spec (used b) (v_size (m_vect b))); [done|lia].
Qed.

Lemma vector_ok b : vb_ok b →
  let '(l, b') := vector b in
  vb_ok b' ∧ m_mode b' = m_mode b ∧ (RContent l, abs b') = vspec (m_mode b) VVector (abs b).
Proof.
  intros Hb. unfold vector. cbn [vspec]. destruct (m_out (m_mode b)) eqn:Eo.
  - destruct (update_high_ok b Hb Eo) as (H1 & H2 & H3 & H4). cbv zeta.
    assert (m_mode (update_high b) = m_mode b) as Em by (unfold update_high; by case_match).
    rewrite <- H2, <- Em. rewrite <- Em in Eo. rewrite <- H4 in H3. clear H2 H4 Em Hb. set (b1 := update_high b) in *. clearbody b1.
    pose proof (vo_used _ H1) as Hu. pose proof (used_nonneg b1 H1). destruct (vo_out _ H1 Eo) as (P1 & P2 & P3 & P4 & P5).
    rewrite H3. destruct (Z.ltb_spec (used b1) (v_size (m_vect b1))) as [Hlt|Hge].
    + rewrite pbump_spec by (cbn; lia). cbn. rewrite cut_content by done. split_and!; [|done|].
      * pose proof (size_resize (used b1) (m_vect b1) ltac:(lia)) as Es.
        assert (∀ p, used (set_put p b1) = Z.max (used b1) (a_cur p)) as Eu by (intros p; unfold used; cbn; rewrite Eo; unfold used in H3; rewrite Eo in H3; lia).
        assert (a_cur (put_area b1) <= used b1) as Hp by (unfold used; rewrite Eo; lia).
        destruct H1 as [B1 B2 B3 B4 B5]. unfold used in *. rewrite Eo in *.
        split; unfold used; cbn; rewrite ?Eo, ?Es; try done; try lia.
        -- unfold v_resize. cbn. lia.
        -- intros _. split_and!; try lia; intros En; [specialize (P4 En)|specialize (P5 En)]; lia.
        -- destruct (readable (m_mode b1)); [|done]. destruct B5 as (G1 & G2 & G3 & G4). split_and!; try done; try lia.
           intros En. specialize (G3 En). lia.
      * f_equal. unfold abs, content, used. cbn. rewrite Eo. f_equal. unfold used in H3. rewrite Eo in H3.
        rewrite <- H3. unfold v_resize. cbn. destruct (Z.leb_spec (high_water b1) (v_size (m_vect b1))); [|unfold used in Hlt; rewrite Eo in Hlt; lia].
        rewrite take_take. f_equal. lia.
    + split_and!; [done|done|]. f_equal. f_equal. unfold content, abs. cbn. symmetry. apply take_ge. unfold v_size in *. lia.
  - split_and!; [done|done|]. f_equal. f_equal. cbn. unfold content, used. rewrite Eo. symmetry. apply take_ge. unfold v_size. lia.
Qed.

Lemma clear_ok b : vb_ok b →
  vb_ok (clear b) ∧ m_mode (clear b) = m_mode b ∧ (RUnit, abs (clear b)) = vspec (m_mode b) VClear (abs b).
Proof.
  intros Hb. pose proof (vo_cap _ Hb). pose proof (size_nonneg (m_vect b)). unfold clear.
  pose proof (size_resize 0 (m_vect b) ltac:(lia)) as Es.
  destruct (initialize_ok (set_vect (v_resize 0 (m_vect b)) b)) as (I1 & I2 & I3); [by apply (vb_idle b)|cbn [m_vect set_vect]; rewrite Es; unfold v_resize; cbn; lia|].
  split_and!; [done|done|]. rewrite I3. cbn [m_vect set_vect m_mode]. rewrite Es. cbn. f_equal. f_equal.
  - unfold v_resize. cbn. by destruct (Z.leb_spec 0 (v_size (m_vect b))); [|lia].
  - unfold start_pos. by case_match.
Qed.

Lemma swap_vector_ok b vect : vb_ok b → v_size vect <= v_cap vect → used b <= max_size →
  (m_out (m_mode b) = true → v_size (m_vect b) = 0 → high_null b = true) →
  ∃ v' b', swap_vector vect b = Some (v', b') ∧ v_data v' = content b ∧ vb_ok b' ∧ m_mode b' = m_mode b ∧
    abs b' = SBuf (v_data vect) 0 (start_pos (m_mode b) (v_size vect)).
Proof.
  intros Hb Hcap Hmax Hnull. unfold swap_vector. destruct (m_out (m_mode b)) eqn:Eo.
  - destruct (update_high_ok b Hb Eo) as (H1 & H2 & H3 & H4). cbv zeta.
    assert (m_mode (update_high b) = m_mode b ∧ m_vect (update_high b) = m_vect b ∧
      (v_size (m_vect b) = 0 → high_null (update_high b) = high_null b)) as (Em & Ev & En).
    { destruct (vo_out _ Hb Eo) as (P1 & P2 & P3 & _). unfold update_high. destruct (Z.ltb_spec (high_water b) (a_cur (put_area b))); [|done].
      split_and!; try done. lia. }
    assert (content (update_high b) = content b) as Ec by (unfold content; by rewrite H4, Ev). pose proof (cut_content _ H1) as Hcut. rewrite H4, Ev in Hcut.
    destruct (vo_out _ H1 ltac:(by rewrite Em)) as (_ & _ & _ & _ & P5). rewrite Ev in *.
    assert ((if high_null (update_high b) then 0 else v_addr (m_vect b) + high_water (update_high b)) -
      (if negb (v_size (m_vect b) =? 0) then v_addr (m_vect b) else 0) = used b) as ->.
    { pose proof (vo_used _ Hb). pose proof (used_nonneg b Hb). destruct (Z.eqb_spec (v_size (m_vect b)) 0) as [E0|Hne]; cbn.
      - rewrite (En E0), (Hnull eq_refl E0). lia.
      - destruct (high_null (update_high b)); [by specialize (P5 eq_refl)|lia]. }
    destruct (Z.ltb_spec max_size (used b)); [lia|]. cbn [mbind option_bind].
    eexists _, _. split; [done|]. cbn [m_vect set_vect]. split; [by rewrite Hcut|].
    destruct (initialize_ok (set_vect vect (set_vect (v_resize (used b) (m_vect b)) (update_high b)))) as (I1 & I2 & I3);
      [by apply (vb_idle (update_high b))|done|]. cbn in I2, I3. rewrite Em in *. by split_and!.
  - cbn [mbind option_bind]. eexists _, _. split; [done|].
    destruct (initialize_ok (set_vect vect b)) as (I1 & I2 & I3); [by apply (vb_idle b)|done|].
    split_and!; [|done|done|done]. unfold content, used. rewrite Eo. symmetry. apply take_ge. unfold v_size. lia.
Qed.

Lemma vexec_ok op b : vb_ok b →
  let '(r, b') := vexec op b in vb_ok b' ∧ m_mode b' = m_mode b ∧ (r, abs b') = vspec (m_mode b) op (abs b).
Proof.
  intros Hb. destruct op; cbn [vexec].
  - pose proof (sputc_ok b c Hb) as K. by destruct (sputc c b).
  - pose proof (sgetc_ok b Hb) as K. destruct (sgetc b). destruct K as (K1 & K2 & K3 & -> & _). by rewrite K2.
  - pose proof (sbumpc_ok b Hb) as K. by destruct (sbumpc b).
  - pose proof (sputbackc_ok b c Hb) as K. by destruct (sputbackc c b).
  - pose proof (sungetc_ok b Hb) as K. by destruct (sungetc b).
  - pose proof (seekoff_ok b off dir sin sout Hb) as K. by destruct (seekoff off dir sin sout b).
  - pose proof (vector_ok b Hb) as K. by destruct (vector b).
  - by apply clear_ok.
Qed.

Lemma vectorbuf_ok mode v : v_size v <= v_cap v →
  vb_ok (vectorbuf mode v) ∧ m_mode (vectorbuf mode v) = mode ∧
  abs (vectorbuf mode v) = SBuf (v_data v) 0 (start_pos mode (v_size v)).
Proof. intros Hv. by apply (initialize_ok (VBuf mode v null_area null_area true 0)). Qed.

(** C34: A stream buffer over a vector behaves, whatever the open mode and however
    the vector grows, as the string it was made from with a read and a write
    position: every sequence of writes, reads, put backs, seeks, [vector] and
    [clear] gives the results and leaves the characters and the positions that the
    string gives, so that [vector] returns what was written and nothing of the spare
    capacity.  [swap_vector] then hands out that content and starts over with the
    given vector, provided that the content fits a vector and that the storage in
    use is not empty or its marks are null (see [swap_after_empty_vector]). *)
Theorem vectorbuf_refines mode v ops (Hv : v_size v <= v_cap v) :
  let '(rs, b) := run_all vexec ops (vectorbuf mode v) in
  (rs, abs b) = run_all (vspec mode) ops (SBuf (v_data v) 0 (start_pos mode (v_size v))) ∧
  ∀ vect, v_size vect <= v_cap vect → used b <= max_size →
    (v_size (m_vect b) = 0 → high_null b = true) →
    ∃ v' b', swap_vector vect b = Some (v', b') ∧ v_data v' = s_content (abs b) ∧ m_mode b' = mode ∧
      abs b' = SBuf (v_data vect) 0 (start_pos mode (v_size vect)).
Proof.
  destruct (vectorbuf_ok mode v Hv) as (I1 & I2 & <-).
  assert (∀ op b, True → vb_ok b ∧ m_mode b = mode →
    let '(r, b') := vexec op b in (vb_ok b' ∧ m_mode b' = mode) ∧ (r, abs b') = vspec mode op (abs b)) as Hstep.
  { intros op b _ [Hb <-]. pose proof (vexec_ok op b Hb) as Ho. destruct (vexec op b). naive_solver. }
  pose proof (run_all_sim _ _ _ _ _ ops Hstep ltac:(by apply Forall_true) _ (conj I1 I2)) as Hr.
  destruct (run_all vexec ops (vectorbuf mode v)) as [rs b]. destruct Hr as ([R1 R2] & R3). split; [done|].
  intros vect H1 H2 H3. destruct (swap_vector_ok b vect R1 H1 H2 ltac:(done)) as (v' & b' & K1 & K2 & K3 & K4 & K5).
  rewrite R2 in *. eauto 10.
Qed.

End refinement.

(** ** Witness, and three operations that break the string *)

#[local] Instance doubling : VecPolicy := { grown n := 2 * n + 1; max_size := 1000 }.

Definition inout : openmode := Mode true true false false.

(** Two characters are written over and three behind the end, the storage grows,
    and the stream reads from the start. *)
Lemma vectorbuf_refines_witness :
  let ops := VPutc 1 :: VPutc 2 :: VPutc 3 :: VPutc 4 :: VPutc 5 :: VGetc :: VBumpc :: VSeek (-1) end_ true false ::
             VPutback 9 :: VGetc :: VVector :: nil in
  let '(rs, b) := run_all vexec ops (vectorbuf inout (Vec [7; 8] 2 64)) in
  (rs, abs b) = run_all (vspec inout) ops (SBuf [7; 8] 0 (start_pos inout 2)) ∧
  ∃ v' b', swap_vector (Vec [6] 1 32) b = Some (v', b') ∧ v_data v' = s_content (abs b) ∧ m_mode b' = inout ∧
    abs b' = SBuf [6] 0 0.
Proof.
  assert (∀ n, 0 <= n → n < grown n) as Hg by (intros n Hn; cbn; lia).
  pose proof (vectorbuf_refines Hg inout (Vec [7; 8] 2 64)
    (VPutc 1 :: VPutc 2 :: VPutc 3 :: VPutc 4 :: VPutc 5 :: VGetc :: VBumpc :: VSeek (-1) end_ true false ::
     VPutback 9 :: VGetc :: VVector :: nil) ltac:(done)) as K.
  cbn zeta. destruct (run_all vexec _ (vectorbuf inout (Vec [7; 8] 2 64))) as [rs b] eqn:E. destruct K as [K1 K2]. split; [done|].
  vm_compute in E. injection E as <- <-. apply (K2 (Vec [6] 1 32)); done.
Defined.

(** One character is written into a vector that has room for four, then room for
    eight is reserved: the three characters of slack become part of the stream. *)
Lemma reserve_exposes_slack :
  let '(_, b) := run_all vexec (VPutc 1 :: nil) (vectorbuf inout (Vec [] 4 64)) in
  s_content (abs b) = [1] ∧ fst (vector (reserve 8 b)) = [1; 0; 0; 0].
Proof. by vm_compute. Qed.

(** Room is reserved in a stream that appends to three characters: its write
    position is moved to the end twice and leaves a gap. *)
Lemma reserve_doubles_position :
  let b := vectorbuf (Mode false true true false) (Vec [1; 2; 3] 3 64) in
  s_wpos (abs b) = 3 ∧ s_wpos (abs (reserve 8 b)) = 6 ∧
  fst (vector (snd (sputc 4 (reserve 8 b)))) = [1; 2; 3; 0; 0; 0; 4].
Proof. by vm_compute. Qed.

(** [vector] leaves an empty vector whose marks are not null: [swap_vector] takes
    the storage's address for a size, and the allocation throws. *)
Lemma swap_after_empty_vector :
  let b := vectorbuf inout (Vec [] 4 4096) in
  swap_vector (Vec [] 0 0) b ≠ None ∧ swap_vector (Vec [] 0 0) (snd (vector b)) = None.
Proof. by vm_compute. Qed.
