(* ===== verification/BufferBuf.v ===== *)
(** The stream buffer over memory of a fixed size.

    Models [basic_bufferbuf] of streams/bufferstream.hpp, with the public
    functions of [std::basic_streambuf], and proves that it is an array with two
    positions. *)

From S2P Require Import Prelude VectorBuf VectorBufProps.

(** ** Data *)

(** [m_buffer] with its [m_length] characters; the areas are offsets into it. *)
Record bbuf := BBuf { bb_mode : openmode; bb_null : bool; bb_data : list Z; bb_get : area; bb_put : area }.

Definition bb_length (b : bbuf) : Z := Z.of_nat (length (bb_data b)).
Definition bb_char (i : Z) (b : bbuf) : Z := default 0 (bb_data b !! Z.to_nat i).

Definition bb_setg (c e : Z) (b : bbuf) : bbuf :=
  BBuf (bb_mode b) (bb_null b) (bb_data b) (Area (a_null (bb_get b)) c e) (bb_put b).
Definition bb_setp (c e : Z) (b : bbuf) : bbuf :=
  BBuf (bb_mode b) (bb_null b) (bb_data b) (bb_get b) (Area (a_null (bb_put b)) c e).
Definition bb_gbump (d : Z) (b : bbuf) : bbuf := bb_setg (a_cur (bb_get b) + d) (a_end (bb_get b)) b.
Definition bb_pbump (d : Z) (b : bbuf) : bbuf := bb_setp (a_cur (bb_put b) + d) (a_end (bb_put b)) b.
Definition bb_store (i c : Z) (b : bbuf) : bbuf :=
  BBuf (bb_mode b) (bb_null b) (<[Z.to_nat i := c]> (bb_data b)) (bb_get b) (bb_put b).

(** [static_cast<int>] of a 64-bit value. *)
Definition to_int (x : Z) : Z := (x + 2 ^ 31) mod 2 ^ 32 - 2 ^ 31.

(** ** Construction *)

Definition set_pointers (b : bbuf) : bbuf :=
  let a := Area (bb_null b) 0 (bb_length b) in
  BBuf (bb_mode b) (bb_null b) (bb_data b) (if m_in (bb_mode b) then a else bb_get b)
       (if m_out (bb_mode b) then a else bb_put b).

Definition bufferbuf_default (mode : openmode) : bbuf := BBuf mode true [] null_area null_area.
Definition bufferbuf (null : bool) (buf : list Z) (mode : openmode) : bbuf :=
  set_pointers (BBuf mode null buf null_area null_area).

(** The two functions called [buffer]. *)
Definition bb_buffer (b : bbuf) : bool * list Z := (bb_null b, bb_data b).
Definition bb_set_buffer (null : bool) (buf : list Z) (b : bbuf) : bbuf :=
  set_pointers (BBuf (bb_mode b) null buf (bb_get b) (bb_put b)).

(** ** The virtual functions *)

Definition bb_underflow (b : bbuf) : option Z :=
  if negb (a_cur (bb_get b) =? a_end (bb_get b)) then Some (bb_char (a_cur (bb_get b)) b) else None.

Definition bb_pbackfail (c : option Z) (b : bbuf) : bool * bbuf :=
  let g := a_cur (bb_get b) in
  if negb (g =? 0) then
    match c with
    | Some c =>
        if c =? bb_char (g - 1) b then (true, bb_gbump (-1) b)
        else if m_out (bb_mode b) then (true, bb_store (g - 1) c (bb_gbump (-1) b))
        else (false, b)
    | None => (true, bb_gbump (-1) b)
    end
  else (false, b).

Definition bb_overflow (c : option Z) (b : bbuf) : bool * bbuf :=
  if m_out (bb_mode b) then
    match c with
    | Some c =>
        if a_cur (bb_put b) =? a_end (bb_put b) then (false, b)
        else (true, bb_pbump 1 (bb_store (a_cur (bb_put b)) c b))
    | None => (true, b)
    end
  else (false, b).

(** The new position of one area, [None] outside of it. *)
Definition bb_seek_in (off : Z) (b : bbuf) : option bbuf :=
  let n := a_end (bb_get b) in
  if (off <? 0) || (n <? off) then None else Some (bb_setg off n b).
Definition bb_seek_out (off : Z) (b : bbuf) : option bbuf :=
  let n := a_end (bb_put b) in
  if (off <? 0) || (n <? off) then None else Some (bb_pbump (to_int off) (bb_setp 0 n b)).

Definition bb_seekoff (off : Z) (dir : seekdir) (sin sout : bool) (b : bbuf) : Z * bbuf :=
  let both := match dir with cur => false | _ => true end in
  let in_ := if sin && sout then both else sin in
  let out := if sin && sout then both else negb sin && sout in
  if negb in_ && negb out then (-1, b)
  else if (in_ && (negb (m_in (bb_mode b)) || (negb (off =? 0) && a_null (bb_get b)))) ||
          (out && (negb (m_out (bb_mode b)) || (negb (off =? 0) && a_null (bb_put b)))) then (-1, b)
  else
    let newoff :=
      match dir with
      | beg => 0
      | end_ => bb_length b
      | cur => if in_ then a_cur (bb_get b) else a_cur (bb_put b)
      end in
    let off := off + newoff in
    match if in_ then bb_seek_in off b else Some b with
    | None => (-1, b)
    | Some b =>
        match if out then bb_seek_out off b else Some b with
        | None => (-1, b)
        | Some b => (off, b)
        end
    end.

Definition bb_seekpos (pos : Z) (sin sout : bool) (b : bbuf) : Z * bbuf := bb_seekoff pos beg sin sout b.

(** ** [std::basic_streambuf] *)

Definition bb_sputc (c : Z) (b : bbuf) : bool * bbuf :=
  if a_cur (bb_put b) <? a_end (bb_put b)
  then (true, bb_pbump 1 (bb_store (a_cur (bb_put b)) c b)) else bb_overflow (Some c) b.
Definition bb_sgetc (b : bbuf) : option Z :=
  if a_cur (bb_get b) <? a_end (bb_get b) then Some (bb_char (a_cur (bb_get b)) b) else bb_underflow b.
Definition bb_sbumpc (b : bbuf) : option Z * bbuf :=
  (bb_sgetc b, match bb_sgetc b with Some _ => bb_gbump 1 b | None => b end).
Definition bb_sputbackc (c : Z) (b : bbuf) : bool * bbuf :=
  let g := a_cur (bb_get b) in
  if (0 <? g) && (c =? bb_char (g - 1) b) then (true, bb_gbump (-1) b) else bb_pbackfail (Some c) b.
Definition bb_sungetc (b : bbuf) : bool * bbuf :=
  if 0 <? a_cur (bb_get b) then (true, bb_gbump (-1) b) else bb_pbackfail None b.

(** ** Specification *)

(** The operations on an array of fixed length; [BSet] gives the stream another. *)
Inductive bop :=
| BPutc (c : Z) | BGetc | BBumpc | BPutback (c : Z) | BUnget | BSeek (off : Z) (dir : seekdir) (sin sout : bool)
| BBuffer | BSet (null : bool) (buf : list Z).

Definition bb_spec_getc (m : openmode) (s : sbuf) : option Z := if m_in m then s_at (s_rpos s) s else None.

Definition bb_spec_seek (m : openmode) (off : Z) (dir : seekdir) (sin sout : bool) (s : sbuf) : Z * sbuf :=
  let valid := (sin || sout) && implb sin (m_in m) && implb sout (m_out m) &&
    match dir with cur => negb (sin && sout) | _ => true end in
  let newoff := match dir with beg => 0 | end_ => s_len s | cur => if sin then s_rpos s else s_wpos s end + off in
  if valid && (0 <=? newoff) && (newoff <=? s_len s)
  then (newoff, SBuf (s_content s) (if sin then newoff else s_rpos s) (if sout then newoff else s_wpos s))
  else (-1, s).

Definition bspec (m : openmode) (op : bop) (s : sbuf) : vresult * sbuf :=
  match op with
  | BPutc c => if m_out m && (s_wpos s <? s_len s) then (RBool true, spec_putc c s) else (RBool false, s)
  | BGetc => (RChar (bb_spec_getc m s), s)
  | BBumpc =>
      (RChar (bb_spec_getc m s), if bb_spec_getc m s then SBuf (s_content s) (s_rpos s + 1) (s_wpos s) else s)
  | BPutback c => vspec m (VPutback c) s
  | BUnget => vspec m VUnget s
  | BSeek off dir sin sout => let '(p, s) := bb_spec_seek m off dir sin sout s in (RPos p, s)
  | BBuffer => (RContent (s_content s), s)
  | BSet _ buf => (RUnit, SBuf buf 0 0)
  end.

Definition bexec (op : bop) (b : bbuf) : vresult * bbuf :=
  match op with
  | BPutc c => let '(r, b) := bb_sputc c b in (RBool r, b)
  | BGetc => (RChar (bb_sgetc b), b)
  | BBumpc => let '(r, b) := bb_sbumpc b in (RChar r, b)
  | BPutback c => let '(r, b) := bb_sputbackc c b in (RBool r, b)
  | BUnget => let '(r, b) := bb_sungetc b in (RBool r, b)
  | BSeek off dir sin sout => let '(p, b) := bb_seekoff off dir sin sout b in (RPos p, b)
  | BBuffer => (RContent (snd (bb_buffer b)), b)
  | BSet null buf => (RUnit, bb_set_buffer null buf b)
  end.

(** An array given to the stream: [int] can hold its positions, and only the
    empty one may be at the null pointer. *)
Definition buf_ok (null : bool) (buf : list Z) : Prop :=
  Z.of_nat (length buf) <= INT_MAX ∧ (null = true → buf = []).
Definition bop_ok (op : bop) : Prop := match op with BSet null buf => buf_ok null buf | _ => True end.

(** ** Refinement *)

Definition bb_abs (b : bbuf) : sbuf := SBuf (bb_data b) (a_cur (bb_get b)) (a_cur (bb_put b)).

(** An area of the mode covers the whole array, any other is null. *)
Definition area_ok (open : bool) (len : Z) (a : area) : Prop :=
  0 <= a_cur a <= a_end a ∧ (a_null a = true → a_end a = 0) ∧ a_end a = (if open then len else 0).

Record bb_ok (b : bbuf) : Prop := {
  bo_len : bb_length b <= INT_MAX;
  bo_get : area_ok (m_in (bb_mode b)) (bb_length b) (bb_get b);
  bo_put : area_ok (m_out (bb_mode b)) (bb_length b) (bb_put b)
}.

Lemma bb_len_store i c b : bb_length (bb_store i c b) = bb_length b.
Proof. unfold bb_length. cbn. by rewrite length_insert. Qed.

Lemma bb_store_ok i c b : bb_ok b → bb_ok (bb_store i c b).
Proof. intros [H1 H2 H3]. split; rewrite bb_len_store; done. Qed.

Lemma bb_setg_ok c b : bb_ok b → 0 <= c <= a_end (bb_get b) → bb_ok (bb_setg c (a_end (bb_get b)) b).
Proof. intros [H1 (H2 & H3 & H4) H5] Hc. split; [done| |done]. done. Qed.

Lemma bb_setp_ok c b : bb_ok b → 0 <= c <= a_end (bb_put b) → bb_ok (bb_setp c (a_end (bb_put b)) b).
Proof. intros [H1 H5 (H2 & H3 & H4)] Hc. split; [done|done|]. done. Qed.

Lemma bb_char_at b i : 0 <= i < bb_length b → s_at i (bb_abs b) = Some (bb_char i b).
Proof.
  intros Hi. unfold s_at, bb_char, bb_length in *. cbn.
  destruct (lookup_lt_is_Some_2 (bb_data b) (Z.to_nat i) ltac:(lia)) as [x Hx]. by rewrite Hx.
Qed.

Lemma bb_char_end b : s_at (bb_length b) (bb_abs b) = None.
Proof. unfold s_at, bb_length. cbn. apply lookup_ge_None. lia. Qed.

Lemma to_int_small x : 0 <= x <= INT_MAX → to_int x = x.
Proof. unfold to_int, INT_MAX. intros Hx. rewrite Z.mod_small; lia. Qed.

Lemma bb_pointers_ok mode null buf g p : buf_ok null buf →
  (m_in mode = false → area_ok false 0 g) → (m_out mode = false → area_ok false 0 p) →
  let b := set_pointers (BBuf mode null buf g p) in bb_ok b ∧ bb_mode b = mode ∧ bb_abs b = SBuf buf 0 0.
Proof.
  intros [Hl Hn] Hg Hp. unfold set_pointers, bb_abs, bb_length. cbn. split_and!; [|done|].
  - split; cbn; [done| |]; unfold area_ok in *; case_match; cbn; naive_solver lia.
  - unfold area_ok in *. f_equal; case_match; naive_solver lia.
Qed.

Lemma bb_back_ok b : bb_ok b → a_cur (bb_get b) ≠ 0 →
  bb_ok (bb_gbump (-1) b) ∧ 0 <= a_cur (bb_get b) - 1 < bb_length b.
Proof.
  intros Hb Hne. destruct (bo_get _ Hb) as (H1 & H2 & H3). split; [apply bb_setg_ok; [done|lia]|].
  destruct (m_in (bb_mode b)); lia.
Qed.

Lemma bb_getc_ok b : bb_ok b →
  bb_sgetc b = bb_spec_getc (bb_mode b) (bb_abs b) ∧ (a_cur (bb_get b) < a_end (bb_get b) ↔ is_Some (bb_sgetc b)).
Proof.
  intros Hb. destruct (bo_get _ Hb) as (H1 & H2 & H3). unfold bb_sgetc, bb_underflow, bb_spec_getc.
  destruct (Z.ltb_spec (a_cur (bb_get b)) (a_end (bb_get b))) as [Hlt|Hge].
  - split; [|by eauto]. destruct (m_in (bb_mode b)); [|lia]. symmetry. apply bb_char_at. lia.
  - assert (a_cur (bb_get b) = a_end (bb_get b)) as Eq by lia. rewrite Eq, Z.eqb_refl. cbn. split; [|split; [lia|by intros []]].
    destruct (m_in (bb_mode b)); [|done]. rewrite Eq, H3. symmetry. apply bb_char_end.
Qed.

Lemma bb_putc_ok c b : bb_ok b →
  let '(r, b') := bb_sputc c b in bb_ok b' ∧ bb_mode b' = bb_mode b ∧ (RBool r, bb_abs b') = bspec (bb_mode b) (BPutc c) (bb_abs b).
Proof.
  intros Hb. destruct (bo_put _ Hb) as (H1 & H2 & H3). unfold bb_sputc, bb_overflow. cbn [bspec bb_abs s_wpos].
  change (s_len (bb_abs b)) with (bb_length b).
  destruct (Z.ltb_spec (a_cur (bb_put b)) (a_end (bb_put b))) as [Hlt|Hge].
  - destruct (m_out (bb_mode b)) eqn:Eo; [|lia]. rewrite H3 in Hlt. destruct (Z.ltb_spec (a_cur (bb_put b)) (bb_length b)); [|lia].
    cbn [andb]. split_and!; [|done|].
    + apply (bb_setp_ok _ (bb_store _ c b)); [by apply bb_store_ok|cbn; lia].
    + unfold spec_putc. change (s_len (bb_abs b)) with (bb_length b). cbn. destruct (Z.ltb_spec (a_cur (bb_put b)) (bb_length b)); [done|lia].
  - assert (a_cur (bb_put b) = a_end (bb_put b)) as Eq by lia. rewrite Eq, Z.eqb_refl.
    destruct (m_out (bb_mode b)); cbn [andb]; [|by split_and!]. rewrite H3, Z.ltb_irrefl. by split_and!.
Qed.

Lemma bb_putback_ok c b : bb_ok b →
  let '(r, b') := bb_sputbackc c b in
  bb_ok b' ∧ bb_mode b' = bb_mode b ∧ (RBool r, bb_abs b') = bspec (bb_mode b) (BPutback c) (bb_abs b).
Proof.
  intros Hb. destruct (bo_get _ Hb) as (H1 & _). unfold bb_sputbackc, bb_pbackfail. cbn [bspec vspec].
  change (s_rpos (bb_abs b)) with (a_cur (bb_get b)).
  destruct (Z.eqb_spec (a_cur (bb_get b)) 0) as [E0|Hne]; cbn [negb].
  { rewrite E0. cbn. by split_and!. }
  destruct (bb_back_ok b Hb Hne) as [B1 B2]. rewrite bb_char_at by done. destruct (Z.ltb_spec 0 (a_cur (bb_get b))); [|lia].
  destruct (Z.eqb_spec c (bb_char (a_cur (bb_get b) - 1) b)) as [->|Hc]; cbn [andb].
  - rewrite decide_True by done. by split_and!.
  - rewrite decide_False by congruence. destruct (m_out (bb_mode b)); [|by split_and!].
    split_and!; [by apply bb_store_ok|done|done].
Qed.

Lemma bb_unget_ok b : bb_ok b →
  let '(r, b') := bb_sungetc b in bb_ok b' ∧ bb_mode b' = bb_mode b ∧ (RBool r, bb_abs b') = bspec (bb_mode b) BUnget (bb_abs b).
Proof.
  intros Hb. destruct (bo_get _ Hb) as (H1 & _). unfold bb_sungetc, bb_pbackfail. cbn [bspec vspec].
  change (s_rpos (bb_abs b)) with (a_cur (bb_get b)).
  destruct (Z.eqb_spec (a_cur (bb_get b)) 0) as [E0|Hne]; cbn [negb].
  { rewrite E0. cbn. by split_and!. }
  destruct (Z.ltb_spec 0 (a_cur (bb_get b))); [|lia]. by destruct (bb_back_ok b Hb Hne).
Qed.

(** The checks before a seek leave an area that is open and not null, or a
    distance of zero. *)
Lemma bb_seek_in_ok off b : bb_ok b → m_in (bb_mode b) = true →
  bb_seek_in off b = if (0 <=? off) && (off <=? bb_length b) then Some (bb_setg off (a_end (bb_get b)) b) else None.
Proof.
  intros Hb Ei. destruct (bo_get _ Hb) as (_ & _ & H3). rewrite Ei in H3. unfold bb_seek_in. rewrite H3, !Z.ltb_antisym.
  by destruct (0 <=? off), (off <=? bb_length b).
Qed.

Lemma bb_seek_out_ok off b : bb_ok b → m_out (bb_mode b) = true →
  bb_seek_out off b = if (0 <=? off) && (off <=? bb_length b) then Some (bb_setp off (a_end (bb_put b)) b) else None.
Proof.
  intros Hb Ei. destruct (bo_put _ Hb) as (_ & _ & H3). pose proof (bo_len _ Hb). rewrite Ei in H3. unfold bb_seek_out. rewrite H3, !Z.ltb_antisym.
  destruct (Z.leb_spec 0 off), (Z.leb_spec off (bb_length b)); try done. cbn [negb orb andb].
  unfold bb_pbump. cbn. by rewrite to_int_small by lia.
Qed.

(** A null area is empty, so that no distance but zero could be valid. *)
Lemma bb_null_seek (open : bool) len a off base : area_ok open len a → open = true → a_null a = true → off ≠ 0 →
  base = 0 ∨ base = len ∨ base = a_cur a → (0 <=? base + off) && (base + off <=? len) = false.
Proof.
  intros (H1 & H2 & H3) -> Hn Ho Hb. specialize (H2 Hn). destruct (Z.leb_spec 0 (base + off)); cbn; [|done].
  apply Z.leb_gt. lia.
Qed.

Definition bb_base (dir : seekdir) (sin : bool) (b : bbuf) : Z :=
  match dir with beg => 0 | end_ => bb_length b | cur => if sin then a_cur (bb_get b) else a_cur (bb_put b) end.

(** The move itself, behind the checks. *)
Definition bb_moved (off : Z) (sin sout : bool) (b : bbuf) : bbuf :=
  let b := if sin then bb_setg off (a_end (bb_get b)) b else b in
  if sout then bb_setp off (a_end (bb_put b)) b else b.

Lemma bb_moved_ok off sin sout b : bb_ok b → 0 <= off <= bb_length b →
  implb sin (m_in (bb_mode b)) = true → implb sout (m_out (bb_mode b)) = true →
  bb_ok (bb_moved off sin sout b) ∧ bb_mode (bb_moved off sin sout b) = bb_mode b ∧
  bb_abs (bb_moved off sin sout b) = SBuf (bb_data b) (if sin then off else a_cur (bb_get b)) (if sout then off else a_cur (bb_put b)).
Proof.
  intros Hb Ho Hi Hu. destruct (bo_get _ Hb) as (_ & _ & G). destruct (bo_put _ Hb) as (_ & _ & P). unfold bb_moved.
  assert (bb_ok (if sin then bb_setg off (a_end (bb_get b)) b else b)) as Hg.
  { destruct sin; [|done]. destruct (m_in (bb_mode b)); [|done]. apply bb_setg_ok; [done|lia]. }
  split_and!; [|by destruct sin, sout|by destruct sin, sout].
  destruct sout; [|done]. destruct (m_out (bb_mode b)); [|done]. apply bb_setp_ok; [done|]. destruct sin; cbn; lia.
Qed.

Lemma bb_seek_move off sin sout b : bb_ok b →
  implb sin (m_in (bb_mode b)) = true → implb sout (m_out (bb_mode b)) = true → sin || sout = true →
  match (if sin then bb_seek_in off b else Some b) with
  | None => (-1, b)
  | Some b => match (if sout then bb_seek_out off b else Some b) with None => (-1, b) | Some b => (off, b) end
  end = if (0 <=? off) && (off <=? bb_length b) then (off, bb_moved off sin sout b) else (-1, b).
Proof.
  intros Hb Hi Ho Hs. destruct sin.
  - destruct (m_in (bb_mode b)) eqn:Ei; [|done]. rewrite bb_seek_in_ok by done.
    destruct (0 <=? off) eqn:E1, (off <=? bb_length b) eqn:E2; cbn [andb]; try done. unfold bb_moved.
    destruct sout; [|done]. destruct (m_out (bb_mode b)) eqn:Eo; [|done]. destruct (bo_get _ Hb) as (_ & _ & G). rewrite Ei in G.
    rewrite bb_seek_out_ok; [|apply bb_setg_ok; [done|lia]|done]. change (bb_length (bb_setg _ _ b)) with (bb_length b). by rewrite E1, E2.
  - destruct sout; [|done]. destruct (m_out (bb_mode b)) eqn:Eo; [|done]. rewrite bb_seek_out_ok by done. by destruct (_ && _).
Qed.

(** The checks of [seekoff]: what they refuse is outside of the area. *)
Lemma bb_seekoff_spec off dir sin sout b cap : bb_ok b → cap = match dir with cur => negb (sin && sout) | _ => true end →
  bb_seekoff off dir sin sout b =
    if (sin || sout) && implb sin (m_in (bb_mode b)) && implb sout (m_out (bb_mode b)) && cap &&
       (0 <=? bb_base dir sin b + off) && (bb_base dir sin b + off <=? bb_length b)
    then (bb_base dir sin b + off, bb_moved (bb_base dir sin b + off) sin sout b) else (-1, b).
Proof.
  intros Hb ->. unfold bb_seekoff.
  destruct (decide (sin || sout = true ∧ match dir with cur => negb (sin && sout) | _ => true end = true)) as [[E1 E2]|Hn];
    [|by destruct dir, sin, sout; cbn in *; rewrite ?andb_false_r; naive_solver].
  assert ((if sin && sout then match dir with cur => false | _ => true end else sin) = sin ∧
    (if sin && sout then match dir with cur => false | _ => true end else negb sin && sout) = sout) as [-> ->]
    by (by destruct dir, sin, sout).
  rewrite E1, E2, <- negb_orb, E1. cbn [negb andb]. rewrite andb_true_r.
  fold (bb_base dir sin b). rewrite (Z.add_comm off).
  destruct (implb sin (m_in (bb_mode b))) eqn:I1; [|by destruct sin, (m_in (bb_mode b))].
  destruct (implb sout (m_out (bb_mode b))) eqn:I2; [|by destruct sout, (m_out (bb_mode b)); rewrite ?orb_true_r].
  rewrite bb_seek_move by done. cbn [andb].
  destruct ((sin && _) || _) eqn:En; [|done].
  assert ((0 <=? bb_base dir sin b + off) && (bb_base dir sin b + off <=? bb_length b) = false) as ->; [|done].
  apply orb_true_iff in En as [(Es & [E%negb_true_iff|[Ho En]%andb_true_iff]%orb_true_iff)%andb_true_iff|
                               (Es & [E%negb_true_iff|[Ho En]%andb_true_iff]%orb_true_iff)%andb_true_iff].
  all: subst; cbn in I1, I2.
  all: try congruence.
  all: apply negb_true_iff, Z.eqb_neq in Ho.
  - eapply bb_null_seek; [apply (bo_get _ Hb)|done|done|done|]. unfold bb_base. destruct dir; auto.
  - eapply bb_null_seek; [apply (bo_put _ Hb)|done|done|done|]. unfold bb_base. destruct dir, sin; auto. done.
Qed.

Lemma bb_seek_ok off dir sin sout b : bb_ok b →
  let '(p, b') := bb_seekoff off dir sin sout b in
  bb_ok b' ∧ bb_mode b' = bb_mode b ∧ (RPos p, bb_abs b') = bspec (bb_mode b) (BSeek off dir sin sout) (bb_abs b).
Proof.
  intros Hb. cbn [bspec]. unfold bb_spec_seek. change (s_len (bb_abs b)) with (bb_length b). cbn [bb_abs s_content s_rpos s_wpos].
  fold (bb_base dir sin b). set (cap := match dir with cur => negb (sin && sout) | _ => true end).
  assert (bb_seekoff off dir sin sout b =
    if (sin || sout) && implb sin (m_in (bb_mode b)) && implb sout (m_out (bb_mode b)) && cap &&
       (0 <=? bb_base dir sin b + off) && (bb_base dir sin b + off <=? bb_length b)
    then (bb_base dir sin b + off, bb_moved (bb_base dir sin b + off) sin sout b) else (-1, b)) as ->.
  { apply bb_seekoff_spec; done. }
  clearbody cap.
  destruct (_ && _ && _ && cap && _ && _) eqn:E; [|split_and!; done].
  rewrite !andb_true_iff in E. destruct E as (((((E1 & E2) & E3) & E4) & E5) & E6).
  destruct (bb_moved_ok (bb_base dir sin b + off) sin sout b) as (M1 & M2 & M3); [done|lia|done|done|].
  split_and!; [done|done|]. by rewrite M3.
Qed.

Lemma bexec_ok op b : bop_ok op → bb_ok b →
  let '(r, b') := bexec op b in bb_ok b' ∧ bb_mode b' = bb_mode b ∧ (r, bb_abs b') = bspec (bb_mode b) op (bb_abs b).
Proof.
  intros Hop Hb. destruct op; cbn [bexec].
  - pose proof (bb_putc_ok c b Hb) as K. by destruct (bb_sputc c b).
  - destruct (bb_getc_ok b Hb) as [K _]. cbn [bspec]. by rewrite K.
  - destruct (bb_getc_ok b Hb) as [K1 K2]. unfold bb_sbumpc. cbn [bspec]. rewrite <- K1.
    destruct (bb_sgetc b) eqn:E; [|done]. split_and!; [|done|done]. destruct (bo_get _ Hb) as (G & _).
    apply bb_setg_ok; [done|]. assert (a_cur (bb_get b) < a_end (bb_get b)) by (apply K2; by eauto). lia.
  - pose proof (bb_putback_ok c b Hb) as K. by destruct (bb_sputbackc c b).
  - pose proof (bb_unget_ok b Hb) as K. by destruct (bb_sungetc b).
  - pose proof (bb_seek_ok off dir sin sout b Hb) as K. by destruct (bb_seekoff off dir sin sout b).
  - done.
  - destruct (bb_pointers_ok (bb_mode b) null buf (bb_get b) (bb_put b) Hop) as (K1 & K2 & K3);
      [intros E; pose proof (bo_get _ Hb) as G|intros E; pose proof (bo_put _ Hb) as G|].
    1-2: rewrite E in G; by unfold area_ok in *.
    split_and!; [done|done|]. cbn [bspec]. f_equal. apply K3.
Qed.

(** C35: A stream buffer over memory of a fixed size behaves, whatever the open
    mode, as an array with a read and a write position: every sequence of writes,
    reads, put backs and seeks, of questions for the buffer and of new buffers
    gives the results and leaves the characters and the positions that the array
    gives.  Nothing is written behind the end.  Positions must fit into an [int],
    and memory at the null pointer must be empty. *)
Theorem bufferbuf_refines mode null buf ops (Hbuf : buf_ok null buf) (Hops : Forall bop_ok ops) :
  let '(rs, b) := run_all bexec ops (bufferbuf null buf mode) in
  (rs, bb_abs b) = run_all (bspec mode) ops (SBuf buf 0 0) ∧
  0 <= a_cur (bb_get b) <= bb_length b ∧ 0 <= a_cur (bb_put b) <= bb_length b.
Proof.
  destruct (bb_pointers_ok mode null buf null_area null_area Hbuf) as (I1 & I2 & <-); [by unfold area_ok|by unfold area_ok|].
  assert (∀ op b, bop_ok op → bb_ok b ∧ bb_mode b = mode →
    let '(r, b') := bexec op b in (bb_ok b' ∧ bb_mode b' = mode) ∧ (r, bb_abs b') = bspec mode op (bb_abs b)) as Hstep.
  { intros op b Hop [Hb <-]. pose proof (bexec_ok op b Hop Hb) as Ho. destruct (bexec op b). naive_solver. }
  pose proof (run_all_sim _ _ _ _ _ ops Hstep Hops _ (conj I1 I2)) as Hr. fold (bufferbuf null buf mode) in Hr |- *.
  destruct (run_all bexec ops (bufferbuf null buf mode)) as [rs b]. destruct Hr as ([R1 R2] & R3). split; [done|].
  destruct (bo_get _ R1) as (G1 & _ & G2), (bo_put _ R1) as (P1 & _ & P2). assert (0 <= bb_length b) by (unfold bb_length; lia).
  destruct (m_in _), (m_out _); lia.
Qed.

(** Three characters are written, the fourth does not fit; the last one is read,
    put back as another and read again; a new buffer is set. *)
Lemma bufferbuf_refines_witness :
  let ops := BPutc 1 :: BPutc 2 :: BPutc 3 :: BPutc 4 :: BSeek (-1) end_ true false :: BBumpc :: BPutback 9 :: BBumpc :: BGetc ::
             BSet false [5; 6] :: BBumpc :: BBuffer :: nil in
  let '(rs, b) := run_all bexec ops (bufferbuf false [0; 0; 0] inout) in
  (rs, bb_abs b) = run_all (bspec inout) ops (SBuf [0; 0; 0] 0 0) ∧
  0 <= a_cur (bb_get b) <= bb_length b ∧ 0 <= a_cur (bb_put b) <= bb_length b.
Proof.
  apply (bufferbuf_refines inout false [0; 0; 0]); [by vm_compute|].
  repeat constructor; by vm_compute.
Defined.

(** [pbump] takes an [int]: a seek to 2^31 in a larger buffer reports success and
    leaves the write position 2^31 characters before the buffer. *)
Lemma bb_seek_large buf b : 2 ^ 31 < Z.of_nat (length buf) → b = bufferbuf false buf inout →
  fst (bb_seekpos (2 ^ 31) false true b) = 2 ^ 31 ∧ a_cur (bb_put (snd (bb_seekpos (2 ^ 31) false true b))) = - 2 ^ 31.
Proof.
  intros Hl ->. unfold bb_seekpos, bb_seekoff. cbn -[Z.pow bb_seek_out bufferbuf].
  assert (bb_seek_out (2 ^ 31 + 0) (bufferbuf false buf inout) =
    Some (bb_pbump (- 2 ^ 31) (bb_setp 0 (Z.of_nat (length buf)) (bufferbuf false buf inout)))) as E.
  { unfold bb_seek_out. cbn -[Z.pow length]. unfold bb_length. cbn -[Z.pow length].
    destruct (Z.ltb_spec (Z.of_nat (length buf)) (2 ^ 31 + 0)); [lia|done]. }
  cbn -[Z.pow bb_seek_out]. rewrite E. done.
Qed.
