(* ===== verification/NodeAlloc.v ===== *)
(** Node allocators that share a pool, and their caches.

    Models allocators/detail/allocator_common.hpp ([get_or_create_node_pool],
    [destroy_node_pool_if_last_link], [shared_pool_impl], [cache_impl]) and the
    allocators that use them: [node_allocator_base] of
    allocators/node_allocator.hpp and [cached_allocator_impl].  All allocators of a
    node size in a segment share one pool, a unique object of the segment that
    counts the allocators attached to it.  The storage behind it is code of
    Boost.Container, given here by the class [PoolImpl] and its laws [PoolImplOk].
    A function of the pool runs under its mutex, so it is one step. *)

From S2P Require Import Prelude.

(** ** The storage of a pool *)

(** [None] is [bad_alloc].  [impl_deallocate_nodes] also tells what it leaves in
    the chain; [impl_purgeable] is the precondition of the destructor. *)
Class PoolImpl := {
  pstate : Type;
  pool_init : pstate;
  impl_allocate_node : pstate → option Z * pstate;
  impl_allocate_nodes : Z → pstate → option (list Z) * pstate;
  impl_deallocate_node : Z → pstate → pstate;
  impl_deallocate_nodes : list Z → pstate → list Z * pstate;
  impl_deallocate_free_blocks : pstate → pstate;
  impl_purgeable : pstate → bool
}.

(** The nodes that are allocated; allocation gives others, all that were asked for
    or none. *)
Class PoolImplOk (P : PoolImpl) := {
  pool_inv : pstate → Prop;
  pool_out : pstate → gset Z;
  init_ok : pool_inv pool_init ∧ pool_out pool_init = ∅;
  allocate_node_ok p r p' : pool_inv p → impl_allocate_node p = (r, p') →
    pool_inv p' ∧ match r with
    | Some n => n ∉ pool_out p ∧ pool_out p' = {[n]} ∪ pool_out p
    | None => pool_out p' = pool_out p
    end;
  allocate_nodes_ok k p r p' : pool_inv p → 0 <= k → impl_allocate_nodes k p = (r, p') →
    pool_inv p' ∧ match r with
    | Some l => Z.of_nat (length l) = k ∧ NoDup l ∧ list_to_set l ## pool_out p ∧ pool_out p' = list_to_set l ∪ pool_out p
    | None => pool_out p' = pool_out p
    end;
  deallocate_node_ok n p : pool_inv p → n ∈ pool_out p →
    pool_inv (impl_deallocate_node n p) ∧ pool_out (impl_deallocate_node n p) = pool_out p ∖ {[n]};
  deallocate_nodes_ok l p : pool_inv p → NoDup l → list_to_set l ⊆ pool_out p →
    ∃ p', impl_deallocate_nodes l p = ([], p') ∧ pool_inv p' ∧ pool_out p' = pool_out p ∖ list_to_set l;
  free_blocks_ok p : pool_inv p →
    pool_inv (impl_deallocate_free_blocks p) ∧ pool_out (impl_deallocate_free_blocks p) = pool_out p;
  purgeable_ok p : pool_inv p → pool_out p = ∅ → impl_purgeable p = true
}.

Section node_alloc.
Context `{PoolImpl}.

(** ** State *)

Record node_pool := NodePool { np_impl : pstate; m_usecount : Z }.

(** [cache_impl]; the pool is known by its address. *)
Record cache := Cache { mp_node_pool : Z; m_cached_nodes : list Z; m_max_cached_nodes : Z }.

(** An allocator object without or with a cache. *)
Inductive alloc_obj := Plain (pool : Z) | Cached (c : cache).

(** The unique pool object of the segment, and the allocator objects. *)
Record world := World { w_pool : option (Z * node_pool); w_objs : gmap nat alloc_obj }.

Definition pool_of (o : alloc_obj) : Z := match o with Plain a => a | Cached c => mp_node_pool c end.

(** Access to the pool at an address; it must exist. *)
Definition on_pool {A} (a : Z) (f : node_pool → A * node_pool) : M world A := λ s,
  match w_pool s with
  | Some (a', p) =>
      if a =? a' then let '(r, p) := f p in Ret (r, World (Some (a', p)) (w_objs s)) else Fault BadAccess
  | None => Fault BadAccess
  end.

Definition get_obj (id : nat) : M world alloc_obj := λ s,
  match w_objs s !! id with Some o => Ret (o, s) | None => Fault BadAccess end.
Definition get_cache (id : nat) : M world cache := λ s,
  match w_objs s !! id with Some (Cached c) => Ret (c, s) | _ => Fault BadAccess end.
Definition set_obj (id : nat) (o : alloc_obj) : M world () := modify (λ s, World (w_pool s) (<[id := o]> (w_objs s))).
Definition del_obj (id : nat) : M world () := modify (λ s, World (w_pool s) (base.delete id (w_objs s))).
Definition set_nodes (id : nat) (l : list Z) : M world () :=
  c ← get_cache id; set_obj id (Cached (Cache (mp_node_pool c) l (m_max_cached_nodes c))).

(** ** [shared_pool_impl] *)

Definition allocate_node (a : Z) : M world (option Z) :=
  on_pool a (λ p, let '(r, i) := impl_allocate_node (np_impl p) in (r, NodePool i (m_usecount p))).
Definition allocate_nodes (a n : Z) : M world (option (list Z)) :=
  on_pool a (λ p, let '(r, i) := impl_allocate_nodes n (np_impl p) in (r, NodePool i (m_usecount p))).
Definition deallocate_node (a ptr : Z) : M world () :=
  on_pool a (λ p, ((), NodePool (impl_deallocate_node ptr (np_impl p)) (m_usecount p))).
Definition deallocate_nodes (a : Z) (chain : list Z) : M world (list Z) :=
  on_pool a (λ p, let '(r, i) := impl_deallocate_nodes chain (np_impl p) in (r, NodePool i (m_usecount p))).
Definition deallocate_free_blocks (a : Z) : M world () :=
  on_pool a (λ p, ((), NodePool (impl_deallocate_free_blocks (np_impl p)) (m_usecount p))).
Definition inc_ref_count (a : Z) : M world () :=
  on_pool a (λ p, ((), NodePool (np_impl p) (u64 (m_usecount p + 1)))).
Definition dec_ref_count (a : Z) : M world Z :=
  n ← on_pool a (λ p, (m_usecount p, p));
  boost_assert (0 <? n);;
  on_pool a (λ p, (u64 (m_usecount p - 1), NodePool (np_impl p) (u64 (m_usecount p - 1)))).

(** ** Attaching to the pool *)

(** [fresh] is where the segment manager would construct a pool, [None] if it has
    no memory for one.  Runs under the segment manager's mutex. *)
Definition get_or_create_node_pool (fresh : option Z) : M world (option Z) :=
  s ← get;
  match w_pool s with
  | Some (a, _) => inc_ref_count a;; mret (Some a)
  | None =>
      match fresh with
      | None => mret None
      | Some a => put (World (Some (a, NodePool pool_init 0)) (w_objs s));; inc_ref_count a;; mret (Some a)
      end
  end.

Definition destroy_node_pool_if_last_link (a : Z) : M world () :=
  n ← dec_ref_count a;
  if negb (n =? 0) then mret ()
  else
    ok ← on_pool a (λ p, (impl_purgeable (np_impl p), p));
    boost_assert ok;;
    modify (λ s, World None (w_objs s)).

(** ** [cache_impl] *)

Definition cache_ctor (id : nat) (max_cached_nodes : Z) (fresh : option Z) : M world bool :=
  r ← get_or_create_node_pool fresh;
  match r with
  | None => mret false
  | Some a => set_obj id (Cached (Cache a [] max_cached_nodes));; mret true
  end.

Definition cache_copy (id other : nat) : M world () :=
  c ← get_cache other;
  set_obj id (Cached (Cache (mp_node_pool c) [] (m_max_cached_nodes c)));;
  inc_ref_count (mp_node_pool c).

Definition cache_move (id other : nat) : M world () :=
  cache_copy id other;;
  c ← get_cache other;
  set_nodes id (m_cached_nodes c);;
  set_nodes other [].

Definition deallocate_all_cached_nodes (id : nat) : M world () :=
  c ← get_cache id;
  match m_cached_nodes c with
  | [] => mret ()
  | l => left ← deallocate_nodes (mp_node_pool c) l; set_nodes id left
  end.

Definition cache_dtor (id : nat) : M world () :=
  deallocate_all_cached_nodes id;;
  c ← get_cache id;
  destroy_node_pool_if_last_link (mp_node_pool c);;
  del_obj id.

(** Takes the first [n] nodes out of the cache and gives them back to the pool; the
    iterator must not pass the end. *)
Definition priv_deallocate_n_nodes (id : nat) (n : Z) : M world () :=
  c ← get_cache id;
  if Z.of_nat (length (m_cached_nodes c)) <? n then throw BadAccess
  else
    set_nodes id (drop (Z.to_nat n) (m_cached_nodes c));;
    deallocate_nodes (mp_node_pool c) (take (Z.to_nat n) (m_cached_nodes c));;
    mret ().

Definition pop_front (id : nat) : M world Z :=
  c ← get_cache id;
  match m_cached_nodes c with [] => throw BadAccess | n :: l => set_nodes id l;; mret n end.

Definition cached_allocation (id : nat) : M world (option Z) :=
  c ← get_cache id;
  ok ← match m_cached_nodes c with
       | [] =>
           r ← allocate_nodes (mp_node_pool c) (m_max_cached_nodes c / 2);
           match r with None => mret false | Some l => set_nodes id (m_cached_nodes c ++ l);; mret true end
       | _ => mret true
       end;
  if (ok : bool) then n ← pop_front id; mret (Some n) else mret None.

(** The loop takes as many nodes as the cache has, at most [n]. *)
Fixpoint take_cached (id : nat) (n : nat) (chain : list Z) : M world (list Z * Z) :=
  match n with
  | O => mret (chain, 0)
  | S n =>
      c ← get_cache id;
      match m_cached_nodes c with
      | [] => mret (chain, 0)
      | _ =>
          ret ← pop_front id;
          '(chain, allocated) ← take_cached id n (chain ++ [ret]);
          mret (chain, allocated + 1)
      end
  end.

Definition size_of (id : nat) : M world Z := c ← get_cache id; mret (Z.of_nat (length (m_cached_nodes c))).

Definition cached_deallocation_chain (id : nat) (chain : list Z) : M world () :=
  c ← get_cache id;
  set_nodes id (chain ++ m_cached_nodes c);;
  size ← size_of id;
  if m_max_cached_nodes c <=? size
  then priv_deallocate_n_nodes id (size - m_max_cached_nodes c / 2) else mret ().

(** The chain after the call; on an exception, nothing. *)
Definition cached_allocation_n (id : nat) (n : Z) (chain : list Z) : M world (option (list Z)) :=
  '(chain, allocated) ← take_cached id (Z.to_nat n) chain;
  if negb (allocated =? n) then
    c ← get_cache id;
    r ← allocate_nodes (mp_node_pool c) (n - allocated);
    match r with
    | Some l => mret (Some (chain ++ l))
    | None => cached_deallocation_chain id chain;; mret None
    end
  else mret (Some chain).

Definition cached_deallocation (id : nat) (ptr : Z) : M world () :=
  c ← get_cache id;
  size ← size_of id;
  (if m_max_cached_nodes c <=? size
   then priv_deallocate_n_nodes id (size - m_max_cached_nodes c / 2) else mret ());;
  c ← get_cache id;
  set_nodes id (ptr :: m_cached_nodes c).

Definition set_max_cached_nodes (id : nat) (newmax : Z) : M world () :=
  c ← get_cache id;
  set_obj id (Cached (Cache (mp_node_pool c) (m_cached_nodes c) newmax));;
  size ← size_of id;
  if newmax <? size then priv_deallocate_n_nodes id (size - newmax) else mret ().

Definition cache_swap (id other : nat) : M world () :=
  c ← get_cache id;
  d ← get_cache other;
  set_obj id (Cached d);;
  set_obj other (Cached c).

(** ** [node_allocator_base] *)

Definition node_allocator (id : nat) (fresh : option Z) : M world bool :=
  r ← get_or_create_node_pool fresh;
  match r with None => mret false | Some a => set_obj id (Plain a);; mret true end.

Definition node_allocator_copy (id other : nat) : M world () :=
  o ← get_obj other;
  set_obj id (Plain (pool_of o));;
  inc_ref_count (pool_of o).

Definition node_allocator_dtor (id : nat) : M world () :=
  o ← get_obj id;
  destroy_node_pool_if_last_link (pool_of o);;
  del_obj id.

(** ** [node_pool_allocation_impl] and [cached_allocator_impl] *)

Definition allocate_one (id : nat) : M world (option Z) :=
  o ← get_obj id; match o with Plain a => allocate_node a | Cached _ => cached_allocation id end.
Definition deallocate_one (id : nat) (p : Z) : M world () :=
  o ← get_obj id; match o with Plain a => deallocate_node a p | Cached _ => cached_deallocation id p end.

Definition allocate_individual (id : nat) (n : Z) (chain : list Z) : M world (option (list Z)) :=
  o ← get_obj id;
  match o with
  | Plain a => r ← allocate_nodes a n; mret ((chain ++.) <$> r)
  | Cached _ => cached_allocation_n id n chain
  end.
Definition deallocate_individual (id : nat) (chain : list Z) : M world () :=
  o ← get_obj id;
  match o with Plain a => deallocate_nodes a chain;; mret () | Cached _ => cached_deallocation_chain id chain end.

Definition destroy_allocator (id : nat) : M world () :=
  o ← get_obj id; match o with Plain _ => node_allocator_dtor id | Cached _ => cache_dtor id end.

Definition free_blocks (id : nat) : M world () := o ← get_obj id; deallocate_free_blocks (pool_of o).

End node_alloc.
