(* ===== verification/NodeAllocProps.v ===== *)
(** Node allocators hand out every node at most once. *)

From S2P Require Import Prelude NodeAlloc.

Section props.
Context `{POk : PoolImplOk}.

Definition nodes_of (o : alloc_obj) : list Z := match o with Plain _ => [] | Cached c => m_cached_nodes c end.
Definition kind_of (o : alloc_obj) : option Z := match o with Plain _ => None | Cached c => Some (m_max_cached_nodes c) end.
Definition nset (l : list Z) : gset Z := list_to_set l.

(** ** One cache and the rest *)

(** The allocated nodes of the pool are with the clients ([L]), in the cache at hand
    ([l]) or in other caches ([R]). *)
Record split_ok (p : pstate) (l : list Z) (L R : gset Z) : Prop := {
  so_inv : pool_inv p;
  so_nodup : NoDup l;
  so_out : pool_out p = L ∪ nset l ∪ R;
  so_Ll : L ## nset l;
  so_LR : L ## R;
  so_lR : nset l ## R
}.

Lemma nset_app k l : nset (k ++ l) = nset k ∪ nset l.
Proof. unfold nset. by rewrite list_to_set_app_L. Qed.

Lemma elem_nset x l : x ∈ nset l ↔ x ∈ l.
Proof. apply elem_of_list_to_set. Qed.

(** Nodes go from the clients to the cache and back. *)
Lemma split_cache p k l L R : split_ok p l (L ∪ nset k) R → L ## nset k → NoDup k → split_ok p (k ++ l) L R.
Proof.
  intros [H1 H2 H3 H4 H5 H6] Hk Hd. split; rewrite ?nset_app; [done| |set_solver..].
  apply NoDup_app. split_and!; [done| |done]. intros x Hx Hl. apply elem_nset in Hx, Hl. set_solver.
Qed.

Lemma split_lend p k l L R : split_ok p (k ++ l) L R → split_ok p l (L ∪ nset k) R ∧ L ## nset k ∧ NoDup k.
Proof.
  intros [H1 (Hk & Hkl & Hl)%NoDup_app H3 H4 H5 H6]. rewrite nset_app in *. split_and!; [|set_solver|done].
  split; [done|done|set_solver| |set_solver|set_solver].
  intros x Hx Hl'. apply elem_nset in Hl'. assert (x ∉ nset k) by (rewrite elem_nset; naive_solver).
  assert (x ∈ nset l) by (by apply elem_nset). set_solver.
Qed.

Lemma split_perm p k l L R : k ≡ₚ l → split_ok p k L R → split_ok p l L R.
Proof.
  intros Hp [H1 H2 H3 H4 H5 H6]. assert (nset k = nset l) as E by (unfold nset; by rewrite Hp). rewrite E in *.
  split; try done. by rewrite <- Hp.
Qed.

(** ** The functions of the cache *)

Section one_cache.
Context (a uc : Z) (id : nat) (objs : gmap nat alloc_obj).

Definition W (p : pstate) (l : list Z) (mx : Z) : world :=
  World (Some (a, NodePool p uc)) (<[id := Cached (Cache a l mx)]> objs).

Lemma wp_get_cache p l mx Q : Q (Cache a l mx) (W p l mx) → wp (get_cache id) (W p l mx) Q.
Proof. unfold wp, get_cache, W. cbn. by rewrite lookup_insert_eq. Qed.

Lemma wp_set_obj p l mx l' mx' Q : Q () (W p l' mx') → wp (set_obj id (Cached (Cache a l' mx'))) (W p l mx) Q.
Proof. unfold wp, set_obj, modify, W. cbn. by rewrite insert_insert_eq. Qed.

Lemma wp_set_nodes p l mx l' Q : Q () (W p l' mx) → wp (set_nodes id l') (W p l mx) Q.
Proof. intros HQ. apply wp_bind, wp_get_cache, wp_set_obj, HQ. Qed.

Lemma wp_size_of p l mx Q : Q (Z.of_nat (length l)) (W p l mx) → wp (size_of id) (W p l mx) Q.
Proof. intros HQ. apply wp_bind, wp_get_cache, HQ. Qed.

Lemma wp_deallocate_nodes p l ob k L R Q : split_ok p l (L ∪ nset k) R → L ## nset k → NoDup k →
  (∀ p', split_ok p' l L R → Q [] (World (Some (a, NodePool p' uc)) ob)) →
  wp (deallocate_nodes a k) (World (Some (a, NodePool p uc)) ob) Q.
Proof.
  intros [H1 H2 H3 H4 H5 H6] Hk Hd HQ. destruct (deallocate_nodes_ok k p H1 Hd) as (p' & E & I1 & I2); [rewrite H3; unfold nset; set_solver|].
  unfold wp, deallocate_nodes, on_pool. cbn. rewrite Z.eqb_refl, E. cbn. apply HQ. fold (nset k) in I2.
  split; [done|done| |set_solver..]. rewrite I2, H3. apply set_eq. set_solver.
Qed.

Lemma wp_allocate_nodes p l ob n L R Q : 0 <= n → split_ok p l L R →
  (∀ p', split_ok p' l L R → Q None (World (Some (a, NodePool p' uc)) ob)) →
  (∀ k p', Z.of_nat (length k) = n → NoDup k → L ## nset k → split_ok p' l (L ∪ nset k) R →
     Q (Some k) (World (Some (a, NodePool p' uc)) ob)) →
  wp (allocate_nodes a n) (World (Some (a, NodePool p uc)) ob) Q.
Proof.
  intros Hn [H1 H2 H3 H4 H5 H6] HN HS. unfold wp, allocate_nodes, on_pool. cbn. rewrite Z.eqb_refl.
  destruct (impl_allocate_nodes n p) as [r p'] eqn:E. destruct (allocate_nodes_ok n p r p' H1 Hn E) as [I1 I2]. cbn.
  destruct r as [k|].
  - destruct I2 as (I2 & I3 & I4 & I5). fold (nset k) in *. apply HS; [done|done|set_solver|].
    split; [done|done|rewrite I5, H3; set_solver|set_solver..].
  - apply HN. split; [done|done|by rewrite I2|done..].
Qed.

Lemma wp_pop_front p n l mx Q : Q n (W p l mx) → wp (pop_front id) (W p (n :: l) mx) Q.
Proof. intros HQ. apply wp_bind, wp_get_cache. cbn. apply wp_bind, wp_set_nodes, wp_ret, HQ. Qed.

Lemma wp_deallocate_n p l mx n L R Q : 0 <= n <= Z.of_nat (length l) → split_ok p l L R →
  (∀ p', split_ok p' (drop (Z.to_nat n) l) L R → Q () (W p' (drop (Z.to_nat n) l) mx)) →
  wp (priv_deallocate_n_nodes id n) (W p l mx) Q.
Proof.
  intros Hn Hs HQ. apply wp_bind, wp_get_cache. cbn [m_cached_nodes]. destruct (Z.ltb_spec (Z.of_nat (length l)) n); [lia|].
  apply wp_bind, wp_set_nodes, wp_bind. rewrite <- (take_drop (Z.to_nat n) l) in Hs.
  apply split_lend in Hs as (S1 & S2 & S3). eapply wp_deallocate_nodes; [done|done|done|]. intros p' Hp'. by apply wp_ret, HQ.
Qed.

(** What a cache keeps when it is full. *)
Definition bounded (mx : Z) (l : list Z) : Prop := Z.of_nat (length l) <= Z.max 1 mx.

Lemma wp_cached_allocation p l mx L R Q : 2 <= mx → bounded mx l → split_ok p l L R →
  (∀ p', l = [] → split_ok p' [] L R → Q None (W p' [] mx)) →
  (∀ n p' l', bounded mx l' → n ∉ L → split_ok p' l' (L ∪ {[n]}) R → Q (Some n) (W p' l' mx)) →
  wp (cached_allocation id) (W p l mx) Q.
Proof.
  intros Hmx Hb Hs HN HS. apply wp_bind, wp_get_cache. cbn [m_cached_nodes m_max_cached_nodes mp_node_pool].
  assert (∀ p n l, bounded mx l → split_ok p (n :: l) L R → wp (pop_front id) (W p (n :: l) mx) (λ n s, wp (mret (Some n)) s Q)) as Hpop.
  { intros p1 n l1 Hl Hs1. apply wp_pop_front, wp_ret. destruct (split_lend p1 [n] l1 L R Hs1) as (S1 & S2 & _).
    assert (nset [n] = {[n]}) as E by (unfold nset; cbn; by rewrite (right_id_L ∅ _)). rewrite E in *. apply HS; [done|set_solver|done]. }
  destruct l as [|n l].
  - apply wp_bind, wp_bind. apply (wp_allocate_nodes p [] _ _ L R); [dlia|done| |].
    + intros p' Hp'. apply wp_ret, wp_ret, HN; done.
    + intros k p' Hk Hd HL Hp'. apply wp_bind, wp_set_nodes, wp_ret, wp_bind. destruct k as [|n k]; [cbn in Hk; dlia|].
      apply Hpop; [unfold bounded; cbn in Hk; dlia|]. rewrite <- (app_nil_r (n :: k)). by apply split_cache.
  - apply wp_bind, wp_ret, wp_bind, Hpop; [|done]. unfold bounded in *. cbn in Hb. lia.
Qed.

Lemma wp_take_cached n : ∀ p l mx L R chain Q, split_ok p l L R →
  (∀ k l', k ++ l' = l → (length k <= n)%nat → (length k = n ∨ l' = []) →
     Q (chain ++ k, Z.of_nat (length k)) (W p l' mx)) →
  wp (take_cached id n chain) (W p l mx) Q.
Proof.
  induction n as [|n IH]; intros p l mx L R chain Q Hs HQ; cbn [take_cached].
  - apply wp_ret. rewrite <- (app_nil_r chain). apply (HQ [] l); [done|done|by left].
  - apply wp_bind, wp_get_cache. cbn [m_cached_nodes]. destruct l as [|x l].
    + apply wp_ret. rewrite <- (app_nil_r chain). apply (HQ [] []); [done|cbn; lia|by right].
    + apply wp_bind, wp_pop_front, wp_bind. destruct (split_lend p [x] l L R Hs) as (S1 & _ & _). eapply IH; [done|].
      intros k l' E Hk Ho. apply wp_ret. rewrite <- app_assoc. replace (Z.of_nat (length k) + 1) with (Z.of_nat (length (x :: k))) by (cbn; lia).
      apply (HQ (x :: k) l'); [by rewrite <- E|cbn; lia|cbn; naive_solver lia].
Qed.

Lemma wp_dealloc_chain p l mx L R chain Q : 0 <= mx → split_ok p l (L ∪ nset chain) R → L ## nset chain → NoDup chain →
  (∀ p' l', bounded mx l' → split_ok p' l' L R → Q () (W p' l' mx)) →
  wp (cached_deallocation_chain id chain) (W p l mx) Q.
Proof.
  intros Hmx Hs Hk Hd HQ. apply wp_bind, wp_get_cache, wp_bind, wp_set_nodes, wp_bind, wp_size_of.
  cbn [m_cached_nodes m_max_cached_nodes]. apply (split_cache p chain l L R) in Hs; [|done|done].
  destruct (Z.leb_spec mx (Z.of_nat (length (chain ++ l)))).
  - apply (wp_deallocate_n p (chain ++ l) mx _ L R); [dlia|done|]. intros p' Hp'. apply HQ; [|done]. unfold bounded. rewrite length_drop. dlia.
  - apply wp_ret, HQ; [unfold bounded; lia|done].
Qed.

Lemma wp_cached_allocation_n p l mx L R n chain Q : 0 <= n → 0 <= mx → bounded mx l → split_ok p l L R →
  NoDup chain → nset chain ⊆ L →
  (∀ p' l', bounded mx l' → split_ok p' l' (L ∖ nset chain) R → Q None (W p' l' mx)) →
  (∀ k p' l', bounded mx l' → Z.of_nat (length k) = n → NoDup k → L ## nset k → split_ok p' l' (L ∪ nset k) R →
     Q (Some (chain ++ k)) (W p' l' mx)) →
  wp (cached_allocation_n id n chain) (W p l mx) Q.
Proof.
  intros Hn Hmx Hb Hs Hcd HcL HN HS. apply wp_bind. apply (wp_take_cached _ p l mx L R); [done|]. intros k l' <- Hk Ho.
  apply split_lend in Hs as (S1 & S2 & S3). assert (bounded mx l') as Hb' by (unfold bounded in *; rewrite length_app in Hb; lia).
  destruct (Z.eqb_spec (Z.of_nat (length k)) n) as [E|Hne]; cbn [negb].
  - apply wp_ret, HS; done.
  - assert (l' = []) as -> by (destruct Ho; [lia|done]). apply wp_bind, wp_get_cache, wp_bind. cbn [mp_node_pool].
    apply (wp_allocate_nodes p [] _ _ (L ∪ nset k) R); [lia|done| |].
    + intros p' Hp'. apply wp_bind. apply (wp_dealloc_chain p' [] mx (L ∖ nset chain) R); [done| | | |].
      * rewrite nset_app. replace (L ∖ nset chain ∪ (nset chain ∪ nset k)) with (L ∪ nset k); [done|].
        apply set_eq. intros x. destruct (decide (x ∈ nset chain)); set_solver.
      * rewrite nset_app. set_solver.
      * apply NoDup_app. split_and!; [done| |done]. intros x Hx Hx'. apply elem_nset in Hx, Hx'. set_solver.
      * intros p2 l2 Hb2 Hp2. apply wp_ret, HN; done.
    + intros k2 p' Hk2 Hd2 HL2 Hp'. apply wp_ret. rewrite <- app_assoc. apply (HS (k ++ k2) p' []); [done| | | |].
      * rewrite length_app. lia.
      * apply NoDup_app. split_and!; [done| |done]. intros x Hx Hx'. apply elem_nset in Hx, Hx'. set_solver.
      * rewrite nset_app. set_solver.
      * rewrite nset_app. by rewrite (assoc_L (∪)).
Qed.

Lemma wp_cached_deallocation p l mx L R n Q : 0 <= mx → bounded mx l → split_ok p l (L ∪ {[n]}) R → n ∉ L →
  (∀ p' l', bounded mx l' → split_ok p' l' L R → Q () (W p' l' mx)) →
  wp (cached_deallocation id n) (W p l mx) Q.
Proof.
  intros Hmx Hb Hs Hn HQ. assert ({[n]} = nset [n]) as En by (unfold nset; cbn; by rewrite (right_id_L ∅ _)). rewrite En in Hs.
  assert (∀ p' l', bounded mx (n :: l') → split_ok p' l' (L ∪ nset [n]) R →
    wp (c ← get_cache id; set_nodes id (n :: m_cached_nodes c)) (W p' l' mx) Q) as Hpush.
  { intros p' l' Hb' Hs'. apply wp_bind, wp_get_cache, wp_set_nodes, HQ; [done|].
    apply (split_cache p' [n] l' L R); [done|rewrite <- En; set_solver|apply NoDup_singleton]. }
  apply wp_bind, wp_get_cache, wp_bind, wp_size_of, wp_bind. cbn [m_max_cached_nodes].
  destruct (Z.leb_spec mx (Z.of_nat (length l))).
  - eapply wp_deallocate_n; [dlia|done|]. intros p' Hp'. apply Hpush; [|done]. unfold bounded in *. cbn. rewrite length_drop. dlia.
  - apply wp_ret, Hpush; [|done]. unfold bounded. cbn. lia.
Qed.

Lemma wp_set_max p l mx newmax L R Q : 0 <= newmax → split_ok p l L R →
  (∀ p' l', bounded newmax l' → split_ok p' l' L R → Q () (W p' l' newmax)) →
  wp (set_max_cached_nodes id newmax) (W p l mx) Q.
Proof.
  intros Hmx Hs HQ. apply wp_bind, wp_get_cache, wp_bind, wp_set_obj, wp_bind, wp_size_of. cbn [m_cached_nodes].
  destruct (Z.ltb_spec newmax (Z.of_nat (length l))).
  - eapply wp_deallocate_n; [lia|done|]. intros p' Hp'. apply HQ; [|done]. unfold bounded. rewrite length_drop. lia.
  - apply wp_ret, HQ; [unfold bounded; lia|done].
Qed.

Lemma wp_flush p l mx L R Q : split_ok p l L R → (∀ p', split_ok p' [] L R → Q () (W p' [] mx)) →
  wp (deallocate_all_cached_nodes id) (W p l mx) Q.
Proof.
  intros Hs HQ. apply wp_bind, wp_get_cache. cbn [m_cached_nodes mp_node_pool]. destruct l as [|x l]; [by apply wp_ret, HQ|].
  rewrite <- (app_nil_r (x :: l)) in Hs. apply split_lend in Hs as (S1 & S2 & S3). apply wp_bind.
  apply (wp_deallocate_nodes p [] _ (x :: l) L R); [done..|]. intros p' Hp'. by apply wp_set_nodes, HQ.
Qed.
End one_cache.

(** ** All allocators *)

(** The nodes in caches. *)
Definition cached_set (objs : gmap nat alloc_obj) : gset Z :=
  ⋃ ((λ o, nset (nodes_of o)) <$> (map_to_list objs).*2).

Definition obj_ok (a : Z) (o : alloc_obj) : Prop :=
  pool_of o = a ∧ NoDup (nodes_of o) ∧
  match o with Plain _ => True | Cached c => 0 <= m_max_cached_nodes c ∧ bounded (m_max_cached_nodes c) (m_cached_nodes c) end.

(** The objects of one pool, whose caches have no node in common. *)
Record objs_ok (a : Z) (objs : gmap nat alloc_obj) : Prop := {
  oo_obj : ∀ id o, objs !! id = Some o → obj_ok a o;
  oo_disj : ∀ id id' o o', id ≠ id' → objs !! id = Some o → objs !! id' = Some o' → nset (nodes_of o) ## nset (nodes_of o')
}.

Definition na_ok (s : world) : Prop :=
  match w_pool s with
  | None => w_objs s = ∅
  | Some (a, p) =>
      m_usecount p = Z.of_nat (size (w_objs s)) ∧ in_u64 (m_usecount p) ∧ w_objs s ≠ ∅ ∧ objs_ok a (w_objs s) ∧
      pool_inv (np_impl p) ∧ cached_set (w_objs s) ⊆ pool_out (np_impl p)
  end.

(** The nodes in the hands of the clients. *)
Definition lent (s : world) : gset Z :=
  match w_pool s with None => ∅ | Some (_, p) => pool_out (np_impl p) ∖ cached_set (w_objs s) end.

Lemma elem_cached x objs : x ∈ cached_set objs ↔ ∃ id o, objs !! id = Some o ∧ x ∈ nodes_of o.
Proof.
  unfold cached_set. rewrite elem_of_union_list. split.
  - intros (X & (o & -> & ([id o'] & -> & Ho)%list_elem_of_fmap)%list_elem_of_fmap & Hx). apply elem_of_map_to_list in Ho.
    apply elem_nset in Hx. eauto.
  - intros (id & o & Ho & Hx). exists (nset (nodes_of o)). split; [|by apply elem_nset].
    apply list_elem_of_fmap. exists o. split; [done|]. apply list_elem_of_fmap. exists (id, o). split; [done|]. by apply elem_of_map_to_list.
Qed.

Lemma cached_empty : cached_set ∅ = ∅.
Proof. apply set_eq. intros x. rewrite elem_cached. set_solver. Qed.

Lemma cached_insert id o objs : cached_set (<[id := o]> objs) = nset (nodes_of o) ∪ cached_set (base.delete id objs).
Proof.
  apply set_eq. intros x. rewrite elem_of_union, elem_nset, !elem_cached. split.
  - intros (id' & o' & Ho & Hx). destruct (decide (id = id')) as [<-|Hne].
    + rewrite lookup_insert_eq in Ho. simplify_eq. by left.
    + rewrite lookup_insert_ne in Ho by done. right. exists id', o'. by rewrite lookup_delete_ne.
  - intros [Hx|(id' & o' & Ho & Hx)].
    + exists id, o. by rewrite lookup_insert_eq.
    + apply lookup_delete_Some in Ho as [Hne Ho]. exists id', o'. by rewrite lookup_insert_ne.
Qed.

Lemma cached_lookup id o objs : objs !! id = Some o → cached_set objs = nset (nodes_of o) ∪ cached_set (base.delete id objs).
Proof. intros Ho. rewrite <- (insert_id objs id o Ho) at 1. apply cached_insert. Qed.

Lemma objs_delete a id objs : objs_ok a objs → objs_ok a (base.delete id objs).
Proof.
  intros [H1 H2]. split.
  - intros id' o [_ Ho]%lookup_delete_Some. by eapply H1.
  - intros i j o o' Hne [_ Ho]%lookup_delete_Some [_ Ho']%lookup_delete_Some. by eapply H2.
Qed.

Lemma objs_disjoint a id o objs : objs_ok a objs → objs !! id = Some o → nset (nodes_of o) ## cached_set (base.delete id objs).
Proof.
  intros Ho Hid x Hx (id' & o' & [Hne Ho']%lookup_delete_Some & Hx')%elem_cached.
  apply elem_nset in Hx'. by apply (oo_disj _ _ Ho id id' o o' Hne Hid Ho' x).
Qed.

Lemma objs_insert a id o objs : objs_ok a (base.delete id objs) → obj_ok a o →
  nset (nodes_of o) ## cached_set (base.delete id objs) → objs_ok a (<[id := o]> objs).
Proof.
  intros Hd Ho Hx. assert (∀ j o', id ≠ j → objs !! j = Some o' → base.delete id objs !! j = Some o') as Hdel
    by (intros j o' Hne Hj; by rewrite lookup_delete_ne).
  assert (∀ j o', id ≠ j → objs !! j = Some o' → nset (nodes_of o) ## nset (nodes_of o')) as Hone.
  { intros j o' Hne Hj x H1 H2. apply (Hx x H1), elem_cached. exists j, o'. split; [by apply Hdel|]. by apply elem_nset. }
  split.
  - intros j o' [[<- <-]|[Hne Hj]]%lookup_insert_Some; [done|]. by eapply (oo_obj _ _ Hd), Hdel.
  - intros i j oi oj Hne Hi Hj. apply lookup_insert_Some in Hi as [[<- <-]|[Hni Hi]], Hj as [[<- <-]|[Hnj Hj]]; [done|by eapply Hone| |].
    + symmetry. by eapply Hone.
    + eapply (oo_disj _ _ Hd i j); [done|by apply Hdel..].
Qed.

(** One allocator is taken out of the whole and put back. *)
Lemma focus s id o : na_ok s → w_objs s !! id = Some o →
  ∃ a p uc, s = World (Some (a, NodePool p uc)) (<[id := o]> (w_objs s)) ∧ uc = Z.of_nat (size (w_objs s)) ∧ in_u64 uc ∧
    obj_ok a o ∧ objs_ok a (base.delete id (w_objs s)) ∧
    split_ok p (nodes_of o) (lent s) (cached_set (base.delete id (w_objs s))).
Proof.
  destruct s as [[[a [p uc]]|] objs]; unfold na_ok, lent; cbn; intros Hs Ho; [|by subst].
  destruct Hs as (H1 & H2 & H3 & H4 & H5 & H6). exists a, p, uc. rewrite insert_id by done. pose proof (objs_disjoint _ _ _ _ H4 Ho) as Hd.
  pose proof (oo_obj _ _ H4 _ _ Ho) as Hok. rewrite (cached_lookup id o objs Ho) in H6 |- *.
  split_and!; [done|done|done|done|by apply objs_delete|]. destruct Hok as (_ & Hnd & _).
  split; [done|done| |set_solver..]. apply set_eq. intros x. rewrite !elem_of_union, elem_of_difference, elem_of_union.
  destruct (decide (x ∈ nset (nodes_of o))), (decide (x ∈ cached_set (base.delete id objs))); set_solver.
Qed.

Lemma unfocus a p uc id o objs L : uc = Z.of_nat (size (<[id := o]> objs)) → in_u64 uc → obj_ok a o →
  objs_ok a (base.delete id objs) → split_ok p (nodes_of o) L (cached_set (base.delete id objs)) →
  let s := World (Some (a, NodePool p uc)) (<[id := o]> objs) in na_ok s ∧ lent s = L.
Proof.
  intros Hu Hr Ho Hd [H1 H2 H3 H4 H5 H6]. unfold na_ok, lent. cbn. rewrite cached_insert. split_and!; [done|done| |by apply objs_insert|done|set_solver|].
  - apply insert_non_empty.
  - rewrite H3. apply set_eq. set_solver.
Qed.

Definition kinds (s : world) : gmap nat (option Z) := kind_of <$> w_objs s.

Lemma kinds_lookup s id k : kinds s !! id = Some k → ∃ o, w_objs s !! id = Some o ∧ kind_of o = k.
Proof. unfold kinds. rewrite lookup_fmap_Some. naive_solver. Qed.

Lemma kinds_None s id : kinds s !! id = None → w_objs s !! id = None.
Proof. unfold kinds. rewrite lookup_fmap. by destruct (w_objs s !! id). Qed.

(** A function of one cache, in the whole. *)
Lemma wp_with_cache {A} (m : M world A) s id c (Q : A → world → Prop) : na_ok s → w_objs s !! id = Some (Cached c) →
  (∀ a p uc R, 0 <= m_max_cached_nodes c → bounded (m_max_cached_nodes c) (m_cached_nodes c) →
     split_ok p (m_cached_nodes c) (lent s) R →
     wp m (W a uc id (w_objs s) p (m_cached_nodes c) (m_max_cached_nodes c)) (λ r s',
       ∃ p' l' mx' L', s' = W a uc id (w_objs s) p' l' mx' ∧ 0 <= mx' ∧ bounded mx' l' ∧ split_ok p' l' L' R ∧
       ∀ s', na_ok s' → lent s' = L' → kinds s' = <[id := Some mx']> (kinds s) → w_objs s' = <[id := Cached (Cache a l' mx')]> (w_objs s) → Q r s')) →
  wp m s Q.
Proof.
  intros Hs Ho Hm. destruct (focus s id _ Hs Ho) as (a & p & uc & Es & Hu & Hr & (K1 & K2 & K3 & K4) & Hd & Hsp).
  destruct c as [a' l mx]. cbn in *. subst a'. rewrite Es. eapply wp_mono; [by eapply Hm|]. cbn.
  intros r s' (p' & l' & mx' & L' & -> & H1 & H2 & H3 & HQ).
  destruct (unfocus a p' uc id (Cached (Cache a l' mx')) (w_objs s) L') as [U1 U2]; [|done| |done|done|].
  - by rewrite map_size_insert_Some by eauto.
  - split_and!; [done|apply H3|done|done].
  - apply HQ; [done|done| |done]. unfold kinds. cbn. by rewrite fmap_insert.
Qed.

(** ** Attaching and detaching *)

Lemma add_obj a p n id o objs : objs !! id = None → n = Z.of_nat (size objs) → in_u64 (n + 1) →
  objs_ok a objs → obj_ok a o → nodes_of o = [] → pool_inv p → cached_set objs ⊆ pool_out p →
  let s' := World (Some (a, NodePool p (u64 (n + 1)))) (<[id := o]> objs) in
  na_ok s' ∧ lent s' = pool_out p ∖ cached_set objs.
Proof.
  intros Hid -> Hr Ho Hobj Hn Hp Hc. rewrite u64_small by done. apply unfocus; [|done|done|by rewrite delete_id|].
  - rewrite map_size_insert_None by done. lia.
  - rewrite Hn, delete_id by done. assert (nset [] = ∅) as E by done.
    split; rewrite ?E; [done|constructor| |set_solver..]. apply set_eq. intros x. destruct (decide (x ∈ cached_set objs)); set_solver.
Qed.

Lemma wp_on_pool {A} a p objs (f : node_pool → A * node_pool) (Q : A → world → Prop) :
  (let '(r, p') := f p in Q r (World (Some (a, p')) objs)) → wp (on_pool a f) (World (Some (a, p)) objs) Q.
Proof. intros HQ. unfold wp, on_pool. cbn. rewrite Z.eqb_refl. by destruct (f p). Qed.

(** The pool is found or made, and counts the new allocator. *)
Lemma wp_attach s id fresh mk (Q : bool → world → Prop) : na_ok s → w_objs s !! id = None →
  in_u64 (Z.of_nat (size (w_objs s)) + 1) → (∀ a, obj_ok a (mk a) ∧ nodes_of (mk a) = []) →
  (fresh = None → Q false s) →
  (∀ a s', na_ok s' → lent s' = lent s → w_objs s' = <[id := mk a]> (w_objs s) → Q true s') →
  wp (r ← get_or_create_node_pool fresh;
      match r with None => mret false | Some a => set_obj id (mk a);; mret true end) s Q.
Proof.
  intros Hs Hid Hr Hmk HF HT. destruct s as [[[a [p n]]|] objs]; cbn [w_objs w_pool] in *.
  - destruct Hs as (H1 & H2 & H3 & H4 & H5 & H6). cbn in *. apply wp_bind, wp_bind, wp_get. cbn [w_pool].
    apply wp_bind, wp_on_pool, wp_ret, wp_bind, wp_modify, wp_ret. cbn. destruct (Hmk a) as [M1 M2]. subst n.
    destruct (add_obj a p _ id (mk a) objs Hid eq_refl Hr H4 M1 M2 H5 H6) as [U1 U2]. by apply (HT a).
  - unfold na_ok in Hs. cbn in Hs. subst objs. destruct fresh as [a|]; [|by apply HF].
    apply wp_bind, wp_bind, wp_get. cbn [w_pool]. apply wp_bind. unfold wp at 1, put. apply wp_bind, wp_on_pool, wp_ret, wp_bind, wp_modify, wp_ret. cbn.
    destruct (Hmk a) as [M1 M2]. destruct init_ok as [I1 I2].
    destruct (add_obj a pool_init 0 id (mk a) ∅) as [U1 U2]; try done.
    apply (HT a); [done| |done]. rewrite U2, I2. unfold lent. cbn. set_solver.
Qed.

Lemma size_delete_Some (id : nat) (o : alloc_obj) (objs : gmap nat alloc_obj) : objs !! id = Some o → size (base.delete id objs) = (size objs - 1)%nat ∧ (0 < size objs)%nat.
Proof.
  intros Ho. rewrite map_size_delete, Ho. split; [cbn; lia|]. assert (size objs ≠ 0%nat); [|lia].
  rewrite map_size_ne_0_lookup. eauto.
Qed.

(** The last allocator takes the pool with it. *)
Lemma wp_detach s id o (Q : () → world → Prop) : na_ok s → w_objs s !! id = Some o → nodes_of o = [] →
  (base.delete id (w_objs s) = ∅ → lent s = ∅) →
  (∀ s', na_ok s' → lent s' = lent s → w_objs s' = base.delete id (w_objs s) → Q () s') →
  wp (destroy_node_pool_if_last_link (pool_of o);; del_obj id) s Q.
Proof.
  intros Hs Ho Hn Hlast HQ. destruct (focus s id o Hs Ho) as (a & p & uc & Es & Hu & Hr & (K1 & _) & Hd & Hsp).
  destruct (size_delete_Some id o _ Ho) as [Hsz Hpos]. rewrite insert_id in Es by done. rewrite Hn in Hsp. destruct Hsp as [S1 _ S3 _ S5 _].
  assert (nset [] = ∅) as E0 by done. rewrite E0, (right_id_L ∅ (∪)) in S3.
  set (objs := w_objs s) in *. rewrite K1, Es. apply wp_bind, wp_bind, wp_bind, wp_on_pool, wp_bind, wp_assert; [cbn; apply Z.ltb_lt; lia|].
  apply wp_on_pool. cbn. rewrite u64_small by (unfold in_u64 in *; lia).
  destruct (Z.eqb_spec (uc - 1) 0) as [E1|Hne]; cbn.
  - assert (base.delete id objs = ∅) as Ed by (apply map_size_empty_iff; lia). specialize (Hlast Ed).
    apply wp_bind, wp_on_pool. cbn. apply wp_bind, wp_assert; [apply purgeable_ok; [done|rewrite S3, Hlast, Ed, cached_empty; set_solver]|].
    apply wp_modify. cbn. apply HQ; [done| |done]. by rewrite Hlast.
  - apply wp_ret. cbn. apply HQ; [|unfold lent; cbn; rewrite S3; apply set_eq; set_solver|done]. unfold na_ok. cbn. split_and!; [lia|unfold in_u64 in *; lia| |done|done|set_solver].
    intros Ed. apply map_size_empty_iff in Ed. lia.
Qed.

Lemma wp_copy_obj s id other o o' (Q : () → world → Prop) : na_ok s → w_objs s !! other = Some o → w_objs s !! id = None →
  in_u64 (Z.of_nat (size (w_objs s)) + 1) → pool_of o' = pool_of o → (∀ a, pool_of o' = a → obj_ok a o') → nodes_of o' = [] →
  (∀ s', na_ok s' → lent s' = lent s → w_objs s' = <[id := o']> (w_objs s) → Q () s') →
  wp (set_obj id o';; inc_ref_count (pool_of o)) s Q.
Proof.
  intros Hs Ho Hid Hr Hp Hok Hn HQ. destruct s as [[[a [p n]]|] objs]; unfold na_ok in Hs; cbn in *; [|by subst].
  destruct Hs as (H1 & H2 & H3 & H4 & H5 & H6). destruct (oo_obj _ _ H4 _ _ Ho) as (Ha & _). subst a n.
  destruct (add_obj (pool_of o) p _ id o' objs Hid eq_refl Hr H4 (Hok _ Hp) Hn H5 H6) as [U1 U2].
  apply wp_bind, wp_modify, wp_on_pool. cbn. by apply HQ.
Qed.

(** Two allocators change places. *)
Lemma swap_ok s i j oi oj : na_ok s → w_objs s !! i = Some oi → w_objs s !! j = Some oj →
  let s' := World (w_pool s) (<[j := oi]> (<[i := oj]> (w_objs s))) in na_ok s' ∧ lent s' = lent s.
Proof.
  intros Hs Hi Hj. cbv zeta. set (objs' := <[j := oi]> (<[i := oj]> (w_objs s))).
  assert (∀ k, objs' !! k = w_objs s !! (if decide (k = j) then i else if decide (k = i) then j else k)) as Hl.
  { intros k. subst objs'. destruct (decide (k = j)) as [->|]; [by rewrite lookup_insert_eq|]. rewrite lookup_insert_ne by done.
    destruct (decide (k = i)) as [->|]; [by rewrite lookup_insert_eq|]. by rewrite lookup_insert_ne. }
  assert (cached_set objs' = cached_set (w_objs s)) as Ec.
  { apply set_eq. intros x. rewrite !elem_cached. split.
    - intros (k & o & Ho & Hx). rewrite Hl in Ho. eauto.
    - intros (k & o & Ho & Hx). exists (if decide (k = j) then i else if decide (k = i) then j else k), o. rewrite Hl. split; [|done].
      rewrite <- Ho. f_equal. repeat case_decide; congruence. }
  unfold na_ok, lent in *. cbn. rewrite Ec. destruct (w_pool s) as [[a p]|]; [|by rewrite Hs in Hi].
  destruct Hs as (H1 & H2 & H3 & H4 & H5 & H6). split_and!; [|done| | |done|done|done].
  - subst objs'. rewrite map_size_insert_Some; [by rewrite map_size_insert_Some by eauto|].
    destruct (decide (i = j)) as [<-|]; [rewrite lookup_insert_eq|rewrite lookup_insert_ne by done]; eauto.
  - apply insert_non_empty.
  - split.
    + intros k o Ho. rewrite Hl in Ho. by eapply (oo_obj _ _ H4).
    + intros k k' o o' Hne Ho Ho'. rewrite Hl in Ho, Ho'. eapply (oo_disj _ _ H4); [|exact Ho|exact Ho']. repeat case_decide; congruence.
Qed.

(** ** Specification *)

(** The nodes in the hands of the clients, and the allocators with the limits of
    their caches. *)
Record nspec := NSpec { n_lent : gset Z; n_kinds : gmap nat (option Z) }.
Definition abs (s : world) : nspec := NSpec (lent s) (kinds s).

Inductive nop :=
| NCache (id : nat) (max : Z) (fresh : option Z) | NPlain (id : nat) (fresh : option Z)
| NCopy (id other : nat) | NMove (id other : nat) | NDestroy (id : nat)
| NAlloc (id : nat) | NAllocN (id : nat) (n : Z) (chain : list Z)
| NFree (id : nat) (p : Z) | NFreeN (id : nat) (chain : list Z)
| NSetMax (id : nat) (newmax : Z) | NFlush (id : nat) | NSwap (id other : nat) | NFreeBlocks (id : nat).

Inductive nres := NUnit | NBool (b : bool) | NNode (n : option Z) | NChain (l : option (list Z)).

Definition nexec (op : nop) : M world nres :=
  match op with
  | NCache id max fresh => b ← cache_ctor id max fresh; mret (NBool b)
  | NPlain id fresh => b ← node_allocator id fresh; mret (NBool b)
  | NCopy id other =>
      o ← get_obj other; match o with Plain _ => node_allocator_copy id other | Cached _ => cache_copy id other end;; mret NUnit
  | NMove id other => cache_move id other;; mret NUnit
  | NDestroy id => destroy_allocator id;; mret NUnit
  | NAlloc id => r ← allocate_one id; mret (NNode r)
  | NAllocN id n chain => r ← allocate_individual id n chain; mret (NChain r)
  | NFree id p => deallocate_one id p;; mret NUnit
  | NFreeN id chain => deallocate_individual id chain;; mret NUnit
  | NSetMax id newmax => set_max_cached_nodes id newmax;; mret NUnit
  | NFlush id => deallocate_all_cached_nodes id;; mret NUnit
  | NSwap id other => cache_swap id other;; mret NUnit
  | NFreeBlocks id => free_blocks id;; mret NUnit
  end.

(** What a client must respect: new objects are constructed where none is, other
    functions are called on existing ones; only nodes that were handed out come
    back; the last allocator outlives the nodes; a cache that is asked for single
    nodes may hold two. *)
Definition npre (op : nop) (t : nspec) : Prop :=
  let '(NSpec L K) := t in
  let room := in_u64 (Z.of_nat (size K) + 1) in
  match op with
  | NCache id max _ => K !! id = None ∧ 0 <= max ∧ room
  | NPlain id _ => K !! id = None ∧ room
  | NCopy id other => K !! id = None ∧ is_Some (K !! other) ∧ room
  | NMove id other => K !! id = None ∧ (∃ mx, K !! other = Some (Some mx)) ∧ room
  | NDestroy id => is_Some (K !! id) ∧ (base.delete id K = ∅ → L = ∅)
  | NAlloc id => K !! id = Some None ∨ ∃ mx, K !! id = Some (Some mx) ∧ 2 <= mx
  | NAllocN id n chain => is_Some (K !! id) ∧ 0 <= n ∧ NoDup chain ∧ nset chain ⊆ L
  | NFree id p => is_Some (K !! id) ∧ p ∈ L
  | NFreeN id chain => is_Some (K !! id) ∧ NoDup chain ∧ nset chain ⊆ L
  | NSetMax id newmax => (∃ mx, K !! id = Some (Some mx)) ∧ 0 <= newmax
  | NFlush id => ∃ mx, K !! id = Some (Some mx)
  | NSwap id other => (∃ mx, K !! id = Some (Some mx)) ∧ ∃ mx, K !! other = Some (Some mx)
  | NFreeBlocks id => is_Some (K !! id)
  end.

(** Allocated nodes are new to the clients; deallocated ones leave their hands; an
    exception changes nothing but that a cached allocator takes the nodes of the
    chain back. *)
Definition npost (op : nop) (t : nspec) (r : nres) (t' : nspec) : Prop :=
  let '(NSpec L K) := t in let '(NSpec L' K') := t' in
  match op, r with
  | NCache id max fresh, NBool b =>
      L' = L ∧ (fresh ≠ None → b = true) ∧ K' = if b then <[id := Some max]> K else K
  | NPlain id fresh, NBool b => L' = L ∧ (fresh ≠ None → b = true) ∧ K' = if b then <[id := None]> K else K
  | (NCopy id other | NMove id other), NUnit => L' = L ∧ ∃ k, K !! other = Some k ∧ K' = <[id := k]> K
  | NDestroy id, NUnit => L' = L ∧ K' = base.delete id K
  | NAlloc _, NNode (Some n) => n ∉ L ∧ L' = L ∪ {[n]} ∧ K' = K
  | NAlloc _, NNode None => L' = L ∧ K' = K
  | NAllocN _ n chain, NChain (Some chain') =>
      ∃ l, chain' = chain ++ l ∧ Z.of_nat (length l) = n ∧ NoDup l ∧ L ## nset l ∧ L' = L ∪ nset l ∧ K' = K
  | NAllocN id n chain, NChain None => L' = (if K !! id is Some None then L else L ∖ nset chain) ∧ K' = K
  | NFree _ p, NUnit => L' = L ∖ {[p]} ∧ K' = K
  | NFreeN _ chain, NUnit => L' = L ∖ nset chain ∧ K' = K
  | NSetMax id newmax, NUnit => L' = L ∧ K' = <[id := Some newmax]> K
  | (NFlush _ | NFreeBlocks _), NUnit => L' = L ∧ K' = K
  | NSwap id other, NUnit => L' = L ∧ K' = <[other := default None (K !! id)]> (<[id := default None (K !! other)]> K)
  | _, _ => False
  end.

(** ** The operations *)

Definition refines (op : nop) (s : world) : Prop :=
  wp (nexec op) s (λ r s', na_ok s' ∧ npost op (abs s) r (abs s')).

Lemma kinds_insert s s' id o : w_objs s' = <[id := o]> (w_objs s) → kinds s' = <[id := kind_of o]> (kinds s).
Proof. unfold kinds. intros ->. by rewrite fmap_insert. Qed.

Lemma kinds_same s id k : kinds s !! id = Some k → <[id := k]> (kinds s) = kinds s.
Proof. apply insert_id. Qed.

Lemma size_kinds s : size (kinds s) = size (w_objs s).
Proof. unfold kinds. apply map_size_fmap. Qed.

Lemma wp_get_obj s id o (Q : alloc_obj → world → Prop) : w_objs s !! id = Some o → Q o s → wp (get_obj id) s Q.
Proof. unfold wp, get_obj. by intros ->. Qed.

Lemma wp_cache_of s id c (Q : cache → world → Prop) : w_objs s !! id = Some (Cached c) → Q c s → wp (get_cache id) s Q.
Proof. unfold wp, get_cache. by intros ->. Qed.

Lemma cached_kind s id mx : kinds s !! id = Some (Some mx) →
  ∃ a l, w_objs s !! id = Some (Cached (Cache a l mx)).
Proof. intros (o & Ho & Hk)%kinds_lookup. destruct o as [|[a l mx']]; [done|]. cbn in Hk. simplify_eq. eauto. Qed.

Lemma plain_kind s id : kinds s !! id = Some None → ∃ a, w_objs s !! id = Some (Plain a).
Proof. intros (o & Ho & Hk)%kinds_lookup. destruct o as [a|]; [eauto|done]. Qed.

Lemma cache_ok id max fresh s : na_ok s → npre (NCache id max fresh) (abs s) → refines (NCache id max fresh) s.
Proof.
  intros Hs (Hid & Hmax & Hr). rewrite size_kinds in Hr. apply kinds_None in Hid. apply wp_bind.
  apply (wp_attach s id fresh (λ a, Cached (Cache a [] max))); [done|done|done| | |].
  - intros a. split; [|done]. split_and!; [done|constructor|done|unfold bounded; cbn; lia].
  - intros ->. apply wp_ret. by split_and!.
  - intros a s' Hs' Hl Ho. apply wp_ret. split; [done|]. cbn. split_and!; [done|done|]. by rewrite (kinds_insert s s' id _ Ho).
Qed.

Lemma plain_ok id fresh s : na_ok s → npre (NPlain id fresh) (abs s) → refines (NPlain id fresh) s.
Proof.
  intros Hs (Hid & Hr). rewrite size_kinds in Hr. apply kinds_None in Hid. apply wp_bind.
  apply (wp_attach s id fresh Plain); [done|done|done| | |].
  - intros a. split; [|done]. split_and!; [done|constructor|done].
  - intros ->. apply wp_ret. by split_and!.
  - intros a s' Hs' Hl Ho. apply wp_ret. split; [done|]. cbn. split_and!; [done|done|]. by rewrite (kinds_insert s s' id _ Ho).
Qed.

(** The copy of an allocator, with an empty cache. *)
Definition copy_of (o : alloc_obj) : alloc_obj :=
  match o with Plain a => Plain a | Cached c => Cached (Cache (mp_node_pool c) [] (m_max_cached_nodes c)) end.

Lemma wp_copy s id other o (Q : () → world → Prop) : na_ok s → w_objs s !! other = Some o → w_objs s !! id = None →
  in_u64 (Z.of_nat (size (w_objs s)) + 1) →
  (∀ s', na_ok s' → lent s' = lent s → w_objs s' = <[id := copy_of o]> (w_objs s) → Q () s') →
  wp (set_obj id (copy_of o);; inc_ref_count (pool_of o)) s Q.
Proof.
  intros Hs Ho Hid Hr HQ. apply (wp_copy_obj s id other o (copy_of o)); try done; [by destruct o| |by destruct o].
  intros a <-. destruct (focus s other o Hs Ho) as (a' & _ & _ & _ & _ & _ & (_ & _ & Hm) & _).
  destruct o; split_and!; try done; try apply NoDup_nil_2; try apply Hm. all: unfold bounded; cbn; lia.
Qed.

Lemma copy_ok id other s : na_ok s → npre (NCopy id other) (abs s) → refines (NCopy id other) s.
Proof.
  intros Hs (Hid & [k Hk] & Hr). rewrite size_kinds in Hr. apply kinds_None in Hid. destruct (kinds_lookup s other k Hk) as (o & Ho & Ek).
  apply wp_bind, (wp_get_obj _ _ _ _ Ho), wp_bind.
  assert (wp (set_obj id (copy_of o);; inc_ref_count (pool_of o)) s
    (λ _ s', wp (mret NUnit) s' (λ r s', na_ok s' ∧ npost (NCopy id other) (abs s) r (abs s')))) as Hw.
  { apply (wp_copy s id other o); try done. intros s' Hs' Hl Ho'. apply wp_ret. split; [done|]. cbn. split; [done|].
    exists k. split; [done|]. rewrite (kinds_insert s s' id _ Ho'). f_equal. by destruct o. }
  destruct o as [a|c].
  - apply wp_bind, (wp_get_obj _ _ _ _ Ho). exact Hw.
  - apply wp_bind, (wp_cache_of _ _ _ _ Ho). exact Hw.
Qed.

Lemma move_ok id other s : na_ok s → npre (NMove id other) (abs s) → refines (NMove id other) s.
Proof.
  intros Hs (Hid & [mx Hk] & Hr). rewrite size_kinds in Hr. apply kinds_None in Hid. destruct (cached_kind s other mx Hk) as (a & l & Ho).
  apply wp_bind, wp_bind, wp_bind, (wp_cache_of _ _ _ _ Ho). assert (id ≠ other) as Hne by congruence.
  apply (wp_copy s id other _ _ Hs Ho Hid Hr). intros s1 Hs1 Hl1 Ho1. cbn [copy_of mp_node_pool m_max_cached_nodes] in Ho1.
  assert (w_objs s1 !! id = Some (Cached (Cache a [] mx))) as E1 by (by rewrite Ho1, lookup_insert_eq).
  assert (w_objs s1 !! other = Some (Cached (Cache a l mx))) as E2 by (by rewrite Ho1, lookup_insert_ne).
  destruct (swap_ok s1 id other _ _ Hs1 E1 E2) as [W1 W2].
  apply wp_bind, (wp_cache_of _ _ _ _ E2), wp_bind, wp_bind, (wp_cache_of _ _ _ _ E1), wp_modify, wp_bind.
  eapply wp_cache_of; [cbn; by rewrite lookup_insert_ne|]. apply wp_modify, wp_ret. split; [done|]. cbn. rewrite W2. split; [done|].
  exists (Some mx). split; [done|]. unfold kinds. cbn. rewrite Ho1, !fmap_insert. cbn. rewrite insert_insert_eq.
  rewrite insert_insert_ne by done. f_equal. apply insert_id. exact Hk.
Qed.

Lemma swap_caches_ok id other s : na_ok s → npre (NSwap id other) (abs s) → refines (NSwap id other) s.
Proof.
  intros Hs ([mx Hi] & [mx' Hj]). destruct (cached_kind _ _ _ Hi) as (a & l & Ho), (cached_kind _ _ _ Hj) as (a' & l' & Ho').
  destruct (swap_ok s id other _ _ Hs Ho Ho') as [W1 W2].
  apply wp_bind, wp_bind, (wp_cache_of _ _ _ _ Ho), wp_bind, (wp_cache_of _ _ _ _ Ho'), wp_bind, wp_modify, wp_modify, wp_ret.
  split; [done|]. cbn. rewrite W2, Hi, Hj. split; [done|]. cbn. unfold kinds. cbn. by rewrite !fmap_insert.
Qed.

(** A function that only uses the pool. *)
Lemma wp_with_pool {A} (m : M world A) s id o (Q : A → world → Prop) : na_ok s → w_objs s !! id = Some o →
  (∀ p uc R, split_ok p (nodes_of o) (lent s) R →
     wp m (World (Some (pool_of o, NodePool p uc)) (w_objs s)) (λ r s',
       ∃ p' L', s' = World (Some (pool_of o, NodePool p' uc)) (w_objs s) ∧ split_ok p' (nodes_of o) L' R ∧
       ∀ s', na_ok s' → lent s' = L' → kinds s' = kinds s → Q r s')) →
  wp m s Q.
Proof.
  intros Hs Ho Hm. destruct (focus s id _ Hs Ho) as (a & p & uc & Es & Hu & Hr & Hok & Hd & Hsp).
  rewrite Es, insert_id by done. pose proof Hok as (K1 & _). subst a. eapply wp_mono; [by eapply Hm|]. cbn.
  intros r s' (p' & L' & -> & Hsp' & HQ). destruct (unfocus (pool_of o) p' uc id o (w_objs s) L') as [U1 U2]; try done.
  { by rewrite map_size_insert_Some by eauto. }
  rewrite insert_id in U1, U2 by done. by apply HQ.
Qed.

Lemma singleton_nset n : {[n]} = nset [n].
Proof. unfold nset. cbn. by rewrite (right_id_L ∅ _). Qed.

Lemma wp_allocate_node a uc p l ob L R Q : split_ok p l L R →
  (∀ p', split_ok p' l L R → Q None (World (Some (a, NodePool p' uc)) ob)) →
  (∀ n p', n ∉ L → split_ok p' l (L ∪ {[n]}) R → Q (Some n) (World (Some (a, NodePool p' uc)) ob)) →
  wp (allocate_node a) (World (Some (a, NodePool p uc)) ob) Q.
Proof.
  intros [H1 H2 H3 H4 H5 H6] HN HS. apply wp_on_pool. cbn. destruct (impl_allocate_node p) as [r p'] eqn:E.
  destruct (allocate_node_ok p r p' H1 E) as [I1 I2]. destruct r as [n|].
  - destruct I2 as [I2 I3]. apply HS; [set_solver|]. split; [done|done|rewrite I3, H3; set_solver|set_solver..].
  - apply HN. split; [done|done|by rewrite I2|done..].
Qed.

Lemma wp_deallocate_node a uc p l ob n L R (Q : () → world → Prop) : split_ok p l (L ∪ {[n]}) R → n ∉ L →
  (∀ p', split_ok p' l L R → Q () (World (Some (a, NodePool p' uc)) ob)) →
  wp (deallocate_node a n) (World (Some (a, NodePool p uc)) ob) Q.
Proof.
  intros [H1 H2 H3 H4 H5 H6] Hn HQ. apply wp_on_pool. cbn. destruct (deallocate_node_ok n p H1) as [I1 I2]; [set_solver|].
  apply HQ. split; [done|done|rewrite I2, H3; apply set_eq; set_solver|set_solver..].
Qed.

Lemma lent_minus (L k : gset Z) : k ⊆ L → L = L ∖ k ∪ k ∧ L ∖ k ## k.
Proof. intros Hk. split; [|set_solver]. apply set_eq. intros x. destruct (decide (x ∈ k)); set_solver. Qed.

Lemma alloc_ok id s : na_ok s → npre (NAlloc id) (abs s) → refines (NAlloc id) s.
Proof.
  intros Hs [Hk|(mx & Hk & Hmx)]; apply wp_bind; unfold allocate_one.
  - destruct (plain_kind s id Hk) as (a & Ho). apply wp_bind, (wp_get_obj _ _ _ _ Ho).
    apply (wp_with_pool _ s id (Plain a)); [done|done|]. intros p uc R Hsp. eapply wp_allocate_node; [done| |].
    + intros p' Hp'. eexists p', _. split_and!; [done|done|]. intros s' H1 H2 H3. apply wp_ret. split; [done|]. cbn. by rewrite H2, H3.
    + intros n p' Hn Hp'. eexists p', _. split_and!; [done|done|]. intros s' H1 H2 H3. apply wp_ret. split; [done|]. cbn. by rewrite H2, H3.
  - destruct (cached_kind s id mx Hk) as (a0 & l & Ho). apply wp_bind, (wp_get_obj _ _ _ _ Ho).
    apply (wp_with_cache _ s id _ _ Hs Ho). intros a p uc R H1 H2 Hsp. cbn in *. eapply wp_cached_allocation; [done|done|done| |].
    + intros p' _ Hp'. eexists p', [], mx, _. split_and!; [done|lia|unfold bounded; cbn; lia|done|]. intros s' H3 H4 H5 _. apply wp_ret.
      split; [done|]. cbn. by rewrite H4, H5, kinds_same.
    + intros n p' l' Hb Hn Hp'. eexists p', l', mx, _. split_and!; [done|lia|done|done|]. intros s' H3 H4 H5 _. apply wp_ret.
      split; [done|]. cbn. by rewrite H4, H5, kinds_same.
Qed.

Lemma alloc_n_ok id n chain s : na_ok s → npre (NAllocN id n chain) (abs s) → refines (NAllocN id n chain) s.
Proof.
  intros Hs ([k Hk] & Hn & Hd & Hsub). apply wp_bind. unfold allocate_individual. destruct k as [mx|].
  - destruct (cached_kind s id mx Hk) as (a0 & l & Ho). apply wp_bind, (wp_get_obj _ _ _ _ Ho).
    apply (wp_with_cache _ s id _ _ Hs Ho). intros a p uc R H1 H2 Hsp. cbn in *. eapply wp_cached_allocation_n; [done..| |].
    + intros p' l' Hb Hp'. eexists p', l', mx, _. split_and!; [done|lia|done|done|]. intros s' H3 H4 H5 _. apply wp_ret.
      split; [done|]. cbn. by rewrite H4, H5, kinds_same, Hk.
    + intros l2 p' l' Hb Hl Hd2 HL Hp'. eexists p', l', mx, _. split_and!; [done|lia|done|done|]. intros s' H3 H4 H5 _. apply wp_ret.
      split; [done|]. cbn. exists l2. by rewrite H4, H5, kinds_same.
  - destruct (plain_kind s id Hk) as (a & Ho). apply wp_bind, (wp_get_obj _ _ _ _ Ho), wp_bind.
    apply (wp_with_pool _ s id (Plain a)); [done|done|]. intros p uc R Hsp. eapply wp_allocate_nodes; [done|done| |].
    + intros p' Hp'. eexists p', _. split_and!; [done|done|]. intros s' H1 H2 H3. apply wp_ret, wp_ret. split; [done|]. cbn. by rewrite H2, H3, Hk.
    + intros l2 p' Hl Hd2 HL Hp'. eexists p', _. split_and!; [done|done|]. intros s' H1 H2 H3. apply wp_ret, wp_ret. split; [done|]. cbn. exists l2.
      by rewrite H2, H3.
Qed.

Lemma free_ok id n s : na_ok s → npre (NFree id n) (abs s) → refines (NFree id n) s.
Proof.
  intros Hs ([k Hk] & Hn). destruct (lent_minus (lent s) {[n]} ltac:(set_solver)) as [E Hd]. apply wp_bind. unfold deallocate_one. destruct k as [mx|].
  - destruct (cached_kind s id mx Hk) as (a0 & l & Ho). apply wp_bind, (wp_get_obj _ _ _ _ Ho).
    apply (wp_with_cache _ s id _ _ Hs Ho). intros a p uc R H1 H2 Hsp. cbn in *. rewrite E in Hsp.
    eapply wp_cached_deallocation; [done|done|done|set_solver|]. intros p' l' Hb Hp'. eexists p', l', mx, _. split_and!; [done|lia|done|done|].
    intros s' H3 H4 H5 _. apply wp_ret. split; [done|]. cbn. by rewrite H4, H5, kinds_same.
  - destruct (plain_kind s id Hk) as (a & Ho). apply wp_bind, (wp_get_obj _ _ _ _ Ho).
    apply (wp_with_pool _ s id (Plain a)); [done|done|]. intros p uc R Hsp. rewrite E in Hsp.
    eapply wp_deallocate_node; [done|set_solver|]. intros p' Hp'. eexists p', _. split_and!; [done|done|].
    intros s' H1 H2 H3. apply wp_ret. split; [done|]. cbn. by rewrite H2, H3.
Qed.

Lemma free_n_ok id chain s : na_ok s → npre (NFreeN id chain) (abs s) → refines (NFreeN id chain) s.
Proof.
  intros Hs ([k Hk] & Hnd & Hn). destruct (lent_minus (lent s) (nset chain) Hn) as [E Hd]. apply wp_bind. unfold deallocate_individual. destruct k as [mx|].
  - destruct (cached_kind s id mx Hk) as (a0 & l & Ho). apply wp_bind, (wp_get_obj _ _ _ _ Ho).
    apply (wp_with_cache _ s id _ _ Hs Ho). intros a p uc R H1 H2 Hsp. cbn in *. rewrite E in Hsp.
    eapply wp_dealloc_chain; [done|done|done|done|]. intros p' l' Hb Hp'. eexists p', l', mx, _. split_and!; [done|lia|done|done|].
    intros s' H3 H4 H5 _. apply wp_ret. split; [done|]. cbn. by rewrite H4, H5, kinds_same.
  - destruct (plain_kind s id Hk) as (a & Ho). apply wp_bind, (wp_get_obj _ _ _ _ Ho), wp_bind.
    apply (wp_with_pool _ s id (Plain a)); [done|done|]. intros p uc R Hsp. rewrite E in Hsp.
    eapply wp_deallocate_nodes; [done|done|done|]. intros p' Hp'. eexists p', _. split_and!; [done|done|].
    intros s' H1 H2 H3. apply wp_ret, wp_ret. split; [done|]. cbn. by rewrite H2, H3.
Qed.

Lemma set_max_ok id newmax s : na_ok s → npre (NSetMax id newmax) (abs s) → refines (NSetMax id newmax) s.
Proof.
  intros Hs ([mx Hk] & Hmx). destruct (cached_kind s id mx Hk) as (a0 & l & Ho). apply wp_bind.
  apply (wp_with_cache _ s id _ _ Hs Ho). intros a p uc R H1 H2 Hsp. cbn in *.
  eapply wp_set_max; [done|done|]. intros p' l' Hb Hp'. eexists p', l', newmax, _. split_and!; [done|lia|done|done|].
  intros s' H3 H4 H5 _. apply wp_ret. split; [done|]. cbn. by rewrite H4, H5.
Qed.

(** After [deallocate_all_cached_nodes] the cache is empty. *)
Lemma wp_flush_all id mx a0 l s (Q : () → world → Prop) : na_ok s → w_objs s !! id = Some (Cached (Cache a0 l mx)) →
  (∀ a s', na_ok s' → lent s' = lent s → w_objs s' = <[id := Cached (Cache a [] mx)]> (w_objs s) → kinds s' = kinds s → Q () s') →
  wp (deallocate_all_cached_nodes id) s Q.
Proof.
  intros Hs Ho HQ. apply (wp_with_cache _ s id _ _ Hs Ho). intros a p uc R H1 H2 Hsp. cbn in *.
  eapply wp_flush; [done|]. intros p' Hp'. eexists p', [], mx, _. split_and!; [done|lia|unfold bounded; cbn; lia|done|].
  intros s' H3 H4 H5 H6. eapply HQ; [done|done|done|]. rewrite H5. apply kinds_same. unfold kinds. by rewrite lookup_fmap, Ho.
Qed.

Lemma flush_ok id s : na_ok s → npre (NFlush id) (abs s) → refines (NFlush id) s.
Proof.
  intros Hs [mx Hk]. destruct (cached_kind s id mx Hk) as (a0 & l & Ho). apply wp_bind, (wp_flush_all id mx a0 l s); [done|done|].
  intros a s' H1 H2 _ H3. apply wp_ret. split; [done|]. cbn. by rewrite H2, H3.
Qed.

Lemma free_blocks_op_ok id s : na_ok s → npre (NFreeBlocks id) (abs s) → refines (NFreeBlocks id) s.
Proof.
  intros Hs [k (o & Ho & _)%kinds_lookup]. apply wp_bind, wp_bind, (wp_get_obj _ _ _ _ Ho), (wp_with_pool _ s id o); [done|done|].
  intros p uc R [H1 H2 H3 H4 H5 H6]. destruct (free_blocks_ok p H1) as [F1 F2]. apply wp_on_pool. cbn.
  eexists _, _. split_and!; [done| |].
  - split; [done|done|by rewrite F2|done..].
  - intros s' K1 K2 K3. apply wp_ret. split; [done|]. cbn. by rewrite K2, K3.
Qed.

Lemma destroy_ok id s : na_ok s → npre (NDestroy id) (abs s) → refines (NDestroy id) s.
Proof.
  intros Hs [[k Hk] Hlast]. apply wp_bind. unfold destroy_allocator.
  assert (∀ s1 o, na_ok s1 → lent s1 = lent s → kinds s1 = kinds s → w_objs s1 !! id = Some o → nodes_of o = [] →
    wp (destroy_node_pool_if_last_link (pool_of o);; del_obj id) s1
      (λ _ s', wp (mret NUnit) s' (λ r s', na_ok s' ∧ npost (NDestroy id) (abs s) r (abs s')))) as Hw.
  { intros s1 o H1 H2 H3 H4 H5. apply wp_detach; [done|done|done| |].
    - intros He. rewrite H2. apply Hlast. rewrite <- H3. unfold kinds. by rewrite <- fmap_delete, He, fmap_empty.
    - intros s' K1 K2 K3. apply wp_ret. split; [done|]. cbn. split; [by rewrite K2|]. rewrite <- H3. unfold kinds. by rewrite K3, fmap_delete. }
  destruct k as [mx|].
  - destruct (cached_kind s id mx Hk) as (a0 & l & Ho). apply wp_bind, (wp_get_obj _ _ _ _ Ho), wp_bind, (wp_flush_all id mx a0 l s); [done|done|].
    intros a s' H1 H2 H3 H4. assert (w_objs s' !! id = Some (Cached (Cache a [] mx))) as Ho' by (by rewrite H3, lookup_insert_eq).
    apply wp_bind, (wp_cache_of _ _ _ _ Ho'). by apply (Hw s' _ H1 H2 H4 Ho').
  - destruct (plain_kind s id Hk) as (a & Ho). apply wp_bind, (wp_get_obj _ _ _ _ Ho), wp_bind, (wp_get_obj _ _ _ _ Ho).
    by apply (Hw s _ Hs).
Qed.

Lemma nexec_ok op s : na_ok s → npre op (abs s) → refines op s.
Proof.
  destruct op; eauto using cache_ok, plain_ok, copy_ok, move_ok, destroy_ok, alloc_ok, alloc_n_ok, free_ok, free_n_ok,
    set_max_ok, flush_ok, swap_caches_ok, free_blocks_op_ok.
Qed.

(** What clients can reach from an empty segment. *)
Inductive reach : world → Prop :=
| reach_init : reach (World None ∅)
| reach_step s op r s' : reach s → npre op (abs s) → nexec op s = Ret (r, s') → reach s'.

Lemma reach_ok s : reach s → na_ok s.
Proof.
  induction 1 as [|s op r s' Hr IH Hp E]; [done|]. pose proof (nexec_ok op s IH Hp) as K. unfold refines, wp in K. rewrite E in K. apply K.
Qed.

(** C12: Any number of node allocators, with caches or without, that share a pool
    in a segment, whose clients keep to [npre]: they use live allocators, give back
    only nodes they have and all of them before the last allocator goes, and take
    single nodes from a cached allocator only if its limit is at least 2 (see
    [cache_of_one_faults]).  Then every operation returns without touching a pool
    that does not exist, hands out only nodes that no client has, takes back
    exactly the nodes it is given, and after an exception nothing is lost.  Each
    allocated node of the pool is with a client or in exactly one cache, no cache
    holds more nodes than its limit (one node if that is 0), the pool counts the
    allocators attached to it, and it exists exactly as long as there are any. *)
Theorem node_alloc_refines s (Hs : reach s) :
  (∀ op, npre op (abs s) → ∃ r s', nexec op s = Ret (r, s') ∧ npost op (abs s) r (abs s')) ∧
  (∀ a p, w_pool s = Some (a, p) →
     m_usecount p = Z.of_nat (size (w_objs s)) ∧ pool_out (np_impl p) = lent s ∪ cached_set (w_objs s)) ∧
  (w_pool s = None ↔ w_objs s = ∅) ∧
  (∀ id c, w_objs s !! id = Some (Cached c) →
     Z.of_nat (length (m_cached_nodes c)) <= Z.max 1 (m_max_cached_nodes c) ∧ NoDup (m_cached_nodes c) ∧
     (∀ n, n ∈ m_cached_nodes c → n ∉ lent s) ∧
     ∀ id' c' n, id ≠ id' → w_objs s !! id' = Some (Cached c') → n ∈ m_cached_nodes c → n ∉ m_cached_nodes c').
Proof.
  apply reach_ok in Hs. split_and!.
  - intros op Hp. pose proof (nexec_ok op s Hs Hp) as (r & s' & E & _ & K)%wp_run. eauto.
  - intros a p Ep. unfold na_ok, lent in *. rewrite Ep in *. destruct Hs as (H1 & _ & _ & _ & _ & H6). split; [done|].
    apply set_eq. intros x. destruct (decide (x ∈ cached_set (w_objs s))); set_solver.
  - unfold na_ok in Hs. destruct (w_pool s) as [[a p]|]; [|done]. split; [done|]. by destruct Hs as (_ & _ & ? & _).
  - intros id c Hc. destruct (focus s id _ Hs Hc) as (a & p & uc & _ & _ & _ & (_ & Hnd & _ & Hb) & _ & Hsp).
    split_and!; [done|done| |].
    + intros n Hn Hl. apply (so_Ll _ _ _ _ Hsp n Hl). by apply elem_nset.
    + intros id' c' n Hne Hc' Hn Hn'. apply (so_lR _ _ _ _ Hsp n); [by apply elem_nset|]. apply elem_cached.
      exists id', (Cached c'). by rewrite lookup_delete_ne.
Qed.

End props.

(** ** A pool that runs *)

(** Numbers are handed out in order, up to a limit. *)
#[local] Instance counter_pool : PoolImpl := {|
  pstate := gset Z * Z;
  pool_init := (∅, 0);
  impl_allocate_node p := if 20 <=? p.2 then (None, p) else (Some p.2, ({[p.2]} ∪ p.1, p.2 + 1));
  impl_allocate_nodes k p :=
    let l := (λ i, p.2 + Z.of_nat i) <$> seq 0 (Z.to_nat k) in
    if 20 <? p.2 + k then (None, p) else (Some l, (list_to_set l ∪ p.1, p.2 + k));
  impl_deallocate_node n p := (p.1 ∖ {[n]}, p.2);
  impl_deallocate_nodes l p := ([], (p.1 ∖ list_to_set l, p.2));
  impl_deallocate_free_blocks p := p;
  impl_purgeable p := bool_decide (p.1 = ∅)
|}.

#[local] Instance counter_pool_ok : PoolImplOk counter_pool.
Proof.
  refine (@Build_PoolImplOk counter_pool (λ p : gset Z * Z, ∀ x, x ∈ p.1 → x < p.2) (λ p : gset Z * Z, p.1) _ _ _ _ _ _ _).
  - by split.
  - intros [X n] r p' Hi. cbn in *. destruct (20 <=? n); intros [= <- <-]; [done|]. cbn. split; [set_solver by lia|].
    split; [|done]. intros Hx. specialize (Hi _ Hx). lia.
  - intros k [X n] r p' Hi Hk. cbn in *. destruct (20 <? n + k); intros [= <- <-]; [done|]. cbn.
    assert (∀ x, x ∈ (λ i, n + Z.of_nat i) <$> seq 0 (Z.to_nat k) → n <= x < n + k) as Hl.
    { intros x (i & -> & Hi'%elem_of_seq)%list_elem_of_fmap. lia. }
    split_and!; [|by rewrite length_fmap, length_seq; lia| | |done].
    + intros x [Hx%elem_of_list_to_set%Hl|Hx%Hi]%elem_of_union; lia.
    + apply NoDup_fmap; [intros ???; lia|apply NoDup_seq].
    + intros x Hx%elem_of_list_to_set%Hl Hx'%Hi. lia.
  - intros m [X n] Hi Hm. cbn in *. split; [set_solver|done].
  - intros l [X n] Hi Hd Hl. cbn in *. eexists. split; [done|]. cbn. split; [set_solver|done].
  - done.
  - intros [X n] _ He. cbn in *. by apply bool_decide_eq_true.
Defined.

(** A cached allocator was made, has taken two nodes and handed out one. *)
Definition demo_world : world := World (Some (4096, @NodePool counter_pool ({[0; 1]}, 2) 1)) {[ 0%nat := Cached (Cache 4096 [1] 4) ]}.

Lemma demo_reach : reach demo_world.
Proof.
  eapply (reach_step _ (NAlloc 0)); [eapply (reach_step _ (NCache 0 4 (Some 4096))); [apply reach_init| |by vm_compute]| |by vm_compute].
  - cbn. by split_and!.
  - right. exists 4. by vm_compute.
Qed.

Lemma node_alloc_refines_witness :
  reach demo_world ∧ lent demo_world = {[0]} ∧
  (∃ r s', nexec (NFree 0 0) demo_world = Ret (r, s') ∧ npost (NFree 0 0) (abs demo_world) r (abs s')) ∧
  (∃ r s', nexec (NPlain 1 None) demo_world = Ret (r, s') ∧ npost (NPlain 1 None) (abs demo_world) r (abs s')).
Proof.
  destruct (node_alloc_refines demo_world demo_reach) as (H1 & _).
  split_and!; [apply demo_reach|by vm_compute| |]; apply H1.
  - split; [by vm_compute; eauto|by vm_compute].
  - by split.
Defined.

(** A cache that may hold one node asks the pool for none and takes the first. *)
Lemma cache_of_one_faults :
  match nexec (NCache 0 1 (Some 4096)) (World None ∅) with
  | Ret (_, s) => nexec (NAlloc 0) s = Fault BadAccess
  | Fault _ => False
  end.
Proof. by vm_compute. Qed.
