(* ===== verification/MappedRegion.v ===== *)
(** Mapped regions.

    Models [mapped_region] of mapped_region.hpp on POSIX systems, with XSI shared
    memory.  An address space maps pages to pages of files.  The system calls are
    parameters: where [mmap] and [shmat] place a mapping and whether a call fails
    (class [MemOS], laws [MemOSOk]).  The options are [default_map_options]. *)

From S2P Require Import Prelude.

(** ** The address space *)

(** What a page of memory shows: a page of an object, writable or not, shared or
    private. *)
Record mapping := Mapping { mp_handle : Z; mp_page : Z; mp_write : bool; mp_shared : bool }.
Notation aspace := (gmap Z mapping).

Class MemOS := {
  page_size : Z;
  address_limit : Z;                                       (** addresses end here *)
  os_mmap : aspace → Z → Z → Z → Z → option Z;            (** address, length, handle and offset; [None] is [MAP_FAILED] *)
  os_munmap : aspace → Z → Z → bool;                      (** whether it returns 0 *)
  os_msync : aspace → Z → Z → bool → bool;
  os_fstat : Z → option Z;                                 (** the size of a file *)
  os_shmctl : Z → option Z;                                (** the size of a segment *)
  os_shmat : aspace → Z → Z → option Z                    (** address and handle *)
}.

Section mapped_region.
Context `{MemOS}.

(** The number of pages that hold [len] bytes from the start of a page. *)
Definition pages_of (len : Z) : Z := (len + page_size - 1) / page_size.

Definition map_pages (A : aspace) (base len handle offset : Z) (w sh : bool) : aspace :=
  map_seqZ (base / page_size) ((λ k, Mapping handle (offset / page_size + k) w sh) <$> seqZ 0 (pages_of len)) ∪ A.

Definition unmap_pages (A : aspace) (base len : Z) : aspace :=
  filter (λ '(k, _), ¬ (base / page_size <= k < base / page_size + pages_of len)) A.

(** ** Data *)

Inductive region_mode := read_only | read_write | copy_on_write | read_private | invalid_mode.

Record region := Region { m_base : Z; m_size : Z; m_page_offset : Z; m_mode : region_mode; m_is_xsi : bool }.

Inductive region_error := system_error | size_error | mode_error | busy_error.

(** A value of type [size_t] as [offset_t]. *)
Definition to_offset (x : Z) : Z := if x <? 9223372036854775808 then x else x - 18446744073709551616.

Local Open Scope u64_scope.

(** ** Private functions *)

Definition priv_map_address (r : region) : Z := m_base r - m_page_offset r.
Definition priv_map_size (r : region) : Z := m_size r +! m_page_offset r.

(** The address and the number of bytes to flush. *)
Definition priv_flush_param_check (mapping_offset numbytes : Z) (r : region) : option (Z * Z) :=
  if m_base r =? 0 then None
  else if (m_size r <=? mapping_offset) || (m_size r -! mapping_offset <? numbytes) then None
  else
    let numbytes := if numbytes =? 0 then m_size r -! mapping_offset else numbytes in
    Some (priv_map_address r + mapping_offset, numbytes +! m_page_offset r).

(** [shmdt] detaches the whole segment. *)
Definition detach (A : aspace) (base : Z) : aspace :=
  match A !! (base / page_size) with
  | Some m => unmap_pages A base (default 0 (os_shmctl (mp_handle m)))
  | None => A
  end.

Definition munmap (A : aspace) (base len : Z) : bool * aspace :=
  if os_munmap A base len then (true, unmap_pages A base len) else (false, A).

Definition priv_close (r : region) (A : aspace) : region * aspace :=
  if negb (m_base r =? 0) then
    if m_is_xsi r then (r, detach A (m_base r))
    else
      (Region 0 (m_size r) (m_page_offset r) (m_mode r) (m_is_xsi r),
       snd (munmap A (priv_map_address r) (priv_map_size r)))
  else (r, A).

(** The pages to release, where the check succeeds, and the new region. *)
Definition priv_shrink_param_check (bytes : Z) (from_back : bool) (r : region) (A : aspace) :
    option (Z * Z) * region * aspace :=
  if (m_base r =? 0) || (m_size r <? bytes) then (None, r, A)
  else if bytes =? m_size r then let '(r, A) := priv_close r A in (Some (0, 0), r, A)
  else if from_back then
    let new_pages := (m_size r +! m_page_offset r -! bytes -! 1) / page_size +! 1 in
    let shrink_page_start := priv_map_address r + u64 (new_pages * page_size) in
    let shrink_page_bytes := m_page_offset r +! m_size r -! new_pages *! page_size in
    (Some (shrink_page_start, shrink_page_bytes),
     Region (m_base r) (m_size r -! bytes) (m_page_offset r) (m_mode r) (m_is_xsi r), A)
  else
    let shrink_page_start := priv_map_address r in
    let page_offset := m_page_offset r +! bytes in
    let shrink_page_bytes := page_offset / page_size *! page_size in
    (Some (shrink_page_start, shrink_page_bytes),
     Region (m_base r + bytes) (m_size r -! bytes) (page_offset mod page_size) (m_mode r) (m_is_xsi r), A).

Definition priv_size_from_mapping_size (mapping_size offset page_offset : Z) : option Z :=
  if (mapping_size <? offset) || (u64_max <? u64 (mapping_size - (offset - page_offset))) then None
  else Some (u64 (mapping_size - offset)).

(** The distance from the start of a page, and the address moved back by it. *)
Definition priv_page_offset_addr_fixup (offset address : Z) : Z * Z :=
  let page_offset := u64 (offset - Z.quot offset page_size * page_size) in
  (to_offset page_offset, if negb (address =? 0) then address - page_offset else address).

(** ** Public functions *)

Definition default_region : region := Region 0 0 0 read_only false.

Definition xsi_region (handle : Z) (mode : region_mode) (size address : Z) (A : aspace) :
    (region + region_error) * aspace :=
  match os_shmctl handle with
  | None => (inr system_error, A)
  | Some segsz =>
      if negb (size =? 0) && negb (size =? segsz) then (inr size_error, A)
      else
        let attach (rdonly : bool) :=
          match os_shmat A address handle with
          | None => (inr system_error, A)
          | Some base => (inl (Region base segsz 0 mode true), map_pages A base segsz handle 0 (negb rdonly) true)
          end in
        match mode with
        | read_only => attach true
        | read_write => attach false
        | _ => (inr mode_error, A)
        end
  end.

(** Whether the pages of a mode are writable and shared. *)
Definition protection (mode : region_mode) : option (bool * bool) :=
  match mode with
  | read_only => Some (false, true)
  | read_private => Some (false, false)
  | read_write => Some (true, true)
  | copy_on_write => Some (true, false)
  | invalid_mode => None
  end.

Definition mapped_region_ctor (is_xsi : bool) (handle : Z) (mode : region_mode) (offset size address : Z) (A : aspace) :
    (region + region_error) * aspace :=
  if is_xsi then xsi_region handle mode size address A
  else
    let '(page_offset, address) := priv_page_offset_addr_fixup offset address in
    let sized :=
      if size =? 0 then
        match os_fstat handle with
        | None => inr system_error
        | Some st_size =>
            match priv_size_from_mapping_size st_size offset page_offset with None => inr size_error | Some size => inl size end
        end
      else inl size in
    match sized with
    | inr e => (inr e, A)
    | inl size =>
        match protection mode with
        | None => (inr mode_error, A)
        | Some (w, sh) =>
            let length := u64 page_offset +! size in
            match os_mmap A address length handle (offset - page_offset) with
            | None => (inr system_error, A)
            | Some base =>
                let A := map_pages A base length handle (offset - page_offset) w sh in
                let r := Region (base + page_offset) size (u64 page_offset) mode false in
                if negb (address =? 0) && negb (base =? address) then (inr busy_error, snd (priv_close r A)) else (inl r, A)
            end
        end
    end.

Definition mapped_region_dtor (r : region) (A : aspace) : aspace := snd (priv_close r A).

(** The regions after [swap], and after a move from the second to the first. *)
Definition region_swap (r r' : region) : region * region := (r', r).
Definition region_move_assign (r other : region) (A : aspace) : region * region * aspace :=
  let '(tmp, other) := region_swap default_region other in
  let '(r, tmp) := region_swap r tmp in
  (r, other, mapped_region_dtor tmp A).

Definition shrink_by (bytes : Z) (from_back : bool) (r : region) (A : aspace) : bool * region * aspace :=
  if m_is_xsi r then (false, r, A)
  else
    let '(checked, r, A) := priv_shrink_param_check bytes from_back r A in
    match checked with
    | None => (false, r, A)
    | Some (start, n) => if nz n then let '(ok, A) := munmap A start n in (ok, r, A) else (true, r, A)
    end.

Definition flush (mapping_offset numbytes : Z) (async : bool) (r : region) (A : aspace) : bool :=
  if m_is_xsi r then false
  else
    match priv_flush_param_check mapping_offset numbytes r with
    | None => false
    | Some (addr, n) => os_msync A addr n async
    end.

End mapped_region.
