(* ===== verification/MappedRegionProps.v ===== *)
(** Mapped regions show the bytes of their object, and give back what they map. *)

From S2P Require Import Prelude MappedRegion.

(** ** The system calls *)

(** A mapping is placed on pages that are free, and never moved; ranges of whole
    pages inside of the address space can be unmapped. *)
Class MemOSOk (O : MemOS) := {
  page_size_ok : 0 < page_size ∧ page_size <= 2 ^ 30;
  address_limit_ok : address_limit <= 2 ^ 62;
  mmap_ok A address len handle offset base : os_mmap A address len handle offset = Some base →
    0 < len ∧ 0 < base ∧ base mod page_size = 0 ∧ base + pages_of len * page_size <= address_limit ∧
    ∀ k, base / page_size <= k < base / page_size + pages_of len → A !! k = None;
  munmap_ok A addr len : addr mod page_size = 0 → 0 < addr → 0 < len → addr + len <= address_limit → os_munmap A addr len = true;
  fstat_ok handle n : os_fstat handle = Some n → 0 <= n < 2 ^ 62;
  shmctl_ok handle n : os_shmctl handle = Some n → 0 < n < 2 ^ 62;
  shmat_ok A address handle n base : os_shmctl handle = Some n → os_shmat A address handle = Some base →
    0 < base ∧ base mod page_size = 0 ∧ base + pages_of n * page_size <= address_limit ∧ (address ≠ 0 → base = address) ∧
    ∀ k, base / page_size <= k < base / page_size + pages_of n → A !! k = None
}.

Section props.
Context `{OOk : MemOSOk}.

(** ** Pages *)

Lemma page_size_ne : page_size ≠ 0.
Proof. destruct page_size_ok. lia. Qed.

Lemma pages_of_spec len : 0 <= len → 0 <= pages_of len ∧ len <= pages_of len * page_size < len + page_size.
Proof.
  intros Hl. destruct page_size_ok as [Hp _]. unfold pages_of.
  pose proof (Z.div_mod (len + page_size - 1) page_size page_size_ne). pose proof (Z.mod_pos_bound (len + page_size - 1) page_size Hp).
  split; [apply Z.div_pos; lia|lia].
Qed.

Lemma pages_pos len : 0 < len → 0 < pages_of len.
Proof. intros Hl. destruct page_size_ok as [Hp _]. destruct (pages_of_spec len ltac:(lia)) as [H1 H2]. nia. Qed.

Lemma pages_unique n len : 0 <= len → len <= n * page_size < len + page_size → pages_of len = n.
Proof. intros Hl Hn. destruct page_size_ok as [Hp _]. destruct (pages_of_spec len Hl) as [H1 H2]. nia. Qed.

(** The page of an address. *)
Lemma page_of base k i : base mod page_size = 0 → 0 <= i < page_size →
  (base + k * page_size + i) / page_size = base / page_size + k ∧ (base + k * page_size + i) mod page_size = i.
Proof.
  intros Hb Hi. destruct page_size_ok as [Hp _]. pose proof (Z.div_mod base page_size page_size_ne) as E. rewrite Hb in E.
  replace (base + k * page_size + i) with (i + (base / page_size + k) * page_size) by lia.
  rewrite Z.div_add, Z.mod_add, Z.div_small, Z.mod_small by lia. lia.
Qed.

Lemma lookup_map_pages A base len h off w sh k : 0 <= len →
  map_pages A base len h off w sh !! k =
    if decide (base / page_size <= k < base / page_size + pages_of len)
    then Some (Mapping h (off / page_size + (k - base / page_size)) w sh) else A !! k.
Proof.
  intros Hl. unfold map_pages. case_decide as Hk.
  - apply lookup_union_Some_l, lookup_map_seqZ_Some. split; [lia|]. rewrite list_lookup_fmap.
    rewrite lookup_seqZ_lt by lia. cbn. do 2 f_equal. lia.
  - rewrite lookup_union_r; [done|]. apply lookup_map_seqZ_None. rewrite length_fmap, length_seqZ. lia.
Qed.

Lemma lookup_unmap_pages A base len k :
  unmap_pages A base len !! k = if decide (base / page_size <= k < base / page_size + pages_of len) then None else A !! k.
Proof.
  unfold unmap_pages. case_decide as Hk.
  - apply map_lookup_filter_None. right. naive_solver.
  - destruct (A !! k) eqn:E.
    + by apply map_lookup_filter_Some.
    + apply map_lookup_filter_None. by left.
Qed.

Lemma unmap_map A base len h off w sh : 0 <= len → (∀ k, base / page_size <= k < base / page_size + pages_of len → A !! k = None) →
  unmap_pages (map_pages A base len h off w sh) base len = A.
Proof.
  intros Hl Hf. apply map_eq. intros k. rewrite lookup_unmap_pages, lookup_map_pages by done. repeat case_decide; try done.
  symmetry. by apply Hf.
Qed.

(** ** What a region shows *)

(** The byte of an object behind an address. *)
Definition translate (A : aspace) (a : Z) : option (Z * Z * bool * bool) :=
  m ← A !! (a / page_size); Some (mp_handle m, mp_page m * page_size + a mod page_size, mp_write m, mp_shared m).

(** The addresses of the region are the bytes of the object from [off] on. *)
Definition shows (A : aspace) (r : region) (h off : Z) (w sh : bool) : Prop :=
  ∀ i, 0 <= i < m_size r → translate A (m_base r + i) = Some (h, off + i, w, sh).

(** The first page of a region and the number of its pages. *)
Definition first_page (r : region) : Z := priv_map_address r / page_size.
Definition num_pages (r : region) : Z := pages_of (m_page_offset r + m_size r).
Definition in_region (r : region) (k : Z) : Prop := first_page r <= k < first_page r + num_pages r.
#[global] Instance in_region_dec r k : Decision (in_region r k).
Proof. unfold in_region. apply _. Defined.

(** The region owns its pages. *)
Record region_rep (A : aspace) (r : region) (h off : Z) (w sh : bool) : Prop := {
  rr_pos : 0 < priv_map_address r;
  rr_align : priv_map_address r mod page_size = 0;
  rr_offset : 0 <= m_page_offset r < page_size;
  rr_size : 0 <= m_size r ∧ 0 < m_page_offset r + m_size r;
  rr_limit : priv_map_address r + num_pages r * page_size <= address_limit;
  rr_file : (off - m_page_offset r) mod page_size = 0;
  rr_pages : ∀ k, in_region r k → A !! k = Some (Mapping h ((off - m_page_offset r) / page_size + (k - first_page r)) w sh)
}.

Lemma rep_shows A r h off w sh : region_rep A r h off w sh → shows A r h off w sh.
Proof.
  intros Hr i Hi. destruct page_size_ok as [Hp _]. destruct Hr as [H1 H2 H3 H4 H5 H6 H7].
  set (j := (m_page_offset r + i) / page_size). set (d := (m_page_offset r + i) mod page_size).
  pose proof (Z.div_mod (m_page_offset r + i) page_size page_size_ne) as E. fold j d in E.
  pose proof (Z.mod_pos_bound (m_page_offset r + i) page_size Hp) as Hd. fold d in Hd.
  assert (m_base r + i = priv_map_address r + j * page_size + d) as -> by (unfold priv_map_address; lia).
  destruct (page_of (priv_map_address r) j d H2 Hd) as [P1 P2]. unfold translate. rewrite P1, P2.
  assert (0 <= j) by (apply Z.div_pos; lia). destruct (pages_of_spec (m_page_offset r + m_size r) ltac:(lia)) as [Q1 Q2].
  rewrite H7 by (unfold in_region, first_page, num_pages; nia). cbn. do 4 f_equal. unfold first_page.
  pose proof (Z.div_mod (off - m_page_offset r) page_size page_size_ne) as F. rewrite H6 in F. nia.
Qed.

Lemma map_size_ok A r h off w sh : region_rep A r h off w sh → priv_map_size r = m_page_offset r + m_size r ∧
  0 < m_page_offset r + m_size r <= address_limit.
Proof.
  intros [H1 H2 H3 H4 H5 H6 H7]. pose proof address_limit_ok. destruct (pages_of_spec (m_page_offset r + m_size r) ltac:(lia)) as [Q1 Q2].
  unfold num_pages in H5. split; [|lia]. unfold priv_map_size. rewrite u64_small; [lia|]. unfold in_u64. lia.
Qed.

(** Unmapping a part of the region that begins with a page. *)
Lemma munmap_part A r h off w sh s n : region_rep A r h off w sh → s mod page_size = 0 → priv_map_address r <= s → 0 < n →
  s + n <= priv_map_address r + (m_page_offset r + m_size r) → munmap A s n = (true, unmap_pages A s n).
Proof.
  intros [H1 H2 H3 H4 H5 H6 H7] Hs Hle Hn Hend. unfold munmap. destruct (pages_of_spec (m_page_offset r + m_size r) ltac:(lia)) as [Q1 Q2].
  unfold num_pages in H5. rewrite munmap_ok; [done|done|lia|lia|lia].
Qed.

Lemma close_rep A r h off w sh : region_rep A r h off w sh → m_is_xsi r = false →
  priv_close r A = (Region 0 (m_size r) (m_page_offset r) (m_mode r) false, unmap_pages A (priv_map_address r) (m_page_offset r + m_size r)).
Proof.
  intros Hr Hx. destruct (map_size_ok _ _ _ _ _ _ Hr) as [Es Hs]. pose proof (rr_pos _ _ _ _ _ _ Hr). pose proof (rr_offset _ _ _ _ _ _ Hr).
  unfold priv_close. rewrite Hx. destruct (Z.eqb_spec (m_base r) 0) as [E|]; [unfold priv_map_address in *; lia|]. cbn.
  rewrite Es, (munmap_part A r h off w sh) by (done || lia || apply Hr). done.
Qed.
(** ** Construction *)

Lemma fixup_spec offset address : 0 <= offset →
  priv_page_offset_addr_fixup offset address =
    (offset mod page_size, if negb (address =? 0) then address - offset mod page_size else address) ∧
  0 <= offset mod page_size < 2 ^ 30.
Proof.
  intros Ho. destruct page_size_ok as [Hp Hp']. pose proof (Z.mod_pos_bound offset page_size Hp) as Hm. unfold priv_page_offset_addr_fixup.
  assert (offset - Z.quot offset page_size * page_size = offset mod page_size) as ->.
  { rewrite Z.quot_div_nonneg by lia. rewrite Z.mod_eq by lia. lia. }
  rewrite u64_small by (unfold in_u64; lia). unfold to_offset. destruct (Z.ltb_spec (offset mod page_size) 9223372036854775808); [|lia].
  split; [done|lia].
Qed.

Lemma offset_page offset : (offset - offset mod page_size) mod page_size = 0.
Proof.
  rewrite <- (Zminus_mod_idemp_l offset). rewrite Z.sub_diag. apply Zmod_0_l.
Qed.

(** A new mapping represents its region. *)
Lemma map_rep A base len po off size h w sh mode xsi : 0 < base → base mod page_size = 0 → base + pages_of len * page_size <= address_limit →
  len = po + size → 0 < len → 0 <= po < page_size → 0 <= size → (off - po) mod page_size = 0 →
  region_rep (map_pages A base len h (off - po) w sh) (Region (base + po) size po mode xsi) h off w sh ∧
  priv_map_address (Region (base + po) size po mode xsi) = base.
Proof.
  intros H1 H2 H3 -> H5 H6 H7 H8. assert (priv_map_address (Region (base + po) size po mode xsi) = base) as E by (unfold priv_map_address; cbn; lia).
  split; [|done]. split; cbn; rewrite ?E; try done; try lia.
  intros k Hk. unfold in_region, first_page, num_pages in Hk. rewrite E in Hk. cbn in Hk. rewrite lookup_map_pages by lia.
  unfold first_page. rewrite E. by rewrite decide_True.
Qed.

Lemma detach_map A base n h w sh : 0 < n → os_shmctl h = Some n →
  (∀ k, base / page_size <= k < base / page_size + pages_of n → A !! k = None) →
  detach (map_pages A base n h 0 w sh) base = A.
Proof.
  intros Hn Hs Hf. unfold detach. pose proof (pages_pos n Hn). rewrite lookup_map_pages by lia. rewrite decide_True by lia. cbn.
  rewrite Hs. cbn. apply unmap_map; [lia|done].
Qed.

Lemma map_extends A base len h off w sh : 0 <= len → (∀ k, base / page_size <= k < base / page_size + pages_of len → A !! k = None) →
  A ⊆ map_pages A base len h off w sh.
Proof.
  intros Hl Hf. apply map_subseteq_spec. intros k m Hk. rewrite lookup_map_pages by done. case_decide as Hd; [|done].
  by rewrite (Hf k Hd) in Hk.
Qed.

(** What the constructor is to make: where the region begins in the object, how
    long it is and what its pages allow. *)
Definition wanted_size (is_xsi : bool) (handle offset size : Z) : Z :=
  if negb (size =? 0) then size
  else if is_xsi then default 0 (os_shmctl handle) else default 0 (os_fstat handle) - offset.

(** Why the constructor may throw. *)
Definition error_cause (e : region_error) (is_xsi : bool) (handle : Z) (mode : region_mode) (offset size address : Z) (A : aspace) : Prop :=
  let po := offset mod page_size in
  let hint := if negb (address =? 0) then address - po else address in
  let placed := os_mmap A hint (po + wanted_size is_xsi handle offset size) handle (offset - po) in
  match e with
  | system_error => if is_xsi then os_shmctl handle = None ∨ os_shmat A address handle = None
                    else (size = 0 ∧ os_fstat handle = None) ∨ placed = None
  | size_error => if is_xsi then size ≠ 0 ∧ os_shmctl handle ≠ Some size else size = 0 ∧ default 0 (os_fstat handle) < offset
  | mode_error => if is_xsi then mode ≠ read_only ∧ mode ≠ read_write else mode = invalid_mode
  | busy_error => is_xsi = false ∧ address ≠ 0 ∧ ∃ base, placed = Some base ∧ base + po ≠ address
  end.

Definition constructed (is_xsi : bool) (handle : Z) (mode : region_mode) (offset size address : Z) (A : aspace)
    (res : (region + region_error) * aspace) : Prop :=
  match res with
  | (inl r, A') =>
      ∃ w sh, protection mode = Some (w, sh) ∧
      shows A' r handle (if is_xsi then 0 else offset) w sh ∧ region_rep A' r handle (if is_xsi then 0 else offset) w sh ∧
      m_size r = wanted_size is_xsi handle offset size ∧ (address ≠ 0 → m_base r = address) ∧ m_mode r = mode ∧
      A ⊆ A' ∧ mapped_region_dtor r A' = A
  | (inr e, A') => A' = A ∧ error_cause e is_xsi handle mode offset size address A
  end.

Lemma xsi_ok handle mode offset size address A : 0 <= size →
  constructed true handle mode offset size address A (xsi_region handle mode size address A).
Proof.
  intros Hsz. unfold xsi_region. destruct (os_shmctl handle) as [n|] eqn:Ec; [|by split; [|left]].
  pose proof (shmctl_ok _ _ Ec) as Hn. destruct page_size_ok as [Hp _].
  destruct (negb (size =? 0) && negb (size =? n)) eqn:Es.
  { split; [done|]. cbn. rewrite Ec. apply andb_true_iff in Es as [E1%negb_true_iff E2%negb_true_iff]. split; [lia|]. intros [= E]. lia. }
  assert (wanted_size true handle offset size = n) as Ew.
  { unfold wanted_size. rewrite Ec. destruct (Z.eqb_spec size 0); [done|]. cbn in *. destruct (Z.eqb_spec size n); [done|discriminate]. }
  assert (∀ rdonly w, w = negb rdonly → protection mode = Some (w, true) →
    constructed true handle mode offset size address A
      match os_shmat A address handle with
      | None => (inr system_error, A)
      | Some base => (inl (Region base n 0 mode true), map_pages A base n handle 0 w true)
      end) as Hat.
  { intros rdonly w -> Hpr. destruct (os_shmat A address handle) as [base|] eqn:Ea; [|by split; [|right]].
    destruct (shmat_ok _ _ _ _ _ Ec Ea) as (B1 & B2 & B3 & B4 & B5). exists (negb rdonly), true.
    destruct (map_rep A base n 0 0 n handle (negb rdonly) true mode true) as [R1 R2]; try done; try lia.
    rewrite Z.add_0_r in R1, R2. rewrite Ew. split_and!; [done|by apply rep_shows|done|done|by intros; apply B4|done| |].
    - by apply map_extends; [lia|].
    - unfold mapped_region_dtor, priv_close. cbn. destruct (Z.eqb_spec base 0); [lia|]. cbn. apply detach_map; [lia|done|done]. }
  destruct mode; try (by split; [|split]); [by apply (Hat true)|by apply (Hat false)].
Qed.

Lemma posix_ok handle mode offset size address A : 0 <= offset < 2 ^ 62 → 0 <= size < 2 ^ 62 →
  address = 0 ∨ page_size <= address →
  constructed false handle mode offset size address A (mapped_region_ctor false handle mode offset size address A).
Proof.
  intros Ho Hsz Haddr. unfold mapped_region_ctor. destruct (fixup_spec offset address ltac:(lia)) as [-> Hpo].
  destruct page_size_ok as [Hp _]. pose proof (Z.mod_pos_bound offset page_size Hp) as Hpo'.
  set (po := offset mod page_size) in *. set (hint := if negb (address =? 0) then address - po else address).
  set (sized := if size =? 0 then _ else _).
  assert (match sized with
          | inr e => error_cause e false handle mode offset size address A
          | inl n => n = wanted_size false handle offset size ∧ 0 <= n < 2 ^ 62
          end) as Hsized.
  { subst sized. unfold wanted_size. destruct (Z.eqb_spec size 0) as [E0|Hne]; cbn; [|done].
    destruct (os_fstat handle) as [st|] eqn:Ef; [|left; done]. pose proof (fstat_ok _ _ Ef) as Hst. unfold priv_size_from_mapping_size.
    destruct (Z.ltb_spec st offset) as [Hlt|Hge]; cbn; [rewrite Ef; by split|].
    rewrite u64_small by (unfold in_u64; lia). destruct (Z.ltb_spec u64_max (st - (offset - po))); [unfold u64_max in *; lia|].
    rewrite u64_small by (unfold in_u64; lia). lia. }
  destruct sized as [n|e]; [|done]. destruct Hsized as [-> Hn]. set (n := wanted_size false handle offset size) in *.
  destruct (protection mode) as [[w sh]|] eqn:Epr; [|by destruct mode].
  rewrite (u64_small po) by (unfold in_u64; lia). rewrite (u64_small (po + n)) by (unfold in_u64; lia).
  destruct (os_mmap A hint (po + n) handle (offset - po)) as [base|] eqn:Em; [|by split; [|right]].
  destruct (mmap_ok _ _ _ _ _ _ Em) as (B1 & B2 & B3 & B4 & B5).
  destruct (map_rep A base (po + n) po offset n handle w sh mode false) as [R1 R2]; try done; try lia; [apply offset_page|].
  assert (mapped_region_dtor (Region (base + po) n po mode false) (map_pages A base (po + n) handle (offset - po) w sh) = A) as Hd.
  { unfold mapped_region_dtor. rewrite (close_rep _ _ _ _ _ _ R1) by done. cbn [snd m_page_offset m_size]. rewrite R2. by apply unmap_map; [lia|]. }
  assert (address ≠ 0 → hint = address - po) as Hhint by (unfold hint; by destruct (Z.eqb_spec address 0)).
  assert (address = 0 → hint = 0) as Hhint0 by (unfold hint; by intros ->).
  destruct (negb (hint =? 0) && negb (base =? hint)) eqn:Eb.
  - split; [exact Hd|]. apply andb_true_iff in Eb as [E1%negb_true_iff%Z.eqb_neq E2%negb_true_iff%Z.eqb_neq].
    destruct (decide (address = 0)) as [|Ha]; [by specialize (Hhint0 ltac:(done))|]. specialize (Hhint Ha).
    split_and!; [done|done|]. exists base. split; [exact Em|]. fold po. lia.
  - exists w, sh. split_and!; [done|by apply rep_shows|done|done| |done|by apply map_extends; [lia|]|done].
    intros Ha. specialize (Hhint Ha). cbn. destruct (Z.eqb_spec hint 0); [lia|]. destruct (Z.eqb_spec base hint); [lia|done].
Qed.

(** C15: The constructor of a mapped region, for files and XSI segments: if it
    succeeds, every address of the region shows the byte of the object at the same
    distance from the requested offset, writable and shared as the mode says; the
    region has the requested size (or that of the rest of the object) and address;
    other mappings are untouched, and destroying the region restores the address
    space.  If it throws, the address space is what it was, and the error tells the
    cause: a failed system call, an offset behind the end or a size that is not the
    segment's, a mode that does not exist, or an address the system did not grant.
    Offset and size are not negative and below [2^62] (see [construct_wraps]), and an
    address asked for does not lie in the first page. *)
Theorem mapped_region_constructs is_xsi handle mode offset size address A
    (Ho : 0 <= offset < 2 ^ 62) (Hs : 0 <= size < 2 ^ 62) (Ha : address = 0 ∨ page_size <= address) :
  constructed is_xsi handle mode offset size address A (mapped_region_ctor is_xsi handle mode offset size address A).
Proof. destruct is_xsi; [apply xsi_ok; lia|by apply posix_ok]. Qed.

(** ** Shrinking and flushing *)

Lemma pages_add n len : 0 <= n → 0 <= len → pages_of (n * page_size + len) = n + pages_of len.
Proof.
  intros Hn Hl. unfold pages_of. replace (n * page_size + len + page_size - 1) with (len + page_size - 1 + n * page_size) by lia.
  rewrite Z.div_add by apply page_size_ne. lia.
Qed.

Lemma pages_ceil len : 0 < len → (len - 1) / page_size + 1 = pages_of len.
Proof.
  intros Hl. unfold pages_of. replace (len + page_size - 1) with (len - 1 + 1 * page_size) by lia. by rewrite Z.div_add by apply page_size_ne.
Qed.

(** The pages of the old region that the new one does not have are unmapped, and
    nothing else. *)
Definition released (A A' : aspace) (r r' : region) : Prop :=
  ∀ k, A' !! k = if decide (in_region r k ∧ ¬ in_region r' k) then None else A !! k.

Lemma released_rep A A' r r' h off off' w sh : region_rep A r h off w sh → released A A' r r' →
  m_base r' - m_page_offset r' = m_base r - m_page_offset r + (first_page r' - first_page r) * page_size →
  off' - m_page_offset r' = off - m_page_offset r + (first_page r' - first_page r) * page_size →
  0 <= first_page r' - first_page r → first_page r' + num_pages r' <= first_page r + num_pages r →
  0 <= m_page_offset r' < page_size → 0 < m_size r' → region_rep A' r' h off' w sh.
Proof.
  intros [H1 H2 H3 H4 H5 H6 H7] Hrel Eb Eo Hf Hend Hpo Hsz. destruct page_size_ok as [Hp _]. unfold priv_map_address in *.
  split; unfold priv_map_address; rewrite ?Eb, ?Eo; try done; try lia.
  - nia.
  - by rewrite Z.mod_add by lia.
  - unfold priv_map_address in *. nia.
  - by rewrite Z.mod_add by lia.
  - intros k Hk. rewrite (Hrel k), decide_False by tauto. rewrite H7 by (unfold in_region in *; lia).
    rewrite Z.div_add by lia. do 2 f_equal. lia.
Qed.

Lemma released_none A r r' : first_page r' = first_page r → num_pages r' = num_pages r → released A A r r'.
Proof. intros E1 E2 k. rewrite decide_False; [done|]. unfold in_region. rewrite E1, E2. tauto. Qed.

Lemma released_pages A r r' s n : s / page_size + pages_of n = first_page r + num_pages r ∧ s / page_size = first_page r' + num_pages r' ∧
    first_page r' = first_page r ∨
  s / page_size = first_page r ∧ first_page r + pages_of n = first_page r' ∧ first_page r' + num_pages r' = first_page r + num_pages r →
  0 <= pages_of n → 0 <= num_pages r' → released A (unmap_pages A s n) r r'.
Proof.
  intros Hcase Hn Hr k. rewrite lookup_unmap_pages. unfold in_region. destruct Hcase as [(E1 & E2 & E3)|(E1 & E2 & E3)].
  all: repeat case_decide; try done; exfalso; lia.
Qed.

Definition shrunk (from_back : bool) (bytes : Z) (r : region) : region :=
  if from_back then Region (m_base r) (m_size r - bytes) (m_page_offset r) (m_mode r) (m_is_xsi r)
  else Region (m_base r + bytes) (m_size r - bytes) ((m_page_offset r + bytes) mod page_size) (m_mode r) (m_is_xsi r).

Lemma shrink_back A r h off w sh bytes : region_rep A r h off w sh → m_is_xsi r = false → 0 < bytes < m_size r →
  pages_of (m_page_offset r + m_size r - bytes) * page_size <= m_page_offset r + m_size r →
  ∃ A', shrink_by bytes true r A = (true, shrunk true bytes r, A') ∧ released A A' r (shrunk true bytes r).
Proof.
  intros Hr Hx Hb Hfit. destruct (map_size_ok _ _ _ _ _ _ Hr) as [Es Hs]. pose proof address_limit_ok. pose proof page_size_ok as [Hp Hp'].
  pose proof Hr as [H1 H2 H3 H4 H5 H6 H7].
  set (len := m_page_offset r + m_size r - bytes) in *. set (np := pages_of len) in *.
  destruct (pages_of_spec len ltac:(lia)) as [N1 N2]. fold np in N1, N2.
  assert (priv_shrink_param_check bytes true r A =
    (Some (priv_map_address r + np * page_size, m_page_offset r + m_size r - np * page_size), shrunk true bytes r, A)) as E.
  { unfold priv_shrink_param_check. destruct (Z.eqb_spec (m_base r) 0) as [E0|]; [unfold priv_map_address in *; lia|].
    destruct (Z.ltb_spec (m_size r) bytes); [lia|]. destruct (Z.eqb_spec bytes (m_size r)); [lia|]. cbn [orb].
    rewrite (u64_small (m_size r + m_page_offset r)) by u64_side. rewrite (u64_small (m_size r + m_page_offset r - bytes)) by u64_side.
    rewrite (u64_small (_ - 1)) by u64_side. replace (m_size r + m_page_offset r - bytes - 1) with (len - 1) by lia.
    rewrite (pages_ceil len) by lia. fold np. rewrite (u64_small np) by (unfold in_u64; nia). rewrite (u64_small (np * page_size)) by u64_side.
    rewrite (u64_small (m_page_offset r + m_size r)) by u64_side. rewrite (u64_small (_ - np * page_size)) by u64_side.
    rewrite (u64_small (m_size r - bytes)) by u64_side. done. }
  unfold shrink_by. rewrite Hx, E. set (n := m_page_offset r + m_size r - np * page_size) in *.
  assert (num_pages r = np + pages_of n) as En.
  { unfold num_pages. rewrite <- pages_add by lia. f_equal. lia. }
  assert (num_pages (shrunk true bytes r) = np) as En'.
  { unfold num_pages, shrunk. cbn. fold np len. f_equal. lia. }
  assert ((priv_map_address r + np * page_size) / page_size = first_page r + np) as Ef by (by rewrite Z.div_add by lia).
  unfold nz. destruct (Z.eqb_spec n 0) as [E0|Hne]; cbn [negb].
  - eexists. split; [done|]. apply released_none; [done|]. rewrite En', En, E0. change 0 with (0 * page_size + 0).
    assert (pages_of 0 = 0) as E00 by (apply pages_unique; lia). rewrite Z.mul_0_l, Z.add_0_l, E00. lia.
  - rewrite (munmap_part A r h off w sh); [|done|by rewrite Z.mod_add by lia|nia|lia|lia].
    eexists. split; [done|]. apply released_pages; [left|apply pages_of_spec; lia|lia]. rewrite Ef, En, En'. split_and!; [lia| |done].
    unfold first_page, shrunk, priv_map_address. cbn. done.
Qed.

Lemma shrink_front A r h off w sh bytes : region_rep A r h off w sh → m_is_xsi r = false → 0 < bytes < m_size r →
  ∃ A', shrink_by bytes false r A = (true, shrunk false bytes r, A') ∧ released A A' r (shrunk false bytes r) ∧
    first_page (shrunk false bytes r) = first_page r + (m_page_offset r + bytes) / page_size.
Proof.
  intros Hr Hx Hb. destruct (map_size_ok _ _ _ _ _ _ Hr) as [Es Hs]. pose proof address_limit_ok. pose proof page_size_ok as [Hp Hp'].
  pose proof Hr as [H1 H2 H3 H4 H5 H6 H7].
  set (po := m_page_offset r + bytes). set (m := po / page_size). pose proof (Z.div_mod po page_size page_size_ne) as Ed. fold m in Ed.
  pose proof (Z.mod_pos_bound po page_size Hp) as Hm. assert (0 <= m) as Hm0 by (apply Z.div_pos; lia).
  assert (priv_shrink_param_check bytes false r A = (Some (priv_map_address r, m * page_size), shrunk false bytes r, A)) as E.
  { unfold priv_shrink_param_check. destruct (Z.eqb_spec (m_base r) 0) as [E0|]; [unfold priv_map_address in *; lia|].
    destruct (Z.ltb_spec (m_size r) bytes); [lia|]. destruct (Z.eqb_spec bytes (m_size r)); [lia|]. cbn [orb].
    rewrite (u64_small (m_page_offset r + bytes)) by u64_side. fold po. fold m. rewrite (u64_small (m * page_size)) by (unfold in_u64; nia).
    rewrite (u64_small (m_size r - bytes)) by u64_side. done. }
  assert (pages_of (m * page_size) = m) as Em by (apply pages_unique; nia).
  assert (priv_map_address (shrunk false bytes r) = priv_map_address r + m * page_size) as Ea.
  { unfold priv_map_address, shrunk. cbn. fold po. unfold priv_map_address in *. lia. }
  assert (first_page (shrunk false bytes r) = first_page r + m) as Ef.
  { unfold first_page. rewrite Ea. by rewrite Z.div_add by lia. }
  assert (num_pages r = m + num_pages (shrunk false bytes r)) as En.
  { unfold num_pages, shrunk. cbn. fold po. rewrite <- pages_add by lia. f_equal. lia. }
  unfold shrink_by. rewrite Hx, E. unfold nz. destruct (Z.eqb_spec (m * page_size) 0) as [E0|Hne]; cbn [negb].
  - assert (m = 0) as -> by nia. eexists. split_and!; [done| |done]. apply released_none; lia.
  - rewrite (munmap_part A r h off w sh); [|done|done|lia|nia|nia]. eexists. split_and!; [done| |done].
    apply released_pages; [right; fold (first_page r); lia|lia|]. apply pages_of_spec. cbn. fold po. lia.
Qed.

(** C28: Shrinking and flushing a region that shows an object.  [shrink_by] with
    fewer bytes than the region has, from the front or (where the pages kept end
    inside of the mapping) from the back, succeeds: the addresses that are left show
    the same bytes as before, and exactly the pages without such an address are
    given back.  With all bytes it closes the region, with more it fails without
    effect.  [flush] fails for ranges outside of the region; for the others it
    returns what the system's [msync] does for a range inside of the region's pages
    that ends with the requested one and begins at most a page before it.  That
    range begins with a page, as [msync] demands, exactly if the offset of the
    request is a multiple of the page size. *)
Theorem mapped_region_shrinks A r h off w sh bytes (from_back : bool)
    (Hr : region_rep A r h off w sh) (Hx : m_is_xsi r = false) (Hb : 0 < bytes) :
  (bytes < m_size r →
   (from_back = true → pages_of (m_page_offset r + m_size r - bytes) * page_size <= m_page_offset r + m_size r) →
   ∃ r' A', shrink_by bytes from_back r A = (true, r', A') ∧ m_size r' = m_size r - bytes ∧
     m_base r' = m_base r + (if from_back then 0 else bytes) ∧ shows A' r' h (off + if from_back then 0 else bytes) w sh ∧
     region_rep A' r' h (off + if from_back then 0 else bytes) w sh ∧ released A A' r r') ∧
  (bytes = m_size r → ∃ r' A', shrink_by bytes from_back r A = (true, r', A') ∧ m_base r' = 0 ∧
     ∀ k, A' !! k = if decide (in_region r k) then None else A !! k) ∧
  (m_size r < bytes → shrink_by bytes from_back r A = (false, r, A)) ∧
  (∀ mapping_offset numbytes async, 0 <= mapping_offset → 0 <= numbytes →
     (m_size r <= mapping_offset ∨ m_size r < mapping_offset + numbytes →
        flush mapping_offset numbytes async r A = false) ∧
     (mapping_offset < m_size r → mapping_offset + numbytes <= m_size r →
        ∃ addr n, flush mapping_offset numbytes async r A = os_msync A addr n async ∧
          addr + n = m_base r + (if numbytes =? 0 then m_size r else mapping_offset + numbytes) ∧
          m_base r + mapping_offset - page_size < addr <= m_base r + mapping_offset ∧ priv_map_address r <= addr ∧
          (addr mod page_size = 0 ↔ mapping_offset mod page_size = 0))).
Proof.
  destruct (map_size_ok _ _ _ _ _ _ Hr) as [Es Hs]. pose proof address_limit_ok. pose proof page_size_ok as [Hp Hp'].
  pose proof Hr as [H1 H2 H3 H4 H5 H6 H7]. split_and!.
  - intros Hlt Hfit. destruct from_back.
    + destruct (shrink_back A r h off w sh bytes) as (A' & E & Hrel); try done; [by apply Hfit|].
      exists (shrunk true bytes r), A'. assert (region_rep A' (shrunk true bytes r) h (off + 0) w sh) as K.
      { assert (first_page (shrunk true bytes r) = first_page r) as Ef by done.
        apply (released_rep A A' r _ h off); try done; rewrite ?Ef; [cbn; lia|cbn; lia|lia| |cbn; lia].
        destruct (pages_of_spec (m_page_offset r + m_size r - bytes) ltac:(lia)) as [N1 N2].
        destruct (pages_of_spec (m_page_offset r + m_size r) ltac:(lia)) as [N3 N4]. unfold first_page, num_pages, shrunk, priv_map_address. cbn.
        replace (m_page_offset r + (m_size r - bytes)) with (m_page_offset r + m_size r - bytes) by lia. nia. }
      split_and!; [done|done|cbn; lia|by apply rep_shows|done|done].
    + destruct (shrink_front A r h off w sh bytes) as (A' & E & Hrel & Ef); try done. exists (shrunk false bytes r), A'.
      pose proof (Z.div_mod (m_page_offset r + bytes) page_size page_size_ne) as Ed.
      pose proof (Z.mod_pos_bound (m_page_offset r + bytes) page_size Hp) as Hm.
      assert (0 <= (m_page_offset r + bytes) / page_size) by (apply Z.div_pos; lia).
      assert (region_rep A' (shrunk false bytes r) h (off + bytes) w sh) as K.
      { apply (released_rep A A' r _ h off); try done; rewrite ?Ef; [cbn; lia|cbn; lia|lia| |cbn; lia].
        unfold num_pages, shrunk. cbn.
        replace (m_page_offset r + m_size r) with ((m_page_offset r + bytes) / page_size * page_size + ((m_page_offset r + bytes) mod page_size + (m_size r - bytes))) by lia.
        rewrite pages_add by lia. lia. }
      split_and!; [done|done|done|by apply rep_shows|done|done].
  - intros ->. unfold shrink_by, priv_shrink_param_check. rewrite Hx. destruct (Z.eqb_spec (m_base r) 0) as [E0|]; [unfold priv_map_address in *; lia|].
    rewrite Z.ltb_irrefl, Z.eqb_refl. cbn [orb]. rewrite (close_rep _ _ _ _ _ _ Hr) by done. cbn. eexists _, _. split_and!; [done|done|].
    intros k. rewrite lookup_unmap_pages. done.
  - intros Hgt. unfold shrink_by, priv_shrink_param_check. rewrite Hx. destruct (Z.ltb_spec (m_size r) bytes); [|lia]. by rewrite orb_true_r.
  - intros mo nb async Hmo Hnb. unfold flush, priv_flush_param_check. rewrite Hx.
    destruct (Z.eqb_spec (m_base r) 0) as [E0|]; [unfold priv_map_address in *; lia|]. split.
    + intros Hout. destruct (Z.leb_spec (m_size r) mo) as [Hle|Hlt]; [done|]. cbn [orb].
      rewrite (u64_small (m_size r - mo)) by u64_side. destruct (Z.ltb_spec (m_size r - mo) nb); [done|lia].
    + intros Hin1 Hin2. destruct (Z.leb_spec (m_size r) mo); [lia|]. cbn [orb].
      rewrite (u64_small (m_size r - mo)) by u64_side. destruct (Z.ltb_spec (m_size r - mo) nb); [lia|].
      assert (priv_map_address r + mo = mo + priv_map_address r / page_size * page_size) as E
        by (pose proof (Z.div_mod (priv_map_address r) page_size page_size_ne); pose proof (rr_align _ _ _ _ _ _ Hr); lia).
      eexists _, _. split; [done|]. rewrite u64_small by (destruct (nb =? 0); u64_side).
      split_and!; [|unfold priv_map_address in *; lia..|].
      * unfold priv_map_address. destruct (Z.eqb_spec nb 0); lia.
      * rewrite E, Z.mod_add by apply page_size_ne. done.
Qed.

End props.

(** ** A system that runs *)

(** Pages of 4096 bytes; a mapping goes where it is asked to, if that is free, and
    behind all others otherwise. *)
Definition demo_free (A : aspace) (base len : Z) : bool :=
  (0 <? len) && (0 <? base) && (base mod 4096 =? 0) && (base + (len + 4095) / 4096 * 4096 <=? 2 ^ 47) &&
  forallb (λ k, if A !! k is Some _ then false else true) (seqZ (base / 4096) ((len + 4095) / 4096)).

Definition demo_place (A : aspace) (address len : Z) : option Z :=
  let last := map_fold (λ k _ m, Z.max k m) 15 A in
  if negb (address =? 0) && demo_free A address len then Some address
  else if demo_free A ((last + 1) * 4096) len then Some ((last + 1) * 4096) else None.

#[local] Instance demo_os : MemOS := {|
  page_size := 4096;
  address_limit := 2 ^ 47;
  os_mmap A address len handle offset := if offset mod 4096 =? 0 then demo_place A address len else None;
  os_munmap A addr len := (addr mod 4096 =? 0) && (0 <? len) && (addr + len <=? 2 ^ 47);
  os_msync A addr len async := addr mod 4096 =? 0;
  os_fstat handle := if handle =? 7 then Some 10000 else None;
  os_shmctl handle := if handle =? 9 then Some 5000 else None;
  os_shmat A address handle :=
    if (handle =? 9) && ((address =? 0) || demo_free A address 5000) then demo_place A address 5000 else None
|}.

Lemma demo_free_ok A base len : demo_free A base len = true →
  0 < len ∧ 0 < base ∧ base mod 4096 = 0 ∧ base + pages_of len * 4096 <= 2 ^ 47 ∧
  ∀ k, base / 4096 <= k < base / 4096 + pages_of len → A !! k = None.
Proof.
  unfold demo_free, pages_of. cbn [page_size demo_os]. replace (len + 4096 - 1) with (len + 4095) by lia. rewrite !andb_true_iff, forallb_forall.
  intros ((((H1 & H2) & H3) & H4) & H5). split_and!; [lia|lia|lia|lia|]. intros k Hk. specialize (H5 k).
  destruct (A !! k); [|done]. discriminate H5. apply list_elem_of_In, elem_of_seqZ. lia.
Qed.

Lemma demo_place_ok A address len base : demo_place A address len = Some base →
  demo_free A base len = true ∧ (address ≠ 0 → demo_free A address len = true → base = address).
Proof.
  unfold demo_place. set (last := (_ + 1) * 4096). clearbody last.
  destruct (demo_free A last len) eqn:E', (demo_free A address len) eqn:E, (Z.eqb_spec address 0); cbn; try done.
  all: intros [= <-]; by split.
Qed.

#[local] Instance demo_os_ok : MemOSOk demo_os.
Proof.
  split; cbn.
  - lia.
  - lia.
  - intros A address len handle offset base. destruct (_ =? 0); [|done]. intros [H _]%demo_place_ok. by apply demo_free_ok.
  - intros A addr len H1 H2 H3 H4. rewrite H1, !andb_true_iff. lia.
  - intros handle n. destruct (handle =? 7); [|done]. intros [= <-]. lia.
  - intros handle n. destruct (handle =? 9); [|done]. intros [= <-]. lia.
  - intros A address handle n base. destruct (handle =? 9); [|done]. intros [= <-]. cbn [andb].
    destruct (Z.eqb_spec address 0) as [->|Hne]; cbn [orb].
    + intros [H _]%demo_place_ok. apply demo_free_ok in H as (_ & H). naive_solver.
    + destruct (demo_free A address 5000) eqn:E; [|done]. intros [H1 H2]%demo_place_ok. specialize (H2 Hne E).
      apply demo_free_ok in H1 as (_ & H1). naive_solver.
Qed.

(** The bytes of a file from 5000 on, at a given address. *)
Definition demo_region : region := Region 70536 5000 904 read_write false.

Lemma mapped_region_constructs_witness :
  ∃ r A', mapped_region_ctor false 7 read_write 5000 0 70536 ∅ = (inl r, A') ∧ r = demo_region ∧
    constructed false 7 read_write 5000 0 70536 ∅ (inl r, A') ∧
    constructed false 7 read_write 20000 0 0 ∅ (inr size_error, ∅).
Proof.
  pose proof (mapped_region_constructs false 7 read_write 5000 0 70536 ∅ ltac:(lia) ltac:(lia) ltac:(right; by vm_compute)) as K.
  pose proof (mapped_region_constructs false 7 read_write 20000 0 0 ∅ ltac:(lia) ltac:(lia) ltac:(by left)) as K'.
  eexists _, _. split_and!; [reflexivity|by vm_compute|exact K|exact K'].
Defined.

Lemma demo_rep : region_rep (map_pages ∅ 69632 5904 7 4096 true true) demo_region 7 5000 true true.
Proof. by apply (map_rep ∅ 69632 5904 904 5000 5000 7 true true read_write false). Qed.

Lemma mapped_region_shrinks_witness :
  ∃ r' A', shrink_by 4000 false demo_region (map_pages ∅ 69632 5904 7 4096 true true) = (true, r', A') ∧
    shows A' r' 7 9000 true true ∧ m_base r' = 74536 ∧
    flush 4096 100 false demo_region (map_pages ∅ 69632 5904 7 4096 true true) = true ∧
    flush 4096 1000 false demo_region (map_pages ∅ 69632 5904 7 4096 true true) = false.
Proof.
  destruct (mapped_region_shrinks _ _ _ _ _ _ 4000 false demo_rep eq_refl ltac:(lia)) as (K & _ & _ & F).
  destruct (F 4096 100 false ltac:(lia) ltac:(lia)) as [_ F1].
  destruct (F1 ltac:(cbn; lia) ltac:(cbn; lia)) as (addr & n & E1 & _ & _ & _ & E2).
  destruct (F 4096 1000 false ltac:(lia) ltac:(lia)) as [F2 _].
  destruct (K ltac:(cbn; lia) ltac:(done)) as (r' & A' & E & _ & Hb & Hs & _). exists r', A'.
  split_and!; [exact E|exact Hs|exact Hb|rewrite E1; apply Z.eqb_eq, E2; reflexivity|apply F2; right; cbn; lia].
Defined.

(** A region of 5000 bytes has two pages.  Without its last 100 bytes it still needs
    both, and the number of bytes to release wraps around: [shrink_by] fails,
    although the size was changed. *)
Lemma shrink_wraps :
  let r := Region 65536 5000 0 read_write false in
  shrink_by 100 true r (map_pages ∅ 65536 5000 7 0 true true) =
    (false, Region 65536 4900 0 read_write false, map_pages ∅ 65536 5000 7 0 true true) ∧
  fst (fst (priv_shrink_param_check 100 true r ∅)) = Some (73728, 18446744073709548424).
Proof. by vm_compute. Qed.

(** A flush that begins inside of a page passes an address the system refuses. *)
Lemma flush_unaligned :
  let r := Region 65536 5000 0 read_write false in
  flush 0 5000 false r (map_pages ∅ 65536 5000 7 0 true true) = true ∧
  flush 100 50 false r (map_pages ∅ 65536 5000 7 0 true true) = false.
Proof. by vm_compute. Qed.

(** A size that wraps around with the distance to the page maps less than the
    region says. *)
Lemma construct_wraps :
  match mapped_region_ctor false 7 read_write 200 18446744073709551516 0 ∅ with
  | (inl r, A) => m_size r = 18446744073709551516 ∧ size A = 1%nat
  | _ => False
  end.
Proof. by vm_compute. Qed.
