(* ===== verification/Singleton.v ===== *)
(** Singletons shared by the modules of a process.

    Models detail/intermodule_singleton_common.hpp: [initialize_singleton_logic],
    [finalize_singleton_logic] and the handle of the global map of
    [intermodule_singleton_common], and [get], [init_atomic_func] and
    [fini_atomic_func] of [intermodule_singleton_impl].  Threads of any number of
    modules use any number of singleton types; each thread moves from one access of
    the shared words to the next.  What may fail (the construction of the global
    map, of the object or of its entry) is a choice of the schedule.  Functions run
    under the lock of the global map are one step. *)

From stdpp Require Import functions.
From S2P Require Import Prelude Atomic.

(** ** State *)

Definition Uninitialized : Z := 0.
Definition Initializing : Z := 1.
Definition Initialized : Z := 2.
Definition Broken : Z := 3.
Definition Destroyed : Z := 4.

(** A singleton type in a module. *)
Notation key := (nat * nat)%type.

(** The static variables of the modules, and the global map with the pointer and
    the reference count of each type; addresses are handed out in order. *)
Record proc := Proc {
  singleton_initialized : key → Z;
  singleton_ptr : key → option Z;
  map_initialized : nat → Z;
  singleton_count : nat → Z;
  global_map : nat → option (Z * Z);
  next_object : Z
}.

Definition set_state (k : key) (v : Z) (c : proc) : proc :=
  Proc (<[k := v]> (singleton_initialized c)) (singleton_ptr c) (map_initialized c) (singleton_count c) (global_map c) (next_object c).
Definition set_ptr (k : key) (p : option Z) (c : proc) : proc :=
  Proc (singleton_initialized c) (<[k := p]> (singleton_ptr c)) (map_initialized c) (singleton_count c) (global_map c) (next_object c).
Definition set_map (m : nat) (v : Z) (c : proc) : proc :=
  Proc (singleton_initialized c) (singleton_ptr c) (<[m := v]> (map_initialized c)) (singleton_count c) (global_map c) (next_object c).
Definition set_count (m : nat) (n : Z) (c : proc) : proc :=
  Proc (singleton_initialized c) (singleton_ptr c) (map_initialized c) (<[m := n]> (singleton_count c)) (global_map c) (next_object c).
Definition set_entry (s : nat) (e : option (Z * Z)) (n : Z) (c : proc) : proc :=
  Proc (singleton_initialized c) (singleton_ptr c) (map_initialized c) (singleton_count c) (<[s := e]> (global_map c)) n.

(** ** Threads *)

(** Before an access; [ph] tells whether the type is a Phoenix singleton. *)
Inductive sloc :=
| GIdle
| GGet (k : key) (ph : bool)       (** read of the pointer in [get] *)
| IRead (k : key) (ph : bool)      (** first read of the state *)
| ICas (k : key) (ph : bool)
| IPhoenix (k : key)               (** Destroyed back to Uninitialized *)
| ICas2 (k : key)
| IMapCas (k : key)                (** loop of [initialize_global_map_handle] *)
| IMapReset (k : key)
| IMapWork (k : key)
| IConstruct (k : key)
| ICount (k : key) (p : Z)
| IBarrier (k : key) (p : Z)
| IPtr (k : key) (p : Z)
| IDone (k : key) (p : Z)
| IBroken (k : key)
| IWait (k : key)
| ILast (k : key)                  (** the assertion at the end *)
| FPtr (k : key)                   (** [finalize_singleton_logic] *)
| FDestruct (k : key)
| FNull (k : key)
| FState (k : key)
| FCount (k : key)
| FMapRead (k : key)
| FMapDestroy (k : key).

Inductive sevent :=
| SNew (s : nat) (p : Z)           (** an object is constructed *)
| SDeleted (s : nat) (p : Z)
| SAttached (k : key) (p : Z)      (** a module refers to it *)
| SGot (k : key) (p : Z)           (** [get] returns it *)
| SThrown (k : key)
| SMapThrown (m : nat)             (** the map of a module could not be made *)
| SAssertFailed (k : key).

Inductive schoice := SGet (k : key) (ph : bool) | SFinal (k : key) | SOk | SRetry | SThrow.

(** ** Functions under the lock of the global map *)

(** [init_atomic_func]; [None] if the constructor or the insertion throws. *)
Definition init_atomic_func (s : nat) (throws : bool) (c : proc) : option (Z * proc * list sevent) :=
  match global_map c s with
  | Some (p, n) => Some (p, set_entry s (Some (p, snd (atomic_inc32 n))) (next_object c) c, [])
  | None =>
      if throws then None
      else let p := next_object c in Some (p, set_entry s (Some (p, snd (atomic_inc32 0))) (p + 1) c, [SNew s p])
  end.

(** [fini_atomic_func]; [None] if an assertion fails. *)
Definition fini_atomic_func (s : nat) (c : proc) : option (proc * list sevent) :=
  match global_map c s with
  | Some (p, n) =>
      if 0 <? n then
        let '(old, n) := atomic_dec32 n in
        if old =? 1 then Some (set_entry s None (next_object c) c, [SDeleted s p])
        else Some (set_entry s (Some (p, n)) (next_object c) c, [])
      else None
  | None => None
  end.

(** ** Steps *)

(** Where the value seen by the compare-and-swap leads. *)
Definition init_dispatch (k : key) (prev : Z) : sloc * list sevent :=
  if prev =? Uninitialized then (IMapCas k, [])
  else if prev =? Initializing then (IWait k, [])
  else if prev =? Initialized then (ILast k, [])
  else (GIdle, [SThrown k]).

Definition map_step (ch : schoice) (l : sloc) (c : proc) : option (sloc * proc * list sevent) :=
  match l, ch with
  | IMapCas k, SOk =>
      let '(tmp, v) := atomic_cas32 Initializing Uninitialized (map_initialized c k.1) in
      let c := set_map k.1 v c in
      Some (if (tmp =? Initialized) || (tmp =? Broken) then IConstruct k
            else if tmp =? Destroyed then IMapReset k
            else if tmp =? Initializing then IMapCas k else IMapWork k, c, [])
  | IMapReset k, SOk =>
      Some (IMapCas k, set_map k.1 (snd (atomic_cas32 Uninitialized Destroyed (map_initialized c k.1))) c, [])
  | IMapWork k, SOk => Some (IConstruct k, set_map k.1 Initialized c, [])
  | IMapWork k, SRetry => Some (IMapCas k, set_map k.1 Destroyed c, [])
  | IMapWork k, SThrow => Some (IBroken k, c, [SMapThrown k.1])
  | _, _ => None
  end.

Definition init_step (ch : schoice) (l : sloc) (c : proc) : option (sloc * proc * list sevent) :=
  match l, ch with
  | IRead k ph, SOk => Some (if negb (singleton_initialized c k =? Initialized) then ICas k ph else ILast k, c, [])
  | ICas k ph, SOk =>
      let '(prev, v) := atomic_cas32 Initializing Uninitialized (singleton_initialized c k) in
      let c := set_state k v c in
      if prev =? Destroyed then Some (if ph then (IPhoenix k, c, []) else (GIdle, c, [SThrown k]))
      else let '(l, ev) := init_dispatch k prev in Some (l, c, ev)
  | IPhoenix k, SOk =>
      Some (ICas2 k, set_state k (snd (atomic_cas32 Uninitialized Destroyed (singleton_initialized c k))) c, [])
  | ICas2 k, SOk =>
      let '(prev, v) := atomic_cas32 Initializing Uninitialized (singleton_initialized c k) in
      let '(l, ev) := init_dispatch k prev in Some (l, set_state k v c, ev)
  | IConstruct k, (SOk | SThrow) =>
      match init_atomic_func k.2 (match ch with SThrow => true | _ => false end) c with
      | Some (p, c, ev) => Some (ICount k p, c, ev ++ [SAttached k p])
      | None => Some (IBroken k, c, [])
      end
  | ICount k p, SOk => Some (IBarrier k p, set_count k.1 (snd (atomic_inc32 (singleton_count c k.1))) c, [])
  | IBarrier k p, SOk => Some (IPtr k p, set_state k Initializing c, [])
  | IPtr k p, SOk => Some (IDone k p, set_ptr k (Some p) c, [])
  | IDone k p, SOk => Some (ILast k, set_state k Initialized c, [])
  | IBroken k, SOk => Some (GIdle, set_state k Broken c, [SThrown k])
  | IWait k, SOk =>
      let prev := singleton_initialized c k in
      if Initialized <=? prev then Some (ILast k, c, [])
      else if prev =? Initializing then Some (IWait k, c, []) else Some (GIdle, c, [SAssertFailed k])
  | ILast k, SOk => Some (GIdle, c, [match singleton_ptr c k with Some p => SGot k p | None => SAssertFailed k end])
  | _, _ => map_step ch l c
  end.

Definition destroy_step (ch : schoice) (l : sloc) (c : proc) : option (sloc * proc * list sevent) :=
  match l, ch with
  | FMapRead k, SOk => Some (if negb (nz (singleton_count c k.1)) then FMapDestroy k else GIdle, c, [])
  | FMapDestroy k, SOk => Some (GIdle, set_map k.1 Destroyed c, [])
  | _, _ => None
  end.

Definition fini_step (ch : schoice) (l : sloc) (c : proc) : option (sloc * proc * list sevent) :=
  match l, ch with
  | FPtr k, SOk => Some (if singleton_ptr c k then FDestruct k else GIdle, c, [])
  | FDestruct k, SOk =>
      match fini_atomic_func k.2 c with
      | Some (c, ev) => Some (FNull k, c, ev)
      | None => Some (GIdle, c, [SAssertFailed k])
      end
  | FNull k, SOk => Some (FState k, set_ptr k None c, [])
  | FState k, SOk => Some (FCount k, set_state k Destroyed c, [])
  | FCount k, SOk =>
      let '(old, n) := atomic_dec32 (singleton_count c k.1) in
      Some (if old =? 1 then FMapRead k else GIdle, set_count k.1 n c, [])
  | _, _ => destroy_step ch l c
  end.

Definition singleton_next (_ : nat) (ch : schoice) (l : sloc) (c : proc) : option (sloc * proc * list sevent) :=
  match l, ch with
  | GIdle, SGet k ph => Some (GGet k ph, c, [])
  | GIdle, SFinal k => Some (FPtr k, c, [])
  | GGet k ph, SOk => Some (match singleton_ptr c k with Some p => (GIdle, c, [SGot k p]) | None => (IRead k ph, c, []) end)
  | (FPtr _ | FDestruct _ | FNull _ | FState _ | FCount _ | FMapRead _ | FMapDestroy _), _ => fini_step ch l c
  | _, _ => init_step ch l c
  end.

Definition singleton_start (n : nat) : asys proc sloc :=
  ASys (Proc (λ _, Uninitialized) (λ _, None) (λ _, Uninitialized) (λ _, 0) (λ _, None) 4096) (replicate n GIdle).
