(* ===== verification/SingletonProps.v ===== *)
(** Singletons are constructed once, and all modules get the same object. *)

From stdpp Require Import functions.
From S2P Require Import Prelude Atomic Singleton.

(** ** Threads and events *)

(** The thread that initialises a singleton of a module. *)
Definition working (k : key) (l : sloc) : bool :=
  match l with
  | IMapCas k' | IMapReset k' | IMapWork k' | IConstruct k' | ICount k' _ | IBarrier k' _ | IPtr k' _ | IDone k' _ | IBroken k' =>
      bool_decide (k = k')
  | _ => false
  end.

(** It has got the object. *)
Definition attached_loc (k : key) (l : sloc) : bool :=
  match l with ICount k' _ | IBarrier k' _ | IPtr k' _ | IDone k' _ => bool_decide (k = k') | _ => false end.

(** It makes the global map of its module. *)
Definition mapping (m : nat) (l : sloc) : bool :=
  match l with IMapWork k => bool_decide (m = k.1) | _ => false end.

Definition new_of (s : nat) (e : sevent) : bool := match e with SNew s' _ => bool_decide (s = s') | _ => false end.
Definition attaches (s : nat) (e : sevent) : bool := match e with SAttached k _ => bool_decide (s = k.2) | _ => false end.
Definition attaches_key (k : key) (e : sevent) : bool := match e with SAttached k' _ => bool_decide (k = k') | _ => false end.
Definition map_thrown (m : nat) (e : sevent) : bool := match e with SMapThrown m' => bool_decide (m = m') | _ => false end.

Definition is_init (ch : schoice) : Prop := match ch with SFinal _ => False | _ => True end.

(** ** The state of a singleton *)

Definition state_loc (c : proc) (l : sloc) : Prop :=
  match l with
  | IPhoenix _ | ICas2 _ | FPtr _ | FDestruct _ | FNull _ | FState _ | FCount _ | FMapRead _ | FMapDestroy _ => False
  | IWait k => Initializing <= singleton_initialized c k
  | ILast k => Initialized <= singleton_initialized c k
  | _ => True
  end.

(** One thread works while the state is [Initializing]. *)
Record state_inv (c : proc) (ts : list sloc) : Prop := {
  si_range : ∀ k, 0 <= singleton_initialized c k <= 3;
  si_work : ∀ k, tcount (working k) ts = b2z (singleton_initialized c k =? Initializing);
  si_loc : ∀ t l, ts !! t = Some l → state_loc c l
}.

(** The steps never take the state back. *)
Definition state_le (c c' : proc) : Prop :=
  ∀ k, singleton_initialized c k <= singleton_initialized c' k.

Lemma state_loc_mono c c' l : state_le c c' → state_loc c l → state_loc c' l.
Proof. intros Hle. destruct l; cbn; try done; intros Hl; specialize (Hle k); lia. Qed.

Lemma insert_eq {A} (f : key → A) k v : <[k := v]> f k = v.
Proof. apply fn_lookup_insert. Qed.
Lemma insert_ne {A} (f : key → A) k k' v : k ≠ k' → <[k := v]> f k' = f k'.
Proof. apply fn_lookup_insert_ne. Qed.

(** A step as far as the state of the singletons goes: what the thread works on
    before and after, and the state it writes. *)
Inductive state_step (c c' : proc) (l l' : sloc) : Prop :=
| ss_same : (∀ k, singleton_initialized c' k = singleton_initialized c k) → (∀ k, working k l' = working k l) → state_loc c' l' → state_step c c' l l'
| ss_start k : singleton_initialized c k = Uninitialized →
    (∀ k', singleton_initialized c' k' = <[k := Initializing]> (singleton_initialized c) k') →
    (∀ k', working k' l = false) → (∀ k', working k' l' = bool_decide (k' = k)) → state_loc c' l' → state_step c c' l l'
| ss_end k v : v = Initialized ∨ v = Broken → (∀ k', singleton_initialized c' k' = <[k := v]> (singleton_initialized c) k') →
    (∀ k', working k' l = bool_decide (k' = k)) → (∀ k', working k' l' = false) → state_loc c' l' → state_step c c' l l'.

Lemma working_unique c ts k t l : state_inv c ts → ts !! t = Some l → working k l = true → singleton_initialized c k = Initializing.
Proof.
  intros Hi Ht Hw. pose proof (tcount_pos (working k) ts t l Ht Hw). rewrite (si_work _ _ Hi k) in *.
  destruct (Z.eqb_spec (singleton_initialized c k) Initializing); [done|cbn in *; lia].
Qed.

Lemma state_step_inv c c' ts t l l' : state_inv c ts → ts !! t = Some l → state_step c c' l l' →
  state_inv c' (<[t := l']> ts) ∧ state_le c c'.
Proof.
  intros Hi Ht Hs. assert (state_le c c' → state_loc c' l' → (∀ k, tcount (working k) (<[t := l']> ts) = b2z (singleton_initialized c' k =? Initializing)) →
    (∀ k, 0 <= singleton_initialized c' k <= 3) → state_inv c' (<[t := l']> ts) ∧ state_le c c') as Hmk.
  { intros Hle Hl Hw Hr. split; [|done]. split; [done|done|]. intros t' l0 [(<- & <- & _)|[Hne Hl0]]%list_lookup_insert_Some; [done|].
    by eapply state_loc_mono, (si_loc _ _ Hi). }
  pose proof (si_range _ _ Hi) as Hr. pose proof (si_work _ _ Hi) as Hw.
  destruct Hs as [E Hk Hl|k E0 E Hk Hk' Hl|k v Hv E Hk Hk' Hl].
  - apply Hmk; [by intros k; rewrite E|done| |by intros k; rewrite E]. intros k. rewrite E, <- Hw.
    destruct (tcount_split (working k) ts t l l' Ht) as (r & _ & -> & ->). by rewrite Hk.
  - apply Hmk; [|done| |].
    + intros k'. rewrite E. destruct (decide (k = k')) as [<-|]; [rewrite insert_eq, E0; unfold Uninitialized, Initializing; lia|by rewrite insert_ne].
    + intros k'. rewrite E. specialize (Hw k'). destruct (tcount_split (working k') ts t l l' Ht) as (r & _ & Er & ->). rewrite Er, Hk in Hw. rewrite Hk'.
      destruct (decide (k = k')) as [<-|Hne]; [rewrite insert_eq, E0, bool_decide_eq_true_2 in * by done; cbn in *; lia|].
      rewrite insert_ne, bool_decide_eq_false_2 by congruence. cbn in *. lia.
    + intros k'. rewrite E. destruct (decide (k = k')) as [<-|]; [rewrite insert_eq; unfold Initializing; lia|by rewrite insert_ne].
  - assert (singleton_initialized c k = Initializing) as E0 by (eapply working_unique; [done..|]; rewrite Hk; by apply bool_decide_eq_true).
    apply Hmk; [|done| |].
    + intros k'. rewrite E. destruct (decide (k = k')) as [<-|]; [rewrite insert_eq, E0; destruct Hv as [-> | ->]; unfold Initializing, Initialized, Broken; lia|by rewrite insert_ne].
    + intros k'. rewrite E. specialize (Hw k'). destruct (tcount_split (working k') ts t l l' Ht) as (r & _ & Er & ->). rewrite Er, Hk in Hw. rewrite Hk'.
      destruct (decide (k = k')) as [<-|Hne].
      * rewrite insert_eq, E0, bool_decide_eq_true_2 in * by done. destruct Hv as [-> | ->]; cbn in *; lia.
      * rewrite insert_ne, bool_decide_eq_false_2 in * by congruence. cbn in *. lia.
    + intros k'. rewrite E. destruct (decide (k = k')) as [<-|]; [rewrite insert_eq; destruct Hv as [-> | ->]; unfold Initialized, Broken; lia|by rewrite insert_ne].
Qed.

Lemma set_same {A} (f : key → A) k v k' : v = f k → <[k := v]> f k' = f k'.
Proof. intros ->. destruct (decide (k = k')) as [<-|]; [by rewrite insert_eq|by rewrite insert_ne]. Qed.

Lemma init_entry s b c p c' ev : init_atomic_func s b c = Some (p, c', ev) →
  singleton_initialized c' = singleton_initialized c ∧ singleton_ptr c' = singleton_ptr c ∧ map_initialized c' = map_initialized c ∧
  singleton_count c' = singleton_count c ∧
  (∃ n, global_map c' = <[s := Some (p, u32 (n + 1))]> (global_map c) ∧
    (global_map c s = Some (p, n) ∧ ev = [] ∨ global_map c s = None ∧ n = 0 ∧ ev = [SNew s p])).
Proof.
  unfold init_atomic_func. destruct (global_map c s) as [[p0 n]|] eqn:E; [|destruct b; [done|]]; intros [= <- <- <-]; cbn; split_and!; try done; eauto 10.
Qed.

Lemma init_state_step c ts t ch l l' c' ev : state_inv c ts → ts !! t = Some l → is_init ch →
  singleton_next t ch l c = Some (l', c', ev) → state_step c c' l l'.
Proof.
  intros Hi Ht Hch Hn. pose proof (si_loc _ _ Hi _ _ Ht) as Hl. pose proof (si_range _ _ Hi) as Hr.
  assert (∀ k, working k l = true → singleton_initialized c k = Initializing) as Hw by (intros k; by eapply working_unique).
  destruct l as [|k ph|k ph|k ph|k|k|k|k|k|k|k p|k p|k p|k p|k|k|k|k|k|k|k|k|k|k], ch as [k0 ph0|k0| | |]; try discriminate Hn; try done; cbn in Hn.
  - (* get *) injection Hn as <- <- _. by apply ss_same.
  - destruct (singleton_ptr c k); injection Hn as <- <- _; by apply ss_same.
  - injection Hn as <- <- _. apply ss_same; [done| |]; destruct (Z.eqb_spec (singleton_initialized c k) Initialized) as [E|]; cbn; try done. by rewrite E.
  - specialize (Hr k). destruct (Z.eqb_spec (singleton_initialized c k) Destroyed) as [E|_]; [unfold Destroyed in E; lia|].
    unfold init_dispatch in Hn. destruct (Z.eqb_spec (singleton_initialized c k) Uninitialized) as [E|_].
    { injection Hn as <- <- _. by apply (ss_start _ _ _ _ k). }
    destruct (Z.eqb_spec (singleton_initialized c k) Initializing) as [E|_].
    { injection Hn as <- <- _. apply ss_same; [intros k'; by apply set_same|done|]. cbn. rewrite insert_eq, E. done. }
    destruct (Z.eqb_spec (singleton_initialized c k) Initialized) as [E|_]; injection Hn as <- <- _; (apply ss_same; [intros k'; by apply set_same|done|done || cbn]).
    rewrite insert_eq, E. done.
  - (* the map *) injection Hn as <- <- _. apply ss_same; [done| |]; repeat case_match; done.
  - injection Hn as <- <- _. by apply ss_same.
  - injection Hn as <- <- _. by apply ss_same.
  - injection Hn as <- <- _. by apply ss_same.
  - injection Hn as <- <- _. by apply ss_same.
  - destruct (init_atomic_func k.2 false c) as [[[p c1] ev1]|] eqn:E; injection Hn as <- <- _; [|by apply ss_same].
    apply init_entry in E as (E & _). apply ss_same; [by rewrite E|done|done].
  - destruct (init_atomic_func k.2 true c) as [[[p c1] ev1]|] eqn:E; injection Hn as <- <- _; [|by apply ss_same].
    apply init_entry in E as (E & _). apply ss_same; [by rewrite E|done|done].
  - injection Hn as <- <- _. by apply ss_same.
  - injection Hn as <- <- _. apply ss_same; [|done|done]. intros k'. apply set_same. symmetry. apply Hw. by apply bool_decide_eq_true.
  - injection Hn as <- <- _. by apply ss_same.
  - injection Hn as <- <- _. apply (ss_end _ _ _ _ k Initialized); [by left|done|done|done|]. cbn. by rewrite insert_eq.
  - injection Hn as <- <- _. apply (ss_end _ _ _ _ k Broken); [by right|done|done|done|done].
  - destruct (Z.leb_spec Initialized (singleton_initialized c k)); [injection Hn as <- <- _; by apply ss_same|].
    destruct (Z.eqb_spec (singleton_initialized c k) Initializing); injection Hn as <- <- _; by apply ss_same.
  - injection Hn as <- <- _. by apply ss_same.
Qed.

(** ** The objects *)

(** The object of a type is [p]. *)
Definition has (c : proc) (s : nat) (p : Z) : Prop := ∃ n, global_map c s = Some (p, n).

Definition obj_loc (c : proc) (l : sloc) : Prop :=
  match l with
  | IMapCas k | IMapReset k | IMapWork k | IBroken k => singleton_ptr c k = None
  | IConstruct k => singleton_ptr c k = None ∧ map_initialized c k.1 = Initialized
  | ICount k p | IBarrier k p | IPtr k p => singleton_ptr c k = None ∧ map_initialized c k.1 = Initialized ∧ has c k.2 p
  | IDone k p => singleton_ptr c k = Some p ∧ map_initialized c k.1 = Initialized ∧ has c k.2 p
  | _ => True
  end.

Definition event_ok (c : proc) (e : sevent) : Prop :=
  match e with
  | SNew s p => has c s p
  | SAttached k p | SGot k p => has c k.2 p
  | SAssertFailed k | SThrown k => singleton_initialized c k = Broken
  | SDeleted _ _ => False
  | SMapThrown _ => True
  end.

(** The reference count of a type: how often it was attached, and the number of
    objects constructed. *)
Definition refs_ok (c : proc) (s : nat) (attached made : Z) : Prop :=
  match global_map c s with
  | Some (_, n) => n = u32 attached ∧ made = 1
  | None => attached = 0 ∧ made = 0
  end.

(** The pointer of a module is null until the singleton is ready, and not after. *)
Definition ptr_ok (c : proc) (k : key) : Prop :=
  (singleton_initialized c k = Uninitialized ∨ singleton_initialized c k = Broken → singleton_ptr c k = None) ∧
  (singleton_initialized c k = Initialized → singleton_ptr c k ≠ None) ∧
  ∀ p, singleton_ptr c k = Some p → has c k.2 p.

Definition map_ok (v : Z) : Prop := v = Uninitialized ∨ v = Initializing ∨ v = Initialized ∨ v = Destroyed.

Record obj_inv (c : proc) (ts : list sloc) (es : list sevent) : Prop := {
  oi_map : ∀ m, map_ok (map_initialized c m) ∧
    tcount (mapping m) ts + tcount (map_thrown m) es = b2z (map_initialized c m =? Initializing);
  oi_loc : ∀ t l, ts !! t = Some l → obj_loc c l;
  oi_ptr : ∀ k, ptr_ok c k;
  oi_refs : ∀ s, refs_ok c s (tcount (attaches s) es) (tcount (new_of s) es);
  oi_keys : ∀ k, tcount (attaches_key k) es = b2z (singleton_initialized c k =? Initialized) + tcount (attached_loc k) ts;
  oi_events : ∀ e, e ∈ es → event_ok c e
}.

(** What a step leaves to the other threads. *)
Record obj_frame (c c' : proc) (l : sloc) : Prop := {
  of_ptr : ∀ k, singleton_ptr c' k = singleton_ptr c k ∨ working k l = true;
  of_map : ∀ m, map_initialized c m = Initialized → map_initialized c' m = Initialized;
  of_has : ∀ s p, has c s p → has c' s p
}.

Lemma obj_loc_mono c c' l l0 : obj_frame c c' l → (∀ k, working k l = true → working k l0 = false) → obj_loc c l0 → obj_loc c' l0.
Proof.
  intros [F1 F2 F3] Hw. assert (∀ k, working k l0 = true → singleton_ptr c' k = singleton_ptr c k) as Hp.
  { intros k Hk. destruct (F1 k) as [|Hk']; [done|]. by rewrite (Hw k Hk') in Hk. }
  destruct l0; cbn in *; try done; rewrite Hp by (by apply bool_decide_eq_true); naive_solver.
Qed.

Lemma event_mono c c' l e : obj_frame c c' l → state_le c c' → (∀ k, singleton_initialized c' k <= 3) → event_ok c e → event_ok c' e.
Proof.
  intros [_ _ F3] Hle Hr. destruct e; cbn; try apply F3; try done; intros E; specialize (Hle k); specialize (Hr k); unfold Broken in *; lia.
Qed.

Lemma obj_mk c c' ts t l l' es ev : obj_inv c ts es → state_inv c ts → state_inv c' (<[t := l']> ts) → state_le c c' →
  ts !! t = Some l → obj_frame c c' l → obj_loc c' l' →
  (∀ m, map_ok (map_initialized c' m) ∧ b2z (mapping m l') + tcount (map_thrown m) ev + b2z (map_initialized c m =? Initializing) =
     b2z (mapping m l) + b2z (map_initialized c' m =? Initializing)) →
  (∀ k, ptr_ok c' k) → (∀ s, refs_ok c' s (tcount (attaches s) (es ++ ev)) (tcount (new_of s) (es ++ ev))) →
  (∀ k, tcount (attaches_key k) ev + b2z (singleton_initialized c k =? Initialized) + b2z (attached_loc k l) =
     b2z (singleton_initialized c' k =? Initialized) + b2z (attached_loc k l')) →
  (∀ e, e ∈ ev → event_ok c' e) → obj_inv c' (<[t := l']> ts) (es ++ ev).
Proof.
  intros [I1 I2 I3 I4 I5 I6] Hs Hs' Hle Ht Hf Hl Hm Hp Hr Hk He. split; [|  |done|done| |].
  - intros m. destruct (Hm m) as [M1 M2], (I1 m) as [_ M4]. split; [done|].
    destruct (tcount_split (mapping m) ts t l l' Ht) as (r & _ & E & ->). rewrite tcount_app. lia.
  - intros t' l0 [(<- & <- & _)|[Hne Hl0]]%list_lookup_insert_Some; [done|]. eapply obj_loc_mono; [done| |by eapply I2].
    intros k Hk1. destruct (working k l0) eqn:Hk2; [|done].
    pose proof (tcount_two (working k) ts t t' _ _ Hne Ht Hl0 Hk1 Hk2). rewrite (si_work _ _ Hs k) in *. destruct (_ =? _); cbn in *; lia.
  - intros k. specialize (Hk k). specialize (I5 k). destruct (tcount_split (attached_loc k) ts t l l' Ht) as (r & _ & E & ->). rewrite tcount_app. lia.
  - intros e [He'|He']%elem_of_app; [|by apply He]. eapply event_mono; [done|done| |by apply I6]. intros k. apply (si_range _ _ Hs').
Qed.

(** A step that leaves pointers, maps and objects alone. *)
Lemma obj_quiet c c' ts t l l' es ev : obj_inv c ts es → state_inv c ts → state_inv c' (<[t := l']> ts) → state_le c c' →
  ts !! t = Some l → singleton_ptr c' = singleton_ptr c → map_initialized c' = map_initialized c → global_map c' = global_map c →
  obj_loc c' l' → (∀ m, b2z (mapping m l') + tcount (map_thrown m) ev = b2z (mapping m l)) → (∀ k, ptr_ok c' k) →
  (∀ e, e ∈ ev → event_ok c' e ∧ match e with SNew _ _ | SAttached _ _ => False | _ => True end) →
  (∀ k, b2z (singleton_initialized c k =? Initialized) + b2z (attached_loc k l) =
     b2z (singleton_initialized c' k =? Initialized) + b2z (attached_loc k l')) → obj_inv c' (<[t := l']> ts) (es ++ ev).
Proof.
  intros Hi Hs Hs' Hle Ht E1 E2 E3 Hl Hm Hp He Hk. apply (obj_mk c c' ts t l l'); try done.
  - split; [intros k; left; by rewrite E1|intros m; by rewrite E2|]. unfold has. intros s p. by rewrite E3.
  - intros m. rewrite E2. destruct (oi_map _ _ _ Hi m) as [M1 _]. split; [done|]. specialize (Hm m). lia.
  - intros s. pose proof (oi_refs _ _ _ Hi s) as Hr. unfold refs_ok in *. rewrite E3, !tcount_app.
    assert (∀ f, (∀ e, match e with SNew _ _ | SAttached _ _ => False | _ => True end → f e = false) → tcount f ev = 0) as Hz.
    { intros f Hf. apply tcount_none. intros i e Hie. apply Hf. apply He. by eapply list_elem_of_lookup_2. }
    rewrite (Hz (attaches s)), (Hz (new_of s)), !Z.add_0_r by (intros []; done). done.
  - intros k. rewrite (tcount_none (attaches_key k) ev); [apply Hk|]. intros i e Hie%list_elem_of_lookup_2%He. destruct e; naive_solver.
  - intros e Hev. by apply He.
Qed.

Lemma ptr_ok_set c k v : (∀ k, ptr_ok c k) → (v = Uninitialized ∨ v = Broken → singleton_ptr c k = None) →
  (v = Initialized → singleton_ptr c k ≠ None) → ∀ k', ptr_ok (set_state k v c) k'.
Proof.
  intros Hp H1 H2 k'. destruct (Hp k') as (P1 & P2 & P3). unfold ptr_ok. cbn. destruct (decide (k = k')) as [<-|].
  - rewrite insert_eq. by split_and!.
  - rewrite insert_ne by done. by split_and!.
Qed.

Lemma keys_set c k v (d d' : key → Z) : (∀ k', k ≠ k' → d k' = d' k') → b2z (singleton_initialized c k =? Initialized) + d k = b2z (v =? Initialized) + d' k →
  ∀ k', b2z (singleton_initialized c k' =? Initialized) + d k' = b2z (singleton_initialized (set_state k v c) k' =? Initialized) + d' k'.
Proof.
  intros Hd Hk k'. cbn. destruct (decide (k = k')) as [<-|]; [by rewrite insert_eq|]. rewrite insert_ne by done. by rewrite Hd.
Qed.

Lemma working_here (k : key) : bool_decide (k = k) = true.
Proof. by apply bool_decide_eq_true. Qed.

(** The steps outside of the map and the construction. *)
Lemma obj_init_step c ts t ch l l' c' es ev : obj_inv c ts es → state_inv c ts → state_inv c' (<[t := l']> ts) → state_le c c' →
  ts !! t = Some l → is_init ch → singleton_next t ch l c = Some (l', c', ev) →
  match l with IMapCas _ | IMapReset _ | IMapWork _ | IConstruct _ | IPtr _ _ => False | _ => True end →
  obj_inv c' (<[t := l']> ts) (es ++ ev).
Proof.
  intros Hi Hs Hs' Hle Ht Hch Hn Hl0. pose proof (si_loc _ _ Hs _ _ Ht) as Hst. pose proof (si_range _ _ Hs) as Hr.
  pose proof (oi_loc _ _ _ Hi _ _ Ht) as Hol. pose proof (oi_ptr _ _ _ Hi) as Hp.
  assert (∀ k, working k l = true → singleton_initialized c k = Initializing) as Hw by (intros k; by eapply working_unique).
  assert (∀ k, 2 <= singleton_initialized c k → singleton_initialized c k ≠ Initialized → singleton_initialized c k = Broken) as Hbr
    by (intros k; specialize (Hr k); unfold Broken, Initialized; lia).
  destruct l as [|k ph|k ph|k ph|k|k|k|k|k|k|k p|k p|k p|k p|k|k|k|k|k|k|k|k|k|k], ch as [k0 ph0|k0| | |]; try discriminate Hn; try done; cbn in Hn.
  - injection Hn as <- <- <-. apply (obj_quiet c c ts t GIdle); try done; set_solver.
  - destruct (singleton_ptr c k) as [p|] eqn:Ep; injection Hn as <- <- <-; apply (obj_quiet c c ts t (GGet k ph)); try done; try set_solver.
  - injection Hn as <- <- <-. destruct (negb _); apply (obj_quiet c c ts t (IRead k ph)); try done; set_solver.
  - specialize (Hr k). destruct (Z.eqb_spec (singleton_initialized c k) Destroyed) as [E|_]; [unfold Destroyed in E; lia|].
    unfold init_dispatch in Hn. destruct (Z.eqb_spec (singleton_initialized c k) Uninitialized) as [E|H0].
    { injection Hn as <- <- <-. apply (obj_quiet c _ ts t (ICas k ph)); try done.
      - cbn. apply (Hp k). by left.
      - apply ptr_ok_set; try done; by intros [|].
      - set_solver.
      - intros k'. apply (keys_set c k _ (λ _, 0) (λ _, 0)); [done|]. by rewrite E. }
    destruct (Z.eqb_spec (singleton_initialized c k) Initializing) as [E|H1].
    { injection Hn as <- <- <-. apply (obj_quiet c _ ts t (ICas k ph)); try done.
      - apply ptr_ok_set; rewrite ?E; try done; by intros [|].
      - set_solver.
      - intros k'. apply (keys_set c k _ (λ _, 0) (λ _, 0)); [done|]. by rewrite E. }
    assert (∀ k', ptr_ok (set_state k (singleton_initialized c k) c) k') as Hps by (apply ptr_ok_set; [done|apply (Hp k)|apply (Hp k)]).
    destruct (Z.eqb_spec (singleton_initialized c k) Initialized) as [E|H2]; injection Hn as <- <- <-; apply (obj_quiet c _ ts t (ICas k ph)); try done.
    + set_solver.
    + intros k'. by apply (keys_set c k _ (λ _, 0) (λ _, 0)).
    + intros e ->%list_elem_of_singleton. split; [|done]. cbn. rewrite insert_eq. apply Hbr; [|done]. unfold Uninitialized, Initializing, Initialized in *. lia.
    + intros k'. by apply (keys_set c k _ (λ _, 0) (λ _, 0)).
  - (* counting *) injection Hn as <- <- <-. apply (obj_quiet c _ ts t (ICount k p)); try done. set_solver.
  - pose proof (Hw k (working_here k)) as E. injection Hn as <- <- <-. apply (obj_quiet c _ ts t (IBarrier k p)); try done.
    + apply ptr_ok_set; try done; by intros [|].
    + set_solver.
    + intros k'. apply (keys_set c k _ (λ k', b2z (attached_loc k' (IBarrier k p))) (λ k', b2z (attached_loc k' (IPtr k p)))); [done|]. by rewrite E.
  - pose proof (Hw k (working_here k)) as E. destruct Hol as (O1 & O2 & O3). injection Hn as <- <- <-. apply (obj_quiet c _ ts t (IDone k p)); try done.
    + apply ptr_ok_set; try done; [by intros [|]|by rewrite O1].
    + set_solver.
    + intros k'. apply (keys_set c k _ (λ k', b2z (attached_loc k' (IDone k p))) (λ _, 0)); [by intros k1 Hk1; cbn; rewrite bool_decide_eq_false_2 by congruence|].
      cbn. by rewrite E, working_here.
  - pose proof (Hw k (working_here k)) as E. injection Hn as <- <- <-. apply (obj_quiet c _ ts t (IBroken k)); try done.
    + apply ptr_ok_set; try done.
    + intros e ->%list_elem_of_singleton. split; [|done]. cbn. by rewrite insert_eq.
    + intros k'. apply (keys_set c k _ (λ _, 0) (λ _, 0)); [done|]. by rewrite E.
  - destruct (Z.leb_spec Initialized (singleton_initialized c k)); [injection Hn as <- <- <-; apply (obj_quiet c c ts t (IWait k)); try done; set_solver|].
    destruct (Z.eqb_spec (singleton_initialized c k) Initializing); [injection Hn as <- <- <-; apply (obj_quiet c c ts t (IWait k)); try done; set_solver|].
    cbn in Hst. unfold Initialized, Initializing in *. lia.
  - injection Hn as <- <- <-. apply (obj_quiet c c ts t (ILast k)); try done; [by destruct (singleton_ptr c k)|].
    intros e ->%list_elem_of_singleton. destruct (singleton_ptr c k) as [p|] eqn:Ep; (split; [|done]); cbn; [by apply (Hp k)|].
    apply Hbr; [done|]. intros E. destruct (Hp k) as (_ & P2 & _). by apply P2.
Qed.

(** A step that changes the map's state of one module. *)
Lemma obj_map_step c ts t l l' es ev m v : obj_inv c ts es → state_inv c ts → state_inv (set_map m v c) (<[t := l']> ts) →
  ts !! t = Some l → (map_initialized c m = Initialized → v = Initialized) → map_ok v → obj_loc (set_map m v c) l' →
  (∀ m', m ≠ m' → b2z (mapping m' l') + tcount (map_thrown m') ev = b2z (mapping m' l)) →
  b2z (mapping m l') + tcount (map_thrown m) ev + b2z (map_initialized c m =? Initializing) = b2z (mapping m l) + b2z (v =? Initializing) →
  (∀ e, e ∈ ev → ∃ m, e = SMapThrown m) → (∀ k, attached_loc k l = attached_loc k l') →
  obj_inv (set_map m v c) (<[t := l']> ts) (es ++ ev).
Proof.
  intros Hi Hs Hs' Ht Hv Hok Hl Hm' Hm He Hk. apply (obj_mk c _ ts t l l'); try done.
  - by intros k.
  - split; [by left| |done]. intros m'. cbn. destruct (decide (m = m')) as [<-|]; [rewrite fn_lookup_insert; done|by rewrite fn_lookup_insert_ne].
  - intros m'. cbn. destruct (decide (m = m')) as [<-|]; [rewrite fn_lookup_insert; done|]. rewrite fn_lookup_insert_ne by done.
    specialize (Hm' m' ltac:(done)). split; [apply (oi_map _ _ _ Hi)|lia].
  - apply (oi_ptr _ _ _ Hi).
  - intros s. pose proof (oi_refs _ _ _ Hi s) as Hr. unfold refs_ok in *. cbn. rewrite !tcount_app.
    rewrite (tcount_none (attaches s) ev), (tcount_none (new_of s) ev), !Z.add_0_r; [done|..].
    all: intros i e Hie%list_elem_of_lookup_2%He; naive_solver.
  - intros k. rewrite (tcount_none (attaches_key k) ev); [cbn; by rewrite Hk|]. intros i e Hie%list_elem_of_lookup_2%He. naive_solver.
  - intros e [m0 ->]%He. done.
Qed.

Lemma obj_maps c ts t ch l l' c' es ev k : obj_inv c ts es → state_inv c ts → state_inv c' (<[t := l']> ts) →
  ts !! t = Some l → singleton_next t ch l c = Some (l', c', ev) → l = IMapCas k ∨ l = IMapReset k ∨ l = IMapWork k →
  obj_inv c' (<[t := l']> ts) (es ++ ev).
Proof.
  intros Hi Hs Hs' Ht Hn Hl. destruct (oi_map _ _ _ Hi k.1) as [Hok Hcnt]. pose proof (oi_loc _ _ _ Hi _ _ Ht) as Hol.
  assert (∀ m', k.1 ≠ m' → bool_decide (m' = k.1) = false) as Hne by (intros m' Hm'; apply bool_decide_eq_false; congruence).
  assert (bool_decide (k.1 = k.1) = true) as Heq by (by apply bool_decide_eq_true).
  destruct Hl as [-> | [-> | ->]], ch as [k0 ph0|k0| | |]; try discriminate Hn; cbn in Hn, Hol.
  - injection Hn as <- <- <-. destruct Hok as [E|[E|[E|E]]]; rewrite E in *; cbn in *.
    all: apply (obj_map_step c ts t (IMapCas k)); try done; rewrite ?E; try (by intros; cbn; rewrite ?Hne, ?Heq by done);
      try (by right; left); try (by left); try (by right; right; left); try (by right; right; right); try set_solver.
    split; [done|]. cbn. by rewrite fn_lookup_insert.
  - injection Hn as <- <- <-. destruct Hok as [E|[E|[E|E]]]; rewrite E in *; cbn in *.
    all: apply (obj_map_step c ts t (IMapReset k)); try done; rewrite ?E; try (by left); try (by right; left); try (by right; right; left); set_solver.
  - pose proof (tcount_pos (mapping k.1) ts t _ Ht Heq) as Hpos. pose proof (tcount_nonneg (map_thrown k.1) es).
    destruct (Z.eqb_spec (map_initialized c k.1) Initializing) as [E|]; [|cbn in *; lia].
    injection Hn as <- <- <-. apply (obj_map_step c ts t (IMapWork k)); rewrite ?E; try done; try (by right; right; left); try set_solver.
    + split; [done|]. cbn. by rewrite fn_lookup_insert.
    + intros m' Hm'. cbn. by rewrite Hne.
    + cbn. by rewrite Heq.
  - pose proof (tcount_pos (mapping k.1) ts t _ Ht Heq) as Hpos. pose proof (tcount_nonneg (map_thrown k.1) es).
    destruct (Z.eqb_spec (map_initialized c k.1) Initializing) as [E|]; [|cbn in *; lia].
    injection Hn as <- <- <-. apply (obj_map_step c ts t (IMapWork k)); rewrite ?E; try done; try (by right; right; right); try set_solver.
    + intros m' Hm'. cbn. by rewrite Hne.
    + cbn. by rewrite Heq.
  - injection Hn as <- <- <-. apply (obj_quiet c c ts t (IMapWork k)); try done.
    + by intros k'.
    + intros m'. cbn. destruct (decide (m' = k.1)) as [->|]; [by rewrite Heq|]. by rewrite Hne by congruence.
    + apply (oi_ptr _ _ _ Hi).
    + intros e ->%list_elem_of_singleton. done.
Qed.

Lemma obj_construct c ts t ch l' c' es ev k : obj_inv c ts es → state_inv c ts → state_inv c' (<[t := l']> ts) → state_le c c' →
  ts !! t = Some (IConstruct k) → singleton_next t ch (IConstruct k) c = Some (l', c', ev) →
  obj_inv c' (<[t := l']> ts) (es ++ ev).
Proof.
  intros Hi Hs Hs' Hle Ht Hn. destruct (oi_loc _ _ _ Hi _ _ Ht) as [O1 O2].
  assert (∀ b, match init_atomic_func k.2 b c with
    | Some (p, c0, ev0) => Some (ICount k p, c0, ev0 ++ [SAttached k p])
    | None => Some (IBroken k, c, [])
    end = Some (l', c', ev) → obj_inv c' (<[t := l']> ts) (es ++ ev)) as Hgo; [|destruct ch as [k0 ph0|k0| | |]; try discriminate Hn; by apply Hgo in Hn].
  clear Hn. intros b Hn. destruct (init_atomic_func k.2 b c) as [[[p c1] ev1]|] eqn:E; injection Hn as <- <- <-.
  2: { apply (obj_quiet c c ts t (IConstruct k)); try done; [apply (oi_ptr _ _ _ Hi)|set_solver]. }
  apply init_entry in E as (E1 & E2 & E3 & E4 & n & E5 & Hcase).
  assert (∀ s q, has c s q → has c1 s q) as Hhas.
  { intros s q [n0 Hq]. unfold has. rewrite E5. destruct (decide (k.2 = s)) as [<-|]; [|rewrite fn_lookup_insert_ne by done; by exists n0].
    rewrite fn_lookup_insert. destruct Hcase as [(Hc & _)|(Hc & _)]; rewrite Hc in Hq; simplify_eq. eauto. }
  assert (has c1 k.2 p) as Hp by (exists (u32 (n + 1)); by rewrite E5, fn_lookup_insert).
  apply (obj_mk c c1 ts t (IConstruct k)); try done.
  - split; [left; by rewrite E2|intros m; by rewrite E3|done].
  - cbn. by rewrite E2, E3.
  - intros m. rewrite E3. split; [apply (oi_map _ _ _ Hi)|]. rewrite tcount_app. cbn. destruct Hcase as [(_ & ->)|(_ & _ & ->)]; cbn; lia.
  - intros k'. destruct (oi_ptr _ _ _ Hi k') as (P1 & P2 & P3). unfold ptr_ok. rewrite E1, E2. split_and!; [done|done|]. intros q Hq. by apply Hhas, P3.
  - intros s. pose proof (oi_refs _ _ _ Hi s) as Hr. unfold refs_ok in *. rewrite E5, !tcount_app.
    destruct (decide (k.2 = s)) as [<-|Hne].
    + rewrite fn_lookup_insert. cbn. rewrite bool_decide_eq_true_2 by done. cbn. destruct Hcase as [(Hc & ->)|(Hc & -> & ->)]; rewrite Hc in Hr; cbn.
      * destruct Hr as [-> Hr]. rewrite Hr. split; [|done]. unfold u32. by rewrite Zplus_mod_idemp_l.
      * destruct Hr as [-> ->]. rewrite bool_decide_eq_true_2 by done. done.
    + rewrite fn_lookup_insert_ne by done. cbn. rewrite bool_decide_eq_false_2 by congruence. cbn.
      destruct Hcase as [(Hc & ->)|(Hc & _ & ->)]; cbn; rewrite ?bool_decide_eq_false_2 by congruence; cbn; by rewrite !Z.add_0_r.
  - intros k'. rewrite E1, tcount_app. cbn. destruct Hcase as [(_ & ->)|(_ & _ & ->)]; cbn; lia.
  - intros e [He|He%list_elem_of_singleton]%elem_of_app; [|by subst]. destruct Hcase as [(_ & ->)|(_ & _ & ->)]; [set_solver|].
    apply list_elem_of_singleton in He as ->. done.
Qed.

Lemma obj_publish c ts t ch l' c' es ev k p : obj_inv c ts es → state_inv c ts → state_inv c' (<[t := l']> ts) → state_le c c' →
  ts !! t = Some (IPtr k p) → singleton_next t ch (IPtr k p) c = Some (l', c', ev) → obj_inv c' (<[t := l']> ts) (es ++ ev).
Proof.
  intros Hi Hs Hs' Hle Ht Hn. destruct (oi_loc _ _ _ Hi _ _ Ht) as (O1 & O2 & O3). destruct ch as [k0 ph0|k0| | |]; try discriminate Hn.
  injection Hn as <- <- <-. pose proof (working_unique _ _ k _ _ Hs Ht (working_here k)) as E.
  apply (obj_mk c _ ts t (IPtr k p)); try done.
  - split; [|done|done]. intros k'. cbn. destruct (decide (k = k')) as [<-|]; [right; apply working_here|left; by rewrite insert_ne].
  - cbn. by rewrite insert_eq.
  - intros m. split; [apply (oi_map _ _ _ Hi)|done].
  - intros k'. unfold ptr_ok. cbn. destruct (decide (k = k')) as [<-|].
    + rewrite insert_eq, E. split_and!; [by intros [|]|done|]. by intros q [= <-].
    + rewrite insert_ne by done. apply (oi_ptr _ _ _ Hi).
  - intros s. rewrite app_nil_r. apply (oi_refs _ _ _ Hi).
  - set_solver.
Qed.

(** ** Runs *)

Definition sinv (st : asys proc sloc) (es : list sevent) : Prop :=
  state_inv (a_shared st) (a_threads st) ∧ obj_inv (a_shared st) (a_threads st) es.

Lemma singleton_step_inv st es t ch st' ev : is_init ch → sinv st es → astep singleton_next t ch st = Some (st', ev) → sinv st' (es ++ ev).
Proof.
  destruct st as [c ts]. intros Hch [Hs Ho] (l & l' & c' & Ht & Hn & ->)%astep_inv. cbn in *.
  destruct (state_step_inv c c' ts t l l' Hs Ht) as [Hs' Hle]; [by eapply init_state_step|]. split; [done|]. cbn.
  destruct l eqn:El; try (by eapply obj_maps; eauto); try (by eapply obj_construct); try (by eapply obj_publish).
  all: eapply obj_init_step; eauto; exact I.
Qed.

Lemma singleton_run_inv n sched st ev : Forall (λ tc, is_init tc.2) sched → arun singleton_next sched (singleton_start n) = Some (st, ev) → sinv st ev.
Proof.
  intros Hf. apply (arun_ind_on singleton_next is_init sinv); [intros; by eapply singleton_step_inv|done|].
  assert (∀ t l, replicate n GIdle !! t = Some l → l = GIdle) as Hr by (intros t l [-> _]%lookup_replicate; done).
  split; cbn.
  - split; cbn; [done|intros k; by rewrite tcount_replicate|]. by intros t l ->%Hr.
  - split; cbn; try done.
    + intros m. split; [by left|]. by rewrite tcount_replicate.
    + by intros t l ->%Hr.
    + intros k. by rewrite tcount_replicate.
    + set_solver.
Qed.

(** Whether a thread waits for another to make the map. *)
Definition spins (c : proc) (l : sloc) : bool :=
  match l with IMapCas k => map_initialized c k.1 =? Initializing | _ => false end.

Lemma worker_moves t k l c : working k l = true → spins c l = false →
  ∃ l1 c1 ev1, singleton_next t SOk l c = Some (l1, c1, ev1) ∧ l1 ≠ l.
Proof.
  intros Hl Hsp. destruct l as [| | | | | |k'|k'|k'|k'|k' p|k' p|k' p|k' p|k'| | | | | | | | |]; try done; cbn in *.
  2-3: by eexists _, _, _.
  2: destruct (init_atomic_func k'.2 false c) as [[[p c1] ev1]|]; by eexists _, _, _.
  2-6: by eexists _, _, _.
  rewrite Hsp. eexists _, _, _. split; [done|]. by repeat case_match.
Qed.

(** C16: Singletons under any interleaving of the threads of any number of modules,
    as long as no module is unloaded.  In each module at most one thread initialises
    a singleton, and the state tells whether one does.  All calls of [get] for a type
    return the same object, which is constructed once for the process; its reference
    count is the number of modules that attached to it, each at most once.  A thread
    fails (with an exception, or with a null pointer against the assertion) only on a
    singleton that is broken because its initialisation threw.  A thread that waits
    for another can rely on it: some thread of its module can move to finish the
    initialisation, unless the construction of the module's map has thrown. *)
Theorem singleton_exact n sched st ev (Hsched : Forall (λ tc, is_init tc.2) sched)
    (Hrun : arun singleton_next sched (singleton_start n) = Some (st, ev)) :
  let c := a_shared st in
  (∀ k, tcount (working k) (a_threads st) = b2z (singleton_initialized c k =? Initializing)) ∧
  (∀ k k' p p', SGot k p ∈ ev → SGot k' p' ∈ ev → k.2 = k'.2 → p = p') ∧
  (∀ k p, SGot k p ∈ ev → SNew k.2 p ∈ ev ∧ tcount (new_of k.2) ev = 1) ∧
  (∀ s, match global_map c s with
        | Some (p, r) => SNew s p ∈ ev ∧ r = u32 (tcount (attaches s) ev) | None => tcount (attaches s) ev = 0 end) ∧
  (∀ k, tcount (attaches_key k) ev <= 1) ∧
  (∀ k, SAssertFailed k ∈ ev ∨ SThrown k ∈ ev → singleton_initialized c k = Broken) ∧
  (∀ k, singleton_initialized c k = Initializing → SMapThrown k.1 ∉ ev →
     ∃ t l ch st' ev', a_threads st !! t = Some l ∧ astep singleton_next t ch st = Some (st', ev') ∧ is_init ch ∧
       (working k l = true ∧ a_threads st' !! t ≠ Some l ∨ mapping k.1 l = true)).
Proof.
  destruct (singleton_run_inv n sched st ev Hsched Hrun) as [Hs Ho]. cbv zeta. set (c := a_shared st) in *. set (ts := a_threads st) in *.
  assert (∀ k p, SGot k p ∈ ev → has c k.2 p) as Hgot by (intros k p H; apply (oi_events _ _ _ Ho _ H)).
  assert (∀ s p, has c s p → SNew s p ∈ ev ∧ tcount (new_of s) ev = 1) as Hnew.
  { intros s p [r Hr]. pose proof (oi_refs _ _ _ Ho s) as Href. unfold refs_ok in Href. rewrite Hr in Href. destruct Href as [_ E]. split; [|done].
    destruct (tcount_exists (new_of s) ev ltac:(lia)) as (i & e & He%list_elem_of_lookup_2 & Hf). destruct e as [s' p'| | | | | |]; try done.
    apply bool_decide_eq_true in Hf as <-. destruct (oi_events _ _ _ Ho _ He) as [r' Hr']. rewrite Hr in Hr'. by simplify_eq. }
  split_and!.
  - apply (si_work _ _ Hs).
  - intros k k' p p' [r Hr]%Hgot [r' Hr']%Hgot E. rewrite E, Hr' in Hr. by simplify_eq.
  - intros k p H%Hgot. by apply Hnew.
  - intros s. pose proof (oi_refs _ _ _ Ho s) as Href. unfold refs_ok in Href. destruct (global_map c s) as [[p r]|] eqn:E; [|by destruct Href].
    destruct Href as [-> _]. split; [|done]. apply Hnew. by exists (u32 (tcount (attaches s) ev)).
  - intros k. rewrite (oi_keys _ _ _ Ho k). pose proof (si_work _ _ Hs k) as Hw. fold c ts in Hw.
    pose proof (tcount_le (attached_loc k) (working k) ts ltac:(by intros [])). destruct (Z.eqb_spec (singleton_initialized c k) Initialized) as [E|].
    + rewrite E in Hw. cbn in *. pose proof (tcount_nonneg (attached_loc k) ts). lia.
    + cbn. destruct (_ =? _); cbn in *; lia.
  - intros k [H|H]; apply (oi_events _ _ _ Ho _ H).
  - intros k E Hmt. pose proof (si_work _ _ Hs k) as Hw. fold c ts in Hw. rewrite E in Hw.
    destruct (tcount_exists (working k) ts) as (t & l & Ht & Hl); [by rewrite Hw|].
    assert (∀ t' l' ch l1 c1 ev1, ts !! t' = Some l' → singleton_next t' ch l' c = Some (l1, c1, ev1) →
      astep singleton_next t' ch st = Some (ASys c1 (<[t' := l1]> ts), ev1) ∧ (<[t' := l1]> ts) !! t' = Some l1) as Hgo.
    { intros t' l' ch l1 c1 ev1 Ht' Hn. unfold astep. fold ts c. rewrite Ht'. cbn. rewrite Hn. split; [done|].
      apply list_lookup_insert_eq. by eapply lookup_lt_Some. }
    destruct (spins c l) eqn:Esp.
    + destruct l as [| | | | | |k'| | | | | | | | | | | | | | | | |]; try done. apply Z.eqb_eq in Esp. apply bool_decide_eq_true in Hl as <-.
      destruct (oi_map _ _ _ Ho k.1) as [_ Hc]. fold c ts in Hc. rewrite Esp in Hc.
      rewrite (tcount_none (map_thrown k.1) ev) in Hc; [|intros i e He%list_elem_of_lookup_2; destruct e; try done; apply bool_decide_eq_false; naive_solver].
      destruct (tcount_exists (mapping k.1) ts) as (t' & l' & Ht' & Hl'); [cbn in Hc; lia|].
      destruct l' as [| | | | | | | |k''| | | | | | | | | | | | | | |]; try done. destruct (Hgo t' _ SOk _ _ _ Ht' eq_refl) as [G1 G2].
      eexists t', _, SOk, _, _. split_and!; [done|exact G1|done|]. by right.
    + destruct (worker_moves t k l c Hl Esp) as (l1 & c1 & ev1 & Hn & Hne).
      destruct (Hgo t l SOk l1 c1 ev1 Ht Hn) as [G1 G2]. eexists t, l, SOk, _, _. split_and!; [done|exact G1|done|]. left. split; [done|].
      cbn. rewrite G2. congruence.
Qed.

(** ** Runs *)

(** Two modules initialise the same singleton; a third thread waits in the first. *)
Definition demo_sched : list (nat * schoice) :=
  (0%nat, SGet (0, 7)%nat false) :: (1%nat, SGet (1, 7)%nat false) :: (2%nat, SGet (0, 7)%nat false) ::
  replicate 4 (0%nat, SOk) ++ replicate 6 (1%nat, SOk) ++ replicate 3 (2%nat, SOk) ++ replicate 7 (0%nat, SOk) ++
  replicate 5 (1%nat, SOk) ++ replicate 2 (2%nat, SOk).

Lemma singleton_exact_witness :
  ∃ st ev, arun singleton_next demo_sched (singleton_start 3) = Some (st, ev) ∧
    List.filter (λ e, match e with SGot _ _ | SNew _ _ => true | _ => false end) ev =
      [SNew 7 4096; SGot (0, 7)%nat 4096; SGot (1, 7)%nat 4096; SGot (0, 7)%nat 4096] ∧
    ∀ k k' p p', SGot k p ∈ ev → SGot k' p' ∈ ev → k.2 = k'.2 → p = p'.
Proof.
  destruct (arun singleton_next demo_sched (singleton_start 3)) as [[st ev]|] eqn:E; [|vm_compute in E; discriminate E].
  assert (Forall (λ tc, is_init tc.2) demo_sched) as Hf by (repeat constructor).
  destruct (singleton_exact 3 demo_sched st ev Hf E) as (_ & K & _).
  exists st, ev. split_and!; [done| |exact K].
  assert (snd <$> arun singleton_next demo_sched (singleton_start 3) = Some ev) as E' by (by rewrite E). clear E K.
  vm_compute in E'. injection E' as <-. by vm_compute.
Defined.

(** The constructor throws while another thread of the module waits: that thread
    goes on with a null pointer. *)
Lemma waiter_gets_null :
  let sched := (0%nat, SGet (0, 0)%nat false) :: (1%nat, SGet (0, 0)%nat false) :: replicate 5 (0%nat, SOk) ++
    replicate 3 (1%nat, SOk) ++ (0%nat, SThrow) :: (0%nat, SOk) :: (1%nat, SOk) :: (1%nat, SOk) :: nil in
  snd <$> arun singleton_next sched (singleton_start 2) = Some [SThrown (0, 0)%nat; SAssertFailed (0, 0)%nat].
Proof. by vm_compute. Qed.

(** The construction of the map throws and leaves its state at [Initializing]: a
    thread that initialises another singleton of the module spins for ever. *)
Lemma map_exception_blocks :
  let sched := (0%nat, SGet (0, 0)%nat false) :: replicate 4 (0%nat, SOk) ++ (0%nat, SThrow) :: (0%nat, SOk) ::
    (1%nat, SGet (0, 1)%nat false) :: replicate 3 (1%nat, SOk) in
  ∃ st ev, arun singleton_next sched (singleton_start 2) = Some (st, ev) ∧
    ∀ n, ∃ st', arun singleton_next (replicate n (1%nat, SOk)) st = Some (st', []) ∧ a_threads st' !! 1%nat = Some (IMapCas (0, 1)%nat).
Proof.
  cbv zeta. eexists _, _. split; [reflexivity|]. intros n.
  match goal with |- ∃ st', arun _ _ ?s = _ ∧ _ => generalize (eq_refl : map_initialized (a_shared s) 0%nat = Initializing);
    generalize (eq_refl : a_threads s = [GIdle; IMapCas (0, 1)%nat]); generalize s end.
  induction n as [|n IH]; intros st Et Em; [exists st; by rewrite Et|].
  cbn. destruct st as [c ts]. cbn in Et, Em. subst ts. unfold astep. cbn. rewrite Em. cbn.
  destruct (IH (ASys (set_map 0%nat Initializing c) [GIdle; IMapCas (0, 1)%nat])) as (st' & E & H); [done|cbn; by rewrite fn_lookup_insert|].
  exists st'. rewrite E. done.
Qed.

(** Two modules attach, are unloaded one after the other, and the second one
    deletes the object. *)
Lemma unload_deletes_once :
  let sched := (0%nat, SGet (0, 7)%nat false) :: replicate 11 (0%nat, SOk) ++ (1%nat, SGet (1, 7)%nat false) :: replicate 11 (1%nat, SOk) ++
    (0%nat, SFinal (0, 7)%nat) :: replicate 7 (0%nat, SOk) ++ (1%nat, SFinal (1, 7)%nat) :: replicate 7 (1%nat, SOk) in
  List.filter (λ e, match e with SNew _ _ | SDeleted _ _ | SAssertFailed _ => true | _ => false end) <$>
    (snd <$> arun singleton_next sched (singleton_start 2)) = Some [SNew 7 4096; SDeleted 7 4096].
Proof. by vm_compute. Qed.
