(* ===== verification/RobustMutex.v ===== *)
(** The emulated robust mutex.

    Models [robust_spin_mutex] of detail/robust_emulation.hpp over a spin mutex.
    Processes with one thread each interleave between the accesses of the shared
    words and the lock files; a process may die anywhere.  A lock file is locked by
    its process from the first [try_lock] until the process dies, as the operating
    system releases the locks of a dead process; the checks of another process's
    file (open, lock, delete) are one step.  Process numbers are not used again. *)

From stdpp Require Import functions.
From S2P Require Import Prelude Atomic.

(** ** State *)

Definition correct_state : Z := 0.
Definition fixing_state : Z := 1.
Definition broken_state : Z := 2.
Definition invalid_process_id : Z := 0.

Inductive lock_file := NoFile | LockedFile | UnlockedFile.

Record robust := Robust { r_mtx : Z; r_owner : Z; r_state : Z; r_files : Z → lock_file }.

Definition set_mtx (v : Z) (c : robust) : robust := Robust v (r_owner c) (r_state c) (r_files c).
Definition set_owner (v : Z) (c : robust) : robust := Robust (r_mtx c) v (r_state c) (r_files c).
Definition set_rstate (v : Z) (c : robust) : robust := Robust (r_mtx c) (r_owner c) v (r_files c).
Definition set_file (pid : Z) (f : lock_file) (c : robust) : robust :=
  Robust (r_mtx c) (r_owner c) (r_state c) (<[pid := f]> (r_files c)).

(** The process of thread [t]. *)
Definition pid_of (t : nat) : Z := Z.of_nat t + 1.

(** ** Threads *)

Inductive rloc :=
| RIdle
| RCheck                   (** [try_lock]: read of the state *)
| RFile                    (** [lock_own_unique_file] *)
| RTry                     (** [mtx.try_lock] *)
| ROwner                   (** write of the owner *)
| RRead                    (** [check_if_owner_dead_and_take_ownership_atomically] *)
| RDead (old : Z)          (** [is_owner_dead] *)
| RCas (old : Z)
| RTake                    (** [take_ownership] has no effect on a spin mutex; write of the state *)
| RHeld
| RConsState (held : bool)   (** [consistent], called by the holder or by another thread *)
| RConsOwner (held : bool)
| RConsWrite (held : bool)
| RUnlState                (** [unlock] *)
| RUnlBroken
| RUnlOwner
| RUnlMtx
| RCrashed.

Inductive rchoice :=
| RLock | RGo
| RFail (again : bool)     (** another thread has the mutex: try again or give up *)
| RConsistent | RUnlock | RCrash.

Inductive revent :=
| RLocked (t : nat)
| RRecovered (t : nat) (old : Z)   (** taken over from a dead process *)
| RInvalid (t : nat)               (** the owner field named no process *)
| RThrown (t : nat).

(** What the file of a process tells, and the files afterwards: a file that is not
    there or can be locked belongs to a dead process. *)
Definition is_owner_dead (own : Z) (c : robust) : bool * robust :=
  if own =? invalid_process_id then (true, c)
  else
    match r_files c own with
    | NoFile => (true, c)
    | UnlockedFile => (true, set_file own NoFile c)
    | LockedFile => (false, c)
    end.

(** Where [consistent] was called. *)
Definition cons_return (held : bool) : rloc := if held then RHeld else RIdle.

(** [try_lock], with [lock_own_unique_file]. *)
Definition try_lock_step (t : nat) (l : rloc) (c : robust) : option (rloc * robust * list revent) :=
  match l with
  | RCheck => Some (if r_state c =? broken_state then (RIdle, c, [RThrown t]) else (RFile, c, []))
  | RFile => Some (RTry, set_file (pid_of t) LockedFile c, [])
  | RTry =>
      let '(prev, v) := atomic_cas32 1 0 (r_mtx c) in
      Some (if prev =? 0 then ROwner else RRead, set_mtx v c, [])
  | ROwner => Some (RHeld, set_owner (pid_of t) c, [RLocked t])
  | _ => None
  end.

(** [robust_check]; [again] tells whether the caller tries again when the owner is
    alive, as [lock] does. *)
Definition robust_check_step (t : nat) (again : bool) (l : rloc) (c : robust) : option (rloc * robust * list revent) :=
  match l with
  | RRead => Some (RDead (r_owner c), c, [])
  | RDead old =>
      let '(dead, c) := is_owner_dead old c in
      if dead then Some (RCas old, c, if old =? invalid_process_id then [RInvalid t] else [])
      else Some (if again then RCheck else RIdle, c, [])
  | RCas old =>
      let '(seen, v) := atomic_cas32 (pid_of t) old (r_owner c) in
      Some (if old =? seen then (RTake, set_owner v c, [RRecovered t old]) else (RDead seen, set_owner v c, []))
  | RTake => Some (RHeld, set_rstate fixing_state c, [RLocked t])
  | _ => None
  end.

Definition consistent_step (t : nat) (l : rloc) (c : robust) : option (rloc * robust * list revent) :=
  match l with
  | RConsState held => Some (if negb (r_state c =? fixing_state) then RConsOwner held else RConsWrite held, c, [])
  | RConsOwner held =>
      Some (if negb (r_owner c =? pid_of t) then (cons_return held, c, [RThrown t]) else (RConsWrite held, c, []))
  | RConsWrite held => Some (cons_return held, set_rstate correct_state c, [])
  | _ => None
  end.

Definition unlock_step (l : rloc) (c : robust) : option (rloc * robust * list revent) :=
  match l with
  | RUnlState => Some (if r_state c =? fixing_state then RUnlBroken else RUnlOwner, c, [])
  | RUnlBroken => Some (RUnlOwner, set_rstate broken_state c, [])
  | RUnlOwner => Some (RUnlMtx, set_owner invalid_process_id c, [])
  | RUnlMtx => Some (RIdle, set_mtx (snd (atomic_cas32 0 1 (r_mtx c))) c, [])
  | _ => None
  end.

Definition previous_owner_dead (c : robust) : bool := r_state c =? fixing_state.

Definition robust_next (t : nat) (ch : rchoice) (l : rloc) (c : robust) : option (rloc * robust * list revent) :=
  match l, ch with
  | RCrashed, _ => None
  | _, RCrash =>
      Some (RCrashed, match r_files c (pid_of t) with LockedFile => set_file (pid_of t) UnlockedFile c | _ => c end, [])
  | RIdle, RLock => Some (RCheck, c, [])
  | RIdle, RConsistent => Some (RConsState false, c, [])
  | RHeld, RConsistent => Some (RConsState true, c, [])
  | RHeld, RUnlock => Some (RUnlState, c, [])
  | (RCheck | RFile | RTry | ROwner), RGo => try_lock_step t l c
  | (RRead | RDead _ | RCas _ | RTake), RGo => robust_check_step t false l c
  | RDead _, RFail again => robust_check_step t again l c
  | (RConsState _ | RConsOwner _ | RConsWrite _), RGo => consistent_step t l c
  | (RUnlState | RUnlBroken | RUnlOwner | RUnlMtx), RGo => unlock_step l c
  | _, _ => None
  end.

Definition robust_start (n : nat) : asys robust rloc :=
  ASys (Robust 0 invalid_process_id correct_state (λ _, NoFile)) (replicate n RIdle).
