(* ===== verification/RobustMutexProps.v ===== *)
(** The emulated robust mutex, as long as its owner field names a process. *)

From stdpp Require Import functions.
From S2P Require Import Prelude Atomic RobustMutex.

(** ** Owners *)

(** Threads between taking the mutex and giving it back. *)
Definition owns (l : rloc) : bool :=
  match l with
  | ROwner | RTake | RHeld | RConsState true | RConsOwner true | RConsWrite true | RUnlState | RUnlBroken | RUnlOwner | RUnlMtx => true
  | _ => false
  end.

(** Those that the owner field names. *)
Definition named (l : rloc) : bool := match l with ROwner | RUnlMtx => false | _ => owns l end.

(** Threads whose lock file need not be there. *)
Definition fileless (l : rloc) : bool :=
  match l with RIdle | RCheck | RFile | RConsState false | RConsOwner false | RConsWrite false | RCrashed => true | _ => false end.

Definition crashed (ts : list rloc) (pid : Z) : Prop := ∃ t, pid = pid_of t ∧ ts !! t = Some RCrashed.

(** A value of the owner field: no process, one that holds its lock file, or one
    that has died. *)
Definition known (c : robust) (ts : list rloc) (pid : Z) : Prop :=
  pid = invalid_process_id ∨ (∃ t, pid = pid_of t ∧ r_files c pid = LockedFile) ∨ crashed ts pid.

Definition rloc_ok (t : nat) (c : robust) (ts : list rloc) (l : rloc) : Prop :=
  (fileless l = false → r_files c (pid_of t) = LockedFile) ∧
  match l with
  | RDead old => known c ts old
  | RCas old => crashed ts old
  | RCrashed => r_files c (pid_of t) ≠ LockedFile
  | _ => True
  end.

Record robust_inv (c : robust) (ts : list rloc) : Prop := {
  ri_word : r_mtx c = 0 ∨ r_mtx c = 1;
  ri_one : tcount owns ts <= r_mtx c;
  ri_free : r_mtx c = 0 → r_owner c = invalid_process_id;
  ri_named : ∀ t l, ts !! t = Some l → owns l = true → r_owner c = if named l then pid_of t else invalid_process_id;
  ri_loc : ∀ t l, ts !! t = Some l → rloc_ok t c ts l;
  ri_known : known c ts (r_owner c)
}.

Lemma pid_inj t t' : pid_of t = pid_of t' → t = t'.
Proof. unfold pid_of. lia. Qed.
Lemma pid_valid t : pid_of t ≠ invalid_process_id.
Proof. unfold pid_of, invalid_process_id. lia. Qed.

(** What a step of [t] does to the lock files. *)
Record files_step (c c' : robust) (t : nat) (l' : rloc) : Prop := {
  fs_other : ∀ t', t' ≠ t → r_files c' (pid_of t') = LockedFile ↔ r_files c (pid_of t') = LockedFile;
  fs_own : r_files c (pid_of t) = LockedFile → r_files c' (pid_of t) = LockedFile ∨ l' = RCrashed
}.

Lemma crashed_mono ts t l l' pid : ts !! t = Some l → l ≠ RCrashed → crashed ts pid → crashed (<[t := l']> ts) pid.
Proof.
  intros Ht Hl (t0 & -> & H0). exists t0. split; [done|]. rewrite list_lookup_insert_ne; [done|]. intros ->. congruence.
Qed.

Lemma known_mono c c' ts t l l' pid : files_step c c' t l' → ts !! t = Some l → l ≠ RCrashed → known c ts pid → known c' (<[t := l']> ts) pid.
Proof.
  intros [F1 F2] Ht Hl [->|[(t0 & -> & H0)|Hc]]; [by left| |right; right; by eapply crashed_mono]. right.
  destruct (decide (t0 = t)) as [->|Hne]; [|left; exists t0; split; [done|]; by apply F1].
  destruct (F2 H0) as [|E]; [left; by exists t|right; exists t]. split; [done|]. rewrite E. apply list_lookup_insert_eq. by eapply lookup_lt_Some.
Qed.

Lemma robust_mk c c' ts t l l' : robust_inv c ts → ts !! t = Some l → l ≠ RCrashed → files_step c c' t l' →
  r_mtx c' = 0 ∨ r_mtx c' = 1 → tcount owns ts - b2z (owns l) + b2z (owns l') <= r_mtx c' →
  (r_mtx c' = 0 → r_owner c' = invalid_process_id) →
  (owns l' = true → r_owner c' = if named l' then pid_of t else invalid_process_id) →
  (owns l = true ∨ owns l' = true ∨ r_owner c' = r_owner c) →
  rloc_ok t c' (<[t := l']> ts) l' → known c' (<[t := l']> ts) (r_owner c') → robust_inv c' (<[t := l']> ts).
Proof.
  intros Hi Ht Hl Hf Hw H1 Hfree Hn Hown Hok Hk. destruct (tcount_split owns ts t l l' Ht) as (r & Hr & E & E'). split; [done|rewrite E'; lia|done| | |done].
  - intros t' l0 [(<- & <- & _)|[Hne Hl0]]%list_lookup_insert_Some Ho; [by apply Hn|].
    destruct Hown as [Ho'|[Ho'|Eo]]; [| |rewrite Eo; by apply (ri_named _ _ Hi)].
    + pose proof (tcount_two owns ts t t' _ _ Hne Ht Hl0 Ho' Ho). pose proof (ri_one _ _ Hi). destruct (ri_word _ _ Hi); lia.
    + pose proof (tcount_two owns (<[t := l']> ts) t t' l' l0 Hne) as K. rewrite E' in K. rewrite Ho' in *. cbn in *.
      assert (2 <= 1 + r); [|destruct Hw; lia]. apply K; try done; [apply list_lookup_insert_eq; by eapply lookup_lt_Some|by rewrite list_lookup_insert_ne].
  - intros t' l0 [(<- & <- & _)|[Hne Hl0]]%list_lookup_insert_Some; [done|]. destruct (ri_loc _ _ Hi _ _ Hl0) as [L1 L2]. pose proof (fs_other _ _ _ _ Hf t' ltac:(done)) as Hfo.
    split; [intros Hf0; by apply Hfo, L1|]. destruct l0; try done.
    + by eapply known_mono.
    + by eapply crashed_mono.
    + by rewrite Hfo.
Qed.

Lemma files_same c c' t l' : r_files c' = r_files c → files_step c c' t l'.
Proof. intros E. split; rewrite E; [done|by left]. Qed.

(** A step that keeps the words. *)
Lemma robust_quiet c ts t l l' c' : robust_inv c ts → ts !! t = Some l → l ≠ RCrashed → files_step c c' t l' →
  r_mtx c' = r_mtx c → r_owner c' = r_owner c → owns l' = owns l → named l' = named l → rloc_ok t c' (<[t := l']> ts) l' →
  robust_inv c' (<[t := l']> ts).
Proof.
  intros Hi Ht Hl Hf Em Eo Eow Ena Hok. apply (robust_mk c c' ts t l l'); try done; rewrite ?Em, ?Eo, ?Eow, ?Ena.
  - apply (ri_word _ _ Hi).
  - pose proof (ri_one _ _ Hi). lia.
  - apply (ri_free _ _ Hi).
  - intros Ho. by apply (ri_named _ _ Hi).
  - by right; right.
  - eapply known_mono; [done|done|done|]. apply Hi.
Qed.

Lemma owner_alone c ts t l : robust_inv c ts → ts !! t = Some l → owns l = true → tcount owns ts = 1 ∧ r_mtx c = 1.
Proof. intros Hi Ht Ho. pose proof (tcount_pos owns ts t l Ht Ho). pose proof (ri_one _ _ Hi). destruct (ri_word _ _ Hi); lia. Qed.

Lemma robust_crash c ts t l : robust_inv c ts → ts !! t = Some l → l ≠ RCrashed →
  robust_inv (match r_files c (pid_of t) with LockedFile => set_file (pid_of t) UnlockedFile c | _ => c end) (<[t := RCrashed]> ts).
Proof.
  intros Hi Ht Hl. set (c' := match _ with LockedFile => _ | _ => c end).
  assert (r_mtx c' = r_mtx c ∧ r_owner c' = r_owner c) as [Em Eo] by (subst c'; by destruct (r_files c (pid_of t))).
  assert (r_files c' (pid_of t) ≠ LockedFile) as Hown.
  { subst c'. destruct (r_files c (pid_of t)) eqn:E; cbn; rewrite ?E, ?fn_lookup_insert; done. }
  assert (files_step c c' t RCrashed) as Hf.
  { split; [|by right]. intros t' Hne. subst c'. destruct (r_files c (pid_of t)) eqn:E; [done| |done]. cbn.
    rewrite fn_lookup_insert_ne; [done|]. by intros ?%pid_inj. }
  apply (robust_mk c c' ts t l RCrashed); try done; rewrite ?Em, ?Eo.
  - apply (ri_word _ _ Hi).
  - pose proof (ri_one _ _ Hi). cbn. destruct (owns l); cbn; lia.
  - apply (ri_free _ _ Hi).
  - by right; right.
  - eapply known_mono; [done|done|done|]. apply Hi.
Qed.

Lemma dead_spec own c dead c' : is_owner_dead own c = (dead, c') →
  r_mtx c' = r_mtx c ∧ r_owner c' = r_owner c ∧ (∀ pid, r_files c' pid = LockedFile ↔ r_files c pid = LockedFile) ∧
  (own ≠ invalid_process_id → dead = true → r_files c own ≠ LockedFile).
Proof.
  unfold is_owner_dead. destruct (Z.eqb_spec own invalid_process_id); [by intros [= <- <-]|].
  destruct (r_files c own) eqn:E; intros [= <- <-]; cbn; split_and!; try done.
  intros pid. destruct (decide (own = pid)) as [<-|]; [rewrite fn_lookup_insert, E|rewrite fn_lookup_insert_ne by done]; done.
Qed.

Lemma files_iff c c' t l' : (∀ pid, r_files c' pid = LockedFile ↔ r_files c pid = LockedFile) → files_step c c' t l'.
Proof. intros Hf. split; [intros; apply Hf|]. intros H. left. by apply Hf. Qed.

(** Taking the mutex over from a process that has died. *)
Lemma robust_takeover c ts t old : robust_inv c ts → ts !! t = Some (RCas old) → r_owner c = old → tcount owns ts = 0 ∧ r_mtx c = 1 ∧ old ≠ pid_of t.
Proof.
  intros Hi Ht Eo. destruct (ri_loc _ _ Hi _ _ Ht) as [_ (t0 & -> & H0)].
  assert (r_mtx c = 1) as Em by (destruct (ri_word _ _ Hi) as [E|]; [|done]; by destruct (pid_valid t0); rewrite <- Eo; apply (ri_free _ _ Hi)).
  split_and!; [|done|intros ->%pid_inj; congruence]. pose proof (tcount_nonneg owns ts). destruct (Z.eq_dec (tcount owns ts) 0) as [|Hne]; [done|].
  destruct (tcount_exists owns ts) as (t1 & l1 & Ht1 & Ho); [lia|]. pose proof (ri_named _ _ Hi _ _ Ht1 Ho) as E. rewrite Eo in E.
  destruct (named l1) eqn:En; [|by destruct (pid_valid t0)]. apply pid_inj in E as ->. rewrite H0 in Ht1. by injection Ht1 as <-.
Qed.

(** The check of the owner. *)
Lemma robust_dead c ts t (again : bool) old dead c1 l' c' ev : robust_inv c ts → ts !! t = Some (RDead old) → is_owner_dead old c = (dead, c1) →
  (if dead then Some (RCas old, c1, if old =? invalid_process_id then [RInvalid t] else [])
   else Some (if again then RCheck else RIdle, c1, [])) = Some (l', c', ev) → RInvalid t ∉ ev →
  robust_inv c' (<[t := l']> ts) ∧ ∀ t0 old, RRecovered t0 old ∈ ev → t0 = t ∧ crashed ts old ∧ old ≠ pid_of t ∧ tcount owns ts = 0.
Proof.
  intros Hi Ht Ed Hn Hev. destruct (dead_spec _ _ _ _ Ed) as (D1 & D2 & D3 & D4). destruct (ri_loc _ _ Hi _ _ Ht) as [Hfile Hk]. cbn in Hk.
  destruct dead.
  - injection Hn as <- <- <-. destruct (Z.eqb_spec old invalid_process_id) as [|Hne]; [set_solver|]. split; [|set_solver].
    apply (robust_quiet c ts t (RDead old)); try done; [by apply files_iff|]. split; [intros _; by apply D3, Hfile|]. cbn.
    destruct Hk as [?|[(t0 & -> & H0)|Hc]]; [done|by specialize (D4 Hne eq_refl)|]. by eapply crashed_mono.
  - injection Hn as <- <- <-. split; [|set_solver]. set (l1 := if again then RCheck else RIdle).
    assert (l1 = RCheck ∨ l1 = RIdle) as Hl by (subst l1; destruct again; auto).
    apply (robust_quiet c ts t (RDead old)); try done; [by apply files_iff|by destruct Hl as [-> | ->]..|]. by destruct Hl as [-> | ->].
Qed.

Lemma robust_step c ts t ch l l' c' ev : robust_inv c ts → ts !! t = Some l → robust_next t ch l c = Some (l', c', ev) → RInvalid t ∉ ev →
  robust_inv c' (<[t := l']> ts) ∧ ∀ t0 old, RRecovered t0 old ∈ ev → t0 = t ∧ crashed ts old ∧ old ≠ pid_of t ∧ tcount owns ts = 0.
Proof.
  intros Hi Ht Hn Hev. destruct (ri_loc _ _ Hi _ _ Ht) as [Hfile Hloc]. pose proof (ri_known _ _ Hi) as Hk.
  assert (∀ t0 old, RRecovered t0 old ∈ [] → False) as Hnil by (intros ??; set_solver).
  assert (∀ l1, l ≠ RCrashed → r_files c' = r_files c → r_mtx c' = r_mtx c → r_owner c' = r_owner c → l' = l1 → owns l1 = owns l → named l1 = named l →
    (fileless l1 = false → fileless l = false) → match l1 with RDead _ | RCas _ | RCrashed => False | _ => True end → robust_inv c' (<[t := l']> ts)) as Hq.
  { intros l1 H1 H2 H3 H4 -> H5 H6 H7 H8. apply (robust_quiet c ts t l l1); try done; [by apply files_same|].
    split; [rewrite H2; by intros ?%H7%Hfile|by destruct l1]. }
  destruct ch.
  6: { destruct l; try discriminate Hn; cbn in Hn; injection Hn as <- <- <-; (split; [by eapply robust_crash|naive_solver]). }
  all: destruct l as [| | | | | |old|old| | |held|held|held| | | | |]; try discriminate Hn; cbn in Hn.
  - injection Hn as <- <- <-. split; [by eapply (Hq RCheck)|naive_solver].
  - destruct (r_state c =? broken_state); injection Hn as <- <- <-; (split; [|set_solver]); [by eapply (Hq RIdle)|by eapply (Hq RFile)].
  - injection Hn as <- <- <-. split; [|naive_solver]. apply (robust_quiet c ts t RFile); try done.
    + split; cbn; [|left; by rewrite fn_lookup_insert]. intros t' Hne. rewrite fn_lookup_insert_ne; [done|]. by intros ?%pid_inj.
    + split; [|done]. cbn. by rewrite fn_lookup_insert.
  - (* try *) injection Hn as <- <- <-. split; [|naive_solver]. destruct (Z.eqb_spec (r_mtx c) 0) as [E|Hne]; cbn.
    + pose proof (ri_one _ _ Hi). pose proof (tcount_nonneg owns ts). apply (robust_mk c _ ts t RTry ROwner); cbn; try done; try lia.
      * by apply files_same.
      * intros _. by apply (ri_free _ _ Hi).
      * eapply (known_mono c _ _ _ RTry); [by apply files_same|done..].
    + destruct c. cbn in *. by eapply (Hq RRead).
  - (* owner *) destruct (owner_alone _ _ _ _ Hi Ht eq_refl) as [O1 O2]. injection Hn as <- <- <-. split; [|set_solver].
    apply (robust_mk c _ ts t ROwner RHeld); cbn; try done; try lia.
    + by apply files_same.
    + right. left. exists t. split; [done|]. by apply Hfile.
  - injection Hn as <- <- <-. split; [|naive_solver]. apply (robust_quiet c ts t RRead); try done; [by apply files_same|].
    split; [by intros _; apply Hfile|]. eapply (known_mono c _ _ _ RRead); [by apply files_same|done..].
  - (* dead *) destruct (is_owner_dead old c) as [dead c1] eqn:Ed. by apply (robust_dead c ts t false old dead c1).
  - (* cas *) destruct (Z.eqb_spec old (r_owner c)) as [E|Hne].
    + destruct (robust_takeover c ts t old Hi Ht (eq_sym E)) as (T1 & T2 & T3). rewrite <- E, Z.eqb_refl in Hn. injection Hn as <- <- <-. split.
      * apply (robust_mk c _ ts t (RCas old) RTake); cbn; try done; try lia; [by apply files_same|].
        right. left. exists t. split; [done|]. by apply Hfile.
      * intros t0 old0 [= -> ->]%list_elem_of_singleton. by split_and!.
    + destruct (Z.eqb_spec (r_owner c) old) as [E|_]; [congruence|]. injection Hn as <- <- <-. split; [|naive_solver].
      apply (robust_quiet c ts t (RCas old)); try done; [by apply files_same|]. split; [by intros _; apply Hfile|]. by eapply (known_mono c _ _ _ (RCas old)); [apply files_same|..].
  - (* take *) injection Hn as <- <- <-. split; [by eapply (Hq RHeld)|set_solver].
  - injection Hn as <- <- <-. split; [|naive_solver]. destruct (negb _), held; first [by eapply (Hq (RConsOwner true))|by eapply (Hq (RConsOwner false))|by eapply (Hq (RConsWrite true))|by eapply (Hq (RConsWrite false))].
  - destruct (negb _); injection Hn as <- <- <-; (split; [|set_solver]); destruct held;
      first [by eapply (Hq RHeld)|by eapply (Hq RIdle)|by eapply (Hq (RConsWrite true))|by eapply (Hq (RConsWrite false))].
  - injection Hn as <- <- <-. split; [|naive_solver]. destruct held; first [by eapply (Hq RHeld)|by eapply (Hq RIdle)].
  - injection Hn as <- <- <-. split; [|naive_solver]. destruct (_ =? _); first [by eapply (Hq RUnlBroken)|by eapply (Hq RUnlOwner)].
  - injection Hn as <- <- <-. split; [|naive_solver]. by eapply (Hq RUnlOwner).
  - (* unlock *) destruct (owner_alone _ _ _ _ Hi Ht eq_refl) as [O1 O2]. injection Hn as <- <- <-. split; [|naive_solver].
    apply (robust_mk c _ ts t RUnlOwner RUnlMtx); cbn; try done; try lia; [by apply files_same|by left].
  - destruct (owner_alone _ _ _ _ Hi Ht eq_refl) as [O1 O2]. rewrite O2 in Hn. cbn in Hn. injection Hn as <- <- <-. split; [|naive_solver].
    apply (robust_mk c _ ts t RUnlMtx RIdle); cbn; try done; try lia; [by apply files_same|intros _; by apply (ri_named _ _ Hi _ _ Ht)|].
    by eapply (known_mono c _ _ _ RUnlMtx); [apply files_same|..].
  - destruct (is_owner_dead old c) as [dead c1] eqn:Ed. by apply (robust_dead c ts t again old dead c1).
  - injection Hn as <- <- <-. split; [by eapply (Hq (RConsState false))|naive_solver].
  - injection Hn as <- <- <-. split; [by eapply (Hq (RConsState true))|naive_solver].
  - injection Hn as <- <- <-. split; [by eapply (Hq RUnlState)|naive_solver].
Qed.

(** ** Runs *)

Definition no_invalid (ev : list revent) : Prop := ∀ t, RInvalid t ∉ ev.

Definition run_inv (st : asys robust rloc) (es : list revent) : Prop :=
  no_invalid es → robust_inv (a_shared st) (a_threads st) ∧ ∀ t old, RRecovered t old ∈ es → crashed (a_threads st) old.

Lemma robust_step_inv st es t ch st' ev : run_inv st es → astep robust_next t ch st = Some (st', ev) → run_inv st' (es ++ ev).
Proof.
  destruct st as [c ts]. intros Hi (l & l' & c' & Ht & Hn & ->)%astep_inv Hno.
  destruct Hi as [Hi Hrec]; [intros t0 H0; apply (Hno t0), elem_of_app; by left|]. cbn in *.
  destruct (robust_step c ts t ch l l' c' ev Hi Ht Hn) as [Hs Hr]; [intros H; apply (Hno t), elem_of_app; by right|].
  split; [done|]. assert (l ≠ RCrashed) as Hl by (intros ->; discriminate Hn).
  intros t0 old [H|H]%elem_of_app; (eapply crashed_mono; [done|done|]); [by eapply Hrec|by eapply Hr].
Qed.

Lemma robust_run_inv n sched st ev : arun robust_next sched (robust_start n) = Some (st, ev) → run_inv st ev.
Proof.
  apply arun_ind; [apply robust_step_inv|]. intros _. split; [|set_solver].
  assert (∀ t l, replicate n RIdle !! t = Some l → l = RIdle) as Hr by (by intros t l [-> _]%lookup_replicate).
  split; cbn; [by left|by rewrite tcount_replicate|done|by intros t l ->%Hr|by intros t l ->%Hr|by left].
Qed.

(** The take-over by one thread. *)
Lemma robust_recovers c ts t : robust_inv c ts → crashed ts (r_owner c) → ts !! t = Some RTry →
  ∃ st' ev', arun robust_next (replicate 5 (t, RGo)) (ASys c ts) = Some (st', ev') ∧ a_threads st' !! t = Some RHeld ∧
    previous_owner_dead (a_shared st') = true ∧ r_owner (a_shared st') = pid_of t.
Proof.
  intros Hi (t0 & E0 & H0) Ht. pose proof (lookup_lt_Some _ _ _ Ht) as Hlen.
  assert (r_mtx c = 1) as Em by (destruct (ri_word _ _ Hi) as [E|]; [|done]; destruct (pid_valid t0); rewrite <- E0; by apply (ri_free _ _ Hi)).
  destruct (ri_loc _ _ Hi _ _ H0) as [_ Hf]. cbn in Hf. rewrite <- E0 in Hf. destruct (Z.eqb_spec (r_owner c) invalid_process_id) as [E|Hne]; [by destruct (pid_valid t0); rewrite <- E0|].
  destruct c as [m o s fs]. cbn in *. subst m.
  assert (∀ l ch sh, astep robust_next t ch (ASys sh (<[t := l]> ts)) =
    '(l', sh', ev) ← robust_next t ch l sh; Some (ASys sh' (<[t := l']> ts), ev)) as Hstep.
  { intros l ch sh. unfold astep. cbn [a_threads a_shared]. rewrite list_lookup_insert_eq by done. cbn [mbind option_bind].
    destruct (robust_next t ch l sh) as [[[l' sh'] ev]|]; [|done]. cbn. by rewrite list_insert_insert_eq. }
  rewrite <- (list_insert_id ts t RTry Ht). cbn -[astep].
  rewrite Hstep. cbn -[astep]. rewrite Hstep. cbn -[astep]. rewrite Hstep. cbn -[astep is_owner_dead].
  unfold is_owner_dead. cbn [r_files set_mtx r_owner]. destruct (Z.eqb_spec o invalid_process_id); [done|].
  destruct (fs o) eqn:Ef; [|done|]; cbn -[astep]; rewrite Hstep; cbn -[astep]; rewrite Z.eqb_refl; cbn -[astep]; rewrite Hstep; cbn -[astep].
  all: eexists _, _; split; [reflexivity|]; cbn; by rewrite list_lookup_insert_eq.
Qed.

(** C27: The emulated robust mutex under any interleaving of processes that may die
    anywhere, as long as no process finds the owner field without a process in it:
    at most one living thread owns the mutex, the word is set and the field names
    the thread once it has returned from [lock]; the mutex is taken over only from
    processes that have died; and if the process named in the field has died, a
    thread that tries to lock has the mutex after five steps of its own, in the
    state that tells it to repair the data. *)
Theorem robust_exclusion n sched st ev (Hrun : arun robust_next sched (robust_start n) = Some (st, ev)) (Hno : no_invalid ev) :
  (∀ t t' l l', a_threads st !! t = Some l → a_threads st !! t' = Some l' → owns l = true → owns l' = true → t = t') ∧
  (∀ t, a_threads st !! t = Some RHeld → r_owner (a_shared st) = pid_of t ∧ r_mtx (a_shared st) = 1) ∧
  (∀ t old, RRecovered t old ∈ ev → crashed (a_threads st) old) ∧
  (∀ t, crashed (a_threads st) (r_owner (a_shared st)) → a_threads st !! t = Some RTry →
     ∃ st' ev', arun robust_next (replicate 5 (t, RGo)) st = Some (st', ev') ∧ a_threads st' !! t = Some RHeld ∧
       previous_owner_dead (a_shared st') = true ∧ r_owner (a_shared st') = pid_of t).
Proof.
  destruct (robust_run_inv n sched st ev Hrun Hno) as [Hi Hrec]. destruct st as [c ts]. cbn in *. split_and!.
  - intros t t' l l' Ht Ht' Ho Ho'. destruct (decide (t = t')) as [|Hne]; [done|].
    pose proof (tcount_two owns ts t t' _ _ Hne Ht Ht' Ho Ho'). pose proof (ri_one _ _ Hi). destruct (ri_word _ _ Hi); lia.
  - intros t Ht. destruct (owner_alone _ _ _ _ Hi Ht eq_refl). split; [|done]. by apply (ri_named _ _ Hi _ _ Ht).
  - done.
  - intros t Hc Ht. by apply robust_recovers.
Qed.

(** A process dies with the mutex, another takes it over, gives it back without
    calling [consistent], and the mutex is broken. *)
Definition crash_sched : list (nat * rchoice) :=
  (0%nat, RLock) :: replicate 4 (0%nat, RGo) ++ (0%nat, RCrash) :: (1%nat, RLock) :: replicate 2 (1%nat, RGo).

Lemma robust_exclusion_witness :
  ∃ st ev, arun robust_next crash_sched (robust_start 3) = Some (st, ev) ∧ no_invalid ev ∧ a_threads st !! 1%nat = Some RTry ∧
    ∃ st' ev', arun robust_next (replicate 5 (1%nat, RGo)) st = Some (st', ev') ∧ a_threads st' !! 1%nat = Some RHeld ∧
       previous_owner_dead (a_shared st') = true ∧ r_owner (a_shared st') = pid_of 1.
Proof.
  destruct (arun robust_next crash_sched (robust_start 3)) as [[st ev]|] eqn:E; [|vm_compute in E; discriminate E].
  assert (a_threads st = [RCrashed; RTry; RIdle] ∧ r_owner (a_shared st) = 1 ∧ ev = [RLocked 0]) as (E1 & E2 & E3)
    by (vm_compute in E; injection E as <- <-; done).
  assert (no_invalid ev) as Hno by (subst ev; intros t; set_solver).
  exists st, ev. split_and!; [done|done|by rewrite E1|].
  destruct (robust_exclusion 3 crash_sched st ev E Hno) as (_ & _ & _ & K). apply (K 1%nat); [|by rewrite E1].
  rewrite E1, E2. by exists 0%nat.
Defined.

Lemma unrepaired_breaks :
  let sched := crash_sched ++ replicate 5 (1%nat, RGo) ++ (1%nat, RUnlock) :: replicate 4 (1%nat, RGo) ++ (2%nat, RLock) :: (2%nat, RGo) :: nil in
  match arun robust_next sched (robust_start 3) with
  | Some (st, ev) => r_state (a_shared st) = broken_state ∧ ev = [RLocked 0; RRecovered 1 1; RLocked 1; RThrown 2]
  | None => False
  end.
Proof. by vm_compute. Qed.

(** Nobody dies, and two threads have the mutex: one has not yet written its name
    into the owner field when the other looks. *)
Lemma robust_two_owners :
  let sched := (0%nat, RLock) :: replicate 3 (0%nat, RGo) ++ (1%nat, RLock) :: replicate 7 (1%nat, RGo) ++ (0%nat, RGo) :: nil in
  match arun robust_next sched (robust_start 2) with
  | Some (st, _) => a_threads st = [RHeld; RHeld]
  | None => False
  end.
Proof. by vm_compute. Qed.

(** A thread whose [try_lock] failed before the owner gave the mutex back takes it
    without setting the word, so that a third thread gets it as well. *)
Lemma robust_stale_check :
  let sched := (0%nat, RLock) :: replicate 4 (0%nat, RGo) ++ (1%nat, RLock) :: replicate 3 (1%nat, RGo) ++
    (0%nat, RUnlock) :: replicate 3 (0%nat, RGo) ++ replicate 4 (1%nat, RGo) ++ (2%nat, RLock) :: replicate 4 (2%nat, RGo) in
  match arun robust_next sched (robust_start 3) with
  | Some (st, _) => a_threads st = [RIdle; RHeld; RHeld]
  | None => False
  end.
Proof. by vm_compute. Qed.

(** [consistent] by a thread that does not have the mutex: the test accepts it
    because the state is [fixing_state]. *)
Lemma foreign_consistent :
  let sched := crash_sched ++ replicate 5 (1%nat, RGo) ++ (2%nat, RConsistent) :: replicate 2 (2%nat, RGo) in
  match arun robust_next sched (robust_start 3) with
  | Some (st, _) => a_threads st = [RCrashed; RHeld; RIdle] ∧ r_state (a_shared st) = correct_state
  | None => False
  end.
Proof. by vm_compute. Qed.
