(* ===== verification/SyncHandles.v ===== *)
(** Handles of Windows synchronisation objects.

    Models sync/windows/sync_utils.hpp: the table of a process that finds the handle
    of a mutex or semaphore in shared memory by its identifier, and the handles to
    close by the addresses of a region that is unmapped.  The table is protected by
    a spin mutex, so an operation is one step.  The system calls that open an object
    by name are a parameter (class [WinOS]); the system's table of the open handles
    of the process is part of the state. *)

From S2P Require Import Prelude MappedRegion.

(** ** Names *)

Definition Characters : list Z := [48; 49; 50; 51; 52; 53; 54; 55; 56; 57; 65; 66; 67; 68; 69; 70].

(** The loop; the bytes are of type [char], which is signed. *)
Definition hex_digits (mem : list Z) : list Z :=
  b ← mem; [nth (Z.to_nat (Z.shiftr (Z.land b 240) 4)) Characters 0; nth (Z.to_nat (Z.land b 15)) Characters 0].

(** The result, the length afterwards and what was written. *)
Definition bytes_to_str (mem : list Z) (out_length : Z) : bool * Z * list Z :=
  let need_mem := Z.of_nat (length mem) * 2 + 1 in
  if out_length <? need_mem then (false, need_mem, []) else (true, out_length, hex_digits mem ++ [0]).

(** The bytes of a [sync_id], the lowest first. *)
Definition signed_char (b : Z) : Z := if b <? 128 then b else b - 256.
Definition internal_pod (id : Z) : list Z := (λ i, signed_char (Z.land (Z.shiftr id (8 * i)) 255)) <$> seqZ 0 8.

(** "Global\boost.ipc" *)
Definition global_prefix : list Z := [71; 108; 111; 98; 97; 108; 92; 98; 111; 111; 115; 116; 46; 105; 112; 99].
Definition LengthOfGlobal : Z := 16.
Definition StrSize : Z := LengthOfGlobal + (8 * 2 + 1).

Definition fill_name (id : Z) : list Z :=
  global_prefix ++ snd (bytes_to_str (internal_pod id) (StrSize - LengthOfGlobal)).

(** ** State *)

Inductive sync_type := MUTEX | SEMAPHORE.

(** The handle the system gives for an object of that name, 0 if it fails; the
    initial count of a semaphore is passed on to the system. *)
Class WinOS := { os_open : gmap Z (sync_type * list Z) → sync_type → list Z → Z }.

Record handles := Handles {
  umap_ : gmap Z Z;                         (** identifier to handle *)
  map_ : list (Z * Z);                      (** address and identifier, ordered by address *)
  num_handles_ : Z;
  open_handles : gmap Z (sync_type * list Z)   (** the system's table *)
}.

Definition set_umap (u : gmap Z Z) (s : handles) : handles := Handles u (map_ s) (num_handles_ s) (open_handles s).
Definition set_addrs (l : list (Z * Z)) (s : handles) : handles := Handles (umap_ s) l (num_handles_ s) (open_handles s).
Definition set_num (n : Z) (s : handles) : handles := Handles (umap_ s) (map_ s) n (open_handles s).
Definition set_open (o : gmap Z (sync_type * list Z)) (s : handles) : handles := Handles (umap_ s) (map_ s) (num_handles_ s) o.

(** ** The ordered map of addresses *)

(** The position of the first entry whose address is not less. *)
Fixpoint lower_bound (a : Z) (l : list (Z * Z)) : nat :=
  match l with
  | [] => 0
  | e :: l => if e.1 <? a then S (lower_bound a l) else 0
  end.

(** [map_.find(a) != map_.end()] *)
Definition addr_found (a : Z) (l : list (Z * Z)) : bool := existsb (λ e, e.1 =? a) l.

(** [map_[a] = id] *)
Definition addr_assign (a id : Z) (l : list (Z * Z)) : list (Z * Z) :=
  let i := lower_bound a l in
  take i l ++ (a, id) :: drop (if addr_found a l then S i else i) l.

(** [map_.erase(a)] *)
Definition addr_erase (a : Z) (l : list (Z * Z)) : list (Z * Z) :=
  let i := lower_bound a l in
  if addr_found a l then take i l ++ drop (S i) l else l.

(** ** Operations *)

Section sync_handles.
Context `{WinOS}.
Local Open Scope u64_scope.

Definition open_or_create (k : sync_type) (id : Z) : M handles Z :=
  s ← get;
  let hnd := os_open (open_handles s) k (fill_name id) in
  (if nz hnd then put (set_open (<[hnd := (k, fill_name id)]> (open_handles s)) s) else mret ());;
  mret hnd.

Definition open_or_create_semaphore (id : Z) : M handles Z := open_or_create SEMAPHORE id.
Definition open_or_create_mutex (id : Z) : M handles Z := open_or_create MUTEX id.

(** [CloseHandle] *)
Definition close_handle (hnd : Z) : M handles bool :=
  s ← get;
  put (set_open (delete hnd (open_handles s)) s);;
  mret (bool_decide (is_Some (open_handles s !! hnd))).

(** The body of [obtain_mutex] and [obtain_semaphore], which differ in the object
    they open.  [None] is the exception of [throw_if_error]; otherwise the handle,
    with [*popen_created] where it is asked for. *)
Definition obtain (open : M handles Z) (id mapping_address : Z) (popen_created : bool) : M handles (option (Z * option bool)) :=
  s ← get;
  put (set_umap (match umap_ s !! id with Some _ => umap_ s | None => <[id := 0]> (umap_ s) end) s);;
  let hnd_val := default 0 (umap_ s !! id) in
  if negb (nz hnd_val) then
    boost_assert (negb (addr_found mapping_address (map_ s)));;
    modify (λ s, set_addrs (addr_assign mapping_address id (map_ s)) s);;
    hnd ← open;
    if negb (nz hnd) then mret None
    else
      modify (λ s, set_umap (<[id := hnd]> (umap_ s)) s);;
      modify (λ s, set_num (num_handles_ s +! 1) s);;
      mret (Some (hnd, if popen_created then Some true else None))
  else if popen_created then
    boost_assert (addr_found mapping_address (map_ s));;
    mret (Some (hnd_val, Some false))
  else mret (Some (hnd_val, None)).

Definition obtain_mutex (id mapping_address : Z) (popen_created : bool) : M handles (option (Z * option bool)) :=
  obtain (open_or_create_mutex id) id mapping_address popen_created.
Definition obtain_semaphore (id mapping_address : Z) (popen_created : bool) : M handles (option (Z * option bool)) :=
  obtain (open_or_create_semaphore id) id mapping_address popen_created.

Definition destroy_handle (id mapping_address : Z) : M handles () :=
  s ← get;
  match umap_ s !! id with
  | Some hnd =>
      _ ← close_handle hnd;
      modify (λ s, set_num (num_handles_ s -! 1) s);;
      let i := addr_found mapping_address (map_ s) in
      modify (λ s, set_addrs (addr_erase mapping_address (map_ s)) s);;
      boost_assert i;;
      modify (λ s, set_umap (delete id (umap_ s)) s)
  | None => mret ()
  end.

(** The loop over the entries of the range. *)
Fixpoint destroy_entries (l : list (Z * Z)) : M handles () :=
  match l with
  | [] => mret ()
  | (_, ukey) :: l =>
      s ← get;
      match umap_ s !! ukey with
      | None => throw AssertFailed
      | Some hnd =>
          modify (λ s, set_umap (delete ukey (umap_ s)) s);;
          ret ← close_handle hnd;
          modify (λ s, set_num (num_handles_ s -! 1) s);;
          boost_assert ret;;
          destroy_entries l
      end
  end.

Definition destroy_syncs_in_range (addr size : Z) : M handles () :=
  s ← get;
  let itlow := lower_bound addr (map_ s) in
  let ithig := lower_bound (addr + size) (map_ s) in
  destroy_entries (take (ithig - itlow) (drop itlow (map_ s)));;
  modify (set_addrs (take itlow (map_ s) ++ drop ithig (map_ s))).

Definition sync_handles_ctor : handles := Handles ∅ [] 0 ∅.

(** What closing a mapped region does to the table on Windows. *)
Definition close_syncs (r : region) : M handles () :=
  if negb (m_base r =? 0) then destroy_syncs_in_range (priv_map_address r) (m_size r) else mret ().

(** The destructor's check. *)
Definition sync_handles_dtor : M handles () :=
  s ← get;
  boost_assert (num_handles_ s =? 0).

End sync_handles.
