(* ===== verification/SyncHandlesProps.v ===== *)
(** The table of handles is exact: one open handle per live object. *)

From stdpp Require Import sorting.
From S2P Require Import Prelude MappedRegion SyncHandles.

(** ** Names *)

Definition digit_value (c : Z) : Z := if c <? 65 then c - 48 else c - 55.

(** Decoding of [hex_digits]. *)
Fixpoint str_to_bytes (l : list Z) : list Z :=
  match l with
  | c1 :: c2 :: l => signed_char (digit_value c1 * 16 + digit_value c2) :: str_to_bytes l
  | _ => []
  end.

Definition char_decodes (b : Z) : bool := bool_decide (str_to_bytes (hex_digits [b]) = [b]).

Lemma all_chars_decode : forallb char_decodes (seqZ (-128) 256) = true.
Proof. by vm_compute. Qed.

Lemma hex_roundtrip mem : Forall (λ b, -128 <= b < 128) mem → str_to_bytes (hex_digits mem) = mem.
Proof.
  induction 1 as [|b mem Hb _ IH]; [done|]. pose proof all_chars_decode as Ha. rewrite forallb_forall in Ha.
  specialize (Ha b). rewrite <- list_elem_of_In, elem_of_seqZ in Ha. specialize (Ha ltac:(lia)). apply bool_decide_eq_true in Ha.
  cbn in Ha |- *. f_equal; [by injection Ha|exact IH].
Qed.

Lemma signed_char_range x : -128 <= signed_char (Z.land x 255) < 128.
Proof.
  assert (0 <= Z.land x 255 < 256) by (change 255 with (Z.ones 8); rewrite Z.land_ones by lia; apply Z.mod_pos_bound; lia).
  unfold signed_char. destruct (Z.ltb_spec (Z.land x 255) 128); lia.
Qed.

Lemma signed_char_inj x y : signed_char (Z.land x 255) = signed_char (Z.land y 255) → x mod 256 = y mod 256.
Proof.
  change 255 with (Z.ones 8). rewrite !Z.land_ones by lia. change (2 ^ 8) with 256. intros E.
  pose proof (Z.mod_pos_bound x 256). pose proof (Z.mod_pos_bound y 256). unfold signed_char in E.
  destruct (Z.ltb_spec (x mod 256) 128), (Z.ltb_spec (y mod 256) 128); lia.
Qed.

Lemma bytes_agree x y n : 0 <= n → (∀ i, 0 <= i < n → Z.shiftr x (8 * i) mod 256 = Z.shiftr y (8 * i) mod 256) →
  x mod 2 ^ (8 * n) = y mod 2 ^ (8 * n).
Proof.
  intros Hn. pattern n. apply natlike_ind; [by rewrite !Z.mod_1_r| |done]. clear n Hn. intros n Hn IH Hb.
  specialize (IH ltac:(intros; apply Hb; lia)). specialize (Hb n ltac:(lia)). rewrite !Z.shiftr_div_pow2 in Hb by lia.
  replace (8 * Z.succ n) with (8 * n + 8) by lia. rewrite Z.pow_add_r by lia. change (2 ^ 8) with 256.
  rewrite !Z.rem_mul_r by lia. by rewrite IH, Hb.
Qed.

Lemma internal_pod_inj id id' : -2 ^ 63 <= id < 2 ^ 63 → -2 ^ 63 <= id' < 2 ^ 63 → internal_pod id = internal_pod id' → id = id'.
Proof.
  intros H H' E. assert (id mod 2 ^ (8 * 8) = id' mod 2 ^ (8 * 8)) as Em.
  { apply bytes_agree; [lia|]. intros i Hi. apply signed_char_inj. apply (f_equal (.!! Z.to_nat i)) in E.
    unfold internal_pod in E. rewrite !list_lookup_fmap, !lookup_seqZ_lt in E by lia. cbn [fmap option_fmap option_map] in E.
    replace (0 + Z.of_nat (Z.to_nat i)) with i in E by lia. by injection E. }
  change (8 * 8) with 64 in Em. pose proof (Z.div_mod id (2 ^ 64)). pose proof (Z.div_mod id' (2 ^ 64)). lia.
Qed.

Lemma internal_pod_chars id : Forall (λ b, -128 <= b < 128) (internal_pod id).
Proof. apply Forall_fmap, Forall_true. intros i. apply signed_char_range. Qed.

Lemma fill_name_eq id : fill_name id = global_prefix ++ hex_digits (internal_pod id) ++ [0].
Proof. done. Qed.

(** A name fills its buffer exactly, and names are different for different
    identifiers. *)
Lemma fill_name_spec id : Z.of_nat (length (fill_name id)) = StrSize ∧
  (-2 ^ 63 <= id < 2 ^ 63 → ∀ id', -2 ^ 63 <= id' < 2 ^ 63 → fill_name id = fill_name id' → id = id').
Proof.
  split; [done|]. intros H id' H' E. rewrite !fill_name_eq in E. apply app_inj_1 in E as [_ E]; [|done].
  apply app_inj_2 in E as [E _]; [|done]. apply internal_pod_inj; [done..|].
  rewrite <- (hex_roundtrip (internal_pod id)), E by apply internal_pod_chars. apply hex_roundtrip, internal_pod_chars.
Qed.

(** ** Ordered lists *)

Notation addr_sorted := (StronglySorted (λ e e' : Z * Z, e.1 < e'.1)).

Lemma lower_bound_take a l e : e ∈ take (lower_bound a l) l → e.1 < a.
Proof.
  induction l as [|x l IH]; cbn; [set_solver|]. destruct (Z.ltb_spec x.1 a); cbn; set_solver.
Qed.

Lemma lower_bound_drop a l e : addr_sorted l → e ∈ drop (lower_bound a l) l → a <= e.1.
Proof.
  induction 1 as [|x l Hs IH Hx]; cbn; [set_solver|]. destruct (Z.ltb_spec x.1 a); cbn; [done|].
  rewrite Forall_forall in Hx. intros [->|He%Hx]%elem_of_cons; lia.
Qed.

Lemma lower_bound_le a b l : a <= b → (lower_bound a l <= lower_bound b l)%nat.
Proof. intros Hab. induction l as [|x l IH]; cbn; [done|]. destruct (Z.ltb_spec x.1 a), (Z.ltb_spec x.1 b); lia. Qed.

Lemma elem_of_take_drop {A} n (l : list A) e : e ∈ l ↔ e ∈ take n l ∨ e ∈ drop n l.
Proof. rewrite <- elem_of_app. by rewrite take_drop. Qed.

Lemma addr_found_spec a l : addr_found a l = true ↔ ∃ id, (a, id) ∈ l.
Proof.
  unfold addr_found. rewrite existsb_exists. split.
  - intros ([a' id] & H & <-%Z.eqb_eq). exists id. by apply list_elem_of_In.
  - intros [id H]. exists (a, id). split; [by apply list_elem_of_In|apply Z.eqb_refl].
Qed.

Lemma sorted_pieces (l : list (Z * Z)) i j : addr_sorted l → (i <= j)%nat → addr_sorted (take i l ++ drop j l).
Proof.
  intros Hs Hij. rewrite <- (take_drop i l) in Hs. apply StronglySorted_app in Hs as (H1 & H2 & H3). apply StronglySorted_app. split_and!.
  - intros x y Hx Hy. apply H1; [done|]. replace j with (i + (j - i))%nat in Hy by lia. rewrite <- drop_drop in Hy.
    apply (elem_of_take_drop (j - i)). by right.
  - done.
  - replace j with (i + (j - i))%nat by lia. rewrite <- drop_drop. rewrite <- (take_drop (j - i) (drop i l)) in H3.
    by apply StronglySorted_app in H3 as (_ & _ & ?).
Qed.

Lemma addr_assign_spec a id l : addr_sorted l → addr_found a l = false →
  addr_sorted (addr_assign a id l) ∧ ∀ e, e ∈ addr_assign a id l ↔ e = (a, id) ∨ e ∈ l.
Proof.
  intros Hs Hf. unfold addr_assign. rewrite Hf. split.
  - rewrite <- (take_drop (lower_bound a l) l) in Hs. apply StronglySorted_app in Hs as (H1 & H2 & H3). apply StronglySorted_app. split_and!.
    + intros x y Hx [->|Hy]%elem_of_cons; [by apply (lower_bound_take a l)|by apply H1].
    + done.
    + constructor; [done|]. apply Forall_forall. intros x Hx. pose proof (lower_bound_drop a l x) as Hd.
      assert (x.1 ≠ a) as Hne; [|specialize (Hd ltac:(by rewrite <- (take_drop (lower_bound a l) l); apply StronglySorted_app) Hx); cbn; lia].
      intros <-. assert (addr_found x.1 l = true); [|congruence]. apply addr_found_spec. exists x.2.
      destruct x. apply (elem_of_take_drop (lower_bound z l)). by right.
  - intros e. rewrite elem_of_app, elem_of_cons, (elem_of_take_drop (lower_bound a l) l). naive_solver.
Qed.

(** The entries between two addresses. *)
Lemma lower_bound_range a b l e : addr_sorted l → a <= b →
  (e ∈ take (lower_bound b l - lower_bound a l) (drop (lower_bound a l) l) ↔ e ∈ l ∧ a <= e.1 < b) ∧
  (e ∈ take (lower_bound a l) l ++ drop (lower_bound b l) l ↔ e ∈ l ∧ (e.1 < a ∨ b <= e.1)).
Proof.
  intros Hs Hab. pose proof (lower_bound_le a b l Hab) as Hle. set (i := lower_bound a l) in *. set (j := lower_bound b l) in *.
  assert (drop i l = take (j - i) (drop i l) ++ drop j l) as Ed
    by (rewrite <- (take_drop (j - i) (drop i l)) at 1; rewrite drop_drop; do 2 f_equal; lia).
  assert (take j l = take i l ++ take (j - i) (drop i l)) as Et
    by (rewrite take_take_drop; f_equal; lia).
  pose proof (λ He, lower_bound_drop a l e Hs He) as D1. pose proof (λ He, lower_bound_drop b l e Hs He) as D2.
  pose proof (lower_bound_take a l e) as T1. pose proof (lower_bound_take b l e) as T2. fold i in D1, T1. fold j in D2, T2.
  rewrite Ed, elem_of_app in D1. rewrite Et, elem_of_app in T2. set (mid := take (j - i) (drop i l)) in *. rewrite (elem_of_take_drop i l e), Ed, !elem_of_app.
  split; (split; [|]).
  - intros He. specialize (D1 (or_introl He)). specialize (T2 (or_intror He)). split; [tauto|lia].
  - intros [[He|[He|He]] Hr]; [specialize (T1 He); lia|done|specialize (D2 He); lia].
  - intros [He|He]; [specialize (T1 He)|specialize (D2 He)]; (split; [tauto|lia]).
  - intros [[He|[He|He]] Hr]; [by left| |by right]. specialize (D1 (or_introl He)). specialize (T2 (or_intror He)). lia.
Qed.

Lemma sorted_nodup l : addr_sorted l → NoDup l.*1.
Proof.
  induction 1 as [|x l Hs IH Hx]; cbn; [constructor|]. constructor; [|done]. rewrite Forall_forall in Hx.
  intros (y & E & Hy%Hx)%list_elem_of_fmap. lia.
Qed.

Lemma addr_erase_spec a l : addr_sorted l → addr_found a l = true →
  addr_sorted (addr_erase a l) ∧ ∀ e, e ∈ addr_erase a l ↔ e ∈ l ∧ e.1 ≠ a.
Proof.
  intros Hs Hf. unfold addr_erase. rewrite Hf.
  assert (S (lower_bound a l) = lower_bound (a + 1) l) as E.
  { clear -Hs Hf. induction Hs as [|x l Hs IH Hx]; [done|]. cbn in Hf |- *. destruct (Z.eqb_spec x.1 a) as [Ex|Hne]; cbn in Hf.
    - destruct (Z.ltb_spec x.1 a), (Z.ltb_spec x.1 (a + 1)); try lia. f_equal. destruct l as [|y l]; [done|]. cbn.
      apply Forall_inv in Hx. destruct (Z.ltb_spec y.1 (a + 1)); [lia|done].
    - destruct (Z.ltb_spec x.1 a); [|apply addr_found_spec in Hf as [id Hid]; rewrite Forall_forall in Hx; specialize (Hx _ Hid); cbn in Hx; lia].
      destruct (Z.ltb_spec x.1 (a + 1)); [|lia]. f_equal. by apply IH. }
  rewrite E. split; [apply sorted_pieces; [done|lia]|]. intros e.
  rewrite (proj2 (lower_bound_range a (a + 1) l e Hs ltac:(lia))). split; intros [? ?]; (split; [done|lia]).
Qed.

(** ** The table *)

(** The live objects by their addresses: identifier, handle and kind. *)
Notation table := (gmap Z (Z * Z * sync_type)).

Class WinOSOk (O : WinOS) := {
  open_fresh o k name : os_open o k name ≠ 0 → o !! os_open o k name = None
}.

(** The map of identifiers, the open handles and their number. *)
Record core_ok (u : gmap Z Z) (o : gmap Z (sync_type * list Z)) (n : Z) (T : table) : Prop := {
  co_umap : ∀ id h, u !! id = Some h ↔ ∃ a k, T !! a = Some (id, h, k);
  co_open : ∀ h x, o !! h = Some x ↔ ∃ a id k, T !! a = Some (id, h, k) ∧ x = (k, fill_name id);
  co_id : ∀ a a' id h h' k k', T !! a = Some (id, h, k) → T !! a' = Some (id, h', k') → a = a';
  co_handle : ∀ a a' id id' h k k', T !! a = Some (id, h, k) → T !! a' = Some (id', h, k') → a = a';
  co_pos : ∀ a id h k, T !! a = Some (id, h, k) → h ≠ 0;
  co_num : n = u64 (Z.of_nat (size T))
}.

Record table_rep (s : handles) (T : table) : Prop := {
  tr_core : core_ok (umap_ s) (open_handles s) (num_handles_ s) T;
  tr_sorted : addr_sorted (map_ s);
  tr_addrs : ∀ a id, (a, id) ∈ map_ s ↔ ∃ h k, T !! a = Some (id, h, k)
}.

Lemma u64_add x y : u64 (u64 x + y) = u64 (x + y).
Proof. unfold u64. apply Zplus_mod_idemp_l. Qed.

(** One object less. *)
Lemma table_delete u o n T a id h k : core_ok u o n T → T !! a = Some (id, h, k) →
  core_ok (delete id u) (delete h o) (u64 (n - 1)) (delete a T).
Proof.
  intros [H1 H2 H3 H4 H5 H6] Ha. split.
  - intros id' h'. rewrite lookup_delete_Some, H1. split.
    + intros (Hne & a' & k' & Ha'). exists a', k'. apply lookup_delete_Some. split; [|done]. intros <-. congruence.
    + intros (a' & k' & [Hne Ha']%lookup_delete_Some). split; [|by eauto]. intros <-. by apply Hne, (H3 _ _ _ _ _ _ _ Ha Ha').
  - intros h' x. rewrite lookup_delete_Some, H2. split.
    + intros (Hne & a' & id' & k' & Ha' & ->). exists a', id', k'. split; [|done]. apply lookup_delete_Some. split; [|done]. intros <-. congruence.
    + intros (a' & id' & k' & [Hne Ha']%lookup_delete_Some & ->). split; [|by eauto 6]. intros <-. by apply Hne, (H4 _ _ _ _ _ _ _ Ha Ha').
  - intros a1 a2 i h1 h2 k1 k2 [_ E1]%lookup_delete_Some [_ E2]%lookup_delete_Some. by eapply H3.
  - intros a1 a2 i1 i2 h1 k1 k2 [_ E1]%lookup_delete_Some [_ E2]%lookup_delete_Some. by eapply H4.
  - intros a1 i1 h1 k1 [_ E1]%lookup_delete_Some. by eapply H5.
  - rewrite H6. pose proof (map_size_delete_Some a T ltac:(by eexists)) as E. assert (size T ≠ 0%nat) by (intros ->%map_size_empty_inv; set_solver).
    rewrite E. change (u64 (Z.of_nat (size T)) - 1) with (u64 (Z.of_nat (size T)) + -1). rewrite u64_add. f_equal. lia.
Qed.

(** One more. *)
Lemma table_insert u o n T a id h k : core_ok u o n T → T !! a = None → u !! id = None → h ≠ 0 → o !! h = None →
  core_ok (<[id := h]> u) (<[h := (k, fill_name id)]> o) (u64 (n + 1)) (<[a := (id, h, k)]> T).
Proof.
  intros [H1 H2 H3 H4 H5 H6] Ha Hu Hh Ho.
  assert (∀ a' h' k', T !! a' = Some (id, h', k') → False) as Nid
    by (intros a' h' k' E; assert (u !! id = Some h') by (apply H1; eauto); congruence).
  assert (∀ a' id' k', T !! a' = Some (id', h, k') → False) as Nh.
  { intros a' id' k' E. assert (o !! h = Some (k', fill_name id')) by (apply H2; eauto). congruence. }
  split.
  - intros id' h'. rewrite lookup_insert_Some, H1. split.
    + intros [[<- <-]|(Hne & a' & k' & E)]; [exists a, k; by rewrite lookup_insert_eq|].
      exists a', k'. rewrite lookup_insert_ne by congruence. done.
    + intros (a' & k' & [[<- [= <- <- <-]]|[Hne E]]%lookup_insert_Some); [by left|]. right. split; [|by eauto]. intros ->. by eapply Nid.
  - intros h' x. rewrite lookup_insert_Some, H2. split.
    + intros [[<- <-]|(Hne & a' & id' & k' & E & ->)]; [exists a, id, k; by rewrite lookup_insert_eq|].
      exists a', id', k'. rewrite lookup_insert_ne by congruence. done.
    + intros (a' & id' & k' & [[<- [= <- <- <-]]|[Hne E]]%lookup_insert_Some & ->); [by left|]. right. split; [|by eauto 6]. intros ->. by eapply Nh.
  - intros a1 a2 i h1 h2 k1 k2 [[<- E1]|[N1 E1]]%lookup_insert_Some [[<- E2]|[N2 E2]]%lookup_insert_Some; simplify_eq;
      [done|exfalso; by eapply Nid..|by eapply H3].
  - intros a1 a2 i1 i2 h1 k1 k2 [[<- E1]|[N1 E1]]%lookup_insert_Some [[<- E2]|[N2 E2]]%lookup_insert_Some; simplify_eq;
      [done|exfalso; by eapply Nh..|by eapply H4].
  - intros a1 i1 h1 k1 [[<- [= <- <- <-]]|[N1 E1]]%lookup_insert_Some; [done|by eapply H5].
  - rewrite H6, u64_add, map_size_insert_None by done. f_equal. lia.
Qed.

(** ** Operations *)

Section ops.
Context `{OOk : WinOSOk}.

(** Where the table knows neither the identifier nor the address. *)
Definition unknown (T : table) (id a : Z) : Prop := T !! a = None ∧ ∀ a' h k, T !! a' ≠ Some (id, h, k).

Lemma found_table s T a : table_rep s T → addr_found a (map_ s) = bool_decide (is_Some (T !! a)).
Proof.
  intros Hr. apply eq_true_iff_eq. rewrite addr_found_spec, bool_decide_eq_true. split.
  - intros [id (h & k & E)%(tr_addrs _ _ Hr)]. by eexists.
  - intros [[[id h] k] E]. exists id. apply (tr_addrs _ _ Hr). eauto.
Qed.

(** [obtain] of an object the table knows, and of one it does not know. *)
Lemma obtain_known s T open id a h k popen : table_rep s T → T !! a = Some (id, h, k) →
  obtain open id a popen s = Ret (Some (h, if popen then Some false else None), s).
Proof.
  intros Hr Ha. assert (umap_ s !! id = Some h) as Eu by (apply (co_umap _ _ _ _ (tr_core _ _ Hr)); eauto).
  pose proof (co_pos _ _ _ _ (tr_core _ _ Hr) _ _ _ _ Ha) as Hh. unfold obtain, mbind, M_bind, get, put. rewrite Eu. cbn.
  assert (nz h = true) as -> by (by apply negb_true_iff, Z.eqb_neq). cbn.
  assert (set_umap (umap_ s) s = s) as -> by (by destruct s). destruct popen; [|done]. by rewrite (found_table _ T a Hr), Ha.
Qed.

Lemma obtain_unknown s T k id a popen : table_rep s T → unknown T id a →
  match obtain (open_or_create k id) id a popen s with
  | Ret (Some (h, created), s') =>
      created = (if popen then Some true else None) ∧ open_handles s !! h = None ∧ table_rep s' (<[a := (id, h, k)]> T)
  | Ret (None, s') =>
      os_open (open_handles s) k (fill_name id) = 0 ∧ open_handles s' = open_handles s ∧
      num_handles_ s' = num_handles_ s ∧ umap_ s' = <[id := 0]> (umap_ s)
  | Fault _ => False
  end.
Proof.
  intros Hr [Ha Hid]. pose proof (tr_core _ _ Hr) as Hc.
  assert (umap_ s !! id = None) as Eu by (apply eq_None_not_Some; intros [h (a' & k' & E)%(co_umap _ _ _ _ Hc)]; by apply Hid in E).
  assert (addr_found a (map_ s) = false) as Ef by (rewrite (found_table _ T a Hr), Ha; done).
  destruct (addr_assign_spec a id _ (tr_sorted _ _ Hr) Ef) as [Hs Hm].
  unfold obtain, open_or_create, mbind, M_bind, get, put, modify. rewrite Eu, Ef. cbn -[fill_name addr_assign]. destruct (nz _) eqn:En; cbn -[fill_name addr_assign]; rewrite En; cbn -[fill_name addr_assign].
  - assert (os_open (open_handles s) k (fill_name id) ≠ 0) as Hne by (by apply negb_true_iff, Z.eqb_neq in En).
    pose proof (open_fresh _ _ _ Hne) as Hfr. set (h := os_open _ _ _) in *. split_and!; [done|done|]. split; cbn -[fill_name addr_assign]; rewrite ?insert_insert_eq.
    + by apply table_insert.
    + done.
    + intros a' id'. rewrite Hm, (tr_addrs _ _ Hr). setoid_rewrite lookup_insert_Some. split.
      * intros [[= -> ->]|(h' & k' & E)]; [exists h, k; by left|]. exists h', k'. right. split; [congruence|done].
      * intros (h' & k' & [[<- [= -> -> ->]]|[_ E]]); [by left|]. right. eauto.
  - split_and!; [by apply negb_false_iff, Z.eqb_eq in En|done|done|done].
Qed.

Lemma destroy_entries_ok l : ∀ s T, core_ok (umap_ s) (open_handles s) (num_handles_ s) T → NoDup l.*1 →
  (∀ a id, (a, id) ∈ l → ∃ h k, T !! a = Some (id, h, k)) →
  wp (destroy_entries l) s (λ _ s', map_ s' = map_ s ∧
    core_ok (umap_ s') (open_handles s') (num_handles_ s') (filter (λ '(a, _), a ∉ l.*1) T)).
Proof.
  induction l as [|[a id] l IH]; intros s T Hc Hnd Hl.
  - apply wp_ret. split; [done|]. rewrite map_filter_id; [done|]. set_solver.
  - destruct (Hl a id) as (h & k & Ha); [set_solver|]. apply NoDup_cons in Hnd as [Hni Hnd]. cbn. wp_steps.
    assert (umap_ s !! id = Some h) as -> by (apply (co_umap _ _ _ _ Hc); eauto). unfold close_handle. wp_steps.
    assert (open_handles s !! h = Some (k, fill_name id)) as Eo by (apply (co_open _ _ _ _ Hc); eauto 6).
    unfold put. cbn. apply wp_bind. unfold wp at 1. cbn. rewrite Eo. wp_steps. cbn.
    eapply wp_mono; [apply (IH _ (delete a T)); [by apply (table_delete _ _ _ _ _ _ _ k)|done|]|].
    + intros a' id' H. destruct (Hl a' id') as (h' & k' & E); [set_solver|]. exists h', k'. rewrite lookup_delete_ne; [done|]. intros <-.
      apply Hni. apply list_elem_of_fmap. by exists (a, id').
    + cbn. intros [] s' [-> Hc']. split; [done|]. replace (filter (λ '(a0, _), a0 ∉ a :: l.*1) T) with (filter (λ '(a0, _), a0 ∉ l.*1) (delete a T)); [done|].
      apply map_eq. intros a'. apply option_eq. intros x. rewrite !map_lookup_filter_Some, lookup_delete_Some. set_solver.
Qed.

Lemma destroy_range s T a n : table_rep s T → 0 <= n →
  wp (destroy_syncs_in_range a n) s (λ _ s', table_rep s' (filter (λ '(a', _), ¬ (a <= a' < a + n)) T)).
Proof.
  intros Hr Hn. unfold destroy_syncs_in_range. wp_steps. pose proof (tr_sorted _ _ Hr) as Hs.
  pose proof (λ e, lower_bound_range a (a + n) (map_ s) e Hs ltac:(lia)) as Hrange.
  set (l := take _ (drop _ _)) in *. eapply wp_mono; [apply (destroy_entries_ok l s T (tr_core _ _ Hr))|].
  - unfold l. rewrite fmap_take, fmap_drop. apply (sublist_NoDup _ (map_ s).*1); [by apply sorted_nodup|].
    etrans; [apply sublist_take|apply sublist_drop].
  - intros a' id' [H _]%Hrange. by apply (tr_addrs _ _ Hr).
  - intros [] s' [Em Hc]. wp_steps.
    assert (filter (λ '(a', _), a' ∉ l.*1) T = filter (λ '(a', _), ¬ (a <= a' < a + n)) T) as Ef.
    { apply map_filter_ext. intros a' [[id h] k] E. rewrite list_elem_of_fmap. split.
      - intros Hni Hra. apply Hni. exists (a', id). split; [done|]. apply Hrange. split; [|done]. apply (tr_addrs _ _ Hr). eauto.
      - intros Hra ([a1 id1] & -> & [_ H]%Hrange). done. }
    rewrite Ef in Hc. split; cbn; [done| |].
    + apply sorted_pieces; [done|]. apply lower_bound_le. lia.
    + intros a' id'. rewrite (proj2 (Hrange (a', id'))), (tr_addrs _ _ Hr). setoid_rewrite map_lookup_filter_Some. cbn. split.
      * intros [(h & k & E) H]. exists h, k. split; [done|lia].
      * intros (h & k & E & H). split; [eauto|lia].
Qed.

Lemma destroy_known s T a id h k : table_rep s T → T !! a = Some (id, h, k) →
  wp (destroy_handle id a) s (λ _ s', table_rep s' (delete a T)).
Proof.
  intros Hr Ha. pose proof (tr_core _ _ Hr) as Hc. unfold destroy_handle. wp_steps.
  assert (umap_ s !! id = Some h) as -> by (apply (co_umap _ _ _ _ Hc); eauto).
  assert (addr_found a (map_ s) = true) as Ef by (rewrite (found_table _ T a Hr), Ha; done).
  unfold close_handle, put. repeat (wp_steps; apply wp_bind; unfold wp at 1; cbn -[addr_erase]).
  rewrite Ef. destruct (addr_erase_spec a _ (tr_sorted _ _ Hr) Ef) as [Hs Hm]. wp_steps. apply wp_assert; [done|]. wp_steps.
  split; cbn -[addr_erase]; [by apply (table_delete _ _ _ _ _ _ _ k)|done|].
  intros a' id'. rewrite Hm, (tr_addrs _ _ Hr). setoid_rewrite lookup_delete_Some. cbn. naive_solver.
Qed.

Lemma destroy_unknown s T a id : table_rep s T → (∀ a' h k, T !! a' ≠ Some (id, h, k)) → destroy_handle id a s = Ret ((), s).
Proof.
  intros Hr Hid. unfold destroy_handle, mbind, M_bind, get. destruct (umap_ s !! id) as [h|] eqn:E; [|done].
  apply (co_umap _ _ _ _ (tr_core _ _ Hr)) in E as (a' & k & E). by apply Hid in E.
Qed.

Lemma dtor_check s T : table_rep s T → Z.of_nat (size T) < 2 ^ 64 →
  (sync_handles_dtor s = Ret ((), s) ↔ open_handles s = ∅).
Proof.
  intros Hr Hsz. pose proof (tr_core _ _ Hr) as Hc. unfold sync_handles_dtor, mbind, M_bind, get, boost_assert.
  rewrite (co_num _ _ _ _ Hc), u64_small by (unfold in_u64; lia).
  assert (open_handles s = ∅ ↔ T = ∅) as ->.
  { rewrite !map_empty. split.
    - intros H a. apply eq_None_not_Some. intros [[[id h] k] E].
      assert (open_handles s !! h = Some (k, fill_name id)) by (apply (co_open _ _ _ _ Hc); eauto 6). by rewrite H in *.
    - intros H h. apply eq_None_not_Some. intros [x (a & id & k & E & _)%(co_open _ _ _ _ Hc)]. by rewrite H in E. }
  rewrite <- map_size_empty_iff. destruct (Z.eqb_spec (Z.of_nat (size T)) 0); split; intros E; try done; lia.
Qed.

Definition obtain_of (k : sync_type) : Z → Z → bool → M handles (option (Z * option bool)) :=
  match k with MUTEX => obtain_mutex | SEMAPHORE => obtain_semaphore end.

Lemma ctor_rep : table_rep sync_handles_ctor ∅.
Proof.
  split; cbn; [|constructor|].
  - split; try done.
    + intros id h. rewrite lookup_empty. split; [done|by intros (? & ? & ?)].
    + intros h x. rewrite lookup_empty. split; [done|by intros (? & ? & ? & ? & _)].
  - intros a id. split; [set_solver|by intros (? & ? & ?)].
Qed.

(** C30: The table of handles of a process, as long as the system has refused to
    open no object.  It represents the live synchronisation objects by address, each
    with one identifier and one open handle, and the open handles are exactly those.
    Obtaining an object that is known returns its handle without change; one whose
    identifier and address are not known is opened under its name, entered with a
    fresh handle and counted.  If the system refuses, an exception is thrown, nothing
    is opened or counted, but the entry made for the object stays, and the table no
    longer represents the live objects (see [refused_open_stays]).  Destroying an
    object closes exactly its handle, closing a range of addresses closes exactly the
    handles of the objects in it, no assertion fails, and the destructor's check
    holds exactly if nothing is open.  A name fits its buffer, and objects with
    different identifiers have different names. *)
Theorem sync_handles_refine s T (Hr : table_rep s T) :
  (∀ kd a id h k popen, T !! a = Some (id, h, k) →
     obtain_of kd id a popen s = Ret (Some (h, if popen then Some false else None), s)) ∧
  (∀ k a id popen, unknown T id a →
     match obtain_of k id a popen s with
     | Ret (Some (h, created), s') =>
         created = (if popen then Some true else None) ∧ open_handles s !! h = None ∧ table_rep s' (<[a := (id, h, k)]> T)
     | Ret (None, s') =>
         os_open (open_handles s) k (fill_name id) = 0 ∧ open_handles s' = open_handles s ∧
         num_handles_ s' = num_handles_ s ∧ umap_ s' = <[id := 0]> (umap_ s)
     | Fault _ => False
     end) ∧
  (∀ a id h k, T !! a = Some (id, h, k) → wp (destroy_handle id a) s (λ _ s', table_rep s' (delete a T))) ∧
  (∀ a id, (∀ a' h k, T !! a' ≠ Some (id, h, k)) → destroy_handle id a s = Ret ((), s)) ∧
  (∀ a n, 0 <= n → wp (destroy_syncs_in_range a n) s (λ _ s', table_rep s' (filter (λ '(a', _), ¬ (a <= a' < a + n)) T))) ∧
  (Z.of_nat (size T) < 2 ^ 64 → (sync_handles_dtor s = Ret ((), s) ↔ open_handles s = ∅)) ∧
  (∀ a a' id id' h h' k k', T !! a = Some (id, h, k) → T !! a' = Some (id', h', k') → -2 ^ 63 <= id < 2 ^ 63 → -2 ^ 63 <= id' < 2 ^ 63 →
     a ≠ a' → h ≠ h' ∧ fill_name id ≠ fill_name id' ∧ Z.of_nat (length (fill_name id)) = StrSize).
Proof.
  split_and!.
  - intros [] a id h k popen Ha; by eapply obtain_known.
  - intros [] a id popen Hu; by apply obtain_unknown.
  - intros a id h k Ha. by eapply destroy_known.
  - intros a id Hid. by apply (destroy_unknown s T).
  - intros a n Hn. by apply destroy_range.
  - apply dtor_check, Hr.
  - intros a a' id id' h h' k k' E E' Hid Hid' Hne. pose proof (tr_core _ _ Hr) as Hc. split_and!.
    + intros <-. by apply Hne, (co_handle _ _ _ _ Hc _ _ _ _ _ _ _ E E').
    + intros En. apply (proj2 (fill_name_spec id)) in En as <-; [|done..]. by apply Hne, (co_id _ _ _ _ Hc _ _ _ _ _ _ _ E E').
    + apply (proj1 (fill_name_spec id)).
Qed.

(** Closing a region whose start is not the start of a page leaves the objects in
    its last bytes, as many as the region lies behind the page, in the table. *)
Lemma close_leaves_tail s T r : table_rep s T → m_base r ≠ 0 → 0 <= m_page_offset r → 0 <= m_size r →
  wp (close_syncs r) s (λ _ s', ∃ T', table_rep s' T' ∧ ∀ a, m_base r <= a < m_base r + m_size r →
    T' !! a = if decide (a < m_base r + m_size r - m_page_offset r) then None else T !! a).
Proof.
  intros Hr Hb Hp Hs. unfold close_syncs. destruct (Z.eqb_spec (m_base r) 0); [done|]. cbn.
  eapply wp_mono; [by apply destroy_range|]. intros [] s' Hr'. eexists. split; [exact Hr'|]. intros a Ha. unfold priv_map_address. case_decide.
  - apply map_lookup_filter_None. right. intros x _ Hn. apply Hn. lia.
  - destruct (T !! a) as [x|] eqn:E; [apply map_lookup_filter_Some|apply map_lookup_filter_None]; [split; [done|lia]|by left].
Qed.
End ops.

(** ** Runs *)

#[local] Instance demo_win : WinOS := {| os_open o _ _ := fresh ({[0]} ∪ dom o) |}.
#[local] Instance demo_win_ok : WinOSOk demo_win.
Proof. split. intros o k name _. cbn. apply not_elem_of_dom. pose proof (is_fresh (A := Z) ({[0]} ∪ dom o)) as H. set_solver. Qed.

(** A mutex is obtained and its pages are unmapped. *)
Lemma sync_handles_refine_witness :
  ∃ h s s', obtain_mutex 77 4200 true sync_handles_ctor = Ret (Some (h, Some true), s) ∧ num_handles_ s = 1 ∧
    table_rep s {[4200 := (77, h, MUTEX)]} ∧
    destroy_syncs_in_range 4096 4096 s = Ret ((), s') ∧ open_handles s' = ∅ ∧ sync_handles_dtor s' = Ret ((), s').
Proof.
  pose proof (proj1 (proj2 (sync_handles_refine sync_handles_ctor ∅ ctor_rep)) MUTEX 4200 77 true ltac:(by split)) as P.
  change (obtain_of MUTEX) with obtain_mutex in P.
  destruct (obtain_mutex 77 4200 true sync_handles_ctor) as [[[[h c]|] s]|] eqn:E; try (vm_compute in E; discriminate E).
  destruct P as (-> & _ & R). rewrite insert_empty in R. exists h, s.
  destruct (sync_handles_refine s _ R) as (_ & _ & _ & _ & Hd & _). specialize (Hd 4096 4096 ltac:(lia)).
  apply wp_run in Hd as ([] & s' & Ed & R'). exists s'. assert (num_handles_ s = 1) as En by (vm_compute in E; injection E as <- <-; done).
  rewrite map_filter_singleton_False in R' by lia.
  assert (open_handles s' = ∅) as Eo.
  { apply map_empty. intros x. apply eq_None_not_Some. by intros [y (? & ? & ? & H & _)%(co_open _ _ _ _ (tr_core _ _ R'))]. }
  split_and!; [done|done|done|done|done|].
  destruct (sync_handles_refine s' _ R') as (_ & _ & _ & _ & _ & Hz & _). apply Hz; [done|done].
Defined.

(** If the system refuses to open an object, the entry of its address stays behind:
    the next attempt fails an assertion, and destroying the object makes the number
    of handles wrap around. *)
Lemma refused_open_stays :
  let refuse := {| os_open _ _ _ := 0 |} in
  ∃ s, @obtain_mutex refuse 77 4200 false sync_handles_ctor = Ret (None, s) ∧
    obtain_mutex 77 4200 false s = Fault AssertFailed ∧
    match destroy_handle 77 4200 s with Ret (_, s') => num_handles_ s' = 18446744073709551615 | Fault _ => False end.
Proof. eexists. split; [by vm_compute|]. split; by vm_compute. Qed.
