(* ===== verification/ConditionAny.v ===== *)
(** Condition variables for any lock.

    Models [condition_any_algorithm] and [condition_any_wrapper] of
    sync/detail/condition_any_algorithm.hpp, with [lock_inverter] of
    sync/detail/locks.hpp, over any number of threads.  The external lock, the
    internal mutex and the internal condition variable are used by their contract:
    a lock is taken if it is free, a wait releases the internal mutex and falls
    asleep at once, and takes the mutex again when it is notified, times out or
    wakes up by itself.  Every lock, unlock, wait and notification is a step. *)

From S2P Require Import Prelude Atomic.

(** ** State *)

(** The words of the two locks, and the threads asleep on the condition variable. *)
Record cond_any := CondAny { external : bool; get_mutex : bool; get_condvar : list nat }.

Definition set_external (b : bool) (c : cond_any) : cond_any := CondAny b (get_mutex c) (get_condvar c).
Definition set_internal (b : bool) (c : cond_any) : cond_any := CondAny (external c) b (get_condvar c).
Definition set_sleepers (l : list nat) (c : cond_any) : cond_any := CondAny (external c) (get_mutex c) l.

(** A call of [wait] or [timed_wait], without or with a predicate. *)
Record wcall := WCall { w_timed : bool; w_pred : bool }.

(** The place of a thread; [out] tells that the wait timed out, [held] whether the
    thread that notifies has the external lock. *)
Inductive aloc :=
| AIdle                              (** without the external lock *)
| AHeld                              (** with it *)
| APred (w : wcall)                  (** before the predicate in the loop *)
| APredLast                          (** before the last predicate of a timed wait *)
| AInternal (w : wcall)              (** [internal_lock] *)
| AInvert (w : wcall)                (** [external_unlock]: unlocks the external lock *)
| ASwapped (w : wcall)               (** before [wait] of the condition variable *)
| AAsleep (w : wcall)
| AWoken (w : wcall) (out : bool)    (** takes the internal mutex again *)
| ALeave (w : wcall) (out : bool)    (** destructor of [internal_unlock] *)
| ARelock (w : wcall) (out : bool)   (** destructor of [external_unlock] *)
| SInternal (held broadcast : bool)  (** [signal] *)
| SNotify (held broadcast : bool)
| SLeave (held : bool).

Inductive achoice :=
| ALock | AUnlock                    (** the external lock *)
| AWait (w : wcall) | ANotify (broadcast : bool)
| AGo
| APredicate (b : bool)              (** the value of the predicate *)
| AWake (t : nat)                    (** the thread [notify_one] wakes *)
| ATimeout | ASpurious.

Inductive aevent :=
| AReleased                          (** a waiter has given up the external lock *)
| ASignal (broadcast : bool) (n : Z) (** a notification wakes [n] threads *)
| AReturned (b : bool)
| AException.

(** ** Steps *)

Definition outside (held : bool) : aloc := if held then AHeld else AIdle.

(** After the external lock was taken again. *)
Definition wait_returns (w : wcall) (out : bool) : aloc * list aevent :=
  if w_pred w then (if w_timed w && out then APredLast else APred w, []) else (AHeld, [AReturned (negb out)]).

(** [wait] and [timed_wait] of [condition_any_algorithm]. *)
Definition any_wait_step (t : nat) (ch : achoice) (l : aloc) (c : cond_any) : option (aloc * cond_any * list aevent) :=
  match l, ch with
  | AInternal w, AGo => if get_mutex c then None else Some (AInvert w, set_internal true c, [])
  | AInvert w, AGo => Some (ASwapped w, set_external false c, [AReleased])
  | ASwapped w, AGo => Some (AAsleep w, set_sleepers (t :: get_condvar c) (set_internal false c), [])
  | AAsleep w, AGo => if bool_decide (t ∈ get_condvar c) then None else Some (AWoken w false, c, [])
  | AAsleep w, ASpurious =>
      if bool_decide (t ∈ get_condvar c) then Some (AWoken w false, set_sleepers (filter (λ t', t' ≠ t) (get_condvar c)) c, []) else None
  | AAsleep w, ATimeout =>
      if w_timed w && bool_decide (t ∈ get_condvar c)
      then Some (AWoken w true, set_sleepers (filter (λ t', t' ≠ t) (get_condvar c)) c, []) else None
  | AWoken w out, AGo => if get_mutex c then None else Some (ALeave w out, set_internal true c, [])
  | ALeave w out, AGo => Some (ARelock w out, set_internal false c, [])
  | ARelock w out, AGo =>
      if external c then None else let '(l, ev) := wait_returns w out in Some (l, set_external true c, ev)
  | _, _ => None
  end.

Definition any_signal_step (ch : achoice) (l : aloc) (c : cond_any) : option (aloc * cond_any * list aevent) :=
  match l, ch with
  | SInternal held b, AGo => if get_mutex c then None else Some (SNotify held b, set_internal true c, [])
  | SNotify held true, AGo => Some (SLeave held, set_sleepers [] c, [ASignal true (Z.of_nat (length (get_condvar c)))])
  | SNotify held false, AGo => match get_condvar c with [] => Some (SLeave held, c, [ASignal false 0]) | _ => None end
  | SNotify held false, AWake t =>
      if bool_decide (t ∈ get_condvar c)
      then Some (SLeave held, set_sleepers (filter (λ t', t' ≠ t) (get_condvar c)) c, [ASignal false 1]) else None
  | SLeave held, AGo => Some (outside held, set_internal false c, [])
  | _, _ => None
  end.

(** [condition_any_wrapper], between lock and unlock of the external lock. *)
Definition any_next (t : nat) (ch : achoice) (l : aloc) (c : cond_any) : option (aloc * cond_any * list aevent) :=
  match l, ch with
  | AIdle, ALock => if external c then None else Some (AHeld, set_external true c, [])
  | AHeld, AUnlock => Some (AIdle, set_external false c, [])
  | AIdle, AWait w => Some (AIdle, c, [AException])
  | AHeld, AWait w => Some (if w_pred w then APred w else AInternal w, c, [])
  | APred w, APredicate b => Some (if b then (AHeld, c, [AReturned true]) else (AInternal w, c, []))
  | APredLast, APredicate b => Some (AHeld, c, [AReturned b])
  | AIdle, ANotify b => Some (SInternal false b, c, [])
  | AHeld, ANotify b => Some (SInternal true b, c, [])
  | (SInternal _ _ | SNotify _ _ | SLeave _), _ => any_signal_step ch l c
  | _, _ => any_wait_step t ch l c
  end.

Definition any_start (n : nat) : asys cond_any aloc := ASys (CondAny false false []) (replicate n AIdle).

(** ** Invariant *)

Definition has_external (l : aloc) : bool :=
  match l with
  | AHeld | APred _ | APredLast | AInternal _ | AInvert _ | SInternal true _ | SNotify true _ | SLeave true => true
  | _ => false
  end.

Definition has_internal (l : aloc) : bool :=
  match l with AInvert _ | ASwapped _ | ALeave _ _ | SNotify _ _ | SLeave _ => true | _ => false end.

Definition falls_asleep (l : aloc) : bool := match l with ASwapped _ => true | _ => false end.

(** The threads that gave up the external lock and were not woken since. *)
Definition unwoken (st : asys cond_any aloc) : Z :=
  tcount falls_asleep (a_threads st) + Z.of_nat (length (get_condvar (a_shared st))).

Record any_inv (c : cond_any) (ts : list aloc) : Prop := {
  ai_external : tcount has_external ts = b2z (external c);
  ai_internal : tcount has_internal ts = b2z (get_mutex c);
  ai_nodup : NoDup (get_condvar c);
  ai_asleep : ∀ t, t ∈ get_condvar c → ∃ w, ts !! t = Some (AAsleep w)
}.

(** A step that leaves the sleepers, or takes some away. *)
Lemma any_mk c ts t l l' c' : any_inv c ts → ts !! t = Some l →
  b2z (external c') - b2z (external c) = b2z (has_external l') - b2z (has_external l) →
  b2z (get_mutex c') - b2z (get_mutex c) = b2z (has_internal l') - b2z (has_internal l) →
  (NoDup (get_condvar c) → NoDup (get_condvar c')) → (∀ t', t' ∈ get_condvar c' → t' ≠ t ∧ t' ∈ get_condvar c) → any_inv c' (<[t := l']> ts).
Proof.
  intros [H1 H2 H3 H4] Ht He Hi Hd Hs. split.
  - destruct (tcount_split has_external ts t l l' Ht) as (r & _ & E & ->). lia.
  - destruct (tcount_split has_internal ts t l l' Ht) as (r & _ & E & ->). lia.
  - by apply Hd.
  - intros t' [Hne Hin]%Hs. rewrite list_lookup_insert_ne by done. by apply H4.
Qed.

(** A thread that is not asleep is not among the sleepers. *)
Lemma awake_not_in c ts t l : any_inv c ts → ts !! t = Some l → (∀ w, l ≠ AAsleep w) → t ∉ get_condvar c.
Proof. intros Hi Ht Hl [w Hw]%(ai_asleep _ _ Hi). rewrite Ht in Hw. simplify_eq. by eapply Hl. Qed.

(** A step that leaves them. *)
Lemma any_quiet c ts t l l' c' : any_inv c ts → ts !! t = Some l → (match l with AAsleep _ => t ∉ get_condvar c | _ => True end) →
  b2z (external c') - b2z (external c) = b2z (has_external l') - b2z (has_external l) →
  b2z (get_mutex c') - b2z (get_mutex c) = b2z (has_internal l') - b2z (has_internal l) →
  get_condvar c' = get_condvar c → any_inv c' (<[t := l']> ts).
Proof.
  intros Hi Ht Hl He Hm Hc. apply (any_mk c ts t l); rewrite ?Hc; try done. intros t' H'. split; [|done]. intros ->.
  by destruct l; first [by eapply awake_not_in in H'|idtac].
Qed.

(** A step that takes one of them away, the thread's own or another. *)
Lemma any_wakes c ts t l l' c' t1 : any_inv c ts → ts !! t = Some l → (match l with AAsleep _ => t1 = t | _ => True end) →
  b2z (external c') = b2z (external c) → has_external l' = has_external l →
  b2z (get_mutex c') = b2z (get_mutex c) → has_internal l' = has_internal l →
  get_condvar c' = filter (λ t', t' ≠ t1) (get_condvar c) → any_inv c' (<[t := l']> ts).
Proof.
  intros Hi Ht Hl He Hle Hm Hlm Hc. apply (any_mk c ts t l); rewrite ?Hc, ?Hle, ?Hlm; try done; [lia|lia|apply NoDup_filter|].
  intros t' [H1 H2]%list_elem_of_filter. split; [|done]. intros ->. destruct l; first [by eapply awake_not_in in H2|by subst].
Qed.

(** The word of a lock that a thread has. *)
Lemma any_held c ts t l : any_inv c ts → ts !! t = Some l →
  (has_external l = true → external c = true) ∧ (has_internal l = true → get_mutex c = true).
Proof.
  intros Hi Ht. split; intros Hl; [pose proof (tcount_pos has_external ts t l Ht Hl)|pose proof (tcount_pos has_internal ts t l Ht Hl)].
  - rewrite (ai_external _ _ Hi) in *. by destruct (external c).
  - rewrite (ai_internal _ _ Hi) in *. by destruct (get_mutex c).
Qed.

(** Steps at which only the words change. *)
Ltac lock_words :=
  (eapply any_quiet; [eassumption|eassumption|cbn..]);
  repeat match goal with H : external _ = _ |- _ => rewrite H | H : get_mutex _ = _ |- _ => rewrite H end;
  repeat first [done|match goal with |- context [external ?c] => by destruct (external c) | |- context [get_mutex ?c] => by destruct (get_mutex c) end].

Lemma any_step c ts t ch l l' c' ev : any_inv c ts → ts !! t = Some l → any_next t ch l c = Some (l', c', ev) →
  any_inv c' (<[t := l']> ts).
Proof.
  intros Hi Ht Hn. destruct (any_held c ts t l Hi Ht) as [Hx Hm].
  destruct l as [| |w| |w|w|w|w|w out|w out|w out|[] []|[] []|[]], ch; try discriminate Hn; cbn in Hn, Hx, Hm.
  all: first [specialize (Hx eq_refl)|clear Hx]; first [specialize (Hm eq_refl)|clear Hm].
  all: try (destruct (external c) eqn:Hx; [discriminate Hn|]).
  all: try (destruct (get_mutex c) eqn:Hm; [discriminate Hn|]).
  all: try (injection Hn as <- <- <-; lock_words; fail).
  - injection Hn as <- <- <-. destruct (w_pred w); lock_words.
  - destruct b; injection Hn as <- <- <-; lock_words.
  - injection Hn as <- <- <-. split; cbn.
    + destruct (tcount_split has_external ts t _ (AAsleep w) Ht) as (r & _ & E & ->). rewrite (ai_external _ _ Hi) in E. cbn in *. lia.
    + destruct (tcount_split has_internal ts t _ (AAsleep w) Ht) as (r & _ & E & ->). rewrite (ai_internal _ _ Hi), Hm in E. cbn in *. lia.
    + constructor; [by eapply awake_not_in|apply (ai_nodup _ _ Hi)].
    + pose proof (lookup_lt_Some _ _ _ Ht). intros t' [->|[w' Hw]%(ai_asleep _ _ Hi)]%elem_of_cons; [exists w; by rewrite list_lookup_insert_eq|].
      exists w'. rewrite list_lookup_insert_ne; [done|]. intros <-. rewrite Ht in Hw. discriminate.
  - case_bool_decide as Hd; [discriminate Hn|]. injection Hn as <- <- <-. apply (any_quiet c ts t _ _ _ Hi Ht); cbn; try done; lia.
  - destruct (w_timed w && _); [|discriminate Hn]. injection Hn as <- <- <-. by eapply (any_wakes c ts t).
  - case_bool_decide; [|discriminate Hn]. injection Hn as <- <- <-. by eapply (any_wakes c ts t).
  - unfold wait_returns in Hn. destruct (w_pred w), (w_timed w && out); injection Hn as <- <- <-; lock_words.
  - injection Hn as <- <- <-. apply (any_mk c ts t _ _ _ Hi Ht); cbn; rewrite ?Hx, ?Hm; try done; [constructor|set_solver].
  - destruct (get_condvar c); [|discriminate Hn]. injection Hn as <- <- <-; lock_words.
  - case_bool_decide; [|discriminate Hn]. injection Hn as <- <- <-. by eapply (any_wakes c ts t).
  - injection Hn as <- <- <-. apply (any_mk c ts t _ _ _ Hi Ht); cbn; rewrite ?Hm; try done; [lia|constructor|set_solver].
  - destruct (get_condvar c); [|discriminate Hn]. injection Hn as <- <- <-; lock_words.
  - case_bool_decide; [|discriminate Hn]. injection Hn as <- <- <-. by eapply (any_wakes c ts t).
Qed.

Lemma any_run_inv n sched st ev : arun any_next sched (any_start n) = Some (st, ev) → any_inv (a_shared st) (a_threads st).
Proof.
  apply (arun_ind any_next (λ st _, any_inv (a_shared st) (a_threads st))).
  - intros [c ts] es t ch st' ev' Hi (l & l' & c' & Ht & Hn & ->)%astep_inv. by eapply any_step.
  - split; cbn; [by rewrite tcount_replicate..|constructor|set_solver].
Qed.

(** ** Progress *)

(** The code of some thread can go on. *)
Definition can_go (st : asys cond_any aloc) : Prop :=
  ∃ t ch st' ev, astep any_next t ch st = Some (st', ev) ∧ (ch = AGo ∨ ∃ t', ch = AWake t').

Lemma go_step c ts t l ch l' c' ev : ts !! t = Some l → any_next t ch l c = Some (l', c', ev) →
  (ch = AGo ∨ ∃ t', ch = AWake t') → can_go (ASys c ts).
Proof. intros Ht Hn Hch. exists t, ch, (ASys c' (<[t := l']> ts)), ev. split; [|done]. unfold astep. cbn. rewrite Ht. cbn. by rewrite Hn. Qed.

(** A thread that has the internal mutex needs nothing else. *)
Lemma internal_goes c ts t l : ts !! t = Some l → has_internal l = true → can_go (ASys c ts).
Proof.
  intros Ht Hl. destruct l as [| |w| |w|w|w|w|w out|w out|w out|held b|held b|held]; try discriminate Hl.
  4: { destruct b; [by eapply (go_step c ts t _ AGo); [done|done|left]|]. destruct (get_condvar c) as [|t' q] eqn:Eq.
    - eapply (go_step c ts t _ AGo); [done|cbn; by rewrite Eq|by left].
    - eapply (go_step c ts t _ (AWake t')); [done|cbn; rewrite Eq, bool_decide_eq_true_2 by set_solver; done|right; by exists t']. }
  all: by eapply (go_step c ts t _ AGo); [done|done|left].
Qed.

Definition wants_internal (l : aloc) : bool := match l with AInternal _ | AWoken _ _ | SInternal _ _ => true | _ => false end.

Lemma wants_goes c ts t l : any_inv c ts → ts !! t = Some l → wants_internal l = true → can_go (ASys c ts).
Proof.
  intros Hi Ht Hl. destruct (get_mutex c) eqn:Em.
  - destruct (tcount_exists has_internal ts) as (t' & l' & Ht' & Hl'); [rewrite (ai_internal _ _ Hi), Em; cbn; lia|]. by eapply internal_goes.
  - destruct l as [| |w| |w|w|w|w|w out|w out|w out|held b|held b|held]; try discriminate Hl; (eapply (go_step c ts t _ AGo); [done|cbn; by rewrite Em|by left]).
Qed.

(** Between two calls, or in the predicate of the caller. *)
Definition with_caller (l : aloc) : bool := match l with AIdle | AHeld | APred _ | APredLast => true | _ => false end.

Lemma any_progress c ts t l : any_inv c ts → ts !! t = Some l → with_caller l = false → t ∉ get_condvar c →
  can_go (ASys c ts) ∨ ∃ t' l', ts !! t' = Some l' ∧ with_caller l' = true ∧ has_external l' = true.
Proof.
  intros Hi Ht Hl Hs. destruct (has_internal l) eqn:Ei; [left; by eapply internal_goes|].
  destruct (wants_internal l) eqn:Ew; [left; by eapply wants_goes|].
  destruct l as [| |w| |w|w|w|w|w out|w out|w out|held b|held b|held]; try discriminate Hl; try discriminate Ei; try discriminate Ew.
  - left. eapply (go_step c ts t _ AGo); [done|cbn; by rewrite bool_decide_eq_false_2|by left].
  - destruct (external c) eqn:Ex.
    + destruct (tcount_exists has_external ts) as (t' & l' & Ht' & Hl'); [rewrite (ai_external _ _ Hi), Ex; cbn; lia|].
      destruct (with_caller l') eqn:Ec; [right; by exists t', l'|left].
      destruct (has_internal l') eqn:Ei'; [by eapply internal_goes|]. destruct (wants_internal l') eqn:Ew'; [by eapply (wants_goes c ts t')|].
      destruct l'; discriminate.
    + left. destruct (wait_returns w out) as [l' ev] eqn:E. eapply (go_step c ts t _ AGo); [done|cbn; by rewrite Ex, E|by left].
Qed.

(** ** Notifications *)

Definition released (e : aevent) : bool := match e with AReleased => true | _ => false end.
Definition woken_by (e : aevent) : Z := match e with ASignal _ n => n | _ => 0 end.

(** Whether a waiter may wake up without a notification. *)
Definition notified_only (ch : achoice) : Prop := ch ≠ ATimeout ∧ ch ≠ ASpurious.

(** Taking one sleeper away. *)
Lemma filter_length (t : nat) (l : list nat) : NoDup l → t ∈ l → Z.of_nat (length (filter (λ t', t' ≠ t) l)) = Z.of_nat (length l) - 1.
Proof.
  induction 1 as [|x l Hx Hnd IH]; [set_solver|]. intros Hin. rewrite filter_cons. case_decide as Hd.
  - cbn. rewrite Nat2Z.inj_succ, IH by set_solver. lia.
  - subst x. cbn. assert (filter (λ t', t' ≠ t) l = l) as ->; [|lia].
    clear -Hx. induction l as [|y l IH]; [done|]. rewrite filter_cons, decide_True by set_solver. f_equal. apply IH. set_solver.
Qed.

(** While a thread notifies, every waiter that gave up its lock is asleep. *)
Lemma notifier_alone c ts t held b : any_inv c ts → ts !! t = Some (SNotify held b) → tcount falls_asleep ts = 0.
Proof.
  intros Hi Ht. pose proof (tcount_nonneg falls_asleep ts). destruct (Z.eq_dec (tcount falls_asleep ts) 0) as [|Hne]; [done|].
  destruct (tcount_exists falls_asleep ts) as (t' & l' & Ht' & Hl'); [lia|].
  assert (2 <= tcount has_internal ts) as H2; [|rewrite (ai_internal _ _ Hi) in H2; destruct (get_mutex c); cbn in H2; lia].
  apply (tcount_two has_internal ts t t' _ _ ltac:(intros <-; rewrite Ht in Ht'; by simplify_eq) Ht Ht'); [done|by destruct l'].
Qed.

Lemma unwoken_step c ts t ch l l' c' ev : any_inv c ts → ts !! t = Some l → any_next t ch l c = Some (l', c', ev) →
  (notified_only ch → unwoken (ASys c' (<[t := l']> ts)) = unwoken (ASys c ts) + tcount released ev - tsum woken_by ev) ∧
  (∀ b n, ASignal b n ∈ ev → n = if b then unwoken (ASys c ts) else Z.min 1 (unwoken (ASys c ts))).
Proof.
  intros Hi Ht Hn. unfold unwoken. cbn [a_shared a_threads].
  destruct (tcount_split falls_asleep ts t l l' Ht) as (r & Hr & E & ->). pose proof (ai_nodup _ _ Hi) as Hnd.
  assert (∀ held b, l = SNotify held b → r = 0) as Hz by (intros held b ->; pose proof (notifier_alone _ _ _ _ _ Hi Ht); cbn in *; lia).
  rewrite E. clear E.
  destruct l as [| |w| |w|w|w|w|w out|w out|w out|held [] |held []|held], ch; try discriminate Hn; cbn in Hn.
  all: try (destruct (external c); [discriminate Hn|]).
  all: try (destruct (get_mutex c); [discriminate Hn|]).
  all: try (injection Hn as <- <- <-; cbn; split; [lia|set_solver]).
  - injection Hn as <- <- <-. destruct (w_pred w); cbn; (split; [lia|set_solver]).
  - destruct b; injection Hn as <- <- <-; cbn; (split; [lia|set_solver]).
  - case_bool_decide; [discriminate Hn|]. injection Hn as <- <- <-. cbn. split; [lia|set_solver].
  - destruct (w_timed w && _); [|discriminate Hn]. injection Hn as <- <- <-. split; [by intros [? _]|set_solver].
  - case_bool_decide; [|discriminate Hn]. injection Hn as <- <- <-. split; [by intros [_ ?]|set_solver].
  - unfold wait_returns in Hn. destruct (w_pred w), (w_timed w && out); injection Hn as <- <- <-; cbn; (split; [lia|set_solver]).
  - specialize (Hz _ _ eq_refl). destruct (get_condvar c) eqn:Eq; [|discriminate Hn]. injection Hn as <- <- <-. rewrite Eq. cbn. split; [lia|].
    intros b n [= -> ->]%list_elem_of_singleton. lia.
  - specialize (Hz _ _ eq_refl). case_bool_decide as Hin; [|discriminate Hn]. injection Hn as <- <- <-. cbn.
    rewrite (filter_length _ _ Hnd Hin). split; [lia|]. intros b n [= -> ->]%list_elem_of_singleton. destruct (get_condvar c); [set_solver|cbn; lia].
  - injection Hn as <- <- <-. destruct held; cbn; (split; [lia|set_solver]).
Qed.

Lemma unwoken_run n sched st ev : Forall (λ tc, notified_only tc.2) sched → arun any_next sched (any_start n) = Some (st, ev) →
  unwoken st = tcount released ev - tsum woken_by ev.
Proof.
  intros HP Hrun. enough (any_inv (a_shared st) (a_threads st) ∧ unwoken st = tcount released ev - tsum woken_by ev) by tauto. revert Hrun.
  apply (arun_ind_on any_next notified_only (λ st ev, any_inv (a_shared st) (a_threads st) ∧ unwoken st = tcount released ev - tsum woken_by ev)); [|done|].
  - intros [c ts] es t ch st' ev' Hch [Hi Hu] (l & l' & c' & Ht & Hn & ->)%astep_inv. split; [by eapply any_step|].
    destruct (unwoken_step c ts t ch l l' c' ev' Hi Ht Hn) as [U _]. rewrite (U Hch), Hu, tcount_app, tsum_app. lia.
  - split; [|unfold unwoken; cbn; by rewrite tcount_replicate]. apply (any_run_inv n [] _ []). done.
Qed.

Lemma signals_alone t ch l c l' c' ev b k : any_next t ch l c = Some (l', c', ev) → ASignal b k ∈ ev →
  ev = [ASignal b k] ∧ notified_only ch.
Proof.
  intros Hn Hk. destruct l as [| |w| |w|w|w|w|w out|w out|w out|held [] |held []|held], ch; try discriminate Hn; cbn in Hn.
  all: unfold wait_returns in Hn; repeat (case_match; try discriminate Hn); simplify_eq; try set_solver.
  all: split; [set_solver|by split].
Qed.

(** C29: A condition variable for any lock, under any interleaving of waits with and
    without deadline or predicate and of notifications, with or without the lock.
    At most one thread has the external lock and at most one the internal mutex, and
    their words tell so.  A notification wakes all threads, respectively one, of
    those that have given up the external lock in a wait and were not woken since,
    so none that waits when the notifier could see it is missed; apart from time-outs
    and spurious wake-ups, the unwoken threads are those that gave up the lock minus
    those woken by notifications.  The code does not deadlock: if some call is in
    progress and its thread is not asleep, then a thread can go on, or the external
    lock is with a caller. *)
Theorem condition_any_exact n sched st ev (Hrun : arun any_next sched (any_start n) = Some (st, ev)) :
  let c := a_shared st in
  (tcount has_external (a_threads st) = b2z (external c) ∧ tcount has_internal (a_threads st) = b2z (get_mutex c)) ∧
  (∀ t ch st' ev' b k, astep any_next t ch st = Some (st', ev') → ASignal b k ∈ ev' →
     k = (if b then unwoken st else Z.min 1 (unwoken st)) ∧ unwoken st' = unwoken st - k) ∧
  (Forall (λ tc, notified_only tc.2) sched → unwoken st = tcount released ev - tsum woken_by ev) ∧
  (∀ t l, a_threads st !! t = Some l → with_caller l = false → t ∉ get_condvar c →
     can_go st ∨ ∃ t' l', a_threads st !! t' = Some l' ∧ with_caller l' = true ∧ has_external l' = true).
Proof.
  pose proof (any_run_inv n sched st ev Hrun) as Hi. pose proof (unwoken_run n sched st ev) as Hu. destruct st as [c ts]. cbn in *. split_and!.
  - apply (ai_external _ _ Hi).
  - apply (ai_internal _ _ Hi).
  - intros t ch st' ev' b k (l & l' & c' & Ht & Hn & ->)%astep_inv Hk.
    destruct (unwoken_step c ts t ch l l' c' ev' Hi Ht Hn) as [U1 U2]. split; [by apply U2|].
    destruct (signals_alone _ _ _ _ _ _ _ _ _ Hn Hk) as [-> Hch]. rewrite U1 by done. cbn. lia.
  - intros HP. by apply Hu.
  - intros t l Ht Hl Hs. by eapply any_progress.
Qed.

(** Two threads wait, the third notifies all. *)
Definition any_demo : list (nat * achoice) :=
  let w := WCall false false in
  (0%nat, ALock) :: (0%nat, AWait w) :: replicate 3 (0%nat, AGo) ++ (1%nat, ALock) :: (1%nat, AWait w) :: replicate 3 (1%nat, AGo) ++
  (2%nat, ANotify true) :: (2%nat, AGo) :: nil.

Lemma condition_any_exact_witness :
  ∃ st ev, arun any_next any_demo (any_start 3) = Some (st, ev) ∧ unwoken st = 2 ∧
    ∃ st', astep any_next 2 AGo st = Some (st', [ASignal true 2]) ∧ unwoken st' = 0.
Proof.
  destruct (arun any_next any_demo (any_start 3)) as [[st ev]|] eqn:E; [|vm_compute in E; discriminate E].
  exists st, ev. assert (unwoken st = 2) as Eu by (vm_compute in E; injection E as <- <-; done).
  split_and!; [done|done|].
  assert (∃ st', astep any_next 2 AGo st = Some (st', [ASignal true 2])) as [st' Es] by (vm_compute in E; injection E as <- <-; eexists; reflexivity).
  exists st'. split; [done|].
  destruct (condition_any_exact 3 any_demo st ev E) as (_ & K & _). destruct (K _ _ _ _ true 2 Es) as [_ ->]; [set_solver|]. by rewrite Eu.
Defined.
